(* ===== verification/_CoqProject ===== *)
-Q . S2P
Prelude.v
Words.v
Memory.v
Types.v
Device.v
Mmu.v
DramAccess.v
Isa.v
Decode.v
Allocator.v
Cpu.v
Exec.v
Assembler.v
Sequences.v
Trace.v
Step.v
Refine.v
Expansion.v
Cycles.v
Alu64.v
Mem64.v
Amo64.v
Div64.v
DivComplete.v
Machine.v
Field.v
LookupTables.v
TableMl.v
BitOps.v
TableMle.v
TableMleRest.v
TableMleShift.v
TableMleRot.v
Tables.v
InstructionLookup.v
InstructionEntries.v
Lookups.v
LinComb.v
R1cs.v
R1csMeaning.v
Bytecode.v
R1csRows.v
RowShape.v
RowExec.v
RowMem.v
RowSat.v
RowTrace.v
Carry.v
Ring2k.v
RingCarry.v
MpcNet.v
Rep3Ctx.v
Rep3Rules.v
Rep3Share.v
Rep3Arith.v
Rep3Correct.v
Rep3Sample.v
Rep3Theorems.v
Rep3Binary.v
Rep3BinCorrect.v
Rep3BinMany.v
Rep3BinTheorems.v
Rep3Ring.v
Rep3RingCorrect.v
Rep3RingBin.v
Rep3RingConv.v
Rep3RingMany.v
Rep3RingConvMany.v
Rep3RingTheorems.v
Rep3Preproc.v
Rep3PreprocCorrect.v
BackingStore.v
KeyStream.v
LazyEdaBits.v
LazyEdaBitsCorrect.v
LazyEdaBitsRing.v
LazyDaBits.v
PoolExtension.v
PreprocSample.v
PreprocTheorems.v
