(* ===== verification/Prelude.v ===== *)
(** * ProviaVM: a verification of the traced virtual machine and its constraint system

    ProviaVM proves the execution of RISC-V programs: a guest program is traced
    by an emulator, and the trace is proved with lookup arguments and
    a uniform constraint system, the prover being run by three parties on
    secret-shared data.  This library models, as executable functions, the part
    of the system that decides what is proved, and proves that the parts agree:

      program --decode--> instructions --expand--> bytecode
      program --tick-->   cycles --from_trace--> rows --> constraints, lookups

    ** The tracer ([src/jolt/jolt-tracer/src])

    - [Words]: machine integers as [Z] with the casts of Rust written out, the
      build configuration (class [Build]: 64-bit feature, overflow checks,
      debug assertions).
    - [Memory], [Types], [Device], [Mmu], [DramAccess]: [emulator/memory.rs]
      (vector of 64-bit words), [common/jolt_device.rs] (layout and I/O device),
      [emulator/mmu.rs] (loads, stores, translation, traced accesses).
    - [Isa], [Decode]: formats, [Instruction], [Instruction::decode],
      [uncompress_instruction] ([instruction/mod.rs], [instruction/format]).
    - [Allocator], [Assembler], [Sequences]: [utils/virtual_registers.rs],
      [utils/inline_helpers.rs] and [inline_sequence] of every instruction.
    - [Cpu], [Exec], [Trace]: [emulator/cpu.rs], [exec] and [trace] of every
      instruction, [Cpu::tick].
    - [Step], [Refine], [Expansion], [Cycles], [Alu64], [Mem64], [Amo64],
      [Div64], [DivComplete], [Machine]: lemmas and theorems.

    Operations of [&mut self] are state passing ([ST S A]) with the state a
    record of the fields; a panic is the value [Panic] of [Res], so a theorem
    that a call returns [Ok] also says that it does not panic.  The recursion of
    [inline_sequence] through the assembler (an emitted instruction is
    expanded in turn) and of [trace] runs on fuel; the depth of expansion is at
    most 4 and the fuel is 8; [expansion_well_formed] shows that it is enough.

    [Machine] shows that tracing an instruction through its virtual sequence
    refines executing it, that execution does what the RISC-V manual says for
    the register, memory and atomic instructions of RV64IMA, that expansions are
    well formed and are what the trace records, and which division sequences
    determine their result.  [Memory] and [Device] show that the optimised
    accesses are little-endian byte accesses, round trips, and the layout
    invariant.

    ** Lookups ([src/jolt/jolt-core/src/zkvm/lookup_table], [zkvm/instruction])

    - [Field]: the interface of the field (class [JoltField], instances for the
      scalar field of BN254 and for [Z]), multilinear extensions.
    - [LookupTables]: [materialize_entry] and [evaluate_mle] of all tables.
    - [TableMl], [BitOps], [TableMle], [TableMleRest], [TableMleShift],
      [TableMleRot], [Tables]: [evaluate_mle] is the multilinear extension of the
      table, where entries are defined, bounds of the accumulators.
    - [InstructionLookup], [InstructionEntries], [Lookups]: circuit flags, lookup
      operands, index and output of every instruction; the output is the
      entry of the table at the index.

    ** Constraints and bytecode ([zkvm/r1cs], [zkvm/bytecode])

    - [LinComb], [R1cs], [R1csMeaning]: linear combinations, the 26
      constraints, the integer evaluators of the prover; a row satisfies the
      constraints exactly when it records a machine step ([row_holds]).
    - [Bytecode]: preprocessing and the map of program counters.
    - [R1csRows], [RowShape], [RowExec], [RowMem], [RowSat], [RowTrace]:
      [R1CSCycleInputs::from_trace]; the row of every cycle of the 64-bit tracer
      satisfies the constraints, and the cycles that do not.

    ** Multi-party protocols ([src/mpc-core/src/protocols/rep3], [network.rs])

    Every party holds two of the three summands of a secret; the prover's
    arithmetic on secrets is protocols between the three.

    - [MpcNet]: a party is a process ([Proc]: return, error, panic, send,
      receive); the system is three of them and a queue for every pair, and
      a step moves one party.  Every schedule of a system that can end ends it,
      in the same state ([ends_always_ends]): theorems that a protocol [delivers]
      a result, or that all parties return an error, hold for all interleavings.
    - [Rep3Ctx]: [IoContext], the operations of [Rep3Network], the correlated
      generators of [rngs.rs] and the set-up that establishes them.
    - [Rep3Rules]: rules to derive what a protocol computes from the parts.
    - [Rep3Share], [Rep3Arith]: shares, the protocols of [arithmetic.rs].
      [Carry], [Rep3Binary]: carries of an addition; gates on shared bits, the
      adders of [detail.rs], [conversion.rs] and the comparisons.
    - [Rep3Correct], [Rep3BinCorrect], [Rep3BinMany]: what each protocol
      computes.  [Rep3Theorems], [Rep3BinTheorems]: circuits of protocol calls
      reveal what the circuit computes in the clear; conversions, adders and
      comparisons; errors and panics.  [Rep3Sample] is a field of 101 elements
      with a generator, on which the examples run.

    The protocols over rings ([protocols/rep3_ring]) have the same structure:

    - [Ring2k]: the types of integers modulo a power of two, their operators as
      implemented, casts and byte format; every one is the operation of the ring.
      [RingCarry]: the Kogge-Stone recurrence that the adders follow.
    - [Rep3Ring]: shares, [arithmetic.rs], [binary.rs], [detail.rs],
      [conversion.rs], [casts.rs].  [Rep3RingCorrect], [Rep3RingBin],
      [Rep3RingConv], [Rep3RingMany], [Rep3RingConvMany]: what each computes, one
      element at a time and batched.  [Rep3RingTheorems]: arithmetic, adders,
      conversions, comparisons and casts, and the panics of the types whose
      width is not a power of two.

    ** Preprocessing ([src/mpc-core/src/preprocessing])

    Bits that are correlated between the parties are made ahead of time, kept in
    pools and used up by conversions.

    - [Rep3Preproc], [Rep3PreprocCorrect]: the conversions of [casts.rs] and
      [conversion.rs] that use them, and what they compute from correlated bits.
    - [BackingStore]: [backing_store.rs], a sequence of elements in memory or in a
      file, and the bytes of the files that describe a pool.
    - [KeyStream]: the seekable generator (class [StreamRng]: ChaCha is a stream of
      bytes for a seed), [seek_and_generate] and [parse_field].
    - [LazyEdaBits], [LazyEdaBitsCorrect]: the pool of [edabits.rs] with its cache and
      reservations refines the stream of its items; the pools of three
      parties are correlated after [random_edabits_lazy] and stay so.
      [LazyEdaBitsRing], [LazyDaBits]: the pools in the ring and of single bits.
    - [PoolExtension]: the plans and the extension of [pool.rs], message by message,
      with the monad laws of a party's programs up to the continuations of
      receives, an equivalence that protocols respect.
    - [PreprocTheorems]: a session that takes batches and converts delivers shares
      of the values for every schedule; the cases in which pools lose items or
      fall out of step.  [PreprocSample] is a field of 130 bits, proved prime,
      with a stream, for the examples.

    The loops of the plans, of the cache and of the messages recurse on fuel, the
    number of items; [segment_loops_end] and the specifications show that
    they end before it runs out.  Theorems on pools ask for field elements
    of at least 16 bytes, which is what [parse_field] reads.

    Loops that halve a width ([or_tree], [is_zero]) recurse on fuel, the length or
    width they start with, and the specifications show that they end before it
    runs out.  The field, its canonical integers, inverse and square root are the
    class [PrimeField]; the generator is the class [RngOps]; serialization is the
    class [Wire], whose law is that what is sent is what is received.

    The signed integers of [ark-ff] are the class [SignedInts], with the laws
    the code relies on and the instance [sample_ints].  Inlines registered by
    other crates are the class [InlineRegistry].

    ** Not modelled

    ELF parsing, files and printed output; serialization; the prefix and suffix
    decomposition of the tables, the sumchecks, polynomial commitments and the
    transcript of jolt-core, which rest on curve and field libraries outside the
    sources; of the MPC layer the transport (mpc-net), the pool of forked contexts,
    compressed share vectors, one-hot vectors, wrap masks and shares of curve
    points; of preprocessing the first generation into files on several lanes and the
    directories of the field pools; the worker and the coordinator; the guest SDK and its
    macros.  The theorems on tracing, expansion and rows are about the 64-bit
    machine; the 32-bit definitions are present. *)

From Stdlib Require Import ZArith Lia List Bool String.
From stdpp Require Import base list.
Import ListNotations.
#[global] Open Scope Z_scope.

(** ** Outcomes of Rust code

    [Ok] is a normal return, [Panic] a Rust panic (failed [assert!],
    [unwrap]/[expect] on the wrong variant, index out of bounds, checked
    overflow), [OutOfFuel] the artefact of a bounded recursion; theorems about
    recursive functions show that it is not reached. *)
Inductive Res (A : Type) : Type :=
| Ok (a : A)
| Panic
| OutOfFuel.
Arguments Ok {A} a.
Arguments Panic {A}.
Arguments OutOfFuel {A}.

Definition res_bind {A B : Type} (m : Res A) (k : A -> Res B) : Res B :=
  match m with
  | Ok a => k a
  | Panic => Panic
  | OutOfFuel => OutOfFuel
  end.

(** State passing over [S], with panics: the shape of a Rust method that takes
    [&mut self]. *)
Definition ST (S A : Type) : Type := S -> Res (A * S).

Definition ret {S A : Type} (a : A) : ST S A := fun s => Ok (a, s).

Definition bind {S A B : Type} (m : ST S A) (k : A -> ST S B) : ST S B :=
  fun s => match m s with
           | Ok (a, s') => k a s'
           | Panic => Panic
           | OutOfFuel => OutOfFuel
           end.

Definition panic {S A : Type} : ST S A := fun _ => Panic.

Definition lift {S A : Type} (m : Res A) : ST S A :=
  fun s => match m with
           | Ok a => Ok (a, s)
           | Panic => Panic
           | OutOfFuel => OutOfFuel
           end.

Definition gets {S A : Type} (f : S -> A) : ST S A := fun s => Ok (f s, s).

Definition modify {S : Type} (f : S -> S) : ST S unit := fun s => Ok (tt, f s).

(** [assert!(b)] *)
Definition assert_that {S : Type} (b : bool) : ST S unit :=
  fun s => if b then Ok (tt, s) else Panic.

Definition assert_res (b : bool) : Res unit := if b then Ok tt else Panic.

Definition res_ret_tt {S : Type} (m : S -> Res S) : ST S unit :=
  fun s => match m s with
           | Ok s' => Ok (tt, s')
           | Panic => Panic
           | OutOfFuel => OutOfFuel
           end.

Declare Scope rust_scope.
Delimit Scope rust_scope with rust.

Notation "'let?' x ':=' m 'in' k" := (res_bind m (fun x => k))
  (at level 10, x name, m at level 100, k at level 200) : rust_scope.
Notation "x '<--' m ';;' k" := (bind m (fun x => k))
  (at level 100, m at next level, right associativity) : rust_scope.
Notation "m ';;;' k" := (bind m (fun _ => k))
  (at level 100, right associativity) : rust_scope.

(** [Result<T, E>] as a value (not to be confused with a panic). *)
Inductive Result (T E : Type) : Type :=
| ROk (t : T)
| RErr (e : E).
Arguments ROk {T E} t.
Arguments RErr {T E} e.

(** ** Build configuration

    The crates are compiled with or without the feature [rv64]; the cargo
    profile decides whether arithmetic is overflow-checked ([dev], [test],
    [build-fast]) and whether [debug_assert!] is compiled in. *)
Class Build := {
  feature_rv64 : bool;
  overflow_checks : bool;
  debug_assertions : bool
}.

(** [debug_assert!(b)] *)
Definition debug_assert `{Build} (b : bool) : Res unit :=
  if debug_assertions && negb b then Panic else Ok tt.

(** The release profile with 64-bit registers, and the test profile of the
    default (32-bit) build. *)
Definition release_rv64 : Build := Build_Build true false false.
Definition test_rv64 : Build := Build_Build true true true.
Definition test_rv32 : Build := Build_Build false true true.

(** ** Total maps with integer keys: fixed-size Rust arrays

    An array indexed by machine integers; the bounds check is written where
    the code indexes. *)
Definition zmap (A : Type) : Type := Z -> A.

Definition zupd {A : Type} (m : zmap A) (k : Z) (v : A) : zmap A :=
  fun j => if j =? k then v else m j.

(** Iteration [for i in 0..n] with an accumulator. *)
Fixpoint iter_range {S A : Type} (n : nat) (i : Z) (acc : A) (body : Z -> A -> ST S A) : ST S A :=
  match n with
  | O => ret acc
  | Datatypes.S n' => bind (body i acc) (fun acc' => iter_range n' (i + 1) acc' body)
  end.

(** ** Lemmas *)

Lemma zupd_same {A} (m : zmap A) k v : zupd m k v k = v.
Proof. unfold zupd. by rewrite Z.eqb_refl. Qed.

Lemma zupd_other {A} (m : zmap A) k v j : j <> k -> zupd m k v j = m j.
Proof. intros H. unfold zupd. by rewrite (proj2 (Z.eqb_neq j k) H). Qed.

Lemma bind_ok {S A B} (m : ST S A) (k : A -> ST S B) s a s' :
  m s = Ok (a, s') -> bind m k s = k a s'.
Proof. intros H. unfold bind. by rewrite H. Qed.

Lemma bind_inv {S A B} (m : ST S A) (k : A -> ST S B) s b s2 :
  bind m k s = Ok (b, s2) ->
  exists a s1, m s = Ok (a, s1) /\ k a s1 = Ok (b, s2).
Proof.
  unfold bind. destruct (m s) as [[a s1]| |] eqn:E; intros H; try discriminate.
  by exists a, s1.
Qed.

Lemma res_bind_inv {A B} (m : Res A) (k : A -> Res B) b :
  res_bind m k = Ok b -> exists a, m = Ok a /\ k a = Ok b.
Proof. destruct m; simpl; intros H; try discriminate. eauto. Qed.

Lemma assert_that_inv {S} b (s : S) u s' :
  assert_that b s = Ok (u, s') -> b = true /\ s' = s.
Proof. unfold assert_that. destruct b; intros H; by inversion H. Qed.

(** ** Tactics *)

Create HintDb provia discriminated.
#[export] Hint Resolve zupd_same zupd_other : provia.

(** Decide the boolean tests of the goal whose outcome follows by [lia]. *)
Ltac zbool_step :=
  match goal with
  | |- context [ ?a =? ?b ] =>
      first [ rewrite (proj2 (Z.eqb_eq a b)) by lia | rewrite (proj2 (Z.eqb_neq a b)) by lia ]
  | |- context [ ?a <? ?b ] =>
      first [ rewrite (proj2 (Z.ltb_lt a b)) by lia | rewrite (proj2 (Z.ltb_ge a b)) by lia ]
  | |- context [ ?a <=? ?b ] =>
      first [ rewrite (proj2 (Z.leb_le a b)) by lia | rewrite (proj2 (Z.leb_gt a b)) by lia ]
  | |- context [ ?a >=? ?b ] => rewrite (Z.geb_leb a b)
  | |- context [ ?a >? ?b ] => rewrite (Z.gtb_ltb a b)
  end.

Ltac zbool := repeat (zbool_step; cbn [andb orb negb]).
