(* ===== verification/Words.v ===== *)
(** * Machine integers of the Rust code

    A [w]-bit Rust integer is a [Z] in its range; the casts and the wrapping
    operations are written out.  [i64] values are kept signed, [u64] values
    unsigned, so that the bit operations are those of [Z] (two's complement).
    The file holds the definitions of the primitive operations the sources use
    and the arithmetic facts shared by all components. *)

From Stdlib Require Import ZArith Lia List Bool.
From stdpp Require Import base list.
From S2P Require Import Prelude.
Import ListNotations.
Local Open Scope Z_scope.
Local Open Scope rust_scope.

(** ** Casts: [e as uN], [e as iN] *)

Definition as_unsigned (w : Z) (z : Z) : Z := z mod 2 ^ w.
Definition as_signed (w : Z) (z : Z) : Z := (z + 2 ^ (w - 1)) mod 2 ^ w - 2 ^ (w - 1).

Definition as_u8 (z : Z) : Z := z mod 256.
Definition as_u16 (z : Z) : Z := z mod 65536.
Definition as_u32 (z : Z) : Z := z mod 4294967296.
Definition as_u64 (z : Z) : Z := z mod 18446744073709551616.
Definition as_u128 (z : Z) : Z := z mod 340282366920938463463374607431768211456.
Definition as_i8 (z : Z) : Z := (z + 128) mod 256 - 128.
Definition as_i16 (z : Z) : Z := (z + 32768) mod 65536 - 32768.
Definition as_i32 (z : Z) : Z := (z + 2147483648) mod 4294967296 - 2147483648.
Definition as_i64 (z : Z) : Z :=
  (z + 9223372036854775808) mod 18446744073709551616 - 9223372036854775808.
Definition as_i128 (z : Z) : Z :=
  (z + 170141183460469231731687303715884105728) mod 340282366920938463463374607431768211456
  - 170141183460469231731687303715884105728.

Definition i64_MIN : Z := -9223372036854775808.
Definition i64_MAX : Z := 9223372036854775807.
Definition i32_MIN : Z := -2147483648.
Definition u64_MAX : Z := 18446744073709551615.
Definition u32_MAX : Z := 4294967295.

(** Ranges, as decidable predicates. *)
Definition is_i64 (z : Z) : Prop := -9223372036854775808 <= z < 9223372036854775808.
Definition is_u64 (z : Z) : Prop := 0 <= z < 18446744073709551616.
Definition is_i32 (z : Z) : Prop := -2147483648 <= z < 2147483648.
Definition is_u32 (z : Z) : Prop := 0 <= z < 4294967296.
Definition is_u8 (z : Z) : Prop := 0 <= z < 256.

(** ** Overflow-checked arithmetic

    [a + b], [a - b], [a * b] on [u64] (or [usize]): they panic when the build
    checks overflow and wrap otherwise. *)
Section Checked.
Context `{Build}.

Definition arith_u64 (z : Z) : Res Z :=
  if overflow_checks && negb ((0 <=? z) && (z <? 18446744073709551616))
  then Panic else Ok (as_u64 z).

Definition add_u64 (a b : Z) : Res Z := arith_u64 (a + b).
Definition sub_u64 (a b : Z) : Res Z := arith_u64 (a - b).
Definition mul_u64 (a b : Z) : Res Z := arith_u64 (a * b).

Definition arith_i64 (z : Z) : Res Z :=
  if overflow_checks && negb ((-9223372036854775808 <=? z) && (z <? 9223372036854775808))
  then Panic else Ok (as_i64 z).
End Checked.

(** ** Shifts *)

(** [wrapping_shl]/[wrapping_shr]: the amount is taken modulo the width. *)
Definition wrapping_shl_i64 (a n : Z) : Z := as_i64 (Z.shiftl a (n mod 64)).
Definition wrapping_shr_i64 (a n : Z) : Z := Z.shiftr a (n mod 64).
Definition wrapping_shl_u32 (a n : Z) : Z := as_u32 (Z.shiftl a (n mod 32)).
Definition wrapping_shr_u32 (a n : Z) : Z := Z.shiftr a (n mod 32).
Definition wrapping_shl_u64 (a n : Z) : Z := as_u64 (Z.shiftl a (n mod 64)).
Definition wrapping_shr_u64 (a n : Z) : Z := Z.shiftr a (n mod 64).

(** ** Bit counting and permutation *)

(** [trailing_zeros] of a [w]-bit value ([w] on zero). *)
Fixpoint pos_ctz (p : positive) : Z :=
  match p with
  | xO q => 1 + pos_ctz q
  | _ => 0
  end.

Definition trailing_zeros (w : Z) (z : Z) : Z :=
  match z with
  | Z0 => w
  | Zpos p => pos_ctz p
  | Zneg p => pos_ctz p
  end.

Definition rotate_right_u32 (z n : Z) : Z :=
  let z := as_u32 z in
  as_u32 (Z.lor (Z.shiftr z (n mod 32)) (Z.shiftl z ((32 - n mod 32) mod 32))).

Definition rotate_right_i64 (z n : Z) : Z :=
  let u := as_u64 z in
  as_i64 (Z.lor (Z.shiftr u (n mod 64)) (Z.shiftl u ((64 - n mod 64) mod 64))).

(** Byte [k] of a word. *)
Definition byte_at (z : Z) (k : Z) : Z := Z.land (Z.shiftr z (8 * k)) 255.

Definition swap_bytes_u32 (z : Z) : Z :=
  Z.lor (Z.shiftl (byte_at z 0) 24)
    (Z.lor (Z.shiftl (byte_at z 1) 16)
       (Z.lor (Z.shiftl (byte_at z 2) 8) (byte_at z 3))).

(** ** Division *)

Definition wrapping_div_i64 (a b : Z) : Res Z :=
  if b =? 0 then Panic else Ok (as_i64 (Z.quot a b)).
Definition wrapping_rem_i64 (a b : Z) : Res Z :=
  if b =? 0 then Panic else Ok (as_i64 (Z.rem a b)).
Definition wrapping_div_u64 (a b : Z) : Res Z :=
  if b =? 0 then Panic else Ok (a / b).
Definition wrapping_rem_u64 (a b : Z) : Res Z :=
  if b =? 0 then Panic else Ok (a mod b).

(** ** Lemmas *)

Ltac Zify.zify_post_hook ::= Z.div_mod_to_equations.

#[export] Instance is_i64_dec z : Decision (is_i64 z).
Proof. unfold is_i64. apply _. Defined.
#[export] Instance is_u64_dec z : Decision (is_u64 z).
Proof. unfold is_u64. apply _. Defined.

Lemma as_i64_range z : is_i64 (as_i64 z).
Proof. unfold is_i64, as_i64. lia. Qed.

Lemma as_u64_range z : is_u64 (as_u64 z).
Proof. unfold is_u64, as_u64. lia. Qed.

Lemma as_i32_range z : is_i32 (as_i32 z).
Proof. unfold is_i32, as_i32. lia. Qed.

Lemma as_u32_range z : is_u32 (as_u32 z).
Proof. unfold is_u32, as_u32. lia. Qed.

Lemma as_i64_small z : is_i64 z -> as_i64 z = z.
Proof. unfold is_i64, as_i64. lia. Qed.

Lemma as_u64_small z : is_u64 z -> as_u64 z = z.
Proof. unfold is_u64, as_u64. lia. Qed.

Lemma as_i32_small z : is_i32 z -> as_i32 z = z.
Proof. unfold is_i32, as_i32. lia. Qed.

Lemma as_u32_small z : is_u32 z -> as_u32 z = z.
Proof. unfold is_u32, as_u32. lia. Qed.

Lemma arith_u64_ok `{Build} z : is_u64 z -> arith_u64 z = Ok z.
Proof.
  intros Hz. unfold arith_u64. rewrite as_u64_small by done.
  unfold is_u64 in Hz. zbool. by rewrite andb_false_r.
Qed.

Lemma sub_u64_ok `{Build} a b : is_u64 (a - b) -> sub_u64 a b = Ok (a - b).
Proof. apply arith_u64_ok. Qed.
Lemma add_u64_ok `{Build} a b : is_u64 (a + b) -> add_u64 a b = Ok (a + b).
Proof. apply arith_u64_ok. Qed.

Lemma arith_i64_ok `{Build} z : is_i64 z -> arith_i64 z = Ok z.
Proof.
  intros Hz. unfold arith_i64. rewrite as_i64_small by done.
  unfold is_i64 in Hz. zbool. by rewrite andb_false_r.
Qed.

Lemma i32_is_i64 z : is_i32 z -> is_i64 z.
Proof. unfold is_i32, is_i64. lia. Qed.

Lemma u32_is_i64 z : is_u32 z -> is_i64 z.
Proof. unfold is_u32, is_i64. lia. Qed.

Lemma as_i64_u64 z : as_i64 (as_u64 z) = as_i64 z.
Proof. unfold as_i64, as_u64. lia. Qed.

Lemma as_u64_i64 z : as_u64 (as_i64 z) = as_u64 z.
Proof. unfold as_i64, as_u64. lia. Qed.

Lemma as_i64_i64 z : as_i64 (as_i64 z) = as_i64 z.
Proof. unfold as_i64. lia. Qed.

Lemma as_i32_i64 z : as_i32 (as_i64 z) = as_i32 z.
Proof. unfold as_i64, as_i32. lia. Qed.

Lemma as_u32_i64 z : as_u32 (as_i64 z) = as_u32 z.
Proof. unfold as_i64, as_u32. lia. Qed.

Lemma as_i32_u64 z : as_i32 (as_u64 z) = as_i32 z.
Proof. unfold as_u64, as_i32. lia. Qed.

Lemma as_u32_u64 z : as_u32 (as_u64 z) = as_u32 z.
Proof. unfold as_u64, as_u32. lia. Qed.

Lemma as_i32_u32 z : as_i32 (as_u32 z) = as_i32 z.
Proof. unfold as_u32, as_i32. lia. Qed.

Lemma as_u32_i32 z : as_u32 (as_i32 z) = as_u32 z.
Proof. unfold as_u32, as_i32. lia. Qed.

(** Two values with the same residue have the same cast. *)
Lemma as_i64_cong a b k : a = b + k * 18446744073709551616 -> as_i64 a = as_i64 b.
Proof. intros ->. unfold as_i64. lia. Qed.

Lemma as_i64_eq_iff a b : as_i64 a = as_i64 b <-> as_u64 a = as_u64 b.
Proof. unfold as_i64, as_u64. lia. Qed.

(** The representative of [as_i64]. *)
Lemma as_i64_decomp z : exists k, as_i64 z = z + k * 18446744073709551616.
Proof. exists (- ((z + 9223372036854775808) / 18446744073709551616)). unfold as_i64. lia. Qed.

Lemma as_u64_decomp z : exists k, as_u64 z = z + k * 18446744073709551616.
Proof. exists (- (z / 18446744073709551616)). unfold as_u64. lia. Qed.

Lemma as_i32_decomp z : exists k, as_i32 z = z + k * 4294967296.
Proof. exists (- ((z + 2147483648) / 4294967296)). unfold as_i32. lia. Qed.

Lemma as_u32_decomp z : exists k, as_u32 z = z + k * 4294967296.
Proof. exists (- (z / 4294967296)). unfold as_u32. lia. Qed.

(** Bit operations keep the [i64] range. *)
Lemma is_i64_bits z : is_i64 z <-> forall n, 63 <= n -> Z.testbit z n = Z.testbit z 63.
Proof.
  split.
  - intros Hz n Hn.
    assert (Hsr : Z.shiftr z 63 = 0 \/ Z.shiftr z 63 = -1)
      by (rewrite Z.shiftr_div_pow2 by lia; unfold is_i64 in Hz; lia).
    assert (Hb : forall m, 0 <= m -> Z.testbit z (m + 63) = Z.testbit (Z.shiftr z 63) m)
      by (intros m Hm; by rewrite Z.shiftr_spec by lia).
    replace n with ((n - 63) + 63) by lia. rewrite (Hb (n - 63)) by lia.
    pose proof (Hb 0 ltac:(lia)) as Hb0. rewrite Z.add_0_l in Hb0. rewrite Hb0.
    destruct Hsr as [-> | ->]; [by rewrite !Z.bits_0 | by rewrite !Z.bits_m1 by lia].
  - intros H.
    assert (Hq : z / 2 ^ 63 = 0 \/ z / 2 ^ 63 = -1).
    { rewrite <- Z.shiftr_div_pow2 by lia.
      destruct (Z.testbit z 63) eqn:E; [right | left]; apply Z.bits_inj'; intros m Hm;
        rewrite Z.shiftr_spec, H by lia; [by rewrite Z.bits_m1 by lia | by rewrite Z.bits_0]. }
    unfold is_i64. change (2 ^ 63) with 9223372036854775808 in Hq. lia.
Qed.

Lemma land_i64 a b : is_i64 a -> is_i64 b -> is_i64 (Z.land a b).
Proof. rewrite !is_i64_bits. intros Ha Hb n Hn. by rewrite !Z.land_spec, Ha, Hb. Qed.
Lemma lor_i64 a b : is_i64 a -> is_i64 b -> is_i64 (Z.lor a b).
Proof. rewrite !is_i64_bits. intros Ha Hb n Hn. by rewrite !Z.lor_spec, Ha, Hb. Qed.
Lemma lxor_i64 a b : is_i64 a -> is_i64 b -> is_i64 (Z.lxor a b).
Proof. rewrite !is_i64_bits. intros Ha Hb n Hn. by rewrite !Z.lxor_spec, Ha, Hb. Qed.
Lemma lnot_i64 a : is_i64 a -> is_i64 (Z.lnot a).
Proof. unfold is_i64, Z.lnot. lia. Qed.

Lemma shiftr_i64 a n : is_i64 a -> 0 <= n -> is_i64 (Z.shiftr a n).
Proof.
  unfold is_i64. intros Ha Hn. rewrite Z.shiftr_div_pow2 by lia.
  assert (0 < 2 ^ n) by (apply Z.pow_pos_nonneg; lia).
  split; [apply Z.div_le_lower_bound | apply Z.div_lt_upper_bound]; nia.
Qed.

#[export] Hint Resolve as_i64_range as_u64_range as_i32_range as_u32_range
  land_i64 lor_i64 lxor_i64 lnot_i64 i32_is_i64 u32_is_i64 : provia.

(** ** Bit-level reasoning

    Unconditional [testbit] equations, collected in the rewrite database
    [tb], and the tactic [bitblast] that proves an equation between bit
    expressions by comparing their bits. *)

Lemma tb_shiftl a n m : Z.testbit (Z.shiftl a n) m = (0 <=? m) && Z.testbit a (m - n).
Proof.
  destruct (Z.leb_spec 0 m); simpl; [by rewrite Z.shiftl_spec | by apply Z.testbit_neg_r].
Qed.

Lemma tb_shiftr a n m : Z.testbit (Z.shiftr a n) m = (0 <=? m) && Z.testbit a (m + n).
Proof.
  destruct (Z.leb_spec 0 m); simpl; [by rewrite Z.shiftr_spec | by apply Z.testbit_neg_r].
Qed.

Lemma tb_lnot a m : Z.testbit (Z.lnot a) m = (0 <=? m) && negb (Z.testbit a m).
Proof.
  destruct (Z.leb_spec 0 m); simpl; [by rewrite Z.lnot_spec | by apply Z.testbit_neg_r].
Qed.

Lemma tb_mod a w m : 0 <= w -> Z.testbit (a mod 2 ^ w) m = (m <? w) && Z.testbit a m.
Proof.
  intros Hw. destruct (Z.ltb_spec m w); simpl.
  - destruct (Z.leb_spec 0 m); [by rewrite Z.mod_pow2_bits_low | by rewrite !Z.testbit_neg_r].
  - by rewrite Z.mod_pow2_bits_high by lia.
Qed.

Lemma tb_ones w m : 0 <= w -> Z.testbit (Z.ones w) m = (0 <=? m) && (m <? w).
Proof. intros. by apply Z.testbit_ones. Qed.

Lemma tb_0 m : Z.testbit 0 m = false.
Proof. apply Z.testbit_0_l. Qed.

Lemma tb_u8 a m : Z.testbit (as_u8 a) m = (m <? 8) && Z.testbit a m.
Proof. exact (tb_mod a 8 m ltac:(lia)). Qed.
Lemma tb_u16 a m : Z.testbit (as_u16 a) m = (m <? 16) && Z.testbit a m.
Proof. exact (tb_mod a 16 m ltac:(lia)). Qed.
Lemma tb_u32 a m : Z.testbit (as_u32 a) m = (m <? 32) && Z.testbit a m.
Proof. exact (tb_mod a 32 m ltac:(lia)). Qed.
Lemma tb_u64 a m : Z.testbit (as_u64 a) m = (m <? 64) && Z.testbit a m.
Proof. exact (tb_mod a 64 m ltac:(lia)). Qed.

(** The top bit of a residue. *)
Lemma testbit_top a w : 0 < w -> Z.testbit a (w - 1) = (2 ^ (w - 1) <=? a mod 2 ^ w).
Proof.
  intros Hw.
  assert (Hp : 2 ^ w = 2 * 2 ^ (w - 1)) by (rewrite <- Z.pow_succ_r by lia; f_equal; lia).
  assert (0 < 2 ^ (w - 1)) by (apply Z.pow_pos_nonneg; lia).
  assert (Hr : 0 <= a mod 2 ^ w < 2 ^ w) by (apply Z.mod_pos_bound; lia).
  rewrite <- (Z.mod_pow2_bits_low a w (w - 1)) by lia.
  rewrite Z.testbit_odd, Z.shiftr_div_pow2 by lia.
  destruct (Z.leb_spec (2 ^ (w - 1)) (a mod 2 ^ w)).
  - replace (a mod 2 ^ w / 2 ^ (w - 1)) with 1; [done|].
    apply Z.div_unique with (a mod 2 ^ w - 2 ^ (w - 1)); lia.
  - by rewrite Z.div_small by lia.
Qed.

(** Subtracting [2^w] from a residue sets all its bits from [w] on. *)
Lemma tb_mod_minus a w m :
  0 <= w -> 0 <= m -> Z.testbit (a mod 2 ^ w - 2 ^ w) m = if m <? w then Z.testbit a m else true.
Proof.
  intros Hw Hm.
  replace (a mod 2 ^ w - 2 ^ w) with (Z.lor (a mod 2 ^ w) (Z.shiftl (-1) w)).
  - rewrite Z.lor_spec, tb_mod, tb_shiftl by lia. destruct (Z.ltb_spec m w); simpl.
    + by rewrite (Z.testbit_neg_r _ (m - w)), andb_false_r, orb_false_r by lia.
    + rewrite Z.bits_m1 by lia. by rewrite (proj2 (Z.leb_le 0 m)).
  - assert (Hl : Z.land (a mod 2 ^ w) (Z.shiftl (-1) w) = 0).
    { apply Z.bits_inj'. intros k Hk. rewrite Z.land_spec, tb_mod, tb_shiftl, tb_0 by lia.
      destruct (Z.ltb_spec k w); [|done].
      by rewrite (Z.testbit_neg_r _ (k - w)), !andb_false_r by lia. }
    pose proof (Z.add_lor_land (a mod 2 ^ w) (Z.shiftl (-1) w)) as Ha.
    rewrite Hl, Z.shiftl_mul_pow2 in Ha by lia. rewrite Z.shiftl_mul_pow2 by lia. lia.
Qed.

(** A signed cast repeats bit [w-1]. *)
Lemma tb_signed a w m :
  0 < w ->
  Z.testbit ((a + 2 ^ (w - 1)) mod 2 ^ w - 2 ^ (w - 1)) m
  = (0 <=? m) && (if m <? w then Z.testbit a m else Z.testbit a (w - 1)).
Proof.
  intros Hw. destruct (Z.leb_spec 0 m) as [Hm|Hm]; simpl; [|by apply Z.testbit_neg_r].
  assert (Hp : 2 ^ w = 2 * 2 ^ (w - 1)) by (rewrite <- Z.pow_succ_r by lia; f_equal; lia).
  assert (0 < 2 ^ (w - 1)) by (apply Z.pow_pos_nonneg; lia).
  assert (Hr : 0 <= a mod 2 ^ w < 2 ^ w) by (apply Z.mod_pos_bound; lia).
  rewrite (testbit_top a w) by lia.
  destruct (Z.leb_spec (2 ^ (w - 1)) (a mod 2 ^ w)).
  - replace ((a + 2 ^ (w - 1)) mod 2 ^ w - 2 ^ (w - 1)) with (a mod 2 ^ w - 2 ^ w).
    + by rewrite tb_mod_minus by lia.
    + assert ((a + 2 ^ (w - 1)) mod 2 ^ w = a mod 2 ^ w - 2 ^ (w - 1)); [|lia].
      symmetry. apply Z.mod_unique with (a / 2 ^ w + 1); [lia|].
      pose proof (Z.div_mod a (2 ^ w) ltac:(lia)). lia.
  - replace ((a + 2 ^ (w - 1)) mod 2 ^ w - 2 ^ (w - 1)) with (a mod 2 ^ w).
    + rewrite tb_mod by lia. by destruct (m <? w).
    + assert ((a + 2 ^ (w - 1)) mod 2 ^ w = a mod 2 ^ w + 2 ^ (w - 1)); [|lia].
      symmetry. apply Z.mod_unique with (a / 2 ^ w); [lia|].
      pose proof (Z.div_mod a (2 ^ w) ltac:(lia)). lia.
Qed.

Lemma tb_i32 a m :
  Z.testbit (as_i32 a) m = (0 <=? m) && (if m <? 32 then Z.testbit a m else Z.testbit a 31).
Proof. exact (tb_signed a 32 m ltac:(lia)). Qed.
Lemma tb_i64 a m :
  Z.testbit (as_i64 a) m = (0 <=? m) && (if m <? 64 then Z.testbit a m else Z.testbit a 63).
Proof. exact (tb_signed a 64 m ltac:(lia)). Qed.
Lemma tb_i8 a m :
  Z.testbit (as_i8 a) m = (0 <=? m) && (if m <? 8 then Z.testbit a m else Z.testbit a 7).
Proof. exact (tb_signed a 8 m ltac:(lia)). Qed.
Lemma tb_i16 a m :
  Z.testbit (as_i16 a) m = (0 <=? m) && (if m <? 16 then Z.testbit a m else Z.testbit a 15).
Proof. exact (tb_signed a 16 m ltac:(lia)). Qed.

Lemma tb_mask8 m : Z.testbit 255 m = (0 <=? m) && (m <? 8).
Proof. exact (tb_ones 8 m ltac:(lia)). Qed.
Lemma tb_mask16 m : Z.testbit 65535 m = (0 <=? m) && (m <? 16).
Proof. exact (tb_ones 16 m ltac:(lia)). Qed.
Lemma tb_mask32 m : Z.testbit 4294967295 m = (0 <=? m) && (m <? 32).
Proof. exact (tb_ones 32 m ltac:(lia)). Qed.
Lemma tb_mask64 m : Z.testbit 18446744073709551615 m = (0 <=? m) && (m <? 64).
Proof. exact (tb_ones 64 m ltac:(lia)). Qed.
Lemma tb_m1 m : Z.testbit (-1) m = (0 <=? m).
Proof.
  destruct (Z.leb_spec 0 m); [by rewrite Z.bits_m1 | by apply Z.testbit_neg_r].
Qed.

Create Rewrite HintDb tb.
#[export] Hint Rewrite Z.land_spec Z.lor_spec Z.lxor_spec Z.ldiff_spec tb_shiftl tb_shiftr tb_lnot
  tb_0 tb_u8 tb_u16 tb_u32 tb_u64 tb_i8 tb_i16 tb_i32 tb_i64
  tb_mask8 tb_mask16 tb_mask32 tb_mask64 tb_m1 : tb.

Lemma u64_high z m : is_u64 z -> 64 <= m -> Z.testbit z m = false.
Proof.
  intros Hz Hm. rewrite <- (as_u64_small z Hz), tb_u64. by rewrite (proj2 (Z.ltb_ge m 64)).
Qed.

Lemma u32_high z m : is_u32 z -> 32 <= m -> Z.testbit z m = false.
Proof.
  intros Hz Hm. rewrite <- (as_u32_small z Hz), tb_u32. by rewrite (proj2 (Z.ltb_ge m 32)).
Qed.

Lemma i64_high z m : is_i64 z -> 63 <= m -> Z.testbit z m = Z.testbit z 63.
Proof. intros Hz. by apply is_i64_bits. Qed.

(** Case split on the comparisons of bit indices, then close the bits that
    are the same, out of range or contradictory. *)
Ltac bit_split :=
  repeat match goal with
    | |- context [ ?a <? ?b ] => destruct (Z.ltb_spec a b); try (exfalso; lia); cbn [andb orb negb xorb]
    | |- context [ ?a <=? ?b ] => destruct (Z.leb_spec a b); try (exfalso; lia); cbn [andb orb negb xorb]
    | |- context [ ?a =? ?b ] => destruct (Z.eqb_spec a b); try (exfalso; lia); cbn [andb orb negb xorb]
    end.

Ltac bit_norm :=
  repeat match goal with
    | |- context [ Z.testbit ?z ?i ] =>
        rewrite (Z.testbit_neg_r z i) by lia
    | H : is_u64 ?z |- context [ Z.testbit ?z ?i ] => rewrite (u64_high z i H) by lia
    | H : is_u32 ?z |- context [ Z.testbit ?z ?i ] => rewrite (u32_high z i H) by lia
    | |- context [ Z.testbit ?z ?i ] =>
        match goal with
        | |- context [ Z.testbit z ?j ] =>
            tryif constr_eq i j then fail else (replace (Z.testbit z i) with (Z.testbit z j) by (f_equal; lia))
        end
    end.

Ltac bit_finish :=
  bit_norm; cbn [andb orb negb xorb];
  rewrite ?andb_false_r, ?andb_true_r, ?orb_false_r, ?orb_true_r, ?xorb_false_r; 
  cbn [andb orb negb xorb]; try reflexivity;
  repeat match goal with |- context [ Z.testbit ?z ?i ] => destruct (Z.testbit z i) end; try reflexivity.

Ltac bitblast :=
  let k := fresh "k" in let Hk := fresh "Hk" in
  apply Z.bits_inj'; intros k Hk; autorewrite with tb; bit_split; bit_finish.
