(* ===== verification/Memory.v ===== *)
(** * Main memory ([emulator/memory.rs])

    [Memory] is a vector of 64-bit words addressed by bytes.  Aligned accesses
    touch one word, the others go byte by byte.  The theorems show that every
    access, whatever its alignment, is the little-endian composition of byte
    accesses, and that writes are read back. *)

From Stdlib Require Import ZArith Lia List Bool.
From stdpp Require Import base list.
From S2P Require Import Prelude Words.
Import ListNotations.
Local Open Scope Z_scope.
Local Open Scope rust_scope.

Record Memory := mkMemory { data : list Z }.

(** [self.data[index]] and [self.data[index] = v] with the bounds check. *)
Definition data_get (m : Memory) (index : Z) : Res Z :=
  if index <? Z.of_nat (length (data m))
  then match data m !! Z.to_nat index with Some v => Ok v | None => Panic end
  else Panic.

Definition data_set (m : Memory) (index : Z) (v : Z) : Res Memory :=
  if index <? Z.of_nat (length (data m))
  then Ok (mkMemory (<[Z.to_nat index := v]> (data m)))
  else Panic.

(** [!z] on [u64]. *)
Definition not_u64 (z : Z) : Z := as_u64 (Z.lnot z).

Definition init (m : Memory) (capacity : Z) : Memory :=
  mkMemory (data m ++ replicate (Z.to_nat ((capacity + 7) / 8)) 0).

Definition read_byte (m : Memory) (address : Z) : Res Z :=
  let index := Z.shiftr address 3 in
  let pos := (address mod 8) * 8 in
  let? d := data_get m index in
  Ok (as_u8 (Z.shiftr d pos)).

Fixpoint read_bytes_from (m : Memory) (address : Z) (n : nat) (i acc : Z) : Res Z :=
  match n with
  | O => Ok acc
  | S n' =>
      let? b := read_byte m (as_u64 (address + i)) in
      read_bytes_from m address n' (i + 1) (Z.lor acc (as_u64 (Z.shiftl b (i * 8))))
  end.

Definition read_bytes (m : Memory) (address width : Z) : Res Z :=
  read_bytes_from m address (Z.to_nat width) 0 0.

Definition read_halfword (m : Memory) (address : Z) : Res Z :=
  if address mod 2 =? 0 then
    let index := Z.shiftr address 3 in
    let pos := (address mod 8) * 8 in
    let? d := data_get m index in
    Ok (as_u16 (Z.shiftr d pos))
  else
    let? d := read_bytes m address 2 in
    Ok (as_u16 d).

Definition read_word (m : Memory) (address : Z) : Res Z :=
  if address mod 4 =? 0 then
    let index := Z.shiftr address 3 in
    let pos := (address mod 8) * 8 in
    let? d := data_get m index in
    Ok (as_u32 (Z.shiftr d pos))
  else
    let? d := read_bytes m address 4 in
    Ok (as_u32 d).

Definition read_doubleword (m : Memory) (address : Z) : Res Z :=
  if address mod 8 =? 0 then
    data_get m (Z.shiftr address 3)
  else if address mod 4 =? 0 then
    let? lo := read_word m address in
    let? hi := read_word m (as_u64 (address + 4)) in
    Ok (Z.lor lo (as_u64 (Z.shiftl hi 32)))
  else
    read_bytes m address 8.

(** [data[index] = (data[index] & !(mask << pos)) | (value << pos)] *)
Definition write_field (m : Memory) (index pos mask value : Z) : Res Memory :=
  let? d := data_get m index in
  data_set m index
    (Z.lor (Z.land d (not_u64 (as_u64 (Z.shiftl mask pos)))) (as_u64 (Z.shiftl value pos))).

Definition write_byte (m : Memory) (address value : Z) : Res Memory :=
  let index := Z.shiftr address 3 in
  let pos := (address mod 8) * 8 in
  write_field m index pos 255 value.

Fixpoint write_bytes_from (m : Memory) (address value : Z) (n : nat) (i : Z) : Res Memory :=
  match n with
  | O => Ok m
  | S n' =>
      let? m' := write_byte m (as_u64 (address + i)) (as_u8 (Z.shiftr value (i * 8))) in
      write_bytes_from m' address value n' (i + 1)
  end.

Definition write_bytes (m : Memory) (address value width : Z) : Res Memory :=
  write_bytes_from m address value (Z.to_nat width) 0.

Definition write_halfword (m : Memory) (address value : Z) : Res Memory :=
  if address mod 2 =? 0 then
    let index := Z.shiftr address 3 in
    let pos := (address mod 8) * 8 in
    write_field m index pos 65535 value
  else write_bytes m address value 2.

Definition write_word (m : Memory) (address value : Z) : Res Memory :=
  if address mod 4 =? 0 then
    let index := Z.shiftr address 3 in
    let pos := (address mod 8) * 8 in
    write_field m index pos 4294967295 value
  else write_bytes m address value 4.

Definition write_doubleword (m : Memory) (address value : Z) : Res Memory :=
  if address mod 8 =? 0 then
    data_set m (Z.shiftr address 3) value
  else if address mod 4 =? 0 then
    let? m1 := write_word m address (as_u32 (Z.land value 4294967295)) in
    write_word m1 (as_u64 (address + 4)) (as_u32 (Z.shiftr value 32))
  else write_bytes m address value 8.

Definition validate_address (m : Memory) (address : Z) : bool :=
  Z.shiftr address 3 <? Z.of_nat (length (data m)).

(** ** Abstract view: a partial map from addresses to bytes *)

(** The vector holds [u64] values. *)
Definition wf_memory (m : Memory) : Prop := Forall is_u64 (data m).

(** Byte capacity. *)
Definition capacity (m : Memory) : Z := 8 * Z.of_nat (length (data m)).

(** The byte at [a], if [a] is in range. *)
Definition mem_byte (m : Memory) (a : Z) : option Z :=
  match read_byte m a with Ok b => Some b | _ => None end.

(** ** Word-level lemmas *)

(** [d] with [w] bits at [p] replaced by those of [v]. *)
Definition set_field (d p w v : Z) : Z :=
  Z.lor (Z.land d (Z.lnot (Z.shiftl (Z.ones w) p))) (Z.shiftl (v mod 2 ^ w) p).

Lemma set_field_spec d p w v k :
  0 <= p -> 0 <= w -> 0 <= k ->
  Z.testbit (set_field d p w v) k =
    if (p <=? k) && (k <? p + w) then Z.testbit v (k - p) else Z.testbit d k.
Proof.
  intros. unfold set_field.
  rewrite Z.lor_spec, Z.land_spec, tb_lnot, !tb_shiftl, tb_mod, tb_ones by lia.
  bit_split; bit_finish.
Qed.

Lemma data_get_ok m i v : data_get m i = Ok v -> 
  i < Z.of_nat (length (data m)) /\ data m !! Z.to_nat i = Some v.
Proof.
  unfold data_get. destruct (Z.ltb_spec i (Z.of_nat (length (data m)))); [|done].
  destruct (data m !! Z.to_nat i) eqn:E; [|done]. intros [= ->]. done.
Qed.

Lemma data_get_u64 m i v : wf_memory m -> data_get m i = Ok v -> is_u64 v.
Proof.
  intros Hwf [_ H]%data_get_ok. by eapply Forall_lookup_1 in H.
Qed.

Lemma data_get_in_range m i :
  0 <= i < Z.of_nat (length (data m)) -> exists v, data_get m i = Ok v.
Proof.
  intros Hi. unfold data_get. zbool.
  destruct (lookup_lt_is_Some_2 (data m) (Z.to_nat i)) as [v ->]; [lia|]. by exists v.
Qed.

Lemma data_get_panic m i :
  Z.of_nat (length (data m)) <= i -> data_get m i = Panic.
Proof. intros Hi. unfold data_get. by zbool. Qed.

Lemma data_get_cases m i :
  0 <= i -> (exists v, data_get m i = Ok v) \/ data_get m i = Panic.
Proof.
  intros Hi. destruct (Z.lt_ge_cases i (Z.of_nat (length (data m)))).
  - left. by apply data_get_in_range.
  - right. by apply data_get_panic.
Qed.

Lemma data_set_ok m i d v :
  data_get m i = Ok d -> data_set m i v = Ok (mkMemory (<[Z.to_nat i := v]> (data m))).
Proof.
  intros [Hi _]%data_get_ok. unfold data_set. by zbool.
Qed.

Lemma data_set_wf m i v m' : wf_memory m -> is_u64 v -> data_set m i v = Ok m' -> wf_memory m'.
Proof.
  unfold data_set. intros Hwf Hv. destruct (i <? _); [|done]. intros [= <-].
  by apply Forall_insert.
Qed.

Lemma data_set_get m i v m' j :
  0 <= i -> 0 <= j -> data_set m i v = Ok m' ->
  data_get m' j = if j =? i then Ok v else data_get m j.
Proof.
  unfold data_set, data_get. intros Hi Hj. destruct (Z.ltb_spec i (Z.of_nat (length (data m)))); [|done].
  intros [= <-]. simpl. rewrite length_insert. destruct (Z.eqb_spec j i) as [->|Hne].
  - rewrite (proj2 (Z.ltb_lt _ _)) by lia. by rewrite list_lookup_insert_eq by lia.
  - by rewrite list_lookup_insert_ne by lia.
Qed.

Lemma data_set_set m i v1 v2 m1 :
  data_set m i v1 = Ok m1 -> data_set m1 i v2 = data_set m i v2.
Proof.
  unfold data_set. destruct (Z.ltb_spec i (Z.of_nat (length (data m)))); [|done].
  intros [= <-]. simpl. rewrite length_insert. zbool. by rewrite list_insert_insert_eq.
Qed.

(** The mask-and-or update of the code is [set_field]. *)
Lemma code_field d p w v :
  is_u64 d -> 0 <= p -> 0 <= w -> p + w <= 64 ->
  Z.lor (Z.land d (not_u64 (as_u64 (Z.shiftl (Z.ones w) p)))) (as_u64 (Z.shiftl (v mod 2 ^ w) p))
  = set_field d p w v.
Proof.
  intros Hd ???. unfold set_field, not_u64. apply Z.bits_inj'. intros k Hk.
  autorewrite with tb. rewrite !tb_mod, !tb_ones by lia. bit_split; bit_finish.
Qed.

Lemma set_field_u64 d p w v :
  is_u64 d -> 0 <= p -> 0 <= w -> p + w <= 64 -> is_u64 (set_field d p w v).
Proof.
  intros. rewrite <- code_field by done.
  enough (E : as_u64 (set_field d p w v) = set_field d p w v).
  { rewrite code_field, <- E by done. apply as_u64_range. }
  apply Z.bits_inj'. intros k Hk. rewrite tb_u64, set_field_spec by lia.
  bit_split; bit_finish.
Qed.

Lemma write_field_ok m i d p w v mask :
  data_get m i = Ok d -> is_u64 d -> 0 <= p -> 0 <= w -> p + w <= 64 -> mask = Z.ones w ->
  0 <= v < 2 ^ w ->
  write_field m i p mask v = data_set m i (set_field d p w v).
Proof.
  intros Hg Hd ??? -> Hv. unfold write_field. rewrite Hg. simpl.
  rewrite <- (Z.mod_small v (2 ^ w) Hv) at 1. by rewrite code_field.
Qed.

(** Two adjacent fields are one. *)
Lemma set_field_join d p w1 w2 v :
  0 <= p -> 0 <= w1 -> 0 <= w2 ->
  set_field (set_field d p w1 v) (p + w1) w2 (Z.shiftr v w1) = set_field d p (w1 + w2) v.
Proof.
  intros. apply Z.bits_inj'. intros k Hk. rewrite !set_field_spec by lia.
  rewrite tb_shiftr. bit_split; bit_finish.
Qed.

(** ** Byte loops inside one word *)

(** The address of byte [i] stays in the word of [a]. *)
Lemma in_word_address a i :
  is_u64 a -> 0 <= i -> a mod 8 + i < 8 ->
  as_u64 (a + i) = a + i /\ Z.shiftr (a + i) 3 = Z.shiftr a 3 /\ (a + i) mod 8 = a mod 8 + i.
Proof.
  unfold is_u64, as_u64. intros. rewrite !Z.shiftr_div_pow2 by lia. change (2 ^ 3) with 8. lia.
Qed.

Lemma read_bytes_in_word m a d n : forall i acc,
  is_u64 a -> data_get m (Z.shiftr a 3) = Ok d -> 0 <= i -> a mod 8 + i + Z.of_nat n <= 8 ->
  read_bytes_from m a n i acc
  = Ok (Z.lor acc (Z.shiftl (Z.shiftr d (8 * (a mod 8 + i)) mod 2 ^ (8 * Z.of_nat n)) (8 * i))).
Proof.
  induction n as [|n IH]; intros i acc Ha Hg Hi Hn; simpl read_bytes_from.
  - change (2 ^ (8 * Z.of_nat 0)) with 1. by rewrite Z.mod_1_r, Z.shiftl_0_l, Z.lor_0_r.
  - destruct (in_word_address a i) as (E1 & E2 & E3); [done|lia|lia|].
    unfold read_byte. rewrite E1, E2, E3, Hg. cbn [res_bind]. rewrite IH by (done || lia).
    f_equal. apply Z.bits_inj'. intros k Hk. autorewrite with tb. rewrite !tb_mod by lia.
    autorewrite with tb. pose proof (Z.mod_pos_bound a 8). bit_split; bit_finish.
Qed.

Lemma write_bytes_from_S m a v n i :
  write_bytes_from m a v (S n) i
  = let? m' := write_byte m (as_u64 (a + i)) (as_u8 (Z.shiftr v (i * 8))) in
    write_bytes_from m' a v n (i + 1).
Proof. reflexivity. Qed.

Lemma write_bytes_in_word m a d v n : forall i,
  wf_memory m -> is_u64 a -> data_get m (Z.shiftr a 3) = Ok d -> 0 <= i ->
  a mod 8 + i + Z.of_nat (S n) <= 8 ->
  write_bytes_from m a v (S n) i
  = data_set m (Z.shiftr a 3)
      (set_field d (8 * (a mod 8 + i)) (8 * Z.of_nat (S n)) (Z.shiftr v (8 * i))).
Proof.
  revert m d; induction n as [|n IH]; intros m d i Hwf Ha Hg Hi Hn;
    pose proof (Z.mod_pos_bound a 8) as Hm;
    pose proof (data_get_u64 _ _ _ Hwf Hg) as Hd;
    destruct (in_word_address a i) as (E1 & E2 & E3); try (done || lia);
    rewrite write_bytes_from_S; unfold write_byte; rewrite E1, E2, E3;
    rewrite (write_field_ok m _ d _ 8) by (done || lia || (change (2 ^ 8) with 256; unfold as_u8; lia));
    rewrite (Z.mul_comm i 8), (Z.mul_comm (a mod 8 + i) 8);
    replace (set_field d (8 * (a mod 8 + i)) 8 (as_u8 (Z.shiftr v (8 * i))))
      with (set_field d (8 * (a mod 8 + i)) 8 (Z.shiftr v (8 * i)))
      by (apply Z.bits_inj'; intros k Hk; rewrite !set_field_spec, tb_u8 by lia; bit_split; bit_finish).
  - by rewrite !(data_set_ok _ _ d) by done.
  - rewrite (data_set_ok _ _ d) by done. cbn [res_bind].
    set (m1 := mkMemory _).
    assert (Hset : data_set m (Z.shiftr a 3) (set_field d (8 * (a mod 8 + i)) 8 (Z.shiftr v (8 * i))) = Ok m1)
      by (by rewrite (data_set_ok _ _ d)).
    assert (0 <= Z.shiftr a 3) by (rewrite Z.shiftr_nonneg; unfold is_u64 in Ha; lia).
    rewrite (IH m1 (set_field d (8 * (a mod 8 + i)) 8 (Z.shiftr v (8 * i)))); try (done || lia).
    + rewrite (data_set_set _ _ _ _ _ Hset). f_equal.
      replace (8 * (a mod 8 + (i + 1))) with (8 * (a mod 8 + i) + 8) by lia.
      replace (Z.shiftr v (8 * (i + 1))) with (Z.shiftr (Z.shiftr v (8 * i)) 8)
        by (rewrite Z.shiftr_shiftr by lia; f_equal; lia).
      rewrite set_field_join by lia. f_equal. lia.
    + eapply data_set_wf, Hset; [done|]. apply set_field_u64; (done || lia).
    + rewrite (data_set_get _ _ _ _ _ ltac:(done) ltac:(done) Hset). by rewrite Z.eqb_refl.
Qed.

Lemma read_bytes_panic m a n i acc :
  is_u64 a -> data_get m (Z.shiftr a 3) = Panic -> 0 <= i -> a mod 8 + i + Z.of_nat (S n) <= 8 ->
  read_bytes_from m a (S n) i acc = Panic.
Proof.
  intros Ha Hg Hi Hn. destruct (in_word_address a i) as (E1 & E2 & E3); [done|lia|lia|].
  simpl. unfold read_byte. by rewrite E1, E2, Hg.
Qed.

Lemma write_bytes_panic m a v n i :
  is_u64 a -> data_get m (Z.shiftr a 3) = Panic -> 0 <= i -> a mod 8 + i + Z.of_nat (S n) <= 8 ->
  write_bytes_from m a v (S n) i = Panic.
Proof.
  intros Ha Hg Hi Hn. destruct (in_word_address a i) as (E1 & E2 & E3); [done|lia|lia|].
  simpl. unfold write_byte, write_field. by rewrite E1, E2, Hg.
Qed.

Lemma shiftr3_nonneg a : is_u64 a -> 0 <= Z.shiftr a 3.
Proof. intros Ha. rewrite Z.shiftr_nonneg. unfold is_u64 in Ha. lia. Qed.

(** An aligned access of [n] bytes is the byte loop. *)
Lemma aligned_read m a n :
  is_u64 a -> a mod 8 + Z.of_nat (S n) <= 8 ->
  read_bytes_from m a (S n) 0 0
  = let? d := data_get m (Z.shiftr a 3) in
    Ok (Z.shiftr d (a mod 8 * 8) mod 2 ^ (8 * Z.of_nat (S n))).
Proof.
  intros Ha Hn. destruct (data_get_cases m (Z.shiftr a 3) (shiftr3_nonneg a Ha)) as [[d Hg]|Hg];
    rewrite Hg; cbn [res_bind].
  - rewrite (read_bytes_in_word _ _ d) by (done || lia).
    rewrite Z.lor_0_l, Z.shiftl_0_r, Z.add_0_r. by rewrite (Z.mul_comm 8 (a mod 8)).
  - apply read_bytes_panic; (done || lia).
Qed.

Lemma aligned_write m a v n w mask :
  wf_memory m -> is_u64 a -> w = 8 * Z.of_nat (S n) -> a mod 8 * 8 + w <= 64 ->
  mask = Z.ones w -> 0 <= v < 2 ^ w ->
  write_field m (Z.shiftr a 3) (a mod 8 * 8) mask v = write_bytes_from m a v (S n) 0.
Proof.
  intros Hwf Ha -> Hn -> Hv. pose proof (Z.mod_pos_bound a 8).
  destruct (data_get_cases m (Z.shiftr a 3) (shiftr3_nonneg a Ha)) as [[d Hg]|Hg].
  - rewrite (write_bytes_in_word _ _ d) by (done || lia).
    rewrite (write_field_ok m _ d _ (8 * Z.of_nat (S n)));
      try (done || lia || by eapply data_get_u64).
    rewrite Z.add_0_r, Z.shiftr_0_r. by rewrite (Z.mul_comm 8 (a mod 8)).
  - rewrite write_bytes_panic by (done || lia). unfold write_field. by rewrite Hg.
Qed.

(** ** Splitting and shifting byte loops *)

Lemma read_bytes_split m a n1 : forall n2 i acc,
  read_bytes_from m a (n1 + n2) i acc
  = let? x := read_bytes_from m a n1 i acc in read_bytes_from m a n2 (i + Z.of_nat n1) x.
Proof.
  induction n1 as [|n1 IH]; intros n2 i acc.
  - cbn [res_bind]. by rewrite Z.add_0_r.
  - simpl plus. cbn [read_bytes_from]. destruct (read_byte m (as_u64 (a + i))); cbn [res_bind]; try done.
    rewrite IH. do 2 f_equal. lia.
Qed.

Lemma read_bytes_shift m a c n : forall i acc,
  0 <= c -> 0 <= i -> i + c + Z.of_nat n <= 8 ->
  read_bytes_from m a n (i + c) acc
  = let? x := read_bytes_from m (as_u64 (a + c)) n i 0 in Ok (Z.lor acc (Z.shiftl x (8 * c))).
Proof.
  assert (G : forall n i acc acc', 0 <= c -> 0 <= i -> i + c + Z.of_nat n <= 8 ->
    read_bytes_from m a n (i + c) (Z.lor acc (Z.shiftl acc' (8 * c)))
    = let? x := read_bytes_from m (as_u64 (a + c)) n i acc' in Ok (Z.lor acc (Z.shiftl x (8 * c)))).
  { clear n. induction n as [|n IH]; intros i acc acc' Hc Hi Hn; cbn [read_bytes_from]; [done|].
    replace (as_u64 (as_u64 (a + c) + i)) with (as_u64 (a + (i + c))) by (unfold as_u64; lia).
    destruct (read_byte m (as_u64 (a + (i + c)))) as [b| |] eqn:Eb; cbn [res_bind]; try done.
    replace (i + c + 1) with (i + 1 + c) by lia. rewrite <- IH by lia. f_equal.
    assert (Hb : is_u8 b).
    { unfold read_byte in Eb. apply res_bind_inv in Eb as (d & _ & [= <-]).
      unfold is_u8, as_u8. lia. }
    assert (Hb' : b = as_u8 b) by (unfold is_u8, as_u8 in *; lia). rewrite Hb'. bitblast. }
  intros i acc Hc Hi Hn. rewrite <- G by done. by rewrite Z.shiftl_0_l, Z.lor_0_r.
Qed.

Lemma write_bytes_split m a v n1 : forall n2 i,
  write_bytes_from m a v (n1 + n2) i
  = let? m1 := write_bytes_from m a v n1 i in write_bytes_from m1 a v n2 (i + Z.of_nat n1).
Proof.
  revert m; induction n1 as [|n1 IH]; intros m n2 i.
  - cbn [res_bind]. by rewrite Z.add_0_r.
  - simpl plus. rewrite !write_bytes_from_S.
    destruct (write_byte m _ _) as [m1| |]; cbn [res_bind]; try done.
    rewrite IH. by replace (i + 1 + Z.of_nat n1) with (i + Z.of_nat (S n1)) by lia.
Qed.

Lemma write_bytes_shift m a v c n : forall i,
  0 <= c -> 0 <= i ->
  write_bytes_from m a v n (i + c) = write_bytes_from m (as_u64 (a + c)) (Z.shiftr v (8 * c)) n i.
Proof.
  revert m; induction n as [|n IH]; intros m i Hc Hi; [done|].
  rewrite !write_bytes_from_S.
  replace (as_u64 (as_u64 (a + c) + i)) with (as_u64 (a + (i + c))) by (unfold as_u64; lia).
  replace (Z.shiftr v ((i + c) * 8)) with (Z.shiftr (Z.shiftr v (8 * c)) (i * 8))
    by (rewrite Z.shiftr_shiftr by lia; f_equal; lia).
  destruct (write_byte m _ _) as [m1| |]; cbn [res_bind]; try done.
  replace (i + c + 1) with (i + 1 + c) by lia. apply IH; lia.
Qed.

(** The loop only looks at the bytes it writes. *)
Lemma write_bytes_low m a v w n : forall i,
  0 <= i -> 8 * (i + Z.of_nat n) <= w ->
  write_bytes_from m a (v mod 2 ^ w) n i = write_bytes_from m a v n i.
Proof.
  revert m; induction n as [|n IH]; intros m i Hi Hw; [done|]. rewrite !write_bytes_from_S.
  replace (as_u8 (Z.shiftr (v mod 2 ^ w) (i * 8))) with (as_u8 (Z.shiftr v (i * 8))).
  - destruct (write_byte m _ _); cbn [res_bind]; try done. apply IH; lia.
  - apply Z.bits_inj'. intros k Hk. autorewrite with tb. rewrite tb_mod by lia.
    bit_split; bit_finish.
Qed.

Lemma write_byte_wf m a v m' :
  wf_memory m -> is_u64 a -> is_u8 v -> write_byte m a v = Ok m' -> wf_memory m'.
Proof.
  unfold write_byte. intros Hwf Ha Hv H. pose proof (Z.mod_pos_bound a 8).
  destruct (data_get m (Z.shiftr a 3)) as [d| |] eqn:Hg;
    [|unfold write_field in H; by rewrite Hg in H..].
  assert (Hd : is_u64 d) by (by eapply data_get_u64).
  rewrite (write_field_ok m _ d _ 8) in H; try (done || lia).
  eapply data_set_wf, H; [done|]. apply set_field_u64; (done || lia).
Qed.

Lemma write_bytes_from_wf m a v n : forall i m',
  wf_memory m -> write_bytes_from m a v n i = Ok m' -> wf_memory m'.
Proof.
  revert m; induction n as [|n IH]; intros m i m' Hwf; [by intros [= <-]|].
  rewrite write_bytes_from_S. intros (m1 & H1 & H2)%res_bind_inv.
  eapply IH, H2. eapply write_byte_wf, H1; [done|apply as_u64_range|].
  unfold is_u8, as_u8. lia.
Qed.

(** ** Byte-level semantics of writes *)

Lemma byte_of_set_field d p w v q :
  0 <= p -> 0 <= w -> 0 <= q -> (q + 8 <= p \/ p + w <= q) ->
  as_u8 (Z.shiftr (set_field d p w v) q) = as_u8 (Z.shiftr d q).
Proof.
  intros. apply Z.bits_inj'. intros k Hk. rewrite !tb_u8, !tb_shiftr, set_field_spec by lia.
  bit_split; bit_finish.
Qed.

Lemma read_write_byte m a v b m' :
  wf_memory m -> is_u64 a -> is_u8 v -> is_u64 b -> write_byte m a v = Ok m' ->
  read_byte m' b = if b =? a then Ok v else read_byte m b.
Proof.
  intros Hwf Ha Hv Hb H. pose proof (Z.mod_pos_bound a 8). pose proof (Z.mod_pos_bound b 8).
  unfold write_byte in H.
  destruct (data_get m (Z.shiftr a 3)) as [d| |] eqn:Hg;
    [|unfold write_field in H; by rewrite Hg in H..].
  assert (Hd : is_u64 d) by (by eapply data_get_u64).
  rewrite (write_field_ok m _ d _ 8) in H; try (done || lia).
  unfold read_byte.
  rewrite (data_set_get _ _ _ _ _ (shiftr3_nonneg a Ha) (shiftr3_nonneg b Hb) H).
  rewrite !Z.shiftr_div_pow2 in * by lia. change (2 ^ 3) with 8 in *.
  destruct (Z.eqb_spec b a) as [->|Hne].
  - rewrite Z.eqb_refl. cbn [res_bind]. f_equal.
    replace v with (as_u8 v) at 2 by (unfold is_u8, as_u8 in *; lia).
    apply Z.bits_inj'. intros k Hk. rewrite !tb_u8, tb_shiftr, set_field_spec by lia.
    bit_split; bit_finish.
  - destruct (Z.eqb_spec (b / 8) (a / 8)) as [E|E]; [|done].
    rewrite E, Hg. cbn [res_bind]. f_equal. apply byte_of_set_field; lia.
Qed.

Lemma write_bytes_other m a v n : forall i m' b,
  wf_memory m -> is_u64 b -> (forall j, i <= j < i + Z.of_nat n -> b <> as_u64 (a + j)) ->
  write_bytes_from m a v n i = Ok m' -> read_byte m' b = read_byte m b.
Proof.
  revert m; induction n as [|n IH]; intros m i m' b Hwf Hb Hne; [by intros [= <-]|].
  rewrite write_bytes_from_S. intros (m1 & H1 & H2)%res_bind_inv.
  assert (Hu8 : is_u8 (as_u8 (Z.shiftr v (i * 8)))) by (unfold is_u8, as_u8; lia).
  assert (wf_memory m1) by (eapply write_byte_wf, H1; [done|apply as_u64_range|done]).
  rewrite (IH m1 (i + 1) m') by (try done; intros; apply Hne; lia).
  rewrite (read_write_byte _ _ _ _ _ Hwf (as_u64_range _) Hu8 Hb H1).
  by rewrite (proj2 (Z.eqb_neq _ _)) by (apply Hne; lia).
Qed.

Lemma read_after_write_loop m a v n : forall i acc m',
  wf_memory m -> is_u64 a -> 0 <= i -> i + Z.of_nat n <= 8 ->
  write_bytes_from m a v n i = Ok m' ->
  read_bytes_from m' a n i acc
  = Ok (Z.lor acc (Z.shiftl (Z.shiftr v (8 * i) mod 2 ^ (8 * Z.of_nat n)) (8 * i))).
Proof.
  revert m; induction n as [|n IH]; intros m i acc m' Hwf Ha Hi Hn H.
  - injection H as <-. cbn [read_bytes_from]. change (2 ^ (8 * Z.of_nat 0)) with 1.
    by rewrite Z.mod_1_r, Z.shiftl_0_l, Z.lor_0_r.
  - rewrite write_bytes_from_S in H. apply res_bind_inv in H as (m1 & H1 & H2).
    assert (Hu8 : is_u8 (as_u8 (Z.shiftr v (i * 8)))) by (unfold is_u8, as_u8; lia).
    assert (wf_memory m1) by (eapply write_byte_wf, H1; [done|apply as_u64_range|done]).
    cbn [read_bytes_from].
    assert (Hne : forall j, i + 1 <= j < i + 1 + Z.of_nat n -> as_u64 (a + i) <> as_u64 (a + j))
      by (intros j Hj; unfold is_u64, as_u64 in *; lia).
    rewrite (write_bytes_other _ _ _ _ _ _ (as_u64 (a + i)) ltac:(done) (as_u64_range _) Hne H2).
    rewrite (read_write_byte _ _ _ _ _ Hwf (as_u64_range _) Hu8 (as_u64_range _) H1), Z.eqb_refl.
    cbn [res_bind]. rewrite (IH m1 (i + 1)) by (done || lia). f_equal.
    apply Z.bits_inj'. intros k Hk. autorewrite with tb. rewrite !tb_mod by lia.
    autorewrite with tb. bit_split; bit_finish.
Qed.

(** ** Properties *)

(** On a memory of 64-bit words, halfword, word and doubleword reads at
    any address, aligned or not, return the little-endian composition of the
    byte reads, and panic exactly when that loop does. *)
Theorem reads_are_little_endian (m : Memory) (a : Z) (Hwf : wf_memory m) (Ha : is_u64 a) :
  (let? d := read_bytes m a 2 in Ok (as_u16 d)) = read_halfword m a /\
  (let? d := read_bytes m a 4 in Ok (as_u32 d)) = read_word m a /\
  read_bytes m a 8 = read_doubleword m a.
Proof.
  pose proof (Z.mod_pos_bound a 8).
  assert (R4 : forall a', is_u64 a' -> (let? d := read_bytes m a' 4 in Ok (as_u32 d)) = read_word m a').
  { intros a' Ha'. unfold read_word. destruct (Z.eqb_spec (a' mod 4) 0) as [E|E]; [|done].
    unfold read_bytes. change (Z.to_nat 4) with 4%nat. rewrite aligned_read by (done || lia).
    destruct (data_get _ _); cbn [res_bind]; [|done..]. f_equal.
    change (2 ^ (8 * Z.of_nat 4)) with 4294967296. unfold as_u32. lia. }
  split; [|split; [by apply R4|]].
  - unfold read_halfword. destruct (Z.eqb_spec (a mod 2) 0) as [E|E]; [|done].
    unfold read_bytes. change (Z.to_nat 2) with 2%nat. rewrite aligned_read by (done || lia).
    destruct (data_get _ _); cbn [res_bind]; [|done..]. f_equal.
    change (2 ^ (8 * Z.of_nat 2)) with 65536. unfold as_u16. lia.
  - unfold read_doubleword, read_bytes. change (Z.to_nat 8) with 8%nat.
    destruct (Z.eqb_spec (a mod 8) 0) as [E|E].
    + rewrite aligned_read by (done || lia).
      destruct (data_get m (Z.shiftr a 3)) as [d| |] eqn:Hg; cbn [res_bind]; [|done..]. f_equal.
      pose proof (data_get_u64 _ _ _ Hwf Hg). rewrite E, Z.mul_0_l, Z.shiftr_0_r.
      apply Z.mod_small. done.
    + destruct (Z.eqb_spec (a mod 4) 0) as [E4|E4]; [|done].
      rewrite <- !R4 by (done || apply as_u64_range). unfold read_bytes. change (Z.to_nat 4) with 4%nat.
      change 8%nat with (4 + 4)%nat. rewrite read_bytes_split, !aligned_read by (done || unfold is_u64, as_u64 in *; lia).
      destruct (data_get m (Z.shiftr a 3)) as [d| |]; cbn [res_bind]; [|done..].
      change (0 + Z.of_nat 4) with (0 + 4). rewrite read_bytes_shift by lia.
      rewrite aligned_read by (unfold is_u64, as_u64 in *; lia).
      destruct (data_get m (Z.shiftr (as_u64 (a + 4)) 3)) as [d'| |]; cbn [res_bind]; [|done..].
      f_equal. change (8 * Z.of_nat 4) with 32. change (2 ^ 32) with 4294967296.
      change (?x mod 4294967296) with (as_u32 x). bitblast.
Qed.

(** On a memory of 64-bit words, halfword, word and doubleword writes at
    any address are the byte-by-byte little-endian writes, with the same
    panics. *)
Theorem writes_are_little_endian (m : Memory) (a v : Z) (Hwf : wf_memory m) (Ha : is_u64 a) :
  (0 <= v < 65536 -> write_halfword m a v = write_bytes m a v 2) /\
  (0 <= v < 4294967296 -> write_word m a v = write_bytes m a v 4) /\
  (is_u64 v -> write_doubleword m a v = write_bytes m a v 8).
Proof.
  pose proof (Z.mod_pos_bound a 8).
  assert (R4 : forall m a v, wf_memory m -> is_u64 a -> 0 <= v < 4294967296 ->
                 write_word m a v = write_bytes_from m a v 4 0).
  { clear. intros m a v Hwf Ha Hv. unfold write_word.
    destruct (Z.eqb_spec (a mod 4) 0) as [E|E]; [|done].
    rewrite (aligned_write _ _ _ 3 32); (done || lia). }
  split; [|split; [by apply R4|]]; intros Hv.
  - unfold write_halfword. destruct (Z.eqb_spec (a mod 2) 0) as [E|E]; [|done].
    rewrite (aligned_write _ _ _ 1 16); (done || lia).
  - unfold write_doubleword, write_bytes. change (Z.to_nat 8) with 8%nat.
    destruct (Z.eqb_spec (a mod 8) 0) as [E|E].
    + destruct (data_get_cases m (Z.shiftr a 3) (shiftr3_nonneg a Ha)) as [[d Hg]|Hg].
      * rewrite (write_bytes_in_word _ _ d) by (done || lia). f_equal.
        pose proof (data_get_u64 _ _ _ Hwf Hg). rewrite E. apply Z.bits_inj'. intros k Hk.
        rewrite set_field_spec by lia. rewrite Z.shiftr_0_r. change (8 * Z.of_nat 8) with 64.
        bit_split; bit_finish.
      * rewrite write_bytes_panic by (done || lia). unfold data_get, data_set in *.
        destruct (Z.ltb_spec (Z.shiftr a 3) (Z.of_nat (length (data m)))); [|done].
        destruct (lookup_lt_is_Some_2 (data m) (Z.to_nat (Z.shiftr a 3))) as [d Hd].
        { pose proof (shiftr3_nonneg a Ha). lia. }
        by rewrite Hd in Hg.
    + destruct (Z.eqb_spec (a mod 4) 0) as [E4|E4]; [|done].
      change 8%nat with (4 + 4)%nat. rewrite write_bytes_split.
      rewrite R4 by (done || apply as_u32_range).
      replace (as_u32 (Z.land v 4294967295)) with (v mod 2 ^ 32)
        by (change (v mod 2 ^ 32) with (as_u32 v); bitblast).
      rewrite write_bytes_low by lia.
      destruct (write_bytes_from m a v 4 0) as [m1| |] eqn:E1; cbn [res_bind]; [|done..].
      change (0 + Z.of_nat 4) with (0 + 4). rewrite write_bytes_shift by lia.
      rewrite R4; [|by eapply write_bytes_from_wf|apply as_u64_range|apply as_u32_range].
      f_equal. change (8 * 4) with 32. apply as_u32_small.
      unfold is_u32, is_u64 in *. rewrite Z.shiftr_div_pow2 by lia. lia.
Qed.

(** A successful write of up to eight bytes is read back, the bytes
    outside the written range (modulo the address width) keep their value and
    the memory stays well formed. *)
Theorem write_bytes_read_back (m m' : Memory) (a v w : Z)
  (Hwf : wf_memory m) (Ha : is_u64 a) (Hw : 0 <= w <= 8)
  (Hwr : write_bytes m a v w = Ok m') :
  read_bytes m' a w = Ok (v mod 2 ^ (8 * w)) /\
  (forall b, is_u64 b -> (forall j, 0 <= j < w -> b <> as_u64 (a + j)) ->
     mem_byte m' b = mem_byte m b) /\
  wf_memory m'.
Proof.
  unfold read_bytes, write_bytes in *. split; [|split].
  - rewrite (read_after_write_loop m a v (Z.to_nat w) 0 0 m' Hwf Ha ltac:(lia) ltac:(lia) Hwr).
    rewrite Z.lor_0_l, Z.shiftl_0_r, Z.shiftr_0_r. by rewrite Z2Nat.id by lia.
  - intros b Hb Hne. unfold mem_byte.
    rewrite (write_bytes_other m a v (Z.to_nat w) 0 m' b Hwf Hb); [done| |apply Hwr].
    intros j Hj. apply Hne. lia.
  - by eapply write_bytes_from_wf.
Qed.

(** ** Witnesses *)

Definition sample_memory : Memory := init (mkMemory []) 32.

Lemma reads_are_little_endian_witness :
  (let? d := read_bytes sample_memory 3 2 in Ok (as_u16 d)) = read_halfword sample_memory 3 /\
  (let? d := read_bytes sample_memory 3 4 in Ok (as_u32 d)) = read_word sample_memory 3 /\
  read_bytes sample_memory 3 8 = read_doubleword sample_memory 3.
Proof.
  apply reads_are_little_endian.
  - repeat constructor; lia.
  - unfold is_u64. lia.
Defined.

Lemma writes_are_little_endian_witness :
  write_doubleword sample_memory 4 81985529216486895 = write_bytes sample_memory 4 81985529216486895 8.
Proof.
  apply writes_are_little_endian.
  - repeat constructor; lia.
  - unfold is_u64. lia.
  - unfold is_u64. lia.
Defined.

Lemma write_bytes_read_back_witness :
  exists m', write_bytes sample_memory 5 1311768467463790320 6 = Ok m' /\
             read_bytes m' 5 6 = Ok (1311768467463790320 mod 2 ^ 48).
Proof.
  eexists. split; [vm_compute; reflexivity|].
  apply (write_bytes_read_back sample_memory _ 5 1311768467463790320 6).
  - repeat constructor; lia.
  - unfold is_u64. lia.
  - lia.
  - vm_compute. reflexivity.
Defined.
