(* ===== verification/Types.v ===== *)
(** * Shared data types of the emulator

    [Xlen], [PrivilegeMode], [TrapType], [Trap] ([emulator/cpu.rs]), the RAM
    access records ([instruction/mod.rs]) and the constants of
    [common/constants.rs]. *)

From Stdlib Require Import ZArith Lia List Bool.
From stdpp Require Import base list.
From S2P Require Import Prelude Words.
Import ListNotations.
Local Open Scope Z_scope.
Local Open Scope rust_scope.

Inductive Xlen := Bit32 | Bit64.

Inductive PrivilegeMode := User | Supervisor | Reserved | Machine.

Inductive TrapType :=
| InstructionAddressMisaligned
| InstructionAccessFault
| IllegalInstruction
| Breakpoint
| LoadAddressMisaligned
| LoadAccessFault
| StoreAddressMisaligned
| StoreAccessFault
| EnvironmentCallFromUMode
| EnvironmentCallFromSMode
| EnvironmentCallFromMMode
| InstructionPageFault
| LoadPageFault
| StorePageFault
| UserSoftwareInterrupt
| SupervisorSoftwareInterrupt
| MachineSoftwareInterrupt
| UserTimerInterrupt
| SupervisorTimerInterrupt
| MachineTimerInterrupt
| UserExternalInterrupt
| SupervisorExternalInterrupt
| MachineExternalInterrupt.

Record Trap := mkTrap { trap_type : TrapType; trap_value : Z }.

#[export] Instance Xlen_eq_dec : EqDecision Xlen.
Proof. solve_decision. Defined.
#[export] Instance PrivilegeMode_eq_dec : EqDecision PrivilegeMode.
Proof. solve_decision. Defined.
#[export] Instance TrapType_eq_dec : EqDecision TrapType.
Proof. solve_decision. Defined.

(** Bigger number is higher privilege level. *)
Definition get_privilege_encoding (mode : PrivilegeMode) : Res Z :=
  match mode with
  | User => Ok 0
  | Supervisor => Ok 1
  | Reserved => Panic
  | Machine => Ok 3
  end.

Definition get_privilege_mode (encoding : Z) : Res PrivilegeMode :=
  if encoding =? 0 then Ok User
  else if encoding =? 1 then Ok Supervisor
  else if encoding =? 3 then Ok Machine
  else Panic.

Definition get_trap_cause (trap : Trap) (xlen : Xlen) : Z :=
  let interrupt_bit := match xlen with
                       | Bit32 => 0x80000000
                       | Bit64 => 0x8000000000000000
                       end in
  match trap_type trap with
  | InstructionAddressMisaligned => 0
  | InstructionAccessFault => 1
  | IllegalInstruction => 2
  | Breakpoint => 3
  | LoadAddressMisaligned => 4
  | LoadAccessFault => 5
  | StoreAddressMisaligned => 6
  | StoreAccessFault => 7
  | EnvironmentCallFromUMode => 8
  | EnvironmentCallFromSMode => 9
  | EnvironmentCallFromMMode => 11
  | InstructionPageFault => 12
  | LoadPageFault => 13
  | StorePageFault => 15
  | UserSoftwareInterrupt => interrupt_bit
  | SupervisorSoftwareInterrupt => interrupt_bit + 1
  | MachineSoftwareInterrupt => interrupt_bit + 3
  | UserTimerInterrupt => interrupt_bit + 4
  | SupervisorTimerInterrupt => interrupt_bit + 5
  | MachineTimerInterrupt => interrupt_bit + 7
  | UserExternalInterrupt => interrupt_bit + 8
  | SupervisorExternalInterrupt => interrupt_bit + 9
  | MachineExternalInterrupt => interrupt_bit + 11
  end.

Record RAMRead := mkRAMRead { rr_address : Z; rr_value : Z }.
Record RAMWrite := mkRAMWrite { rw_address : Z; rw_pre_value : Z; rw_post_value : Z }.

Inductive RAMAccess :=
| RARead (r : RAMRead)
| RAWrite (w : RAMWrite)
| RANoOp.

(** [Default::default()] of the access records. *)
Definition RAMRead_default : RAMRead := mkRAMRead 0 0.
Definition RAMWrite_default : RAMWrite := mkRAMWrite 0 0 0.

(** ** [common/constants.rs] *)

Definition XLEN `{Build} : Z := if feature_rv64 then 64 else 32.
(** [e as XlenInt] *)
Definition as_XlenInt `{Build} (z : Z) : Z := if feature_rv64 then as_u64 z else as_u32 z.

Definition RISCV_REGISTER_COUNT : Z := 32.
Definition VIRTUAL_REGISTER_COUNT : Z := 96.
Definition VIRTUAL_INSTRUCTION_RESERVED_REGISTER_COUNT : Z := 16.
Definition REGISTER_COUNT : Z := RISCV_REGISTER_COUNT + VIRTUAL_REGISTER_COUNT.
Definition RAM_START_ADDRESS : Z := 0x80000000.
Definition DRAM_BASE : Z := RAM_START_ADDRESS.
Definition STACK_CANARY_SIZE : Z := 128.
Definition DEFAULT_MEMORY_SIZE : Z := 32 * 1024 * 1024.
Definition DEFAULT_STACK_SIZE : Z := 4096.
Definition DEFAULT_MAX_TRUSTED_ADVICE_SIZE : Z := 4096.
Definition DEFAULT_MAX_UNTRUSTED_ADVICE_SIZE : Z := 4096.
Definition DEFAULT_MAX_INPUT_SIZE : Z := 4096.
Definition DEFAULT_MAX_OUTPUT_SIZE : Z := 4096.
