(* ===== verification/Device.v ===== *)
(** * The I/O device and the memory layout ([common/jolt_device.rs])

    [MemoryLayout_new] places the I/O regions below the start of RAM with
    checked arithmetic; [JoltDevice] serves byte loads and stores of these
    regions.  The theorems show that a layout that is built is ordered, aligned
    and below RAM, and that what the program stores as output is what it (and
    the verifier) reads. *)

From Stdlib Require Import ZArith Lia List Bool.
From stdpp Require Import base list.
From S2P Require Import Prelude Words Types.
Import ListNotations.
Local Open Scope Z_scope.
Local Open Scope rust_scope.

Record MemoryConfig := mkMemoryConfig {
  mc_max_input_size : Z;
  mc_max_trusted_advice_size : Z;
  mc_max_untrusted_advice_size : Z;
  mc_max_output_size : Z;
  mc_stack_size : Z;
  mc_memory_size : Z;
  mc_program_size : option Z
}.

Definition MemoryConfig_default : MemoryConfig :=
  mkMemoryConfig DEFAULT_MAX_INPUT_SIZE DEFAULT_MAX_TRUSTED_ADVICE_SIZE
    DEFAULT_MAX_UNTRUSTED_ADVICE_SIZE DEFAULT_MAX_OUTPUT_SIZE DEFAULT_STACK_SIZE
    DEFAULT_MEMORY_SIZE None.

Record MemoryLayout := mkMemoryLayout {
  program_size : Z;
  max_trusted_advice_size : Z;
  trusted_advice_start : Z;
  trusted_advice_end : Z;
  max_untrusted_advice_size : Z;
  untrusted_advice_start : Z;
  untrusted_advice_end : Z;
  max_input_size : Z;
  max_output_size : Z;
  input_start : Z;
  input_end : Z;
  output_start : Z;
  output_end : Z;
  stack_size : Z;
  stack_end : Z;
  memory_size : Z;
  memory_end : Z;
  panic_address : Z;
  termination : Z;
  io_end : Z
}.

(** [a.checked_add(b).expect(..)] and the like on [u64]. *)
Definition checked_u64 (z : Z) : Res Z :=
  if (0 <=? z) && (z <=? u64_MAX) then Ok z else Panic.

Definition align_up (val align : Z) : Res Z :=
  if align =? 0 then Ok val
  else
    let rem := val mod align in
    if rem =? 0 then Ok val else checked_u64 (val + (align - rem)).

Section Device.
Context `{Build}.

(** [u64::next_power_of_two]: panics or wraps to zero when it does not fit. *)
Definition next_power_of_two (z : Z) : Res Z :=
  if z <=? 1 then Ok 1
  else
    let p := 2 ^ Z.log2_up z in
    if p <=? u64_MAX then Ok p else if overflow_checks then Panic else Ok 0.

Definition MemoryLayout_new (config : MemoryConfig) : Res MemoryLayout :=
  match mc_program_size config with
  | None => Panic
  | Some program_size =>
    let? max_trusted_advice_size := align_up (mc_max_trusted_advice_size config) 8 in
    let? max_untrusted_advice_size := align_up (mc_max_untrusted_advice_size config) 8 in
    let? max_input_size := align_up (mc_max_input_size config) 8 in
    let? max_output_size := align_up (mc_max_output_size config) 8 in
    let? stack_size := align_up (mc_stack_size config) 8 in
    let? memory_size := align_up (mc_memory_size config) 8 in
    let? s := checked_u64 (max_input_size + max_trusted_advice_size) in
    let? s := checked_u64 (s + max_untrusted_advice_size) in
    let? s := checked_u64 (s + max_output_size) in
    let? io_region_bytes := checked_u64 (s + 16) in
    let? io_region_words := next_power_of_two (io_region_bytes / 8) in
    let? io_bytes := checked_u64 (io_region_words * 8) in
    let? trusted_advice_start := checked_u64 (RAM_START_ADDRESS - io_bytes) in
    let? trusted_advice_end := checked_u64 (trusted_advice_start + max_trusted_advice_size) in
    let untrusted_advice_start := trusted_advice_end in
    let? untrusted_advice_end := checked_u64 (untrusted_advice_start + max_untrusted_advice_size) in
    let input_start := untrusted_advice_end in
    let? input_end := checked_u64 (input_start + max_input_size) in
    let output_start := input_end in
    let? output_end := checked_u64 (output_start + max_output_size) in
    let panic := output_end in
    let? termination := checked_u64 (panic + 8) in
    let? io_end := checked_u64 (termination + 8) in
    let? stack_end := checked_u64 (RAM_START_ADDRESS + program_size) in
    let? stack_start := checked_u64 (stack_end + stack_size) in
    let? memory_end := checked_u64 (stack_start + memory_size) in
    Ok {| program_size := program_size;
          max_trusted_advice_size := max_trusted_advice_size;
          trusted_advice_start := trusted_advice_start;
          trusted_advice_end := trusted_advice_end;
          max_untrusted_advice_size := max_untrusted_advice_size;
          untrusted_advice_start := untrusted_advice_start;
          untrusted_advice_end := untrusted_advice_end;
          max_input_size := max_input_size;
          max_output_size := max_output_size;
          input_start := input_start;
          input_end := input_end;
          output_start := output_start;
          output_end := output_end;
          stack_size := stack_size;
          stack_end := stack_end;
          memory_size := memory_size;
          memory_end := memory_end;
          panic_address := panic;
          termination := termination;
          io_end := io_end |}
  end.

Record JoltDevice := mkJoltDevice {
  inputs : list Z;
  trusted_advice : list Z;
  untrusted_advice : list Z;
  outputs : list Z;
  device_panic : bool;
  memory_layout : MemoryLayout
}.

Definition JoltDevice_new (memory_config : MemoryConfig) : Res JoltDevice :=
  let? layout := MemoryLayout_new memory_config in
  Ok (mkJoltDevice [] [] [] [] false layout).

Definition is_input (d : JoltDevice) (address : Z) : bool :=
  (address >=? input_start (memory_layout d)) && (address <? input_end (memory_layout d)).
Definition is_trusted_advice (d : JoltDevice) (address : Z) : bool :=
  (address >=? trusted_advice_start (memory_layout d)) && (address <? trusted_advice_end (memory_layout d)).
Definition is_untrusted_advice (d : JoltDevice) (address : Z) : bool :=
  (address >=? untrusted_advice_start (memory_layout d)) && (address <? untrusted_advice_end (memory_layout d)).
Definition is_output (d : JoltDevice) (address : Z) : bool :=
  (address >=? output_start (memory_layout d)) && (address <? termination (memory_layout d)).
Definition is_panic (d : JoltDevice) (address : Z) : bool :=
  (address >=? panic_address (memory_layout d)) && (address <? termination (memory_layout d)).
Definition is_termination (d : JoltDevice) (address : Z) : bool :=
  (address >=? termination (memory_layout d)) && (address <? io_end (memory_layout d)).

Definition convert_read_address (d : JoltDevice) (address : Z) : Res Z :=
  sub_u64 address (input_start (memory_layout d)).
Definition convert_trusted_advice_read_address (d : JoltDevice) (address : Z) : Res Z :=
  sub_u64 address (trusted_advice_start (memory_layout d)).
Definition convert_untrusted_advice_read_address (d : JoltDevice) (address : Z) : Res Z :=
  sub_u64 address (untrusted_advice_start (memory_layout d)).
Definition convert_write_address (d : JoltDevice) (address : Z) : Res Z :=
  sub_u64 address (output_start (memory_layout d)).

(** [v[i]] with the zero past the end that every read branch writes out. *)
Definition byte_or_zero (v : list Z) (i : Z) : Z :=
  if Z.of_nat (length v) <=? i then 0 else nth (Z.to_nat i) v 0.

Definition device_load (d : JoltDevice) (address : Z) : Res Z :=
  if is_panic d address then Ok (if device_panic d then 1 else 0)
  else if is_termination d address then Ok 0
  else if is_input d address then
    let? internal_address := convert_read_address d address in
    Ok (byte_or_zero (inputs d) internal_address)
  else if is_trusted_advice d address then
    let? internal_address := convert_trusted_advice_read_address d address in
    Ok (byte_or_zero (trusted_advice d) internal_address)
  else if is_untrusted_advice d address then
    let? internal_address := convert_untrusted_advice_read_address d address in
    Ok (byte_or_zero (untrusted_advice d) internal_address)
  else if is_output d address then
    let? internal_address := convert_write_address d address in
    Ok (byte_or_zero (outputs d) internal_address)
  else
    if address <=? RAM_START_ADDRESS - 8 then Ok 0 else Panic.

(** [Vec::resize(n, 0)] *)
Definition vec_resize (v : list Z) (n : Z) : list Z :=
  if n <=? Z.of_nat (length v) then firstn (Z.to_nat n) v
  else v ++ replicate (Z.to_nat n - length v) 0.

Definition vec_set (v : list Z) (i x : Z) : Res (list Z) :=
  if i <? Z.of_nat (length v) then Ok (<[Z.to_nat i := x]> v) else Panic.

Definition with_outputs (d : JoltDevice) (o : list Z) : JoltDevice :=
  mkJoltDevice (inputs d) (trusted_advice d) (untrusted_advice d) o (device_panic d) (memory_layout d).
Definition with_panic (d : JoltDevice) : JoltDevice :=
  mkJoltDevice (inputs d) (trusted_advice d) (untrusted_advice d) (outputs d) true (memory_layout d).

Definition device_store (d : JoltDevice) (address value : Z) : Res JoltDevice :=
  if address =? panic_address (memory_layout d) then Ok (with_panic d)
  else if is_panic d address || is_termination d address then Ok d
  else
    let? internal_address := convert_write_address d address in
    let? o := if Z.of_nat (length (outputs d)) <=? internal_address
              then let? n := add_u64 internal_address 1 in Ok (vec_resize (outputs d) n)
              else Ok (outputs d) in
    let? o := vec_set o internal_address value in
    Ok (with_outputs d o).

(** [device_size] is [JoltDevice::size]. *)
Definition device_size (d : JoltDevice) : Z :=
  Z.of_nat (length (inputs d)) + Z.of_nat (length (outputs d)).

End Device.

(** ** Invariant of a layout built by [MemoryLayout_new] *)

Record layout_ok (l : MemoryLayout) : Prop := {
  lo_start : exists k, 1 <= k /\ trusted_advice_start l = RAM_START_ADDRESS - 8 * 2 ^ k;
  lo_nonneg : 0 <= trusted_advice_start l;
  lo_trusted : trusted_advice_start l <= trusted_advice_end l;
  lo_untrusted : trusted_advice_end l = untrusted_advice_start l /\ untrusted_advice_start l <= untrusted_advice_end l;
  lo_input : untrusted_advice_end l = input_start l /\ input_start l <= input_end l;
  lo_output : input_end l = output_start l /\ output_start l <= output_end l;
  lo_panic : output_end l = panic_address l;
  lo_termination : termination l = panic_address l + 8;
  lo_io_end : io_end l = termination l + 8;
  lo_below_ram : io_end l <= RAM_START_ADDRESS;
  lo_aligned : trusted_advice_start l mod 8 = 0 /\ trusted_advice_end l mod 8 = 0 /\
               untrusted_advice_end l mod 8 = 0 /\ input_end l mod 8 = 0 /\ output_end l mod 8 = 0;
  lo_stack : stack_end l = RAM_START_ADDRESS + program_size l;
  lo_memory : memory_end l = stack_end l + stack_size l + memory_size l /\ is_u64 (memory_end l)
}.

(** Every configured size is a [u64]. *)
Definition config_ok (c : MemoryConfig) : Prop :=
  is_u64 (mc_max_input_size c) /\ is_u64 (mc_max_trusted_advice_size c) /\
  is_u64 (mc_max_untrusted_advice_size c) /\ is_u64 (mc_max_output_size c) /\
  is_u64 (mc_stack_size c) /\ is_u64 (mc_memory_size c) /\
  match mc_program_size c with Some p => is_u64 p | None => True end.

Lemma checked_u64_ok z r : checked_u64 z = Ok r -> r = z /\ is_u64 z.
Proof.
  unfold checked_u64, u64_MAX, is_u64.
  destruct (Z.leb_spec 0 z), (Z.leb_spec z 18446744073709551615); simpl; intros [= <-]; lia.
Qed.

Lemma align_up_ok v r : is_u64 v -> align_up v 8 = Ok r -> is_u64 r /\ r mod 8 = 0 /\ v <= r < v + 8.
Proof.
  unfold align_up. simpl. intros Hv. destruct (Z.eqb_spec (v mod 8) 0).
  - intros [= <-]. unfold is_u64 in *. lia.
  - intros [-> ?]%checked_u64_ok. unfold is_u64 in *. lia.
Qed.

Lemma next_power_of_two_ok `{Build} z r :
  1 < z <= 2 ^ 61 -> next_power_of_two z = Ok r -> exists k, 1 <= k <= 61 /\ r = 2 ^ k /\ z <= r.
Proof.
  intros Hz. unfold next_power_of_two. destruct (Z.leb_spec z 1); [lia|].
  pose proof (Z.log2_up_spec z ltac:(lia)) as Hl.
  assert (0 < Z.log2_up z) by (apply Z.log2_up_pos; lia).
  assert (Z.log2_up z <= 61) by (rewrite <- (Z.log2_up_pow2 61) by lia; apply Z.log2_up_le_mono; lia).
  assert (2 ^ Z.log2_up z <= 2 ^ 61) by (apply Z.pow_le_mono_r; lia).
  destruct (Z.leb_spec (2 ^ Z.log2_up z) u64_MAX); [|unfold u64_MAX in *; lia].
  intros [= <-]. exists (Z.log2_up z). lia.
Qed.

(** Inverts the chain of fallible steps of a hypothesis. *)
Ltac res_inv :=
  repeat match goal with
    | H : res_bind ?m _ = Ok _ |- _ =>
        let v := fresh "v" in let H1 := fresh "Hs" in
        apply res_bind_inv in H as (v & H1 & H)
    | H : checked_u64 _ = Ok _ |- _ => apply checked_u64_ok in H as [-> H]
    | H : Ok _ = Ok _ |- _ => injection H as H
    end.

(** Whenever [MemoryLayout::new] returns, the regions are laid out
    without gaps or overlap in the order trusted advice, untrusted advice,
    inputs, outputs, panic word, termination word, all boundaries are 8-byte
    aligned, everything lies below the start of RAM, the region starts a power
    of two of words below RAM, and the stack and heap end where the struct says
    without overflow; in every build. *)
Theorem memory_layout_ordered `{Build} (c : MemoryConfig) (l : MemoryLayout)
  (Hc : config_ok c) (Hl : MemoryLayout_new c = Ok l) : layout_ok l.
Proof.
  destruct Hc as (H1 & H2 & H3 & H4 & H5 & H6 & H7).
  unfold MemoryLayout_new in Hl. destruct (mc_program_size c) as [p|]; [|done].
  res_inv.
  repeat match goal with
    | H : align_up _ 8 = Ok _ |- _ => apply align_up_ok in H; [|assumption]
    end.
  match goal with H : next_power_of_two _ = Ok _ |- _ => apply next_power_of_two_ok in H as (k & Hk & -> & Hw) end.
  2:{ change (2 ^ 61) with 2305843009213693952. unfold is_u64 in *. lia. }
  assert (Hpow : 2 ^ k = 2 * 2 ^ (k - 1)) by (rewrite <- Z.pow_succ_r by lia; f_equal; lia).
  subst l. unfold is_u64, RAM_START_ADDRESS in *.
  constructor; simpl; unfold RAM_START_ADDRESS, is_u64; try lia.
  exists k. lia.
Qed.

Lemma byte_or_zero_set v i x j :
  0 <= i -> 0 <= j ->
  byte_or_zero (<[Z.to_nat i := x]> (if Z.of_nat (length v) <=? i then vec_resize v (i + 1) else v)) j
  = if j =? i then x else byte_or_zero v j.
Proof.
  intros Hi Hj. unfold byte_or_zero, vec_resize. rewrite length_insert.
  destruct (Z.leb_spec (Z.of_nat (length v)) i).
  - zbool. rewrite length_app, length_replicate.
    destruct (Z.eqb_spec j i) as [->|Hne].
    + zbool. apply nth_lookup_Some with (d := 0). rewrite list_lookup_insert_eq; [done|].
      rewrite length_app, length_replicate. lia.
    + rewrite !nth_lookup, list_lookup_insert_ne by lia.
      destruct (Z.leb_spec (Z.of_nat (length v)) j).
      * destruct (_ <=? j); [done|]. rewrite lookup_app_r by lia. 
        destruct (replicate _ _ !! _) eqn:E; [|done]. by apply lookup_replicate in E as [-> _].
      * zbool. by rewrite lookup_app_l by lia.
  - destruct (Z.eqb_spec j i) as [->|Hne].
    + zbool. apply nth_lookup_Some with (d := 0). by rewrite list_lookup_insert_eq by lia.
    + destruct (Z.leb_spec (Z.of_nat (length v)) j); [done|].
      by rewrite !nth_lookup, list_lookup_insert_ne by lia.
Qed.

(** On a device with a well-formed layout, a store in the output region
    succeeds, the byte is read back, and every other address of the device
    (inputs, advice, other outputs, panic and termination words) loads as
    before; in every build. *)
Theorem device_output_read_back `{Build} (d : JoltDevice) (a v : Z)
  (Hl : layout_ok (memory_layout d))
  (Ha : output_start (memory_layout d) <= a < output_end (memory_layout d)) :
  exists d', device_store d a v = Ok d' /\ device_load d' a = Ok v /\
             forall b, b <> a -> device_load d' b = device_load d b.
Proof.
  destruct Hl. unfold RAM_START_ADDRESS in *.
  assert (Hpan : is_panic d a = false) by (unfold is_panic; lia).
  assert (Hterm : is_termination d a = false) by (unfold is_termination; lia).
  set (ia := a - output_start (memory_layout d)).
  assert (Hconv : convert_write_address d a = Ok ia) by (apply sub_u64_ok; unfold is_u64; lia).
  set (o := <[Z.to_nat ia := v]> (if Z.of_nat (length (outputs d)) <=? ia
                                  then vec_resize (outputs d) (ia + 1) else outputs d)).
  assert (Hb : forall b, 0 <= b -> byte_or_zero o b = if b =? ia then v else byte_or_zero (outputs d) b)
    by (intros b Hb; apply byte_or_zero_set; lia).
  assert (Hload : forall b, device_load (with_outputs d o) b = if b =? a then Ok v else device_load d b).
  { intros b. unfold device_load.
    change (is_panic (with_outputs d o) b) with (is_panic d b).
    destruct (is_panic d b) eqn:Ep; [unfold is_panic in *; by zbool|].
    change (is_termination (with_outputs d o) b) with (is_termination d b).
    destruct (is_termination d b) eqn:Et; [unfold is_termination in *; by zbool|].
    change (is_input (with_outputs d o) b) with (is_input d b).
    destruct (is_input d b) eqn:Ei; [unfold is_input in *; by zbool|].
    change (is_trusted_advice (with_outputs d o) b) with (is_trusted_advice d b).
    destruct (is_trusted_advice d b) eqn:Eta; [unfold is_trusted_advice in *; by zbool|].
    change (is_untrusted_advice (with_outputs d o) b) with (is_untrusted_advice d b).
    destruct (is_untrusted_advice d b) eqn:Eu; [unfold is_untrusted_advice in *; by zbool|].
    change (is_output (with_outputs d o) b) with (is_output d b).
    destruct (is_output d b) eqn:Eo; unfold is_output in *; [|by zbool].
    assert (Hcb : convert_write_address d b = Ok (b - output_start (memory_layout d)))
      by (apply sub_u64_ok; unfold is_u64; lia).
    change (convert_write_address (with_outputs d o) b) with (convert_write_address d b).
    rewrite Hcb. cbn [res_bind outputs with_outputs]. rewrite Hb by lia. subst ia.
    destruct (Z.eqb_spec b a) as [->|]; [by rewrite Z.eqb_refl|by zbool]. }
  exists (with_outputs d o). split; [|split].
  - unfold device_store. zbool. rewrite Hpan, Hterm, Hconv. cbn [orb res_bind].
    rewrite add_u64_ok by (unfold is_u64; lia). subst o. unfold vec_set.
    destruct (Z.leb_spec (Z.of_nat (length (outputs d))) ia); cbn [res_bind].
    + unfold vec_resize. zbool. rewrite length_app, length_replicate. by zbool.
    + by zbool.
  - by rewrite Hload, Z.eqb_refl.
  - intros b Hne. rewrite Hload. by zbool.
Qed.

(** ** Witnesses *)

Definition sample_config : MemoryConfig := mkMemoryConfig 4096 4096 4096 4096 4096 33554432 (Some 1024).

Definition sample_layout : MemoryLayout :=
  match @MemoryLayout_new test_rv64 sample_config with
  | Ok l => l
  | _ => mkMemoryLayout 0 0 0 0 0 0 0 0 0 0 0 0 0 0 0 0 0 0 0 0
  end.

Lemma sample_layout_ok : layout_ok sample_layout.
Proof.
  constructor; try exists 12; vm_compute; intuition congruence.
Qed.

Lemma memory_layout_ordered_witness :
  @MemoryLayout_new test_rv64 sample_config = Ok sample_layout /\ layout_ok sample_layout.
Proof.
  split; [vm_compute; reflexivity|].
  apply (@memory_layout_ordered test_rv64 sample_config).
  - unfold config_ok, is_u64. simpl. lia.
  - vm_compute. reflexivity.
Defined.

Definition sample_device : JoltDevice := mkJoltDevice [1; 2; 3] [] [] [7] false sample_layout.

Lemma device_output_read_back_witness :
  exists d', @device_store test_rv64 sample_device (output_start sample_layout + 2) 5 = Ok d' /\
             @device_load test_rv64 d' (output_start sample_layout + 2) = Ok 5.
Proof.
  destruct (@device_output_read_back test_rv64 sample_device (output_start sample_layout + 2) 5)
    as (d' & H1 & H2 & _).
  - apply sample_layout_ok.
  - vm_compute. intuition congruence.
  - exists d'. exact (conj H1 H2).
Defined.
