(* ===== verification/Mmu.v ===== *)
(** * Memory management unit ([emulator/mmu.rs])

    The bus between the CPU, the main memory and the I/O device: effective
    addresses, the bounds assertions of the Jolt memory layout, raw (physical)
    accesses, Sv32/Sv39 address translation and the records of the memory words
    an instruction reads or writes.

    Functions that take [&mut self] but do not change the [Mmu] are modelled as
    reads [Mmu -> Res A]; those that change it pass the state. *)

From Stdlib Require Import ZArith Lia List Bool.
From stdpp Require Import base list.
From S2P Require Import Prelude Words Memory Types Device.
Import ListNotations.
Local Open Scope Z_scope.
Local Open Scope rust_scope.

Inductive AddressingMode := AM_None | SV32 | SV39 | SV48.
Inductive MemoryAccessType := Execute | Read | Write.

Record Mmu := mkMmu {
  mmu_clock : Z;
  mmu_xlen : Xlen;
  ppn : Z;
  addressing_mode : AddressingMode;
  mmu_privilege_mode : PrivilegeMode;
  memory : Memory;
  jolt_device : option JoltDevice;
  mmu_mstatus : Z
}.

Definition Mmu_new (xlen : Xlen) : Mmu :=
  mkMmu 0 xlen 0 AM_None Machine (mkMemory []) None 0.

(** Field updates of [&mut self]. *)
Definition with_mmu_xlen (m : Mmu) (x : Xlen) : Mmu :=
  mkMmu (mmu_clock m) x (ppn m) (addressing_mode m) (mmu_privilege_mode m) (memory m) (jolt_device m) (mmu_mstatus m).
Definition with_memory (m : Mmu) (mem : Memory) : Mmu :=
  mkMmu (mmu_clock m) (mmu_xlen m) (ppn m) (addressing_mode m) (mmu_privilege_mode m) mem (jolt_device m) (mmu_mstatus m).
Definition with_device (m : Mmu) (d : option JoltDevice) : Mmu :=
  mkMmu (mmu_clock m) (mmu_xlen m) (ppn m) (addressing_mode m) (mmu_privilege_mode m) (memory m) d (mmu_mstatus m).

Definition mmu_update_xlen (m : Mmu) (xlen : Xlen) : Mmu := with_mmu_xlen m xlen.

Definition init_memory (m : Mmu) (capacity : Z) : Mmu := with_memory m (init (memory m) capacity).

Definition mmu_tick (m : Mmu) : Mmu :=
  mkMmu (as_u64 (mmu_clock m + 1)) (mmu_xlen m) (ppn m) (addressing_mode m) (mmu_privilege_mode m)
    (memory m) (jolt_device m) (mmu_mstatus m).

Definition mmu_update_addressing_mode (m : Mmu) (a : AddressingMode) : Mmu :=
  mkMmu (mmu_clock m) (mmu_xlen m) (ppn m) a (mmu_privilege_mode m) (memory m) (jolt_device m) (mmu_mstatus m).

Definition update_privilege_mode (m : Mmu) (p : PrivilegeMode) : Mmu :=
  mkMmu (mmu_clock m) (mmu_xlen m) (ppn m) (addressing_mode m) p (memory m) (jolt_device m) (mmu_mstatus m).

Definition update_mstatus (m : Mmu) (mstatus : Z) : Mmu :=
  mkMmu (mmu_clock m) (mmu_xlen m) (ppn m) (addressing_mode m) (mmu_privilege_mode m) (memory m) (jolt_device m) mstatus.

Definition update_ppn (m : Mmu) (p : Z) : Mmu :=
  mkMmu (mmu_clock m) (mmu_xlen m) p (addressing_mode m) (mmu_privilege_mode m) (memory m) (jolt_device m) (mmu_mstatus m).

Definition get_effective_address (m : Mmu) (address : Z) : Z :=
  match mmu_xlen m with
  | Bit32 => Z.land address 0xffffffff
  | Bit64 => address
  end.

Section MmuOps.
Context `{Build}.

(** ** [MemoryWrapper]: physical address to memory offset *)

Definition mw_read (read : Memory -> Z -> Res Z) (last : Z) (m : Mmu) (p_address : Z) : Res Z :=
  let? _ := debug_assert ((p_address >=? DRAM_BASE) && (as_u64 (p_address + last) >=? DRAM_BASE)) in
  let? a := sub_u64 p_address DRAM_BASE in
  read (memory m) a.

Definition mw_write (write : Memory -> Z -> Z -> Res Memory) (last : Z) (m : Mmu) (p_address value : Z) : Res Mmu :=
  let? _ := debug_assert ((p_address >=? DRAM_BASE) && (as_u64 (p_address + last) >=? DRAM_BASE)) in
  let? a := sub_u64 p_address DRAM_BASE in
  let? mem := write (memory m) a value in
  Ok (with_memory m mem).

Definition mw_read_byte := mw_read read_byte 0.
Definition mw_read_halfword := mw_read read_halfword 1.
Definition mw_read_word := mw_read read_word 3.
Definition mw_read_doubleword := mw_read read_doubleword 7.
Definition mw_write_byte := mw_write write_byte 0.
Definition mw_write_halfword := mw_write write_halfword 1.
Definition mw_write_word := mw_write write_word 3.
Definition mw_write_doubleword := mw_write write_doubleword 7.

(** ** Bounds assertions *)

Definition assert_effective_address (m : Mmu) (ea : Z) (is_write : bool) : Res unit :=
  match jolt_device m with
  | None => Ok tt
  | Some d =>
      let layout := memory_layout d in
      if ea <? DRAM_BASE then
        let? _ := assert_res (ea <=? io_end layout) in
        let? _ := assert_res (ea >=? trusted_advice_start layout) in
        let ok := if is_write
                  then is_output d ea || is_panic d ea || is_termination d ea
                  else is_input d ea || is_trusted_advice d ea || is_untrusted_advice d ea
                       || is_output d ea || is_panic d ea || is_termination d ea in
        assert_res ok
      else if is_write then
        let? canary_end := (if ea <=? stack_end layout then Ok 0
                            else add_u64 (stack_end layout) STACK_CANARY_SIZE) in
        let? _ := assert_res ((ea <=? stack_end layout) || (ea >? canary_end)) in
        assert_res (ea <? memory_end layout)
      else
        assert_res (ea <? memory_end layout)
  end.

Definition assert_effective_store_address (m : Mmu) (ea : Z) : Res unit := assert_effective_address m ea true.
Definition assert_effective_load_address (m : Mmu) (ea : Z) : Res unit := assert_effective_address m ea false.

(** ** Raw accesses (physical addresses) *)

Definition in_range (lo hi a : Z) : bool := (lo <=? a) && (a <=? hi).

Definition load_raw (m : Mmu) (p_address : Z) : Res Z :=
  let effective_address := get_effective_address m p_address in
  let? _ := assert_effective_load_address m effective_address in
  if effective_address >=? DRAM_BASE then mw_read_byte m effective_address
  else if in_range 0x00001020 0x00001fff effective_address then Panic
  else if in_range 0x02000000 0x0200ffff effective_address then Panic
  else if in_range 0x0C000000 0x0fffffff effective_address then Panic
  else if in_range 0x10000000 0x100000ff effective_address then Panic
  else if in_range 0x10001000 0x10001FFF effective_address then Panic
  else
    match jolt_device m with
    | Some d =>
        if is_input d effective_address || is_trusted_advice d effective_address
           || is_untrusted_advice d effective_address || is_output d effective_address
           || is_panic d effective_address || is_termination d effective_address
        then device_load d effective_address
        else Panic
    | None => Panic
    end.

(** [for i in i0..i0+n { data |= load_raw(ea.wrapping_add(i)) << (i * 8) }] *)
Fixpoint load_raw_loop (m : Mmu) (ea : Z) (n : nat) (i data : Z) : Res Z :=
  match n with
  | O => Ok data
  | S n' =>
      let? b := load_raw m (as_u64 (ea + i)) in
      load_raw_loop m ea n' (i + 1) (Z.lor data (Z.shiftl b (i * 8)))
  end.

Definition load_halfword_raw (m : Mmu) (p_address : Z) : Res Z :=
  let effective_address := get_effective_address m p_address in
  if (effective_address >=? DRAM_BASE) && (as_u64 (effective_address + 1) >? effective_address) then
    let? _ := assert_effective_load_address m effective_address in
    mw_read_halfword m effective_address
  else load_raw_loop m effective_address 2 0 0.

Definition load_word_raw (m : Mmu) (p_address : Z) : Res Z :=
  let effective_address := get_effective_address m p_address in
  if (effective_address >=? DRAM_BASE) && (as_u64 (effective_address + 3) >? effective_address) then
    let? _ := assert_effective_load_address m effective_address in
    mw_read_word m effective_address
  else load_raw_loop m effective_address 4 0 0.

Definition load_doubleword_raw (m : Mmu) (p_address : Z) : Res Z :=
  let effective_address := get_effective_address m p_address in
  if (effective_address >=? DRAM_BASE) && (as_u64 (effective_address + 7) >? effective_address) then
    let? _ := assert_effective_load_address m effective_address in
    mw_read_doubleword m effective_address
  else load_raw_loop m effective_address 8 0 0.

Definition store_raw (m : Mmu) (p_address value : Z) : Res Mmu :=
  let effective_address := get_effective_address m p_address in
  if effective_address >=? DRAM_BASE then
    let? _ := assert_effective_store_address m effective_address in
    mw_write_byte m effective_address value
  else if in_range 0x02000000 0x0200ffff effective_address then Panic
  else if in_range 0x0c000000 0x0fffffff effective_address then Panic
  else if in_range 0x10000000 0x100000ff effective_address then Panic
  else if in_range 0x10001000 0x10001FFF effective_address then Panic
  else
    let? _ := assert_effective_store_address m effective_address in
    match jolt_device m with
    | Some d =>
        let? d' := device_store d effective_address value in
        Ok (with_device m (Some d'))
    | None => Panic
    end.

Definition setup_bytecode (m : Mmu) (p_address value : Z) : Res Mmu :=
  let effective_address := get_effective_address m p_address in
  let? _ := assert_res (effective_address >=? DRAM_BASE) in
  let? _ := match jolt_device m with
            | Some d => assert_res (effective_address <=? stack_end (memory_layout d))
            | None => Ok tt
            end in
  mw_write_byte m effective_address value.

(** [for i in i0..i0+n { store_raw(ea.wrapping_add(i), (value >> (i * 8)) & 0xff) }] *)
Fixpoint store_raw_loop (m : Mmu) (ea value : Z) (n : nat) (i : Z) : Res Mmu :=
  match n with
  | O => Ok m
  | S n' =>
      let? m' := store_raw m (as_u64 (ea + i)) (as_u8 (Z.land (Z.shiftr value (i * 8)) 0xff)) in
      store_raw_loop m' ea value n' (i + 1)
  end.

Definition store_halfword_raw (m : Mmu) (p_address value : Z) : Res Mmu :=
  let effective_address := get_effective_address m p_address in
  if (effective_address >=? DRAM_BASE) && (as_u64 (effective_address + 1) >? effective_address) then
    let? _ := assert_effective_store_address m effective_address in
    mw_write_halfword m effective_address value
  else store_raw_loop m effective_address value 2 0.

Definition store_word_raw (m : Mmu) (p_address value : Z) : Res Mmu :=
  let effective_address := get_effective_address m p_address in
  if (effective_address >=? DRAM_BASE) && (as_u64 (effective_address + 3) >? effective_address) then
    let? _ := assert_effective_store_address m effective_address in
    mw_write_word m effective_address value
  else store_raw_loop m effective_address value 4 0.

Definition store_doubleword_raw (m : Mmu) (p_address value : Z) : Res Mmu :=
  let effective_address := get_effective_address m p_address in
  if (effective_address >=? DRAM_BASE) && (as_u64 (effective_address + 7) >? effective_address) then
    let? _ := assert_effective_store_address m effective_address in
    mw_write_doubleword m effective_address value
  else store_raw_loop m effective_address value 8 0.

End MmuOps.

Section MmuVirtual.
Context `{Build}.

(** ** Address translation *)

Definition SV32_of (m : Mmu) : bool := match addressing_mode m with SV32 => true | _ => false end.

(** [traverse_page]; [level] counts down to the leaf, so the recursion is
    structural.  The page-table walk may set the A and D bits of the entry. *)
Fixpoint traverse_page (level : nat) (v_address parent_ppn : Z) (vpns : list Z)
    (access_type : MemoryAccessType) (m : Mmu) : Res (Result Z unit * Mmu) :=
  let pagesize := 4096 in
  let ptesize := if SV32_of m then 4 else 8 in
  match vpns !! level with
  | None => Panic
  | Some vpn =>
    let? base := mul_u64 parent_ppn pagesize in
    let? offs := mul_u64 vpn ptesize in
    let? pte_address := add_u64 base offs in
    let? pte := if SV32_of m then load_word_raw m pte_address else load_doubleword_raw m pte_address in
    let ppn := if SV32_of m then Z.land (Z.shiftr pte 10) 0x3fffff
               else Z.land (Z.shiftr pte 10) 0xfffffffffff in
    let? ppns := match addressing_mode m with
                 | SV32 => Ok (Z.land (Z.shiftr pte 10) 0x3ff, Z.land (Z.shiftr pte 20) 0xfff, 0)
                 | SV39 => Ok (Z.land (Z.shiftr pte 10) 0x1ff, Z.land (Z.shiftr pte 19) 0x1ff,
                               Z.land (Z.shiftr pte 28) 0x3ffffff)
                 | _ => Panic
                 end in
    let '(ppns0, ppns1, ppns2) := ppns in
    let d := Z.land (Z.shiftr pte 7) 1 in
    let a := Z.land (Z.shiftr pte 6) 1 in
    let x := Z.land (Z.shiftr pte 3) 1 in
    let w := Z.land (Z.shiftr pte 2) 1 in
    let r := Z.land (Z.shiftr pte 1) 1 in
    let v := Z.land pte 1 in
    if (v =? 0) || ((r =? 0) && (w =? 1)) then Ok (RErr tt, m)
    else if (r =? 0) && (x =? 0) then
      match level with
      | O => Ok (RErr tt, m)
      | S level' => traverse_page level' v_address ppn vpns access_type m
      end
    else
      let? m := (if (a =? 0) || (match access_type with Write => d =? 0 | _ => false end)
                 then
                   let new_pte := Z.lor (Z.lor pte (Z.shiftl 1 6))
                                    (match access_type with Write => Z.shiftl 1 7 | _ => 0 end) in
                   if SV32_of m then store_word_raw m pte_address (as_u32 new_pte)
                   else store_doubleword_raw m pte_address new_pte
                 else Ok m) in
      if (match access_type with Execute => x =? 0 | Read => r =? 0 | Write => w =? 0 end)
      then Ok (RErr tt, m)
      else
        let offset := Z.land v_address 0xfff in
        let? p_address :=
          (if SV32_of m then
             match level with
             | 1%nat =>
                 if negb (ppns0 =? 0) then Ok (RErr tt)
                 else Ok (ROk (Z.lor (Z.lor (Z.shiftl ppns1 22) (Z.shiftl (nth 0 vpns 0) 12)) offset))
             | 0%nat => Ok (ROk (Z.lor (Z.shiftl ppn 12) offset))
             | _ => Panic
             end
           else
             match level with
             | 2%nat =>
                 if negb (ppns1 =? 0) || negb (ppns0 =? 0) then Ok (RErr tt)
                 else Ok (ROk (Z.lor (Z.lor (Z.lor (Z.shiftl ppns2 30) (Z.shiftl (nth 1 vpns 0) 21))
                                        (Z.shiftl (nth 0 vpns 0) 12)) offset))
             | 1%nat =>
                 if negb (ppns0 =? 0) then Ok (RErr tt)
                 else Ok (ROk (Z.lor (Z.lor (Z.lor (Z.shiftl ppns2 30) (Z.shiftl ppns1 21))
                                        (Z.shiftl (nth 0 vpns 0) 12)) offset))
             | 0%nat => Ok (ROk (Z.lor (Z.shiftl ppn 12) offset))
             | _ => Panic
             end) in
        Ok (p_address, m)
  end.

(** [translate_address]: in machine mode with MPRV set it calls itself once in
    the previous privilege mode; [translate_address] gives it the two levels
    that needs. *)
Fixpoint translate_address_fuel (fuel : nat) (v_address : Z) (access_type : MemoryAccessType) (m : Mmu)
    : Res (Result Z unit * Mmu) :=
  match fuel with
  | O => OutOfFuel
  | S fuel' =>
    let address := get_effective_address m v_address in
    let machine :=
      match access_type with
      | Execute => Ok (ROk address, m)
      | _ =>
          if Z.land (Z.shiftr (mmu_mstatus m) 17) 1 =? 0 then Ok (ROk address, m)
          else
            let? privilege_mode := get_privilege_mode (Z.land (Z.shiftr (mmu_mstatus m) 9) 3) in
            match privilege_mode with
            | Machine => Ok (ROk address, m)
            | _ =>
                let current_privilege_mode := mmu_privilege_mode m in
                let m := update_privilege_mode m privilege_mode in
                let? rm := translate_address_fuel fuel' v_address access_type m in
                let '(result, m) := rm in
                Ok (result, update_privilege_mode m current_privilege_mode)
            end
      end in
    match addressing_mode m with
    | AM_None => Ok (ROk address, m)
    | SV32 =>
        match mmu_privilege_mode m with
        | Machine => machine
        | User | Supervisor =>
            let vpns := [Z.land (Z.shiftr address 12) 0x3ff; Z.land (Z.shiftr address 22) 0x3ff] in
            traverse_page 1 address (ppn m) vpns access_type m
        | _ => Ok (ROk address, m)
        end
    | SV39 =>
        match mmu_privilege_mode m with
        | Machine => machine
        | User | Supervisor =>
            let vpns := [Z.land (Z.shiftr address 12) 0x1ff; Z.land (Z.shiftr address 21) 0x1ff;
                         Z.land (Z.shiftr address 30) 0x1ff] in
            traverse_page 2 address (ppn m) vpns access_type m
        | _ => Ok (ROk address, m)
        end
    | SV48 => Panic
    end
  end.

Definition translate_address (v_address : Z) (access_type : MemoryAccessType) : ST Mmu (Result Z unit) :=
  translate_address_fuel 2 v_address access_type.

(** ** Records of the accessed memory word *)

Definition xlen_bytes (m : Mmu) : nat := match mmu_xlen m with Bit32 => 4 | Bit64 => 8 end.

(** [for i in 0..bytes { value_bytes[i] = byte(word_address + i) }] followed by
    [u64::from_le_bytes]. *)
Fixpoint gather_le (byte : Z -> Res Z) (word_address : Z) (n : nat) (i acc : Z) : Res Z :=
  match n with
  | O => Ok acc
  | S n' =>
      let? a := add_u64 word_address i in
      let? b := byte a in
      gather_le byte word_address n' (i + 1) (Z.lor acc (Z.shiftl b (i * 8)))
  end.

Definition device_byte (m : Mmu) (a : Z) : Res Z :=
  match jolt_device m with
  | None => Panic
  | Some d => device_load d a
  end.

Definition trace_load (m : Mmu) (effective_address : Z) : Res RAMRead :=
  let word_address := Z.shiftl (Z.shiftr effective_address 2) 2 in
  let? value := if word_address <? DRAM_BASE
                then gather_le (device_byte m) word_address (xlen_bytes m) 0 0
                else gather_le (mw_read_byte m) word_address (xlen_bytes m) 0 0 in
  Ok (mkRAMRead word_address value).

(** The pre-value read by the three [trace_store] functions. *)
Definition store_pre_value (m : Mmu) (effective_address word_address : Z) : Res Z :=
  if effective_address <? DRAM_BASE
  then gather_le (device_byte m) word_address (xlen_bytes m) 0 0
  else gather_le (mw_read_byte m) word_address (xlen_bytes m) 0 0.

Definition trace_store_byte (m : Mmu) (effective_address value : Z) : Res RAMWrite :=
  let? _ := assert_effective_store_address m effective_address in
  let word_address := Z.shiftl (Z.shiftr effective_address 2) 2 in
  let? pre_value := store_pre_value m effective_address word_address in
  let post_value :=
    match effective_address mod 4 with
    | 0 => Z.lor value (Z.land pre_value 0xffffff00)
    | 1 => Z.lor (Z.shiftl value 8) (Z.land pre_value 0xffff00ff)
    | 2 => Z.lor (Z.shiftl value 16) (Z.land pre_value 0xff00ffff)
    | _ => Z.lor (Z.shiftl value 24) (Z.land pre_value 0x00ffffff)
    end in
  Ok (mkRAMWrite word_address pre_value post_value).

Definition trace_store_halfword (m : Mmu) (effective_address value : Z) : Res RAMWrite :=
  let? _ := assert_effective_store_address m effective_address in
  let word_address := Z.shiftl (Z.shiftr effective_address 2) 2 in
  let? pre_value := store_pre_value m effective_address word_address in
  let? post_value :=
    (if effective_address mod 4 =? 2 then Ok (Z.lor (Z.shiftl value 16) (Z.land pre_value 0xffff))
     else if effective_address mod 4 =? 0 then Ok (Z.lor value (Z.land pre_value 0xffff0000))
     else Panic) in
  Ok (mkRAMWrite word_address pre_value post_value).

Definition trace_store (m : Mmu) (effective_address value : Z) : Res RAMWrite :=
  let? _ := assert_effective_store_address m effective_address in
  let? pre_value := store_pre_value m effective_address effective_address in
  Ok (mkRAMWrite effective_address pre_value value).

(** ** Virtual accesses *)

Definition fetch (v_address : Z) : ST Mmu (Result Z Trap) :=
  p <-- translate_address v_address Execute ;;
  match p with
  | ROk p_address => b <-- (fun m => lift (load_raw m p_address) m) ;; ret (ROk b)
  | RErr _ => ret (RErr (mkTrap InstructionPageFault v_address))
  end.

Fixpoint fetch_loop (v_address : Z) (n : nat) (i data : Z) : ST Mmu (Result Z Trap) :=
  match n with
  | O => ret (ROk data)
  | S n' =>
      r <-- fetch (as_u64 (v_address + i)) ;;
      match r with
      | ROk byte => fetch_loop v_address n' (i + 1) (Z.lor data (Z.shiftl byte (i * 8)))
      | RErr e => ret (RErr e)
      end
  end.

Definition fetch_word (v_address : Z) : ST Mmu (Result Z Trap) :=
  if Z.land v_address 0xfff <=? 0x1000 - 4 then
    effective_address <-- gets (fun m => get_effective_address m v_address) ;;
    p <-- translate_address effective_address Execute ;;
    match p with
    | ROk p_address => w <-- (fun m => lift (load_word_raw m p_address) m) ;; ret (ROk w)
    | RErr _ => ret (RErr (mkTrap InstructionPageFault effective_address))
    end
  else fetch_loop v_address 4 0 0.

Definition load (v_address : Z) : ST Mmu (Result (Z * RAMRead) Trap) :=
  effective_address <-- gets (fun m => get_effective_address m v_address) ;;
  memory_read <-- (fun m => lift (trace_load m effective_address) m) ;;
  p <-- translate_address effective_address Read ;;
  match p with
  | ROk p_address => b <-- (fun m => lift (load_raw m p_address) m) ;; ret (ROk (b, memory_read))
  | RErr _ => ret (RErr (mkTrap LoadPageFault v_address))
  end.

Fixpoint load_loop (v_address : Z) (n : nat) (i data : Z) : ST Mmu (Result Z Trap) :=
  match n with
  | O => ret (ROk data)
  | S n' =>
      r <-- load (as_u64 (v_address + i)) ;;
      match r with
      | ROk (byte, _) => load_loop v_address n' (i + 1) (Z.lor data (Z.shiftl byte (i * 8)))
      | RErr e => ret (RErr e)
      end
  end.

(** [width] is 1, 2, 4 or 8. *)
Definition load_bytes (v_address width : Z) : ST Mmu (Result Z Trap) :=
  lift (debug_assert ((width =? 1) || (width =? 2) || (width =? 4) || (width =? 8))) ;;;
  if Z.land v_address 0xfff <=? 0x1000 - width then
    p <-- translate_address v_address Read ;;
    match p with
    | ROk p_address =>
        d <-- (fun m => lift (match width with
                              | 1 => load_raw m p_address
                              | 2 => load_halfword_raw m p_address
                              | 4 => load_word_raw m p_address
                              | 8 => load_doubleword_raw m p_address
                              | _ => Panic
                              end) m) ;;
        ret (ROk d)
    | RErr _ => ret (RErr (mkTrap LoadPageFault v_address))
    end
  else load_loop v_address (Z.to_nat width) 0 0.

(** The common shape of [load_halfword], [load_word] and [load_doubleword]. *)
Definition load_width (width : Z) (v_address : Z) : ST Mmu (Result (Z * RAMRead) Trap) :=
  effective_address <-- gets (fun m => get_effective_address m v_address) ;;
  assert_that (effective_address mod width =? 0) ;;;
  memory_read <-- (fun m => lift (trace_load m effective_address) m) ;;
  r <-- load_bytes v_address width ;;
  match r with
  | ROk data => ret (ROk (as_unsigned (8 * width) data, memory_read))
  | RErr e => ret (RErr e)
  end.

Definition load_halfword : Z -> ST Mmu (Result (Z * RAMRead) Trap) := load_width 2.
Definition load_word : Z -> ST Mmu (Result (Z * RAMRead) Trap) := load_width 4.
Definition load_doubleword : Z -> ST Mmu (Result (Z * RAMRead) Trap) := load_width 8.

Definition store (v_address value : Z) : ST Mmu (Result RAMWrite Trap) :=
  effective_address <-- gets (fun m => get_effective_address m v_address) ;;
  memory_write <-- (fun m => lift (trace_store_byte m effective_address value) m) ;;
  p <-- translate_address v_address Write ;;
  match p with
  | ROk p_address => res_ret_tt (fun m => store_raw m p_address value) ;;; ret (ROk memory_write)
  | RErr _ => ret (RErr (mkTrap StorePageFault v_address))
  end.

Fixpoint store_loop (v_address value : Z) (n : nat) (i : Z) : ST Mmu (Result unit Trap) :=
  match n with
  | O => ret (ROk tt)
  | S n' =>
      r <-- store (as_u64 (v_address + i)) (as_u8 (Z.land (Z.shiftr value (i * 8)) 0xff)) ;;
      match r with
      | ROk _ => store_loop v_address value n' (i + 1)
      | RErr e => ret (RErr e)
      end
  end.

Definition store_bytes (v_address value width : Z) : ST Mmu (Result unit Trap) :=
  lift (debug_assert ((width =? 1) || (width =? 2) || (width =? 4) || (width =? 8))) ;;;
  if Z.land v_address 0xfff <=? 0x1000 - width then
    p <-- translate_address v_address Write ;;
    match p with
    | ROk p_address =>
        res_ret_tt (fun m => match width with
                             | 1 => store_raw m p_address (as_u8 value)
                             | 2 => store_halfword_raw m p_address (as_u16 value)
                             | 4 => store_word_raw m p_address (as_u32 value)
                             | 8 => store_doubleword_raw m p_address value
                             | _ => Panic
                             end) ;;;
        ret (ROk tt)
    | RErr _ => ret (RErr (mkTrap StorePageFault v_address))
    end
  else store_loop v_address value (Z.to_nat width) 0.

(** The common shape of [store_halfword], [store_word] and [store_doubleword];
    they differ in the record of the word written. *)
Definition store_width (width : Z) (record : Mmu -> Z -> Z -> Res RAMWrite) (v_address value : Z)
    : ST Mmu (Result RAMWrite Trap) :=
  effective_address <-- gets (fun m => get_effective_address m v_address) ;;
  assert_that (effective_address mod width =? 0) ;;;
  memory_write <-- (fun m => lift (record m effective_address value) m) ;;
  r <-- store_bytes v_address value width ;;
  match r with
  | ROk _ => ret (ROk memory_write)
  | RErr e => ret (RErr e)
  end.

Definition store_halfword : Z -> Z -> ST Mmu (Result RAMWrite Trap) := store_width 2 trace_store_halfword.
Definition store_word : Z -> Z -> ST Mmu (Result RAMWrite Trap) := store_width 4 trace_store.
Definition store_doubleword : Z -> Z -> ST Mmu (Result RAMWrite Trap) := store_width 8 trace_store.

End MmuVirtual.
