(* ===== verification/DramAccess.v ===== *)
(** * Accesses to main memory, seen from the CPU

    With bare addressing, an access to an address of the main memory that the
    layout allows succeeds, and is the access of [memory.rs] at the offset from
    [DRAM_BASE].  These are the facts the refinement of loads, stores and
    atomic operations uses. *)

From Stdlib Require Import ZArith Lia List Bool.
From stdpp Require Import base list.
From S2P Require Import Prelude Words Memory Types Device Mmu.
Import ListNotations.
Local Open Scope Z_scope.
Local Open Scope rust_scope.

(** A 64-bit MMU without translation; the memory is smaller than the address
    space. *)
Record mmu_ok (m : Mmu) : Prop := {
  ok_width : mmu_xlen m = Bit64;
  ok_bare : addressing_mode m = AM_None;
  ok_memory : wf_memory (memory m);
  ok_capacity : capacity (memory m) <= 2 ^ 62
}.

(** The bytes [a .. a + n - 1] lie in main memory. *)
Definition in_dram (m : Mmu) (a n : Z) : Prop :=
  DRAM_BASE <= a /\ a + n <= DRAM_BASE + capacity (memory m).

(** The layout assertions hold for [a]. *)
Definition load_allowed `{Build} (m : Mmu) (a : Z) : Prop := assert_effective_load_address m a = Ok tt.
Definition store_allowed `{Build} (m : Mmu) (a : Z) : Prop := assert_effective_store_address m a = Ok tt.

(** The doubleword of main memory that contains [a]. *)
Definition dword (m : Mmu) (a : Z) : Res Z := data_get (memory m) (Z.shiftr (a - DRAM_BASE) 3).

(** The [n] bytes at [a] within their doubleword [d]. *)
Definition bytes_at (d a n : Z) : Z := as_unsigned (8 * n) (Z.shiftr d (8 * (a mod 8))).

(** The word that contains [a], whose eight bytes the record of the access
    reads. *)
Definition record_address (a : Z) : Z := Z.shiftl (Z.shiftr a 2) 2.

Definition access_width (n : Z) : bool := (n =? 1) || (n =? 2) || (n =? 4) || (n =? 8).

Lemma access_width_cases n : access_width n = true -> n = 1 \/ n = 2 \/ n = 4 \/ n = 8.
Proof. unfold access_width. rewrite !orb_true_iff, !Z.eqb_eq. tauto. Qed.

Section Access.
Context `{B : Build} (m : Mmu) (Hm : mmu_ok m).

Lemma load_of_store_allowed a : DRAM_BASE <= a -> store_allowed m a -> load_allowed m a.
Proof.
  unfold store_allowed, load_allowed, assert_effective_store_address, assert_effective_load_address,
    assert_effective_address. destruct (jolt_device m) as [d|]; [|done].
  intros Ha. rewrite (proj2 (Z.ltb_ge a DRAM_BASE)) by done.
  intros (ce & _ & (u & _ & Hs)%res_bind_inv)%res_bind_inv. exact Hs.
Qed.

(** A smaller address of main memory may be loaded too. *)
Lemma load_allowed_le a b : DRAM_BASE <= a <= b -> load_allowed m b -> load_allowed m a.
Proof.
  unfold load_allowed, assert_effective_load_address, assert_effective_address.
  destruct (jolt_device m) as [d|]; [|done]. intros [Ha Hab].
  rewrite !(proj2 (Z.ltb_ge _ DRAM_BASE)) by lia. unfold assert_res.
  destruct (Z.ltb_spec b (memory_end (memory_layout d))); [|done]. by rewrite (proj2 (Z.ltb_lt a _)) by lia.
Qed.

Lemma dram_range a n : in_dram m a n -> 0 < n -> 2147483648 <= a < 2 ^ 62 + 2147483648.
Proof. pose proof (ok_capacity m Hm). unfold in_dram, DRAM_BASE, RAM_START_ADDRESS. intros [? ?] ?. lia. Qed.

Lemma dword_ok a : in_dram m a 1 -> exists d, dword m a = Ok d /\ is_u64 d.
Proof.
  intros [H1 H2]. unfold dword, capacity in *.
  destruct (data_get_in_range (memory m) (Z.shiftr (a - DRAM_BASE) 3)) as [d Hd].
  { rewrite Z.shiftr_div_pow2 by lia. change (2 ^ 3) with 8. lia. }
  exists d. split; [done|]. by eapply data_get_u64, Hd; apply ok_memory.
Qed.

Lemma effective_64 a : get_effective_address m a = a.
Proof. unfold get_effective_address. by rewrite (ok_width m Hm). Qed.

Lemma translate_bare a t : translate_address a t m = Ok (ROk a, m).
Proof.
  unfold translate_address. cbn [translate_address_fuel]. by rewrite (ok_bare m Hm), effective_64.
Qed.

Lemma sub_base a : in_dram m a 1 -> sub_u64 a DRAM_BASE = Ok (a - DRAM_BASE).
Proof.
  intros Ha. pose proof (dram_range a 1 Ha ltac:(lia)). apply sub_u64_ok. unfold is_u64, DRAM_BASE, RAM_START_ADDRESS. lia.
Qed.

(** The wrapper around an access of [n] bytes. *)
Lemma mw_read_eq read last a : in_dram m a 1 -> 0 <= last < 8 ->
  mw_read read last m a = read (memory m) (a - DRAM_BASE).
Proof.
  intros Ha Hl. pose proof (dram_range a 1 Ha ltac:(lia)). unfold mw_read.
  rewrite sub_base, as_u64_small by (done || unfold is_u64; lia).
  unfold debug_assert, DRAM_BASE, RAM_START_ADDRESS in *. zbool. by rewrite andb_false_r.
Qed.

Lemma mw_write_eq write last a v : in_dram m a 1 -> 0 <= last < 8 ->
  mw_write write last m a v = let? mem := write (memory m) (a - DRAM_BASE) v in Ok (with_memory m mem).
Proof.
  intros Ha Hl. pose proof (dram_range a 1 Ha ltac:(lia)). unfold mw_write.
  rewrite sub_base, as_u64_small by (done || unfold is_u64; lia).
  unfold debug_assert, DRAM_BASE, RAM_START_ADDRESS in *. zbool. by rewrite andb_false_r.
Qed.

(** The record of the accessed word can be read when its bytes are there. *)
Lemma gather_ok w n : in_dram m w (Z.of_nat n) -> forall k i acc, 0 <= i -> (Z.of_nat k + i <= Z.of_nat n) ->
  exists v, gather_le (mw_read_byte m) w k i acc = Ok v.
Proof.
  intros Hw. induction k as [|k IH]; intros i acc Hi Hk; cbn [gather_le]; [eauto|].
  pose proof (dram_range w (Z.of_nat n) Hw ltac:(lia)).
  assert (Hin : in_dram m (w + i) 1) by (unfold in_dram in *; lia).
  assert (Ea : add_u64 w i = Ok (w + i)).
  { pose proof (dram_range _ 1 Hin ltac:(lia)). apply add_u64_ok. unfold is_u64. lia. }
  rewrite Ea. cbn [res_bind]. unfold mw_read_byte. rewrite mw_read_eq by (done || lia).
  destruct (dword_ok _ Hin) as (d & Hd & _). unfold dword in Hd. unfold read_byte. rewrite Hd. cbn [res_bind].
  apply IH; lia.
Qed.

Lemma record_ok w : in_dram m w 8 -> exists v, gather_le (mw_read_byte m) w (xlen_bytes m) 0 0 = Ok v.
Proof. intros Hw. unfold xlen_bytes. rewrite (ok_width m Hm). by apply (gather_ok w 8); try lia. Qed.

Lemma record_address_eq a : record_address a = a - a mod 4.
Proof. unfold record_address. rewrite Z.shiftl_mul_pow2, Z.shiftr_div_pow2 by lia. change (2 ^ 2) with 4. lia. Qed.

Lemma offset_mod a : (a - DRAM_BASE) mod 8 = a mod 8.
Proof. unfold DRAM_BASE, RAM_START_ADDRESS. lia. Qed.

Lemma trace_load_ok a : in_dram m (record_address a) 8 -> exists r, trace_load m a = Ok r.
Proof.
  intros Hr. unfold trace_load. fold (record_address a).
  rewrite (proj2 (Z.ltb_ge _ DRAM_BASE)) by apply Hr. destruct (record_ok _ Hr) as [v ->]. cbn [res_bind]. eauto.
Qed.

Lemma in_dram_byte a n : in_dram m a n -> 0 < n -> in_dram m a 1.
Proof. unfold in_dram. lia. Qed.

(** Reads of main memory, by width. *)
Lemma raw_load_ok n a d : access_width n = true -> a mod n = 0 -> in_dram m a n -> load_allowed m a -> dword m a = Ok d ->
  is_u64 d ->
  (match n with
   | 1 => load_raw m a
   | 2 => load_halfword_raw m a
   | 4 => load_word_raw m a
   | 8 => load_doubleword_raw m a
   | _ => Panic
   end) = Ok (bytes_at d a n).
Proof.
  intros Hn Hal Hin Hld Hd Hu. apply access_width_cases in Hn.
  assert (Hin1 : in_dram m a 1) by (apply (in_dram_byte a n Hin); lia).
  pose proof (dram_range a 1 Hin1 ltac:(lia)) as Hrange. pose proof (offset_mod a) as Hoff.
  unfold dword in Hd. unfold bytes_at, load_allowed in *.
  destruct Hn as [-> | [-> | [-> | ->]]];
    unfold load_raw, load_halfword_raw, load_word_raw, load_doubleword_raw; rewrite effective_64;
    rewrite ?as_u64_small by (unfold is_u64; lia); unfold DRAM_BASE, RAM_START_ADDRESS in *; zbool; rewrite Hld; cbn [res_bind];
    unfold mw_read_byte, mw_read_halfword, mw_read_word, mw_read_doubleword;
    rewrite mw_read_eq by (done || lia);
    unfold read_byte, read_halfword, read_word, read_doubleword, DRAM_BASE, RAM_START_ADDRESS; zbool; rewrite Hd; cbn [res_bind];
    rewrite ?Hoff, ?(Z.mul_comm (a mod 8)); try done.
  rewrite Hal, Z.mul_0_r, Z.shiftr_0_r. f_equal. symmetry. by apply as_u64_small.
Qed.

(** An aligned access does not cross a page. *)
Lemma page_ok a n : access_width n = true -> a mod n = 0 -> (Z.land a 0xfff <=? 0x1000 - n) = true.
Proof.
  intros Hn Ha. apply Z.leb_le. change 0xfff with (Z.ones 12). rewrite Z.land_ones by lia.
  change (2 ^ 12) with 4096. apply access_width_cases in Hn. destruct Hn as [-> | [-> | [-> | ->]]]; lia.
Qed.

Lemma width_assert n : access_width n = true -> debug_assert ((n =? 1) || (n =? 2) || (n =? 4) || (n =? 8)) = Ok tt.
Proof. unfold access_width, debug_assert. intros ->. by rewrite andb_false_r. Qed.

Lemma load_ok a d :
  in_dram m a 1 -> in_dram m (record_address a) 8 -> load_allowed m a -> dword m a = Ok d -> is_u64 d ->
  exists r, load a m = Ok (ROk (bytes_at d a 1, r), m).
Proof.
  intros Hin Hrec Hld Hd Hu. destruct (trace_load_ok a Hrec) as [r Hr]. exists r.
  unfold load, bind, gets, lift. rewrite effective_64, Hr, translate_bare.
  by rewrite (raw_load_ok 1 a d) by (done || apply Z.mod_1_r).
Qed.

Lemma load_width_record n a d r : access_width n = true -> a mod n = 0 ->
  in_dram m a n -> load_allowed m a -> dword m a = Ok d -> is_u64 d -> trace_load m a = Ok r ->
  load_width n a m = Ok (ROk (bytes_at d a n, r), m).
Proof.
  intros Hn Hal Hin Hld Hd Hu Hr. unfold load_width, load_bytes, bind, gets, lift, assert_that, ret.
  rewrite effective_64, Hal. cbn [Z.eqb]. rewrite Hr, width_assert, page_ok, translate_bare by done.
  rewrite (raw_load_ok n a d) by done. unfold bytes_at, as_unsigned. by rewrite Zmod_mod.
Qed.

Lemma load_width_ok n a d : access_width n = true -> a mod n = 0 ->
  in_dram m a n -> in_dram m (record_address a) 8 -> load_allowed m a -> dword m a = Ok d -> is_u64 d ->
  exists r, load_width n a m = Ok (ROk (bytes_at d a n, r), m).
Proof.
  intros Hn Hal Hin Hrec Hld Hd Hu. destruct (trace_load_ok a Hrec) as [r Hr]. exists r. by apply load_width_record.
Qed.

(** ** Stores *)

(** The memory with the [n] bytes at [a] replaced by those of [v]. *)
Definition stored (a n v : Z) : Res Mmu :=
  let? d := dword m a in
  let? mem := data_set (memory m) (Z.shiftr (a - DRAM_BASE) 3) (set_field d (8 * (a mod 8)) (8 * n) v) in
  Ok (with_memory m mem).

Lemma set_field_all d v : is_u64 d -> is_u64 v -> set_field d 0 64 v = v.
Proof.
  intros Hd Hv. apply Z.bits_inj'. intros k Hk. rewrite set_field_spec by lia.
  destruct (Z.ltb_spec k (0 + 64)); zbool; [f_equal; lia|]. rewrite !u64_high by (done || lia). done.
Qed.

Lemma field_in_dword a n : access_width n = true -> a mod n = 0 -> 8 * (a mod 8) + 8 * n <= 64.
Proof. intros Hn Ha. apply access_width_cases in Hn. destruct Hn as [-> | [-> | [-> | ->]]]; lia. Qed.

Lemma raw_store_ok n a d v : access_width n = true -> a mod n = 0 -> in_dram m a n -> store_allowed m a ->
  dword m a = Ok d -> is_u64 d -> 0 <= v < 2 ^ (8 * n) ->
  (match n with
   | 1 => store_raw m a v
   | 2 => store_halfword_raw m a v
   | 4 => store_word_raw m a v
   | 8 => store_doubleword_raw m a v
   | _ => Panic
   end) = stored a n v.
Proof.
  intros Hn Hal Hin Hst Hd Hu Hv. pose proof (field_in_dword a n Hn Hal) as Hfield. apply access_width_cases in Hn.
  assert (Hin1 : in_dram m a 1) by (apply (in_dram_byte a n Hin); lia).
  pose proof (dram_range a 1 Hin1 ltac:(lia)) as Hrange. pose proof (offset_mod a) as Hoff.
  unfold stored. rewrite Hd. unfold dword in Hd. unfold store_allowed in *. cbn [res_bind].
  destruct Hn as [-> | [-> | [-> | ->]]];
    unfold store_raw, store_halfword_raw, store_word_raw, store_doubleword_raw; rewrite effective_64;
    rewrite ?as_u64_small by (unfold is_u64; lia); rewrite Hst; cbn [res_bind];
    unfold mw_write_byte, mw_write_halfword, mw_write_word, mw_write_doubleword;
    rewrite mw_write_eq by (done || lia);
    unfold write_byte, write_halfword, write_word, write_doubleword, DRAM_BASE, RAM_START_ADDRESS in *; zbool;
    rewrite ?Hoff, ?(Z.mul_comm (a mod 8)).
  4: { rewrite Hal, Z.mul_0_r, set_field_all by done. done. }
  all: lazymatch goal with |- context [set_field _ _ ?w _] => rewrite (write_field_ok _ _ d _ w) end; done || lia.
Qed.

Lemma store_pre_value_ok a w : DRAM_BASE <= a -> in_dram m w 8 -> exists v, store_pre_value m a w = Ok v.
Proof.
  intros Ha Hw. unfold store_pre_value. rewrite (proj2 (Z.ltb_ge _ DRAM_BASE)) by done. by apply record_ok.
Qed.

Lemma store_ok a d v m' :
  in_dram m a 1 -> in_dram m (record_address a) 8 -> store_allowed m a -> dword m a = Ok d -> is_u64 d -> is_u8 v ->
  stored a 1 v = Ok m' -> exists r, store a v m = Ok (ROk r, m').
Proof.
  intros Hin Hrec Hst Hd Hu Hv Hm'. destruct (store_pre_value_ok a (record_address a)) as [pre Hpre]; [apply Hin|done|].
  unfold store, trace_store_byte, bind, gets, lift, res_ret_tt, ret. cbv zeta.
  rewrite effective_64, Hst. fold (record_address a). cbn [res_bind]. rewrite Hpre. cbn [res_bind].
  rewrite translate_bare, (raw_store_ok 1 a d), Hm' by (done || apply Z.mod_1_r). eauto.
Qed.

(** The records of the wider stores can be read. *)
Lemma store_record_ok n a v : n = 2 \/ n = 4 \/ n = 8 -> a mod n = 0 -> in_dram m a n ->
  in_dram m (record_address a) 8 -> store_allowed m a ->
  exists r, (if n =? 2 then trace_store_halfword else trace_store) m a v = Ok r.
Proof.
  intros Hn Hal Hin Hrec Hst. pose proof (record_address_eq a) as Er.
  assert (Ha : DRAM_BASE <= a) by apply Hin. destruct (store_pre_value_ok a _ Ha Hrec) as [pre Hpre].
  destruct Hn as [-> | Hn]; zbool; unfold trace_store_halfword, trace_store; rewrite Hst; cbn [res_bind].
  - fold (record_address a). rewrite Hpre. cbn [res_bind].
    destruct (Z.eqb_spec (a mod 4) 2); [eauto|]. zbool. cbn [res_bind]. eauto.
  - replace (record_address a) with a in Hpre by (destruct Hn; subst n; lia). rewrite Hpre. cbn [res_bind]. eauto.
Qed.

Lemma store_width_record n a d v m' r : n = 2 \/ n = 4 \/ n = 8 -> a mod n = 0 ->
  in_dram m a n -> store_allowed m a -> dword m a = Ok d -> is_u64 d ->
  0 <= v < 2 ^ (8 * n) -> stored a n v = Ok m' -> (if n =? 2 then trace_store_halfword else trace_store) m a v = Ok r ->
  store_width n (if n =? 2 then trace_store_halfword else trace_store) a v m = Ok (ROk r, m').
Proof.
  intros Hn Hal Hin Hst Hd Hu Hv Hm' Hr. assert (Hw : access_width n = true) by (destruct Hn as [-> | [-> | ->]]; done).
  unfold store_width, store_bytes, bind, gets, lift, assert_that, res_ret_tt, ret.
  rewrite effective_64, Hal. cbn [Z.eqb]. rewrite Hr, width_assert, page_ok, translate_bare by done.
  pose proof (raw_store_ok n a d v Hw Hal Hin Hst Hd Hu Hv) as Hraw. rewrite Hm' in Hraw.
  destruct Hn as [-> | [-> | ->]]; unfold as_u16, as_u32; rewrite ?Z.mod_small by exact Hv; by rewrite Hraw.
Qed.

Lemma store_width_ok n a d v m' : n = 2 \/ n = 4 \/ n = 8 -> a mod n = 0 ->
  in_dram m a n -> in_dram m (record_address a) 8 -> store_allowed m a -> dword m a = Ok d -> is_u64 d ->
  0 <= v < 2 ^ (8 * n) -> stored a n v = Ok m' ->
  exists r, store_width n (if n =? 2 then trace_store_halfword else trace_store) a v m = Ok (ROk r, m').
Proof.
  intros Hn Hal Hin Hrec Hst Hd Hu Hv Hm'. destruct (store_record_ok n a v Hn Hal Hin Hrec Hst) as [r Hr].
  exists r. by apply (store_width_record n a d).
Qed.

Lemma stored_ok a n v : in_dram m a 1 -> access_width n = true -> a mod n = 0 ->
  exists d m', dword m a = Ok d /\ is_u64 d /\ stored a n v = Ok m' /\ mmu_ok m' /\ jolt_device m' = jolt_device m.
Proof.
  intros Hin Hn Ha. destruct (dword_ok a Hin) as (d & Hd & Hu). exists d. unfold stored. rewrite Hd. cbn [res_bind].
  pose proof (field_in_dword a n Hn Ha). apply access_width_cases in Hn.
  unfold dword in Hd. rewrite (data_set_ok _ _ d) by done. cbn [res_bind]. eexists. split_and!; try done.
  constructor; cbn [with_memory mmu_xlen addressing_mode memory]; try apply Hm.
  - unfold wf_memory. cbn [data]. apply Forall_insert; [apply Hm|]. apply set_field_u64; [done|lia..].
  - unfold capacity. cbn [data]. rewrite length_insert. apply Hm.
Qed.

(** An aligned access and the aligned doubleword around it. *)
Lemma aligned_in_dram n a : access_width n = true -> a mod n = 0 -> in_dram m (record_address a) 8 -> in_dram m a n.
Proof.
  intros Hn Ha [H1 H2]. pose proof (record_address_eq a) as Er. unfold in_dram.
  apply access_width_cases in Hn. destruct Hn as [-> | [-> | [-> | ->]]]; lia.
Qed.

Definition dword_address (a : Z) : Z := a - a mod 8.

Lemma dword_address_in_dram a : in_dram m a 1 -> in_dram m (dword_address a) 8.
Proof. unfold in_dram, dword_address, capacity, DRAM_BASE, RAM_START_ADDRESS. lia. Qed.

Lemma dword_address_aligned a : dword_address a mod 8 = 0.
Proof. unfold dword_address. lia. Qed.

Lemma dword_of_address a : dword m (dword_address a) = dword m a.
Proof.
  unfold dword, dword_address. f_equal. rewrite !Z.shiftr_div_pow2 by lia. change (2 ^ 3) with 8.
  unfold DRAM_BASE, RAM_START_ADDRESS. lia.
Qed.

Lemma record_address_dword a : record_address (dword_address a) = dword_address a.
Proof. rewrite record_address_eq. unfold dword_address. lia. Qed.

(** Storing the whole doubleword with the field replaced stores the field. *)
Lemma stored_dword a n d v w : in_dram m a 1 -> access_width n = true -> a mod n = 0 -> dword m a = Ok d -> is_u64 d ->
  w = set_field d (8 * (a mod 8)) (8 * n) v -> stored (dword_address a) 8 w = stored a n v.
Proof.
  intros Hin Hn Ha Hd Hu ->. unfold stored. rewrite dword_of_address, Hd, dword_address_aligned. cbn [res_bind].
  pose proof (field_in_dword a n Hn Ha). apply access_width_cases in Hn.
  rewrite set_field_all by (done || apply set_field_u64; done || lia).
  replace (Z.shiftr (dword_address a - DRAM_BASE) 3) with (Z.shiftr (a - DRAM_BASE) 3); [done|].
  rewrite !Z.shiftr_div_pow2 by lia. change (2 ^ 3) with 8. unfold dword_address, DRAM_BASE, RAM_START_ADDRESS. lia.
Qed.

End Access.
