(* ===== verification/Isa.v ===== *)
(** * Instruction formats and the [Instruction] type

    [instruction/format/*.rs], [utils/instruction_macros.rs] and the enums of
    [instruction/mod.rs].  The source declares one struct per instruction with
    the fields of its format; here one record per format carries an operation
    code, so that [emit_r ADD] reads like [emit_r::<ADD>]. *)

From Stdlib Require Import ZArith Lia List Bool.
From stdpp Require Import base list.
From S2P Require Import Prelude Words Types.
Import ListNotations.
Local Open Scope Z_scope.
Local Open Scope rust_scope.

(** ** Operands *)

Record NormalizedOperands := mkNormalizedOperands { n_rs1 : Z; n_rs2 : Z; n_rd : Z; n_imm : Z }.
Definition NormalizedOperands_default : NormalizedOperands := mkNormalizedOperands 0 0 0 0.

Record FormatR := mkFormatR { r_rd : Z; r_rs1 : Z; r_rs2 : Z }.
Record FormatI := mkFormatI { i_rd : Z; i_rs1 : Z; i_imm : Z }.
Record FormatLoad := mkFormatLoad { l_rd : Z; l_rs1 : Z; l_imm : Z }.
Record FormatS := mkFormatS { s_rs1 : Z; s_rs2 : Z; s_imm : Z }.
Record FormatB := mkFormatB { b_rs1 : Z; b_rs2 : Z; b_imm : Z }.
Record FormatJ := mkFormatJ { j_rd : Z; j_imm : Z }.
Record FormatU := mkFormatU { u_rd : Z; u_imm : Z }.
Record FormatVirtualRightShiftI := mkFormatVI { vi_rd : Z; vi_rs1 : Z; vi_imm : Z }.
Record FormatVirtualRightShiftR := mkFormatVR { vr_rd : Z; vr_rs1 : Z; vr_rs2 : Z }.
Record AssertAlignFormat := mkAssertAlign { a_rs1 : Z; a_imm : Z }.
Record FormatInline := mkFormatInline { in_rs1 : Z; in_rs2 : Z; in_rs3 : Z }.

(** Register values captured around an execution; a format fills the fields it
    has and leaves the others at their default. *)
Record RegisterState := mkRegisterState {
  st_rs1 : Z; st_rs2 : Z; st_rs3 : Z; st_rd_pre : Z; st_rd_post : Z
}.
Definition RegisterState_default : RegisterState := mkRegisterState 0 0 0 0 0.

Definition with_rs1 (s : RegisterState) (v : Z) := mkRegisterState v (st_rs2 s) (st_rs3 s) (st_rd_pre s) (st_rd_post s).
Definition with_rs2 (s : RegisterState) (v : Z) := mkRegisterState (st_rs1 s) v (st_rs3 s) (st_rd_pre s) (st_rd_post s).
Definition with_rs3 (s : RegisterState) (v : Z) := mkRegisterState (st_rs1 s) (st_rs2 s) v (st_rd_pre s) (st_rd_post s).
Definition with_rd_pre (s : RegisterState) (v : Z) := mkRegisterState (st_rs1 s) (st_rs2 s) (st_rs3 s) v (st_rd_post s).
Definition with_rd_post (s : RegisterState) (v : Z) := mkRegisterState (st_rs1 s) (st_rs2 s) (st_rs3 s) (st_rd_pre s) v.

Definition normalize_register_value (value : Z) (xlen : Xlen) : Z :=
  match xlen with
  | Bit32 => as_u32 value
  | Bit64 => as_u64 value
  end.

Definition normalize_imm (imm : Z) (xlen : Xlen) : Z :=
  match xlen with
  | Bit32 => as_i32 imm
  | Bit64 => as_i64 imm
  end.

(** The trait [InstructionFormat].  The capture functions read the CPU through
    [x], the bounds-checked and normalized register read. *)
Class InstructionFormat (F : Type) := {
  parse : Z -> Res F;
  of_normalized : NormalizedOperands -> F;
  to_normalized : F -> NormalizedOperands;
  capture_pre_execution_state : F -> (Z -> Res Z) -> RegisterState -> Res RegisterState;
  capture_post_execution_state : F -> (Z -> Res Z) -> RegisterState -> Res RegisterState
}.

(** Bit fields of an instruction word, [(word >> lo) & mask]. *)
Definition field (word lo mask : Z) : Z := Z.land (Z.shiftr word lo) mask.

Definition parse_rd (word : Z) : Z := field word 7 0x1f.
Definition parse_rs1 (word : Z) : Z := field word 15 0x1f.
Definition parse_rs2 (word : Z) : Z := field word 20 0x1f.

Definition sign_fill (word fill : Z) : Z :=
  if Z.land word 0x80000000 =? 0x80000000 then fill else 0.

Definition parse_imm_i (word : Z) : Z :=
  as_i32 (Z.lor (sign_fill word 0xfffff800) (Z.land (Z.shiftr word 20) 0x000007ff)).

Definition parse_imm_b (word : Z) : Z :=
  as_i32 (Z.lor (Z.lor (Z.lor (sign_fill word 0xfffff000)
                          (Z.land (as_u32 (Z.shiftl word 4)) 0x00000800))
                   (Z.land (Z.shiftr word 20) 0x000007e0))
            (Z.land (Z.shiftr word 7) 0x0000001e)).

Definition parse_imm_s (word : Z) : Z :=
  as_i32 (Z.lor (Z.lor (sign_fill word 0xfffff000) (Z.land (Z.shiftr word 20) 0xfe0))
            (Z.land (Z.shiftr word 7) 0x1f)).

Definition parse_imm_j (word : Z) : Z :=
  as_i32 (Z.lor (Z.lor (Z.lor (sign_fill word 0xfff00000) (Z.land word 0x000ff000))
                   (Z.shiftr (Z.land word 0x00100000) 9))
            (Z.shiftr (Z.land word 0x7fe00000) 20)).

Definition parse_imm_u (word : Z) : Z :=
  as_i32 (Z.lor (sign_fill word 0xffffffff00000000) (Z.land word 0xfffff000)).

(** [unimplemented!("virtual instruction")] *)
Definition virtual_parse {F : Type} (_ : Z) : Res F := Panic.

#[export] Instance FormatR_format : InstructionFormat FormatR := {
  parse word := Ok (mkFormatR (parse_rd word) (parse_rs1 word) (parse_rs2 word));
  of_normalized o := mkFormatR (n_rd o) (n_rs1 o) (n_rs2 o);
  to_normalized f := mkNormalizedOperands (r_rs1 f) (r_rs2 f) (r_rd f) 0;
  capture_pre_execution_state f x s :=
    let? v1 := x (r_rs1 f) in
    let? v2 := x (r_rs2 f) in
    let? vd := x (r_rd f) in
    Ok (with_rd_pre (with_rs2 (with_rs1 s v1) v2) vd);
  capture_post_execution_state f x s := let? vd := x (r_rd f) in Ok (with_rd_post s vd)
}.

#[export] Instance FormatI_format : InstructionFormat FormatI := {
  parse word := Ok (mkFormatI (parse_rd word) (parse_rs1 word) (as_u64 (parse_imm_i word)));
  of_normalized o := mkFormatI (n_rd o) (n_rs1 o) (as_u64 (n_imm o));
  to_normalized f := mkNormalizedOperands (i_rs1 f) 0 (i_rd f) (i_imm f);
  capture_pre_execution_state f x s :=
    let? v1 := x (i_rs1 f) in
    let? vd := x (i_rd f) in
    Ok (with_rd_pre (with_rs1 s v1) vd);
  capture_post_execution_state f x s := let? vd := x (i_rd f) in Ok (with_rd_post s vd)
}.

#[export] Instance FormatLoad_format : InstructionFormat FormatLoad := {
  parse word := Ok (mkFormatLoad (parse_rd word) (parse_rs1 word) (parse_imm_i word));
  of_normalized o := mkFormatLoad (n_rd o) (n_rs1 o) (as_i64 (n_imm o));
  to_normalized f := mkNormalizedOperands (l_rs1 f) 0 (l_rd f) (l_imm f);
  capture_pre_execution_state f x s :=
    let? v1 := x (l_rs1 f) in
    let? vd := x (l_rd f) in
    Ok (with_rd_pre (with_rs1 s v1) vd);
  capture_post_execution_state f x s := let? vd := x (l_rd f) in Ok (with_rd_post s vd)
}.

#[export] Instance FormatS_format : InstructionFormat FormatS := {
  parse word := Ok (mkFormatS (parse_rs1 word) (parse_rs2 word) (parse_imm_s word));
  of_normalized o := mkFormatS (n_rs1 o) (n_rs2 o) (as_i64 (n_imm o));
  to_normalized f := mkNormalizedOperands (s_rs1 f) (s_rs2 f) 0 (s_imm f);
  capture_pre_execution_state f x s :=
    let? v1 := x (s_rs1 f) in
    let? v2 := x (s_rs2 f) in
    Ok (with_rs2 (with_rs1 s v1) v2);
  capture_post_execution_state f x s := Ok s
}.

#[export] Instance FormatB_format : InstructionFormat FormatB := {
  parse word := Ok (mkFormatB (parse_rs1 word) (parse_rs2 word) (parse_imm_b word));
  of_normalized o := mkFormatB (n_rs1 o) (n_rs2 o) (n_imm o);
  to_normalized f := mkNormalizedOperands (b_rs1 f) (b_rs2 f) 0 (b_imm f);
  capture_pre_execution_state f x s :=
    let? v1 := x (b_rs1 f) in
    let? v2 := x (b_rs2 f) in
    Ok (with_rs2 (with_rs1 s v1) v2);
  capture_post_execution_state f x s := Ok s
}.

#[export] Instance FormatJ_format : InstructionFormat FormatJ := {
  parse word := Ok (mkFormatJ (parse_rd word) (as_u64 (parse_imm_j word)));
  of_normalized o := mkFormatJ (n_rd o) (as_u64 (n_imm o));
  to_normalized f := mkNormalizedOperands 0 0 (j_rd f) (j_imm f);
  capture_pre_execution_state f x s := let? vd := x (j_rd f) in Ok (with_rd_pre s vd);
  capture_post_execution_state f x s := let? vd := x (j_rd f) in Ok (with_rd_post s vd)
}.

#[export] Instance FormatU_format : InstructionFormat FormatU := {
  parse word := Ok (mkFormatU (parse_rd word) (as_u64 (parse_imm_u word)));
  of_normalized o := mkFormatU (n_rd o) (as_u64 (n_imm o));
  to_normalized f := mkNormalizedOperands 0 0 (u_rd f) (u_imm f);
  capture_pre_execution_state f x s := let? vd := x (u_rd f) in Ok (with_rd_pre s vd);
  capture_post_execution_state f x s := let? vd := x (u_rd f) in Ok (with_rd_post s vd)
}.

#[export] Instance FormatVI_format : InstructionFormat FormatVirtualRightShiftI := {
  parse := virtual_parse;
  of_normalized o := mkFormatVI (n_rd o) (n_rs1 o) (as_u64 (n_imm o));
  to_normalized f := mkNormalizedOperands (vi_rs1 f) 0 (vi_rd f) (vi_imm f);
  capture_pre_execution_state f x s :=
    let? v1 := x (vi_rs1 f) in
    let? vd := x (vi_rd f) in
    Ok (with_rd_pre (with_rs1 s v1) vd);
  capture_post_execution_state f x s := let? vd := x (vi_rd f) in Ok (with_rd_post s vd)
}.

#[export] Instance FormatVR_format : InstructionFormat FormatVirtualRightShiftR := {
  parse := virtual_parse;
  of_normalized o := mkFormatVR (n_rd o) (n_rs1 o) (n_rs2 o);
  to_normalized f := mkNormalizedOperands (vr_rs1 f) (vr_rs2 f) (vr_rd f) 0;
  capture_pre_execution_state f x s :=
    let? v1 := x (vr_rs1 f) in
    let? v2 := x (vr_rs2 f) in
    let? vd := x (vr_rd f) in
    Ok (with_rd_pre (with_rs2 (with_rs1 s v1) v2) vd);
  capture_post_execution_state f x s := let? vd := x (vr_rd f) in Ok (with_rd_post s vd)
}.

#[export] Instance AssertAlign_format : InstructionFormat AssertAlignFormat := {
  parse := virtual_parse;
  of_normalized o := mkAssertAlign (n_rs1 o) (as_i64 (n_imm o));
  to_normalized f := mkNormalizedOperands (a_rs1 f) 0 0 (a_imm f);
  capture_pre_execution_state f x s := let? v1 := x (a_rs1 f) in Ok (with_rs1 s v1);
  capture_post_execution_state f x s := Ok s
}.

#[export] Instance FormatInline_format : InstructionFormat FormatInline := {
  parse word := Ok (mkFormatInline (parse_rs1 word) (parse_rs2 word) (parse_rd word));
  of_normalized o := mkFormatInline (n_rs1 o) (n_rs2 o) (n_rd o);
  to_normalized f := mkNormalizedOperands (in_rs1 f) (in_rs2 f) (in_rs3 f) 0;
  capture_pre_execution_state f x s :=
    let? v1 := x (in_rs1 f) in
    let? v2 := x (in_rs2 f) in
    let? v3 := x (in_rs3 f) in
    Ok (with_rs3 (with_rs2 (with_rs1 s v1) v2) v3);
  capture_post_execution_state f x s := Ok s
}.

(** ** Instructions *)

Inductive OpR :=
| ADD | SUB | AND | ANDN | OR | XOR | SLT | SLTU | SLL | SRL | SRA
| MUL | MULH | MULHU | MULHSU | DIV | DIVU | REM | REMU
| ADDW | SUBW | SLLW | SRLW | SRAW | MULW | DIVW | DIVUW | REMW | REMUW
| LRW | SCW | AMOSWAPW | AMOADDW | AMOANDW | AMOORW | AMOXORW | AMOMINW | AMOMAXW | AMOMINUW | AMOMAXUW
| LRD | SCD | AMOSWAPD | AMOADDD | AMOANDD | AMOORD | AMOXORD | AMOMIND | AMOMAXD | AMOMINUD | AMOMAXUD
| VirtualChangeDivisor | VirtualChangeDivisorW
| VirtualXORROT32 | VirtualXORROT24 | VirtualXORROT16 | VirtualXORROT63
| VirtualXORROTW16 | VirtualXORROTW12 | VirtualXORROTW8 | VirtualXORROTW7.

Inductive OpI :=
| ADDI | ANDI | ORI | XORI | SLTI | SLTIU | SLLI | SRLI | SRAI | JALR | ECALL | FENCE
| ADDIW | SLLIW | SRLIW | SRAIW
| VirtualLW | VirtualMULI | VirtualMove | VirtualMovsign | VirtualPow2 | VirtualPow2W | VirtualRev8W
| VirtualShiftRightBitmask | VirtualSignExtendWord | VirtualZeroExtendWord.

Inductive OpLoad := LB | LBU | LH | LHU | LW | LWU | LD.
Inductive OpS := SB | SH | SW | SD | VirtualSW.
Inductive OpB :=
| BEQ | BNE | BLT | BGE | BLTU | BGEU
| VirtualAssertEQ | VirtualAssertLTE | VirtualAssertMulUNoOverflow | VirtualAssertValidDiv0
| VirtualAssertValidUnsignedRemainder.
Inductive OpJ := JAL | VirtualPow2I | VirtualPow2IW | VirtualShiftRightBitmaskI.
Inductive OpU := LUI | AUIPC.
Inductive OpVI := VirtualROTRI | VirtualROTRIW | VirtualSRAI | VirtualSRLI.
Inductive OpVR := VirtualSRA | VirtualSRL.
Inductive OpAlign := VirtualAssertHalfwordAlignment | VirtualAssertWordAlignment.

#[export] Instance OpR_eq_dec : EqDecision OpR. Proof. solve_decision. Defined.
#[export] Instance OpI_eq_dec : EqDecision OpI. Proof. solve_decision. Defined.
#[export] Instance OpLoad_eq_dec : EqDecision OpLoad. Proof. solve_decision. Defined.
#[export] Instance OpS_eq_dec : EqDecision OpS. Proof. solve_decision. Defined.
#[export] Instance OpB_eq_dec : EqDecision OpB. Proof. solve_decision. Defined.

(** The struct declared by [declare_riscv_instr!] for format [F]. *)
Record Instr (F : Type) := mkInstr {
  address : Z;
  operands : F;
  inline_sequence_remaining : option Z;
  is_compressed : bool
}.
Arguments mkInstr {F}.
Arguments address {F}.
Arguments operands {F}.
Arguments inline_sequence_remaining {F}.
Arguments is_compressed {F}.

Inductive Instruction :=
| NoOp
| UNIMPL
| InstrR (op : OpR) (i : Instr FormatR)
| InstrI (op : OpI) (i : Instr FormatI)
| InstrLoad (op : OpLoad) (i : Instr FormatLoad)
| InstrS (op : OpS) (i : Instr FormatS)
| InstrB (op : OpB) (i : Instr FormatB)
| InstrJ (op : OpJ) (i : Instr FormatJ)
| InstrU (op : OpU) (i : Instr FormatU)
| InstrVI (op : OpVI) (i : Instr FormatVirtualRightShiftI)
| InstrVR (op : OpVR) (i : Instr FormatVirtualRightShiftR)
| InstrAlign (op : OpAlign) (i : Instr AssertAlignFormat)
| VirtualAdvice (i : Instr FormatJ) (advice : option Z)
| INLINE (opcode funct3 funct7 : Z) (i : Instr FormatInline).

Record NormalizedInstruction := mkNormalized {
  ni_address : Z;
  ni_operands : NormalizedOperands;
  ni_inline_sequence_remaining : option Z;
  ni_is_compressed : bool
}.

(** [impl From<NormalizedInstruction> for $name] *)
Definition instr_of_normalized {F : Type} `{InstructionFormat F} (ni : NormalizedInstruction) : Instr F :=
  mkInstr (ni_address ni) (of_normalized (ni_operands ni)) None (ni_is_compressed ni).

(** [impl From<$name> for NormalizedInstruction] *)
Definition instr_to_normalized {F : Type} `{InstructionFormat F} (i : Instr F) : NormalizedInstruction :=
  mkNormalized (address i) (to_normalized (operands i)) (inline_sequence_remaining i) (is_compressed i).

(** [impl From<NormalizedInstruction> for VirtualAdvice] *)
Definition virtual_advice_of_normalized (ni : NormalizedInstruction) : Instruction :=
  VirtualAdvice (mkInstr (ni_address ni) (of_normalized (ni_operands ni))
                   (ni_inline_sequence_remaining ni) (ni_is_compressed ni)) None.

Definition normalize (i : Instruction) : NormalizedInstruction :=
  match i with
  | NoOp | UNIMPL => mkNormalized 0 NormalizedOperands_default None false
  | InstrR _ i => instr_to_normalized i
  | InstrI _ i => instr_to_normalized i
  | InstrLoad _ i => instr_to_normalized i
  | InstrS _ i => instr_to_normalized i
  | InstrB _ i => instr_to_normalized i
  | InstrJ _ i => instr_to_normalized i
  | InstrU _ i => instr_to_normalized i
  | InstrVI _ i => instr_to_normalized i
  | InstrVR _ i => instr_to_normalized i
  | InstrAlign _ i => instr_to_normalized i
  | VirtualAdvice i _ => instr_to_normalized i
  | INLINE _ _ _ i => instr_to_normalized i
  end.

Definition set_remaining {F : Type} (i : Instr F) (r : option Z) : Instr F :=
  mkInstr (address i) (operands i) r (is_compressed i).
Definition set_compressed {F : Type} (i : Instr F) (c : bool) : Instr F :=
  mkInstr (address i) (operands i) (inline_sequence_remaining i) c.

Definition set_inline_sequence_remaining (i : Instruction) (r : option Z) : Instruction :=
  match i with
  | NoOp => NoOp
  | UNIMPL => UNIMPL
  | InstrR op i => InstrR op (set_remaining i r)
  | InstrI op i => InstrI op (set_remaining i r)
  | InstrLoad op i => InstrLoad op (set_remaining i r)
  | InstrS op i => InstrS op (set_remaining i r)
  | InstrB op i => InstrB op (set_remaining i r)
  | InstrJ op i => InstrJ op (set_remaining i r)
  | InstrU op i => InstrU op (set_remaining i r)
  | InstrVI op i => InstrVI op (set_remaining i r)
  | InstrVR op i => InstrVR op (set_remaining i r)
  | InstrAlign op i => InstrAlign op (set_remaining i r)
  | VirtualAdvice i a => VirtualAdvice (set_remaining i r) a
  | INLINE o f3 f7 i => INLINE o f3 f7 (set_remaining i r)
  end.

Definition set_is_compressed (i : Instruction) (c : bool) : Instruction :=
  match i with
  | NoOp => NoOp
  | UNIMPL => UNIMPL
  | InstrR op i => InstrR op (set_compressed i c)
  | InstrI op i => InstrI op (set_compressed i c)
  | InstrLoad op i => InstrLoad op (set_compressed i c)
  | InstrS op i => InstrS op (set_compressed i c)
  | InstrB op i => InstrB op (set_compressed i c)
  | InstrJ op i => InstrJ op (set_compressed i c)
  | InstrU op i => InstrU op (set_compressed i c)
  | InstrVI op i => InstrVI op (set_compressed i c)
  | InstrVR op i => InstrVR op (set_compressed i c)
  | InstrAlign op i => InstrAlign op (set_compressed i c)
  | VirtualAdvice i a => VirtualAdvice (set_compressed i c) a
  | INLINE o f3 f7 i => INLINE o f3 f7 (set_compressed i c)
  end.

(** An instruction counts as executed when it is ordinary or the last of its
    inline sequence. *)
Definition is_real (i : Instruction) : bool :=
  match i with
  | NoOp => false
  | _ => match ni_inline_sequence_remaining (normalize i) with
         | None => true
         | Some r => r =? 0
         end
  end.
