(* ===== verification/Decode.v ===== *)
(** * Decoding ([Instruction::decode], [uncompress_instruction] in
    [instruction/mod.rs])

    [decode] maps a 32-bit word to an [Instruction] or an error message;
    [uncompress_instruction] expands a 16-bit instruction to the 32-bit word
    that [decode] then reads. *)

From Stdlib Require Import ZArith Lia List Bool String.
From stdpp Require Import base list.
From S2P Require Import Prelude Words Types Isa.
Import ListNotations.
Local Open Scope Z_scope.
Local Open Scope rust_scope.

(** ** [MASK] and [MATCH] of the machine instructions *)

Definition mask_match_R (op : OpR) : Z * Z :=
  match op with
  | ADD => (0xfe00707f, 0x00000033) | SUB => (0xfe00707f, 0x40000033)
  | AND => (0xfe00707f, 0x00007033) | ANDN => (0xfe00707f, 0x40007033)
  | OR => (0xfe00707f, 0x00006033) | XOR => (0xfe00707f, 0x00004033)
  | SLT => (0xfe00707f, 0x00002033) | SLTU => (0xfe00707f, 0x00003033)
  | SLL => (0xfe00707f, 0x00001033) | SRL => (0xfe00707f, 0x00005033)
  | SRA => (0xfe00707f, 0x40005033)
  | MUL => (0xfe00707f, 0x02000033) | MULH => (0xfe00707f, 0x02001033)
  | MULHSU => (0xfe00707f, 0x02002033) | MULHU => (0xfe00707f, 0x02003033)
  | DIV => (0xfe00707f, 0x02004033) | DIVU => (0xfe00707f, 0x02005033)
  | REM => (0xfe00707f, 0x02006033) | REMU => (0xfe00707f, 0x02007033)
  | ADDW => (0xfe00707f, 0x0000003b) | SUBW => (0xfe00707f, 0x4000003b)
  | SLLW => (0xfe00707f, 0x0000103b) | SRLW => (0xfe00707f, 0x0000503b)
  | SRAW => (0xfe00707f, 0x4000503b) | MULW => (0xfe00707f, 0x0200003b)
  | DIVW => (0xfe00707f, 0x0200403b) | DIVUW => (0xfe00707f, 0x0200503b)
  | REMW => (0xfe00707f, 0x0200603b) | REMUW => (0xfe00707f, 0x0200703b)
  | LRW => (0xf9f0707f, 0x1000202f) | SCW => (0xf800707f, 0x1800202f)
  | AMOSWAPW => (0xf800707f, 0x0800202f) | AMOADDW => (0xf800707f, 0x0000202f)
  | AMOANDW => (0xf800707f, 0x6000202f) | AMOORW => (0xf800707f, 0x4000202f)
  | AMOXORW => (0xf800707f, 0x2000202f) | AMOMINW => (0xf800707f, 0x8000202f)
  | AMOMAXW => (0xf800707f, 0xa000202f) | AMOMINUW => (0xf800707f, 0xc000202f)
  | AMOMAXUW => (0xf800707f, 0xe000202f)
  | LRD => (0xf9f0707f, 0x1000302f) | SCD => (0xf800707f, 0x1800302f)
  | AMOSWAPD => (0xf800707f, 0x0800302f) | AMOADDD => (0xf800707f, 0x0000302f)
  | AMOANDD => (0xf800707f, 0x6000302f) | AMOORD => (0xf800707f, 0x4000302f)
  | AMOXORD => (0xf800707f, 0x2000302f) | AMOMIND => (0xf800707f, 0x8000302f)
  | AMOMAXD => (0xf800707f, 0xa000302f) | AMOMINUD => (0xf800707f, 0xc000302f)
  | AMOMAXUD => (0xf800707f, 0xe000302f)
  | _ => (0, 0)
  end.

Definition mask_match_I (op : OpI) : Z * Z :=
  match op with
  | ADDI => (0x0000707f, 0x00000013) | ANDI => (0x0000707f, 0x00007013)
  | ORI => (0x0000707f, 0x00006013) | XORI => (0x0000707f, 0x00004013)
  | SLTI => (0x0000707f, 0x00002013) | SLTIU => (0x0000707f, 0x00003013)
  | SLLI => (0xfc00707f, 0x00001013) | SRLI => (0xfc00707f, 0x00005013)
  | SRAI => (0xfc00707f, 0x40005013)
  | JALR => (0x0000707f, 0x00000067) | ECALL => (0xffffffff, 0x00000073)
  | FENCE => (0x0000707f, 0x0000000f)
  | ADDIW => (0x0000707f, 0x0000001b) | SLLIW => (0xfc00707f, 0x0000101b)
  | SRLIW => (0xfc00707f, 0x0000501b) | SRAIW => (0xfc00707f, 0x4000501b)
  | _ => (0, 0)
  end.

Definition mask_match_Load (op : OpLoad) : Z * Z :=
  match op with
  | LB => (0x0000707f, 0x00000003) | LH => (0x0000707f, 0x00001003)
  | LW => (0x0000707f, 0x00002003) | LD => (0x0000707f, 0x00003003)
  | LBU => (0x0000707f, 0x00004003) | LHU => (0x0000707f, 0x00005003)
  | LWU => (0x0000707f, 0x00006003)
  end.

Definition mask_match_S (op : OpS) : Z * Z :=
  match op with
  | SB => (0x0000707f, 0x00000023) | SH => (0x0000707f, 0x00001023)
  | SW => (0x0000707f, 0x00002023) | SD => (0x0000707f, 0x00003023)
  | VirtualSW => (0, 0)
  end.

Definition mask_match_B (op : OpB) : Z * Z :=
  match op with
  | BEQ => (0x0000707f, 0x00000063) | BNE => (0x0000707f, 0x00001063)
  | BLT => (0x0000707f, 0x00004063) | BGE => (0x0000707f, 0x00005063)
  | BLTU => (0x0000707f, 0x00006063) | BGEU => (0x0000707f, 0x00007063)
  | _ => (0, 0)
  end.

Definition mask_match_J (op : OpJ) : Z * Z :=
  match op with JAL => (0x0000007f, 0x0000006f) | _ => (0, 0) end.

Definition mask_match_U (op : OpU) : Z * Z :=
  match op with LUI => (0x0000007f, 0x00000037) | AUIPC => (0x0000007f, 0x00000017) end.

(** ** Compressed instructions *)

(** [x << n] on [u32] and [(x << n) & mask]. *)
Definition shl (x n : Z) : Z := as_u32 (Z.shiftl x n).
Definition fieldl (x n mask : Z) : Z := Z.land (shl x n) mask.
(** [a | b | ...] *)
Definition ors (l : list Z) : Z := fold_left Z.lor l 0.

(** [match halfword & 0x1000 { 0x1000 => fill, _ => 0 }] *)
Definition c_sign (halfword fill : Z) : Z := if Z.land halfword 0x1000 =? 0x1000 then fill else 0.

(** The immediate of C.ADDI, C.ADDIW, C.LI and C.ANDI. *)
Definition c_imm6 (halfword : Z) : Z :=
  ors [c_sign halfword 0xffffffc0; field halfword 7 0x20; field halfword 2 0x1f].

(** The jump target of C.J and C.JAL, as the immediate field of JAL. *)
Definition c_jump_imm (halfword : Z) : Z :=
  let offset := ors [c_sign halfword 0xfffff000; field halfword 1 0x800; field halfword 7 0x10;
                     field halfword 1 0x300; fieldl halfword 2 0x400; field halfword 1 0x40;
                     fieldl halfword 1 0x80; field halfword 2 0xe; fieldl halfword 3 0x20] in
  ors [field offset 1 0x80000; fieldl offset 8 0x7fe00; field offset 3 0x100; field offset 12 0xff].

(** The two immediate fields of the branch that C.BEQZ and C.BNEZ expand to. *)
Definition c_branch_imms (halfword : Z) : Z * Z :=
  let offset := ors [c_sign halfword 0xfffffe00; field halfword 4 0x100; field halfword 7 0x18;
                     fieldl halfword 1 0xc0; field halfword 2 0x6; fieldl halfword 3 0x20] in
  let imm2 := ors [field offset 6 0x40; field offset 5 0x3f] in
  let imm1 := ors [Z.land offset 0x1e; field offset 11 0x1] in
  (imm2, imm1).

(** Quadrant 0. *)
Definition uncompress_q0 (halfword funct3 : Z) : option Z :=
  let rd := field halfword 2 0x7 in
  let rs1 := field halfword 7 0x7 in
  let rs2 := field halfword 2 0x7 in
  match funct3 with
  | 0 =>
      let nzuimm := ors [field halfword 7 0x30; field halfword 1 0x3c0; field halfword 4 0x4; field halfword 2 0x8] in
      if negb (nzuimm =? 0) then Some (ors [shl nzuimm 20; shl 2 15; shl (rd + 8) 7; 0x13]) else None
  | 1 =>
      let offset := ors [field halfword 7 0x38; fieldl halfword 1 0xc0] in
      Some (ors [shl offset 20; shl (rs1 + 8) 15; shl 3 12; shl (rd + 8) 7; 0x7])
  | 2 =>
      let offset := ors [field halfword 7 0x38; field halfword 4 0x4; fieldl halfword 1 0x40] in
      Some (ors [shl offset 20; shl (rs1 + 8) 15; shl 2 12; shl (rd + 8) 7; 0x3])
  | 3 =>
      let offset := ors [field halfword 7 0x38; fieldl halfword 1 0xc0] in
      Some (ors [shl offset 20; shl (rs1 + 8) 15; shl 3 12; shl (rd + 8) 7; 0x3])
  | 4 => None
  | 5 =>
      let offset := ors [field halfword 7 0x38; fieldl halfword 1 0xc0] in
      let imm11_5 := field offset 5 0x7f in
      let imm4_0 := Z.land offset 0x1f in
      Some (ors [shl imm11_5 25; shl (rs2 + 8) 20; shl (rs1 + 8) 15; shl 3 12; shl imm4_0 7; 0x27])
  | 6 =>
      let offset := ors [field halfword 7 0x38; fieldl halfword 1 0x40; field halfword 4 0x4] in
      let imm11_5 := field offset 5 0x7f in
      let imm4_0 := Z.land offset 0x1f in
      Some (ors [shl imm11_5 25; shl (rs2 + 8) 20; shl (rs1 + 8) 15; shl 2 12; shl imm4_0 7; 0x23])
  | 7 =>
      let offset := ors [field halfword 7 0x38; fieldl halfword 1 0xc0] in
      let imm11_5 := field offset 5 0x7f in
      let imm4_0 := Z.land offset 0x1f in
      Some (ors [shl imm11_5 25; shl (rs2 + 8) 20; shl (rs1 + 8) 15; shl 3 12; shl imm4_0 7; 0x23])
  | _ => None
  end.

(** Quadrant 1, [funct3 = 4]: the register-register and shift group. *)
Definition uncompress_q1_alu (halfword : Z) : option Z :=
  let rs1 := field halfword 7 0x7 in
  let rs2 := field halfword 2 0x7 in
  let shamt := ors [field halfword 7 0x20; field halfword 2 0x1f] in
  match field halfword 10 0x3 with
  | 0 => Some (ors [shl shamt 20; shl (rs1 + 8) 15; shl 5 12; shl (rs1 + 8) 7; 0x13])
  | 1 => Some (ors [shl 0x20 25; shl shamt 20; shl (rs1 + 8) 15; shl 5 12; shl (rs1 + 8) 7; 0x13])
  | 2 => Some (ors [shl (c_imm6 halfword) 20; shl (rs1 + 8) 15; shl 7 12; shl (rs1 + 8) 7; 0x13])
  | 3 =>
      match field halfword 12 1, field halfword 5 0x3 with
      | 0, 0 => Some (ors [shl 0x20 25; shl (rs2 + 8) 20; shl (rs1 + 8) 15; shl (rs1 + 8) 7; 0x33])
      | 0, 1 => Some (ors [shl (rs2 + 8) 20; shl (rs1 + 8) 15; shl 4 12; shl (rs1 + 8) 7; 0x33])
      | 0, 2 => Some (ors [shl (rs2 + 8) 20; shl (rs1 + 8) 15; shl 6 12; shl (rs1 + 8) 7; 0x33])
      | 0, 3 => Some (ors [shl (rs2 + 8) 20; shl (rs1 + 8) 15; shl 7 12; shl (rs1 + 8) 7; 0x33])
      | 1, 0 => Some (ors [shl 0x20 25; shl (rs2 + 8) 20; shl (rs1 + 8) 15; shl (rs1 + 8) 7; 0x3b])
      | 1, 1 => Some (ors [shl (rs2 + 8) 20; shl (rs1 + 8) 15; shl (rs1 + 8) 7; 0x3b])
      | _, _ => None
      end
  | _ => None
  end.

(** Quadrant 1. *)
Definition uncompress_q1 (halfword funct3 : Z) (xlen : Xlen) : option Z :=
  match funct3 with
  | 0 =>
      let r := field halfword 7 0x1f in
      let imm := c_imm6 halfword in
      if (r =? 0) || (imm =? 0) then Some 0x13
      else Some (ors [shl imm 20; shl r 15; shl r 7; 0x13])
  | 1 =>
      match xlen with
      | Bit32 => Some (ors [shl (c_jump_imm halfword) 12; shl 1 7; 0x6f])
      | Bit64 =>
          let r := field halfword 7 0x1f in
          let imm := c_imm6 halfword in
          if r =? 0 then None
          else if imm =? 0 then Some (ors [shl r 15; shl r 7; 0x1b])
          else Some (ors [shl imm 20; shl r 15; shl r 7; 0x1b])
      end
  | 2 =>
      let r := field halfword 7 0x1f in
      let imm := c_imm6 halfword in
      if negb (r =? 0) then Some (ors [shl imm 20; shl r 7; 0x13]) else Some 0x13
  | 3 =>
      let r := field halfword 7 0x1f in
      if r =? 2 then
        let imm := ors [c_sign halfword 0xfffffc00; field halfword 3 0x200; field halfword 2 0x10;
                        fieldl halfword 1 0x40; fieldl halfword 4 0x180; fieldl halfword 3 0x20] in
        if negb (imm =? 0) then Some (ors [shl imm 20; shl r 15; shl r 7; 0x13]) else None
      else if negb (r =? 0) then
        let nzimm := ors [c_sign halfword 0xfffc0000; fieldl halfword 5 0x20000; fieldl halfword 10 0x1f000] in
        if negb (nzimm =? 0) then Some (ors [nzimm; shl r 7; 0x37]) else None
      else Some 0x13
  | 4 => uncompress_q1_alu halfword
  | 5 => Some (ors [shl (c_jump_imm halfword) 12; 0x6f])
  | 6 =>
      let r := field halfword 7 0x7 in
      let '(imm2, imm1) := c_branch_imms halfword in
      Some (ors [shl imm2 25; shl (r + 8) 20; shl imm1 7; 0x63])
  | 7 =>
      let r := field halfword 7 0x7 in
      let '(imm2, imm1) := c_branch_imms halfword in
      Some (ors [shl imm2 25; shl (r + 8) 20; shl 1 12; shl imm1 7; 0x63])
  | _ => None
  end.

(** Quadrant 2. *)
Definition uncompress_q2 (halfword funct3 : Z) : option Z :=
  let r := field halfword 7 0x1f in
  let rs2 := field halfword 2 0x1f in
  match funct3 with
  | 0 =>
      let shamt := ors [field halfword 7 0x20; field halfword 2 0x1f] in
      if negb (r =? 0) then Some (ors [shl shamt 20; shl r 15; shl 1 12; shl r 7; 0x13]) else None
  | 1 =>
      let offset := ors [field halfword 7 0x20; field halfword 2 0x18; fieldl halfword 4 0x1c0] in
      if negb (r =? 0) then Some (ors [shl offset 20; shl 2 15; shl 3 12; shl r 7; 0x7]) else None
  | 2 =>
      let offset := ors [field halfword 7 0x20; field halfword 2 0x1c; fieldl halfword 4 0xc0] in
      if negb (r =? 0) then Some (ors [shl offset 20; shl 2 15; shl 2 12; shl r 7; 0x3]) else None
  | 3 =>
      let offset := ors [field halfword 7 0x20; field halfword 2 0x18; fieldl halfword 4 0x1c0] in
      if negb (r =? 0) then Some (ors [shl offset 20; shl 2 15; shl 3 12; shl r 7; 0x3]) else None
  | 4 =>
      if field halfword 12 1 =? 0 then
        if (r =? 0) && (rs2 =? 0) then None
        else if rs2 =? 0 then Some (ors [shl r 15; 0x67])
        else if r =? 0 then Some 0x13
        else Some (ors [shl rs2 20; shl r 7; 0x33])
      else
        if (r =? 0) && (rs2 =? 0) then Some 0x00100073
        else if rs2 =? 0 then Some (ors [shl r 15; shl 1 7; 0x67])
        else if r =? 0 then Some 0x13
        else Some (ors [shl rs2 20; shl r 15; shl r 7; 0x33])
  | 5 =>
      let offset := ors [field halfword 7 0x38; field halfword 1 0x1c0] in
      let imm11_5 := field offset 5 0x3f in
      let imm4_0 := Z.land offset 0x1f in
      Some (ors [shl imm11_5 25; shl rs2 20; shl 2 15; shl 3 12; shl imm4_0 7; 0x27])
  | 6 =>
      let offset := ors [field halfword 7 0x3c; field halfword 1 0xc0] in
      let imm11_5 := field offset 5 0x3f in
      let imm4_0 := Z.land offset 0x1f in
      Some (ors [shl imm11_5 25; shl rs2 20; shl 2 15; shl 2 12; shl imm4_0 7; 0x23])
  | 7 =>
      let offset := ors [field halfword 7 0x38; field halfword 1 0x1c0] in
      let imm11_5 := field offset 5 0x3f in
      let imm4_0 := Z.land offset 0x1f in
      Some (ors [shl imm11_5 25; shl rs2 20; shl 2 15; shl 3 12; shl imm4_0 7; 0x23])
  | _ => None
  end.

(** The branches that return nothing fall through to the invalid word. *)
Definition uncompress_instruction (halfword : Z) (xlen : Xlen) : Z :=
  let op := Z.land halfword 0x3 in
  let funct3 := field halfword 13 0x7 in
  match (match op with
         | 0 => uncompress_q0 halfword funct3
         | 1 => uncompress_q1 halfword funct3 xlen
         | 2 => uncompress_q2 halfword funct3
         | _ => None
         end) with
  | Some word => word
  | None => 0xffffffff
  end.

Section Decode.
Context `{Build}.

(** [$name::new(word, address, validate = true, compressed)] of
    [declare_riscv_instr!]: with debug assertions the word must match. *)
Definition new_instr {F : Type} `{InstructionFormat F} (mm : Z * Z) (word address : Z) (compressed : bool)
    : Res (Instr F) :=
  let? _ := debug_assert (Z.land word (fst mm) =? snd mm) in
  let? ops := parse word in
  Ok (mkInstr address ops None compressed).

(** [INLINE::new] *)
Definition INLINE_new (word address : Z) (is_compressed : bool) : Res Instruction :=
  let? ops := parse word in
  Ok (INLINE (Z.land word 0x7f) (field word 12 0x7) (field word 25 0x7f)
        (mkInstr address ops None is_compressed)).

Definition decode (instr address : Z) (compressed : bool) : Res (Result Instruction string) :=
  let newR op := let? i := new_instr (mask_match_R op) instr address compressed in Ok (ROk (InstrR op i)) in
  let newI op := let? i := new_instr (mask_match_I op) instr address compressed in Ok (ROk (InstrI op i)) in
  let newL op := let? i := new_instr (mask_match_Load op) instr address compressed in Ok (ROk (InstrLoad op i)) in
  let newS op := let? i := new_instr (mask_match_S op) instr address compressed in Ok (ROk (InstrS op i)) in
  let newB op := let? i := new_instr (mask_match_B op) instr address compressed in Ok (ROk (InstrB op i)) in
  let newJ op := let? i := new_instr (mask_match_J op) instr address compressed in Ok (ROk (InstrJ op i)) in
  let newU op := let? i := new_instr (mask_match_U op) instr address compressed in Ok (ROk (InstrU op i)) in
  let rv64 (r : Res (Result Instruction string)) (e : string) := if feature_rv64 then r else Ok (RErr e) in
  let opcode := Z.land instr 0x7f in
  let funct3 := field instr 12 0x7 in
  let funct7 := field instr 25 0x7f in
  match opcode with
  | 0x37 => newU LUI
  | 0x17 => newU AUIPC
  | 0x6f => newJ JAL
  | 0x67 => if negb (funct3 =? 0) then Ok (RErr "Invalid funct3 for JALR"%string) else newI JALR
  | 0x63 =>
      match funct3 with
      | 0 => newB BEQ
      | 1 => newB BNE
      | 4 => newB BLT
      | 5 => newB BGE
      | 6 => newB BLTU
      | 7 => newB BGEU
      | _ => Ok (RErr "Invalid branch funct3"%string)
      end
  | 3 =>
      let err := "Invalid load funct3"%string in
      match funct3 with
      | 0 => newL LB
      | 1 => newL LH
      | 2 => newL LW
      | 3 => rv64 (newL LD) err
      | 4 => newL LBU
      | 5 => newL LHU
      | 6 => rv64 (newL LWU) err
      | _ => Ok (RErr err)
      end
  | 0x23 =>
      let err := "Invalid store funct3"%string in
      match funct3 with
      | 0 => newS SB
      | 1 => newS SH
      | 2 => newS SW
      | 3 => rv64 (newS SD) err
      | _ => Ok (RErr err)
      end
  | 0x13 =>
      let funct6 := field instr 26 0x3f in
      if funct3 =? 1 then
        if funct6 =? 0 then newI SLLI else Ok (RErr "Invalid funct7 for SLLI"%string)
      else if funct3 =? 5 then
        if funct6 =? 0 then newI SRLI
        else if funct6 =? 0x10 then newI SRAI
        else Ok (RErr "Invalid ALU shift funct7"%string)
      else
        match funct3 with
        | 0 => newI ADDI
        | 2 => newI SLTI
        | 3 => newI SLTIU
        | 4 => newI XORI
        | 6 => newI ORI
        | 7 => newI ANDI
        | _ => Ok (RErr "Invalid I-type ALU funct3"%string)
        end
  | 0x1b =>
      rv64 (match funct3, funct7 with
            | 0, _ => newI ADDIW
            | 1, 0 => newI SLLIW
            | 5, 0 => newI SRLIW
            | 5, 0x20 => newI SRAIW
            | _, _ => Ok (RErr "Invalid RV64I I-type arithmetic instruction"%string)
            end) "Unknown opcode"%string
  | 0x33 =>
      match funct3, funct7 with
      | 0, 0 => newR ADD
      | 0, 0x20 => newR SUB
      | 1, 0 => newR SLL
      | 2, 0 => newR SLT
      | 3, 0 => newR SLTU
      | 4, 0 => newR XOR
      | 5, 0 => newR SRL
      | 5, 0x20 => newR SRA
      | 6, 0 => newR OR
      | 7, 0 => newR AND
      | 0, 1 => newR MUL
      | 1, 1 => newR MULH
      | 2, 1 => newR MULHSU
      | 3, 1 => newR MULHU
      | 4, 1 => newR DIV
      | 5, 1 => newR DIVU
      | 6, 1 => newR REM
      | 7, 1 => newR REMU
      | _, _ => Ok (RErr "Invalid R-type arithmetic instruction"%string)
      end
  | 0x3b =>
      rv64 (match funct3, funct7 with
            | 0, 0 => newR ADDW
            | 0, 0x20 => newR SUBW
            | 1, 0 => newR SLLW
            | 4, 1 => newR DIVW
            | 5, 0 => newR SRLW
            | 5, 0x20 => newR SRAW
            | 0, 1 => newR MULW
            | 5, 1 => newR DIVUW
            | 6, 1 => newR REMW
            | 7, 1 => newR REMUW
            | _, _ => Ok (RErr "Invalid RV64I R-type arithmetic instruction"%string)
            end) "Unknown opcode"%string
  | 0xf => newI FENCE
  | 0x2f =>
      let funct5 := field instr 27 0x1f in
      let err := "Invalid atomic memory operation"%string in
      match funct3, funct5 with
      | 2, 2 => newR LRW
      | 3, 2 => rv64 (newR LRD) err
      | 2, 3 => newR SCW
      | 3, 3 => rv64 (newR SCD) err
      | 2, 1 => newR AMOSWAPW
      | 3, 1 => rv64 (newR AMOSWAPD) err
      | 2, 0 => newR AMOADDW
      | 3, 0 => rv64 (newR AMOADDD) err
      | 2, 0xc => newR AMOANDW
      | 3, 0xc => rv64 (newR AMOANDD) err
      | 2, 8 => newR AMOORW
      | 3, 8 => rv64 (newR AMOORD) err
      | 2, 4 => newR AMOXORW
      | 3, 4 => rv64 (newR AMOXORD) err
      | 2, 0x10 => newR AMOMINW
      | 3, 0x10 => rv64 (newR AMOMIND) err
      | 2, 0x14 => newR AMOMAXW
      | 3, 0x14 => rv64 (newR AMOMAXD) err
      | 2, 0x18 => newR AMOMINUW
      | 3, 0x18 => rv64 (newR AMOMINUD) err
      | 2, 0x1c => newR AMOMAXUW
      | 3, 0x1c => rv64 (newR AMOMAXUD) err
      | _, _ => Ok (RErr err)
      end
  | 0x73 =>
      if instr =? 0x00000073 then newI ECALL else Ok (RErr "Unsupported SYSTEM instruction"%string)
  | 0xb => let? i := INLINE_new instr address compressed in Ok (ROk i)
  | 0x2b => let? i := INLINE_new instr address compressed in Ok (ROk i)
  | 0x5b =>
      match funct3 with
      | 0 => newI VirtualRev8W
      | _ => Ok (RErr "Invalid I-type virtual instruction"%string)
      end
  | _ => Ok (RErr "Unknown opcode"%string)
  end.

End Decode.
