(* ===== verification/Allocator.v ===== *)
(** * Virtual register allocator ([utils/virtual_registers.rs])

    The allocator hands out the lowest free virtual register; a guard frees it
    when it goes out of scope.  The shared [Arc<Mutex<..>>] state is passed
    explicitly; a guard's scope is [with_register]. *)

From Stdlib Require Import ZArith Lia List Bool.
From stdpp Require Import base list.
From S2P Require Import Prelude Words Types.
Import ListNotations.
Local Open Scope Z_scope.
Local Open Scope rust_scope.

Definition NUM_VIRTUAL_REGISTERS : nat := 96.
Definition NUM_VIRTUAL_INSTRUCTION_REGISTERS : nat := 16.
Definition RISCV_REGISTER_BASE : Z := RISCV_REGISTER_COUNT.

Record VirtualRegisterAllocator := mkAllocator {
  allocated : list bool;
  pending_clearing_inline : list Z
}.

Definition VirtualRegisterAllocator_new : VirtualRegisterAllocator :=
  mkAllocator (replicate NUM_VIRTUAL_REGISTERS false) [].

(** First free slot of [l], numbered from [i]. *)
Fixpoint first_free (l : list bool) (i : nat) : option nat :=
  match l with
  | [] => None
  | b :: l' => if b then first_free l' (S i) else Some i
  end.

Definition allocate : ST VirtualRegisterAllocator Z :=
  fun a =>
    match first_free (firstn NUM_VIRTUAL_INSTRUCTION_REGISTERS (allocated a)) 0 with
    | Some i => Ok (Z.of_nat i + RISCV_REGISTER_BASE,
                    mkAllocator (<[i := true]> (allocated a)) (pending_clearing_inline a))
    | None => Panic
    end.

Definition allocate_for_inline : ST VirtualRegisterAllocator Z :=
  fun a =>
    match first_free (skipn NUM_VIRTUAL_INSTRUCTION_REGISTERS (allocated a)) NUM_VIRTUAL_INSTRUCTION_REGISTERS with
    | Some i => let r := Z.of_nat i + RISCV_REGISTER_BASE in
                Ok (r, mkAllocator (<[i := true]> (allocated a)) (pending_clearing_inline a ++ [r]))
    | None => Panic
    end.

Definition get_registers_for_reset : ST VirtualRegisterAllocator (list Z) :=
  fun a =>
    if forallb negb (skipn NUM_VIRTUAL_INSTRUCTION_REGISTERS (allocated a))
    then Ok (pending_clearing_inline a, mkAllocator (allocated a) [])
    else Panic.

(** [deallocate]; [index - RISCV_REGISTER_BASE] is on [u8]. *)
Definition deallocate `{Build} (index : Z) : ST VirtualRegisterAllocator unit :=
  fun a =>
    if (index <? RISCV_REGISTER_BASE) && overflow_checks then Panic
    else
      let virtual_index := as_u8 (index - RISCV_REGISTER_BASE) in
      if virtual_index <? Z.of_nat NUM_VIRTUAL_REGISTERS
      then Ok (tt, mkAllocator (<[Z.to_nat virtual_index := false]> (allocated a)) (pending_clearing_inline a))
      else Ok (tt, a).

(** ** Invariant and properties *)

(** The array has its size and the registers below 32 are never handed out. *)
Definition allocator_ok (a : VirtualRegisterAllocator) : Prop :=
  length (allocated a) = NUM_VIRTUAL_REGISTERS.

(** Register [r] is held by some guard. *)
Definition held (a : VirtualRegisterAllocator) (r : Z) : Prop :=
  allocated a !! Z.to_nat (r - 32) = Some true.

Lemma first_free_spec l : forall i j, first_free l i = Some j ->
  (i <= j < i + length l)%nat /\ l !! (j - i)%nat = Some false /\
  forall k, (i <= k < j)%nat -> l !! (k - i)%nat = Some true.
Proof.
  induction l as [|b l IH]; intros i j; simpl; [done|].
  destruct b.
  - intros (Hj & Hl & Hk)%IH. split; [lia|]. split.
    + replace (j - i)%nat with (S (j - S i)) by lia. done.
    + intros k Hki. destruct (decide (k = i)) as [->|].
      * by rewrite Nat.sub_diag.
      * replace (k - i)%nat with (S (k - S i)) by lia. apply Hk. lia.
  - intros [= <-]. split; [lia|]. rewrite Nat.sub_diag. split; [done|]. lia.
Qed.

Lemma allocate_inv a r a' :
  allocator_ok a -> allocate a = Ok (r, a') ->
  32 <= r < 48 /\ allocated a !! Z.to_nat (r - 32) = Some false /\
  a' = mkAllocator (<[Z.to_nat (r - 32) := true]> (allocated a)) (pending_clearing_inline a).
Proof.
  unfold allocator_ok, allocate, RISCV_REGISTER_BASE, RISCV_REGISTER_COUNT. intros Hok.
  destruct (first_free _ _) as [i|] eqn:E; [|done]. intros [= <- <-].
  apply first_free_spec in E as (Hi & Hl & _).
  rewrite length_firstn in Hi. unfold NUM_VIRTUAL_INSTRUCTION_REGISTERS in *.
  replace (Z.of_nat i + 32 - 32) with (Z.of_nat i) by lia. rewrite Nat2Z.id.
  rewrite Nat.sub_0_r in Hl. split; [lia|]. split; [|done].
  by rewrite lookup_take_lt in Hl by lia.
Qed.

Lemma deallocate_ok `{Build} a r :
  32 <= r < 128 ->
  deallocate r a = Ok (tt, mkAllocator (<[Z.to_nat (r - 32) := false]> (allocated a)) (pending_clearing_inline a)).
Proof.
  intros Hr. unfold deallocate, RISCV_REGISTER_BASE, RISCV_REGISTER_COUNT, NUM_VIRTUAL_REGISTERS.
  zbool.
  replace (as_u8 (r - 32)) with (r - 32) by (unfold as_u8; lia). by zbool.
Qed.
