(* ===== verification/Cpu.v ===== *)
(** * The CPU state, its registers, CSRs and traps ([emulator/cpu.rs])

    [Cpu] carries the fields of the struct except the two that nothing reads
    ([f], [_dump_flag]).  Methods that take [&mut self] are [ST Cpu].  What is
    printed to the host ([info!], [warn!], [print!]) is not part of the state. *)

From Stdlib Require Import ZArith Lia List Bool.
From stdpp Require Import base list gmap.
From S2P Require Import Prelude Words Memory Types Device Mmu Isa Allocator.
Import ListNotations.
Local Open Scope Z_scope.
Local Open Scope rust_scope.

(** [label] holds the bytes read from the guest, before the lossy UTF-8
    conversion of the host string. *)
Record ActiveMarker := mkActiveMarker { label : list Z; start_instrs : Z; start_trace_len : Z }.

Record CallFrame := mkCallFrame {
  call_site : Z; cf_x : zmap Z; cf_operands : NormalizedOperands; cycle_count : Z
}.

Record Cpu := mkCpu {
  clock : Z;
  xlen : Xlen;
  privilege_mode : PrivilegeMode;
  wfi : bool;
  x : zmap Z;
  pc : Z;
  csr : zmap Z;
  mmu : Mmu;
  reservation : Z;
  is_reservation_set : bool;
  unsigned_data_mask : Z;
  trace_len : Z;
  executed_instrs : Z;
  active_markers : gmap Z ActiveMarker;
  vr_allocator : VirtualRegisterAllocator;
  call_stack : list CallFrame
}.

Definition set_clock (v : Z) (c : Cpu) : Cpu :=
  mkCpu v (xlen c) (privilege_mode c) (wfi c) (x c) (pc c) (csr c) (mmu c) (reservation c)
    (is_reservation_set c) (unsigned_data_mask c) (trace_len c) (executed_instrs c)
    (active_markers c) (vr_allocator c) (call_stack c).
Definition set_xlen (v : Xlen) (c : Cpu) : Cpu :=
  mkCpu (clock c) v (privilege_mode c) (wfi c) (x c) (pc c) (csr c) (mmu c) (reservation c)
    (is_reservation_set c) (unsigned_data_mask c) (trace_len c) (executed_instrs c)
    (active_markers c) (vr_allocator c) (call_stack c).
Definition set_privilege_mode (v : PrivilegeMode) (c : Cpu) : Cpu :=
  mkCpu (clock c) (xlen c) v (wfi c) (x c) (pc c) (csr c) (mmu c) (reservation c) (is_reservation_set c)
    (unsigned_data_mask c) (trace_len c) (executed_instrs c) (active_markers c) (vr_allocator c)
    (call_stack c).
Definition set_wfi (v : bool) (c : Cpu) : Cpu :=
  mkCpu (clock c) (xlen c) (privilege_mode c) v (x c) (pc c) (csr c) (mmu c) (reservation c)
    (is_reservation_set c) (unsigned_data_mask c) (trace_len c) (executed_instrs c)
    (active_markers c) (vr_allocator c) (call_stack c).
Definition set_x (v : zmap Z) (c : Cpu) : Cpu :=
  mkCpu (clock c) (xlen c) (privilege_mode c) (wfi c) v (pc c) (csr c) (mmu c) (reservation c)
    (is_reservation_set c) (unsigned_data_mask c) (trace_len c) (executed_instrs c)
    (active_markers c) (vr_allocator c) (call_stack c).
Definition set_pc (v : Z) (c : Cpu) : Cpu :=
  mkCpu (clock c) (xlen c) (privilege_mode c) (wfi c) (x c) v (csr c) (mmu c) (reservation c)
    (is_reservation_set c) (unsigned_data_mask c) (trace_len c) (executed_instrs c)
    (active_markers c) (vr_allocator c) (call_stack c).
Definition set_csr (v : zmap Z) (c : Cpu) : Cpu :=
  mkCpu (clock c) (xlen c) (privilege_mode c) (wfi c) (x c) (pc c) v (mmu c) (reservation c)
    (is_reservation_set c) (unsigned_data_mask c) (trace_len c) (executed_instrs c)
    (active_markers c) (vr_allocator c) (call_stack c).
Definition set_mmu (v : Mmu) (c : Cpu) : Cpu :=
  mkCpu (clock c) (xlen c) (privilege_mode c) (wfi c) (x c) (pc c) (csr c) v (reservation c)
    (is_reservation_set c) (unsigned_data_mask c) (trace_len c) (executed_instrs c)
    (active_markers c) (vr_allocator c) (call_stack c).
Definition set_reservation (v : Z) (c : Cpu) : Cpu :=
  mkCpu (clock c) (xlen c) (privilege_mode c) (wfi c) (x c) (pc c) (csr c) (mmu c) v
    (is_reservation_set c) (unsigned_data_mask c) (trace_len c) (executed_instrs c)
    (active_markers c) (vr_allocator c) (call_stack c).
Definition set_is_reservation_set (v : bool) (c : Cpu) : Cpu :=
  mkCpu (clock c) (xlen c) (privilege_mode c) (wfi c) (x c) (pc c) (csr c) (mmu c) (reservation c) v
    (unsigned_data_mask c) (trace_len c) (executed_instrs c) (active_markers c) (vr_allocator c)
    (call_stack c).
Definition set_unsigned_data_mask (v : Z) (c : Cpu) : Cpu :=
  mkCpu (clock c) (xlen c) (privilege_mode c) (wfi c) (x c) (pc c) (csr c) (mmu c) (reservation c)
    (is_reservation_set c) v (trace_len c) (executed_instrs c) (active_markers c)
    (vr_allocator c) (call_stack c).
Definition set_trace_len (v : Z) (c : Cpu) : Cpu :=
  mkCpu (clock c) (xlen c) (privilege_mode c) (wfi c) (x c) (pc c) (csr c) (mmu c) (reservation c)
    (is_reservation_set c) (unsigned_data_mask c) v (executed_instrs c) (active_markers c)
    (vr_allocator c) (call_stack c).
Definition set_executed_instrs (v : Z) (c : Cpu) : Cpu :=
  mkCpu (clock c) (xlen c) (privilege_mode c) (wfi c) (x c) (pc c) (csr c) (mmu c) (reservation c)
    (is_reservation_set c) (unsigned_data_mask c) (trace_len c) v (active_markers c)
    (vr_allocator c) (call_stack c).
Definition set_active_markers (v : gmap Z ActiveMarker) (c : Cpu) : Cpu :=
  mkCpu (clock c) (xlen c) (privilege_mode c) (wfi c) (x c) (pc c) (csr c) (mmu c) (reservation c)
    (is_reservation_set c) (unsigned_data_mask c) (trace_len c) (executed_instrs c) v
    (vr_allocator c) (call_stack c).
Definition set_vr_allocator (v : VirtualRegisterAllocator) (c : Cpu) : Cpu :=
  mkCpu (clock c) (xlen c) (privilege_mode c) (wfi c) (x c) (pc c) (csr c) (mmu c) (reservation c)
    (is_reservation_set c) (unsigned_data_mask c) (trace_len c) (executed_instrs c)
    (active_markers c) v (call_stack c).
Definition set_call_stack (v : list CallFrame) (c : Cpu) : Cpu :=
  mkCpu (clock c) (xlen c) (privilege_mode c) (wfi c) (x c) (pc c) (csr c) (mmu c) (reservation c)
    (is_reservation_set c) (unsigned_data_mask c) (trace_len c) (executed_instrs c)
    (active_markers c) (vr_allocator c) v.

Definition MAX_CALL_STACK_DEPTH : nat := 32.

Definition JOLT_CYCLE_TRACK_ECALL_NUM : Z := 0xC7C1E.
Definition JOLT_CYCLE_MARKER_START : Z := 1.
Definition JOLT_CYCLE_MARKER_END : Z := 2.
Definition JOLT_PRINT_ECALL_NUM : Z := 0x505249.
Definition JOLT_PRINT_STRING : Z := 1.
Definition JOLT_PRINT_LINE : Z := 2.

Definition CSR_CAPACITY : Z := 4096.
Definition CSR_USTATUS_ADDRESS : Z := 0x000.
Definition CSR_FFLAGS_ADDRESS : Z := 0x001.
Definition CSR_FRM_ADDRESS : Z := 0x002.
Definition CSR_FCSR_ADDRESS : Z := 0x003.
Definition CSR_UIE_ADDRESS : Z := 0x004.
Definition CSR_UTVEC_ADDRESS : Z := 0x005.
Definition CSR_UEPC_ADDRESS : Z := 0x041.
Definition CSR_UCAUSE_ADDRESS : Z := 0x042.
Definition CSR_UTVAL_ADDRESS : Z := 0x043.
Definition CSR_SSTATUS_ADDRESS : Z := 0x100.
Definition CSR_SEDELEG_ADDRESS : Z := 0x102.
Definition CSR_SIDELEG_ADDRESS : Z := 0x103.
Definition CSR_SIE_ADDRESS : Z := 0x104.
Definition CSR_STVEC_ADDRESS : Z := 0x105.
Definition CSR_SEPC_ADDRESS : Z := 0x141.
Definition CSR_SCAUSE_ADDRESS : Z := 0x142.
Definition CSR_STVAL_ADDRESS : Z := 0x143.
Definition CSR_SIP_ADDRESS : Z := 0x144.
Definition CSR_SATP_ADDRESS : Z := 0x180.
Definition CSR_MSTATUS_ADDRESS : Z := 0x300.
Definition CSR_MISA_ADDRESS : Z := 0x301.
Definition CSR_MEDELEG_ADDRESS : Z := 0x302.
Definition CSR_MIDELEG_ADDRESS : Z := 0x303.
Definition CSR_MIE_ADDRESS : Z := 0x304.
Definition CSR_MTVEC_ADDRESS : Z := 0x305.
Definition CSR_MEPC_ADDRESS : Z := 0x341.
Definition CSR_MCAUSE_ADDRESS : Z := 0x342.
Definition CSR_MTVAL_ADDRESS : Z := 0x343.
Definition CSR_MIP_ADDRESS : Z := 0x344.
Definition CSR_CYCLE_ADDRESS : Z := 0xc00.
Definition CSR_TIME_ADDRESS : Z := 0xc01.

Definition MIP_MEIP : Z := 0x800.
Definition MIP_MTIP : Z := 0x080.
Definition MIP_MSIP : Z := 0x008.
Definition MIP_SEIP : Z := 0x200.
Definition MIP_STIP : Z := 0x020.
Definition MIP_SSIP : Z := 0x002.

Definition SSTATUS_MASK : Z := 0x80000003000de162.

(** ** Registers *)

Definition reg_ok (r : Z) : bool := (0 <=? r) && (r <? REGISTER_COUNT).

(** [cpu.x[r]] and [cpu.x[r] = v]: the array has 128 entries. *)
Definition get_x (r : Z) : ST Cpu Z := fun c => if reg_ok r then Ok (x c r, c) else Panic.
Definition put_x (r v : Z) : ST Cpu unit := fun c => if reg_ok r then Ok (tt, set_x (zupd (x c) r v) c) else Panic.

Definition on_mmu {A : Type} (f : ST Mmu A) : ST Cpu A :=
  fun c => match f (mmu c) with
           | Ok (a, m) => Ok (a, set_mmu m c)
           | Panic => Panic
           | OutOfFuel => OutOfFuel
           end.

Definition sign_extend (c : Cpu) (value : Z) : Z :=
  match xlen c with
  | Bit32 => as_i32 value
  | Bit64 => value
  end.

Definition unsigned_data (c : Cpu) (value : Z) : Z := Z.land (as_u64 value) (unsigned_data_mask c).

Definition most_negative (c : Cpu) : Z :=
  match xlen c with
  | Bit32 => i32_MIN
  | Bit64 => i64_MIN
  end.

Definition normalize_u64 (value : Z) (width : Xlen) : Z :=
  match width with
  | Bit32 => as_u32 value
  | Bit64 => value
  end.

Definition update_pc (value : Z) : ST Cpu unit := modify (set_pc value).

Definition update_xlen (xl : Xlen) : ST Cpu unit :=
  modify (fun c =>
    let c := set_xlen xl c in
    let c := set_unsigned_data_mask (match xl with Bit32 => 0xffffffff | Bit64 => 0xffffffffffffffff end) c in
    set_mmu (mmu_update_xlen (mmu c) xl) c).

Definition set_reservation_address (address : Z) : ST Cpu unit :=
  modify (fun c => set_is_reservation_set true (set_reservation address c)).
Definition clear_reservation : ST Cpu unit := modify (set_is_reservation_set false).
Definition has_reservation (c : Cpu) (address : Z) : bool := is_reservation_set c && (reservation c =? address).

Definition read_register `{Build} (reg : Z) : ST Cpu Z :=
  lift (debug_assert (reg <=? 31)) ;;;
  (if reg =? 0 then ret 0 else get_x reg).

(** ** Control and status registers *)

Definition csr_at (c : Cpu) (address : Z) : Res Z :=
  if (0 <=? address) && (address <? CSR_CAPACITY) then Ok (csr c address) else Panic.

Definition read_csr_raw (c : Cpu) (address : Z) : Res Z :=
  if address =? CSR_FFLAGS_ADDRESS then Ok (Z.land (csr c CSR_FCSR_ADDRESS) 0x1f)
  else if address =? CSR_FRM_ADDRESS then Ok (Z.land (Z.shiftr (csr c CSR_FCSR_ADDRESS) 5) 0x7)
  else if address =? CSR_SSTATUS_ADDRESS then Ok (Z.land (csr c CSR_MSTATUS_ADDRESS) SSTATUS_MASK)
  else if address =? CSR_SIE_ADDRESS then Ok (Z.land (csr c CSR_MIE_ADDRESS) 0x222)
  else if address =? CSR_SIP_ADDRESS then Ok (Z.land (csr c CSR_MIP_ADDRESS) 0x222)
  else if address =? CSR_TIME_ADDRESS then Panic
  else csr_at c address.

(** [self.csr[a] = v] for an address below the capacity. *)
Definition csr_put (a v : Z) (c : Cpu) : Cpu := set_csr (zupd (csr c) a v) c.

(** [self.csr[a] &= !mask; self.csr[a] |= value & mask] *)
Definition csr_merge (a mask value : Z) (c : Cpu) : Cpu :=
  csr_put a (Z.lor (Z.land (csr c a) (not_u64 mask)) (Z.land value mask)) c.

(** [self.mmu.update_mstatus(self.read_csr_raw(CSR_MSTATUS_ADDRESS))] *)
Definition sync_mstatus (c : Cpu) : Cpu := set_mmu (update_mstatus (mmu c) (csr c CSR_MSTATUS_ADDRESS)) c.

Definition write_csr_raw (address value : Z) : ST Cpu unit :=
  fun c =>
    if address =? CSR_FFLAGS_ADDRESS then Ok (tt, csr_merge CSR_FCSR_ADDRESS 0x1f value c)
    else if address =? CSR_FRM_ADDRESS then Ok (tt, csr_merge CSR_FCSR_ADDRESS 0xe0 (as_u64 (Z.shiftl value 5)) c)
    else if address =? CSR_SSTATUS_ADDRESS then Ok (tt, sync_mstatus (csr_merge CSR_MSTATUS_ADDRESS SSTATUS_MASK value c))
    else if address =? CSR_SIE_ADDRESS then Ok (tt, csr_merge CSR_MIE_ADDRESS 0x222 value c)
    else if address =? CSR_SIP_ADDRESS then Ok (tt, csr_merge CSR_MIP_ADDRESS 0x222 value c)
    else if address =? CSR_MIDELEG_ADDRESS then Ok (tt, csr_put address (Z.land value 0x666) c)
    else if address =? CSR_MSTATUS_ADDRESS then Ok (tt, sync_mstatus (csr_put address value c))
    else if address =? CSR_TIME_ADDRESS then Panic
    else if (0 <=? address) && (address <? CSR_CAPACITY) then Ok (tt, csr_put address value c)
    else Panic.

(** The read of a CSR inside a state-passing method. *)
Definition get_csr (address : Z) : ST Cpu Z := fun c => lift (read_csr_raw c address) c.

Definition has_csr_access_privilege (c : Cpu) (address : Z) : Res bool :=
  let? e := get_privilege_encoding (privilege_mode c) in
  Ok (Z.land (Z.shiftr address 8) 0x3 <=? e).

Definition read_csr (address : Z) : ST Cpu (Result Z Trap) :=
  ok <-- (fun c => lift (has_csr_access_privilege c address) c) ;;
  if ok : bool then v <-- get_csr address ;; ret (ROk v)
  else p <-- gets pc ;; ret (RErr (mkTrap IllegalInstruction (as_u64 (p - 4)))).

Definition update_addressing_mode (value : Z) : ST Cpu unit :=
  xl <-- gets xlen ;;
  addressing_mode <-- lift (match xl with
                            | Bit32 => if Z.land value 0x80000000 =? 0 then Ok AM_None else Ok SV32
                            | Bit64 => match Z.shiftr value 60 with
                                       | 0 => Ok AM_None
                                       | 8 => Ok SV39
                                       | 9 => Ok SV48
                                       | _ => Panic
                                       end
                            end) ;;
  let ppn := match xl with
             | Bit32 => Z.land value 0x3fffff
             | Bit64 => Z.land value 0xfffffffffff
             end in
  modify (fun c => set_mmu (update_ppn (mmu_update_addressing_mode (mmu c) addressing_mode) ppn) c).

Definition write_csr (address value : Z) : ST Cpu (Result unit Trap) :=
  ok <-- (fun c => lift (has_csr_access_privilege c address) c) ;;
  if ok : bool then
    write_csr_raw address value ;;;
    (if address =? CSR_SATP_ADDRESS then update_addressing_mode value else ret tt) ;;;
    ret (ROk tt)
  else p <-- gets pc ;; ret (RErr (mkTrap IllegalInstruction (as_u64 (p - 4)))).

Definition Cpu_new : Res Cpu :=
  let c := {| clock := 0; xlen := Bit64; privilege_mode := Machine; wfi := false; x := fun _ => 0;
              pc := 0; csr := fun _ => 0; mmu := Mmu_new Bit64; reservation := 0;
              is_reservation_set := false; unsigned_data_mask := 0xffffffffffffffff; trace_len := 0;
              executed_instrs := 0; active_markers := empty; vr_allocator := VirtualRegisterAllocator_new;
              call_stack := [] |} in
  let? r := write_csr_raw CSR_MISA_ADDRESS 0x800000008014312f c in
  Ok (snd r).

Section CpuOps.
Context `{Build}.

(** ** Guest strings, cycle markers and prints *)

(** [read_string]: [len] bytes from [addr]; [addr += 1] is on [u32]. *)
Fixpoint read_string (n : nat) (addr : Z) (bytes : list Z) : ST Cpu (Result (list Z) Trap) :=
  match n with
  | O => ret (ROk bytes)
  | S n' =>
      r <-- on_mmu (load addr) ;;
      match r with
      | ROk (b, _) =>
          addr' <-- lift (if overflow_checks && negb (addr + 1 <? 4294967296) then Panic else Ok (as_u32 (addr + 1))) ;;
          read_string n' addr' (bytes ++ [b])
      | RErr e => ret (RErr e)
      end
  end.

Definition handle_jolt_cycle_marker (ptr len event : Z) : ST Cpu (Result unit Trap) :=
  if event =? JOLT_CYCLE_MARKER_START then
    r <-- read_string (Z.to_nat len) ptr [] ;;
    match r with
    | RErr e => ret (RErr e)
    | ROk label =>
        modify (fun c => set_active_markers
                           (<[ptr := mkActiveMarker label (executed_instrs c) (trace_len c)]> (active_markers c)) c) ;;;
        ret (ROk tt)
    end
  else if event =? JOLT_CYCLE_MARKER_END then
    m <-- gets (fun c => active_markers c !! ptr) ;;
    match m with
    | Some mark =>
        modify (fun c => set_active_markers (delete ptr (active_markers c)) c) ;;;
        _real <-- (fun c => lift (sub_u64 (executed_instrs c) (start_instrs mark)) c) ;;
        _virt <-- (fun c => lift (sub_u64 (trace_len c) (start_trace_len mark)) c) ;;
        ret (ROk tt)
    | None => ret (ROk tt)
    end
  else panic.

Definition handle_jolt_print (ptr len event_type : Z) : ST Cpu (Result unit Trap) :=
  r <-- read_string (Z.to_nat len) ptr [] ;;
  match r with
  | RErr e => ret (RErr e)
  | ROk _ =>
      if (event_type =? JOLT_PRINT_STRING) || (event_type =? JOLT_PRINT_LINE) then ret (ROk tt) else panic
  end.

(** ** Traps *)

Definition is_ecall (t : TrapType) : bool :=
  match t with
  | EnvironmentCallFromUMode | EnvironmentCallFromSMode | EnvironmentCallFromMMode => true
  | _ => false
  end.

(** CSR addresses of the mode that takes the trap: epc, cause, tval, tvec. *)
Definition trap_csrs (mode : PrivilegeMode) : Res (Z * Z * Z * Z) :=
  match mode with
  | Machine => Ok (CSR_MEPC_ADDRESS, CSR_MCAUSE_ADDRESS, CSR_MTVAL_ADDRESS, CSR_MTVEC_ADDRESS)
  | Supervisor => Ok (CSR_SEPC_ADDRESS, CSR_SCAUSE_ADDRESS, CSR_STVAL_ADDRESS, CSR_STVEC_ADDRESS)
  | User => Ok (CSR_UEPC_ADDRESS, CSR_UCAUSE_ADDRESS, CSR_UTVAL_ADDRESS, CSR_UTVEC_ADDRESS)
  | Reserved => Panic
  end.

Definition bit_of (v n : Z) : Z := Z.land (Z.shiftr v n) 1.

(** Whether interrupt [t] is masked by the [xie] register [ie]. *)
Definition interrupt_masked (t : TrapType) (ie : Z) : bool :=
  match t with
  | UserSoftwareInterrupt => bit_of ie 0 =? 0
  | SupervisorSoftwareInterrupt => bit_of ie 1 =? 0
  | MachineSoftwareInterrupt => bit_of ie 3 =? 0
  | UserTimerInterrupt => bit_of ie 4 =? 0
  | SupervisorTimerInterrupt => bit_of ie 5 =? 0
  | MachineTimerInterrupt => bit_of ie 7 =? 0
  | UserExternalInterrupt => bit_of ie 8 =? 0
  | SupervisorExternalInterrupt => bit_of ie 9 =? 0
  | MachineExternalInterrupt => bit_of ie 11 =? 0
  | _ => false
  end.

(** The first half of [handle_trap]: which mode takes the trap, and whether an
    interrupt is enabled. *)
Definition trap_target (trap : Trap) (is_interrupt : bool) (c : Cpu) : Res (PrivilegeMode * bool) :=
  let? current_privilege_encoding := get_privilege_encoding (privilege_mode c) in
  let cause := get_trap_cause trap (xlen c) in
  let? mdeleg := read_csr_raw c (if is_interrupt then CSR_MIDELEG_ADDRESS else CSR_MEDELEG_ADDRESS) in
  let? sdeleg := read_csr_raw c (if is_interrupt then CSR_SIDELEG_ADDRESS else CSR_SEDELEG_ADDRESS) in
  let pos := Z.land cause 0xffff in
  let new_privilege_mode := if Z.land (Z.shiftr mdeleg pos) 1 =? 0 then Machine
                            else if Z.land (Z.shiftr sdeleg pos) 1 =? 0 then Supervisor
                            else User in
  let? new_privilege_encoding := get_privilege_encoding new_privilege_mode in
  let? current_status := match privilege_mode c with
                         | Machine => read_csr_raw c CSR_MSTATUS_ADDRESS
                         | Supervisor => read_csr_raw c CSR_SSTATUS_ADDRESS
                         | User => read_csr_raw c CSR_USTATUS_ADDRESS
                         | Reserved => Panic
                         end in
  if is_interrupt then
    let? ie := match new_privilege_mode with
               | Machine => read_csr_raw c CSR_MIE_ADDRESS
               | Supervisor => read_csr_raw c CSR_SIE_ADDRESS
               | User => read_csr_raw c CSR_UIE_ADDRESS
               | Reserved => Panic
               end in
    if new_privilege_encoding <? current_privilege_encoding then Ok (new_privilege_mode, false)
    else
      let? disabled :=
        (if current_privilege_encoding =? new_privilege_encoding then
           match privilege_mode c with
           | Machine => Ok (bit_of current_status 3 =? 0)
           | Supervisor => Ok (bit_of current_status 1 =? 0)
           | User => Ok (bit_of current_status 0 =? 0)
           | Reserved => Panic
           end
         else Ok false) in
      if (disabled : bool) then Ok (new_privilege_mode, false)
      else Ok (new_privilege_mode, negb (interrupt_masked (trap_type trap) ie))
  else Ok (new_privilege_mode, true).

(** The second half of [handle_trap]: the trap is taken in mode [mode]. *)
Definition take_trap (trap : Trap) (instruction_address current_privilege_encoding : Z) (mode : PrivilegeMode)
    : ST Cpu bool :=
  cause <-- gets (fun c => get_trap_cause trap (xlen c)) ;;
  modify (set_privilege_mode mode) ;;;
  modify (fun c => set_mmu (update_privilege_mode (mmu c) mode) c) ;;;
  a <-- lift (trap_csrs mode) ;;
  let '(csr_epc_address, csr_cause_address, csr_tval_address, csr_tvec_address) := a in
  write_csr_raw csr_epc_address instruction_address ;;;
  write_csr_raw csr_cause_address cause ;;;
  write_csr_raw csr_tval_address (trap_value trap) ;;;
  tvec <-- get_csr csr_tvec_address ;;
  modify (set_pc tvec) ;;;
  (if negb (Z.land tvec 0x3 =? 0) then
     p <-- lift (add_u64 (Z.land tvec (not_u64 0x3)) (4 * Z.land cause 0xffff)) ;;
     modify (set_pc p)
   else ret tt) ;;;
  match mode with
  | Machine =>
      status <-- get_csr CSR_MSTATUS_ADDRESS ;;
      let mie := bit_of status 3 in
      let new_status := Z.lor (Z.lor (Z.land status (not_u64 0x1888)) (Z.shiftl mie 7))
                          (Z.shiftl current_privilege_encoding 11) in
      write_csr_raw CSR_MSTATUS_ADDRESS new_status ;;; ret true
  | Supervisor =>
      status <-- get_csr CSR_SSTATUS_ADDRESS ;;
      let sie := bit_of status 1 in
      let new_status := Z.lor (Z.lor (Z.land status (not_u64 0x122)) (Z.shiftl sie 5))
                          (Z.shiftl (Z.land current_privilege_encoding 1) 8) in
      write_csr_raw CSR_SSTATUS_ADDRESS new_status ;;; ret true
  | User | Reserved => panic
  end.

(** The Jolt environment calls, recognised by [a0]; [None] when the call is an
    ordinary one. *)
Definition jolt_ecall : ST Cpu (option bool) :=
  a0 <-- get_x 10 ;; a1 <-- get_x 11 ;; a2 <-- get_x 12 ;; a3 <-- get_x 13 ;;
  let call_id := as_u32 a0 in
  if call_id =? JOLT_CYCLE_TRACK_ECALL_NUM then
    handle_jolt_cycle_marker (as_u32 a1) (as_u32 a2) (as_u32 a3) ;;; ret (Some false)
  else if call_id =? JOLT_PRINT_ECALL_NUM then
    handle_jolt_print (as_u32 a1) (as_u32 a2) (as_u8 (as_u32 a3)) ;;; ret (Some false)
  else ret None.

Definition handle_trap (trap : Trap) (instruction_address : Z) (is_interrupt : bool) : ST Cpu bool :=
  j <-- (if negb is_interrupt && is_ecall (trap_type trap) then jolt_ecall else ret None) ;;
  match j with
  | Some taken => ret taken
  | None =>
      current_privilege_encoding <-- (fun c => lift (get_privilege_encoding (privilege_mode c)) c) ;;
      t <-- (fun c => lift (trap_target trap is_interrupt c) c) ;;
      let '(new_privilege_mode, enabled) := t in
      if enabled : bool then take_trap trap instruction_address current_privilege_encoding new_privilege_mode
      else ret false
  end.

Definition raise_trap (trap : Trap) (faulting_pc : Z) : ST Cpu unit :=
  handle_trap trap faulting_pc false ;;; ret tt.

Definition handle_exception (exception : Trap) (instruction_address : Z) : ST Cpu unit :=
  handle_trap exception instruction_address false ;;; ret tt.

(** [handle_interrupt]: the pending interrupts in order of priority; the first
    one taken clears its bit of [mip] and wakes the core. *)
Fixpoint handle_interrupts (l : list (Z * TrapType)) (minterrupt instruction_address : Z) : ST Cpu unit :=
  match l with
  | [] => ret tt
  | (mask, t) :: rest =>
      taken <-- (if negb (Z.land minterrupt mask =? 0) then
                   p <-- gets pc ;; handle_trap (mkTrap t p) instruction_address true
                 else ret false) ;;
      if taken : bool then
        mip <-- get_csr CSR_MIP_ADDRESS ;;
        write_csr_raw CSR_MIP_ADDRESS (Z.land mip (not_u64 mask)) ;;;
        modify (set_wfi false)
      else handle_interrupts rest minterrupt instruction_address
  end.

Definition interrupt_order : list (Z * TrapType) :=
  [(MIP_MEIP, MachineExternalInterrupt); (MIP_MSIP, MachineSoftwareInterrupt);
   (MIP_MTIP, MachineTimerInterrupt); (MIP_SEIP, SupervisorExternalInterrupt);
   (MIP_SSIP, SupervisorSoftwareInterrupt); (MIP_STIP, SupervisorTimerInterrupt)].

Definition handle_interrupt (instruction_address : Z) : ST Cpu unit :=
  mip <-- get_csr CSR_MIP_ADDRESS ;;
  mie <-- get_csr CSR_MIE_ADDRESS ;;
  handle_interrupts interrupt_order (Z.land mip mie) instruction_address.

(** ** Fetch and call tracking *)

Definition cpu_fetch : ST Cpu (Result Z Trap) :=
  p <-- gets pc ;;
  r <-- on_mmu (fetch_word p) ;;
  match r with
  | ROk word => ret (ROk word)
  | RErr e => modify (fun c => set_pc (as_u64 (pc c + 4)) c) ;;; ret (RErr e)
  end.

Definition track_call (return_address : Z) (ops : NormalizedOperands) : ST Cpu unit :=
  modify (fun c =>
    let stack := if Nat.leb MAX_CALL_STACK_DEPTH (length (call_stack c)) then tail (call_stack c) else call_stack c in
    set_call_stack (stack ++ [mkCallFrame return_address (x c) ops (trace_len c)]) c).

End CpuOps.
