(* ===== verification/Exec.v ===== *)
(** * Execution of instructions ([instruction/*.rs], the [exec] methods)

    One definition per instruction, named [<NAME>_exec], and the dispatch
    [execute] of [Instruction::execute].  An [exec] that writes one register
    from its source registers is given by the function it computes
    ([rr_exec], [ri_exec]); the others are written out.  An [exec] that touches
    memory returns the access record it leaves in [ram_access]. *)

From Stdlib Require Import ZArith Lia List Bool.
From stdpp Require Import base list.
From S2P Require Import Prelude Words Types Mmu Isa Cpu.
Import ListNotations.
Local Open Scope Z_scope.
Local Open Scope rust_scope.

(** Pure access to the state with the possibility of a panic. *)
Definition asks {A : Type} (f : Cpu -> Res A) : ST Cpu A := fun c => lift (f c) c.

(** [cpu.x[rd] = f(cpu, cpu.x[rs1], cpu.x[rs2])] *)
Definition rr_exec (f : Cpu -> Z -> Z -> Res Z) (i : Instr FormatR) : ST Cpu unit :=
  a <-- get_x (r_rs1 (operands i)) ;;
  b <-- get_x (r_rs2 (operands i)) ;;
  v <-- asks (fun c => f c a b) ;;
  put_x (r_rd (operands i)) v.

(** [cpu.x[rd] = f(cpu, cpu.x[rs1], imm)] *)
Definition ri_exec (f : Cpu -> Z -> Z -> Res Z) (i : Instr FormatI) : ST Cpu unit :=
  a <-- get_x (i_rs1 (operands i)) ;;
  v <-- asks (fun c => f c a (i_imm (operands i))) ;;
  put_x (i_rd (operands i)) v.

Definition bool_i64 (b : bool) : Z := if b then 1 else 0.

(** The shift mask of the current register width. *)
Definition shift_mask (c : Cpu) : Z :=
  match xlen c with
  | Bit32 => 0x1f
  | Bit64 => 0x3f
  end.

Section Exec.
Context `{Build}.

(** ** Register-register arithmetic *)

Definition ADD_exec := rr_exec (fun c a b => Ok (sign_extend c (as_i64 (a + b)))).
Definition SUB_exec := rr_exec (fun c a b => Ok (sign_extend c (as_i64 (a - b)))).
Definition AND_exec := rr_exec (fun c a b => Ok (sign_extend c (Z.land a b))).
Definition ANDN_exec := rr_exec (fun c a b => Ok (sign_extend c (Z.land a (Z.lnot b)))).
Definition OR_exec := rr_exec (fun c a b => Ok (sign_extend c (Z.lor a b))).
Definition XOR_exec := rr_exec (fun c a b => Ok (sign_extend c (Z.lxor a b))).
Definition SLT_exec := rr_exec (fun c a b => Ok (bool_i64 (a <? b))).
Definition SLTU_exec := rr_exec (fun c a b => Ok (bool_i64 (unsigned_data c a <? unsigned_data c b))).

Definition SLL_exec := rr_exec (fun c a b =>
  Ok (sign_extend c (wrapping_shl_i64 a (Z.land (as_u32 b) (shift_mask c))))).
Definition SRL_exec := rr_exec (fun c a b =>
  Ok (sign_extend c (as_i64 (wrapping_shr_u64 (unsigned_data c a) (Z.land (as_u32 b) (shift_mask c)))))).
Definition SRA_exec := rr_exec (fun c a b =>
  Ok (sign_extend c (wrapping_shr_i64 a (Z.land (as_u32 b) (shift_mask c))))).

Definition MUL_exec := rr_exec (fun c a b => Ok (sign_extend c (as_i64 (a * b)))).

(** The [i128] product of two [i64] values does not overflow; the [i64] product
    of the 32-bit branch is a checked multiplication. *)
Definition MULH_exec := rr_exec (fun c a b =>
  match xlen c with
  | Bit32 => let? p := arith_i64 (a * b) in Ok (sign_extend c (Z.shiftr p 32))
  | Bit64 => Ok (as_i64 (Z.shiftr (a * b) 64))
  end).

Definition MULHU_exec := rr_exec (fun c a b =>
  match xlen c with
  | Bit32 => Ok (sign_extend c (as_i64 (Z.shiftr (as_u32 a * as_u32 b) 32)))
  | Bit64 => Ok (as_i64 (Z.shiftr (as_u128 (as_u64 a * as_u64 b)) 64))
  end).

Definition MULHSU_exec := rr_exec (fun c a b =>
  match xlen c with
  | Bit32 => Ok (sign_extend c (Z.shiftr (as_i64 (a * as_u32 b)) 32))
  | Bit64 => Ok (as_i64 (Z.shiftr (as_u128 (as_u128 a * as_u64 b)) 64))
  end).

Definition DIV_exec := rr_exec (fun c dividend divisor =>
  if divisor =? 0 then Ok (-1)
  else if (dividend =? most_negative c) && (divisor =? -1) then Ok dividend
  else let? q := wrapping_div_i64 dividend divisor in Ok (sign_extend c q)).

Definition DIVU_exec := rr_exec (fun c a b =>
  let dividend := unsigned_data c a in
  let divisor := unsigned_data c b in
  if divisor =? 0 then Ok (-1)
  else let? q := wrapping_div_u64 dividend divisor in Ok (sign_extend c (as_i64 q))).

Definition REM_exec := rr_exec (fun c dividend divisor =>
  if divisor =? 0 then Ok dividend
  else if (dividend =? most_negative c) && (divisor =? -1) then Ok 0
  else let? r := wrapping_rem_i64 dividend divisor in Ok (sign_extend c r)).

Definition REMU_exec := rr_exec (fun c a b =>
  let dividend := unsigned_data c a in
  let divisor := unsigned_data c b in
  if divisor =? 0 then Ok (sign_extend c (as_i64 dividend))
  else let? r := wrapping_rem_u64 dividend divisor in Ok (sign_extend c (as_i64 r))).

(** ** Word arithmetic of the 64-bit machine *)

Definition ADDW_exec := rr_exec (fun _ a b => Ok (as_i32 (as_i64 (a + b)))).
Definition SUBW_exec := rr_exec (fun _ a b => Ok (as_i32 (as_i64 (a - b)))).
Definition MULW_exec := rr_exec (fun _ a b => Ok (as_i32 (as_i32 a * as_i32 b))).

Definition SLLW_exec := rr_exec (fun _ a b =>
  Ok (as_i32 (as_u32 (Z.shiftl (as_u32 a) (as_u32 (Z.land b 0x1f)))))).
Definition SRLW_exec := rr_exec (fun _ a b =>
  Ok (as_i32 (Z.shiftr (as_u32 a) (as_u32 (Z.land b 0x1f))))).
Definition SRAW_exec := rr_exec (fun _ a b =>
  Ok (Z.shiftr (as_i32 a) (as_u32 (Z.land b 0x1f)))).

Definition DIVW_exec := rr_exec (fun _ a b =>
  let dividend := as_i32 a in
  let divisor := as_i32 b in
  if divisor =? 0 then Ok (-1)
  else if (dividend =? i32_MIN) && (divisor =? -1) then Ok dividend
  else Ok (as_i32 (Z.quot dividend divisor))).

Definition DIVUW_exec := rr_exec (fun _ a b =>
  let dividend := as_u32 a in
  let divisor := as_u32 b in
  Ok (as_i32 (if divisor =? 0 then u32_MAX else dividend / divisor))).

Definition REMW_exec := rr_exec (fun _ a b =>
  let dividend := as_i32 a in
  let divisor := as_i32 b in
  if divisor =? 0 then Ok dividend
  else if (dividend =? i32_MIN) && (divisor =? -1) then Ok 0
  else Ok (as_i32 (Z.rem dividend divisor))).

Definition REMUW_exec := rr_exec (fun _ a b =>
  let dividend := as_u32 a in
  let divisor := as_u32 b in
  Ok (as_i32 (if divisor =? 0 then dividend else dividend mod divisor))).

(** ** Register-immediate arithmetic *)

Definition ADDI_exec := ri_exec (fun c a imm => Ok (sign_extend c (as_i64 (a + normalize_imm imm (xlen c))))).
Definition ANDI_exec := ri_exec (fun c a imm => Ok (sign_extend c (Z.land a (normalize_imm imm (xlen c))))).
Definition ORI_exec := ri_exec (fun c a imm => Ok (sign_extend c (Z.lor a (normalize_imm imm (xlen c))))).
Definition XORI_exec := ri_exec (fun c a imm => Ok (sign_extend c (Z.lxor a (normalize_imm imm (xlen c))))).
Definition SLTI_exec := ri_exec (fun c a imm => Ok (bool_i64 (a <? normalize_imm imm (xlen c)))).
Definition SLTIU_exec := ri_exec (fun c a imm =>
  Ok (bool_i64 (unsigned_data c a <? unsigned_data c (normalize_imm imm (xlen c))))).

Definition SLLI_exec := ri_exec (fun c a imm =>
  Ok (sign_extend c (wrapping_shl_i64 a (Z.land (as_u32 imm) (shift_mask c))))).
Definition SRLI_exec := ri_exec (fun c a imm =>
  Ok (sign_extend c (as_i64 (wrapping_shr_u64 (unsigned_data c a) (Z.land (as_u32 imm) (shift_mask c)))))).
Definition SRAI_exec := ri_exec (fun c a imm =>
  Ok (sign_extend c (wrapping_shr_i64 a (Z.land (as_u32 imm) (shift_mask c))))).

Definition ADDIW_exec := ri_exec (fun c a imm => Ok (as_i32 (as_i64 (a + normalize_imm imm (xlen c))))).
Definition SLLIW_exec := ri_exec (fun _ a imm =>
  Ok (as_i32 (as_u32 (Z.shiftl (as_u32 a) (as_u32 (Z.land imm 0x1f)))))).
Definition SRLIW_exec := ri_exec (fun _ a imm =>
  Ok (as_i32 (Z.shiftr (as_u32 a) (as_u32 (Z.land imm 0x1f))))).
Definition SRAIW_exec := ri_exec (fun _ a imm =>
  Ok (Z.shiftr (as_i32 a) (as_u32 (Z.land imm 0x1f)))).

Definition LUI_exec (i : Instr FormatU) : ST Cpu unit :=
  v <-- gets (fun c => normalize_imm (u_imm (operands i)) (xlen c)) ;;
  put_x (u_rd (operands i)) v.

Definition AUIPC_exec (i : Instr FormatU) : ST Cpu unit :=
  v <-- asks (fun c => let? s := arith_i64 (as_i64 (address i) + normalize_imm (u_imm (operands i)) (xlen c)) in
                       Ok (sign_extend c s)) ;;
  put_x (u_rd (operands i)) v.

(** ** Control flow *)

(** A conditional branch: [taken] compares the source registers. *)
Definition branch_exec (taken : Cpu -> Z -> Z -> bool) (i : Instr FormatB) : ST Cpu unit :=
  a <-- get_x (b_rs1 (operands i)) ;;
  b <-- get_x (b_rs2 (operands i)) ;;
  t <-- gets (fun c => taken c a b) ;;
  if t : bool then
    target <-- lift (arith_i64 (as_i64 (address i) + as_i64 (b_imm (operands i)))) ;;
    modify (set_pc (as_u64 target))
  else ret tt.

Definition BEQ_exec := branch_exec (fun c a b => sign_extend c a =? sign_extend c b).
Definition BNE_exec := branch_exec (fun c a b => negb (sign_extend c a =? sign_extend c b)).
Definition BLT_exec := branch_exec (fun c a b => sign_extend c a <? sign_extend c b).
Definition BGE_exec := branch_exec (fun c a b => sign_extend c a >=? sign_extend c b).
Definition BLTU_exec := branch_exec (fun c a b => unsigned_data c a <? unsigned_data c b).
Definition BGEU_exec := branch_exec (fun c a b => unsigned_data c a >=? unsigned_data c b).

Definition JAL_exec (i : Instr FormatJ) : ST Cpu unit :=
  let o := operands i in
  (if negb (j_rd o =? 0) then
     (if j_rd o =? 1 then track_call (address i) (to_normalized o) else ret tt) ;;;
     v <-- gets (fun c => sign_extend c (as_i64 (pc c))) ;;
     put_x (j_rd o) v
   else ret tt) ;;;
  target <-- asks (fun c => arith_i64 (as_i64 (address i) + normalize_imm (j_imm o) (xlen c))) ;;
  modify (set_pc (as_u64 target)).

Definition JALR_exec (i : Instr FormatI) : ST Cpu unit :=
  let o := operands i in
  tmp <-- gets (fun c => sign_extend c (as_i64 (pc c))) ;;
  a <-- get_x (i_rs1 o) ;;
  modify (set_pc (Z.land (as_u64 (as_u64 a + as_u64 (as_i32 (i_imm o)))) (as_u64 (Z.lnot 1)))) ;;;
  if negb (i_rd o =? 0) then
    (if i_rd o =? 1 then track_call (address i) (to_normalized o) else ret tt) ;;;
    put_x (i_rd o) tmp
  else ret tt.

Definition ECALL_exec (i : Instr FormatI) : ST Cpu unit :=
  mode <-- gets privilege_mode ;;
  let trap_type := match mode with
                   | User => EnvironmentCallFromUMode
                   | Supervisor => EnvironmentCallFromSMode
                   | Machine | Reserved => EnvironmentCallFromMMode
                   end in
  raise_trap (mkTrap trap_type 0) (address i).

Definition FENCE_exec (_ : Instr FormatI) : ST Cpu unit := ret tt.

(** ** Memory *)

(** The value of an access, or [panic!("MMU load error")]. *)
Definition expect {A : Type} (m : ST Mmu (Result A Trap)) : ST Cpu A :=
  r <-- on_mmu m ;;
  match r with
  | ROk v => ret v
  | RErr _ => panic
  end.

(** A load at [x[rs1].wrapping_add(imm) as u64]; [extend] widens the loaded
    value. *)
Definition load_exec (access : Z -> ST Mmu (Result (Z * RAMRead) Trap)) (extend : Z -> Z)
    (i : Instr FormatLoad) : ST Cpu RAMRead :=
  a <-- get_x (l_rs1 (operands i)) ;;
  r <-- expect (access (as_u64 (as_i64 (a + l_imm (operands i))))) ;;
  let '(v, memory_read) := r in
  put_x (l_rd (operands i)) (extend v) ;;; ret memory_read.

Definition LB_exec := load_exec load as_i8.
Definition LBU_exec := load_exec load (fun b => b).
Definition LH_exec := load_exec load_halfword as_i16.
Definition LHU_exec := load_exec load_halfword (fun h => h).
Definition LW_exec := load_exec load_word as_i32.
Definition LWU_exec := load_exec load_word (fun w => w).

Definition LD_exec (i : Instr FormatLoad) : ST Cpu RAMRead :=
  a <-- get_x (l_rs1 (operands i)) ;;
  r <-- expect (load_doubleword (as_u64 (as_u64 a + as_u64 (as_i32 (l_imm (operands i)))))) ;;
  let '(v, memory_read) := r in
  put_x (l_rd (operands i)) (as_i64 v) ;;; ret memory_read.

Definition VirtualLW_exec (i : Instr FormatI) : ST Cpu RAMRead :=
  xl <-- gets xlen ;;
  assert_that (bool_decide (xl = Bit32)) ;;;
  a <-- get_x (i_rs1 (operands i)) ;;
  r <-- expect (load_word (as_u64 (as_u64 a + as_u64 (as_i32 (i_imm (operands i)))))) ;;
  let '(v, memory_read) := r in
  put_x (i_rd (operands i)) (as_i32 v) ;;; ret memory_read.

(** A store at [x[rs1].wrapping_add(imm) as u64] of [x[rs2]] narrowed by
    [narrow]. *)
Definition store_exec (access : Z -> Z -> ST Mmu (Result RAMWrite Trap)) (narrow : Z -> Z)
    (i : Instr FormatS) : ST Cpu RAMWrite :=
  a <-- get_x (s_rs1 (operands i)) ;;
  v <-- get_x (s_rs2 (operands i)) ;;
  expect (access (as_u64 (as_i64 (a + s_imm (operands i)))) (narrow v)).

Definition SB_exec := store_exec store as_u8.
Definition SH_exec := store_exec store_halfword as_u16.
Definition SW_exec := store_exec store_word as_u32.
Definition SD_exec := store_exec store_doubleword as_u64.

Definition VirtualSW_exec (i : Instr FormatS) : ST Cpu RAMWrite :=
  xl <-- gets xlen ;;
  assert_that (bool_decide (xl = Bit32)) ;;;
  store_exec store_word as_u32 i.

(** ** Load-reserved and store-conditional *)

Definition lr_exec (access : Z -> ST Mmu (Result (Z * RAMRead) Trap)) (extend : Z -> Z)
    (i : Instr FormatR) : ST Cpu RAMRead :=
  a <-- get_x (r_rs1 (operands i)) ;;
  let addr := as_u64 a in
  r <-- expect (access addr) ;;
  let '(v, memory_read) := r in
  set_reservation_address addr ;;;
  put_x (r_rd (operands i)) (extend v) ;;; ret memory_read.

Definition LRD_exec := lr_exec load_doubleword as_i64.
Definition LRW_exec := lr_exec load_word as_i32.

Definition sc_exec (access : Z -> Z -> ST Mmu (Result RAMWrite Trap)) (narrow : Z -> Z)
    (i : Instr FormatR) : ST Cpu RAMWrite :=
  a <-- get_x (r_rs1 (operands i)) ;;
  v <-- get_x (r_rs2 (operands i)) ;;
  let addr := as_u64 a in
  reserved <-- gets (fun c => has_reservation c addr) ;;
  if reserved : bool then
    memory_write <-- expect (access addr (narrow v)) ;;
    clear_reservation ;;;
    put_x (r_rd (operands i)) 0 ;;; ret memory_write
  else put_x (r_rd (operands i)) 1 ;;; ret RAMWrite_default.

Definition SCD_exec := sc_exec store_doubleword as_u64.
Definition SCW_exec := sc_exec store_word as_u32.

(** ** Atomic memory operations

    [amo_d new] loads the doubleword at [x[rs1]] as [i64], stores
    [new original x[rs2]] (a [u64]) and returns the original in [rd]. *)
Definition amo_d (new : Z -> Z -> Z) (i : Instr FormatR) : ST Cpu unit :=
  a <-- get_x (r_rs1 (operands i)) ;;
  v <-- get_x (r_rs2 (operands i)) ;;
  r <-- expect (load_doubleword (as_u64 a)) ;;
  let original_value := as_i64 (fst r) in
  expect (store_doubleword (as_u64 a) (new original_value v)) ;;;
  put_x (r_rd (operands i)) original_value.

Definition AMOSWAPD_exec := amo_d (fun _ v => as_u64 v).
Definition AMOADDD_exec := amo_d (fun o v => as_u64 (as_i64 (o + v))).
Definition AMOANDD_exec := amo_d (fun o v => Z.land (as_u64 o) (as_u64 v)).
Definition AMOORD_exec := amo_d (fun o v => Z.lor (as_u64 o) (as_u64 v)).
Definition AMOXORD_exec := amo_d (fun o v => Z.lxor (as_u64 o) (as_u64 v)).
Definition AMOMIND_exec := amo_d (fun o v => as_u64 (if o <=? v then o else v)).
Definition AMOMAXD_exec := amo_d (fun o v => as_u64 (if o >=? v then o else v)).
Definition AMOMINUD_exec := amo_d (fun o v => if as_u64 o <=? as_u64 v then as_u64 o else as_u64 v).
Definition AMOMAXUD_exec := amo_d (fun o v => if as_u64 o >=? as_u64 v then as_u64 o else as_u64 v).

(** The word forms: the original is the sign-extended word, [new] gives the
    [u32] stored. *)
Definition amo_w (new : Z -> Z -> Z) (i : Instr FormatR) : ST Cpu unit :=
  a <-- get_x (r_rs1 (operands i)) ;;
  v <-- get_x (r_rs2 (operands i)) ;;
  r <-- expect (load_word (as_u64 a)) ;;
  let original_value := as_i32 (fst r) in
  expect (store_word (as_u64 a) (new original_value v)) ;;;
  put_x (r_rd (operands i)) original_value.

Definition AMOSWAPW_exec := amo_w (fun _ v => as_u32 v).
Definition AMOADDW_exec := amo_w (fun o v => as_u32 (as_i32 (o + as_i32 v))).
Definition AMOANDW_exec := amo_w (fun o v => Z.land (as_u32 o) (as_u32 v)).
Definition AMOORW_exec := amo_w (fun o v => Z.lor (as_u32 o) (as_u32 v)).
Definition AMOXORW_exec := amo_w (fun o v => Z.lxor (as_u32 o) (as_u32 v)).
Definition AMOMINW_exec := amo_w (fun o v => as_u32 (if o <=? as_i32 v then o else as_i32 v)).
Definition AMOMAXW_exec := amo_w (fun o v => as_u32 (if o >=? as_i32 v then o else as_i32 v)).
Definition AMOMINUW_exec := amo_w (fun o v => if as_u32 o <=? as_u32 v then as_u32 o else as_u32 v).
Definition AMOMAXUW_exec := amo_w (fun o v => if as_u32 o >=? as_u32 v then as_u32 o else as_u32 v).

(** ** Virtual instructions *)

Definition VirtualMove_exec := ri_exec (fun _ a _ => Ok a).

Definition VirtualMULI_exec := ri_exec (fun c a imm => Ok (sign_extend c (as_i64 (a * as_i64 imm)))).

Definition ALL_ONES_32 : Z := 0xffffffff.
Definition ALL_ONES_64 : Z := 0xffffffffffffffff.
Definition SIGN_BIT_32 : Z := 0x80000000.
Definition SIGN_BIT_64 : Z := 0x8000000000000000.

Definition VirtualMovsign_exec := ri_exec (fun c a _ =>
  let val := as_u64 a in
  match xlen c with
  | Bit32 => Ok (if negb (Z.land val SIGN_BIT_32 =? 0) then as_i64 ALL_ONES_32 else 0)
  | Bit64 => Ok (if negb (Z.land val SIGN_BIT_64 =? 0) then as_i64 ALL_ONES_64 else 0)
  end).

Definition VirtualPow2_exec := ri_exec (fun c a _ =>
  match xlen c with
  | Bit32 => Ok (as_i64 (Z.shiftl 1 (as_u64 a mod 32)))
  | Bit64 => Ok (as_i64 (Z.shiftl 1 (as_u64 a mod 64)))
  end).

Definition VirtualPow2W_exec := ri_exec (fun c a _ =>
  match xlen c with
  | Bit32 => Panic
  | Bit64 => Ok (as_i64 (Z.shiftl 1 (as_u64 a mod 32)))
  end).

(** [cpu.x[rd] = f(cpu, imm)] for the format with a destination only. *)
Definition rj_exec (f : Cpu -> Z -> Res Z) (i : Instr FormatJ) : ST Cpu unit :=
  v <-- asks (fun c => f c (j_imm (operands i))) ;;
  put_x (j_rd (operands i)) v.

Definition VirtualPow2I_exec := rj_exec (fun c imm =>
  match xlen c with
  | Bit32 => Ok (as_i64 (Z.shiftl 1 (imm mod 32)))
  | Bit64 => Ok (as_i64 (Z.shiftl 1 (imm mod 64)))
  end).

Definition VirtualPow2IW_exec := rj_exec (fun c imm =>
  match xlen c with
  | Bit32 => Panic
  | Bit64 => Ok (as_i64 (Z.shiftl 1 (imm mod 32)))
  end).

(** [((1 << (w - shift)) - 1) << shift], in [u64] for width 32 and in [u128] for
    width 64. *)
Definition VirtualShiftRightBitmask_exec := ri_exec (fun c a _ =>
  match xlen c with
  | Bit32 => let shift := Z.land (as_u64 a) 0x1f in
             let ones := as_u64 (Z.shiftl 1 (32 - shift)) - 1 in
             Ok (as_i64 (as_u64 (Z.shiftl ones shift)))
  | Bit64 => let shift := Z.land (as_u64 a) 0x3f in
             let ones := as_u128 (Z.shiftl 1 (64 - shift)) - 1 in
             Ok (as_i64 (as_u128 (Z.shiftl ones shift)))
  end).

Definition VirtualShiftRightBitmaskI_exec := rj_exec (fun c imm =>
  match xlen c with
  | Bit32 => let shift := imm mod 32 in
             let ones := as_u64 (Z.shiftl 1 (32 - shift)) - 1 in
             Ok (as_i64 (as_u64 (Z.shiftl ones shift)))
  | Bit64 => let shift := imm mod 64 in
             let ones := as_u128 (Z.shiftl 1 (64 - shift)) - 1 in
             Ok (as_i64 (as_u128 (Z.shiftl ones shift)))
  end).

Definition VirtualSignExtendWord_exec := ri_exec (fun c a _ =>
  match xlen c with
  | Bit32 => Panic
  | Bit64 => Ok (Z.shiftr (as_i64 (Z.shiftl a 32)) 32)
  end).

Definition VirtualZeroExtendWord_exec := ri_exec (fun c a _ =>
  match xlen c with
  | Bit32 => Panic
  | Bit64 => Ok (Z.land a 0xffffffff)
  end).

Definition rev8w (v : Z) : Z :=
  let lo := swap_bytes_u32 (as_u32 v) in
  let hi := swap_bytes_u32 (as_u32 (Z.shiftr v 32)) in
  lo + as_u64 (Z.shiftl hi 32).

Definition VirtualRev8W_exec := ri_exec (fun c a _ =>
  match xlen c with
  | Bit64 => Ok (as_i64 (rev8w (as_u64 a)))
  | Bit32 => Ok (swap_bytes_u32 (as_u32 a))
  end).

Definition VirtualChangeDivisor_exec := rr_exec (fun c a b =>
  match xlen c with
  | Bit32 => let remainder := as_i32 a in
             let divisor := as_i32 b in
             if (remainder =? i32_MIN) && (divisor =? -1) then Ok 1 else Ok divisor
  | Bit64 => if (a =? i64_MIN) && (b =? -1) then Ok 1 else Ok b
  end).

Definition VirtualChangeDivisorW_exec := rr_exec (fun c a b =>
  match xlen c with
  | Bit32 => Panic
  | Bit64 => let remainder := as_i32 a in
             let divisor := as_i32 b in
             if (remainder =? i32_MIN) && (divisor =? -1) then Ok 1 else Ok divisor
  end).

Definition XORROT_exec (rotation : Z) := rr_exec (fun _ a b => Ok (rotate_right_i64 (Z.lxor a b) rotation)).

Definition XORROTW_exec (rotation : Z) := rr_exec (fun c a b =>
  match xlen c with
  | Bit32 => Panic
  | Bit64 => Ok (rotate_right_u32 (Z.lxor (as_u32 a) (as_u32 b)) rotation)
  end).

(** Shifts by a bitmask whose trailing zeros give the amount. *)
Definition rvi_exec (f : Cpu -> Z -> Z -> Res Z) (i : Instr FormatVirtualRightShiftI) : ST Cpu unit :=
  a <-- get_x (vi_rs1 (operands i)) ;;
  v <-- asks (fun c => f c a (vi_imm (operands i))) ;;
  put_x (vi_rd (operands i)) v.

Definition rvr_exec (f : Cpu -> Z -> Z -> Res Z) (i : Instr FormatVirtualRightShiftR) : ST Cpu unit :=
  a <-- get_x (vr_rs1 (operands i)) ;;
  b <-- get_x (vr_rs2 (operands i)) ;;
  v <-- asks (fun c => f c a b) ;;
  put_x (vr_rd (operands i)) v.

Definition VirtualSRAI_exec := rvi_exec (fun c a imm =>
  let shift := trailing_zeros 64 imm in Ok (sign_extend c (wrapping_shr_i64 a shift))).

Definition VirtualSRLI_exec := rvi_exec (fun c a imm =>
  let shift := trailing_zeros 64 imm in
  Ok (sign_extend c (as_i64 (wrapping_shr_u64 (unsigned_data c a) shift)))).

Definition VirtualSRA_exec := rvr_exec (fun c a b =>
  let shift := trailing_zeros 64 b in Ok (sign_extend c (wrapping_shr_i64 a shift))).

Definition VirtualSRL_exec := rvr_exec (fun c a b =>
  let shift := trailing_zeros 64 b in
  Ok (sign_extend c (as_i64 (wrapping_shr_u64 (unsigned_data c a) shift)))).

Definition VirtualROTRI_exec := rvi_exec (fun c a imm =>
  let shift := trailing_zeros 64 imm in
  let rotated := match xlen c with
                 | Bit32 => rotate_right_u32 (as_u32 a) shift
                 | Bit64 => rotate_right_i64 a shift
                 end in
  Ok (sign_extend c rotated)).

Definition VirtualROTRIW_exec := rvi_exec (fun c a imm =>
  let shift := Z.min (trailing_zeros 64 imm) (XLEN / 2) in
  match xlen c with
  | Bit32 => Panic
  | Bit64 => Ok (rotate_right_u32 (as_u32 (as_u64 a)) shift)
  end).

(** ** Assertions *)

(** An assertion on the two source registers. *)
Definition assert_exec (holds : Cpu -> Z -> Z -> bool) (i : Instr FormatB) : ST Cpu unit :=
  a <-- get_x (b_rs1 (operands i)) ;;
  b <-- get_x (b_rs2 (operands i)) ;;
  ok <-- gets (fun c => holds c a b) ;;
  assert_that ok.

Definition VirtualAssertEQ_exec := assert_exec (fun _ a b => a =? b).
Definition VirtualAssertLTE_exec := assert_exec (fun _ a b => as_u64 a <=? as_u64 b).
Definition VirtualAssertMulUNoOverflow_exec := assert_exec (fun _ a b => as_u64 a * as_u64 b <? 18446744073709551616).
Definition VirtualAssertValidDiv0_exec := assert_exec (fun c divisor quotient =>
  match xlen c with
  | Bit32 => if divisor =? 0 then as_u32 (as_u64 quotient) =? u32_MAX else true
  | Bit64 => if divisor =? 0 then as_u64 quotient =? u64_MAX else true
  end).
Definition VirtualAssertValidUnsignedRemainder_exec := assert_exec (fun c a b =>
  match xlen c with
  | Bit32 => let remainder := as_u32 (as_i32 a) in
             let divisor := as_u32 (as_i32 b) in
             (divisor =? 0) || (remainder <? divisor)
  | Bit64 => let remainder := as_u64 a in
             let divisor := as_u64 b in
             (divisor =? 0) || (remainder <? divisor)
  end).

(** [x[rs1] + imm] is a checked [i64] addition. *)
Definition align_exec (mask : Z) (i : Instr AssertAlignFormat) : ST Cpu unit :=
  a <-- get_x (a_rs1 (operands i)) ;;
  addr <-- lift (arith_i64 (a + a_imm (operands i))) ;;
  assert_that (Z.land addr mask =? 0).

Definition VirtualAssertHalfwordAlignment_exec := align_exec 1.
Definition VirtualAssertWordAlignment_exec := align_exec 3.

(** [advice_value] panics when the advice has not been filled in. *)
Definition VirtualAdvice_execute (i : Instr FormatJ) (advice : option Z) : ST Cpu unit :=
  match advice with
  | Some a => put_x (j_rd (operands i)) (as_i64 a)
  | None => panic
  end.

(** ** Dispatch *)

(** The [ram_access] field after an [exec]: [()], [RAMRead] or [RAMWrite],
    converted with [Into<RAMAccess>]. *)
Definition no_ram (m : ST Cpu unit) : ST Cpu RAMAccess := m ;;; ret RANoOp.
Definition ram_read (m : ST Cpu RAMRead) : ST Cpu RAMAccess := r <-- m ;; ret (RARead r).
Definition ram_write (m : ST Cpu RAMWrite) : ST Cpu RAMAccess := w <-- m ;; ret (RAWrite w).

Definition exec_R (op : OpR) (i : Instr FormatR) : ST Cpu RAMAccess :=
  match op with
  | ADD => no_ram (ADD_exec i) | SUB => no_ram (SUB_exec i) | AND => no_ram (AND_exec i)
  | ANDN => no_ram (ANDN_exec i) | OR => no_ram (OR_exec i) | XOR => no_ram (XOR_exec i)
  | SLT => no_ram (SLT_exec i) | SLTU => no_ram (SLTU_exec i) | SLL => no_ram (SLL_exec i)
  | SRL => no_ram (SRL_exec i) | SRA => no_ram (SRA_exec i)
  | MUL => no_ram (MUL_exec i) | MULH => no_ram (MULH_exec i) | MULHU => no_ram (MULHU_exec i)
  | MULHSU => no_ram (MULHSU_exec i) | DIV => no_ram (DIV_exec i) | DIVU => no_ram (DIVU_exec i)
  | REM => no_ram (REM_exec i) | REMU => no_ram (REMU_exec i)
  | ADDW => no_ram (ADDW_exec i) | SUBW => no_ram (SUBW_exec i) | SLLW => no_ram (SLLW_exec i)
  | SRLW => no_ram (SRLW_exec i) | SRAW => no_ram (SRAW_exec i) | MULW => no_ram (MULW_exec i)
  | DIVW => no_ram (DIVW_exec i) | DIVUW => no_ram (DIVUW_exec i) | REMW => no_ram (REMW_exec i)
  | REMUW => no_ram (REMUW_exec i)
  | LRW => ram_read (LRW_exec i) | SCW => ram_write (SCW_exec i)
  | AMOSWAPW => no_ram (AMOSWAPW_exec i) | AMOADDW => no_ram (AMOADDW_exec i)
  | AMOANDW => no_ram (AMOANDW_exec i) | AMOORW => no_ram (AMOORW_exec i)
  | AMOXORW => no_ram (AMOXORW_exec i) | AMOMINW => no_ram (AMOMINW_exec i)
  | AMOMAXW => no_ram (AMOMAXW_exec i) | AMOMINUW => no_ram (AMOMINUW_exec i)
  | AMOMAXUW => no_ram (AMOMAXUW_exec i)
  | LRD => ram_read (LRD_exec i) | SCD => ram_write (SCD_exec i)
  | AMOSWAPD => no_ram (AMOSWAPD_exec i) | AMOADDD => no_ram (AMOADDD_exec i)
  | AMOANDD => no_ram (AMOANDD_exec i) | AMOORD => no_ram (AMOORD_exec i)
  | AMOXORD => no_ram (AMOXORD_exec i) | AMOMIND => no_ram (AMOMIND_exec i)
  | AMOMAXD => no_ram (AMOMAXD_exec i) | AMOMINUD => no_ram (AMOMINUD_exec i)
  | AMOMAXUD => no_ram (AMOMAXUD_exec i)
  | VirtualChangeDivisor => no_ram (VirtualChangeDivisor_exec i)
  | VirtualChangeDivisorW => no_ram (VirtualChangeDivisorW_exec i)
  | VirtualXORROT32 => no_ram (XORROT_exec 32 i) | VirtualXORROT24 => no_ram (XORROT_exec 24 i)
  | VirtualXORROT16 => no_ram (XORROT_exec 16 i) | VirtualXORROT63 => no_ram (XORROT_exec 63 i)
  | VirtualXORROTW16 => no_ram (XORROTW_exec 16 i) | VirtualXORROTW12 => no_ram (XORROTW_exec 12 i)
  | VirtualXORROTW8 => no_ram (XORROTW_exec 8 i) | VirtualXORROTW7 => no_ram (XORROTW_exec 7 i)
  end.

Definition exec_I (op : OpI) (i : Instr FormatI) : ST Cpu RAMAccess :=
  match op with
  | ADDI => no_ram (ADDI_exec i) | ANDI => no_ram (ANDI_exec i) | ORI => no_ram (ORI_exec i)
  | XORI => no_ram (XORI_exec i) | SLTI => no_ram (SLTI_exec i) | SLTIU => no_ram (SLTIU_exec i)
  | SLLI => no_ram (SLLI_exec i) | SRLI => no_ram (SRLI_exec i) | SRAI => no_ram (SRAI_exec i)
  | JALR => no_ram (JALR_exec i) | ECALL => no_ram (ECALL_exec i) | FENCE => no_ram (FENCE_exec i)
  | ADDIW => no_ram (ADDIW_exec i) | SLLIW => no_ram (SLLIW_exec i)
  | SRLIW => no_ram (SRLIW_exec i) | SRAIW => no_ram (SRAIW_exec i)
  | VirtualLW => ram_read (VirtualLW_exec i) | VirtualMULI => no_ram (VirtualMULI_exec i)
  | VirtualMove => no_ram (VirtualMove_exec i) | VirtualMovsign => no_ram (VirtualMovsign_exec i)
  | VirtualPow2 => no_ram (VirtualPow2_exec i) | VirtualPow2W => no_ram (VirtualPow2W_exec i)
  | VirtualRev8W => no_ram (VirtualRev8W_exec i)
  | VirtualShiftRightBitmask => no_ram (VirtualShiftRightBitmask_exec i)
  | VirtualSignExtendWord => no_ram (VirtualSignExtendWord_exec i)
  | VirtualZeroExtendWord => no_ram (VirtualZeroExtendWord_exec i)
  end.

Definition exec_Load (op : OpLoad) (i : Instr FormatLoad) : ST Cpu RAMAccess :=
  match op with
  | LB => ram_read (LB_exec i) | LBU => ram_read (LBU_exec i) | LH => ram_read (LH_exec i)
  | LHU => ram_read (LHU_exec i) | LW => ram_read (LW_exec i) | LWU => ram_read (LWU_exec i)
  | LD => ram_read (LD_exec i)
  end.

Definition exec_S (op : OpS) (i : Instr FormatS) : ST Cpu RAMAccess :=
  match op with
  | SB => ram_write (SB_exec i) | SH => ram_write (SH_exec i) | SW => ram_write (SW_exec i)
  | SD => ram_write (SD_exec i) | VirtualSW => ram_write (VirtualSW_exec i)
  end.

Definition exec_B (op : OpB) (i : Instr FormatB) : ST Cpu RAMAccess :=
  match op with
  | BEQ => no_ram (BEQ_exec i) | BNE => no_ram (BNE_exec i) | BLT => no_ram (BLT_exec i)
  | BGE => no_ram (BGE_exec i) | BLTU => no_ram (BLTU_exec i) | BGEU => no_ram (BGEU_exec i)
  | VirtualAssertEQ => no_ram (VirtualAssertEQ_exec i)
  | VirtualAssertLTE => no_ram (VirtualAssertLTE_exec i)
  | VirtualAssertMulUNoOverflow => no_ram (VirtualAssertMulUNoOverflow_exec i)
  | VirtualAssertValidDiv0 => no_ram (VirtualAssertValidDiv0_exec i)
  | VirtualAssertValidUnsignedRemainder => no_ram (VirtualAssertValidUnsignedRemainder_exec i)
  end.

Definition exec_J (op : OpJ) (i : Instr FormatJ) : ST Cpu RAMAccess :=
  match op with
  | JAL => no_ram (JAL_exec i)
  | VirtualPow2I => no_ram (VirtualPow2I_exec i)
  | VirtualPow2IW => no_ram (VirtualPow2IW_exec i)
  | VirtualShiftRightBitmaskI => no_ram (VirtualShiftRightBitmaskI_exec i)
  end.

Definition exec_U (op : OpU) (i : Instr FormatU) : ST Cpu RAMAccess :=
  match op with
  | LUI => no_ram (LUI_exec i)
  | AUIPC => no_ram (AUIPC_exec i)
  end.

Definition exec_VI (op : OpVI) (i : Instr FormatVirtualRightShiftI) : ST Cpu RAMAccess :=
  match op with
  | VirtualROTRI => no_ram (VirtualROTRI_exec i) | VirtualROTRIW => no_ram (VirtualROTRIW_exec i)
  | VirtualSRAI => no_ram (VirtualSRAI_exec i) | VirtualSRLI => no_ram (VirtualSRLI_exec i)
  end.

Definition exec_VR (op : OpVR) (i : Instr FormatVirtualRightShiftR) : ST Cpu RAMAccess :=
  match op with
  | VirtualSRA => no_ram (VirtualSRA_exec i)
  | VirtualSRL => no_ram (VirtualSRL_exec i)
  end.

Definition exec_Align (op : OpAlign) (i : Instr AssertAlignFormat) : ST Cpu RAMAccess :=
  match op with
  | VirtualAssertHalfwordAlignment => no_ram (VirtualAssertHalfwordAlignment_exec i)
  | VirtualAssertWordAlignment => no_ram (VirtualAssertWordAlignment_exec i)
  end.

(** [Instruction::execute]; the access record is what [RISCVTrace::trace]
    stores in the cycle. *)
Definition execute (instr : Instruction) : ST Cpu RAMAccess :=
  match instr with
  | NoOp | UNIMPL => panic
  | InstrR op i => exec_R op i
  | InstrI op i => exec_I op i
  | InstrLoad op i => exec_Load op i
  | InstrS op i => exec_S op i
  | InstrB op i => exec_B op i
  | InstrJ op i => exec_J op i
  | InstrU op i => exec_U op i
  | InstrVI op i => exec_VI op i
  | InstrVR op i => exec_VR op i
  | InstrAlign op i => exec_Align op i
  | VirtualAdvice i advice => no_ram (VirtualAdvice_execute i advice)
  | INLINE _ _ _ _ => panic
  end.

End Exec.
