(* ===== verification/Assembler.v ===== *)
(** * The instruction assembler ([utils/inline_helpers.rs])

    [InstrAssembler] accumulates the leaf instructions of an inline sequence.
    An emitted instruction is expanded at once by its own [inline_sequence];
    that function is the argument [rec] of the emitters, and [Sequences] ties
    the knot.  The allocator of the assembler is a clone of an [Arc], so that
    the assembler and its caller share one state: it is a field of the record
    here, and the caller gets it back. *)

From Stdlib Require Import ZArith Lia List Bool.
From stdpp Require Import base list.
From S2P Require Import Prelude Words Types Isa Allocator.
Import ListNotations.
Local Open Scope Z_scope.
Local Open Scope rust_scope.

(** The type of [inline_sequence] methods. *)
Definition Expander : Type := Instruction -> Xlen -> ST VirtualRegisterAllocator (list Instruction).

Record InstrAssembler := mkAssembler {
  asm_address : Z;
  asm_is_compressed : bool;
  asm_xlen : Xlen;
  sequence : list Instruction;
  has_inline_instr_format : bool;
  allocator : VirtualRegisterAllocator
}.

Definition with_sequence (s : list Instruction) (a : InstrAssembler) : InstrAssembler :=
  mkAssembler (asm_address a) (asm_is_compressed a) (asm_xlen a) s (has_inline_instr_format a) (allocator a).
Definition with_allocator (v : VirtualRegisterAllocator) (a : InstrAssembler) : InstrAssembler :=
  mkAssembler (asm_address a) (asm_is_compressed a) (asm_xlen a) (sequence a) (has_inline_instr_format a) v.

Definition InstrAssembler_new (address : Z) (is_compressed : bool) (xlen : Xlen)
    (alloc : VirtualRegisterAllocator) : InstrAssembler :=
  mkAssembler address is_compressed xlen [] false alloc.

Definition InstrAssembler_new_inline (address : Z) (is_compressed : bool) (xlen : Xlen)
    (alloc : VirtualRegisterAllocator) : InstrAssembler :=
  mkAssembler address is_compressed xlen [] true alloc.

(** [for (i, instr) in sequence.iter_mut().enumerate()
       { instr.set_inline_sequence_remaining(Some((len - i - 1) as u16)) }] *)
Fixpoint number_remaining (len i : Z) (s : list Instruction) : list Instruction :=
  match s with
  | [] => []
  | instr :: s' => set_inline_sequence_remaining instr (Some (as_u16 (len - i - 1))) :: number_remaining len (i + 1) s'
  end.

(** [sequence.last_mut().expect(..).set_is_compressed(c)] *)
Fixpoint compress_last (c : bool) (s : list Instruction) : Res (list Instruction) :=
  match s with
  | [] => Panic
  | [instr] => Ok [set_is_compressed instr c]
  | instr :: s' => let? t := compress_last c s' in Ok (instr :: t)
  end.

Definition finalize : ST InstrAssembler (list Instruction) :=
  fun a => lift (compress_last (asm_is_compressed a)
                   (number_remaining (Z.of_nat (length (sequence a))) 0 (sequence a))) a.

Definition is_valid_virtual_rd (virtual_rd : Z) : bool :=
  (virtual_rd =? 0) || (RISCV_REGISTER_COUNT + VIRTUAL_INSTRUCTION_RESERVED_REGISTER_COUNT <=? virtual_rd).

(** An allocator operation on the allocator of the assembler. *)
Definition on_allocator {A : Type} (f : ST VirtualRegisterAllocator A) : ST InstrAssembler A :=
  fun a => match f (allocator a) with
           | Ok (v, al) => Ok (v, with_allocator al a)
           | Panic => Panic
           | OutOfFuel => OutOfFuel
           end.

Section Emit.
Context `{Build}.

(** [let v = allocator.allocate(); body]: the guard frees the register at the
    end of the scope. *)
Definition with_register {A : Type} (body : Z -> ST InstrAssembler A) : ST InstrAssembler A :=
  r <-- on_allocator allocate ;;
  v <-- body r ;;
  on_allocator (deallocate r) ;;;
  ret v.

Context (rec : Expander).

Definition add_to_sequence (inst : Instruction) : ST InstrAssembler unit :=
  a <-- gets (fun a => a) ;;
  assert_that (negb (has_inline_instr_format a) || is_valid_virtual_rd (n_rd (ni_operands (normalize inst)))) ;;;
  s <-- on_allocator (rec inst (asm_xlen a)) ;;
  modify (fun a => with_sequence (sequence a ++ s) a).

(** The [NormalizedInstruction] every emitter builds. *)
Definition emitted (o : NormalizedOperands) (a : InstrAssembler) : NormalizedInstruction :=
  mkNormalized (asm_address a) o (Some 0) false.

Definition emit_r (op : OpR) (rd rs1 rs2 : Z) : ST InstrAssembler unit :=
  ni <-- gets (emitted (mkNormalizedOperands rs1 rs2 rd 0)) ;;
  add_to_sequence (InstrR op (instr_of_normalized ni)).

Definition emit_i (op : OpI) (rd rs1 imm : Z) : ST InstrAssembler unit :=
  ni <-- gets (emitted (mkNormalizedOperands rs1 0 rd imm)) ;;
  add_to_sequence (InstrI op (instr_of_normalized ni)).

Definition emit_s (op : OpS) (rs1 rs2 imm : Z) : ST InstrAssembler unit :=
  ni <-- gets (emitted (mkNormalizedOperands rs1 rs2 0 imm)) ;;
  add_to_sequence (InstrS op (instr_of_normalized ni)).

Definition emit_ld (op : OpLoad) (rd rs1 imm : Z) : ST InstrAssembler unit :=
  ni <-- gets (emitted (mkNormalizedOperands rs1 0 rd imm)) ;;
  add_to_sequence (InstrLoad op (instr_of_normalized ni)).

Definition emit_b (op : OpB) (rs1 rs2 imm : Z) : ST InstrAssembler unit :=
  ni <-- gets (emitted (mkNormalizedOperands rs1 rs2 0 imm)) ;;
  add_to_sequence (InstrB op (instr_of_normalized ni)).

Definition emit_j (op : OpJ) (rd imm : Z) : ST InstrAssembler unit :=
  ni <-- gets (emitted (mkNormalizedOperands 0 0 rd imm)) ;;
  add_to_sequence (InstrJ op (instr_of_normalized ni)).

(** [emit_j::<VirtualAdvice>]: the conversion of [VirtualAdvice] leaves the
    advice empty. *)
Definition emit_advice (rd imm : Z) : ST InstrAssembler unit :=
  ni <-- gets (emitted (mkNormalizedOperands 0 0 rd imm)) ;;
  add_to_sequence (virtual_advice_of_normalized ni).

Definition emit_u (op : OpU) (rd imm : Z) : ST InstrAssembler unit :=
  ni <-- gets (emitted (mkNormalizedOperands 0 0 rd imm)) ;;
  add_to_sequence (InstrU op (instr_of_normalized ni)).

Definition emit_vshift_i (op : OpVI) (rd rs1 imm : Z) : ST InstrAssembler unit :=
  ni <-- gets (emitted (mkNormalizedOperands rs1 0 rd imm)) ;;
  add_to_sequence (InstrVI op (instr_of_normalized ni)).

Definition emit_vshift_r (op : OpVR) (rd rs1 rs2 : Z) : ST InstrAssembler unit :=
  ni <-- gets (emitted (mkNormalizedOperands rs1 rs2 rd 0)) ;;
  add_to_sequence (InstrVR op (instr_of_normalized ni)).

Definition emit_halign (op : OpAlign) (rs1 imm : Z) : ST InstrAssembler unit :=
  ni <-- gets (emitted (mkNormalizedOperands rs1 0 0 imm)) ;;
  add_to_sequence (InstrAlign op (instr_of_normalized ni)).

(** [finalize_inline]: the registers freed by inlines are zeroed with
    [ADDI reg, x0, 0] before the sequence is numbered. *)
Fixpoint zero_registers (regs : list Z) : ST InstrAssembler unit :=
  match regs with
  | [] => ret tt
  | reg :: rest => emit_i ADDI reg 0 0 ;;; zero_registers rest
  end.

Definition finalize_inline : ST InstrAssembler (list Instruction) :=
  regs <-- on_allocator get_registers_for_reset ;;
  zero_registers regs ;;;
  finalize.

(** ** Operands that are immediates or registers *)

Inductive Value :=
| Imm (v : Z)
| Reg (r : Z).

(** [bin::<OR, OI>]; the call with swapped operands in the third branch always
    lands in the second. *)
Definition bin (opr : OpR) (opi : OpI) (rs1 rs2 : Value) (rd : Z) (fold : Z -> Z -> Z) : ST InstrAssembler Value :=
  match rs1, rs2 with
  | Reg r1, Reg r2 => emit_r opr rd r1 r2 ;;; ret (Reg rd)
  | Reg r1, Imm imm => emit_i opi rd r1 imm ;;; ret (Reg rd)
  | Imm imm, Reg r2 => emit_i opi rd r2 imm ;;; ret (Reg rd)
  | Imm i1, Imm i2 => ret (Imm (fold i1 i2))
  end.

Definition asm_add (rs1 rs2 : Value) (rd : Z) := bin ADD ADDI rs1 rs2 rd (fun a b => as_u64 (a + b)).
Definition asm_xor (rs1 rs2 : Value) (rd : Z) := bin XOR XORI rs1 rs2 rd Z.lxor.
Definition asm_and (rs1 rs2 : Value) (rd : Z) := bin AND ANDI rs1 rs2 rd Z.land.

(** [match self.xlen { Bit32 => .., #[cfg(feature = rv64)] Bit64 => .. }] *)
Definition by_xlen {A : Type} (m32 m64 : ST InstrAssembler A) : ST InstrAssembler A :=
  xl <-- gets asm_xlen ;;
  match xl with
  | Bit32 => m32
  | Bit64 => if feature_rv64 then m64 else panic
  end.

(** [(val as u32) >> shamt] is a checked shift. *)
Definition asm_srli (rs1 : Value) (shamt rd : Z) : ST InstrAssembler Value :=
  if shamt =? 0 then asm_xor rs1 (Imm 0) rd
  else match rs1 with
       | Reg r => by_xlen (emit_i SRLI rd r shamt) (emit_i SRLIW rd r (Z.land shamt 0x1f)) ;;; ret (Reg rd)
       | Imm val => if overflow_checks && negb (shamt <? 32) then panic
                    else ret (Imm (wrapping_shr_u32 (as_u32 val) shamt))
       end.

(** [32 - shamt] and the shifts are checked; beyond 32 the release build wraps. *)
Definition rotri32 (rs1 : Value) (shamt rd : Z) : ST InstrAssembler Value :=
  if (shamt =? 0) || (shamt =? 32) then asm_xor rs1 (Imm 0) rd
  else
    assert_that (negb (overflow_checks && (32 <? shamt))) ;;;
    let ones := as_u64 (wrapping_shl_u64 1 (as_u32 (32 - shamt)) - 1) in
    let mask := wrapping_shl_u64 ones shamt in
    match rs1 with
    | Reg r => by_xlen (emit_vshift_i VirtualROTRI rd r mask) (emit_vshift_i VirtualROTRIW rd r mask) ;;; ret (Reg rd)
    | Imm val => ret (Imm (rotate_right_u32 (as_u32 val) shamt))
    end.

Definition rotri_xor_rotri32 (rs1 : Value) (imm1 imm2 rd scratch : Z) : ST InstrAssembler Value :=
  r1 <-- rotri32 rs1 imm1 scratch ;;
  r2 <-- rotri32 rs1 imm2 rd ;;
  asm_xor r1 r2 rd.

Definition rotri (rs1 : Value) (imm rd : Z) : ST InstrAssembler Value :=
  match rs1 with
  | Reg r => emit_vshift_i VirtualROTRI rd r imm ;;; ret (Reg rd)
  | Imm val => ret (Imm (rotate_right_u32 (as_u32 val) (trailing_zeros 64 imm)))
  end.

Definition rotr64 (rs1 : Value) (amount rd : Z) : ST InstrAssembler Value :=
  if (amount =? 0) || (amount =? 64) then asm_xor rs1 (Imm 0) rd
  else match rs1 with
       | Reg r =>
           assert_that (negb (overflow_checks && (64 <? amount))) ;;;
           let ones := as_u64 (wrapping_shl_u64 1 (as_u64 (64 - amount)) - 1) in
           rotri (Reg r) (wrapping_shl_u64 ones amount) rd
       | Imm val => ret (Imm (as_u64 (rotate_right_i64 val amount)))
       end.

Definition rotl64 (rs1 : Value) (amount rd : Z) : ST InstrAssembler Value :=
  assert_that (negb (overflow_checks && (64 <? amount))) ;;;
  rotr64 rs1 (as_u32 (64 - amount)) rd.

End Emit.
