(* ===== verification/Sequences.v ===== *)
(** * Inline sequences ([instruction/*.rs], the [inline_sequence] methods)

    The expansion of every instruction that the constraint system does not
    handle directly into leaf instructions, one definition per method, and the
    dispatch [inline_sequence] of [Instruction::inline_sequence].  The methods
    take [rec], the expansion of emitted instructions; [inline_sequence_fuel]
    closes the recursion with a bound on the nesting depth ([AMOXORW] emits
    [LW], which emits [SLLI], which emits the leaf [VirtualMULI]: depth 4). *)

From Stdlib Require Import ZArith Lia List Bool.
From stdpp Require Import base list.
From S2P Require Import Prelude Words Types Isa Allocator Assembler.
Import ListNotations.
Local Open Scope Z_scope.
Local Open Scope rust_scope.

(** The inlines registered by other crates ([INLINE_REGISTRY] of [inline.rs]):
    for an opcode, [funct3] and [funct7], the builder that consumes the
    assembler. *)
Class InlineRegistry := {
  INLINE_REGISTRY : Z -> Z -> Z -> option (Expander -> FormatInline -> ST InstrAssembler (list Instruction))
}.

(** Nothing registered. *)
Definition empty_registry : InlineRegistry := {| INLINE_REGISTRY := fun _ _ _ => None |}.

(** [let mut asm = InstrAssembler::new(self.address, self.is_compressed, xlen, allocator); body; asm.finalize()].
    The guards of [body] free their registers before [finalize] here and after
    it in the source; [finalize] does not touch the allocator. *)
Definition assemble {F : Type} (self : Instr F) (xl : Xlen) (body : ST InstrAssembler unit)
    : ST VirtualRegisterAllocator (list Instruction) :=
  fun al => match bind body (fun _ => finalize) (InstrAssembler_new (address self) (is_compressed self) xl al) with
            | Ok (s, a) => Ok (s, allocator a)
            | Panic => Panic
            | OutOfFuel => OutOfFuel
            end.

(** [(((1u128 << (len - shift)) - 1) << shift) as u64] *)
Definition right_bitmask (len shift : Z) : Z :=
  as_u64 (as_u128 (Z.shiftl (as_u128 (Z.shiftl 1 (len - shift)) - 1) shift)).

(** The bitmask of [SRLIW]: the word sits in the upper half. *)
Definition SRLIW_bitmask (imm : Z) : Z := right_bitmask 64 (Z.land imm 0x1f + 32).

Section Sequences.
Context `{Build}.
Context (rec : Expander).

Local Abbreviation emit_r := (Assembler.emit_r rec).
Local Abbreviation emit_i := (Assembler.emit_i rec).
Local Abbreviation emit_s := (Assembler.emit_s rec).
Local Abbreviation emit_ld := (Assembler.emit_ld rec).
Local Abbreviation emit_b := (Assembler.emit_b rec).
Local Abbreviation emit_u := (Assembler.emit_u rec).
Local Abbreviation emit_advice := (Assembler.emit_advice rec).
Local Abbreviation emit_vshift_i := (Assembler.emit_vshift_i rec).
Local Abbreviation emit_vshift_r := (Assembler.emit_vshift_r rec).
Local Abbreviation emit_halign := (Assembler.emit_halign rec).
Local Notation "'let_reg' v 'in' k" := (with_register (fun v => k)) (at level 10, v name, k at level 200).

(** [match xlen { Bit32 => m32, #[cfg(feature = rv64)] Bit64 => m64 }] *)
Definition xlen_match {A : Type} (xl : Xlen) (m32 m64 : A) (unreachable : A) : A :=
  match xl with
  | Bit32 => m32
  | Bit64 => if feature_rv64 then m64 else unreachable
  end.

(** ** Word arithmetic *)

Definition ADDIW_inline_sequence (self : Instr FormatI) (xl : Xlen) :=
  let o := operands self in
  assemble self xl (emit_i ADDI (i_rd o) (i_rs1 o) (i_imm o) ;;;
                    emit_i VirtualSignExtendWord (i_rd o) (i_rd o) 0).

Definition ADDW_inline_sequence (self : Instr FormatR) (xl : Xlen) :=
  let o := operands self in
  assemble self xl (emit_r ADD (r_rd o) (r_rs1 o) (r_rs2 o) ;;;
                    emit_i VirtualSignExtendWord (r_rd o) (r_rd o) 0).

Definition SUBW_inline_sequence (self : Instr FormatR) (xl : Xlen) :=
  let o := operands self in
  assemble self xl (emit_r SUB (r_rd o) (r_rs1 o) (r_rs2 o) ;;;
                    emit_i VirtualSignExtendWord (r_rd o) (r_rd o) 0).

Definition MULW_inline_sequence (self : Instr FormatR) (xl : Xlen) :=
  let o := operands self in
  assemble self xl (emit_r MUL (r_rd o) (r_rs1 o) (r_rs2 o) ;;;
                    emit_i VirtualSignExtendWord (r_rd o) (r_rd o) 0).

(** ** Shifts *)

Definition SLLI_inline_sequence (self : Instr FormatI) (xl : Xlen) :=
  let o := operands self in
  let mask := match xl with Bit32 => 0x1f | Bit64 => 0x3f end in
  let shift := Z.land (i_imm o) mask in
  assemble self xl (emit_i VirtualMULI (i_rd o) (i_rs1 o) (as_u64 (Z.shiftl 1 shift))).

Definition SLLIW_inline_sequence (self : Instr FormatI) (xl : Xlen) : ST VirtualRegisterAllocator (list Instruction) :=
  let o := operands self in
  match xl with
  | Bit32 => panic
  | Bit64 =>
      let shift := Z.land (i_imm o) 0x1f in
      assemble self xl (emit_i VirtualMULI (i_rd o) (i_rs1 o) (as_u64 (Z.shiftl 1 shift)) ;;;
                        emit_i VirtualSignExtendWord (i_rd o) (i_rd o) 0)
  end.

Definition SRLI_inline_sequence (self : Instr FormatI) (xl : Xlen) :=
  let o := operands self in
  let bitmask := match xl with
                 | Bit32 => right_bitmask 32 (Z.land (i_imm o) 0x1f)
                 | Bit64 => right_bitmask 64 (Z.land (i_imm o) 0x3f)
                 end in
  assemble self xl (emit_vshift_i VirtualSRLI (i_rd o) (i_rs1 o) bitmask).

Definition SRLIW_inline_sequence (self : Instr FormatI) (xl : Xlen) :=
  let o := operands self in
  assemble self xl (
    let_reg v_rs1 in
    (emit_i SLLI v_rs1 (i_rs1 o) 32 ;;;
     match xl with
     | Bit32 => panic
     | Bit64 =>
         emit_vshift_i VirtualSRLI (i_rd o) v_rs1 (SRLIW_bitmask (i_imm o)) ;;;
         emit_i VirtualSignExtendWord (i_rd o) (i_rd o) 0
     end)).

Definition SRAI_inline_sequence (self : Instr FormatI) (xl : Xlen) :=
  let o := operands self in
  let bitmask := match xl with
                 | Bit32 => right_bitmask 32 (Z.land (i_imm o) 0x1f)
                 | Bit64 => right_bitmask 64 (Z.land (i_imm o) 0x3f)
                 end in
  assemble self xl (emit_vshift_i VirtualSRAI (i_rd o) (i_rs1 o) bitmask).

Definition SRAIW_inline_sequence (self : Instr FormatI) (xl : Xlen) :=
  let o := operands self in
  assemble self xl (
    let_reg v_rs1 in
    match xl with
    | Bit32 => panic
    | Bit64 =>
        (emit_i VirtualSignExtendWord v_rs1 (i_rs1 o) 0 ;;;
         emit_vshift_i VirtualSRAI (i_rd o) v_rs1 (right_bitmask 64 (Z.land (i_imm o) 0x1f)) ;;;
         emit_i VirtualSignExtendWord (i_rd o) (i_rd o) 0)
    end).

Definition SLL_inline_sequence (self : Instr FormatR) (xl : Xlen) :=
  let o := operands self in
  assemble self xl (
    let_reg v_pow2 in
    (emit_i VirtualPow2 v_pow2 (r_rs2 o) 0 ;;;
     emit_r MUL (r_rd o) (r_rs1 o) v_pow2)).

Definition SLLW_inline_sequence (self : Instr FormatR) (xl : Xlen) :=
  let o := operands self in
  assemble self xl (
    let_reg v_pow2 in
    (emit_i VirtualPow2W v_pow2 (r_rs2 o) 0 ;;;
     emit_r MUL (r_rd o) (r_rs1 o) v_pow2 ;;;
     emit_i VirtualSignExtendWord (r_rd o) (r_rd o) 0)).

Definition SRL_inline_sequence (self : Instr FormatR) (xl : Xlen) :=
  let o := operands self in
  assemble self xl (
    let_reg v_bitmask in
    (emit_i VirtualShiftRightBitmask v_bitmask (r_rs2 o) 0 ;;;
     emit_vshift_r VirtualSRL (r_rd o) (r_rs1 o) v_bitmask)).

Definition SRLW_inline_sequence (self : Instr FormatR) (xl : Xlen) :=
  let o := operands self in
  assemble self xl (
    let_reg v_bitmask in let_reg v_rs1 in
    (emit_i SLLI v_rs1 (r_rs1 o) 32 ;;;
     emit_i ORI v_bitmask (r_rs2 o) 32 ;;;
     emit_i VirtualShiftRightBitmask v_bitmask v_bitmask 0 ;;;
     emit_vshift_r VirtualSRL (r_rd o) v_rs1 v_bitmask ;;;
     emit_i VirtualSignExtendWord (r_rd o) (r_rd o) 0)).

Definition SRA_inline_sequence (self : Instr FormatR) (xl : Xlen) :=
  let o := operands self in
  assemble self xl (
    let_reg v_bitmask in
    (emit_i VirtualShiftRightBitmask v_bitmask (r_rs2 o) 0 ;;;
     emit_vshift_r VirtualSRA (r_rd o) (r_rs1 o) v_bitmask)).

Definition SRAW_inline_sequence (self : Instr FormatR) (xl : Xlen) :=
  let o := operands self in
  assemble self xl (
    let_reg v_rs1 in let_reg v_bitmask in
    (emit_i VirtualSignExtendWord v_rs1 (r_rs1 o) 0 ;;;
     emit_i ANDI v_bitmask (r_rs2 o) 0x1f ;;;
     emit_i VirtualShiftRightBitmask v_bitmask v_bitmask 0 ;;;
     emit_vshift_r VirtualSRA (r_rd o) v_rs1 v_bitmask ;;;
     emit_i VirtualSignExtendWord (r_rd o) (r_rd o) 0)).

(** ** High multiplication *)

Definition MULH_inline_sequence (self : Instr FormatR) (xl : Xlen) :=
  let o := operands self in
  assemble self xl (
    let_reg v_sx in let_reg v_sy in let_reg v_0 in
    (emit_i VirtualMovsign v_sx (r_rs1 o) 0 ;;;
     emit_i VirtualMovsign v_sy (r_rs2 o) 0 ;;;
     emit_r MULHU v_0 (r_rs1 o) (r_rs2 o) ;;;
     emit_r MUL v_sx v_sx (r_rs2 o) ;;;
     emit_r MUL v_sy v_sy (r_rs1 o) ;;;
     emit_r ADD v_0 v_0 v_sx ;;;
     emit_r ADD (r_rd o) v_0 v_sy)).

Definition MULHSU_inline_sequence (self : Instr FormatR) (xl : Xlen) :=
  let o := operands self in
  assemble self xl (
    let_reg v_sx in let_reg v_sx_0 in let_reg v_rs1 in let_reg v_hi in
    let_reg v_lo in let_reg v_tmp in let_reg v_carry in
    (emit_i VirtualMovsign v_sx (r_rs1 o) 0 ;;;
     emit_i ANDI v_sx_0 v_sx 1 ;;;
     emit_r XOR v_rs1 (r_rs1 o) v_sx ;;;
     emit_r ADD v_rs1 v_rs1 v_sx_0 ;;;
     emit_r MULHU v_hi v_rs1 (r_rs2 o) ;;;
     emit_r MUL v_lo v_rs1 (r_rs2 o) ;;;
     emit_r XOR v_hi v_hi v_sx ;;;
     emit_r XOR v_lo v_lo v_sx ;;;
     emit_r ADD v_tmp v_lo v_sx_0 ;;;
     emit_r SLTU v_carry v_tmp v_lo ;;;
     emit_r ADD (r_rd o) v_hi v_carry)).

(** ** Division and remainder: quotient and remainder are advice, checked *)

Definition DIV_inline_sequence (self : Instr FormatR) (xl : Xlen) :=
  let a0 := r_rs1 (operands self) in
  let a1 := r_rs2 (operands self) in
  let shmat := match xl with Bit32 => 31 | Bit64 => 63 end in
  assemble self xl (
    let_reg a2 in let_reg a3 in let_reg t0 in let_reg t1 in
    (emit_advice a2 0 ;;;
     emit_advice a3 0 ;;;
     emit_b VirtualAssertValidDiv0 a1 a2 0 ;;;
     emit_r VirtualChangeDivisor t0 a0 a1 ;;;
     emit_r MULH t1 a2 t0 ;;;
     let_reg t2 in let_reg t3 in
     (emit_r MUL t2 a2 t0 ;;;
      emit_i SRAI t3 t2 shmat ;;;
      emit_b VirtualAssertEQ t1 t3 0 ;;;
      emit_i SRAI t1 a0 shmat ;;;
      emit_r XOR t3 a3 t1 ;;;
      emit_r SUB t3 t3 t1 ;;;
      emit_r ADD t2 t2 t3 ;;;
      emit_b VirtualAssertEQ t2 a0 0 ;;;
      emit_i SRAI t1 t0 shmat ;;;
      emit_r XOR t3 t0 t1 ;;;
      emit_r SUB t3 t3 t1 ;;;
      emit_b VirtualAssertValidUnsignedRemainder a3 t3 0 ;;;
      emit_i VirtualMove (r_rd (operands self)) a2 0))).

Definition DIVU_inline_sequence (self : Instr FormatR) (xl : Xlen) :=
  let a0 := r_rs1 (operands self) in
  let a1 := r_rs2 (operands self) in
  assemble self xl (
    let_reg a2 in let_reg a3 in let_reg t0 in
    (emit_advice a2 0 ;;;
     emit_advice a3 0 ;;;
     emit_b VirtualAssertValidDiv0 a1 a2 0 ;;;
     emit_b VirtualAssertMulUNoOverflow a2 a1 0 ;;;
     emit_r MUL t0 a2 a1 ;;;
     emit_r ADD t0 t0 a3 ;;;
     emit_b VirtualAssertEQ t0 a0 0 ;;;
     emit_b VirtualAssertValidUnsignedRemainder a3 a1 0 ;;;
     emit_i VirtualMove (r_rd (operands self)) a2 0)).

Definition REM_inline_sequence (self : Instr FormatR) (xl : Xlen) :=
  let a0 := r_rs1 (operands self) in
  let a1 := r_rs2 (operands self) in
  let shmat := match xl with Bit32 => 31 | Bit64 => 63 end in
  assemble self xl (
    let_reg a2 in let_reg a3 in let_reg t0 in let_reg t1 in let_reg t2 in let_reg t3 in
    (emit_advice a2 0 ;;;
     emit_advice a3 0 ;;;
     emit_b VirtualAssertValidDiv0 a1 a2 0 ;;;
     emit_r VirtualChangeDivisor t0 a0 a1 ;;;
     emit_r MUL t1 a2 t0 ;;;
     emit_i SRAI t2 a0 shmat ;;;
     emit_r XOR t3 a3 t2 ;;;
     emit_r SUB t3 t3 t2 ;;;
     emit_r ADD t1 t1 t3 ;;;
     emit_b VirtualAssertEQ t1 a0 0 ;;;
     emit_i SRAI t2 t0 shmat ;;;
     emit_r XOR t1 t0 t2 ;;;
     emit_r SUB t1 t1 t2 ;;;
     emit_b VirtualAssertValidUnsignedRemainder a3 t1 0 ;;;
     emit_i VirtualMove (r_rd (operands self)) t3 0)).

Definition REMU_inline_sequence (self : Instr FormatR) (xl : Xlen) :=
  let a0 := r_rs1 (operands self) in
  let a1 := r_rs2 (operands self) in
  assemble self xl (
    let_reg a2 in let_reg a3 in let_reg t0 in
    (emit_advice a2 0 ;;;
     emit_advice a3 0 ;;;
     emit_r MUL t0 a2 a1 ;;;
     emit_r ADD t0 t0 a3 ;;;
     emit_b VirtualAssertEQ t0 a0 0 ;;;
     emit_b VirtualAssertValidUnsignedRemainder a3 a1 0 ;;;
     emit_i VirtualMove (r_rd (operands self)) a3 0)).

Definition DIVW_inline_sequence (self : Instr FormatR) (xl : Xlen) :=
  let a0 := r_rs1 (operands self) in
  let a1 := r_rs2 (operands self) in
  assemble self xl (
    let_reg a2 in let_reg a3 in let_reg t0 in let_reg t1 in let_reg t2 in let_reg t3 in let_reg t4 in
    (emit_advice a2 0 ;;;
     emit_advice a3 0 ;;;
     emit_i VirtualSignExtendWord t4 a0 0 ;;;
     emit_i VirtualSignExtendWord t3 a1 0 ;;;
     emit_b VirtualAssertValidDiv0 t3 a2 0 ;;;
     emit_r VirtualChangeDivisorW t0 t4 t3 ;;;
     emit_r MULW t1 a2 t0 ;;;
     emit_r MUL t2 a2 t0 ;;;
     emit_b VirtualAssertEQ t1 t2 0 ;;;
     emit_i SRAI t2 t4 31 ;;;
     emit_r XOR t3 a3 t2 ;;;
     emit_r SUB t3 t3 t2 ;;;
     emit_r ADDW t1 t1 t3 ;;;
     emit_b VirtualAssertEQ t1 t4 0 ;;;
     emit_i SRAI t2 t0 31 ;;;
     emit_r XOR t1 t0 t2 ;;;
     emit_r SUB t1 t1 t2 ;;;
     emit_b VirtualAssertValidUnsignedRemainder a3 t1 0 ;;;
     emit_i VirtualSignExtendWord (r_rd (operands self)) a2 0)).

Definition DIVUW_inline_sequence (self : Instr FormatR) (xl : Xlen) :=
  let a0 := r_rs1 (operands self) in
  let a1 := r_rs2 (operands self) in
  assemble self xl (
    let_reg a2 in let_reg a3 in let_reg t0 in let_reg t1 in let_reg t2 in let_reg t3 in let_reg t4 in
    (emit_advice a2 0 ;;;
     emit_advice a3 0 ;;;
     emit_i VirtualZeroExtendWord t3 a0 0 ;;;
     emit_i VirtualZeroExtendWord t4 a1 0 ;;;
     emit_b VirtualAssertValidDiv0 t4 a2 0 ;;;
     emit_i VirtualZeroExtendWord t2 a2 0 ;;;
     emit_r MUL t0 t2 t4 ;;;
     emit_r MULHU t1 t2 t4 ;;;
     emit_b VirtualAssertEQ t1 0 0 ;;;
     emit_r ADD t0 t0 a3 ;;;
     emit_b VirtualAssertEQ t0 t3 0 ;;;
     emit_b VirtualAssertValidUnsignedRemainder a3 t4 0 ;;;
     emit_i VirtualSignExtendWord (r_rd (operands self)) a2 0)).

Definition REMW_inline_sequence (self : Instr FormatR) (xl : Xlen) :=
  let a0 := r_rs1 (operands self) in
  let a1 := r_rs2 (operands self) in
  assemble self xl (
    let_reg a2 in let_reg a3 in let_reg t0 in let_reg t1 in let_reg t2 in let_reg t3 in let_reg t4 in
    (emit_advice a2 0 ;;;
     emit_advice a3 0 ;;;
     emit_i VirtualSignExtendWord t4 a0 0 ;;;
     emit_i VirtualSignExtendWord t3 a1 0 ;;;
     emit_b VirtualAssertValidDiv0 t3 a2 0 ;;;
     emit_r VirtualChangeDivisorW t0 t4 t3 ;;;
     emit_r MULW t1 a2 t0 ;;;
     emit_i SRAI t2 t4 31 ;;;
     emit_r XOR t3 a3 t2 ;;;
     emit_r SUB t3 t3 t2 ;;;
     emit_r ADDW t1 t1 t3 ;;;
     emit_b VirtualAssertEQ t1 t4 0 ;;;
     emit_i SRAI t2 t0 31 ;;;
     emit_r XOR t1 t0 t2 ;;;
     emit_r SUB t1 t1 t2 ;;;
     emit_b VirtualAssertValidUnsignedRemainder a3 t1 0 ;;;
     emit_i VirtualSignExtendWord (r_rd (operands self)) t3 0)).

Definition REMUW_inline_sequence (self : Instr FormatR) (xl : Xlen) :=
  let a0 := r_rs1 (operands self) in
  let a1 := r_rs2 (operands self) in
  assemble self xl (
    let_reg a2 in let_reg a3 in let_reg t0 in let_reg t1 in let_reg t2 in let_reg t3 in
    (emit_advice a2 0 ;;;
     emit_advice a3 0 ;;;
     emit_i VirtualZeroExtendWord t1 a0 0 ;;;
     emit_i VirtualZeroExtendWord t2 a1 0 ;;;
     emit_i VirtualZeroExtendWord t3 a2 0 ;;;
     emit_r MUL t0 t3 t2 ;;;
     emit_r ADD t0 t0 a3 ;;;
     emit_b VirtualAssertEQ t0 t1 0 ;;;
     emit_b VirtualAssertValidUnsignedRemainder a3 t2 0 ;;;
     emit_i VirtualSignExtendWord (r_rd (operands self)) a3 0)).

(** ** Narrow loads *)

Definition LB_inline_sequence_32 (self : Instr FormatLoad) :=
  let o := operands self in
  assemble self Bit32 (
    let_reg v_address in let_reg v_word_address in let_reg v_word in let_reg v_shift in
    (emit_i ADDI v_address (l_rs1 o) (as_u64 (l_imm o)) ;;;
     emit_i ANDI v_word_address v_address (as_u64 (-4)) ;;;
     emit_i VirtualLW v_word v_word_address 0 ;;;
     emit_i XORI v_shift v_address 3 ;;;
     emit_i SLLI v_shift v_shift 3 ;;;
     emit_r SLL (l_rd o) v_word v_shift ;;;
     emit_i SRAI (l_rd o) (l_rd o) 24)).

Definition LB_inline_sequence_64 (self : Instr FormatLoad) :=
  let o := operands self in
  assemble self Bit64 (
    let_reg v_address in let_reg v_dword_address in let_reg v_dword in let_reg v_shift in
    (emit_i ADDI v_address (l_rs1 o) (as_u64 (l_imm o)) ;;;
     emit_i ANDI v_dword_address v_address (as_u64 (-8)) ;;;
     emit_ld LD v_dword v_dword_address 0 ;;;
     emit_i XORI v_shift v_address 7 ;;;
     emit_i SLLI v_shift v_shift 3 ;;;
     emit_r SLL (l_rd o) v_dword v_shift ;;;
     emit_i SRAI (l_rd o) (l_rd o) 56)).

Definition LB_inline_sequence (self : Instr FormatLoad) (xl : Xlen) :=
  xlen_match xl (LB_inline_sequence_32 self) (LB_inline_sequence_64 self) panic.

Definition LBU_inline_sequence_32 (self : Instr FormatLoad) :=
  let o := operands self in
  assemble self Bit32 (
    let_reg v_address in let_reg v_word_address in let_reg v_word in let_reg v_shift in
    (emit_i ADDI v_address (l_rs1 o) (as_u64 (l_imm o)) ;;;
     emit_i ANDI v_word_address v_address (as_u64 (-4)) ;;;
     emit_i VirtualLW v_word v_word_address 0 ;;;
     emit_i XORI v_shift v_address 3 ;;;
     emit_i SLLI v_shift v_shift 3 ;;;
     emit_r SLL (l_rd o) v_word v_shift ;;;
     emit_i SRLI (l_rd o) (l_rd o) 24)).

Definition LBU_inline_sequence_64 (self : Instr FormatLoad) :=
  let o := operands self in
  assemble self Bit64 (
    let_reg v_address in let_reg v_dword_address in let_reg v_dword in let_reg v_shift in
    (emit_i ADDI v_address (l_rs1 o) (as_u64 (l_imm o)) ;;;
     emit_i ANDI v_dword_address v_address (as_u64 (-8)) ;;;
     emit_ld LD v_dword v_dword_address 0 ;;;
     emit_i XORI v_shift v_address 7 ;;;
     emit_i SLLI v_shift v_shift 3 ;;;
     emit_r SLL (l_rd o) v_dword v_shift ;;;
     emit_i SRLI (l_rd o) (l_rd o) 56)).

Definition LBU_inline_sequence (self : Instr FormatLoad) (xl : Xlen) :=
  xlen_match xl (LBU_inline_sequence_32 self) (LBU_inline_sequence_64 self) panic.

Definition LH_inline_sequence_32 (self : Instr FormatLoad) :=
  let o := operands self in
  assemble self Bit32 (
    let_reg v_address in let_reg v_word_address in let_reg v_word in let_reg v_shift in
    (emit_halign VirtualAssertHalfwordAlignment (l_rs1 o) (l_imm o) ;;;
     emit_i ADDI v_address (l_rs1 o) (as_u64 (l_imm o)) ;;;
     emit_i ANDI v_word_address v_address (as_u64 (-4)) ;;;
     emit_i VirtualLW v_word v_word_address 0 ;;;
     emit_i XORI v_shift v_address 2 ;;;
     emit_i SLLI v_shift v_shift 3 ;;;
     emit_r SLL (l_rd o) v_word v_shift ;;;
     emit_i SRAI (l_rd o) (l_rd o) 16)).

Definition LH_inline_sequence_64 (self : Instr FormatLoad) :=
  let o := operands self in
  assemble self Bit64 (
    let_reg v_address in let_reg v_dword_address in let_reg v_dword in let_reg v_shift in
    (emit_halign VirtualAssertHalfwordAlignment (l_rs1 o) (l_imm o) ;;;
     emit_i ADDI v_address (l_rs1 o) (as_u64 (l_imm o)) ;;;
     emit_i ANDI v_dword_address v_address (as_u64 (-8)) ;;;
     emit_ld LD v_dword v_dword_address 0 ;;;
     emit_i XORI v_shift v_address 6 ;;;
     emit_i SLLI v_shift v_shift 3 ;;;
     emit_r SLL (l_rd o) v_dword v_shift ;;;
     emit_i SRAI (l_rd o) (l_rd o) 48)).

Definition LH_inline_sequence (self : Instr FormatLoad) (xl : Xlen) :=
  xlen_match xl (LH_inline_sequence_32 self) (LH_inline_sequence_64 self) panic.

Definition LHU_inline_sequence_32 (self : Instr FormatLoad) :=
  let o := operands self in
  assemble self Bit32 (
    let_reg v_address in let_reg v_word_address in let_reg v_word in let_reg v_shift in
    (emit_halign VirtualAssertHalfwordAlignment (l_rs1 o) (l_imm o) ;;;
     emit_i ADDI v_address (l_rs1 o) (as_u64 (l_imm o)) ;;;
     emit_i ANDI v_word_address v_address (as_u64 (-4)) ;;;
     emit_i VirtualLW v_word v_word_address 0 ;;;
     emit_i XORI v_shift v_address 2 ;;;
     emit_i SLLI v_shift v_shift 3 ;;;
     emit_r SLL (l_rd o) v_word v_shift ;;;
     emit_i SRLI (l_rd o) (l_rd o) 16)).

Definition LHU_inline_sequence_64 (self : Instr FormatLoad) :=
  let o := operands self in
  assemble self Bit64 (
    let_reg v_address in let_reg v_dword_address in let_reg v_dword in let_reg v_shift in
    (emit_halign VirtualAssertHalfwordAlignment (l_rs1 o) (l_imm o) ;;;
     emit_i ADDI v_address (l_rs1 o) (as_u64 (l_imm o)) ;;;
     emit_i ANDI v_dword_address v_address (as_u64 (-8)) ;;;
     emit_ld LD v_dword v_dword_address 0 ;;;
     emit_i XORI v_shift v_address 6 ;;;
     emit_i SLLI v_shift v_shift 3 ;;;
     emit_r SLL (l_rd o) v_dword v_shift ;;;
     emit_i SRLI (l_rd o) (l_rd o) 48)).

Definition LHU_inline_sequence (self : Instr FormatLoad) (xl : Xlen) :=
  xlen_match xl (LHU_inline_sequence_32 self) (LHU_inline_sequence_64 self) panic.

Definition LW_inline_sequence_32 (self : Instr FormatLoad) :=
  let o := operands self in
  assemble self Bit32 (emit_i VirtualLW (l_rd o) (l_rs1 o) (as_u64 (l_imm o))).

Definition LW_inline_sequence_64 (self : Instr FormatLoad) :=
  let o := operands self in
  assemble self Bit64 (
    let_reg v_address in let_reg v_dword_address in let_reg v_dword in let_reg v_shift in
    (emit_halign VirtualAssertWordAlignment (l_rs1 o) (l_imm o) ;;;
     emit_i ADDI v_address (l_rs1 o) (as_u64 (l_imm o)) ;;;
     emit_i ANDI v_dword_address v_address (as_u64 (-8)) ;;;
     emit_ld LD v_dword v_dword_address 0 ;;;
     emit_i SLLI v_shift v_address 3 ;;;
     emit_r SRL (l_rd o) v_dword v_shift ;;;
     emit_i VirtualSignExtendWord (l_rd o) (l_rd o) 0)).

Definition LW_inline_sequence (self : Instr FormatLoad) (xl : Xlen) :=
  xlen_match xl (LW_inline_sequence_32 self) (LW_inline_sequence_64 self) panic.

Definition LWU_inline_sequence_64 (self : Instr FormatLoad) (xl : Xlen) :=
  let o := operands self in
  assemble self xl (
    let_reg v_address in let_reg v_dword_address in let_reg v_dword in let_reg v_shift in
    (emit_halign VirtualAssertWordAlignment (l_rs1 o) (l_imm o) ;;;
     emit_i ADDI v_address (l_rs1 o) (as_u64 (l_imm o)) ;;;
     emit_i ANDI v_dword_address v_address (as_u64 (-8)) ;;;
     emit_ld LD v_dword v_dword_address 0 ;;;
     emit_i XORI v_shift v_address 4 ;;;
     emit_i SLLI v_shift v_shift 3 ;;;
     emit_r SLL (l_rd o) v_dword v_shift ;;;
     emit_i SRLI (l_rd o) (l_rd o) 32)).

Definition LWU_inline_sequence (self : Instr FormatLoad) (xl : Xlen)
    : ST VirtualRegisterAllocator (list Instruction) :=
  match xl with
  | Bit32 => panic
  | Bit64 => LWU_inline_sequence_64 self xl
  end.

(** ** Narrow stores: read, modify, write of the containing word *)

Definition SB_inline_sequence_32 (self : Instr FormatS) :=
  let o := operands self in
  assemble self Bit32 (
    let_reg v_address in let_reg v_word_address in let_reg v_word in let_reg v_shift in
    let_reg v_mask in let_reg v_byte in
    (emit_i ADDI v_address (s_rs1 o) (as_u64 (s_imm o)) ;;;
     emit_i ANDI v_word_address v_address (as_u64 (-4)) ;;;
     emit_i VirtualLW v_word v_word_address 0 ;;;
     emit_i SLLI v_shift v_address 3 ;;;
     emit_u LUI v_mask 0xff ;;;
     emit_r SLL v_mask v_mask v_shift ;;;
     emit_r SLL v_byte (s_rs2 o) v_shift ;;;
     emit_r XOR v_byte v_word v_byte ;;;
     emit_r AND v_byte v_byte v_mask ;;;
     emit_r XOR v_word v_word v_byte ;;;
     emit_s VirtualSW v_word_address v_word 0)).

Definition SB_inline_sequence_64 (self : Instr FormatS) :=
  let o := operands self in
  assemble self Bit64 (
    let_reg v_address in let_reg v_dword_address in let_reg v_dword in let_reg v_shift in
    let_reg v_mask in let_reg v_byte in
    (emit_i ADDI v_address (s_rs1 o) (as_u64 (s_imm o)) ;;;
     emit_i ANDI v_dword_address v_address (as_u64 (-8)) ;;;
     emit_ld LD v_dword v_dword_address 0 ;;;
     emit_i SLLI v_shift v_address 3 ;;;
     emit_u LUI v_mask 0xff ;;;
     emit_r SLL v_mask v_mask v_shift ;;;
     emit_r SLL v_byte (s_rs2 o) v_shift ;;;
     emit_r XOR v_byte v_dword v_byte ;;;
     emit_r AND v_byte v_byte v_mask ;;;
     emit_r XOR v_dword v_dword v_byte ;;;
     emit_s SD v_dword_address v_dword 0)).

Definition SB_inline_sequence (self : Instr FormatS) (xl : Xlen) :=
  xlen_match xl (SB_inline_sequence_32 self) (SB_inline_sequence_64 self) panic.

Definition SH_inline_sequence_32 (self : Instr FormatS) :=
  let o := operands self in
  assemble self Bit32 (
    let_reg v_address in let_reg v_word_address in let_reg v_word in let_reg v_shift in
    let_reg v_mask in let_reg v_halfword in
    (emit_halign VirtualAssertHalfwordAlignment (s_rs1 o) (s_imm o) ;;;
     emit_i ADDI v_address (s_rs1 o) (as_u64 (s_imm o)) ;;;
     emit_i ANDI v_word_address v_address (as_u64 (-4)) ;;;
     emit_i VirtualLW v_word v_word_address 0 ;;;
     emit_i SLLI v_shift v_address 3 ;;;
     emit_u LUI v_mask 0xffff ;;;
     emit_r SLL v_mask v_mask v_shift ;;;
     emit_r SLL v_halfword (s_rs2 o) v_shift ;;;
     emit_r XOR v_halfword v_word v_halfword ;;;
     emit_r AND v_halfword v_halfword v_mask ;;;
     emit_r XOR v_word v_word v_halfword ;;;
     emit_s VirtualSW v_word_address v_word 0)).

Definition SH_inline_sequence_64 (self : Instr FormatS) :=
  let o := operands self in
  assemble self Bit64 (
    let_reg v_address in let_reg v_dword_address in let_reg v_dword in let_reg v_shift in
    let_reg v_mask in let_reg v_halfword in
    (emit_halign VirtualAssertHalfwordAlignment (s_rs1 o) (s_imm o) ;;;
     emit_i ADDI v_address (s_rs1 o) (as_u64 (s_imm o)) ;;;
     emit_i ANDI v_dword_address v_address (as_u64 (-8)) ;;;
     emit_ld LD v_dword v_dword_address 0 ;;;
     emit_i SLLI v_shift v_address 3 ;;;
     emit_u LUI v_mask 0xffff ;;;
     emit_r SLL v_mask v_mask v_shift ;;;
     emit_r SLL v_halfword (s_rs2 o) v_shift ;;;
     emit_r XOR v_halfword v_dword v_halfword ;;;
     emit_r AND v_halfword v_halfword v_mask ;;;
     emit_r XOR v_dword v_dword v_halfword ;;;
     emit_s SD v_dword_address v_dword 0)).

Definition SH_inline_sequence (self : Instr FormatS) (xl : Xlen) :=
  xlen_match xl (SH_inline_sequence_32 self) (SH_inline_sequence_64 self) panic.

Definition SW_inline_sequence_32 (self : Instr FormatS) :=
  let o := operands self in
  assemble self Bit32 (emit_s VirtualSW (s_rs1 o) (s_rs2 o) (s_imm o)).

Definition SW_inline_sequence_64 (self : Instr FormatS) :=
  let o := operands self in
  assemble self Bit64 (
    let_reg v_address in let_reg v_dword_address in let_reg v_dword in let_reg v_shift in
    let_reg v_mask in let_reg v_word in
    (emit_halign VirtualAssertWordAlignment (s_rs1 o) (s_imm o) ;;;
     emit_i ADDI v_address (s_rs1 o) (as_u64 (s_imm o)) ;;;
     emit_i ANDI v_dword_address v_address (as_u64 (-8)) ;;;
     emit_ld LD v_dword v_dword_address 0 ;;;
     emit_i SLLI v_shift v_address 3 ;;;
     emit_i ORI v_mask 0 (as_u64 (-1)) ;;;
     emit_i SRLI v_mask v_mask 32 ;;;
     emit_r SLL v_mask v_mask v_shift ;;;
     emit_r SLL v_word (s_rs2 o) v_shift ;;;
     emit_r XOR v_word v_dword v_word ;;;
     emit_r AND v_word v_word v_mask ;;;
     emit_r XOR v_dword v_dword v_word ;;;
     emit_s SD v_dword_address v_dword 0)).

Definition SW_inline_sequence (self : Instr FormatS) (xl : Xlen) :=
  xlen_match xl (SW_inline_sequence_32 self) (SW_inline_sequence_64 self) panic.

(** ** Atomic memory operations ([amo.rs], [amo*.rs]) *)

Definition amo_pre64 (rs1 v_rd v_dword_address v_dword v_shift : Z) : ST InstrAssembler unit :=
  emit_halign VirtualAssertWordAlignment rs1 0 ;;;
  emit_i ANDI v_dword_address rs1 (as_u64 (-8)) ;;;
  emit_ld LD v_dword v_dword_address 0 ;;;
  emit_i SLLI v_shift rs1 3 ;;;
  emit_r SRL v_rd v_dword v_shift.

Definition amo_post64 (rs2 v_dword_address v_dword v_shift v_mask v_word rd v_rd : Z) : ST InstrAssembler unit :=
  emit_i ORI v_mask 0 (as_u64 (-1)) ;;;
  emit_i SRLI v_mask v_mask 32 ;;;
  emit_r SLL v_mask v_mask v_shift ;;;
  emit_r SLL v_word rs2 v_shift ;;;
  emit_r XOR v_word v_dword v_word ;;;
  emit_r AND v_word v_word v_mask ;;;
  emit_r XOR v_dword v_dword v_word ;;;
  emit_s SD v_dword_address v_dword 0 ;;;
  emit_i VirtualSignExtendWord rd v_rd 0.

Definition amo_pre32 (rs1 v_rd : Z) : ST InstrAssembler unit :=
  emit_halign VirtualAssertWordAlignment rs1 0 ;;;
  emit_i VirtualLW v_rd rs1 0.

Definition amo_post32 (rs2 rs1 rd v_rd : Z) : ST InstrAssembler unit :=
  emit_s VirtualSW rs1 rs2 0 ;;;
  emit_i VirtualMove rd v_rd 0.

(** [AMOADDD], [AMOANDD], [AMOORD], [AMOXORD]: the same method with a different
    operation. *)
Definition amo_op_d (op : OpR) (self : Instr FormatR) (xl : Xlen) :=
  let o := operands self in
  assemble self xl (
    let_reg v_rs2 in let_reg v_rd in
    (emit_ld LD v_rd (r_rs1 o) 0 ;;;
     emit_r op v_rs2 v_rd (r_rs2 o) ;;;
     emit_s SD (r_rs1 o) v_rs2 0 ;;;
     emit_i VirtualMove (r_rd o) v_rd 0)).

Definition AMOADDD_inline_sequence := amo_op_d ADD.
Definition AMOANDD_inline_sequence := amo_op_d AND.
Definition AMOORD_inline_sequence := amo_op_d OR.
Definition AMOXORD_inline_sequence := amo_op_d XOR.

Definition AMOSWAPD_inline_sequence (self : Instr FormatR) (xl : Xlen) :=
  let o := operands self in
  assemble self xl (
    let_reg v_rd in
    (emit_ld LD v_rd (r_rs1 o) 0 ;;;
     emit_s SD (r_rs1 o) (r_rs2 o) 0 ;;;
     emit_i VirtualMove (r_rd o) v_rd 0)).

(** [AMOMIND], [AMOMINUD] select [rs2] when [cmp rs2 current]; [AMOMAXD],
    [AMOMAXUD] when [cmp current rs2].  The selection is branchless. *)
Definition amo_select_d (cmp : OpR) (rs2_first : bool) (self : Instr FormatR) (xl : Xlen) :=
  let o := operands self in
  assemble self xl (
    let_reg v_rs2 in let_reg v_rd in let_reg v_sel_rs2 in let_reg v_sel_rd in let_reg v_tmp in
    (emit_ld LD v_rd (r_rs1 o) 0 ;;;
     (if rs2_first then emit_r cmp v_sel_rs2 (r_rs2 o) v_rd else emit_r cmp v_sel_rs2 v_rd (r_rs2 o)) ;;;
     emit_i XORI v_sel_rd v_sel_rs2 1 ;;;
     emit_r MUL v_rs2 v_sel_rs2 (r_rs2 o) ;;;
     emit_r MUL v_tmp v_sel_rd v_rd ;;;
     emit_r ADD v_rs2 v_tmp v_rs2 ;;;
     emit_s SD (r_rs1 o) v_rs2 0 ;;;
     emit_i VirtualMove (r_rd o) v_rd 0)).

Definition AMOMIND_inline_sequence := amo_select_d SLT true.
Definition AMOMAXD_inline_sequence := amo_select_d SLT false.
Definition AMOMINUD_inline_sequence := amo_select_d SLTU true.
Definition AMOMAXUD_inline_sequence := amo_select_d SLTU false.

(** [AMOADDW], [AMOANDW], [AMOORW]. *)
Definition amo_op_w (op : OpR) (self : Instr FormatR) (xl : Xlen) :=
  let o := operands self in
  assemble self xl (
    let_reg v_rd in let_reg v_rs2 in
    (xlen_match xl
       (amo_pre32 (r_rs1 o) v_rd ;;;
        emit_r op v_rs2 v_rd (r_rs2 o) ;;;
        amo_post32 v_rs2 (r_rs1 o) (r_rd o) v_rd)
       (let_reg v_mask in let_reg v_dword_address in let_reg v_dword in let_reg v_word in let_reg v_shift in
        (amo_pre64 (r_rs1 o) v_rd v_dword_address v_dword v_shift ;;;
         emit_r op v_rs2 v_rd (r_rs2 o) ;;;
         amo_post64 v_rs2 v_dword_address v_dword v_shift v_mask v_word (r_rd o) v_rd))
       panic)).

Definition AMOADDW_inline_sequence := amo_op_w ADD.
Definition AMOANDW_inline_sequence := amo_op_w AND.
Definition AMOORW_inline_sequence := amo_op_w OR.

Definition AMOXORW_inline_sequence (self : Instr FormatR) (xl : Xlen) :=
  let o := operands self in
  assemble self xl (
    let_reg v_rs2 in let_reg v_rd in
    (emit_ld LW v_rd (r_rs1 o) 0 ;;;
     emit_r XOR v_rs2 v_rd (r_rs2 o) ;;;
     emit_s SW (r_rs1 o) v_rs2 0 ;;;
     emit_i VirtualMove (r_rd o) v_rd 0)).

Definition AMOSWAPW_inline_sequence (self : Instr FormatR) (xl : Xlen) :=
  let o := operands self in
  assemble self xl
    (xlen_match xl
       (let_reg v_rd in
        (emit_halign VirtualAssertWordAlignment (r_rs1 o) 0 ;;;
         emit_i VirtualLW v_rd (r_rs1 o) 0 ;;;
         emit_s VirtualSW (r_rs1 o) (r_rs2 o) 0 ;;;
         emit_i VirtualMove (r_rd o) v_rd 0))
       (let_reg v_mask in let_reg v_dword_address in let_reg v_dword in let_reg v_word in
        let_reg v_shift in let_reg v_rd in
        (emit_halign VirtualAssertWordAlignment (r_rs1 o) 0 ;;;
         emit_i ANDI v_dword_address (r_rs1 o) (as_u64 (-8)) ;;;
         emit_ld LD v_dword v_dword_address 0 ;;;
         emit_i SLLI v_shift (r_rs1 o) 3 ;;;
         emit_r SRL v_rd v_dword v_shift ;;;
         emit_i ORI v_mask 0 (as_u64 (-1)) ;;;
         emit_i SRLI v_mask v_mask 32 ;;;
         emit_r SLL v_mask v_mask v_shift ;;;
         emit_r SLL v_word (r_rs2 o) v_shift ;;;
         emit_r XOR v_word v_dword v_word ;;;
         emit_r AND v_word v_word v_mask ;;;
         emit_r XOR v_dword v_dword v_word ;;;
         emit_s SD v_dword_address v_dword 0 ;;;
         emit_i VirtualSignExtendWord (r_rd o) v_rd 0))
       panic).

(** [AMOMINW], [AMOMAXW], [AMOMINUW], [AMOMAXUW]: [ext] widens both operands of
    the comparison on the 64-bit machine. *)
Definition amo_select_w (cmp : OpR) (ext : OpI) (rs2_first : bool) (self : Instr FormatR) (xl : Xlen) :=
  let o := operands self in
  assemble self xl (
    let_reg v_rd in let_reg v_rs2 in let_reg v_sel_rs2 in let_reg v_sel_rd in let_reg v_tmp in
    (let select :=
       ((if rs2_first then emit_r cmp v_sel_rs2 v_rs2 v_tmp else emit_r cmp v_sel_rs2 v_tmp v_rs2) ;;;
        emit_i XORI v_sel_rd v_sel_rs2 1 ;;;
        emit_r MUL v_rs2 v_sel_rs2 (r_rs2 o) ;;;
        emit_r MUL v_tmp v_sel_rd v_rd ;;;
        emit_r ADD v_rs2 v_tmp v_rs2) in
     xlen_match xl
       (amo_pre32 (r_rs1 o) v_rd ;;;
        emit_i VirtualMove v_rs2 (r_rs2 o) 0 ;;;
        emit_i VirtualMove v_tmp v_rd 0 ;;;
        select ;;;
        amo_post32 v_rs2 (r_rs1 o) (r_rd o) v_rd)
       (let_reg v_mask in let_reg v_dword_address in let_reg v_dword in let_reg v_word in let_reg v_shift in
        (amo_pre64 (r_rs1 o) v_rd v_dword_address v_dword v_shift ;;;
         emit_i ext v_rs2 (r_rs2 o) 0 ;;;
         emit_i ext v_tmp v_rd 0 ;;;
         select ;;;
         amo_post64 v_rs2 v_dword_address v_dword v_shift v_mask v_word (r_rd o) v_rd))
       panic)).

Definition AMOMINW_inline_sequence := amo_select_w SLT VirtualSignExtendWord true.
Definition AMOMAXW_inline_sequence := amo_select_w SLT VirtualSignExtendWord false.
Definition AMOMINUW_inline_sequence := amo_select_w SLTU VirtualZeroExtendWord true.
Definition AMOMAXUW_inline_sequence := amo_select_w SLTU VirtualZeroExtendWord false.

(** ** Dispatch *)

(** The default method: [vec![self.into()]]. *)
Definition leaf (i : Instruction) : ST VirtualRegisterAllocator (list Instruction) := ret [i].

Definition sequence_R (op : OpR) (i : Instr FormatR) (xl : Xlen) : ST VirtualRegisterAllocator (list Instruction) :=
  match op with
  | SLL => SLL_inline_sequence i xl | SRL => SRL_inline_sequence i xl | SRA => SRA_inline_sequence i xl
  | MULH => MULH_inline_sequence i xl | MULHSU => MULHSU_inline_sequence i xl
  | DIV => DIV_inline_sequence i xl | DIVU => DIVU_inline_sequence i xl
  | REM => REM_inline_sequence i xl | REMU => REMU_inline_sequence i xl
  | ADDW => ADDW_inline_sequence i xl | SUBW => SUBW_inline_sequence i xl
  | SLLW => SLLW_inline_sequence i xl | SRLW => SRLW_inline_sequence i xl | SRAW => SRAW_inline_sequence i xl
  | MULW => MULW_inline_sequence i xl | DIVW => DIVW_inline_sequence i xl
  | DIVUW => DIVUW_inline_sequence i xl | REMW => REMW_inline_sequence i xl
  | REMUW => REMUW_inline_sequence i xl
  | AMOSWAPW => AMOSWAPW_inline_sequence i xl | AMOADDW => AMOADDW_inline_sequence i xl
  | AMOANDW => AMOANDW_inline_sequence i xl | AMOORW => AMOORW_inline_sequence i xl
  | AMOXORW => AMOXORW_inline_sequence i xl | AMOMINW => AMOMINW_inline_sequence i xl
  | AMOMAXW => AMOMAXW_inline_sequence i xl | AMOMINUW => AMOMINUW_inline_sequence i xl
  | AMOMAXUW => AMOMAXUW_inline_sequence i xl
  | AMOSWAPD => AMOSWAPD_inline_sequence i xl | AMOADDD => AMOADDD_inline_sequence i xl
  | AMOANDD => AMOANDD_inline_sequence i xl | AMOORD => AMOORD_inline_sequence i xl
  | AMOXORD => AMOXORD_inline_sequence i xl | AMOMIND => AMOMIND_inline_sequence i xl
  | AMOMAXD => AMOMAXD_inline_sequence i xl | AMOMINUD => AMOMINUD_inline_sequence i xl
  | AMOMAXUD => AMOMAXUD_inline_sequence i xl
  | _ => leaf (InstrR op i)
  end.

Definition sequence_I (op : OpI) (i : Instr FormatI) (xl : Xlen) : ST VirtualRegisterAllocator (list Instruction) :=
  match op with
  | SLLI => SLLI_inline_sequence i xl | SRLI => SRLI_inline_sequence i xl | SRAI => SRAI_inline_sequence i xl
  | ADDIW => ADDIW_inline_sequence i xl | SLLIW => SLLIW_inline_sequence i xl
  | SRLIW => SRLIW_inline_sequence i xl | SRAIW => SRAIW_inline_sequence i xl
  | _ => leaf (InstrI op i)
  end.

Definition sequence_Load (op : OpLoad) (i : Instr FormatLoad) (xl : Xlen)
    : ST VirtualRegisterAllocator (list Instruction) :=
  match op with
  | LB => LB_inline_sequence i xl | LBU => LBU_inline_sequence i xl | LH => LH_inline_sequence i xl
  | LHU => LHU_inline_sequence i xl | LW => LW_inline_sequence i xl | LWU => LWU_inline_sequence i xl
  | LD => leaf (InstrLoad op i)
  end.

Definition sequence_S (op : OpS) (i : Instr FormatS) (xl : Xlen) : ST VirtualRegisterAllocator (list Instruction) :=
  match op with
  | SB => SB_inline_sequence i xl | SH => SH_inline_sequence i xl | SW => SW_inline_sequence i xl
  | SD | VirtualSW => leaf (InstrS op i)
  end.

(** [INLINE::inline_sequence]: the registered builder runs on an assembler of
    the inline format. *)
Definition INLINE_inline_sequence `{InlineRegistry} (opcode funct3 funct7 : Z) (self : Instr FormatInline) (xl : Xlen)
    : ST VirtualRegisterAllocator (list Instruction) :=
  fun al =>
    match INLINE_REGISTRY opcode funct3 funct7 with
    | Some virtual_seq_fn =>
        match virtual_seq_fn rec (operands self)
                (InstrAssembler_new_inline (address self) (is_compressed self) xl al) with
        | Ok (s, a) => Ok (s, allocator a)
        | Panic => Panic
        | OutOfFuel => OutOfFuel
        end
    | None => Panic
    end.

Definition sequence_step `{InlineRegistry} (instr : Instruction) (xl : Xlen)
    : ST VirtualRegisterAllocator (list Instruction) :=
  match instr with
  | NoOp | UNIMPL => ret []
  | InstrR op i => sequence_R op i xl
  | InstrI op i => sequence_I op i xl
  | InstrLoad op i => sequence_Load op i xl
  | InstrS op i => sequence_S op i xl
  | INLINE opcode funct3 funct7 i => INLINE_inline_sequence opcode funct3 funct7 i xl
  | _ => leaf instr
  end.

End Sequences.

Section Close.
Context `{Build} `{InlineRegistry}.

Fixpoint inline_sequence_fuel (fuel : nat) : Expander :=
  match fuel with
  | O => fun _ _ _ => OutOfFuel
  | S n => sequence_step (inline_sequence_fuel n)
  end.

(** Depth 5: an inline of the registry over [AMOXORW] over [LW] over [SLLI] over
    a leaf. *)
Definition SEQUENCE_DEPTH : nat := 5.
Definition inline_sequence : Expander := inline_sequence_fuel SEQUENCE_DEPTH.

End Close.
