(* ===== verification/Trace.v ===== *)
(** * Tracing and the emulator cycle

    [Instruction::trace] and [RISCVTrace::trace] ([instruction/mod.rs] and the
    overriding methods of the instructions), the advice computed for the
    division family, and [Cpu::tick] ([emulator/cpu.rs]).  A traced run returns
    the cycles it pushes on the trace vector. *)

From Stdlib Require Import ZArith Lia List Bool.
From stdpp Require Import base list.
From S2P Require Import Prelude Words Types Mmu Isa Decode Allocator Cpu Exec Assembler Sequences.
Import ListNotations.
Local Open Scope Z_scope.
Local Open Scope rust_scope.

(** [RISCVCycle<I>], with the instruction as an [Instruction]. *)
Record Cycle := mkCycle {
  cycle_instruction : Instruction;
  register_state : RegisterState;
  ram_access : RAMAccess
}.

(** [Cycle::rs1_read], [rs2_read], [rd_write]: register index and values.  For an
    inline the third operand stands for [rd]. *)
Definition rs1_read (cy : Cycle) : Z * Z :=
  (n_rs1 (ni_operands (normalize (cycle_instruction cy))), st_rs1 (register_state cy)).
Definition rs2_read (cy : Cycle) : Z * Z :=
  (n_rs2 (ni_operands (normalize (cycle_instruction cy))), st_rs2 (register_state cy)).
Definition rd_write (cy : Cycle) : Z * Z * Z :=
  (n_rd (ni_operands (normalize (cycle_instruction cy))),
   st_rd_pre (register_state cy), st_rd_post (register_state cy)).

(** [normalize_register_value(cpu.x[r], &cpu.xlen)] *)
Definition captured (c : Cpu) (r : Z) : Res Z :=
  if reg_ok r then Ok (normalize_register_value (x c r) (xlen c)) else Panic.

Definition capture_pre (instr : Instruction) (c : Cpu) : Res RegisterState :=
  let d := RegisterState_default in
  match instr with
  | NoOp | UNIMPL => Panic
  | InstrR _ i => capture_pre_execution_state (operands i) (captured c) d
  | InstrI _ i => capture_pre_execution_state (operands i) (captured c) d
  | InstrLoad _ i => capture_pre_execution_state (operands i) (captured c) d
  | InstrS _ i => capture_pre_execution_state (operands i) (captured c) d
  | InstrB _ i => capture_pre_execution_state (operands i) (captured c) d
  | InstrJ _ i => capture_pre_execution_state (operands i) (captured c) d
  | InstrU _ i => capture_pre_execution_state (operands i) (captured c) d
  | InstrVI _ i => capture_pre_execution_state (operands i) (captured c) d
  | InstrVR _ i => capture_pre_execution_state (operands i) (captured c) d
  | InstrAlign _ i => capture_pre_execution_state (operands i) (captured c) d
  | VirtualAdvice i _ => capture_pre_execution_state (operands i) (captured c) d
  | INLINE _ _ _ i => capture_pre_execution_state (operands i) (captured c) d
  end.

Definition capture_post (instr : Instruction) (s : RegisterState) (c : Cpu) : Res RegisterState :=
  match instr with
  | NoOp | UNIMPL => Panic
  | InstrR _ i => capture_post_execution_state (operands i) (captured c) s
  | InstrI _ i => capture_post_execution_state (operands i) (captured c) s
  | InstrLoad _ i => capture_post_execution_state (operands i) (captured c) s
  | InstrS _ i => capture_post_execution_state (operands i) (captured c) s
  | InstrB _ i => capture_post_execution_state (operands i) (captured c) s
  | InstrJ _ i => capture_post_execution_state (operands i) (captured c) s
  | InstrU _ i => capture_post_execution_state (operands i) (captured c) s
  | InstrVI _ i => capture_post_execution_state (operands i) (captured c) s
  | InstrVR _ i => capture_post_execution_state (operands i) (captured c) s
  | InstrAlign _ i => capture_post_execution_state (operands i) (captured c) s
  | VirtualAdvice i _ => capture_post_execution_state (operands i) (captured c) s
  | INLINE _ _ _ i => capture_post_execution_state (operands i) (captured c) s
  end.

(** ** Advice of the division family

    Quotient and remainder as [u64], before the cast to [XlenInt]. *)

(** Rust's [/] and [%] on [i32] and [i64]: division by zero and the overflowing
    division panic in every build. *)
Definition div_signed (min a b : Z) : Res Z :=
  if (b =? 0) || ((a =? min) && (b =? -1)) then Panic else Ok (Z.quot a b).
Definition rem_signed (min a b : Z) : Res Z :=
  if (b =? 0) || ((a =? min) && (b =? -1)) then Panic else Ok (Z.rem a b).
Definition div_unsigned (a b : Z) : Res Z := if b =? 0 then Panic else Ok (a / b).
Definition rem_unsigned (a b : Z) : Res Z := if b =? 0 then Panic else Ok (a mod b).

Section Advice.
Context `{Build}.

(** [DIV::trace] and [REM::trace] compute the same pair. *)
Definition DIV_advice (c : Cpu) (x y : Z) : Res (Z * Z) :=
  match xlen c with
  | Bit32 =>
      if y =? 0 then Ok (u32_MAX, Z.abs (as_i32 x))
      else if (x =? most_negative c) && (y =? -1) then Ok (as_u32 x, 0)
      else
        let? quotient := div_signed i32_MIN (as_i32 x) (as_i32 y) in
        let? remainder := rem_signed i32_MIN (as_i32 x) (as_i32 y) in
        Ok (as_u32 quotient, Z.abs remainder)
  | Bit64 =>
      if y =? 0 then Ok (u64_MAX, Z.abs x)
      else if (x =? most_negative c) && (y =? -1) then Ok (as_u64 x, 0)
      else
        let? quotient := div_signed i64_MIN x y in
        let? remainder := rem_signed i64_MIN x y in
        Ok (as_u64 quotient, Z.abs remainder)
  end.

Definition REM_advice := DIV_advice.

Definition DIVU_advice (c : Cpu) (rs1 rs2 : Z) : Res (Z * Z) :=
  let x := as_u64 rs1 in
  let y := as_u64 rs2 in
  let? quotient :=
    (if y =? 0 then Ok (match xlen c with Bit32 => u32_MAX | Bit64 => u64_MAX end)
     else match xlen c with
          | Bit32 => div_unsigned (as_u32 x) (as_u32 y)
          | Bit64 => div_unsigned x y
          end) in
  let? remainder := (if y =? 0 then Ok x else let? p := mul_u64 quotient y in sub_u64 x p) in
  Ok (quotient, remainder).

Definition REMU_advice (c : Cpu) (rs1 rs2 : Z) : Res (Z * Z) :=
  let dividend := unsigned_data c rs1 in
  let divisor := unsigned_data c rs2 in
  let? quotient :=
    (if divisor =? 0 then Ok (match xlen c with Bit32 => u32_MAX | Bit64 => u64_MAX end)
     else div_unsigned dividend divisor) in
  let? remainder :=
    (if divisor =? 0 then Ok dividend
     else let? q := div_unsigned dividend divisor in
          let? p := mul_u64 q divisor in sub_u64 dividend p) in
  Ok (quotient, remainder).

(** [DIVW::trace] and [REMW::trace]; the quotient is an [i32]. *)
Definition DIVW_advice (c : Cpu) (rs1 rs2 : Z) : Res (Z * Z) :=
  let x := as_i32 rs1 in
  let y := as_i32 rs2 in
  match xlen c with
  | Bit32 => Panic
  | Bit64 =>
      if y =? 0 then Ok (-1, Z.abs x)
      else if (y =? -1) && (x =? i32_MIN) then Ok (i32_MIN, 0)
      else
        let? quotient := div_signed i32_MIN x y in
        let? remainder := rem_signed i32_MIN x y in
        Ok (quotient, Z.abs remainder)
  end.

Definition REMW_advice := DIVW_advice.

(** [DIVUW::trace] and [REMUW::trace]. *)
Definition DIVUW_advice (c : Cpu) (rs1 rs2 : Z) : Res (Z * Z) :=
  let x := as_u32 rs1 in
  let y := as_u32 rs2 in
  match xlen c with
  | Bit32 => Panic
  | Bit64 =>
      if y =? 0 then Ok (u64_MAX, x)
      else
        let? quotient := div_unsigned x y in
        let? remainder := rem_unsigned x y in
        Ok (quotient, remainder)
  end.

Definition REMUW_advice := DIVUW_advice.

(** The instructions whose [trace] fills in advice. *)
Definition advice_of (op : OpR) : option (Cpu -> Z -> Z -> Res (Z * Z)) :=
  match op with
  | DIV => Some DIV_advice | REM => Some REM_advice
  | DIVU => Some DIVU_advice | REMU => Some REMU_advice
  | DIVW => Some DIVW_advice | REMW => Some REMW_advice
  | DIVUW => Some DIVUW_advice | REMUW => Some REMUW_advice
  | _ => None
  end.

End Advice.

(** [if let Instruction::VirtualAdvice(instr) = &mut inline_sequence[k]
       { instr.advice = Some(v) } else { panic!(..) }] *)
Definition set_advice (k : nat) (v : Z) (s : list Instruction) : Res (list Instruction) :=
  match s !! k with
  | Some (VirtualAdvice i _) => Ok (<[k := VirtualAdvice i (Some v)]> s)
  | _ => Panic
  end.

(** Instructions that do not override [trace] and [inline_sequence]. *)
Definition is_leaf_R (op : OpR) : bool :=
  match op with
  | SLL | SRL | SRA | MULH | MULHSU | DIV | DIVU | REM | REMU
  | ADDW | SUBW | SLLW | SRLW | SRAW | MULW | DIVW | DIVUW | REMW | REMUW
  | AMOSWAPW | AMOADDW | AMOANDW | AMOORW | AMOXORW | AMOMINW | AMOMAXW | AMOMINUW | AMOMAXUW
  | AMOSWAPD | AMOADDD | AMOANDD | AMOORD | AMOXORD | AMOMIND | AMOMAXD | AMOMINUD | AMOMAXUD => false
  | _ => true
  end.

Definition is_leaf (i : Instruction) : bool :=
  match i with
  | NoOp | UNIMPL | INLINE _ _ _ _ => false
  | InstrR op _ => is_leaf_R op
  | InstrI op _ => match op with SLLI | SRLI | SRAI | ADDIW | SLLIW | SRLIW | SRAIW => false | _ => true end
  | InstrLoad op _ => match op with LD => true | _ => false end
  | InstrS op _ => match op with SB | SH | SW => false | _ => true end
  | _ => true
  end.

Section Trace.
Context `{Build} `{InlineRegistry}.

(** [self.inline_sequence(&cpu.vr_allocator, cpu.xlen)] *)
Definition expand (instr : Instruction) : ST Cpu (list Instruction) :=
  fun c => match inline_sequence instr (xlen c) (vr_allocator c) with
           | Ok (s, al) => Ok (s, set_vr_allocator al c)
           | Panic => Panic
           | OutOfFuel => OutOfFuel
           end.

(** The default [RISCVTrace::trace]. *)
Definition default_trace (instr : Instruction) : ST Cpu (list Cycle) :=
  pre <-- asks (capture_pre instr) ;;
  ram <-- execute instr ;;
  post <-- asks (capture_post instr pre) ;;
  ret [mkCycle instr post ram].

(** [for instr in inline_sequence { instr.trace(cpu, trace.as_deref_mut()) }] *)
Fixpoint trace_all (trace : Instruction -> ST Cpu (list Cycle)) (l : list Instruction) : ST Cpu (list Cycle) :=
  match l with
  | [] => ret []
  | i :: l' => c1 <-- trace i ;; c2 <-- trace_all trace l' ;; ret (c1 ++ c2)
  end.

(** The overriding [trace] of the division family: the advice is computed from
    the register values, the first two instructions of the sequence receive it. *)
Definition advice_trace (trace : Instruction -> ST Cpu (list Cycle)) (op : OpR) (i : Instr FormatR)
    (advice : Cpu -> Z -> Z -> Res (Z * Z)) : ST Cpu (list Cycle) :=
  a <-- get_x (r_rs1 (operands i)) ;;
  b <-- get_x (r_rs2 (operands i)) ;;
  qr <-- asks (fun c => advice c a b) ;;
  s <-- expand (InstrR op i) ;;
  s <-- lift (set_advice 0 (as_XlenInt (fst qr)) s) ;;
  s <-- lift (set_advice 1 (as_XlenInt (snd qr)) s) ;;
  trace_all trace s.

(** [RISCVTrace::trace] of each instruction ([Instruction::trace_raw]). *)
Definition trace_raw (trace : Instruction -> ST Cpu (list Cycle)) (instr : Instruction) : ST Cpu (list Cycle) :=
  match instr with
  | NoOp | UNIMPL => panic
  | InstrR op i =>
      match advice_of op with
      | Some advice => advice_trace trace op i advice
      | None => if is_leaf_R op then default_trace instr
                else s <-- expand instr ;; trace_all trace s
      end
  | _ => if is_leaf instr then default_trace instr else s <-- expand instr ;; trace_all trace s
  end.

(** [Instruction::trace]: with [rd = x0] the elements of the sequence are traced
    raw. *)
Fixpoint trace_fuel (fuel : nat) (instr : Instruction) : ST Cpu (list Cycle) :=
  match fuel with
  | O => fun _ => OutOfFuel
  | S n =>
      if n_rd (ni_operands (normalize instr)) =? 0 then
        s <-- expand instr ;; trace_all (trace_raw (trace_fuel n)) s
      else trace_raw (trace_fuel n) instr
  end.

(** The elements of a sequence are leaves: depth 2. *)
Definition TRACE_DEPTH : nat := 2.
Definition Instruction_trace : Instruction -> ST Cpu (list Cycle) := trace_fuel TRACE_DEPTH.

(** ** The emulator cycle *)

(** [tick_operate]; [tracing] says whether a trace vector is given. *)
Definition tick_operate (tracing : bool) : ST Cpu (Result (list Cycle) Trap) :=
  w <-- gets wfi ;;
  if w : bool then
    mie <-- get_csr CSR_MIE_ADDRESS ;;
    mip <-- get_csr CSR_MIP_ADDRESS ;;
    (if negb (Z.land mie mip =? 0) then modify (set_wfi false) else ret tt) ;;;
    ret (ROk [])
  else
    f <-- cpu_fetch ;;
    match f with
    | RErr e => ret (RErr e)
    | ROk original_word =>
        instruction_address <-- gets (fun c => normalize_u64 (pc c) (xlen c)) ;;
        let is_compressed := negb (Z.land original_word 0x3 =? 0x3) in
        word <-- (if is_compressed then
                    modify (fun c => set_pc (as_u64 (pc c + 2)) c) ;;;
                    gets (fun c => uncompress_instruction (Z.land original_word 0xffff) (xlen c))
                  else modify (fun c => set_pc (as_u64 (pc c + 4)) c) ;;; ret original_word) ;;
        d <-- lift (decode word instruction_address is_compressed) ;;
        match d with
        | RErr _ => panic
        | ROk instr =>
            cycles <-- (if tracing then
                          cs <-- Instruction_trace instr ;;
                          s <-- expand instr ;;
                          n <-- asks (fun c => add_u64 (trace_len c) (Z.of_nat (length s))) ;;
                          modify (set_trace_len n) ;;; ret cs
                        else
                          execute instr ;;;
                          n <-- asks (fun c => add_u64 (trace_len c) 1) ;;
                          modify (set_trace_len n) ;;; ret []) ;;
            (if is_real instr then
               n <-- asks (fun c => add_u64 (executed_instrs c) 1) ;; modify (set_executed_instrs n)
             else ret tt) ;;;
            put_x 0 0 ;;;
            ret (ROk cycles)
        end
    end.

Definition tick (tracing : bool) : ST Cpu (list Cycle) :=
  instruction_address <-- gets pc ;;
  r <-- tick_operate tracing ;;
  cycles <-- match r with
             | ROk cs => ret cs
             | RErr e => handle_exception e instruction_address ;;; ret []
             end ;;
  modify (fun c => set_mmu (mmu_tick (mmu c)) c) ;;;
  p <-- gets pc ;;
  handle_interrupt p ;;;
  modify (fun c => set_clock (as_u64 (clock c + 1)) c) ;;;
  cyc <-- asks (fun c => mul_u64 (clock c) 8) ;;
  write_csr_raw CSR_CYCLE_ADDRESS cyc ;;;
  ret cycles.

End Trace.
