(* ===== verification/Step.v ===== *)
(** * Running leaf instructions

    [run] executes a list of instructions and forgets the access records.  For
    the 64-bit machine, the leaves that only touch registers are given by pure
    functions ([alu64_R], ...), and a traced sequence of leaves leaves the state
    that [run] does. *)

From Stdlib Require Import ZArith Lia List Bool.
From stdpp Require Import base list.
From S2P Require Import Prelude Words Types Memory Device Mmu Isa Decode Allocator Cpu Exec Assembler Sequences Trace.
Import ListNotations.
Local Open Scope Z_scope.
Local Open Scope rust_scope.

(** The state part of an outcome. *)
Definition strip {A S : Type} (r : Res (A * S)) : Res S :=
  match r with
  | Ok (_, s) => Ok s
  | Panic => Panic
  | OutOfFuel => OutOfFuel
  end.

Fixpoint run `{Build} (l : list Instruction) (c : Cpu) : Res Cpu :=
  match l with
  | [] => Ok c
  | i :: l' => let? c' := strip (execute i c) in run l' c'
  end.

(** ** Well-formed states of the 64-bit machine *)

(** The registers reserved for instruction sequences are free: so it is
    whenever no sequence is being assembled. *)
Definition pool_free (al : VirtualRegisterAllocator) : Prop :=
  exists rest, allocated al = replicate NUM_VIRTUAL_INSTRUCTION_REGISTERS false ++ rest.

Record cpu_ok64 (c : Cpu) : Prop := {
  ok_xlen : xlen c = Bit64;
  ok_mmu_xlen : mmu_xlen (mmu c) = Bit64;
  ok_mask : unsigned_data_mask c = 0xffffffffffffffff;
  ok_x : forall r, is_i64 (x c r);
  ok_x0 : x c 0 = 0;
  ok_pool : pool_free (vr_allocator c)
}.

(** Every register operand names a register. *)
Definition regs_ok (i : Instruction) : bool :=
  match i with
  | NoOp | UNIMPL => false
  | InstrR _ i => reg_ok (r_rd (operands i)) && reg_ok (r_rs1 (operands i)) && reg_ok (r_rs2 (operands i))
  | InstrI _ i => reg_ok (i_rd (operands i)) && reg_ok (i_rs1 (operands i))
  | InstrLoad _ i => reg_ok (l_rd (operands i)) && reg_ok (l_rs1 (operands i))
  | InstrS _ i => reg_ok (s_rs1 (operands i)) && reg_ok (s_rs2 (operands i))
  | InstrB _ i => reg_ok (b_rs1 (operands i)) && reg_ok (b_rs2 (operands i))
  | InstrJ _ i => reg_ok (j_rd (operands i))
  | InstrU _ i => reg_ok (u_rd (operands i))
  | InstrVI _ i => reg_ok (vi_rd (operands i)) && reg_ok (vi_rs1 (operands i))
  | InstrVR _ i => reg_ok (vr_rd (operands i)) && reg_ok (vr_rs1 (operands i)) && reg_ok (vr_rs2 (operands i))
  | InstrAlign _ i => reg_ok (a_rs1 (operands i))
  | VirtualAdvice i _ => reg_ok (j_rd (operands i))
  | INLINE _ _ _ i => reg_ok (in_rs1 (operands i)) && reg_ok (in_rs2 (operands i)) && reg_ok (in_rs3 (operands i))
  end.

(** ** Leaves as functions of registers, on the 64-bit machine *)

Definition alu64_R (op : OpR) : option (Z -> Z -> Z) :=
  match op with
  | ADD => Some (fun a b => as_i64 (a + b))
  | SUB => Some (fun a b => as_i64 (a - b))
  | AND => Some Z.land
  | ANDN => Some (fun a b => Z.land a (Z.lnot b))
  | OR => Some Z.lor
  | XOR => Some Z.lxor
  | SLT => Some (fun a b => bool_i64 (a <? b))
  | SLTU => Some (fun a b => bool_i64 (as_u64 a <? as_u64 b))
  | MUL => Some (fun a b => as_i64 (a * b))
  | MULHU => Some (fun a b => as_i64 (Z.shiftr (as_u64 a * as_u64 b) 64))
  | VirtualChangeDivisor => Some (fun a b => if (a =? i64_MIN) && (b =? -1) then 1 else b)
  | VirtualChangeDivisorW => Some (fun a b => if (as_i32 a =? i32_MIN) && (as_i32 b =? -1) then 1 else as_i32 b)
  | _ => None
  end.

(** The bitmask that encodes a right shift by [s]. *)
Definition shift_bitmask (s : Z) : Z := as_i64 (Z.shiftl (Z.shiftl 1 (64 - s) - 1) s).

Definition alu64_I (op : OpI) : option (Z -> Z -> Z) :=
  match op with
  | ADDI => Some (fun a imm => as_i64 (a + as_i64 imm))
  | ANDI => Some (fun a imm => Z.land a (as_i64 imm))
  | ORI => Some (fun a imm => Z.lor a (as_i64 imm))
  | XORI => Some (fun a imm => Z.lxor a (as_i64 imm))
  | VirtualMULI => Some (fun a imm => as_i64 (a * as_i64 imm))
  | VirtualMove => Some (fun a _ => a)
  | VirtualMovsign => Some (fun a _ => if a <? 0 then -1 else 0)
  | VirtualPow2 => Some (fun a _ => as_i64 (Z.shiftl 1 (as_u64 a mod 64)))
  | VirtualPow2W => Some (fun a _ => Z.shiftl 1 (as_u64 a mod 32))
  | VirtualShiftRightBitmask => Some (fun a _ => shift_bitmask (as_u64 a mod 64))
  | VirtualSignExtendWord => Some (fun a _ => as_i32 a)
  | VirtualZeroExtendWord => Some (fun a _ => as_u32 a)
  | _ => None
  end.

Definition alu64_VI (op : OpVI) : option (Z -> Z -> Z) :=
  match op with
  | VirtualSRAI => Some (fun a imm => Z.shiftr a (trailing_zeros 64 imm mod 64))
  | VirtualSRLI => Some (fun a imm => as_i64 (Z.shiftr (as_u64 a) (trailing_zeros 64 imm mod 64)))
  | _ => None
  end.

Definition alu64_VR (op : OpVR) : Z -> Z -> Z :=
  match op with
  | VirtualSRA => fun a b => Z.shiftr a (trailing_zeros 64 b mod 64)
  | VirtualSRL => fun a b => as_i64 (Z.shiftr (as_u64 a) (trailing_zeros 64 b mod 64))
  end.

Definition check64_B (op : OpB) : option (Z -> Z -> bool) :=
  match op with
  | VirtualAssertEQ => Some Z.eqb
  | VirtualAssertLTE => Some (fun a b => as_u64 a <=? as_u64 b)
  | VirtualAssertMulUNoOverflow => Some (fun a b => as_u64 a * as_u64 b <? 18446744073709551616)
  | VirtualAssertValidDiv0 => Some (fun d q => negb (d =? 0) || (q =? -1))
  | VirtualAssertValidUnsignedRemainder => Some (fun r d => (d =? 0) || (as_u64 r <? as_u64 d))
  | _ => None
  end.

(** ** Lemmas *)

Lemma unsigned_data_64 c v : unsigned_data_mask c = 0xffffffffffffffff -> unsigned_data c v = as_u64 v.
Proof. intros Hm. unfold unsigned_data. rewrite Hm. bitblast. Qed.

Lemma mul_u64_bound a b : is_u64 a -> is_u64 b ->
  0 <= a * b < 340282366920938463463374607431768211456.
Proof. unfold is_u64. intros Ha Hb. nia. Qed.

Lemma movsign_64 a : is_i64 a ->
  (if negb (Z.land (as_u64 a) SIGN_BIT_64 =? 0) then as_i64 ALL_ONES_64 else 0) = if a <? 0 then -1 else 0.
Proof.
  intros Ha. unfold SIGN_BIT_64.
  replace 0x8000000000000000 with (2 ^ 63) by reflexivity.
  assert (E : Z.land (as_u64 a) (2 ^ 63) = if a <? 0 then 2 ^ 63 else 0).
  { apply Z.bits_inj'. intros n Hn. rewrite Z.land_spec, Z.pow2_bits_eqb, tb_u64 by lia.
    destruct (Z.eqb_spec 63 n) as [<-|Hne].
    - rewrite andb_true_r. cbn [Z.ltb Z.compare Pos.compare Pos.compare_cont andb].
      change 63 with (64 - 1). rewrite testbit_top by lia. unfold is_i64 in Ha.
      destruct (Z.ltb_spec a 0); change (2 ^ (64 - 1)) with 9223372036854775808;
        change (2 ^ 64) with 18446744073709551616; change (64 - 1) with 63.
      + change (Z.testbit (2 ^ 63) 63) with true. apply Z.leb_le. lia.
      + rewrite tb_0. apply Z.leb_gt. lia.
    - rewrite andb_false_r. destruct (a <? 0); [|by rewrite tb_0].
      rewrite Z.pow2_bits_eqb by lia. symmetry. by apply Z.eqb_neq. }
  rewrite E. by destruct (a <? 0).
Qed.

Lemma land_mod a w : 0 <= w -> Z.land a (Z.ones w) = a mod 2 ^ w.
Proof. apply Z.land_ones. Qed.

Lemma sign_extend_word a : Z.shiftr (as_i64 (Z.shiftl a 32)) 32 = as_i32 a.
Proof.
  rewrite Z.shiftl_mul_pow2, Z.shiftr_div_pow2 by lia.
  change (2 ^ 32) with 4294967296. unfold as_i64, as_i32. lia.
Qed.

Lemma zero_extend_word a : Z.land a 0xffffffff = as_u32 a.
Proof. change 0xffffffff with (Z.ones 32). rewrite land_mod by lia. reflexivity. Qed.

Lemma pow2w_i64 n : 0 <= n < 32 -> as_i64 (Z.shiftl 1 n) = Z.shiftl 1 n.
Proof.
  intros Hn. apply as_i64_small. rewrite Z.shiftl_1_l. unfold is_i64.
  pose proof (Z.pow_lt_mono_r 2 n 32). pose proof (Z.pow_pos_nonneg 2 n). lia.
Qed.

Lemma shift_bitmask_u128 s : 0 <= s < 64 ->
  as_i64 (as_u128 (Z.shiftl (as_u128 (Z.shiftl 1 (64 - s)) - 1) s)) = shift_bitmask s.
Proof.
  intros Hs. unfold shift_bitmask. rewrite !Z.shiftl_mul_pow2, !Z.mul_1_l by lia.
  assert (0 < 2 ^ (64 - s) <= 2 ^ 64) by (split; [apply Z.pow_pos_nonneg; lia | apply Z.pow_le_mono_r; lia]).
  assert (E : 2 ^ (64 - s) * 2 ^ s = 2 ^ 64) by (rewrite <- Z.pow_add_r by lia; f_equal; lia).
  assert (0 < 2 ^ s) by (apply Z.pow_pos_nonneg; lia).
  change (2 ^ 64) with 18446744073709551616 in *.
  replace (as_u128 (2 ^ (64 - s))) with (2 ^ (64 - s)) by (unfold as_u128; lia).
  rewrite Z.mul_sub_distr_r, E.
  f_equal. unfold as_u128. rewrite Z.mod_small; [reflexivity|]. nia.
Qed.

Section Leaves.
Context `{B : Build} (c0 : Cpu) (Hxl : xlen c0 = Bit64) (Hmask : unsigned_data_mask c0 = 0xffffffffffffffff).

Lemma rr_exec_ok f i X v :
  reg_ok (r_rd (operands i)) && reg_ok (r_rs1 (operands i)) && reg_ok (r_rs2 (operands i)) = true ->
  f (set_x X c0) (X (r_rs1 (operands i))) (X (r_rs2 (operands i))) = Ok v ->
  no_ram (rr_exec f i) (set_x X c0) = Ok (RANoOp, set_x (zupd X (r_rd (operands i)) v) c0).
Proof.
  intros [[Hd H1]%andb_prop H2]%andb_prop Hf.
  unfold no_ram, rr_exec, bind, get_x, asks, lift, put_x. rewrite H1. cbn [set_x x]. rewrite H2.
  cbn [set_x x] in Hf. rewrite Hf, Hd. reflexivity.
Qed.

Lemma ri_exec_ok f i X v :
  reg_ok (i_rd (operands i)) && reg_ok (i_rs1 (operands i)) = true ->
  f (set_x X c0) (X (i_rs1 (operands i))) (i_imm (operands i)) = Ok v ->
  no_ram (ri_exec f i) (set_x X c0) = Ok (RANoOp, set_x (zupd X (i_rd (operands i)) v) c0).
Proof.
  intros [Hd H1]%andb_prop Hf.
  unfold no_ram, ri_exec, bind, get_x, asks, lift, put_x. rewrite H1. cbn [set_x x].
  cbn [set_x x] in Hf. rewrite Hf, Hd. reflexivity.
Qed.

Lemma step_R op g i X :
  alu64_R op = Some g -> regs_ok (InstrR op i) = true -> (forall r, is_i64 (X r)) ->
  execute (InstrR op i) (set_x X c0) =
    Ok (RANoOp, set_x (zupd X (r_rd (operands i)) (g (X (r_rs1 (operands i))) (X (r_rs2 (operands i))))) c0).
Proof.
  intros Hg Hr HX.
  destruct op; try discriminate Hg; injection Hg as <-; apply rr_exec_ok; try exact Hr;
    unfold sign_extend; cbn [set_x xlen]; rewrite ?Hxl; rewrite ?unsigned_data_64 by exact Hmask; try reflexivity.
  - unfold as_u128. by rewrite Z.mod_small by (apply mul_u64_bound; apply as_u64_range).
  - by destruct (_ && _).
  - by destruct (_ && _).
Qed.

Lemma step_I op g i X :
  alu64_I op = Some g -> regs_ok (InstrI op i) = true -> (forall r, is_i64 (X r)) ->
  execute (InstrI op i) (set_x X c0) =
    Ok (RANoOp, set_x (zupd X (i_rd (operands i)) (g (X (i_rs1 (operands i))) (i_imm (operands i)))) c0).
Proof.
  intros Hg Hr HX.
  destruct op; try discriminate Hg; injection Hg as <-; apply ri_exec_ok; try exact Hr;
    unfold sign_extend; cbn [set_x xlen]; rewrite ?Hxl; try reflexivity.
  - cbv zeta. by rewrite movsign_64.
  - rewrite pow2w_i64; [done|]. apply Z.mod_pos_bound. lia.
  - cbv zeta. change 0x3f with (Z.ones 6). rewrite land_mod by lia. change (2 ^ 6) with 64.
    rewrite shift_bitmask_u128; [done|]. apply Z.mod_pos_bound. lia.
  - by rewrite sign_extend_word.
  - by rewrite zero_extend_word.
Qed.

Lemma step_VI op g i X :
  alu64_VI op = Some g -> regs_ok (InstrVI op i) = true ->
  execute (InstrVI op i) (set_x X c0) =
    Ok (RANoOp, set_x (zupd X (vi_rd (operands i)) (g (X (vi_rs1 (operands i))) (vi_imm (operands i)))) c0).
Proof.
  intros Hg [Hd H1]%andb_prop.
  destruct op; try discriminate Hg; injection Hg as <-;
    cbn [execute exec_VI]; unfold no_ram, VirtualSRAI_exec, VirtualSRLI_exec, rvi_exec, bind, get_x, asks, lift, put_x;
    rewrite H1; cbn [set_x x]; rewrite Hd;
    unfold sign_extend; cbn [set_x xlen]; rewrite Hxl; rewrite ?unsigned_data_64 by exact Hmask; reflexivity.
Qed.

Lemma step_VR op i X :
  regs_ok (InstrVR op i) = true ->
  execute (InstrVR op i) (set_x X c0) =
    Ok (RANoOp, set_x (zupd X (vr_rd (operands i)) (alu64_VR op (X (vr_rs1 (operands i))) (X (vr_rs2 (operands i))))) c0).
Proof.
  intros [[Hd H1]%andb_prop H2]%andb_prop.
  destruct op; cbn [execute exec_VR];
    unfold no_ram, VirtualSRA_exec, VirtualSRL_exec, rvr_exec, bind, get_x, asks, lift, put_x;
    rewrite H1; cbn [set_x x]; rewrite H2, Hd;
    unfold sign_extend; cbn [set_x xlen]; rewrite Hxl; rewrite ?unsigned_data_64 by exact Hmask; reflexivity.
Qed.

(** A failed check panics. *)
Lemma step_check op g i X :
  check64_B op = Some g -> regs_ok (InstrB op i) = true -> (forall r, is_i64 (X r)) ->
  execute (InstrB op i) (set_x X c0) =
    if g (X (b_rs1 (operands i))) (X (b_rs2 (operands i))) then Ok (RANoOp, set_x X c0) else Panic.
Proof.
  intros Hg [H1 H2]%andb_prop HX.
  destruct op; try discriminate Hg; injection Hg as <-; cbn [execute exec_B];
    unfold no_ram, VirtualAssertEQ_exec, VirtualAssertLTE_exec, VirtualAssertMulUNoOverflow_exec,
      VirtualAssertValidDiv0_exec, VirtualAssertValidUnsignedRemainder_exec, assert_exec, bind, get_x, gets, assert_that;
    rewrite H1; cbn [set_x x xlen]; rewrite H2; cbn [set_x x xlen]; rewrite ?Hxl; unfold ret.
  - by destruct (_ =? _).
  - by destruct (_ <=? _).
  - by destruct (_ <? _).
  - specialize (HX (b_rs2 (operands i))). revert HX. generalize (X (b_rs2 (operands i))). intros q Hq.
    destruct (_ =? 0); [|done]. cbn [negb orb].
    replace (as_u64 q =? u64_MAX) with (q =? -1); [by destruct (q =? -1)|].
    unfold is_i64 in Hq. unfold as_u64, u64_MAX.
    destruct (Z.eqb_spec q (-1)); symmetry; [apply Z.eqb_eq | apply Z.eqb_neq]; lia.
  - pose proof (HX (b_rs2 (operands i))) as Hd. revert Hd. generalize (X (b_rs2 (operands i))). intros d Hd.
    replace (as_u64 d =? 0) with (d =? 0); [by destruct (_ || _)|].
    unfold is_i64 in Hd. unfold as_u64.
    destruct (Z.eqb_spec d 0); symmetry; [apply Z.eqb_eq | apply Z.eqb_neq]; lia.
Qed.

Lemma step_LUI i X :
  regs_ok (InstrU LUI i) = true ->
  execute (InstrU LUI i) (set_x X c0) = Ok (RANoOp, set_x (zupd X (u_rd (operands i)) (as_i64 (u_imm (operands i)))) c0).
Proof.
  intros Hd. cbn [execute exec_U]. unfold no_ram, LUI_exec, bind, gets, put_x. cbn [regs_ok] in Hd. rewrite Hd.
  cbn [set_x xlen x]. by rewrite Hxl.
Qed.

Lemma step_advice i v X :
  regs_ok (VirtualAdvice i (Some v)) = true ->
  execute (VirtualAdvice i (Some v)) (set_x X c0) =
    Ok (RANoOp, set_x (zupd X (j_rd (operands i)) (as_i64 v)) c0).
Proof.
  intros Hd. cbn [execute]. unfold no_ram, VirtualAdvice_execute, bind, put_x. cbn [regs_ok] in Hd. by rewrite Hd.
Qed.

End Leaves.

(** ** Traced sequences

    [traced r l c]: the outcome [r] of a traced run is that of [run l c], with
    one cycle per instruction of [l], in order. *)
Definition traced `{Build} (r : Res (list Cycle * Cpu)) (l : list Instruction) (c : Cpu) : Prop :=
  match r with
  | Ok (cs, c') => run l c = Ok c' /\ map cycle_instruction cs = l
  | Panic => run l c = Panic
  | OutOfFuel => run l c = OutOfFuel
  end.

(** What the elements of a sequence satisfy. *)
Definition leaf_ok (i : Instruction) : bool := is_leaf i && regs_ok i.

Lemma captured_ok c r : reg_ok r = true -> captured c r = Ok (normalize_register_value (x c r) (xlen c)).
Proof. unfold captured. by intros ->. Qed.

Lemma capture_pre_ok i c : regs_ok i = true -> exists s, capture_pre i c = Ok s.
Proof.
  destruct i; cbn [regs_ok]; intros Hr; try discriminate; rewrite ?andb_true_iff in Hr;
    cbn [capture_pre capture_pre_execution_state FormatR_format FormatI_format FormatLoad_format FormatS_format
         FormatB_format FormatJ_format FormatU_format FormatVI_format FormatVR_format AssertAlign_format
         FormatInline_format];
    rewrite ?captured_ok by tauto; cbn [res_bind]; eauto.
Qed.

Lemma capture_post_ok i s c : regs_ok i = true -> exists s', capture_post i s c = Ok s'.
Proof.
  destruct i; cbn [regs_ok]; intros Hr; try discriminate; rewrite ?andb_true_iff in Hr;
    cbn [capture_post capture_post_execution_state FormatR_format FormatI_format FormatLoad_format FormatS_format
         FormatB_format FormatJ_format FormatU_format FormatVI_format FormatVR_format AssertAlign_format
         FormatInline_format];
    rewrite ?captured_ok by tauto; cbn [res_bind]; eauto.
Qed.

Section Traced.
Context `{B : Build} `{R : InlineRegistry}.

Lemma default_trace_traced i c : regs_ok i = true -> traced (default_trace i c) [i] c.
Proof.
  intros Hr. unfold default_trace, bind, asks, lift. destruct (capture_pre_ok i c Hr) as [s Hs]. rewrite Hs.
  unfold traced. cbn [run]. destruct (execute i c) as [[ra c']| |]; cbn [strip res_bind]; try done.
  destruct (capture_post_ok i s c' Hr) as [s' Hs']. by rewrite Hs'.
Qed.

Lemma set_vr_allocator_id c : set_vr_allocator (vr_allocator c) c = c.
Proof. by destruct c. Qed.

Lemma expand_leaf i c : is_leaf i = true -> expand i c = Ok ([i], c).
Proof.
  intros Hl. unfold expand, inline_sequence.
  change (inline_sequence_fuel SEQUENCE_DEPTH) with (sequence_step (inline_sequence_fuel 4)).
  assert (E : sequence_step (inline_sequence_fuel 4) i (xlen c) (vr_allocator c) = Ok ([i], vr_allocator c)).
  { destruct i as [| |op ?|op ?|op ?|op ?|op ?|op ?|op ?|op ?|op ?|op ?|? ?|? ? ? ?]; try discriminate Hl;
      cbn [sequence_step]; try reflexivity;
      destruct op; try discriminate Hl; reflexivity. }
  rewrite E. by rewrite set_vr_allocator_id.
Qed.

Lemma trace_raw_leaf t i c : is_leaf i = true -> trace_raw t i c = default_trace i c.
Proof.
  intros Hl. destruct i as [| |op ?|op ?|op ?|op ?|op ?|op ?|op ?|op ?|op ?|op ?|? ?|? ? ? ?];
    try discriminate Hl; cbn [trace_raw]; rewrite ?Hl; try reflexivity.
  destruct op; try discriminate Hl; reflexivity.
Qed.

Lemma traced_app r1 r2 l1 l2 c :
  traced r1 l1 c ->
  (forall cs c', r1 = Ok (cs, c') -> traced (r2 c') l2 c') ->
  traced (match r1 with
          | Ok (cs1, c') => match r2 c' with
                            | Ok (cs2, c'') => Ok (cs1 ++ cs2, c'')
                            | Panic => Panic | OutOfFuel => OutOfFuel
                            end
          | Panic => Panic | OutOfFuel => OutOfFuel
          end) (l1 ++ l2) c.
Proof.
  assert (Hrun : forall l c, run (l ++ l2) c = let? c' := run l c in run l2 c').
  { induction l as [|i l IH]; intros c'; cbn [run app res_bind]; [done|].
    destruct (strip (execute i c')); cbn [res_bind]; auto. }
  unfold traced at 1 3. rewrite Hrun. destruct r1 as [[cs c']| |].
  - intros [-> Hm] H2. specialize (H2 cs c' eq_refl). cbn [res_bind]. unfold traced in H2.
    destruct (r2 c') as [[cs2 c'']| |]; try done. destruct H2 as [-> Hm2]. by rewrite map_app, Hm, Hm2.
  - by intros -> _.
  - by intros -> _.
Qed.

Lemma trace_all_traced t l :
  (forall i c, leaf_ok i = true -> traced (t i c) [i] c) ->
  forallb leaf_ok l = true -> forall c, traced (trace_all t l c) l c.
Proof.
  intros Ht. induction l as [|i l IH]; cbn [forallb trace_all]; intros Hl c; [done|].
  apply andb_prop in Hl as [Hi Hl].
  unfold bind, ret. apply (traced_app (t i c) (trace_all t l) [i] l c).
  - by apply Ht.
  - intros cs c' _. by apply IH.
Qed.

Lemma trace_fuel_S n i :
  trace_fuel (S n) i =
    if n_rd (ni_operands (normalize i)) =? 0 then bind (expand i) (fun s => trace_all (trace_raw (trace_fuel n)) s)
    else trace_raw (trace_fuel n) i.
Proof. reflexivity. Qed.

Lemma trace_raw_traced t i c : leaf_ok i = true -> traced (trace_raw t i c) [i] c.
Proof. intros [Hl Hr]%andb_prop. rewrite trace_raw_leaf by done. by apply default_trace_traced. Qed.

Lemma trace_leaf_traced n i c : leaf_ok i = true -> traced (trace_fuel (S n) i c) [i] c.
Proof.
  intros Hi. rewrite trace_fuel_S. destruct (_ =? 0); [|by apply trace_raw_traced].
  pose proof Hi as [Hl _]%andb_prop. unfold bind. rewrite (expand_leaf i c Hl).
  apply trace_all_traced; [intros; by apply trace_raw_traced|]. cbn [forallb]. by rewrite Hi.
Qed.

(** Tracing an instruction that is not of the division family. *)
Lemma trace_sequence i s c :
  match i with InstrR op _ => advice_of op = None | _ => True end ->
  i <> NoOp -> i <> UNIMPL ->
  expand i c = Ok (s, c) -> forallb leaf_ok s = true -> regs_ok i = true ->
  traced (Instruction_trace i c) s c.
Proof.
  intros Ha Hn Hu He Hs Hr. unfold Instruction_trace, TRACE_DEPTH. rewrite trace_fuel_S.
  destruct (_ =? 0).
  { unfold bind. rewrite He. apply trace_all_traced; [|done]. intros; by apply trace_raw_traced. }
  assert (Hseq : traced (bind (expand i) (fun s => trace_all (trace_fuel 1) s) c) s c).
  { unfold bind. rewrite He. apply trace_all_traced; [|done]. intros; by apply trace_leaf_traced. }
  assert (Hleaf : is_leaf i = true -> traced (default_trace i c) s c).
  { intros Hl. rewrite (expand_leaf i c Hl) in He. injection He as <-. by apply default_trace_traced. }
  destruct i; try done; cbn [trace_raw is_leaf]; rewrite ?Ha;
    try (match goal with |- context [if ?b then _ else _] => destruct b eqn:E end; [by apply Hleaf | exact Hseq]).
  all: try (apply Hleaf; reflexivity).
Qed.

(** Tracing an instruction of the division family: the advice is filled in. *)
Lemma trace_advice op i adv q r s0 s c :
  advice_of op = Some adv -> regs_ok (InstrR op i) = true -> r_rd (operands i) <> 0 ->
  adv c (x c (r_rs1 (operands i))) (x c (r_rs2 (operands i))) = Ok (q, r) ->
  expand (InstrR op i) c = Ok (s0, c) ->
  res_bind (set_advice 0 (as_XlenInt q) s0) (set_advice 1 (as_XlenInt r)) = Ok s ->
  forallb leaf_ok s = true ->
  traced (Instruction_trace (InstrR op i) c) s c.
Proof.
  intros Ha Hr Hd Hq He Hs Hl. unfold Instruction_trace, TRACE_DEPTH. rewrite trace_fuel_S.
  replace (n_rd _ =? 0) with false by (symmetry; apply Z.eqb_neq; exact Hd).
  cbn [trace_raw]. rewrite Ha. unfold advice_trace, bind, get_x, asks, lift.
  cbn [regs_ok] in Hr. apply andb_prop in Hr as [[_ H1]%andb_prop H2]. rewrite H1, H2, Hq, He. cbn [fst snd].
  destruct (set_advice 0 _ s0) as [s1| |]; try discriminate. cbn [res_bind] in Hs. rewrite Hs.
  apply trace_all_traced; [|done]. intros; by apply trace_leaf_traced.
Qed.

End Traced.
