(* ===== verification/Refine.v ===== *)
(** * Symbolic execution of inline sequences

    The stepping lemmas and tactics with which the refinement proofs run a
    sequence: every step names the value it writes and keeps the invariant that
    registers hold [i64] values. *)

From Stdlib Require Import ZArith Lia List Bool.
From stdpp Require Import base list.
From S2P Require Import Prelude Words Types Memory Device Mmu Isa Decode Allocator Cpu Exec Assembler Sequences Trace Step.
Import ListNotations.
Local Open Scope Z_scope.
Local Open Scope rust_scope.

(** [c2] is [c1] but for [x0] (which the emulator clears after the instruction)
    and the virtual registers. *)
Definition same_arch (c1 c2 : Cpu) : Prop :=
  set_x (x c1) c2 = c1 /\ forall r, 0 < r < 32 -> x c2 r = x c1 r.

(** Operands of a program instruction name the 32 architectural registers. *)
Definition user_reg (r : Z) : bool := (0 <=? r) && (r <? 32).

Definition user_regs (i : Instruction) : bool :=
  match i with
  | NoOp | UNIMPL => true
  | InstrR _ i => user_reg (r_rd (operands i)) && user_reg (r_rs1 (operands i)) && user_reg (r_rs2 (operands i))
  | InstrI _ i => user_reg (i_rd (operands i)) && user_reg (i_rs1 (operands i))
  | InstrLoad _ i => user_reg (l_rd (operands i)) && user_reg (l_rs1 (operands i))
  | InstrS _ i => user_reg (s_rs1 (operands i)) && user_reg (s_rs2 (operands i))
  | InstrB _ i => user_reg (b_rs1 (operands i)) && user_reg (b_rs2 (operands i))
  | InstrJ _ i => user_reg (j_rd (operands i))
  | InstrU _ i => user_reg (u_rd (operands i))
  | InstrVI _ i => user_reg (vi_rd (operands i)) && user_reg (vi_rs1 (operands i))
  | InstrVR _ i => user_reg (vr_rd (operands i)) && user_reg (vr_rs1 (operands i)) && user_reg (vr_rs2 (operands i))
  | InstrAlign _ i => user_reg (a_rs1 (operands i))
  | VirtualAdvice i _ => user_reg (j_rd (operands i))
  | INLINE _ _ _ i => user_reg (in_rs1 (operands i)) && user_reg (in_rs2 (operands i)) && user_reg (in_rs3 (operands i))
  end.

(** ** Ranges of the values written *)

Lemma bool_i64_range b : is_i64 (bool_i64 b).
Proof. unfold is_i64. destruct b; cbn [bool_i64]; lia. Qed.

Lemma as_i32_is_i64 a : is_i64 (as_i32 a).
Proof. apply i32_is_i64, as_i32_range. Qed.

Lemma as_u32_is_i64 a : is_i64 (as_u32 a).
Proof. apply u32_is_i64, as_u32_range. Qed.

#[export] Hint Resolve as_i64_range bool_i64_range land_i64 lor_i64 lxor_i64 lnot_i64 as_i32_is_i64 as_u32_is_i64 : provia.

Lemma alu64_R_range op g a b : alu64_R op = Some g -> is_i64 a -> is_i64 b -> is_i64 (g a b).
Proof.
  intros Hg Ha Hb. destruct op; try discriminate Hg; injection Hg as <-; eauto with provia;
    destruct (_ && _); eauto with provia; by unfold is_i64.
Qed.

Lemma alu64_I_range op g a imm : alu64_I op = Some g -> is_i64 a -> is_i64 (g a imm).
Proof.
  intros Hg Ha. destruct op; try discriminate Hg; injection Hg as <-; eauto with provia.
  - destruct (a <? 0); by unfold is_i64.
  - rewrite <- pow2w_i64; [apply as_i64_range|]. apply Z.mod_pos_bound. lia.
Qed.

Lemma alu64_VI_range op g a imm : alu64_VI op = Some g -> is_i64 a -> is_i64 (g a imm).
Proof.
  intros Hg Ha. destruct op; try discriminate Hg; injection Hg as <-; eauto with provia.
  apply shiftr_i64; [done|]. apply Z.mod_pos_bound. lia.
Qed.

Lemma alu64_VR_range op a b : is_i64 a -> is_i64 (alu64_VR op a b).
Proof.
  intros Ha. destruct op; cbn [alu64_VR]; eauto with provia.
  apply shiftr_i64; [done|]. apply Z.mod_pos_bound. lia.
Qed.

Definition i64s (X : zmap Z) : Prop := forall r, is_i64 (X r).

Lemma zupd_i64s X r v : i64s X -> is_i64 v -> i64s (zupd X r v).
Proof. intros HX Hv r'. unfold zupd. by destruct (_ =? _). Qed.

(** ** Stepping *)

Section Steps.
Context `{B : Build} (c : Cpu) (Hok : cpu_ok64 c).

Let Hxl : xlen c = Bit64 := ok_xlen c Hok.
Let Hmask := ok_mask c Hok.

Lemma run_step i l s ra s' : execute i s = Ok (ra, s') -> run (i :: l) s = run l s'.
Proof. intros He. cbn [run]. by rewrite He. Qed.

Lemma run_R op g i l X (Q : Res Cpu -> Prop) :
  alu64_R op = Some g -> regs_ok (InstrR op i) = true -> i64s X ->
  (forall v, v = g (X (r_rs1 (operands i))) (X (r_rs2 (operands i))) -> is_i64 v ->
     i64s (zupd X (r_rd (operands i)) v) -> Q (run l (set_x (zupd X (r_rd (operands i)) v) c))) ->
  Q (run (InstrR op i :: l) (set_x X c)).
Proof.
  intros Hg Hr HX Hk. erewrite run_step by (apply (step_R c Hxl Hmask op g); done).
  assert (is_i64 (g (X (r_rs1 (operands i))) (X (r_rs2 (operands i))))) by (eapply alu64_R_range; eauto).
  apply Hk; auto using zupd_i64s.
Qed.

Lemma run_I op g i l X (Q : Res Cpu -> Prop) :
  alu64_I op = Some g -> regs_ok (InstrI op i) = true -> i64s X ->
  (forall v, v = g (X (i_rs1 (operands i))) (i_imm (operands i)) -> is_i64 v ->
     i64s (zupd X (i_rd (operands i)) v) -> Q (run l (set_x (zupd X (i_rd (operands i)) v) c))) ->
  Q (run (InstrI op i :: l) (set_x X c)).
Proof.
  intros Hg Hr HX Hk. erewrite run_step by (apply (step_I c Hxl op g); done).
  assert (is_i64 (g (X (i_rs1 (operands i))) (i_imm (operands i)))) by (eapply alu64_I_range; eauto).
  apply Hk; auto using zupd_i64s.
Qed.

Lemma run_VI op g i l X (Q : Res Cpu -> Prop) :
  alu64_VI op = Some g -> regs_ok (InstrVI op i) = true -> i64s X ->
  (forall v, v = g (X (vi_rs1 (operands i))) (vi_imm (operands i)) -> is_i64 v ->
     i64s (zupd X (vi_rd (operands i)) v) -> Q (run l (set_x (zupd X (vi_rd (operands i)) v) c))) ->
  Q (run (InstrVI op i :: l) (set_x X c)).
Proof.
  intros Hg Hr HX Hk. erewrite run_step by (apply (step_VI c Hxl Hmask op g); done).
  assert (is_i64 (g (X (vi_rs1 (operands i))) (vi_imm (operands i)))) by (eapply alu64_VI_range; eauto).
  apply Hk; auto using zupd_i64s.
Qed.

Lemma run_VR op i l X (Q : Res Cpu -> Prop) :
  regs_ok (InstrVR op i) = true -> i64s X ->
  (forall v, v = alu64_VR op (X (vr_rs1 (operands i))) (X (vr_rs2 (operands i))) -> is_i64 v ->
     i64s (zupd X (vr_rd (operands i)) v) -> Q (run l (set_x (zupd X (vr_rd (operands i)) v) c))) ->
  Q (run (InstrVR op i :: l) (set_x X c)).
Proof.
  intros Hr HX Hk. erewrite run_step by (apply (step_VR c Hxl Hmask op); done).
  assert (is_i64 (alu64_VR op (X (vr_rs1 (operands i))) (X (vr_rs2 (operands i)))))
    by (apply alu64_VR_range; eauto).
  apply Hk; auto using zupd_i64s.
Qed.

Lemma run_LUI i l X (Q : Res Cpu -> Prop) :
  regs_ok (InstrU LUI i) = true -> i64s X ->
  (forall v, v = as_i64 (u_imm (operands i)) -> is_i64 v ->
     i64s (zupd X (u_rd (operands i)) v) -> Q (run l (set_x (zupd X (u_rd (operands i)) v) c))) ->
  Q (run (InstrU LUI i :: l) (set_x X c)).
Proof.
  intros Hr HX Hk. erewrite run_step by (apply (step_LUI c Hxl); done).
  apply Hk; auto using zupd_i64s, as_i64_range.
Qed.

Lemma run_advice i a l X (Q : Res Cpu -> Prop) :
  regs_ok (VirtualAdvice i (Some a)) = true -> i64s X ->
  (forall v, v = as_i64 a -> is_i64 v ->
     i64s (zupd X (j_rd (operands i)) v) -> Q (run l (set_x (zupd X (j_rd (operands i)) v) c))) ->
  Q (run (VirtualAdvice i (Some a) :: l) (set_x X c)).
Proof.
  intros Hr HX Hk. erewrite run_step by (by apply step_advice).
  apply Hk; auto using zupd_i64s, as_i64_range.
Qed.

(** A check either passes or ends the run. *)
Lemma run_check op g i l X (Q : Res Cpu -> Prop) :
  check64_B op = Some g -> regs_ok (InstrB op i) = true -> i64s X ->
  Q (if g (X (b_rs1 (operands i))) (X (b_rs2 (operands i))) then run l (set_x X c) else Panic) ->
  Q (run (InstrB op i :: l) (set_x X c)).
Proof.
  intros Hg Hr HX HQ. cbn [run]. rewrite (step_check c Hxl op g) by done.
  by destruct (g _ _).
Qed.

Lemma run_check_true op g i l X (Q : Res Cpu -> Prop) :
  check64_B op = Some g -> regs_ok (InstrB op i) = true -> i64s X ->
  g (X (b_rs1 (operands i))) (X (b_rs2 (operands i))) = true -> Q (run l (set_x X c)) ->
  Q (run (InstrB op i :: l) (set_x X c)).
Proof. intros Hg Hr HX Ht HQ. apply (run_check op g); try done. by rewrite Ht. Qed.

Lemma run_check_any op g i l X (Q : Res Cpu -> Prop) :
  check64_B op = Some g -> regs_ok (InstrB op i) = true -> i64s X -> Q Panic ->
  (g (X (b_rs1 (operands i))) (X (b_rs2 (operands i))) = true -> Q (run l (set_x X c))) ->
  Q (run (InstrB op i :: l) (set_x X c)).
Proof. intros Hg Hr HX HP HQ. apply (run_check op g); try done. destruct (g _ _); auto. Qed.

End Steps.

(** ** Tactics *)

Lemma range_reg_ok r : 0 <= r < 32 -> reg_ok r = true.
Proof.
  intros Hr. unfold reg_ok, REGISTER_COUNT, RISCV_REGISTER_COUNT, VIRTUAL_REGISTER_COUNT. by zbool.
Qed.

(** Different registers: two virtual ones, or a virtual and an architectural
    one. *)
Ltac reg_neq :=
  first [ discriminate
        | match goal with
          | H : 0 <= ?r < 32 |- ?r <> _ => clear - H; lia
          | H : 0 <= ?r < 32 |- _ <> ?r => clear - H; lia
          end ].

(** Reads of the register file at known indices. *)
Ltac reg_simpl_in H :=
  cbn [operands r_rd r_rs1 r_rs2 i_rd i_rs1 i_imm vi_rd vi_rs1 vi_imm vr_rd vr_rs1 vr_rs2 u_rd u_imm j_rd j_imm
       b_rs1 b_rs2 b_imm l_rd l_rs1 l_imm s_rs1 s_rs2 s_imm a_rs1 a_imm] in H;
  repeat first [ rewrite zupd_same in H | rewrite zupd_other in H by reg_neq ].

Ltac reg_simpl :=
  cbn [operands r_rd r_rs1 r_rs2 i_rd i_rs1 i_imm vi_rd vi_rs1 vi_imm vr_rd vr_rs1 vr_rs2 u_rd u_imm j_rd j_imm
       b_rs1 b_rs2 b_imm l_rd l_rs1 l_imm s_rs1 s_rs2 s_imm a_rs1 a_imm];
  repeat first [ rewrite zupd_same | rewrite zupd_other by reg_neq ].

(** [regs_ok] of a concrete instruction with architectural registers. *)
Ltac regs_done :=
  cbn [regs_ok operands r_rd r_rs1 r_rs2 i_rd i_rs1 vi_rd vi_rs1 vr_rd vr_rs1 vr_rs2 u_rd j_rd b_rs1 b_rs2
       l_rd l_rs1 s_rs1 s_rs2 a_rs1];
  rewrite ?andb_true_iff; split_and?; first [reflexivity | apply range_reg_ok; assumption].

(** Replace casts of closed terms by their value. *)
Ltac closed t :=
  lazymatch t with
  | ?f ?a => closed f; closed a
  | _ => tryif is_var t then fail else idtac
  end.

Ltac eval_casts_in H :=
  repeat match type of H with
         | context [as_i64 ?t] => closed t; let v := eval vm_compute in (as_i64 t) in change (as_i64 t) with v in H
         | context [as_u64 ?t] => closed t; let v := eval vm_compute in (as_u64 t) in change (as_u64 t) with v in H
         end.

Ltac step_one Hok :=
  lazymatch goal with
  | |- _ (run (InstrR ?op _ :: _) _) => eapply (run_R _ Hok op); [reflexivity | regs_done | assumption | ]
  | |- _ (run (InstrI ?op _ :: _) _) => eapply (run_I _ Hok op); [reflexivity | regs_done | assumption | ]
  | |- _ (run (InstrVI ?op _ :: _) _) => eapply (run_VI _ Hok op); [reflexivity | regs_done | assumption | ]
  | |- _ (run (InstrVR ?op _ :: _) _) => eapply (run_VR _ Hok op); [regs_done | assumption | ]
  | |- _ (run (InstrU LUI _ :: _) _) => eapply (run_LUI _ Hok); [regs_done | assumption | ]
  | |- _ (run (VirtualAdvice _ (Some _) :: _) _) => eapply run_advice; [regs_done | assumption | ]
  end;
  let v := fresh "v" in let E := fresh "E" in let I := fresh "I" in let HX := fresh "HX" in
  intros v E I HX;
  repeat match goal with H : i64s _ |- _ => tryif constr_eq H HX then fail else clear H end;
  reg_simpl_in E; eval_casts_in E;
  cbn [operands r_rd i_rd vi_rd vr_rd u_rd j_rd] in HX |- *.

Ltac steps Hok := repeat step_one Hok.

(** ** From a run of the sequence to the trace *)

(** Tracing [i] in [c] succeeds and has the architectural effect of writing [v]
    to [rd]. *)
Definition trace_writes `{Build} `{InlineRegistry} (i : Instruction) (c : Cpu) (rd v : Z) : Prop :=
  exists cs c2, Instruction_trace i c = Ok (cs, c2) /\ same_arch (set_x (zupd (x c) rd v) c) c2.

Lemma set_x_id c : set_x (x c) c = c.
Proof. by destruct c. Qed.

Lemma user_reg_ok r : user_reg r = true -> reg_ok r = true.
Proof.
  unfold user_reg, reg_ok, REGISTER_COUNT, RISCV_REGISTER_COUNT, VIRTUAL_REGISTER_COUNT.
  rewrite !andb_true_iff, !Z.leb_le, !Z.ltb_lt. lia.
Qed.

Lemma user_regs_ok i : i <> NoOp -> i <> UNIMPL -> user_regs i = true -> regs_ok i = true.
Proof.
  destruct i; cbn [user_regs regs_ok]; try done; intros _ _; rewrite ?andb_true_iff; intros Hr;
    destruct_and?; split_and?; by apply user_reg_ok.
Qed.

(** The run ends in [c] with [v] written to [rd], up to [x0] and virtual
    registers. *)
Definition ends_with (c : Cpu) (rd v : Z) (r : Res Cpu) : Prop :=
  exists X, r = Ok (set_x X c) /\ forall r, 0 < r < 32 -> X r = zupd (x c) rd v r.

Section Trace_of_run.
Context `{B : Build} `{R : InlineRegistry} (c : Cpu) (Hok : cpu_ok64 c).

Lemma expand_eq i s :
  inline_sequence i Bit64 (vr_allocator c) = Ok (s, vr_allocator c) -> expand i c = Ok (s, c).
Proof. intros Hs. unfold expand. rewrite (ok_xlen c Hok), Hs. by rewrite set_vr_allocator_id. Qed.

Lemma traced_writes i s rd v :
  traced (Instruction_trace i c) s c ->
  ends_with c rd v (run s (set_x (x c) c)) ->
  trace_writes i c rd v.
Proof.
  rewrite set_x_id. unfold traced. intros Ht (X & Hrun & Hw). rewrite Hrun in Ht.
  destruct (Instruction_trace i c) as [[cs c2]| |] eqn:Et; try done. destruct Ht as [Ht _]. assert (c2 = set_x X c) as -> by congruence.
  exists cs, (set_x X c). split; [done|]. split; [done|]. intros r Hr. by apply Hw.
Qed.

Lemma sequence_writes i s rd v :
  match i with InstrR op _ => advice_of op = None | _ => True end ->
  i <> NoOp -> i <> UNIMPL -> user_regs i = true ->
  inline_sequence i Bit64 (vr_allocator c) = Ok (s, vr_allocator c) ->
  forallb leaf_ok s = true ->
  ends_with c rd v (run s (set_x (x c) c)) ->
  trace_writes i c rd v.
Proof.
  intros Ha Hn Hu Hr Hs Hl Hrun. eapply traced_writes; [|done].
  apply trace_sequence; auto using expand_eq, user_regs_ok.
Qed.

End Trace_of_run.

(** The register file after a run, read at an architectural register. *)
Ltac writes_done :=
  let r := fresh "r" in let Hr := fresh "Hr" in
  eexists; split; [reflexivity|];
  intros r Hr; unfold zupd;
  repeat match goal with
         | |- context [r =? ?k] => lazymatch k with
             | Zpos _ => rewrite (proj2 (Z.eqb_neq r k)) by lia
             end
         end;
  first [ reflexivity | match goal with |- context [if ?b then _ else _] => destruct b; [|reflexivity] end ].

(** The sequence of an instruction, evaluated: the allocator is free, so that
    every register handed out is known. *)
Ltac eval_sequence :=
  lazymatch goal with
  | |- inline_sequence ?i ?xl ?al = _ =>
      let r := eval lazy -[as_u64 as_i64 as_u32 as_i32 Z.land right_bitmask SRLIW_bitmask Z.shiftl] in (inline_sequence i xl al) in
      change (inline_sequence i xl al) with r
  end; reflexivity.

Lemma user_reg_range r : user_reg r = true -> 0 <= r < 32.
Proof. unfold user_reg. rewrite andb_true_iff, Z.leb_le, Z.ltb_lt. done. Qed.

(** The elements of an evaluated sequence are leaves over known registers. *)
Ltac leaves_done :=
  cbn [forallb]; unfold leaf_ok; rewrite !andb_true_iff; cbn [is_leaf is_leaf_R];
  split_and?; try reflexivity; regs_done.

(** Expose the operands of the instruction and the free allocator. *)
Ltac open_pool c Hok :=
  let rest := fresh "rest" in let pend := fresh "pend" in let Ev := fresh "Ev" in
  let Hal := fresh "Hal" in let al := fresh "al" in
  destruct (ok_pool c Hok) as [rest Hal]; destruct (vr_allocator c) as [al pend] eqn:Ev;
  cbn in Hal; subst al.

Ltac open_R Hr :=
  let Hd := fresh "Hd" in let H1 := fresh "H1" in let H2 := fresh "H2" in
  pose proof Hr as [[Hd%user_reg_range H1%user_reg_range]%andb_prop H2%user_reg_range]%andb_prop;
  lazymatch goal with i : Instr FormatR |- _ => destruct i as [ad [rd rs1 rs2] rem cp] end;
  cbn [operands r_rd r_rs1 r_rs2] in *.

Ltac open_I Hr :=
  let Hd := fresh "Hd" in let H1 := fresh "H1" in
  pose proof Hr as [Hd%user_reg_range H1%user_reg_range]%andb_prop;
  lazymatch goal with i : Instr FormatI |- _ => destruct i as [ad [rd rs1 imm] rem cp] end;
  cbn [operands i_rd i_rs1 i_imm] in *.

(** Run the sequence of a register-only instruction; the goal that remains is
    the equation on the value written. *)
Ltac run_sequence c Hok Hr :=
  open_pool c Hok;
  eapply (sequence_writes c Hok);
    [reflexivity | done | done | exact Hr
    | lazymatch goal with Ev : vr_allocator c = _ |- _ => rewrite Ev end; eval_sequence
    | leaves_done | ];
  assert (i64s (x c)) by exact (ok_x c Hok);
  steps Hok; writes_done;
  repeat match goal with HX : i64s (zupd _ _ _) |- _ => clear HX end.
