(* ===== verification/Expansion.v ===== *)
(** * Well-formed expansions

    What [inline_sequence] produces for the instructions of the 64-bit machine:
    a non-empty list of leaves over valid registers, at the address of the
    instruction, fewer than [2^16], numbered down to 0, with the compression flag on the last
    element only; and the virtual registers it used are free again. *)

From Stdlib Require Import ZArith Lia List Bool.
From stdpp Require Import base list.
From S2P Require Import Prelude Words Memory Types Device Mmu Isa Decode Allocator Cpu Exec Assembler Sequences Trace Step Refine.
Import ListNotations.
Local Open Scope Z_scope.
Local Open Scope rust_scope.

Definition is_base (i : Instruction) : bool :=
  match i with NoOp | UNIMPL | INLINE _ _ _ _ => false | _ => true end.

Fixpoint countdown (n : nat) : list (option Z) :=
  match n with
  | O => []
  | S n' => Some (Z.of_nat n') :: countdown n'
  end.

(** The bytecode attributes of the elements of the expansion [s] of [i]. *)
Definition numbered (i : Instruction) (s : list Instruction) : Prop :=
  map (fun j => ni_inline_sequence_remaining (normalize j)) s = countdown (length s) /\
  map (fun j => ni_address (normalize j)) s = map (fun _ => ni_address (normalize i)) s /\
  map (fun j => ni_is_compressed (normalize j)) s =
    replicate (length s - 1) false ++ [ni_is_compressed (normalize i)] /\
  (Z.of_nat (length s) <? 65536) = true.

Definition expansion_ok (i : Instruction) (s : list Instruction) : Prop :=
  s <> [] /\ forallb leaf_ok s = true /\ if is_leaf i then s = [i] else numbered i s.

Section Expansion.
Context (oc dbg : bool) `{R : InlineRegistry}.
Local Instance B64 : Build := Build_Build true oc dbg.

Lemma sequence_leaf i xl al : is_leaf i = true -> inline_sequence i xl al = Ok ([i], al).
Proof.
  intros Hl. unfold inline_sequence.
  change (inline_sequence_fuel SEQUENCE_DEPTH) with (sequence_step (inline_sequence_fuel 4)).
  destruct i as [| |op ?|op ?|op ?|op ?|op ?|op ?|op ?|op ?|op ?|op ?|? ?|? ? ? ?]; try discriminate Hl;
    cbn [sequence_step]; try reflexivity;
    destruct op; try discriminate Hl; reflexivity.
Qed.

(** Evaluate the sequence over a free pool. *)
Ltac expand_case :=
  eexists; split; [eval_sequence|]; split; [discriminate|]; split; [leaves_done | split_and!; reflexivity].

Lemma expansion_R op i al : pool_free al -> user_regs (InstrR op i) = true -> is_leaf_R op = false ->
  exists s, inline_sequence (InstrR op i) Bit64 al = Ok (s, al) /\ s <> [] /\ forallb leaf_ok s = true /\ numbered (InstrR op i) s.
Proof.
  intros [rest Hal] Hr Hl. destruct al as [al pend]. cbn in Hal. subst al. open_R Hr.
  destruct op; try discriminate Hl; expand_case.
Qed.

Lemma expansion_I op i al : pool_free al -> user_regs (InstrI op i) = true -> is_leaf (InstrI op i) = false ->
  exists s, inline_sequence (InstrI op i) Bit64 al = Ok (s, al) /\ s <> [] /\ forallb leaf_ok s = true /\ numbered (InstrI op i) s.
Proof.
  intros [rest Hal] Hr Hl. destruct al as [al pend]. cbn in Hal. subst al. open_I Hr.
  destruct op; try discriminate Hl; expand_case.
Qed.

Lemma expansion_Load op i al : pool_free al -> user_regs (InstrLoad op i) = true -> is_leaf (InstrLoad op i) = false ->
  exists s, inline_sequence (InstrLoad op i) Bit64 al = Ok (s, al) /\ s <> [] /\ forallb leaf_ok s = true /\ numbered (InstrLoad op i) s.
Proof.
  intros [rest Hal] Hr Hl. destruct al as [al pend]. cbn in Hal. subst al.
  pose proof Hr as [Hd%user_reg_range H1%user_reg_range]%andb_prop. destruct i as [ad [rd rs1 imm] rem cp].
  cbn [operands l_rd l_rs1] in *. destruct op; try discriminate Hl; expand_case.
Qed.

Lemma expansion_S op i al : pool_free al -> user_regs (InstrS op i) = true -> is_leaf (InstrS op i) = false ->
  exists s, inline_sequence (InstrS op i) Bit64 al = Ok (s, al) /\ s <> [] /\ forallb leaf_ok s = true /\ numbered (InstrS op i) s.
Proof.
  intros [rest Hal] Hr Hl. destruct al as [al pend]. cbn in Hal. subst al.
  pose proof Hr as [Hd%user_reg_range H1%user_reg_range]%andb_prop. destruct i as [ad [rs1 rs2 imm] rem cp].
  cbn [operands s_rs1 s_rs2] in *. destruct op; try discriminate Hl; expand_case.
Qed.

Lemma expansion_exists i al : pool_free al -> is_base i = true -> user_regs i = true ->
  exists s, inline_sequence i Bit64 al = Ok (s, al) /\ expansion_ok i s.
Proof.
  intros Hp Hb Hr. unfold expansion_ok. destruct (is_leaf i) eqn:El.
  - exists [i]. split; [by apply sequence_leaf|]. split; [done|]. split; [|done]. cbn [forallb]. unfold leaf_ok.
    rewrite El, user_regs_ok; try done; by intros ->.
  - destruct i; try discriminate Hb; try discriminate El;
      [by apply expansion_R | by apply expansion_I | by apply expansion_Load | by apply expansion_S].
Qed.

End Expansion.
