(* ===== verification/Cycles.v ===== *)
(** * Cycles of a traced instruction

    The cycles pushed by a traced instruction are its expansion, element by
    element and in order, up to the advice filled in. *)

From Stdlib Require Import ZArith Lia List Bool.
From stdpp Require Import base list.
From S2P Require Import Prelude Words Memory Types Device Mmu Isa Decode Allocator Cpu Exec Assembler Sequences Trace Step Refine Expansion.
Import ListNotations.
Local Open Scope Z_scope.
Local Open Scope rust_scope.

Definition erase_advice (i : Instruction) : Instruction :=
  match i with VirtualAdvice i _ => VirtualAdvice i None | _ => i end.

Lemma set_advice_erase k v s s' : set_advice k v s = Ok s' -> map erase_advice s' = map erase_advice s.
Proof.
  unfold set_advice. destruct (s !! k) as [[]|] eqn:E; try done. intros [= <-].
  change (map erase_advice) with (fmap (M := list) erase_advice). rewrite list_fmap_insert. apply list_insert_id.
  rewrite list_lookup_fmap, E. done.
Qed.

Lemma set_advice_leaves k v s s' : set_advice k v s = Ok s' -> forallb leaf_ok s = true -> forallb leaf_ok s' = true.
Proof.
  unfold set_advice. destruct (s !! k) as [[]|] eqn:E; try done. intros [= <-]. rewrite <- !Is_true_true, !forallb_True.
  intros Hs. apply Forall_insert; [done|]. exact (Forall_lookup_1 _ _ _ _ Hs E).
Qed.

Section Cycles.
Context (oc dbg : bool) `{R : InlineRegistry}.
Local Instance B64 : Build := Build_Build true oc dbg.
Context (c : Cpu) (Hok : cpu_ok64 c).

Lemma traced_cycles r s cs c2 : traced r s c -> r = Ok (cs, c2) -> map cycle_instruction cs = s.
Proof. unfold traced. intros Ht ->. apply Ht. Qed.

Lemma advice_cycles op i adv s cs c2 :
  advice_of op = Some adv -> r_rd (operands i) <> 0 -> user_regs (InstrR op i) = true ->
  inline_sequence (InstrR op i) Bit64 (vr_allocator c) = Ok (s, vr_allocator c) -> forallb leaf_ok s = true ->
  Instruction_trace (InstrR op i) c = Ok (cs, c2) ->
  map erase_advice (map cycle_instruction cs) = map erase_advice s.
Proof.
  intros Ha Hd Hr Hs Hl Ht. assert (Hro : regs_ok (InstrR op i) = true) by (by apply user_regs_ok).
  pose proof (expand_eq c Hok _ s Hs) as Hx. pose proof Ht as Ht'.
  unfold Instruction_trace, TRACE_DEPTH in Ht'. rewrite trace_fuel_S in Ht'.
  replace (n_rd _ =? 0) with false in Ht' by (symmetry; apply Z.eqb_neq; exact Hd).
  cbn [trace_raw] in Ht'. rewrite Ha in Ht'. unfold advice_trace in Ht'.
  pose proof Hro as [[_ H1]%andb_prop H2]%andb_prop. unfold bind, get_x, asks, lift in Ht'. rewrite H1, H2 in Ht'.
  destruct (adv c _ _) as [[q r]| |] eqn:Eq; try done. rewrite Hx in Ht'. cbn [fst snd] in Ht'.
  destruct (set_advice 0 _ s) as [s1| |] eqn:E1; try done. destruct (set_advice 1 _ s1) as [s2| |] eqn:E2; try done.
  assert (Hset : res_bind (set_advice 0 (as_XlenInt q) s) (set_advice 1 (as_XlenInt r)) = Ok s2) by (by rewrite E1).
  assert (Hl2 : forallb leaf_ok s2 = true) by eauto using set_advice_leaves.
  pose proof (trace_advice op i adv q r s s2 c Ha Hro Hd Eq Hx Hset Hl2) as Htr.
  rewrite (traced_cycles _ _ _ _ Htr Ht). by erewrite (set_advice_erase 1), (set_advice_erase 0).
Qed.

Lemma trace_cycles i cs c2 :
  is_base i = true -> user_regs i = true ->
  match i with InstrR op o => advice_of op <> None -> r_rd (operands o) <> 0 | _ => True end ->
  Instruction_trace i c = Ok (cs, c2) ->
  exists s, expand i c = Ok (s, c) /\ expansion_ok i s /\ map erase_advice (map cycle_instruction cs) = map erase_advice s.
Proof.
  intros Hb Hr Hd Ht. destruct (expansion_exists oc dbg i (vr_allocator c) (ok_pool c Hok) Hb Hr) as (s & Hs & He).
  exists s. split; [by apply expand_eq|]. split; [done|]. destruct He as (_ & Hl & _).
  assert (Hplain : match i with InstrR op _ => advice_of op = None | _ => True end ->
                   map erase_advice (map cycle_instruction cs) = map erase_advice s).
  { intros Hn. f_equal. eapply traced_cycles; [|exact Ht]. apply trace_sequence; try done.
    - by intros ->.
    - by intros ->.
    - by apply expand_eq.
    - apply user_regs_ok; try done; by intros ->. }
  destruct i as [| |op i|op i|op i|op i|op i|op i|op i|op i|op i|op i|i adv|opc f3 f7 i]; auto.
  destruct (advice_of op) as [adv|] eqn:Ea; [|auto]. eapply advice_cycles; eauto.
Qed.

End Cycles.
