(* ===== verification/Alu64.v ===== *)
(** * Arithmetic of the 64-bit machine: specification, execution and traces

    [spec_R] and [spec_I] state what the RISC-V manual prescribes for the
    register-register and register-immediate instructions of RV64IM.  The
    theorems show that [execute] computes them and that the traced inline
    sequences have the same effect. *)

From Stdlib Require Import ZArith Lia List Bool.
From stdpp Require Import base list.
From S2P Require Import Prelude Words Types Memory Device Mmu Isa Decode Allocator Cpu Exec Assembler Sequences Trace Step Refine.
Import ListNotations.
Local Open Scope Z_scope.
Local Open Scope rust_scope.

(** ** The instruction set manual

    Registers hold [i64] values; [as_u64], [as_u32] give the unsigned readings,
    [as_i64], [as_i32] the two's complement results. *)
Definition spec_R (op : OpR) : option (Z -> Z -> Z) :=
  match op with
  | ADD => Some (fun a b => as_i64 (a + b))
  | SUB => Some (fun a b => as_i64 (a - b))
  | AND => Some Z.land
  | ANDN => Some (fun a b => Z.land a (Z.lnot b))
  | OR => Some Z.lor
  | XOR => Some Z.lxor
  | SLT => Some (fun a b => if a <? b then 1 else 0)
  | SLTU => Some (fun a b => if as_u64 a <? as_u64 b then 1 else 0)
  | SLL => Some (fun a b => as_i64 (a * 2 ^ (b mod 64)))
  | SRL => Some (fun a b => as_i64 (as_u64 a / 2 ^ (b mod 64)))
  | SRA => Some (fun a b => a / 2 ^ (b mod 64))
  | MUL => Some (fun a b => as_i64 (a * b))
  | MULH => Some (fun a b => a * b / 2 ^ 64)
  | MULHU => Some (fun a b => as_i64 (as_u64 a * as_u64 b / 2 ^ 64))
  | MULHSU => Some (fun a b => a * as_u64 b / 2 ^ 64)
  | DIV => Some (fun a b => if b =? 0 then -1 else as_i64 (Z.quot a b))
  | DIVU => Some (fun a b => if b =? 0 then -1 else as_i64 (as_u64 a / as_u64 b))
  | REM => Some (fun a b => if b =? 0 then a else Z.rem a b)
  | REMU => Some (fun a b => if b =? 0 then a else as_i64 (as_u64 a mod as_u64 b))
  | ADDW => Some (fun a b => as_i32 (a + b))
  | SUBW => Some (fun a b => as_i32 (a - b))
  | MULW => Some (fun a b => as_i32 (a * b))
  | SLLW => Some (fun a b => as_i32 (a * 2 ^ (b mod 32)))
  | SRLW => Some (fun a b => as_i32 (as_u32 a / 2 ^ (b mod 32)))
  | SRAW => Some (fun a b => as_i32 a / 2 ^ (b mod 32))
  | DIVW => Some (fun a b => if as_i32 b =? 0 then -1 else as_i32 (Z.quot (as_i32 a) (as_i32 b)))
  | DIVUW => Some (fun a b => if as_u32 b =? 0 then -1 else as_i32 (as_u32 a / as_u32 b))
  | REMW => Some (fun a b => if as_i32 b =? 0 then as_i32 a else Z.rem (as_i32 a) (as_i32 b))
  | REMUW => Some (fun a b => if as_u32 b =? 0 then as_i32 a else as_i32 (as_u32 a mod as_u32 b))
  | _ => None
  end.

(** The immediate is the sign-extended 12-bit field, kept as a [u64]. *)
Definition spec_I (op : OpI) : option (Z -> Z -> Z) :=
  match op with
  | ADDI => Some (fun a imm => as_i64 (a + imm))
  | ANDI => Some (fun a imm => Z.land a (as_i64 imm))
  | ORI => Some (fun a imm => Z.lor a (as_i64 imm))
  | XORI => Some (fun a imm => Z.lxor a (as_i64 imm))
  | SLTI => Some (fun a imm => if a <? as_i64 imm then 1 else 0)
  | SLTIU => Some (fun a imm => if as_u64 a <? as_u64 imm then 1 else 0)
  | SLLI => Some (fun a imm => as_i64 (a * 2 ^ (imm mod 64)))
  | SRLI => Some (fun a imm => as_i64 (as_u64 a / 2 ^ (imm mod 64)))
  | SRAI => Some (fun a imm => a / 2 ^ (imm mod 64))
  | ADDIW => Some (fun a imm => as_i32 (a + imm))
  | SLLIW => Some (fun a imm => as_i32 (a * 2 ^ (imm mod 32)))
  | SRLIW => Some (fun a imm => as_i32 (as_u32 a / 2 ^ (imm mod 32)))
  | SRAIW => Some (fun a imm => as_i32 a / 2 ^ (imm mod 32))
  | _ => None
  end.

(** ** Arithmetic *)

Lemma shamt_64 b : Z.land (as_u32 b) 0x3f = b mod 64.
Proof. change 0x3f with (Z.ones 6). rewrite Z.land_ones by lia. change (2 ^ 6) with 64. unfold as_u32. lia. Qed.

Lemma shamt_32 b : as_u32 (Z.land b 0x1f) = b mod 32.
Proof. change 0x1f with (Z.ones 5). rewrite Z.land_ones by lia. change (2 ^ 5) with 32. unfold as_u32. lia. Qed.

Lemma shl_64 a n : 0 <= n < 64 -> wrapping_shl_i64 a n = as_i64 (a * 2 ^ n).
Proof. intros Hn. unfold wrapping_shl_i64. rewrite Z.mod_small, Z.shiftl_mul_pow2 by lia. done. Qed.

Lemma shr_64 a n : 0 <= n < 64 -> Z.shiftr a (n mod 64) = a / 2 ^ n.
Proof. intros Hn. rewrite Z.mod_small, Z.shiftr_div_pow2 by lia. done. Qed.

Lemma pow2_pos n : 0 <= n -> 0 < 2 ^ n.
Proof. intros. apply Z.pow_pos_nonneg; lia. Qed.

Lemma pow2_le n m : 0 <= n <= m -> 2 ^ n <= 2 ^ m.
Proof. intros. apply Z.pow_le_mono_r; lia. Qed.

Lemma as_i64_mul_cong a b : as_i64 (as_i64 a * b) = as_i64 (a * b).
Proof. destruct (as_i64_decomp a) as [k ->]. apply (as_i64_cong _ _ (k * b)). ring. Qed.

Lemma as_i32_mul_cong_u32 a b : as_i32 (as_u32 a * b) = as_i32 (a * b).
Proof. destruct (as_u32_decomp a) as [k ->]. unfold as_i32. replace ((a + k * 4294967296) * b) with (a * b + (k * b) * 4294967296) by ring. lia. Qed.

Lemma as_i32_mul_cong a b : as_i32 (as_i32 a * as_i32 b) = as_i32 (a * b).
Proof.
  destruct (as_i32_decomp a) as [k ->], (as_i32_decomp b) as [j ->]. unfold as_i32.
  replace ((a + k * 4294967296) * (b + j * 4294967296)) with (a * b + (a * j + k * b + k * j * 4294967296) * 4294967296) by ring.
  lia.
Qed.

(** The quotient of a signed value by a positive power stays in range. *)
Lemma div_i32_range a p : is_i32 a -> 0 < p -> is_i32 (a / p).
Proof. unfold is_i32. intros Ha Hp. pose proof (Z.div_mod a p). pose proof (Z.mod_pos_bound a p). nia. Qed.

Lemma mulh_range a b : is_i64 a -> is_i64 b -> is_i64 (a * b / 2 ^ 64).
Proof.
  change (2 ^ 64) with 18446744073709551616. unfold is_i64. intros Ha Hb.
  assert (-85070591730234615865843651857942052864 <= a * b <= 85070591730234615865843651857942052864) by nia.
  lia.
Qed.

Lemma mulhsu_range a b : is_i64 a -> is_u64 b -> is_i64 (a * b / 2 ^ 64).
Proof.
  change (2 ^ 64) with 18446744073709551616. unfold is_i64, is_u64. intros Ha Hb.
  assert (-9223372036854775808 * 18446744073709551616 <= a * b < 9223372036854775808 * 18446744073709551616) by nia.
  lia.
Qed.

Lemma mulhsu_exec a b : is_i64 a -> is_u64 b ->
  as_i64 (Z.shiftr (as_u128 (as_u128 a * b)) 64) = a * b / 2 ^ 64.
Proof.
  intros Ha Hb. rewrite Z.shiftr_div_pow2 by lia.
  rewrite <- (as_i64_small (a * b / 2 ^ 64)) by (by apply mulhsu_range).
  assert (E : exists k, as_u128 (as_u128 a * b) = a * b + k * 340282366920938463463374607431768211456).
  { unfold as_u128.
    exists (- (a / 340282366920938463463374607431768211456 * b)
            - (a mod 340282366920938463463374607431768211456 * b) / 340282366920938463463374607431768211456).
    set (M := 340282366920938463463374607431768211456).
    pose proof (Z.div_mod a M ltac:(done)). pose proof (Z.div_mod (a mod M * b) M ltac:(done)). nia. }
  destruct E as [k ->]. change (2 ^ 64) with 18446744073709551616.
  replace (a * b + k * 340282366920938463463374607431768211456)
    with (a * b + k * 18446744073709551616 * 18446744073709551616) by ring.
  rewrite Z.div_add by done. apply (as_i64_cong _ _ k). ring.
Qed.

Lemma quot_i64 a b : is_i64 a -> is_i64 b -> b <> 0 -> (a = i64_MIN /\ b = -1) \/ is_i64 (Z.quot a b).
Proof.
  unfold is_i64, i64_MIN. intros Ha Hb Hb0. pose proof (Z.quot_rem' a b). pose proof (Z.rem_bound_abs a b Hb0).
  destruct (decide (b = -1)) as [->|]; [lia|].
  destruct (decide (b = 1)) as [->|]; [right; rewrite Z.quot_1_r; lia|].
  right. assert (Z.abs (a ÷ b) <= Z.abs a).
  { rewrite <- (Z.quot_abs a b) by done. apply Z.quot_le_upper_bound; nia. }
  destruct (decide (Z.abs a = 9223372036854775808)); [|lia].
  assert (2 * Z.abs (a ÷ b) <= Z.abs a); [|lia].
  rewrite <- (Z.quot_abs a b) by done. pose proof (Z.mul_quot_le (Z.abs a) (Z.abs b)). nia.
Qed.

Lemma rem_i64 a b : is_i64 a -> b <> 0 -> is_i64 (Z.rem a b).
Proof.
  unfold is_i64. intros Ha Hb0. pose proof (Z.quot_rem' a b). pose proof (Z.rem_bound_abs a b Hb0).
  assert (Z.abs (Z.rem a b) <= Z.abs a) by (rewrite <- Z.rem_abs by done; apply Z.rem_le; lia).
  destruct (decide (0 <= a)); [pose proof (Z.rem_nonneg a b Hb0); lia|].
  pose proof (Z.rem_nonpos a b Hb0). lia.
Qed.

Lemma as_u64_eq0 b : is_i64 b -> (as_u64 b =? 0) = (b =? 0).
Proof.
  unfold is_i64, as_u64. intros Hb.
  destruct (Z.eqb_spec b 0); [apply Z.eqb_eq | apply Z.eqb_neq]; lia.
Qed.

Lemma div_exec a b : is_i64 a -> is_i64 b ->
  (if b =? 0 then Ok (-1)
   else if (a =? i64_MIN) && (b =? -1) then Ok a else let? q := wrapping_div_i64 a b in Ok q) =
  Ok (if b =? 0 then -1 else as_i64 (Z.quot a b)).
Proof.
  intros Ha Hb. destruct (Z.eqb_spec b 0) as [|Hb0]; [done|].
  destruct (_ && _) eqn:E.
  - apply andb_prop in E as [->%Z.eqb_eq ->%Z.eqb_eq]. reflexivity.
  - unfold wrapping_div_i64. by rewrite (proj2 (Z.eqb_neq b 0) Hb0).
Qed.

Lemma rem_exec a b : is_i64 a -> is_i64 b ->
  (if b =? 0 then Ok a
   else if (a =? i64_MIN) && (b =? -1) then Ok 0 else let? q := wrapping_rem_i64 a b in Ok q) =
  Ok (if b =? 0 then a else Z.rem a b).
Proof.
  intros Ha Hb. destruct (Z.eqb_spec b 0) as [|Hb0]; [done|].
  destruct (_ && _) eqn:E.
  - apply andb_prop in E as [->%Z.eqb_eq ->%Z.eqb_eq]. reflexivity.
  - unfold wrapping_rem_i64. rewrite (proj2 (Z.eqb_neq b 0) Hb0). cbn [res_bind].
    by rewrite as_i64_small by (by apply rem_i64).
Qed.

Lemma divw_exec a b : is_i32 a -> is_i32 b ->
  (if b =? 0 then Ok (-1)
   else if (a =? i32_MIN) && (b =? -1) then Ok a else Ok (as_i32 (Z.quot a b))) =
  Ok (if b =? 0 then -1 else as_i32 (Z.quot a b)).
Proof.
  intros Ha Hb. destruct (Z.eqb_spec b 0) as [|Hb0]; [done|].
  destruct (_ && _) eqn:E; [|done].
  apply andb_prop in E as [->%Z.eqb_eq ->%Z.eqb_eq]. reflexivity.
Qed.

Lemma rem_i32 a b : is_i32 a -> b <> 0 -> is_i32 (Z.rem a b).
Proof.
  unfold is_i32. intros Ha Hb0. pose proof (Z.quot_rem' a b). pose proof (Z.rem_bound_abs a b Hb0).
  assert (Z.abs (Z.rem a b) <= Z.abs a) by (rewrite <- Z.rem_abs by done; apply Z.rem_le; lia).
  destruct (decide (0 <= a)); [pose proof (Z.rem_nonneg a b Hb0); lia|].
  pose proof (Z.rem_nonpos a b Hb0). lia.
Qed.

Lemma remw_exec a b : is_i32 a -> is_i32 b ->
  (if b =? 0 then Ok a
   else if (a =? i32_MIN) && (b =? -1) then Ok 0 else Ok (as_i32 (Z.rem a b))) =
  Ok (if b =? 0 then a else Z.rem a b).
Proof.
  intros Ha Hb. destruct (Z.eqb_spec b 0) as [|Hb0]; [done|].
  destruct (_ && _) eqn:E.
  - apply andb_prop in E as [->%Z.eqb_eq ->%Z.eqb_eq]. reflexivity.
  - by rewrite as_i32_small by (by apply rem_i32).
Qed.

(** ** Execution computes the specification *)

Section Exec64.
Context `{B : Build} (c : Cpu) (Hok : cpu_ok64 c).

Lemma exec_R_64 op g i :
  spec_R op = Some g -> regs_ok (InstrR op i) = true ->
  execute (InstrR op i) c =
    Ok (RANoOp, set_x (zupd (x c) (r_rd (operands i)) (g (x c (r_rs1 (operands i))) (x c (r_rs2 (operands i))))) c).
Proof.
  intros Hg Hr. rewrite <- (set_x_id c) at 1.
  pose proof (ok_xlen c Hok) as Hxl. pose proof (ok_mask c Hok) as Hm.
  pose proof (ok_x c Hok (r_rs1 (operands i))) as Ha. pose proof (ok_x c Hok (r_rs2 (operands i))) as Hb.
  destruct op; try discriminate Hg; injection Hg as <-; apply rr_exec_ok; try exact Hr;
    unfold sign_extend, most_negative, shift_mask; cbn [set_x xlen]; rewrite ?Hxl;
    rewrite ?unsigned_data_64 by exact Hm; try reflexivity; cbv zeta;
    revert Ha Hb; generalize (x c (r_rs1 (operands i))) (x c (r_rs2 (operands i))); intros a b Ha Hb;
    rewrite ?shamt_64, ?shamt_32.
  - by rewrite shl_64 by (apply Z.mod_pos_bound; lia).
  - unfold wrapping_shr_u64. by rewrite shr_64 by (apply Z.mod_pos_bound; lia).
  - unfold wrapping_shr_i64. by rewrite shr_64 by (apply Z.mod_pos_bound; lia).
  - rewrite Z.shiftr_div_pow2, as_i64_small by (lia || by apply mulh_range). done.
  - unfold as_u128. rewrite Z.mod_small by (apply mul_u64_bound; apply as_u64_range).
    by rewrite Z.shiftr_div_pow2 by lia.
  - by rewrite mulhsu_exec by (done || apply as_u64_range).
  - by apply div_exec.
  - rewrite as_u64_eq0 by done. unfold wrapping_div_u64. rewrite as_u64_eq0 by done. by destruct (b =? 0).
  - by apply rem_exec.
  - rewrite as_u64_eq0 by done. unfold wrapping_rem_u64. rewrite as_u64_eq0 by done.
    destruct (b =? 0); [|done]. by rewrite as_i64_u64, as_i64_small by done.
  - by rewrite as_i32_i64.
  - by rewrite as_i32_i64.
  - rewrite as_i32_u32, Z.shiftl_mul_pow2 by (apply Z.mod_pos_bound; lia). by rewrite as_i32_mul_cong_u32.
  - by rewrite Z.shiftr_div_pow2 by (apply Z.mod_pos_bound; lia).
  - by rewrite Z.shiftr_div_pow2 by (apply Z.mod_pos_bound; lia).
  - by rewrite as_i32_mul_cong.
  - apply divw_exec; apply as_i32_range.
  - by destruct (as_u32 b =? 0).
  - apply remw_exec; apply as_i32_range.
  - destruct (as_u32 b =? 0); [|done]. by rewrite as_i32_u32.
Qed.

Lemma exec_I_64 op g i :
  spec_I op = Some g -> regs_ok (InstrI op i) = true ->
  execute (InstrI op i) c =
    Ok (RANoOp, set_x (zupd (x c) (i_rd (operands i)) (g (x c (i_rs1 (operands i))) (i_imm (operands i)))) c).
Proof.
  intros Hg Hr. rewrite <- (set_x_id c) at 1.
  pose proof (ok_xlen c Hok) as Hxl. pose proof (ok_mask c Hok) as Hm.
  pose proof (ok_x c Hok (i_rs1 (operands i))) as Ha.
  destruct op; try discriminate Hg; injection Hg as <-; apply ri_exec_ok; try exact Hr;
    unfold sign_extend, shift_mask; cbn [set_x xlen]; rewrite ?Hxl; cbn [normalize_imm];
    rewrite ?unsigned_data_64 by exact Hm; try reflexivity; cbv zeta;
    revert Ha; generalize (x c (i_rs1 (operands i))) (i_imm (operands i)); intros a imm Ha;
    rewrite ?shamt_64, ?shamt_32.
  - destruct (as_i64_decomp imm) as [k ->]. f_equal. apply (as_i64_cong _ _ k). ring.
  - by rewrite as_u64_i64.
  - by rewrite shl_64 by (apply Z.mod_pos_bound; lia).
  - unfold wrapping_shr_u64. by rewrite shr_64 by (apply Z.mod_pos_bound; lia).
  - unfold wrapping_shr_i64. by rewrite shr_64 by (apply Z.mod_pos_bound; lia).
  - rewrite as_i32_i64. f_equal. unfold as_i64, as_i32. lia.
  - rewrite as_i32_u32, Z.shiftl_mul_pow2 by (apply Z.mod_pos_bound; lia). by rewrite as_i32_mul_cong_u32.
  - by rewrite Z.shiftr_div_pow2 by (apply Z.mod_pos_bound; lia).
  - by rewrite Z.shiftr_div_pow2 by (apply Z.mod_pos_bound; lia).
Qed.

End Exec64.

(** ** Shifts encoded as bitmasks *)

(** A property of the 64 shift amounts, by enumeration. *)
Lemma shift_cases (P : Z -> bool) :
  forallb P (map Z.of_nat (seq 0 64)) = true -> forall s, 0 <= s < 64 -> P s = true.
Proof.
  intros HP s Hs. rewrite forallb_forall in HP. apply HP.
  apply in_map_iff. exists (Z.to_nat s). split; [lia|]. apply in_seq. lia.
Qed.

Lemma ctz_bitmask s : 0 <= s < 64 -> trailing_zeros 64 (shift_bitmask s) mod 64 = s.
Proof.
  intros Hs. apply Z.eqb_eq.
  apply (shift_cases (fun s => trailing_zeros 64 (shift_bitmask s) mod 64 =? s)); [vm_compute; reflexivity | done].
Qed.

Lemma ctz_right_bitmask s : 0 <= s < 64 -> trailing_zeros 64 (as_u64 (right_bitmask 64 s)) mod 64 = s.
Proof.
  intros Hs. apply Z.eqb_eq.
  apply (shift_cases (fun s => trailing_zeros 64 (as_u64 (right_bitmask 64 s)) mod 64 =? s));
    [vm_compute; reflexivity | done].
Qed.

Lemma as_u64_mod64 b : as_u64 b mod 64 = b mod 64.
Proof. unfold as_u64. lia. Qed.

Lemma as_u64_mod32 b : as_u64 b mod 32 = b mod 32.
Proof. unfold as_u64. lia. Qed.

Lemma mod64_range b : 0 <= b mod 64 < 64.
Proof. apply Z.mod_pos_bound. lia. Qed.

Lemma mod32_range b : 0 <= b mod 32 < 32.
Proof. apply Z.mod_pos_bound. lia. Qed.

Lemma land_3f imm : Z.land imm 0x3f = imm mod 64.
Proof. change 0x3f with (Z.ones 6). by rewrite Z.land_ones by lia. Qed.

Lemma land_1f imm : Z.land imm 0x1f = imm mod 32.
Proof. change 0x1f with (Z.ones 5). by rewrite Z.land_ones by lia. Qed.

Lemma mul_pow2_i64 a s : as_i64 (a * as_i64 (Z.shiftl 1 s)) = as_i64 (a * Z.shiftl 1 s).
Proof. rewrite (Z.mul_comm a), as_i64_mul_cong. by rewrite Z.mul_comm. Qed.

Lemma mul_pow2_imm a s : 0 <= s < 64 ->
  as_i64 (a * as_i64 (as_u64 (as_u64 (Z.shiftl 1 s)))) = as_i64 (a * 2 ^ s).
Proof.
  intros Hs. rewrite !as_i64_u64, mul_pow2_i64, Z.shiftl_1_l. done.
Qed.

Lemma shiftr_i32 a n : is_i32 a -> 0 <= n -> is_i32 (Z.shiftr a n).
Proof. intros Ha Hn. rewrite Z.shiftr_div_pow2 by done. apply div_i32_range; [done|]. by apply pow2_pos. Qed.

(** The low word moved to the top and shifted back. *)
Lemma srlw_shift a s : 0 <= s < 32 ->
  as_i32 (as_i64 (Z.shiftr (as_u64 (as_i64 (a * 4294967296))) (s + 32))) = as_i32 (as_u32 a / 2 ^ s).
Proof.
  intros Hs. rewrite as_u64_i64, as_i32_i64, Z.shiftr_div_pow2 by lia.
  rewrite Z.pow_add_r by lia. rewrite (Z.mul_comm (2 ^ s)). rewrite <- Z.div_div by (try apply pow2_pos; lia).
  f_equal. f_equal. change (2 ^ 32) with 4294967296. unfold as_u64, as_u32. lia.
Qed.

Lemma lor_32_mod b : Z.lor b 32 mod 64 = b mod 32 + 32.
Proof.
  transitivity (Z.lor (b mod 32) 32).
  - change 32 with (2 ^ 5). change 64 with (2 ^ 6). apply Z.bits_inj'. intros n Hn.
    rewrite tb_mod, !Z.lor_spec, tb_mod, !Z.pow2_bits_eqb by lia.
    destruct (Z.eqb_spec 5 n); [subst; by rewrite !orb_true_r|].
    destruct (Z.ltb_spec n 5), (Z.ltb_spec n 6); try lia; by rewrite ?orb_false_r.
  - pose proof (mod32_range b) as Hb.
    assert (H : (Z.lor (b mod 32 mod 32) 32 =? b mod 32 mod 32 + 32) = true).
    { apply (shift_cases (fun s => Z.lor (s mod 32) 32 =? s mod 32 + 32)); [vm_compute; reflexivity | lia]. }
    by rewrite Z.mod_mod, Z.eqb_eq in H by lia.
Qed.

(** The high product from the unsigned one and two corrections. *)
Lemma mulh_identity a b : is_i64 a -> is_i64 b ->
  as_i64 (as_i64 (as_i64 (Z.shiftr (as_u64 a * as_u64 b) 64) + as_i64 ((if a <? 0 then -1 else 0) * b))
          + as_i64 ((if b <? 0 then -1 else 0) * a)) = a * b / 2 ^ 64.
Proof.
  intros Ha Hb. rewrite <- (as_i64_small (a * b / 2 ^ 64)) by (by apply mulh_range).
  rewrite Z.shiftr_div_pow2 by lia. change (2 ^ 64) with 18446744073709551616.
  assert (Ea : as_u64 a = a + (if a <? 0 then 1 else 0) * 18446744073709551616)
    by (unfold as_u64, is_i64 in *; destruct (Z.ltb_spec a 0); lia).
  assert (Eb : as_u64 b = b + (if b <? 0 then 1 else 0) * 18446744073709551616)
    by (unfold as_u64, is_i64 in *; destruct (Z.ltb_spec b 0); lia).
  rewrite Ea, Eb. set (sa := if a <? 0 then 1 else 0). set (sb := if b <? 0 then 1 else 0).
  replace (if a <? 0 then -1 else 0) with (- sa) by (unfold sa; by destruct (a <? 0)).
  replace (if b <? 0 then -1 else 0) with (- sb) by (unfold sb; by destruct (b <? 0)).
  replace ((a + sa * 18446744073709551616) * (b + sb * 18446744073709551616))
    with (a * b + (a * sb + sa * b + sa * sb * 18446744073709551616) * 18446744073709551616) by ring.
  rewrite Z.div_add by done. generalize (a * b / 18446744073709551616). intros h.
  destruct (as_i64_decomp (h + (a * sb + sa * b + sa * sb * 18446744073709551616))) as [k1 ->].
  destruct (as_i64_decomp (- sa * b)) as [k2 ->]. destruct (as_i64_decomp (- sb * a)) as [k3 ->].
  destruct (as_i64_decomp (h + (a * sb + sa * b + sa * sb * 18446744073709551616)
              + k1 * 18446744073709551616 + (- sa * b + k2 * 18446744073709551616))) as [k4 ->].
  apply (as_i64_cong _ _ (sa * sb + k1 + k2 + k3 + k4)). ring.
Qed.

Lemma lxor_m1 a : Z.lxor a (-1) = - a - 1.
Proof. rewrite Z.lxor_m1_r. pose proof (Z.add_lnot_diag a). lia. Qed.

(** Negation of a 128-bit value with two limbs: the carry into the high limb is
    one when the low limb is zero. *)
Lemma neg_limbs p : 0 <= p < 9223372036854775808 * 18446744073709551616 ->
  as_i64 (- as_i64 (p / 18446744073709551616) - 1 +
          bool_i64 (as_u64 (as_i64 (- as_i64 p - 1 + 1)) <? as_u64 (- as_i64 p - 1))) = - p / 18446744073709551616.
Proof.
  intros Hp. set (M := 18446744073709551616) in *.
  pose proof (Z.div_mod p M ltac:(done)) as Hd. pose proof (Z.mod_pos_bound p M ltac:(done)) as Hl.
  set (h := p / M) in *. set (l := p mod M) in *.
  assert (Hh : 0 <= h < 9223372036854775808) by (unfold M in *; lia).
  replace (as_i64 h) with h by (unfold as_i64; lia).
  replace (as_i64 p) with (as_i64 l) by (symmetry; apply (as_i64_cong _ _ h); unfold M in *; lia).
  replace (- as_i64 l - 1 + 1) with (- as_i64 l) by ring.
  assert (Eq : - p / M = if l =? 0 then - h else - h - 1).
  { symmetry. destruct (Z.eqb_spec l 0); apply Z.div_unique with (r := if l =? 0 then 0 else M - l);
      destruct (Z.eqb_spec l 0); unfold M in *; lia. }
  rewrite Eq. clear Eq Hd. unfold M in *.
  assert (El : l = 0 \/ 0 < l) by lia. destruct El as [->|Hl0].
  - change (as_i64 0) with 0. cbn [Z.opp Z.eqb]. change (bool_i64 _) with 1. unfold as_i64. lia.
  - rewrite (proj2 (Z.eqb_neq l 0)) by lia.
    rewrite (proj2 (Z.ltb_ge _ _)); [cbn [bool_i64]; unfold as_i64; lia|]. unfold as_u64, as_i64. lia.
Qed.

(** The high signed-unsigned product from the magnitude of the first operand:
    for a negative one the 128-bit product is negated limb by limb. *)
Lemma mulhsu_identity a b : is_i64 a -> is_u64 b ->
  let sx := if a <? 0 then -1 else 0 in
  let s0 := Z.land sx 1 in
  let m := as_i64 (Z.lxor a sx + s0) in
  let hi := Z.lxor (as_i64 (Z.shiftr (as_u64 m * b) 64)) sx in
  let lo := Z.lxor (as_i64 (m * as_i64 b)) sx in
  let tmp := as_i64 (lo + s0) in
  as_i64 (hi + bool_i64 (as_u64 tmp <? as_u64 lo)) = a * b / 2 ^ 64.
Proof.
  intros Ha Hb. cbv zeta. rewrite Z.shiftr_div_pow2 by lia. change (2 ^ 64) with 18446744073709551616.
  destruct (Z.ltb_spec a 0) as [Hn|Hn].
  - change (Z.land (-1) 1) with 1. rewrite !lxor_m1.
    replace (- a - 1 + 1) with (- a) by ring.
    replace (as_u64 (as_i64 (- a))) with (- a) by (unfold is_i64, as_u64, as_i64 in *; lia).
    rewrite as_i64_mul_cong.
    assert (E : as_i64 (- a * as_i64 b) = as_i64 (- a * b))
      by (rewrite Z.mul_comm, as_i64_mul_cong; f_equal; ring).
    rewrite E. clear E.
    assert (Hp : 0 <= - a * b < 9223372036854775808 * 18446744073709551616) by (unfold is_i64, is_u64 in *; nia).
    replace (a * b) with (- (- a * b)) by ring. revert Hp. generalize (- a * b). intros p Hp.
    by apply neg_limbs.
  - change (Z.land 0 1) with 0. rewrite !Z.lxor_0_r, !Z.add_0_r.
    rewrite (as_i64_small a) by done. rewrite as_i64_i64, Z.ltb_irrefl. cbn [bool_i64]. rewrite Z.add_0_r, as_i64_i64.
    replace (as_u64 a) with a by (unfold is_i64, as_u64 in *; lia).
    change 18446744073709551616 with (2 ^ 64). apply as_i64_small. by apply mulhsu_range.
Qed.

(** ** Traces compute the specification *)

Section Trace64.
Context `{B : Build} `{R : InlineRegistry} (c : Cpu) (Hok : cpu_ok64 c).

Lemma trace_R_64 op g i :
  spec_R op = Some g -> is_leaf_R op = false -> advice_of op = None -> user_regs (InstrR op i) = true ->
  trace_writes (InstrR op i) c (r_rd (operands i)) (g (x c (r_rs1 (operands i))) (x c (r_rs2 (operands i)))).
Proof.
  intros Hg Hl Ha Hr.
  pose proof (ok_x c Hok (r_rs1 (operands i))) as Ia. pose proof (ok_x c Hok (r_rs2 (operands i))) as Ib.
  destruct op; try discriminate Hg; try discriminate Hl; try discriminate Ha; injection Hg as <-;
    open_R Hr; run_sequence c Hok Hr; subst; revert Ia Ib; generalize (x c rs1) (x c rs2); intros a b Ia Ib;
    cbn [alu64_VR]; rewrite ?as_u64_mod64, ?as_u64_mod32.
  - by rewrite mul_pow2_i64, Z.shiftl_1_l.
  - by rewrite ctz_bitmask, Z.shiftr_div_pow2 by apply mod64_range.
  - by rewrite ctz_bitmask, Z.shiftr_div_pow2 by apply mod64_range.
  - by apply mulh_identity.
  - rewrite <- (mulhsu_identity a (as_u64 b)) by (done || apply as_u64_range).
    cbv zeta. by rewrite as_i64_u64, (as_i64_small b).
  - apply as_i32_i64.
  - apply as_i32_i64.
  - by rewrite as_i32_i64, Z.shiftl_1_l.
  - rewrite lor_32_mod, ctz_bitmask by (pose proof (mod32_range b); lia). apply srlw_shift, mod32_range.
  - rewrite land_1f. replace (b mod 32 mod 64) with (b mod 32) by (pose proof (mod32_range b); lia).
    rewrite ctz_bitmask by (pose proof (mod32_range b); lia). pose proof (mod32_range b).
    rewrite as_i32_small by (apply shiftr_i32; [apply as_i32_range | lia]). by rewrite Z.shiftr_div_pow2 by lia.
  - apply as_i32_i64.
Qed.

Lemma trace_I_64 op g i :
  spec_I op = Some g -> is_leaf (InstrI op i) = false -> user_regs (InstrI op i) = true ->
  trace_writes (InstrI op i) c (i_rd (operands i)) (g (x c (i_rs1 (operands i))) (i_imm (operands i))).
Proof.
  intros Hg Hl Hr. pose proof (ok_x c Hok (i_rs1 (operands i))) as Ia.
  destruct op; try discriminate Hg; try discriminate Hl; injection Hg as <-;
    open_I Hr; run_sequence c Hok Hr; subst; revert Ia; generalize (x c rs1); intros a Ia;
    unfold SRLIW_bitmask; rewrite ?land_3f, ?land_1f.
  - apply mul_pow2_imm, mod64_range.
  - by rewrite ctz_right_bitmask, Z.shiftr_div_pow2 by apply mod64_range.
  - by rewrite ctz_right_bitmask, Z.shiftr_div_pow2 by apply mod64_range.
  - rewrite as_i32_i64, as_i64_u64. unfold as_i32, as_i64. lia.
  - rewrite mul_pow2_imm by (pose proof (mod32_range imm); lia). apply as_i32_i64.
  - rewrite ctz_right_bitmask by (pose proof (mod32_range imm); lia). apply srlw_shift, mod32_range.
  - pose proof (mod32_range imm). rewrite ctz_right_bitmask by lia.
    rewrite as_i32_small by (apply shiftr_i32; [apply as_i32_range | lia]). by rewrite Z.shiftr_div_pow2 by lia.
Qed.

End Trace64.
