(* ===== verification/Mem64.v ===== *)
(** * Loads and stores of the 64-bit machine

    A narrow load or store is traced as a sequence around an aligned doubleword
    access.  For every address of main memory that the layout allows, [execute]
    has the effect of the manual and the traced sequence has the same one. *)

From Stdlib Require Import ZArith Lia List Bool.
From stdpp Require Import base list.
From S2P Require Import Prelude Words Memory Types Device Mmu DramAccess Isa Decode Allocator Cpu Exec Assembler Sequences Trace Step Refine Alu64.
Import ListNotations.
Local Open Scope Z_scope.
Local Open Scope rust_scope.

(** Width and extension of the loads. *)
Definition spec_load (op : OpLoad) : Z * (Z -> Z) :=
  match op with
  | LB => (1, as_i8) | LBU => (1, fun v => v)
  | LH => (2, as_i16) | LHU => (2, fun v => v)
  | LW => (4, as_i32) | LWU => (4, fun v => v)
  | LD => (8, as_i64)
  end.

(** Width of the stores of the base instruction set. *)
Definition spec_store (op : OpS) : option Z :=
  match op with SB => Some 1 | SH => Some 2 | SW => Some 4 | SD => Some 8 | VirtualSW => None end.

(** Tracing [i] in [c] succeeds and ends in [c1], up to [x0] and virtual
    registers. *)
Definition trace_to `{Build} `{InlineRegistry} (i : Instruction) (c c1 : Cpu) : Prop :=
  exists cs c2, Instruction_trace i c = Ok (cs, c2) /\ same_arch c1 c2.

Definition reaches (c1 : Cpu) (r : Res Cpu) : Prop := exists c2, r = Ok c2 /\ same_arch c1 c2.

(** An access of [n] bytes at [a]: aligned, in main memory with the word whose
    record is taken, and allowed by the layout. *)
Record access_ok `{Build} (m : Mmu) (a n : Z) : Prop := {
  acc_width : access_width n = true;
  acc_aligned : a mod n = 0;
  acc_record : in_dram m (record_address a) 8;
  acc_load : load_allowed m a
}.

Lemma set_mmu_id c X : set_mmu (mmu c) (set_x X c) = set_x X c.
Proof. by destruct c. Qed.

Lemma set_mmu_same c : set_mmu (mmu c) c = c.
Proof. by destruct c. Qed.

Lemma cpu_ok64_set_mmu c m : cpu_ok64 c -> mmu_xlen m = Bit64 -> cpu_ok64 (set_mmu m c).
Proof. intros Hok Hm. by constructor; cbn; try apply Hok. Qed.

Lemma get_x_ok r X c : reg_ok r = true -> get_x r (set_x X c) = Ok (X r, set_x X c).
Proof. intros Hr. unfold get_x. by rewrite Hr. Qed.

Lemma put_x_ok r v X c : reg_ok r = true -> put_x r v (set_x X c) = Ok (tt, set_x (zupd X r v) c).
Proof. intros Hr. unfold put_x. by rewrite Hr. Qed.

(** ** Arithmetic of the sequences *)

Lemma land_m8 a : Z.land a (-8) = dword_address a.
Proof.
  unfold dword_address. replace (a - a mod 8) with (Z.shiftl (Z.shiftr a 3) 3).
  - change (-8) with (Z.shiftl (-1) 3). bitblast.
  - rewrite Z.shiftl_mul_pow2, Z.shiftr_div_pow2 by lia. change (2 ^ 3) with 8. lia.
Qed.

Lemma addi_address a imm : is_i32 imm -> DRAM_BASE <= a + imm < 2 ^ 63 -> as_i64 (a + as_i64 imm) = a + imm.
Proof.
  intros Hi H. rewrite (as_i64_small imm) by (by apply i32_is_i64).
  apply as_i64_small. unfold is_i64, DRAM_BASE, RAM_START_ADDRESS in *. lia.
Qed.

(** The shift amounts computed from the address. *)
Lemma shl3_mod a : as_u64 (as_i64 (a * 8)) mod 64 = 8 * (a mod 8).
Proof. rewrite as_u64_i64. unfold as_u64. lia. Qed.

Lemma xor_low a k : 0 <= k < 8 -> Z.land (a mod 8) k = a mod 8 -> (Z.lxor a k) mod 8 = k - a mod 8.
Proof.
  intros Hk Hs. assert (E : (Z.lxor a k) mod 8 = Z.lxor (a mod 8) k).
  { rewrite <- (Z.mod_small k 8) at 2 by done. change 8 with (2 ^ 3). apply Z.bits_inj'. intros n Hn.
    rewrite Z.lxor_spec, !tb_mod, Z.lxor_spec by lia. by destruct (n <? 3). }
  rewrite E. pose proof (Z.mod_pos_bound a 8 ltac:(lia)) as Hb. revert Hs Hb. generalize (a mod 8). intros r Hs Hb.
  assert (Hr : r = 0 \/ r = 1 \/ r = 2 \/ r = 3 \/ r = 4 \/ r = 5 \/ r = 6 \/ r = 7) by lia.
  assert (Hk' : k = 0 \/ k = 1 \/ k = 2 \/ k = 3 \/ k = 4 \/ k = 5 \/ k = 6 \/ k = 7) by lia.
  repeat (destruct Hr as [->|Hr] || destruct Hk' as [->|Hk']); subst; try discriminate Hs; reflexivity.
Qed.

(** A field moved to the top and shifted back down is extended. *)
Lemma top_signed_8 d s : 0 <= s <= 56 -> Z.shiftr (as_i64 (as_i64 d * as_i64 (Z.shiftl 1 s))) 56 = as_i8 (Z.shiftr d (56 - s)).
Proof. intros Hs. rewrite mul_pow2_i64, as_i64_mul_cong, Z.shiftl_1_l, <- Z.shiftl_mul_pow2 by lia. bitblast. Qed.

Lemma top_signed_16 d s : 0 <= s <= 48 -> Z.shiftr (as_i64 (as_i64 d * as_i64 (Z.shiftl 1 s))) 48 = as_i16 (Z.shiftr d (48 - s)).
Proof. intros Hs. rewrite mul_pow2_i64, as_i64_mul_cong, Z.shiftl_1_l, <- Z.shiftl_mul_pow2 by lia. bitblast. Qed.

Lemma top_unsigned d s w : w = 8 \/ w = 16 \/ w = 32 -> 0 <= s <= 64 - w ->
  as_i64 (Z.shiftr (as_u64 (as_i64 (as_i64 d * as_i64 (Z.shiftl 1 s)))) (64 - w)) = as_i64 (as_unsigned w (Z.shiftr d (64 - w - s))).
Proof.
  intros Hw Hs. f_equal. rewrite mul_pow2_i64, as_i64_mul_cong, Z.shiftl_1_l, <- Z.shiftl_mul_pow2 by lia. 
  destruct Hw as [-> | [-> | ->]];
    change (as_unsigned 8) with as_u8; change (as_unsigned 16) with as_u16; change (as_unsigned 32) with as_u32; bitblast.
Qed.

Lemma as_i8_u8 z : as_i8 (as_u8 z) = as_i8 z.
Proof. unfold as_i8, as_u8. lia. Qed.

Lemma as_i16_u16 z : as_i16 (as_u16 z) = as_i16 z.
Proof. unfold as_i16, as_u16. lia. Qed.

(** The shift that moves the field at [a] to the top, by width. *)
Lemma xor_shift a n k : n = 1 \/ n = 2 \/ n = 4 -> a mod n = 0 -> k = 8 - n ->
  as_u64 (as_i64 (Z.lxor a k * 8)) mod 64 = 64 - 8 * n - 8 * (a mod 8).
Proof.
  intros Hn Ha ->. rewrite shl3_mod, xor_low; [lia|lia|].
  assert (Hr : a mod 8 = 0 \/ a mod 8 = 1 \/ a mod 8 = 2 \/ a mod 8 = 3 \/ a mod 8 = 4 \/ a mod 8 = 5 \/ a mod 8 = 6 \/ a mod 8 = 7)
    by (pose proof (Z.mod_pos_bound a 8); lia).
  destruct Hn as [-> | [-> | ->]]; repeat (destruct Hr as [Hr | Hr]); rewrite Hr; reflexivity || (exfalso; lia).
Qed.

Lemma bytes_at_i64 d a n : n = 1 \/ n = 2 \/ n = 4 -> as_i64 (bytes_at d a n) = bytes_at d a n.
Proof.
  intros Hn. apply as_i64_small. unfold bytes_at, as_unsigned, is_i64.
  pose proof (Z.mod_pos_bound (Z.shiftr d (8 * (a mod 8))) (2 ^ (8 * n))) as Hb.
  destruct Hn as [-> | [-> | ->]]; specialize (Hb ltac:(done)); cbn in *; lia.
Qed.

(** Replacing a field through exclusive or and a mask. *)
Lemma merge_field d v s w : is_u64 d -> 0 < w -> 0 <= s -> s + w <= 64 ->
  as_u64 (Z.lxor (as_i64 d) (Z.land (Z.lxor (as_i64 d) (as_i64 (v * as_i64 (Z.shiftl 1 s)))) (as_i64 (Z.ones w * as_i64 (Z.shiftl 1 s))))) =
  set_field d s w (as_unsigned w v).
Proof.
  intros Hd Hw Hs Hsw. rewrite !mul_pow2_i64, Z.shiftl_1_l, <- !Z.shiftl_mul_pow2 by lia.
  apply Z.bits_inj'. intros k Hk. rewrite set_field_spec by lia. unfold as_unsigned.
  autorewrite with tb. rewrite !tb_ones, tb_mod by lia. bit_split; bit_finish.
Qed.

(** The word at [a], shifted down. *)
Lemma srl_word d a : is_u64 d ->
  as_i32 (alu64_VR VirtualSRL (as_i64 d) (shift_bitmask (as_u64 (as_i64 (a * 8)) mod 64))) = as_i32 (Z.shiftr d (8 * (a mod 8))).
Proof.
  intros Hd. cbn [alu64_VR]. rewrite shl3_mod, ctz_bitmask by lia. rewrite as_i32_i64, as_u64_i64, as_u64_small by done. done.
Qed.

Section Mem.
Context `{B : Build} (c : Cpu) (Hok : cpu_ok64 c) (Hm : mmu_ok (mmu c)).

Lemma acc_in_dram a n : access_ok (mmu c) a n -> in_dram (mmu c) a n.
Proof. intros [? ? ? ?]. by apply aligned_in_dram. Qed.

Lemma acc_byte a n : access_ok (mmu c) a n -> in_dram (mmu c) a 1.
Proof.
  intros Ha. apply (in_dram_byte _ a n); [by apply acc_in_dram|].
  destruct Ha as [Hn _ _ _]. apply access_width_cases in Hn. lia.
Qed.

(** The surrounding doubleword is accessible too. *)
Lemma acc_dword a n : access_ok (mmu c) a n -> access_ok (mmu c) (dword_address a) 8.
Proof.
  intros Ha. pose proof (acc_byte a n Ha) as Hb. pose proof (dword_address_in_dram _ a Hb) as Hw.
  constructor.
  - done.
  - apply dword_address_aligned.
  - by rewrite record_address_dword.
  - apply (load_allowed_le _ _ a); [|by destruct Ha]. unfold in_dram, dword_address in *. lia.
Qed.

Lemma expect_mmu {A} (f : ST Mmu (Result A Trap)) X v m' :
  f (mmu c) = Ok (ROk v, m') -> expect f (set_x X c) = Ok (v, set_x X (set_mmu m' c)).
Proof. intros Hf. unfold expect, on_mmu, bind. cbn [set_x mmu]. by rewrite Hf. Qed.

Lemma address_64 a imm : DRAM_BASE <= a + imm < 2 ^ 63 -> as_u64 (as_i64 (a + imm)) = a + imm.
Proof. intros H. rewrite as_u64_i64. apply as_u64_small. unfold is_u64, DRAM_BASE, RAM_START_ADDRESS in *. lia. Qed.

Lemma acc_range a n : access_ok (mmu c) a n -> DRAM_BASE <= a < 2 ^ 63.
Proof.
  intros Ha. pose proof (dram_range (mmu c) Hm a 1 (acc_byte a n Ha) ltac:(lia)).
  unfold DRAM_BASE, RAM_START_ADDRESS. lia.
Qed.

Lemma address_ld a imm : is_i32 imm -> DRAM_BASE <= a + imm < 2 ^ 63 -> as_u64 (as_u64 a + as_u64 (as_i32 imm)) = a + imm.
Proof.
  intros Hi H. rewrite (as_i32_small imm Hi). unfold as_u64, DRAM_BASE, RAM_START_ADDRESS in *. lia.
Qed.

Lemma load_access n a d : access_ok (mmu c) a n -> dword (mmu c) a = Ok d -> is_u64 d ->
  exists r, (match n with
             | 1 => load a | 2 => load_halfword a | 4 => load_word a | _ => load_doubleword a
             end) (mmu c) = Ok (ROk (bytes_at d a n, r), mmu c).
Proof.
  intros Ha Hd Hu. pose proof (acc_in_dram a n Ha) as Hin. destruct Ha as [Hn Hal Hrec Hld].
  destruct (load_width_ok (mmu c) Hm n a d) as [r Hr]; try done.
  destruct (access_width_cases n Hn) as [-> | [-> | [-> | ->]]]; eauto.
  by apply load_ok.
Qed.

(** A load whose access succeeds. *)
Lemma load_tail A f rd (v : Z) (r : RAMRead) X : reg_ok rd = true -> A (mmu c) = Ok (ROk (v, r), mmu c) ->
  ram_read (q <-- expect A ;; let '(v, memory_read) := q in put_x rd (f v) ;;; ret memory_read) (set_x X c) =
    Ok (RARead r, set_x (zupd X rd (f v)) c).
Proof.
  intros Hd HA. unfold ram_read. erewrite bind_ok; [reflexivity|].
  erewrite bind_ok by (by apply expect_mmu). cbn beta iota. rewrite set_mmu_same.
  erewrite bind_ok by (by apply put_x_ok). reflexivity.
Qed.

Lemma ram_read_get_x r X k : reg_ok r = true ->
  ram_read (a <-- get_x r ;; k a) (set_x X c) = ram_read (k (X r)) (set_x X c).
Proof. intros Hr. unfold ram_read, bind at 1 2. by rewrite get_x_ok. Qed.

(** [execute] of a load. *)
Lemma exec_load op i X n ext d (a := X (l_rs1 (operands i)) + l_imm (operands i)) :
  spec_load op = (n, ext) -> regs_ok (InstrLoad op i) = true -> is_i32 (l_imm (operands i)) ->
  access_ok (mmu c) a n -> dword (mmu c) a = Ok d -> is_u64 d ->
  exists r, execute (InstrLoad op i) (set_x X c) =
    Ok (RARead r, set_x (zupd X (l_rd (operands i)) (ext (bytes_at d a n))) c).
Proof.
  intros Hs [Hd H1]%andb_prop Hi Ha Hdw Hu. destruct (load_access n a d Ha Hdw Hu) as [r Hr].
  pose proof (acc_range a n Ha) as Hrange. exists r. subst a.
  destruct op; injection Hs as <- <-; cbn [execute exec_Load];
    unfold LB_exec, LBU_exec, LH_exec, LHU_exec, LW_exec, LWU_exec, LD_exec, load_exec;
    rewrite ram_read_get_x by done; rewrite ?address_64, ?address_ld by done.
  all: by rewrite (load_tail _ _ _ _ _ _ Hd Hr).
Qed.

(** [execute] of a store: the new memory is that of [stored]. *)
Lemma exec_store op i X n m' (a := X (s_rs1 (operands i)) + s_imm (operands i)) :
  spec_store op = Some n -> regs_ok (InstrS op i) = true ->
  access_ok (mmu c) a n -> store_allowed (mmu c) a ->
  stored (mmu c) a n (as_unsigned (8 * n) (X (s_rs2 (operands i)))) = Ok m' ->
  exists w, execute (InstrS op i) (set_x X c) = Ok (RAWrite w, set_x X (set_mmu m' c)).
Proof.
  intros Hs [H1 H2]%andb_prop Ha Hst Hm'. pose proof (acc_in_dram a n Ha) as Hin. pose proof (acc_byte a n Ha) as Hb.
  pose proof (acc_range a n Ha) as Hrange. destruct (dword_ok _ Hm a Hb) as (d & Hd & Hu).
  assert (Hv : 0 <= as_unsigned (8 * n) (X (s_rs2 (operands i))) < 2 ^ (8 * n)).
  { apply Z.mod_pos_bound, Z.pow_pos_nonneg; [lia|]. destruct Ha as [Hn _ _ _]. apply access_width_cases in Hn. lia. }
  assert (Hex : exists w, (match n with
                  | 1 => store a | 2 => store_halfword a | 4 => store_word a | _ => store_doubleword a
                  end) (as_unsigned (8 * n) (X (s_rs2 (operands i)))) (mmu c) = Ok (ROk w, m')).
  { destruct Ha as [Hn Hal Hrec Hld]. destruct (access_width_cases n Hn) as [-> | Hn'].
    - by apply (store_ok _ Hm a d).
    - destruct (store_width_ok _ Hm n a d _ m' Hn' Hal Hin Hrec Hst Hd Hu Hv Hm') as [w Hw].
      destruct Hn' as [-> | [-> | ->]]; eauto. }
  destruct Hex as [w Hw]. exists w. subst a.
  destruct op; try discriminate Hs; injection Hs as <-; cbn [execute exec_S];
    unfold ram_write, SB_exec, SH_exec, SW_exec, SD_exec, store_exec;
    (erewrite bind_ok; [reflexivity|]); erewrite bind_ok by (by apply get_x_ok);
    erewrite bind_ok by (by apply get_x_ok); rewrite address_64 by done; by apply expect_mmu.
Qed.

(** ** Steps of a sequence that touch memory *)

Lemma run_LD i l X (Q : Res Cpu -> Prop) d (a := X (l_rs1 (operands i))) :
  l_imm (operands i) = 0 -> regs_ok (InstrLoad LD i) = true -> i64s X ->
  access_ok (mmu c) a 8 -> dword (mmu c) a = Ok d -> is_u64 d ->
  (forall v, v = as_i64 d -> is_i64 v -> i64s (zupd X (l_rd (operands i)) v) ->
     Q (run l (set_x (zupd X (l_rd (operands i)) v) c))) ->
  Q (run (InstrLoad LD i :: l) (set_x X c)).
Proof.
  intros Hi Hr HX Ha Hd Hu Hk. subst a.
  destruct (exec_load LD i X 8 as_i64 d) as [r He]; rewrite ?Hi, ?Z.add_0_r in *; try done.
  erewrite run_step by exact He.
  replace (bytes_at d (X (l_rs1 (operands i))) 8) with d; [apply Hk; auto using zupd_i64s, as_i64_range|].
  unfold bytes_at. rewrite (acc_aligned _ _ _ Ha), Z.mul_0_r, Z.shiftr_0_r. symmetry. by apply as_u64_small.
Qed.

Lemma run_SD i l X (Q : Res Cpu -> Prop) m' (a := X (s_rs1 (operands i))) :
  s_imm (operands i) = 0 -> regs_ok (InstrS SD i) = true ->
  access_ok (mmu c) a 8 -> store_allowed (mmu c) a -> stored (mmu c) a 8 (as_u64 (X (s_rs2 (operands i)))) = Ok m' ->
  Q (run l (set_x X (set_mmu m' c))) ->
  Q (run (InstrS SD i :: l) (set_x X c)).
Proof.
  intros Hi Hr Ha Hst Hm' Hk. subst a.
  destruct (exec_store SD i X 8 m') as [r He]; rewrite ?Hi, ?Z.add_0_r in *; try done.
  by erewrite run_step by exact He.
Qed.

Lemma run_align op n i l X (Q : Res Cpu -> Prop) :
  (op = VirtualAssertHalfwordAlignment /\ n = 2) \/ (op = VirtualAssertWordAlignment /\ n = 4) ->
  regs_ok (InstrAlign op i) = true -> is_i64 (X (a_rs1 (operands i)) + a_imm (operands i)) ->
  (X (a_rs1 (operands i)) + a_imm (operands i)) mod n = 0 ->
  Q (run l (set_x X c)) -> Q (run (InstrAlign op i :: l) (set_x X c)).
Proof.
  intros Hop Hr Hi Hal HQ. erewrite run_step; [exact HQ|].
  cbn [regs_ok] in Hr.
  assert (Hmask : Z.land (X (a_rs1 (operands i)) + a_imm (operands i)) (n - 1) = 0).
  { destruct Hop as [[_ ->] | [_ ->]]; [change (2 - 1) with (Z.ones 1) | change (4 - 1) with (Z.ones 2)];
      rewrite Z.land_ones by lia; exact Hal. }
  destruct Hop as [[-> ->] | [-> ->]]; cbn [execute exec_Align];
    unfold no_ram, VirtualAssertHalfwordAlignment_exec, VirtualAssertWordAlignment_exec, align_exec;
    (erewrite bind_ok; [reflexivity|]); erewrite bind_ok by (by apply get_x_ok); unfold lift at 1, bind;
    rewrite arith_i64_ok by done; unfold assert_that; change (2 - 1) with 1 in Hmask; change (4 - 1) with 3 in Hmask; by rewrite Hmask.
Qed.

End Mem.

Ltac align_simpl :=
  reg_simpl;
  repeat match goal with
         | |- context [as_i64 ?t] => closed t; let v := eval vm_compute in (as_i64 t) in change (as_i64 t) with v
         end;
  rewrite ?as_i64_small by (unfold is_i32, is_i64 in *; lia).

(** Memory steps of a sequence around the doubleword of the access. *)
Ltac step_mem c Hm Hd Hu Haw :=
  lazymatch goal with
  | |- _ (run (InstrLoad LD _ :: _) _) =>
      eapply (run_LD c Hm); [reflexivity | regs_done | assumption | reg_simpl; exact Haw | reg_simpl; exact Hd | exact Hu | ];
      let v := fresh "v" in let E := fresh "E" in let I := fresh "I" in let HX := fresh "HX" in
      cbn [operands l_rd]; intros v E I HX;
      repeat match goal with H : i64s _ |- _ => tryif constr_eq H HX then fail else clear H end
  | |- _ (run (InstrAlign _ _ :: _) _) =>
      eapply (run_align c); [first [by left | by right] | regs_done | align_simpl; unfold is_i64; lia | align_simpl; first [assumption | lia] | ]
  end.


(** The run ends with the memory of [m'], registers unchanged up to [x0] and
    virtual registers. *)
Lemma reaches_done c c1 X : (forall r, 0 < r < 32 -> X r = x c1 r) -> set_x (x c1) c = c1 -> reaches c1 (Ok (set_x X c)).
Proof. intros HX Hc. eexists. split; [done|]. split; [by rewrite <- Hc|]. exact HX. Qed.

Ltac reaches_regs :=
  apply reaches_done; [|reflexivity];
  let r := fresh "r" in intros r ?; cbn [set_x set_mmu x]; unfold zupd;
  repeat match goal with
         | |- context [r =? ?k] => lazymatch k with Zpos _ => rewrite (proj2 (Z.eqb_neq r k)) by lia end
         end.

(** ** Traced loads and stores *)

Section Traced_accesses.
Context (oc dbg : bool) `{R : InlineRegistry}.
Local Instance B64 : Build := Build_Build true oc dbg.
Context (c : Cpu) (Hok : cpu_ok64 c) (Hm : mmu_ok (mmu c)).

Lemma trace_load_64 op i n ext d (a := x c (l_rs1 (operands i)) + l_imm (operands i)) :
  spec_load op = (n, ext) -> op <> LD -> user_regs (InstrLoad op i) = true -> is_i32 (l_imm (operands i)) ->
  access_ok (mmu c) a n -> dword (mmu c) a = Ok d -> is_u64 d ->
  trace_writes (InstrLoad op i) c (l_rd (operands i)) (ext (bytes_at d a n)).
Proof.
  intros Hs Hld Hr Hi Ha Hd Hu. subst a. pose proof (acc_range c Hm _ _ Ha) as Hrange.
  pose proof (acc_dword c _ _ Ha) as Haw. rewrite <- dword_of_address in Hd.
  pose proof (acc_aligned _ _ _ Ha) as Hal.
  pose proof Hr as [Hrd%user_reg_range H1%user_reg_range]%andb_prop.
  destruct i as [ad [rd rs1 imm] rem cp]. cbn [operands l_rd l_rs1 l_imm] in *.
  open_pool c Hok. assert (H63 : 2 ^ 63 = 9223372036854775808) by reflexivity.
  unfold DRAM_BASE, RAM_START_ADDRESS in Hrange.
  destruct op; try done; injection Hs as <- <-.
  all: eapply (sequence_writes c Hok);
    [reflexivity | done | done | exact Hr
    | lazymatch goal with Ev : vr_allocator c = _ |- _ => rewrite Ev end; eval_sequence
    | leaves_done | ].
  all: assert (i64s (x c)) by exact (ok_x c Hok).
  all: try step_mem c Hm Hd Hu Haw.
  all: step_one Hok; rewrite !as_i64_u64, addi_address in E by (done || unfold DRAM_BASE, RAM_START_ADDRESS; lia);
    step_one Hok; rewrite land_m8 in E0; subst v v0; step_mem c Hm Hd Hu Haw; repeat step_one Hok; writes_done;
    repeat match goal with HX : i64s (zupd _ _ _) |- _ => clear HX end.
  all: subst; revert Hal; generalize (x c rs1 + imm); intros a Hal.
  - rewrite (xor_shift a 1) by lia. change (trailing_zeros 64 _ mod 64) with 56.
    rewrite top_signed_8 by lia. unfold bytes_at. change (as_unsigned (8 * 1)) with as_u8. rewrite as_i8_u8. f_equal. f_equal. lia.
  - rewrite (xor_shift a 1) by lia. change (trailing_zeros 64 _ mod 64) with (64 - 8).
    rewrite top_unsigned by lia. rewrite <- (bytes_at_i64 d a 1) by lia. unfold bytes_at. repeat f_equal; lia.
  - rewrite (xor_shift a 2) by lia. change (trailing_zeros 64 _ mod 64) with 48.
    rewrite top_signed_16 by lia. unfold bytes_at. change (as_unsigned (8 * 2)) with as_u16. rewrite as_i16_u16. f_equal. f_equal. lia.
  - rewrite (xor_shift a 2) by lia. change (trailing_zeros 64 _ mod 64) with (64 - 16).
    rewrite top_unsigned by lia. rewrite <- (bytes_at_i64 d a 2) by lia. unfold bytes_at. repeat f_equal; lia.
  - rewrite srl_word by done. unfold bytes_at. change (as_unsigned (8 * 4)) with as_u32. by rewrite as_i32_u32.
  - rewrite (xor_shift a 4) by lia. change (trailing_zeros 64 _ mod 64) with (64 - 32).
    rewrite top_unsigned by lia. rewrite <- (bytes_at_i64 d a 4) by lia. unfold bytes_at. repeat f_equal; lia.
Qed.

Lemma sequence_to i s c1 :
  match i with InstrR op _ => advice_of op = None | _ => True end ->
  i <> NoOp -> i <> UNIMPL -> user_regs i = true ->
  inline_sequence i Bit64 (vr_allocator c) = Ok (s, vr_allocator c) ->
  forallb leaf_ok s = true ->
  reaches c1 (run s (set_x (x c) c)) ->
  trace_to i c c1.
Proof.
  intros Ha Hn Hu Hr Hs Hl (c2 & Hrun & Hc2).
  pose proof (trace_sequence i s c Ha Hn Hu (expand_eq c Hok i s Hs) Hl (user_regs_ok i Hn Hu Hr)) as Ht.
  unfold traced in Ht. rewrite set_x_id in Hrun. rewrite Hrun in Ht.
  destruct (Instruction_trace i c) as [[cs c']| |] eqn:Et; try done. destruct Ht as [Ht _].
  assert (c' = c2) as -> by congruence. by exists cs, c2.
Qed.

Lemma trace_store_64 op i n m' (a := x c (s_rs1 (operands i)) + s_imm (operands i)) :
  spec_store op = Some n -> op <> SD -> user_regs (InstrS op i) = true -> is_i32 (s_imm (operands i)) ->
  access_ok (mmu c) a n -> store_allowed (mmu c) (dword_address a) ->
  stored (mmu c) a n (as_unsigned (8 * n) (x c (s_rs2 (operands i)))) = Ok m' ->
  trace_to (InstrS op i) c (set_mmu m' c).
Proof.
  intros Hs Hld Hr Hi Ha Hst Hm'. subst a. pose proof (acc_range c Hm _ _ Ha) as Hrange.
  pose proof (acc_dword c _ _ Ha) as Haw. pose proof (acc_byte c _ _ Ha) as Hb.
  destruct (dword_ok (mmu c) Hm _ Hb) as (d & Hd & Hu).
  assert (Hmerge : forall w, w = set_field d (8 * ((x c (s_rs1 (operands i)) + s_imm (operands i)) mod 8)) (8 * n)
                                  (as_unsigned (8 * n) (x c (s_rs2 (operands i)))) ->
            stored (mmu c) (dword_address (x c (s_rs1 (operands i)) + s_imm (operands i))) 8 w = Ok m').
  { intros w Hw. rewrite <- Hm'. eapply stored_dword; try done; apply Ha. }
  rewrite <- dword_of_address in Hd.
  pose proof (acc_aligned _ _ _ Ha) as Hal. pose proof (field_in_dword _ _ (acc_width _ _ _ Ha) Hal) as Hfield.
  pose proof (ok_x0 c Hok) as Hx0.
  pose proof Hr as [H1%user_reg_range H2%user_reg_range]%andb_prop.
  destruct i as [ad [rs1 rs2 imm] rem cp]. cbn [operands s_rs1 s_rs2 s_imm] in *.
  open_pool c Hok. assert (H63 : 2 ^ 63 = 9223372036854775808) by reflexivity.
  unfold DRAM_BASE, RAM_START_ADDRESS in Hrange.
  destruct op; try done; injection Hs as <-.
  all: eapply sequence_to;
    [done | done | done | exact Hr
    | lazymatch goal with Ev : vr_allocator c = _ |- _ => rewrite Ev end; eval_sequence
    | leaves_done | ].
  all: assert (i64s (x c)) by exact (ok_x c Hok).
  all: try step_mem c Hm Hd Hu Haw.
  all: step_one Hok; rewrite !as_i64_u64, addi_address in E by (done || unfold DRAM_BASE, RAM_START_ADDRESS; lia);
    step_one Hok; rewrite land_m8 in E0; subst v v0; step_mem c Hm Hd Hu Haw; repeat step_one Hok.
  all: eapply (run_SD c Hm); [reflexivity | regs_done | reg_simpl; exact Haw | reg_simpl; exact Hst | reg_simpl; apply Hmerge | cbn [run]; reaches_regs; try done ].
  all: subst; rewrite ?Hx0, !shl3_mod.
  - change 255 with (Z.ones (8 * 1)). apply merge_field; done || lia.
  - change 65535 with (Z.ones (8 * 2)). apply merge_field; done || lia.
  - change (as_i64 (Z.shiftr (as_u64 (Z.lor 0 (-1))) _)) with (Z.ones (8 * 4)). apply merge_field; done || lia.
Qed.
End Traced_accesses.
