(* ===== verification/Amo64.v ===== *)
(** * Atomic memory operations of the 64-bit machine

    The effect of the eighteen [AMO*.W] and [AMO*.D] instructions, as executed
    and as traced. *)

From Stdlib Require Import ZArith Lia List Bool.
From stdpp Require Import base list.
From S2P Require Import Prelude Words Memory Types Device Mmu DramAccess Isa Decode Allocator Cpu Exec Assembler Sequences Trace Step Refine Alu64 Mem64.
Import ListNotations.
Local Open Scope Z_scope.
Local Open Scope rust_scope.

(** Width, and new value from the (sign-extended) original and the operand. *)
Definition spec_amo (op : OpR) : option (Z * (Z -> Z -> Z)) :=
  match op with
  | AMOSWAPD => Some (8, fun _ v => v)
  | AMOADDD => Some (8, Z.add)
  | AMOANDD => Some (8, Z.land)
  | AMOORD => Some (8, Z.lor)
  | AMOXORD => Some (8, Z.lxor)
  | AMOMIND => Some (8, Z.min)
  | AMOMAXD => Some (8, Z.max)
  | AMOMINUD => Some (8, fun o v => Z.min (as_u64 o) (as_u64 v))
  | AMOMAXUD => Some (8, fun o v => Z.max (as_u64 o) (as_u64 v))
  | AMOSWAPW => Some (4, fun _ v => v)
  | AMOADDW => Some (4, Z.add)
  | AMOANDW => Some (4, Z.land)
  | AMOORW => Some (4, Z.lor)
  | AMOXORW => Some (4, Z.lxor)
  | AMOMINW => Some (4, fun o v => Z.min o (as_i32 v))
  | AMOMAXW => Some (4, fun o v => Z.max o (as_i32 v))
  | AMOMINUW => Some (4, fun o v => Z.min (as_u32 o) (as_u32 v))
  | AMOMAXUW => Some (4, fun o v => Z.max (as_u32 o) (as_u32 v))
  | _ => None
  end.

(** The original value, as [rd] receives it. *)
Definition amo_original (d a n : Z) : Z := if n =? 8 then as_i64 (bytes_at d a n) else as_i32 (bytes_at d a n).

Lemma by_value {A} (S : Z -> A) v v' r : S v' = r -> v = v' -> S v = r.
Proof. by intros <- ->. Qed.

Lemma as_u32_idem z : as_u32 (as_u32 z) = as_u32 z.
Proof. apply as_u32_small, as_u32_range. Qed.

Lemma as_u64_idem z : as_u64 (as_u64 z) = as_u64 z.
Proof. apply as_u64_small, as_u64_range. Qed.

(** The values computed by [exec] are those of the specification. *)
Ltac amo_value :=
  first
    [ reflexivity
    | solve [bitblast]
    | rewrite ?Z.geb_leb; match goal with |- context [?a <=? ?b] => destruct (Z.leb_spec a b) end;
      rewrite ?Z.min_l, ?Z.min_r, ?Z.max_l, ?Z.max_r by lia;
      rewrite ?as_u32_idem, ?as_u64_idem; reflexivity
    | rewrite ?as_u32_i32, ?as_u64_i64; unfold as_u32, as_u64, as_i32; lia ].

Section Amo.
Context `{B : Build} (c : Cpu) (Hok : cpu_ok64 c) (Hm : mmu_ok (mmu c)).

Lemma no_ram_get_x r X k : reg_ok r = true ->
  no_ram (a <-- get_x r ;; k a) (set_x X c) = no_ram (k (X r)) (set_x X c).
Proof. intros Hr. unfold no_ram, bind at 1 2. by rewrite get_x_ok. Qed.

(** A read-modify-write whose accesses succeed. *)
Lemma amo_tail L (S : Z -> ST Mmu (Result RAMWrite Trap)) (f : Z -> Z) (g : Z -> Z -> Z) rd (a v : Z) (r : RAMRead) (w : RAMWrite) m' X :
  reg_ok rd = true -> L (mmu c) = Ok (ROk (a, r), mmu c) -> S (g (f a) v) (mmu c) = Ok (ROk w, m') ->
  no_ram (q <-- expect L ;; let original_value := f (fst q) in expect (S (g original_value v)) ;;; put_x rd original_value)
    (set_x X c) = Ok (RANoOp, set_x (zupd X rd (f a)) (set_mmu m' c)).
Proof.
  intros Hd HL HS. unfold no_ram. erewrite bind_ok; [reflexivity|].
  erewrite bind_ok by (by apply expect_mmu). cbn beta iota zeta delta [fst]. rewrite set_mmu_same.
  erewrite bind_ok by (by apply expect_mmu). by apply put_x_ok.
Qed.

Lemma amo_d_ok g i a r w m' X :
  regs_ok (InstrR AMOADDD i) = true -> load_doubleword (as_u64 (X (r_rs1 (operands i)))) (mmu c) = Ok (ROk (a, r), mmu c) ->
  store_doubleword (as_u64 (X (r_rs1 (operands i)))) (g (as_i64 a) (X (r_rs2 (operands i)))) (mmu c) = Ok (ROk w, m') ->
  no_ram (amo_d g i) (set_x X c) = Ok (RANoOp, set_x (zupd X (r_rd (operands i)) (as_i64 a)) (set_mmu m' c)).
Proof.
  intros [[Hrd H1]%andb_prop H2]%andb_prop HL HS. unfold amo_d. rewrite !no_ram_get_x by done.
  by rewrite (amo_tail _ _ _ _ _ _ _ _ _ _ _ Hrd HL HS).
Qed.

Lemma amo_w_ok g i a r w m' X :
  regs_ok (InstrR AMOADDW i) = true -> load_word (as_u64 (X (r_rs1 (operands i)))) (mmu c) = Ok (ROk (a, r), mmu c) ->
  store_word (as_u64 (X (r_rs1 (operands i)))) (g (as_i32 a) (X (r_rs2 (operands i)))) (mmu c) = Ok (ROk w, m') ->
  no_ram (amo_w g i) (set_x X c) = Ok (RANoOp, set_x (zupd X (r_rd (operands i)) (as_i32 a)) (set_mmu m' c)).
Proof.
  intros [[Hrd H1]%andb_prop H2]%andb_prop HL HS. unfold amo_w. rewrite !no_ram_get_x by done.
  by rewrite (amo_tail _ _ _ _ _ _ _ _ _ _ _ Hrd HL HS).
Qed.

Lemma exec_amo op n f i d m' (a := x c (r_rs1 (operands i))) :
  spec_amo op = Some (n, f) -> regs_ok (InstrR op i) = true ->
  access_ok (mmu c) a n -> store_allowed (mmu c) a -> dword (mmu c) a = Ok d -> is_u64 d ->
  stored (mmu c) a n (as_unsigned (8 * n) (f (amo_original d a n) (x c (r_rs2 (operands i))))) = Ok m' ->
  execute (InstrR op i) c = Ok (RANoOp, set_x (zupd (x c) (r_rd (operands i)) (amo_original d a n)) (set_mmu m' c)).
Proof.
  intros Hs [[Hrd H1]%andb_prop H2]%andb_prop Ha Hst Hd Hu Hm'.
  pose proof (acc_range c Hm a n Ha) as Hrange. pose proof (acc_in_dram c a n Ha) as Hin.
  destruct (load_access c Hm n a d Ha Hd Hu) as [r Hr].
  assert (Hn : n = 4 \/ n = 8) by (destruct op; try discriminate Hs; injection Hs as <- <-; auto).
  assert (Hv : forall z, 0 <= as_unsigned (8 * n) z < 2 ^ (8 * n))
    by (intros z; apply Z.mod_pos_bound, Z.pow_pos_nonneg; lia).
  destruct (store_width_ok _ Hm n a d _ m' ltac:(lia) (acc_aligned _ _ _ Ha) Hin (acc_record _ _ _ Ha) Hst Hd Hu (Hv _) Hm') as [w Hw].
  assert (Ea : as_u64 a = a) by (apply as_u64_small; unfold is_u64, DRAM_BASE, RAM_START_ADDRESS in *; lia).
  rewrite <- (set_x_id c) at 1.
  destruct op; try discriminate Hs; injection Hs as <- <-; cbn [execute exec_R].
  all: lazymatch type of Hr with
       | load_doubleword _ _ = _ => eapply amo_d_ok
       | load_word _ _ = _ => eapply amo_w_ok
       end; [by rewrite <- ?andb_assoc; cbn [regs_ok]; rewrite Hrd, H1, H2 | change (x c (r_rs1 (operands i))) with a; rewrite Ea; exact Hr | ].
  all: change (x c (r_rs1 (operands i))) with a; rewrite Ea.
  all: first [ eapply (by_value (fun v => store_word a v (mmu c))); [exact Hw|]
             | eapply (by_value (fun v => store_doubleword a v (mmu c))); [exact Hw|] ].
  all: unfold amo_original; cbn [Z.eqb Pos.eqb]; change (as_unsigned (8 * 4)) with as_u32; change (as_unsigned (8 * 8)) with as_u64;
    generalize (x c (r_rs2 (operands i))); intros v; amo_value.
Qed.
End Amo.

(** ** Traced operations *)

(** The branchless selection of the sequences. *)
Lemma select_value (b : bool) o v :
  as_u64 (as_i64 (Z.lxor (bool_i64 b) 1 * o) + as_i64 (bool_i64 b * v)) = as_u64 (if b then v else o).
Proof.
  destruct b; cbn [bool_i64]; change (Z.lxor 1 1) with 0; change (Z.lxor 0 1) with 1; unfold as_u64, as_i64; lia.
Qed.

Lemma select_value_w (b : bool) o v :
  as_u32 (as_i64 (as_i64 (Z.lxor (bool_i64 b) 1 * o) + as_i64 (bool_i64 b * v))) = if b then as_u32 v else as_u32 o.
Proof.
  destruct b; cbn [bool_i64]; change (Z.lxor 1 1) with 0; change (Z.lxor 0 1) with 1; unfold as_u32, as_i64; lia.
Qed.

Lemma as_u64_u32 z : as_u64 (as_u32 z) = as_u32 z.
Proof. apply as_u64_small. pose proof (as_u32_range z). unfold is_u32, is_u64 in *. lia. Qed.

Ltac select_word :=
  rewrite select_value_w, ?as_u64_u32, ?as_u32_i64, ?as_i32_i64, ?as_u32_i32;
  match goal with |- context [?a <? ?b] => destruct (Z.ltb_spec a b) end;
  rewrite ?Z.min_l, ?Z.min_r, ?Z.max_l, ?Z.max_r by lia; rewrite ?as_u32_i32, ?as_u32_idem; reflexivity.

(** Reduce a selection to the minimum or maximum. *)
Ltac select_done :=
  rewrite select_value, ?as_u64_i64; match goal with |- context [?a <? ?b] => destruct (Z.ltb_spec a b) end;
  rewrite ?Z.min_l, ?Z.min_r, ?Z.max_l, ?Z.max_r by lia; rewrite ?as_u64_idem, ?as_u64_i64; reflexivity.

Section Amo_trace.
Context (oc dbg : bool) `{R : InlineRegistry}.
Local Instance B64 : Build := Build_Build true oc dbg.
Context (c : Cpu) (Hok : cpu_ok64 c) (Hm : mmu_ok (mmu c)).

Ltac amo_done :=
  cbn [run]; apply reaches_done; [|reflexivity];
  let r := fresh "r" in intros r ?; cbn [set_x set_mmu x]; unfold zupd;
  repeat match goal with
         | |- context [r =? ?k] => lazymatch k with Zpos _ => rewrite (proj2 (Z.eqb_neq r k)) by lia end
         end; match goal with |- context [if ?b then _ else _] => destruct b; [|reflexivity] end.

(** The word merged into its doubleword: what remains is the equation between
    the words [w] loaded and [v] the operand. *)
Ltac word_value c :=
  match goal with
  | Hu : is_u64 ?d, Hal : x c ?rs1 mod 4 = 0, Hx0 : x c 0 = 0 |- context [x c ?rs2] =>
      subst; clear -Hu Hal Hx0; rewrite ?Hx0; cbn [alu64_VR]; rewrite !shl3_mod, ?ctz_bitmask by (clear; lia);
      change (as_i64 (Z.shiftr (as_u64 (Z.lor 0 (-1))) _)) with (Z.ones (8 * 4));
      rewrite merge_field by (done || lia); f_equal; rewrite ?(as_u64_i64 d), ?(as_u64_small d Hu);
      change (as_unsigned (8 * 4)) with as_u32; generalize (Z.shiftr d (8 * (x c rs1 mod 8))); clear; intros w
  end.

(** A store of the sequence followed by the write of [rd]. *)
Ltac amo_store c Hm Haw Hst Hok' value finish :=
  eapply (run_SD c Hm);
    [reflexivity | regs_done | reg_simpl; exact Haw | reg_simpl; exact Hst | reg_simpl; value | step_one Hok'; amo_done; finish ].

(** The original word. *)
Lemma amo_original_w d a : amo_original d a 4 = as_i32 (Z.shiftr d (8 * (a mod 8))).
Proof. unfold amo_original, bytes_at. cbn [Z.eqb Pos.eqb]. change (as_unsigned (8 * 4)) with as_u32. apply as_i32_u32. Qed.

(** What an accepted word operation provides. *)
Lemma amo_word_facts a d v m' : access_ok (mmu c) a 4 -> dword (mmu c) a = Ok d -> is_u64 d ->
  stored (mmu c) a 4 v = Ok m' ->
  access_ok (mmu c) (dword_address a) 8 /\ dword (mmu c) (dword_address a) = Ok d /\ a mod 4 = 0 /\
  2147483648 <= a < 9223372036854775808 /\
  forall w, w = set_field d (8 * (a mod 8)) (8 * 4) v -> stored (mmu c) (dword_address a) 8 w = Ok m'.
Proof.
  intros Ha Hd Hu Hm'. split_and!.
  - by eapply acc_dword.
  - by rewrite dword_of_address.
  - apply (acc_aligned _ _ _ Ha).
  - apply (acc_range c Hm _ _ Ha).
  - pose proof (acc_range c Hm _ _ Ha) as Hrange. apply Hrange.
  - intros w Hw. rewrite <- Hm'. eapply stored_dword; try done; [by eapply acc_byte | apply Ha..].
Qed.

Lemma trace_amo_d op n f i d m' (a := x c (r_rs1 (operands i))) :
  spec_amo op = Some (n, f) -> n = 8 -> user_regs (InstrR op i) = true ->
  access_ok (mmu c) a n -> store_allowed (mmu c) a -> dword (mmu c) a = Ok d -> is_u64 d ->
  stored (mmu c) a n (as_unsigned (8 * n) (f (amo_original d a n) (x c (r_rs2 (operands i))))) = Ok m' -> mmu_xlen m' = Bit64 ->
  trace_to (InstrR op i) c (set_x (zupd (x c) (r_rd (operands i)) (amo_original d a n)) (set_mmu m' c)).
Proof.
  intros Hs Hn Hr Ha Hst Hd Hu Hm' Hxl. subst a. open_R Hr. open_pool c Hok.
  pose proof (cpu_ok64_set_mmu c m' Hok Hxl) as Hok'.
  assert (Eorig : amo_original d (x c rs1) n = as_i64 d).
  { subst n. unfold amo_original, bytes_at. cbn [Z.eqb Pos.eqb]. rewrite (acc_aligned _ _ _ Ha), Z.mul_0_r, Z.shiftr_0_r.
    change (as_unsigned (8 * 8)) with as_u64. apply as_i64_u64. }
  rewrite Eorig in *.
  destruct op; try discriminate Hs; injection Hs as <- <-; try discriminate Hn.
  all: eapply (sequence_to _ _ c Hok);
    [reflexivity | done | done | exact Hr
    | lazymatch goal with Ev : vr_allocator c = _ |- _ => rewrite Ev end; eval_sequence
    | leaves_done | ].
  all: assert (i64s (x c)) by exact (ok_x c Hok).
  all: step_mem c Hm Hd Hu Ha; repeat step_one Hok.
  all: amo_store c Hm Ha Hst Hok' ltac:(eapply (by_value (fun v => stored (mmu c) _ 8 v)); [exact Hm'|]) ltac:(congruence).
  all: change (as_unsigned (8 * 8)) with as_u64; subst; rewrite ?as_u64_i64; try reflexivity; select_done.
Qed.

Lemma trace_amo_w op n f i d m' (a := x c (r_rs1 (operands i))) :
  spec_amo op = Some (n, f) -> n = 4 -> op <> AMOXORW -> user_regs (InstrR op i) = true ->
  access_ok (mmu c) a n -> store_allowed (mmu c) (dword_address a) -> dword (mmu c) a = Ok d -> is_u64 d ->
  stored (mmu c) a n (as_unsigned (8 * n) (f (amo_original d a n) (x c (r_rs2 (operands i))))) = Ok m' -> mmu_xlen m' = Bit64 ->
  trace_to (InstrR op i) c (set_x (zupd (x c) (r_rd (operands i)) (amo_original d a n)) (set_mmu m' c)).
Proof.
  intros Hs Hn Hnx Hr Ha Hst Hd Hu Hm' Hxl. subst a. open_R Hr. open_pool c Hok.
  pose proof (cpu_ok64_set_mmu c m' Hok Hxl) as Hok'.
  pose proof (ok_x0 c Hok) as Hx0.
  destruct op; try discriminate Hs; try done; injection Hs as <- <-; try discriminate Hn.
  all: destruct (amo_word_facts _ _ _ _ Ha Hd Hu Hm') as (Haw & Hdw & Hal & Hrange & Hmerge); rewrite ?amo_original_w in *.
  all: eapply (sequence_to _ _ c Hok);
    [reflexivity | done | done | exact Hr
    | lazymatch goal with Ev : vr_allocator c = _ |- _ => rewrite Ev end; eval_sequence
    | leaves_done | ].
  all: assert (i64s (x c)) by exact (ok_x c Hok).
  all: step_mem c Hm Hdw Hu Haw; step_one Hok; rewrite land_m8 in E; subst v; step_mem c Hm Hdw Hu Haw; repeat step_one Hok.
  all: amo_store c Hm Haw Hst Hok' ltac:(apply Hmerge) ltac:(subst; by apply srl_word).
  all: word_value c.
  - rewrite as_u32_i64. unfold as_u32, as_i64, as_i32. lia.
  - bitblast.
  - bitblast.
  - select_word.
  - select_word.
  - select_word.
  - select_word.
Qed.

Lemma trace_AMOXORW i d m' (a := x c (r_rs1 (operands i))) :
  user_regs (InstrR AMOXORW i) = true ->
  access_ok (mmu c) a 4 -> store_allowed (mmu c) (dword_address a) -> dword (mmu c) a = Ok d -> is_u64 d ->
  stored (mmu c) a 4 (as_unsigned (8 * 4) (Z.lxor (amo_original d a 4) (x c (r_rs2 (operands i))))) = Ok m' -> mmu_xlen m' = Bit64 ->
  trace_to (InstrR AMOXORW i) c (set_x (zupd (x c) (r_rd (operands i)) (amo_original d a 4)) (set_mmu m' c)).
Proof.
  intros Hr Ha Hst Hd Hu Hm' Hxl. subst a. open_R Hr. open_pool c Hok.
  pose proof (cpu_ok64_set_mmu c m' Hok Hxl) as Hok'.
  pose proof (ok_x0 c Hok) as Hx0. pose proof (ok_x c Hok rs1) as Ia.
  destruct (amo_word_facts _ _ _ _ Ha Hd Hu Hm') as (Haw & Hdw & Hal & Hrange & Hmerge). rewrite amo_original_w in *.
  eapply (sequence_to _ _ c Hok);
    [reflexivity | done | done | exact Hr
    | lazymatch goal with Ev : vr_allocator c = _ |- _ => rewrite Ev end; eval_sequence
    | leaves_done | ].
  assert (i64s (x c)) by exact (ok_x c Hok).
  step_mem c Hm Hdw Hu Haw. step_one Hok. rewrite Z.add_0_r, as_i64_small in E by done. subst v.
  step_one Hok; rewrite land_m8 in E; subst v. step_mem c Hm Hdw Hu Haw. 
  step_one Hok. step_one Hok. step_one Hok. step_one Hok. step_one Hok. 
  step_mem c Hm Hdw Hu Haw. step_one Hok. rewrite Z.add_0_r, as_i64_small in E5 by done. subst v5.
  step_one Hok; rewrite land_m8 in E5; subst v5. step_mem c Hm Hdw Hu Haw. repeat step_one Hok.
  amo_store c Hm Haw Hst Hok' ltac:(apply Hmerge) ltac:(subst; by apply srl_word).
  word_value c.
  by rewrite as_i32_i64.
Qed.
End Amo_trace.
