(* ===== verification/Div64.v ===== *)
(** * Division and remainder: advice, completeness and soundness

    The sequences of the division family take quotient and remainder as advice
    and check them.  Completeness: the advice computed by [trace] passes the
    checks and the result is that of the manual.  Soundness: whatever advice
    passes the checks, the result is that of the manual; it holds for [DIV],
    [DIVUW] and [REMUW] and fails for the others. *)

From Stdlib Require Import ZArith Zquot Lia List Bool.
From stdpp Require Import base list.
From S2P Require Import Prelude Words Types Memory Device Mmu Isa Decode Allocator Cpu Exec Assembler Sequences Trace Step Refine Alu64.
Import ListNotations.
Local Open Scope Z_scope.
Local Open Scope rust_scope.

(** The sequence of [i], with the given advice in its first two instructions. *)
Definition advised `{Build} `{InlineRegistry} (i : Instruction) (q r : Z) (c : Cpu) : Res (list Instruction) :=
  let? s := (match expand i c with Ok (s, _) => Ok s | Panic => Panic | OutOfFuel => OutOfFuel end) in
  let? s := set_advice 0 q s in
  set_advice 1 r s.

(** Running it: what a verifier of the constraints accepts for this advice. *)
Definition advised_run `{Build} `{InlineRegistry} (i : Instruction) (q r : Z) (c : Cpu) : Res Cpu :=
  let? s := advised i q r c in run s c.

(** An accepted run has the effect of writing [v] to [rd]. *)
Definition accepts_only (c : Cpu) (rd v : Z) (r : Res Cpu) : Prop :=
  forall c2, r = Ok c2 -> same_arch (set_x (zupd (x c) rd v) c) c2.

Lemma accepts_panic c rd v : accepts_only c rd v Panic.
Proof. by intros c2. Qed.

Lemma accepts_done c rd v X :
  (forall r, 0 < r < 32 -> X r = zupd (x c) rd v r) -> accepts_only c rd v (Ok (set_x X c)).
Proof.
  intros HX c2 Hc. assert (c2 = set_x X c) as -> by congruence. split; [done|]. intros r Hr. by apply HX.
Qed.

Section Div64.
Context `{B : Build} `{R : InlineRegistry} (c : Cpu) (Hok : cpu_ok64 c) (Hrv : feature_rv64 = true).

Lemma advised_eq i s0 s q r :
  inline_sequence i Bit64 (vr_allocator c) = Ok (s0, vr_allocator c) ->
  res_bind (set_advice 0 q s0) (set_advice 1 r) = Ok s -> advised i q r c = Ok s.
Proof. intros Hs Ha. unfold advised. rewrite (expand_eq c Hok i s0 Hs). exact Ha. Qed.

Lemma advised_accepts i s0 s q r rd v :
  inline_sequence i Bit64 (vr_allocator c) = Ok (s0, vr_allocator c) ->
  res_bind (set_advice 0 q s0) (set_advice 1 r) = Ok s ->
  accepts_only c rd v (run s (set_x (x c) c)) ->
  accepts_only c rd v (advised_run i q r c).
Proof. intros Hs Ha Hrun. unfold advised_run. rewrite (advised_eq i s0 s q r Hs Ha). by rewrite set_x_id in Hrun. Qed.

Lemma advice_writes op i adv q r s0 s v :
  advice_of op = Some adv -> user_regs (InstrR op i) = true -> r_rd (operands i) <> 0 ->
  adv c (x c (r_rs1 (operands i))) (x c (r_rs2 (operands i))) = Ok (q, r) ->
  inline_sequence (InstrR op i) Bit64 (vr_allocator c) = Ok (s0, vr_allocator c) ->
  res_bind (set_advice 0 (as_u64 q) s0) (set_advice 1 (as_u64 r)) = Ok s ->
  forallb leaf_ok s = true ->
  ends_with c (r_rd (operands i)) v (run s (set_x (x c) c)) ->
  trace_writes (InstrR op i) c (r_rd (operands i)) v.
Proof.
  intros Ha Hr Hd Hadv Hs Hset Hl Hend. eapply traced_writes; [|exact Hend].
  eapply trace_advice; try done.
  - by apply user_regs_ok.
  - by apply (expand_eq c Hok).
  - unfold as_XlenInt. rewrite Hrv. exact Hset.
Qed.

End Div64.

Ltac pool_sequence c :=
  lazymatch goal with Ev : vr_allocator c = _ |- _ => rewrite Ev end; eval_sequence.

Ltac set_advice_done := cbn [set_advice lookup list_lookup insert list_insert res_bind]; reflexivity.

(** Steps over checks: assume they pass, or show that they do. *)
Ltac check_any Hok :=
  lazymatch goal with
  | |- _ (run (InstrB ?op _ :: _) _) =>
      eapply (run_check_any _ Hok op); [reflexivity | regs_done | assumption | apply accepts_panic | ];
      let C := fresh "C" in intros C; reg_simpl_in C
  end.

Ltac check_true Hok :=
  lazymatch goal with
  | |- _ (run (InstrB ?op _ :: _) _) =>
      eapply (run_check_true _ Hok op); [reflexivity | regs_done | assumption | reg_simpl | ]
  end.


Ltac source_values c Hok :=
  lazymatch goal with
  | i : Instr FormatR |- _ =>
      pose proof (ok_x c Hok (r_rs1 (operands i))) as Ia; pose proof (ok_x c Hok (r_rs2 (operands i))) as Ib
  end.

(** Run the sequence, assuming that every check passes. *)
Ltac run_accepted c Hok Hr :=
  source_values c Hok; open_R Hr; open_pool c Hok;
  eapply (advised_accepts c Hok); [pool_sequence c | set_advice_done |];
  assert (i64s (x c)) by exact (ok_x c Hok);
  repeat first [step_one Hok | check_any Hok];
  apply accepts_done;
  let r := fresh "r" in intros r ?; unfold zupd; zbool;
  lazymatch goal with |- context [r =? ?k] => destruct (r =? k); [|done] end;
  repeat match goal with HX : i64s _ |- _ => clear HX end.

(** Run the sequence with the advice of [trace]: one goal per check and one for
    the value written. *)
Ltac run_honest c Hok Hrv Hr :=
  source_values c Hok; open_R Hr; open_pool c Hok;
  eapply (advice_writes c Hok Hrv);
    [reflexivity | exact Hr | done | eassumption | pool_sequence c | set_advice_done | leaves_done | ];
  cbn [operands r_rd];
  assert (i64s (x c)) by exact (ok_x c Hok);
  repeat first [step_one Hok | check_true Hok];
  try writes_done; repeat match goal with HX : i64s _ |- _ => clear HX end.

(** ** Arithmetic of the checks *)

Lemma sra_63 a : is_i64 a -> Z.shiftr a (trailing_zeros 64 9223372036854775808 mod 64) = if a <? 0 then -1 else 0.
Proof.
  intros Ha. change (trailing_zeros 64 9223372036854775808 mod 64) with 63.
  rewrite Z.shiftr_div_pow2 by lia. change (2 ^ 63) with 9223372036854775808. unfold is_i64 in Ha.
  destruct (Z.ltb_spec a 0); lia.
Qed.

(** [(r ^ s) - s] with the sign mask [s] of [a]: [r] with the sign of [a]. *)
Lemma signed_by a r : is_i64 r ->
  as_i64 (Z.lxor r (if a <? 0 then -1 else 0) - (if a <? 0 then -1 else 0)) = as_i64 (if a <? 0 then - r else r).
Proof.
  intros Hr. destruct (a <? 0).
  - rewrite lxor_m1. f_equal. ring.
  - by rewrite Z.lxor_0_r, Z.sub_0_r.
Qed.

Lemma magnitude d : is_i64 d -> as_u64 (as_i64 (if d <? 0 then - d else d)) = Z.abs d.
Proof. intros Hd. unfold is_i64, as_u64, as_i64 in *. destruct (Z.ltb_spec d 0); lia. Qed.

(** The high product is the sign of the low one exactly when nothing overflows. *)
Lemma no_overflow p : p / 2 ^ 64 = (if as_i64 p <? 0 then -1 else 0) <-> is_i64 p.
Proof.
  change (2 ^ 64) with 18446744073709551616. unfold is_i64.
  pose proof (Z.div_mod p 18446744073709551616 ltac:(done)).
  pose proof (Z.mod_pos_bound p 18446744073709551616 ltac:(done)).
  destruct (Z.ltb_spec (as_i64 p) 0); unfold as_i64 in *; lia.
Qed.

(** The divisor used by the checks: 1 in the overflowing case. *)
Definition adjusted_divisor (a b : Z) : Z := if (a =? i64_MIN) && (b =? -1) then 1 else b.

Lemma adjusted_i64 a b : is_i64 b -> is_i64 (adjusted_divisor a b).
Proof. unfold adjusted_divisor. destruct (_ && _); [done|done]. Qed.

Lemma adjusted_quot a b : b <> 0 -> as_i64 (Z.quot a (adjusted_divisor a b)) = as_i64 (Z.quot a b).
Proof.
  intros Hb. unfold adjusted_divisor. destruct (_ && _) eqn:E; [|done].
  apply andb_prop in E as [->%Z.eqb_eq ->%Z.eqb_eq]. reflexivity.
Qed.

(** An exact division with a remainder of the sign of the dividend and smaller
    than the divisor is the truncated one. *)
Lemma signed_division a d q r : is_i64 a -> is_i64 d -> d <> 0 -> is_i64 (q * d) -> 0 <= r < Z.abs d ->
  as_i64 (q * d + as_i64 (if a <? 0 then - r else r)) = a ->
  q = Z.quot a d /\ (if a <? 0 then - r else r) = Z.rem a d.
Proof.
  intros Ha Hd Hd0 Hp Hr Hsum.
  assert (Er : as_i64 (if a <? 0 then - r else r) = if a <? 0 then - r else r)
    by (apply as_i64_small; unfold is_i64 in *; destruct (a <? 0); lia).
  rewrite Er in Hsum.
  assert (Eq : a = d * q + (if a <? 0 then - r else r)).
  { rewrite <- Hsum at 1. rewrite as_i64_small; [ring|].
    unfold is_i64, as_i64 in *. destruct (Z.ltb_spec a 0); lia. }
  apply Zquot_mod_unique_full; [|exact Eq].
  unfold Remainder. destruct (Z.ltb_spec a 0); [right | left]; lia.
Qed.

(** What the checks of [DIV] say, over the dividend [a], the divisor [b], the
    advised quotient [q] and the advised magnitude [r] of the remainder. *)
Definition DIV_checks (a b q r : Z) : Prop :=
  let d := adjusted_divisor a b in
  (b = 0 -> q = -1) /\ is_i64 (q * d) /\
  as_i64 (q * d + as_i64 (if a <? 0 then - r else r)) = a /\
  (d = 0 \/ as_u64 r < Z.abs d).

Lemma DIV_checks_sound a b q r : is_i64 a -> is_i64 b -> is_i64 q -> is_i64 r ->
  DIV_checks a b q r -> q = if b =? 0 then -1 else as_i64 (Z.quot a b).
Proof.
  intros Ha Hb Hq Hr (C0 & Hp & Hsum & Hlt). destruct (Z.eqb_spec b 0) as [Hb0|Hb0]; [auto|].
  pose proof (adjusted_i64 a b Hb) as Hd.
  assert (Hd0 : adjusted_divisor a b <> 0) by (unfold adjusted_divisor; by destruct (_ && _)).
  destruct Hlt as [|Hlt]; [done|].
  assert (Hr' : 0 <= r < Z.abs (adjusted_divisor a b)) by (unfold is_i64, as_u64 in *; lia).
  destruct (signed_division a _ q r Ha Hd Hd0 Hp Hr' Hsum) as [Hquot _].
  rewrite <- (adjusted_quot a b Hb0), <- Hquot. symmetry. by apply as_i64_small.
Qed.

(** The advice computed by [DIV::trace] and [REM::trace] passes the checks, and
    the signed remainder is that of the manual. *)
Lemma DIV_advice_ok `{Build} c a b : xlen c = Bit64 -> is_i64 a -> is_i64 b ->
  exists q r, DIV_advice c a b = Ok (q, r) /\
    DIV_checks a b (as_i64 (as_u64 q)) (as_i64 (as_u64 r)) /\
    as_i64 (if a <? 0 then - as_i64 (as_u64 r) else as_i64 (as_u64 r)) = if b =? 0 then a else Z.rem a b.
Proof.
  intros Hxl Ha Hb. unfold DIV_advice, most_negative. rewrite Hxl. unfold DIV_checks.
  destruct (Z.eqb_spec b 0) as [->|Hb0].
  { exists u64_MAX, (Z.abs a). split; [done|]. change (as_i64 (as_u64 u64_MAX)) with (-1).
    unfold adjusted_divisor. rewrite andb_false_r, !as_i64_u64, Z.mul_0_r.
    assert (Hs : as_i64 (if a <? 0 then - as_i64 (Z.abs a) else as_i64 (Z.abs a)) = a)
      by (unfold is_i64, as_i64 in *; destruct (Z.ltb_spec a 0); lia).
    rewrite Hs. split; [|done]. split; [done|]. split; [done|]. split; [by apply as_i64_small | by left]. }
  unfold adjusted_divisor. destruct (_ && _) eqn:Eo.
  { apply andb_prop in Eo as [->%Z.eqb_eq ->%Z.eqb_eq]. exists (as_u64 i64_MIN), 0.
    split; [done|]. vm_compute. intuition discriminate. }
  unfold div_signed, rem_signed. rewrite (proj2 (Z.eqb_neq b 0) Hb0), Eo. cbn [orb res_bind].
  eexists _, _. split; [reflexivity|].
  destruct (quot_i64 a b Ha Hb Hb0) as [[-> ->]|Hq]; [discriminate Eo|].
  pose proof (rem_i64 a b Ha Hb0) as Hr. pose proof (Z.rem_bound_abs a b Hb0). pose proof (Z.quot_rem' a b) as Hqr.
  pose proof (Z.rem_nonneg a b Hb0) as Hpos. pose proof (Z.rem_nonpos a b Hb0) as Hneg.
  rewrite !as_i64_u64, (as_i64_small (a ÷ b)) by done.
  assert (Habs : as_i64 (Z.abs (Z.rem a b)) = Z.abs (Z.rem a b)) by (apply as_i64_small; unfold is_i64 in *; lia).
  rewrite Habs.
  assert (Hs : as_i64 (if a <? 0 then - Z.abs (Z.rem a b) else Z.abs (Z.rem a b)) = Z.rem a b).
  { rewrite as_i64_small; destruct (Z.ltb_spec a 0); unfold is_i64 in *; lia. }
  rewrite Hs. split; [|done]. split; [done|].
  replace (a ÷ b * b + Z.rem a b) with a by lia. rewrite (as_i64_small a Ha).
  split; [|split; [done|]].
  - unfold is_i64 in *. destruct (Z.ltb_spec a 0); lia.
  - right. unfold as_u64, is_i64 in *. lia.
Qed.

(** ** Soundness: every accepted advice gives the result of the manual *)

Section Sound.
Context `{B : Build} `{R : InlineRegistry} (c : Cpu) (Hok : cpu_ok64 c).

Lemma DIV_accepts i q r : user_regs (InstrR DIV i) = true ->
  accepts_only c (r_rd (operands i))
    (if x c (r_rs2 (operands i)) =? 0 then -1 else as_i64 (Z.quot (x c (r_rs1 (operands i))) (x c (r_rs2 (operands i)))))
    (advised_run (InstrR DIV i) q r c).
Proof.
  intros Hr. run_accepted c Hok Hr. rewrite E18. apply (DIV_checks_sound _ _ v v0); try done.
  fold (adjusted_divisor (x c rs1) (x c rs2)) in E1. unfold DIV_checks. rewrite <- E1.
  assert (Eh : v8 = v * v1 / 2 ^ 64) by (subst v8 v7 v6 v5 v4 v3 v2; by apply mulh_identity).
  rewrite sra_63 in E10, E11, E15 by done. subst v10 v11 v12 v13 v15 v16 v17.
  rewrite signed_by in * by done. apply Z.eqb_eq in C0, C1.
  rewrite Eh, E9, no_overflow in C0. rewrite E14, E9 in C1. rewrite (as_i64_small _ C0) in C1.
  rewrite magnitude in C2 by done.
  split; [|split; [done|split; [done|]]].
  - intros Hb. rewrite Hb in C. by apply Z.eqb_eq in C.
  - apply orb_prop in C2 as [C2%Z.eqb_eq|C2%Z.ltb_lt]; [left | by right].
    destruct (Z.ltb_spec v1 0); unfold is_i64, as_i64 in *; lia.
Qed.
End Sound.
