(* ===== verification/DivComplete.v ===== *)
(** * Completeness of the division sequences

    The advice computed by the [trace] methods of the division family passes
    the checks of the sequences, and the traced result is that of the manual. *)

From Stdlib Require Import ZArith Lia List Bool.
From stdpp Require Import base list.
From S2P Require Import Prelude Words Types Memory Device Mmu Isa Decode Allocator Cpu Exec Assembler Sequences Trace Step Refine Alu64 Div64.
Import ListNotations.
Local Open Scope Z_scope.
Local Open Scope rust_scope.

(** The checks as the machine evaluates them. *)
Lemma check_div0 a b q r : DIV_checks a b q r -> negb (b =? 0) || (q =? -1) = true.
Proof. intros (C0 & _). destruct (Z.eqb_spec b 0); [|done]. rewrite C0 by done. done. Qed.

Lemma check_overflow a b q r : is_i64 q -> is_i64 b -> DIV_checks a b q r ->
  let d := adjusted_divisor a b in
  (as_i64 (as_i64 (as_i64 (Z.shiftr (as_u64 q * as_u64 d) 64) + as_i64 ((if q <? 0 then -1 else 0) * d))
          + as_i64 ((if d <? 0 then -1 else 0) * q))
   =? Z.shiftr (as_i64 (q * d)) (trailing_zeros 64 9223372036854775808 mod 64)) = true.
Proof.
  intros Hq Hb (_ & Hp & _). cbv zeta. rewrite mulh_identity by (done || by apply adjusted_i64).
  rewrite sra_63 by apply as_i64_range. by apply Z.eqb_eq, no_overflow.
Qed.

Lemma check_sum a b q r : is_i64 a -> is_i64 r -> DIV_checks a b q r ->
  (as_i64 (as_i64 (q * adjusted_divisor a b)
          + as_i64 (Z.lxor r (Z.shiftr a (trailing_zeros 64 9223372036854775808 mod 64))
                    - Z.shiftr a (trailing_zeros 64 9223372036854775808 mod 64))) =? a) = true.
Proof.
  intros Ha Hr (_ & Hp & Hs & _). rewrite sra_63, signed_by, (as_i64_small _ Hp) by done. by apply Z.eqb_eq.
Qed.

Lemma check_remainder a b q r : is_i64 b -> DIV_checks a b q r ->
  let d := adjusted_divisor a b in
  let m := as_i64 (Z.lxor d (Z.shiftr d (trailing_zeros 64 9223372036854775808 mod 64))
                   - Z.shiftr d (trailing_zeros 64 9223372036854775808 mod 64)) in
  (m =? 0) || (as_u64 r <? as_u64 m) = true.
Proof.
  intros Hb (_ & _ & _ & Hl). cbv zeta. pose proof (adjusted_i64 a b Hb) as Hd. revert Hl Hd.
  generalize (adjusted_divisor a b). intros d Hl Hd.
  rewrite sra_63, signed_by by done. apply orb_true_iff. destruct Hl as [->|Hl]; [by left|].
  right. apply Z.ltb_lt. by rewrite magnitude.
Qed.

(** ** Unsigned division *)

Lemma mul_add_u64 q b r :
  as_i64 (as_i64 (as_i64 (as_u64 q) * b) + as_i64 (as_u64 r)) = as_i64 (q * as_u64 b + r).
Proof.
  rewrite !as_i64_u64. destruct (as_i64_decomp q) as [k1 ->], (as_i64_decomp r) as [k2 ->], (as_u64_decomp b) as [k3 ->].
  destruct (as_i64_decomp ((q + k1 * 18446744073709551616) * b)) as [k4 ->].
  apply (as_i64_cong _ _ (k1 * b + k2 + k4 - q * k3)). ring.
Qed.

(** Quotient and remainder of the unsigned readings. *)
Definition unsigned_advice (a b : Z) : Z * Z :=
  if b =? 0 then (u64_MAX, as_u64 a) else (as_u64 a / as_u64 b, as_u64 a mod as_u64 b).

Lemma unsigned_sub `{Build} a b : is_u64 a -> is_u64 b -> b <> 0 ->
  (let? p := mul_u64 (a / b) b in sub_u64 a p) = Ok (a mod b).
Proof.
  intros Ha Hb Hb0. unfold is_u64 in *.
  pose proof (Z.div_mod a b Hb0). pose proof (Z.mod_pos_bound a b ltac:(lia)). pose proof (Z.div_pos a b ltac:(lia) ltac:(lia)).
  assert (Hp : 0 <= a / b * b <= a) by lia.
  unfold mul_u64, sub_u64, arith_u64. rewrite !as_u64_small by (unfold is_u64; lia).
  replace (a - a / b * b) with (a mod b) by lia.
  repeat (rewrite (proj2 (Z.leb_le _ _)) by lia; rewrite (proj2 (Z.ltb_lt _ _)) by lia; cbn [andb negb];
          rewrite andb_false_r; cbn [res_bind]; rewrite ?as_u64_small by (unfold is_u64; lia);
          replace (a - a / b * b) with (a mod b) by lia).
  done.
Qed.

Lemma DIVU_advice_eq `{Build} c a b : xlen c = Bit64 -> is_i64 b -> DIVU_advice c a b = Ok (unsigned_advice a b).
Proof.
  intros Hxl Hb. unfold DIVU_advice, unsigned_advice, div_unsigned. rewrite Hxl, as_u64_eq0 by done.
  destruct (Z.eqb_spec b 0); [done|]. cbn [res_bind]. rewrite unsigned_sub; [done|apply as_u64_range..|].
  unfold as_u64, is_i64 in *. lia.
Qed.

Lemma REMU_advice_eq `{Build} c a b : cpu_ok64 c -> is_i64 b -> REMU_advice c a b = Ok (unsigned_advice a b).
Proof.
  intros Hok Hb. unfold REMU_advice, unsigned_advice, div_unsigned.
  rewrite (ok_xlen c Hok), !unsigned_data_64, as_u64_eq0 by (done || apply ok_mask, Hok).
  destruct (Z.eqb_spec b 0); [done|]. cbn [res_bind]. rewrite unsigned_sub; [done|apply as_u64_range..|].
  unfold as_u64, is_i64 in *. lia.
Qed.

(** The honest unsigned advice: quotient, remainder and their sum. *)
Lemma unsigned_advice_ok a b q r : is_i64 a -> is_i64 b -> unsigned_advice a b = (q, r) ->
  is_u64 q /\ is_u64 r /\ (b = 0 -> q = u64_MAX /\ r = as_u64 a) /\
  (b <> 0 -> q = as_u64 a / as_u64 b /\ r = as_u64 a mod as_u64 b /\ 0 <= r < as_u64 b) /\
  q * as_u64 b < 18446744073709551616 /\ as_i64 (q * as_u64 b + r) = a.
Proof.
  intros Ha Hb. unfold unsigned_advice. destruct (Z.eqb_spec b 0) as [->|Hb0]; intros [= <- <-].
  - change (as_u64 0) with 0. rewrite Z.mul_0_r, Z.add_0_l, as_i64_u64. pose proof (as_u64_range a).
    rewrite (as_i64_small a) by done. unfold is_u64, u64_MAX in *. lia.
  - assert (Hub : 0 < as_u64 b) by (unfold as_u64, is_i64 in *; lia).
    pose proof (as_u64_range a) as Hua. pose proof (as_u64_range b) as Hub'. unfold is_u64 in *.
    pose proof (Z.div_mod (as_u64 a) (as_u64 b) ltac:(lia)). pose proof (Z.mod_pos_bound (as_u64 a) (as_u64 b) Hub).
    pose proof (Z.div_pos (as_u64 a) (as_u64 b) ltac:(lia) Hub).
    replace (as_u64 a / as_u64 b * as_u64 b + as_u64 a mod as_u64 b) with (as_u64 a) by lia.
    rewrite as_i64_u64, (as_i64_small a) by done. split_and!; try done; nia.
Qed.

(** ** Word division *)

Lemma sra_31 a : is_i32 a -> Z.shiftr a (trailing_zeros 64 18446744071562067968 mod 64) = if a <? 0 then -1 else 0.
Proof.
  intros Ha. change (trailing_zeros 64 18446744071562067968 mod 64) with 31.
  rewrite Z.shiftr_div_pow2 by lia. change (2 ^ 31) with 2147483648. unfold is_i32 in Ha.
  destruct (Z.ltb_spec a 0); lia.
Qed.

Definition adjusted_divisor_w (a b : Z) : Z := if (a =? i32_MIN) && (b =? -1) then 1 else b.

(** The advice of [DIVW::trace] and [REMW::trace], for the sign-extended operands
    [a] and [b]: everything is small enough that no operation wraps. *)
Lemma DIVW_advice_ok `{Build} c rs1 rs2 : xlen c = Bit64 ->
  let a := as_i32 rs1 in let b := as_i32 rs2 in let d := adjusted_divisor_w a b in
  exists q r, DIVW_advice c rs1 rs2 = Ok (q, r) /\ is_i32 q /\ 0 <= r <= 2147483648 /\ is_i32 d /\
    (b = 0 -> q = -1) /\ is_i32 (q * d) /\ q * d + (if a <? 0 then - r else r) = a /\
    (d = 0 \/ r < Z.abs d) /\
    q = (if b =? 0 then -1 else as_i32 (Z.quot a b)) /\
    (if a <? 0 then - r else r) = (if b =? 0 then a else Z.rem a b).
Proof.
  intros Hxl. cbv zeta. pose proof (as_i32_range rs1) as Ha. pose proof (as_i32_range rs2) as Hb.
  unfold DIVW_advice. rewrite Hxl. revert Ha Hb. generalize (as_i32 rs1) (as_i32 rs2). intros a b Ha Hb.
  unfold adjusted_divisor_w. destruct (Z.eqb_spec b 0) as [->|Hb0].
  { exists (-1), (Z.abs a). rewrite andb_false_r, Z.mul_0_r. unfold is_i32 in *.
    destruct (Z.ltb_spec a 0); split_and!; try done; lia. }
  rewrite (andb_comm (b =? -1)). destruct (_ && _) eqn:Eo.
  { apply andb_prop in Eo as [->%Z.eqb_eq ->%Z.eqb_eq]. exists i32_MIN, 0. split; [done|].
    vm_compute. intuition discriminate. }
  unfold div_signed, rem_signed. rewrite (proj2 (Z.eqb_neq b 0) Hb0), Eo. cbn [orb res_bind].
  eexists _, _. split; [reflexivity|].
  pose proof (rem_i32 a b Ha Hb0) as Hr. pose proof (Z.rem_bound_abs a b Hb0). pose proof (Z.quot_rem' a b) as Hqr.
  pose proof (Z.rem_nonneg a b Hb0) as Hpos. pose proof (Z.rem_nonpos a b Hb0) as Hneg.
  assert (Hq : is_i32 (a ÷ b)).
  { unfold is_i32 in *. destruct (quot_i64 a b) as [[-> ->]|?]; try (unfold is_i64; lia); [unfold i64_MIN in Ha; lia|].
    assert (Z.abs (a ÷ b) * Z.abs b <= Z.abs a)
      by (rewrite <- Z.quot_abs, Z.mul_comm by done; apply Z.mul_quot_le; lia).
    assert (~ (a = -2147483648 /\ b = -1)) by (intros [-> ->]; discriminate Eo). nia. }
  rewrite (as_i32_small (a ÷ b)) by done. unfold is_i32 in *.
  destruct (Z.ltb_spec a 0); split_and!; try done; lia.
Qed.

Lemma adjusted_divisor_w_eq a b :
  (if (as_i32 (as_i32 a) =? i32_MIN) && (as_i32 (as_i32 b) =? -1) then 1 else as_i32 (as_i32 b)) =
  adjusted_divisor_w (as_i32 a) (as_i32 b).
Proof.
  pose proof (as_i32_range a). pose proof (as_i32_range b).
  unfold adjusted_divisor_w. by rewrite (as_i32_small (as_i32 a)), (as_i32_small (as_i32 b)).
Qed.

(** The remainder with the sign of the dividend, and the magnitude of the
    divisor, as computed by the word sequences. *)
Lemma signed_by_w a r : is_i32 a -> 0 <= r <= 2147483648 ->
  let s := Z.shiftr a (trailing_zeros 64 18446744071562067968 mod 64) in
  as_i64 (Z.lxor r s - s) = if a <? 0 then - r else r.
Proof.
  intros Ha Hr. cbv zeta. rewrite sra_31, signed_by by (done || unfold is_i64; lia).
  apply as_i64_small. unfold is_i64. destruct (a <? 0); lia.
Qed.

Lemma magnitude_w d : is_i32 d ->
  let s := Z.shiftr d (trailing_zeros 64 18446744071562067968 mod 64) in
  as_i64 (Z.lxor d s - s) = Z.abs d.
Proof.
  intros Hd. cbv zeta. rewrite sra_31, signed_by by (done || by apply i32_is_i64).
  rewrite as_i64_small; unfold is_i64, is_i32 in *; destruct (Z.ltb_spec d 0); lia.
Qed.

Lemma check_remainder_w d r m : is_i32 d -> 0 <= r <= 2147483648 -> m = Z.abs d -> d = 0 \/ r < Z.abs d ->
  (m =? 0) || (as_u64 r <? as_u64 m) = true.
Proof.
  intros Hd Hr -> [->|Hlt]; [done|]. apply orb_true_intro. right. apply Z.ltb_lt.
  rewrite !as_u64_small by (unfold is_u64, is_i32 in *; lia). done.
Qed.

(** The unsigned word checks: the product of two words does not wrap, so that
    the sum is exact. *)
Lemma unsigned_word_division a b q r : is_u32 a -> is_u32 b -> is_u32 q -> is_i64 r ->
  as_i64 (as_i64 (q * b) + r) = a -> (b =? 0) || (as_u64 r <? as_u64 b) = true ->
  if b =? 0 then r = a else q = a / b /\ r = a mod b.
Proof.
  intros Ha Hb Hq Hr Hsum Hlt. destruct (Z.eqb_spec b 0) as [->|Hb0].
  - rewrite Z.mul_0_r in Hsum. cbn in Hsum. by rewrite as_i64_small in Hsum.
  - apply Z.ltb_lt in Hlt. rewrite (as_u64_small b) in Hlt by (unfold is_u32, is_u64 in *; lia).
    assert (Hrb : 0 <= r < b) by (unfold is_u32, is_i64, as_u64 in *; lia).
    assert (Hp : 0 <= q * b <= 4294967295 * 4294967295) by (unfold is_u32 in *; nia).
    assert (Ea : a = b * q + r) by (unfold is_u32, as_i64 in *; lia).
    destruct (Z.div_mod_unique b q (a / b) r (a mod b)); [lia| |rewrite <- Ea; by apply Z.div_mod|done].
    left. apply Z.mod_pos_bound. lia.
Qed.

Lemma DIVUW_advice_ok c rs1 rs2 : xlen c = Bit64 ->
  let a := as_u32 rs1 in let b := as_u32 rs2 in
  exists q r, DIVUW_advice c rs1 rs2 = Ok (q, r) /\ is_u32 r /\ (b = 0 -> q = u64_MAX /\ r = a) /\ (b <> 0 -> is_u32 q /\ q = a / b /\ r = a mod b) /\ as_u32 q * b + r = a.
Proof.
  intros Hxl. cbv zeta. unfold DIVUW_advice, div_unsigned, rem_unsigned. rewrite Hxl.
  pose proof (as_u32_range rs1) as Ha. pose proof (as_u32_range rs2) as Hb. revert Ha Hb.
  generalize (as_u32 rs1) (as_u32 rs2). intros a b Ha Hb. destruct (Z.eqb_spec b 0) as [->|Hb0].
  - exists u64_MAX, a. split_and!; try done.
  - cbn [res_bind]. eexists _, _. split; [reflexivity|]. unfold is_u32 in *.
    pose proof (Z.div_mod a b Hb0). pose proof (Z.mod_pos_bound a b ltac:(lia)).
    pose proof (Z.div_pos a b ltac:(lia) ltac:(lia)).
    assert (a / b <= a) by nia.
    rewrite (as_u32_small (a / b)) by (unfold is_u32; lia). split_and!; try done; lia.
Qed.

Lemma word_sum q b r a : q * b + r = a -> is_u32 a -> as_i64 (as_i64 (q * b) + r) = a.
Proof. intros <- Ha. unfold is_u32, as_i64 in *. lia. Qed.

Lemma word_product_high q b : is_u32 q -> is_u32 b -> as_i64 (Z.shiftr (as_u64 q * as_u64 b) 64) = 0.
Proof.
  intros Hq Hb. unfold is_u32 in *. rewrite !as_u64_small by (unfold is_u64; lia).
  rewrite Z.shiftr_div_pow2, Z.div_small by (change (2 ^ 64) with 18446744073709551616; nia || lia). done.
Qed.

Lemma word_remainder_check a b r : is_u32 b -> is_u32 r -> (b <> 0 -> r = a mod b) ->
  (b =? 0) || (as_u64 r <? as_u64 b) = true.
Proof.
  intros Hb Hr Hmod. destruct (Z.eqb_spec b 0) as [|Hb0]; [done|]. apply Z.ltb_lt. unfold is_u32 in *.
  rewrite !as_u64_small by (unfold is_u64; lia). rewrite (Hmod Hb0). apply Z.mod_pos_bound. lia.
Qed.

Section Complete.
Context `{B : Build} `{R : InlineRegistry} (c : Cpu) (Hok : cpu_ok64 c) (Hrv : feature_rv64 = true).

Lemma DIV_trace i g : spec_R DIV = Some g -> user_regs (InstrR DIV i) = true -> r_rd (operands i) <> 0 ->
  trace_writes (InstrR DIV i) c (r_rd (operands i)) (g (x c (r_rs1 (operands i))) (x c (r_rs2 (operands i)))).
Proof.
  intros [= <-] Hr Hnz.
  destruct (DIV_advice_ok c _ _ (ok_xlen c Hok) (ok_x c Hok (r_rs1 (operands i))) (ok_x c Hok (r_rs2 (operands i))))
    as (q & r & Hadv & Hck & _).
  run_honest c Hok Hrv Hr; rewrite <- E, <- E0 in Hck.
  - by apply check_div0 in Hck.
  - subst v1 v2 v3 v4 v5 v6 v7 v8 v9 v10. by apply check_overflow with (r := v0).
  - subst v1 v9 v13 v11 v12 v14. by apply check_sum with (q := v).
  - subst v17 v16 v15 v1. by apply check_remainder with (q := v).
  - rewrite E18. by apply DIV_checks_sound with (r := v0).
Qed.

Lemma REM_trace i g : spec_R REM = Some g -> user_regs (InstrR REM i) = true -> r_rd (operands i) <> 0 ->
  trace_writes (InstrR REM i) c (r_rd (operands i)) (g (x c (r_rs1 (operands i))) (x c (r_rs2 (operands i)))).
Proof.
  intros [= <-] Hr Hnz.
  destruct (DIV_advice_ok c _ _ (ok_xlen c Hok) (ok_x c Hok (r_rs1 (operands i))) (ok_x c Hok (r_rs2 (operands i))))
    as (q & r & Hadv & Hck & Hrem).
  run_honest c Hok Hrv Hr; rewrite <- E, <- E0 in Hck.
  - by apply check_div0 in Hck.
  - subst v1 v2 v3 v4 v5 v6. by apply check_sum with (q := v).
  - subst v9 v8 v7 v1. by apply check_remainder with (q := v).
  - rewrite <- E0 in Hrem. rewrite E10, <- Hrem. subst v5 v4 v3. by rewrite sra_63, signed_by.
Qed.

Lemma DIVU_trace i g : spec_R DIVU = Some g -> user_regs (InstrR DIVU i) = true -> r_rd (operands i) <> 0 ->
  trace_writes (InstrR DIVU i) c (r_rd (operands i)) (g (x c (r_rs1 (operands i))) (x c (r_rs2 (operands i)))).
Proof.
  intros [= <-] Hr Hnz.
  pose proof (DIVU_advice_eq c (x c (r_rs1 (operands i))) _ (ok_xlen c Hok) (ok_x c Hok (r_rs2 (operands i)))) as Hadv.
  destruct (unsigned_advice _ _) as [q r] eqn:Eu.
  destruct (unsigned_advice_ok _ _ q r (ok_x c Hok _) (ok_x c Hok _) Eu) as (Hq & Hr' & H0 & Hn0 & Hov & Hsum).
  run_honest c Hok Hrv Hr.
  - destruct (Z.eqb_spec (x c rs2) 0); [|done]. destruct H0 as [-> _]; [done|]. by rewrite E.
  - apply Z.ltb_lt. rewrite E, as_u64_i64, !as_u64_small by (done || by rewrite as_u64_small). done.
  - apply Z.eqb_eq. subst v v0 v1 v2. by rewrite mul_add_u64.
  - destruct (Z.eqb_spec (x c rs2) 0); [done|]. apply Z.ltb_lt.
    rewrite E0, as_u64_i64, !as_u64_small by (done || by rewrite as_u64_small). by apply Hn0.
  - rewrite E3, E. destruct (Z.eqb_spec (x c rs2) 0).
    + by destruct H0 as [-> _].
    + destruct Hn0 as [-> _]; [done|]. by rewrite as_i64_u64.
Qed.

Lemma REMU_trace i g : spec_R REMU = Some g -> user_regs (InstrR REMU i) = true -> r_rd (operands i) <> 0 ->
  trace_writes (InstrR REMU i) c (r_rd (operands i)) (g (x c (r_rs1 (operands i))) (x c (r_rs2 (operands i)))).
Proof.
  intros [= <-] Hr Hnz.
  pose proof (REMU_advice_eq c (x c (r_rs1 (operands i))) _ Hok (ok_x c Hok (r_rs2 (operands i)))) as Hadv.
  destruct (unsigned_advice _ _) as [q r] eqn:Eu.
  destruct (unsigned_advice_ok _ _ q r (ok_x c Hok _) (ok_x c Hok _) Eu) as (Hq & Hr' & H0 & Hn0 & Hov & Hsum).
  run_honest c Hok Hrv Hr.
  - apply Z.eqb_eq. subst v v0 v1 v2. by rewrite mul_add_u64.
  - destruct (Z.eqb_spec (x c rs2) 0); [done|]. apply Z.ltb_lt.
    rewrite E0, as_u64_i64, !as_u64_small by (done || by rewrite as_u64_small). by apply Hn0.
  - rewrite E3, E0. destruct (Z.eqb_spec (x c rs2) 0).
    + destruct H0 as [_ ->]; [done|]. by rewrite !as_i64_u64, as_i64_small.
    + destruct Hn0 as [_ [-> _]]; [done|]. by rewrite as_i64_u64.
Qed.

Lemma DIVW_trace i g : spec_R DIVW = Some g -> user_regs (InstrR DIVW i) = true -> r_rd (operands i) <> 0 ->
  trace_writes (InstrR DIVW i) c (r_rd (operands i)) (g (x c (r_rs1 (operands i))) (x c (r_rs2 (operands i)))).
Proof.
  intros [= <-] Hr Hnz.
  destruct (DIVW_advice_ok c (x c (r_rs1 (operands i))) (x c (r_rs2 (operands i))) (ok_xlen c Hok))
    as (q & r & Hadv & Hq & Hr' & Hi & H0 & Hp & Hsum & Hlt & Hquot & _).
  run_honest c Hok Hrv Hr; rewrite as_i64_u64, as_i64_small in E, E0 by (unfold is_i64, is_i32 in *; lia); subst v v0 v1 v2.
  { destruct (Z.eqb_spec (as_i32 (x c rs2)) 0); [|done]. by rewrite H0. }
  all: rewrite adjusted_divisor_w_eq in E3; rewrite <- E3 in *; rewrite (as_i64_small (q * v3)) in * by (by apply i32_is_i64).
  - apply Z.eqb_eq. subst v4 v5 v6. by apply as_i32_small.
  - apply Z.eqb_eq. subst v4 v5 v7 v8 v9 v10 v11. pose proof (as_i32_range (x c rs1)).
    rewrite signed_by_w, (as_i32_small (q * v3)), Hsum by done. by rewrite as_i64_small, as_i32_small by (done || by apply i32_is_i64).
  - subst v12 v13 v14. by apply check_remainder_w with (d := v3); try apply magnitude_w.
  - subst v15. rewrite as_i32_small by done. exact Hquot.
Qed.

Lemma REMW_trace i g : spec_R REMW = Some g -> user_regs (InstrR REMW i) = true -> r_rd (operands i) <> 0 ->
  trace_writes (InstrR REMW i) c (r_rd (operands i)) (g (x c (r_rs1 (operands i))) (x c (r_rs2 (operands i)))).
Proof.
  intros [= <-] Hr Hnz.
  destruct (DIVW_advice_ok c (x c (r_rs1 (operands i))) (x c (r_rs2 (operands i))) (ok_xlen c Hok))
    as (q & r & Hadv & Hq & Hr' & Hi & H0 & Hp & Hsum & Hlt & _ & Hrem).
  run_honest c Hok Hrv Hr; rewrite as_i64_u64, as_i64_small in E, E0 by (unfold is_i64, is_i32 in *; lia); subst v v0 v1 v2.
  { destruct (Z.eqb_spec (as_i32 (x c rs2)) 0); [|done]. by rewrite H0. }
  all: rewrite adjusted_divisor_w_eq in E3; rewrite <- E3 in *; rewrite (as_i64_small (q * v3)) in * by (by apply i32_is_i64).
  all: pose proof (as_i32_range (x c rs1)).
  - apply Z.eqb_eq. subst v4 v5 v6 v7 v8 v9 v10.
    rewrite signed_by_w, (as_i32_small (q * v3)), Hsum by done. by rewrite as_i64_small, as_i32_small by (done || by apply i32_is_i64).
  - subst v11 v12 v13. by apply check_remainder_w with (d := v3); try apply magnitude_w.
  - subst v14 v6 v7 v8. rewrite signed_by_w by done. rewrite Hrem.
    destruct (Z.eqb_spec (as_i32 (x c rs2)) 0); [by rewrite as_i32_small | by rewrite as_i32_small by (by apply rem_i32)].
Qed.

Lemma DIVUW_trace i g : spec_R DIVUW = Some g -> user_regs (InstrR DIVUW i) = true -> r_rd (operands i) <> 0 ->
  trace_writes (InstrR DIVUW i) c (r_rd (operands i)) (g (x c (r_rs1 (operands i))) (x c (r_rs2 (operands i)))).
Proof.
  intros [= <-] Hr Hnz.
  destruct (DIVUW_advice_ok c (x c (r_rs1 (operands i))) (x c (r_rs2 (operands i))) (ok_xlen c Hok))
    as (q & r & Hadv & Hr' & H0 & Hn0 & Hsum).
  run_honest c Hok Hrv Hr; rewrite as_i64_u64, as_i64_small in E0 by (by apply u32_is_i64); subst v0 v1 v2; rewrite as_i64_u64 in E.
  - destruct (Z.eqb_spec (as_u32 (x c rs2)) 0); [|done]. destruct H0 as [-> _]; [done|]. by rewrite E.
  - subst v3 v5. rewrite word_product_high, (ok_x0 c Hok) by apply as_u32_range. done.
  - apply Z.eqb_eq. subst v v3 v4 v6. rewrite as_u32_i64. by apply word_sum; [|apply as_u32_range].
  - by apply word_remainder_check with (a := as_u32 (x c rs1)); [apply as_u32_range|done|intros ?%Hn0; tauto].
  - rewrite E7, E, as_i32_i64. destruct (Z.eqb_spec (as_u32 (x c rs2)) 0).
    + by destruct H0 as [-> _].
    + by destruct Hn0 as (_ & -> & _).
Qed.

Lemma REMUW_trace i g : spec_R REMUW = Some g -> user_regs (InstrR REMUW i) = true -> r_rd (operands i) <> 0 ->
  trace_writes (InstrR REMUW i) c (r_rd (operands i)) (g (x c (r_rs1 (operands i))) (x c (r_rs2 (operands i)))).
Proof.
  intros [= <-] Hr Hnz.
  destruct (DIVUW_advice_ok c (x c (r_rs1 (operands i))) (x c (r_rs2 (operands i))) (ok_xlen c Hok))
    as (q & r & Hadv & Hr' & H0 & Hn0 & Hsum).
  run_honest c Hok Hrv Hr; rewrite as_i64_u64, as_i64_small in E0 by (by apply u32_is_i64); subst v0 v1 v2; rewrite as_i64_u64 in E.
  - apply Z.eqb_eq. subst v v3 v4 v5. rewrite as_u32_i64. by apply word_sum; [|apply as_u32_range].
  - by apply word_remainder_check with (a := as_u32 (x c rs1)); [apply as_u32_range|done|intros ?%Hn0; tauto].
  - rewrite E6. destruct (Z.eqb_spec (as_u32 (x c rs2)) 0).
    + destruct H0 as [_ ->]; [done|]. by rewrite as_i32_u32.
    + by destruct Hn0 as (_ & _ & ->).
Qed.

End Complete.

Section Sound.
Context `{B : Build} `{R : InlineRegistry} (c : Cpu) (Hok : cpu_ok64 c).

Lemma DIVUW_accepts i q r : user_regs (InstrR DIVUW i) = true ->
  accepts_only c (r_rd (operands i))
    (if as_u32 (x c (r_rs2 (operands i))) =? 0 then -1
     else as_i32 (as_u32 (x c (r_rs1 (operands i))) / as_u32 (x c (r_rs2 (operands i)))))
    (advised_run (InstrR DIVUW i) q r c).
Proof.
  intros Hr. run_accepted c Hok Hr. subst v1 v2 v3 v4 v5 v6.
  apply Z.eqb_eq in C1.
  pose proof (unsigned_word_division _ _ _ v0 (as_u32_range _) (as_u32_range _) (as_u32_range _) I0 C1 C2) as Hdiv.
  rewrite E7. destruct (Z.eqb_spec (as_u32 (x c rs2)) 0) as [Hb|Hb].
  - apply Z.eqb_eq in C. by rewrite C.
  - destruct Hdiv as [<- _]. by rewrite as_i32_u32.
Qed.

Lemma REMUW_accepts i q r : user_regs (InstrR REMUW i) = true ->
  accepts_only c (r_rd (operands i))
    (if as_u32 (x c (r_rs2 (operands i))) =? 0 then as_i32 (x c (r_rs1 (operands i)))
     else as_i32 (as_u32 (x c (r_rs1 (operands i))) mod as_u32 (x c (r_rs2 (operands i)))))
    (advised_run (InstrR REMUW i) q r c).
Proof.
  intros Hr. run_accepted c Hok Hr. subst v1 v2 v3 v4 v5. apply Z.eqb_eq in C.
  pose proof (unsigned_word_division _ _ _ v0 (as_u32_range _) (as_u32_range _) (as_u32_range _) I0 C C0) as Hdiv.
  rewrite E6. destruct (Z.eqb_spec (as_u32 (x c rs2)) 0) as [Hb|Hb].
  - by rewrite Hdiv, as_i32_u32.
  - by destruct Hdiv as [_ <-].
Qed.
End Sound.
