(* ===== verification/Machine.v ===== *)
(** * Tracing refines execution

    The instruction-level theorems of the 64-bit machine: [execute] follows the
    instruction set manual, tracing an instruction has the architectural effect
    of executing it, and which division sequences determine their result. *)

From Stdlib Require Import ZArith Lia List Bool.
From stdpp Require Import base list.
From S2P Require Import Prelude Words Memory Types Device Mmu DramAccess Isa Decode Allocator Cpu Exec Assembler Sequences Trace Step Refine Expansion Cycles Alu64 Mem64 Amo64 Div64 DivComplete.
Import ListNotations.
Local Open Scope Z_scope.
Local Open Scope rust_scope.

(** An access of [n] bytes at [a] that main memory and the layout allow; a store
    touches the surrounding doubleword when traced. *)
Definition load_ready `{Build} (c : Cpu) (a n : Z) : Prop := mmu_ok (mmu c) /\ access_ok (mmu c) a n.

Definition store_ready `{Build} (c : Cpu) (a n : Z) : Prop :=
  load_ready c a n /\ store_allowed (mmu c) a /\ store_allowed (mmu c) (dword_address a).

(** What the refinement asks of an instruction besides its operands: memory
    instructions access main memory, the division family has a destination, and
    the instruction is not a registered inline. *)
Definition traceable `{Build} (i : Instruction) (c : Cpu) : Prop :=
  match i with
  | NoOp | UNIMPL | INLINE _ _ _ _ => False
  | InstrR op i =>
      match spec_amo op with
      | Some (n, _) => store_ready c (x c (r_rs1 (operands i))) n
      | None => advice_of op <> None -> r_rd (operands i) <> 0
      end
  | InstrLoad op i =>
      is_i32 (l_imm (operands i)) /\
      load_ready c (x c (l_rs1 (operands i)) + l_imm (operands i)) (fst (spec_load op))
  | InstrS op i =>
      match spec_store op with
      | Some n => is_i32 (s_imm (operands i)) /\ store_ready c (x c (s_rs1 (operands i)) + s_imm (operands i)) n
      | None => True
      end
  | _ => True
  end.

(** ** Lemmas *)

Lemma same_arch_refl c : same_arch c c.
Proof. split; [apply set_x_id | done]. Qed.

Lemma set_mmu_xlen_stored `{Build} c m' a n v : mmu_ok (mmu c) -> access_ok (mmu c) a n ->
  stored (mmu c) a n v = Ok m' -> mmu_xlen m' = Bit64.
Proof.
  intros Hm Ha Hm'. destruct (stored_ok _ Hm a n v) as (d & m2 & _ & _ & Hst & Hm2 & _).
  - by eapply acc_byte.
  - apply Ha.
  - apply Ha.
  - assert (m2 = m') as -> by congruence. apply Hm2.
Qed.

(** The accesses in terms of the byte loops of the memory. *)
Lemma read_bytes_at `{Build} c (Hm : mmu_ok (mmu c)) a n d : access_ok (mmu c) a n -> dword (mmu c) a = Ok d ->
  read_bytes (memory (mmu c)) (a - DRAM_BASE) n = Ok (bytes_at d a n).
Proof.
  intros Ha Hd. pose proof (acc_range c Hm a n Ha) as Hrange.
  pose proof (field_in_dword a n (acc_width _ _ _ Ha) (acc_aligned _ _ _ Ha)) as Hf.
  pose proof (access_width_cases n (acc_width _ _ _ Ha)) as Hn.
  unfold read_bytes. replace (Z.to_nat n) with (S (Z.to_nat (n - 1))) by lia.
  pose proof (offset_mod a) as Hoff.
  rewrite aligned_read, Hoff by (unfold is_u64, DRAM_BASE, RAM_START_ADDRESS in *; lia).
  unfold dword in Hd. rewrite Hd. cbn [res_bind]. unfold bytes_at, as_unsigned.
  rewrite (Z.mul_comm (a mod 8)). do 2 f_equal. f_equal. lia.
Qed.

Lemma write_bytes_at `{Build} c (Hm : mmu_ok (mmu c)) a n v : access_ok (mmu c) a n ->
  exists mem, write_bytes (memory (mmu c)) (a - DRAM_BASE) v n = Ok mem /\
    stored (mmu c) a n (as_unsigned (8 * n) v) = Ok (with_memory (mmu c) mem).
Proof.
  intros Ha. pose proof (acc_range c Hm a n Ha) as Hrange.
  pose proof (field_in_dword a n (acc_width _ _ _ Ha) (acc_aligned _ _ _ Ha)) as Hf.
  pose proof (access_width_cases n (acc_width _ _ _ Ha)) as Hn.
  destruct (dword_ok _ Hm _ (acc_byte c _ _ Ha)) as (d & Hd & Hu). unfold stored. rewrite Hd. unfold dword in Hd. cbn [res_bind].
  assert (Hv : 0 <= as_unsigned (8 * n) v < 2 ^ (8 * n)) by (apply Z.mod_pos_bound, Z.pow_pos_nonneg; lia).
  rewrite (data_set_ok _ _ d) by done. eexists. split; [|reflexivity].
  unfold write_bytes. rewrite <- (write_bytes_low _ _ v (8 * n)) by lia. fold (as_unsigned (8 * n) v).
  replace (Z.to_nat n) with (S (Z.to_nat (n - 1))) by lia.
  pose proof (offset_mod a) as Hoff.
  rewrite <- (aligned_write _ _ _ _ (8 * n) (Z.ones (8 * n))) by
    (apply Hm || done || unfold is_u64, DRAM_BASE, RAM_START_ADDRESS in *; lia). rewrite Hoff.
  rewrite (write_field_ok _ _ d _ (8 * n)); try done; try lia. rewrite (Z.mul_comm (a mod 8)). by apply data_set_ok with (d := d).
Qed.

Section Refines.
Context (oc dbg : bool) `{R : InlineRegistry}.
Local Instance B64 : Build := Build_Build true oc dbg.
Context (c : Cpu) (Hok : cpu_ok64 c).

Lemma leaf_trace_to i ra c1 : is_leaf i = true -> user_regs i = true -> execute i c = Ok (ra, c1) -> trace_to i c c1.
Proof.
  intros Hl Hr He.
  assert (Hro : regs_ok i = true) by (apply user_regs_ok; try done; by intros ->).
  assert (Hlo : leaf_ok i = true) by (unfold leaf_ok; by rewrite Hl, Hro).
  pose proof (trace_leaf_traced 1 i c Hlo) as Ht. unfold traced in Ht. cbn [run] in Ht. rewrite He in Ht.
  cbn [strip res_bind] in Ht. unfold trace_to, Instruction_trace, TRACE_DEPTH.
  destruct (trace_fuel 2 i c) as [[cs c2]| |]; try done. destruct Ht as [Ht _].
  exists cs, c2. split; [done|]. assert (c2 = c1) as -> by congruence. apply same_arch_refl.
Qed.

Lemma writes_trace_to i rd v ra ra' c1 :
  trace_writes i c rd v -> execute i c = Ok (ra', set_x (zupd (x c) rd v) c) -> execute i c = Ok (ra, c1) -> trace_to i c c1.
Proof. intros Ht He1 He2. assert (c1 = set_x (zupd (x c) rd v) c) as -> by congruence. exact Ht. Qed.

(** The whole multiplication and division family, traced. *)
Lemma trace_R_spec op g i :
  spec_R op = Some g -> is_leaf_R op = false -> (advice_of op <> None -> r_rd (operands i) <> 0) ->
  user_regs (InstrR op i) = true ->
  trace_writes (InstrR op i) c (r_rd (operands i)) (g (x c (r_rs1 (operands i))) (x c (r_rs2 (operands i)))).
Proof.
  intros Hg Hl Hd Hr. destruct (advice_of op) as [adv|] eqn:Ea; [|by apply trace_R_64].
  specialize (Hd ltac:(done)).
  destruct op; try discriminate Ea;
    [by apply DIV_trace | by apply DIVU_trace | by apply REM_trace | by apply REMU_trace
    | by apply DIVW_trace | by apply DIVUW_trace | by apply REMW_trace | by apply REMUW_trace].
Qed.

Lemma R_classified op : is_leaf_R op = true \/ (exists g, spec_R op = Some g) \/ exists n f, spec_amo op = Some (n, f).
Proof. destruct op; cbn [is_leaf_R spec_R spec_amo]; eauto. Qed.

Lemma amo_trace_to op i n f ra c1 : spec_amo op = Some (n, f) -> user_regs (InstrR op i) = true ->
  store_ready c (x c (r_rs1 (operands i))) n -> execute (InstrR op i) c = Ok (ra, c1) -> trace_to (InstrR op i) c c1.
Proof.
  intros Hs Hr ([Hm Ha] & Hst & Hstw) He. pose proof (acc_byte c _ _ Ha) as Hb.
  destruct (dword_ok _ Hm _ Hb) as (d & Hd & Hu).
  destruct (stored_ok _ Hm (x c (r_rs1 (operands i))) n
              (as_unsigned (8 * n) (f (amo_original d (x c (r_rs1 (operands i))) n) (x c (r_rs2 (operands i)))))
              Hb (acc_width _ _ _ Ha) (acc_aligned _ _ _ Ha)) as (d' & m' & _ & _ & Hst' & _ & _).
  pose proof (set_mmu_xlen_stored c m' _ _ _ Hm Ha Hst') as Hxl.
  assert (Hro : regs_ok (InstrR op i) = true) by (by apply user_regs_ok).
  pose proof (exec_amo c Hm op n f i d m' Hs Hro Ha Hst Hd Hu Hst') as He'. rewrite He' in He.
  assert (c1 = set_x (zupd (x c) (r_rd (operands i)) (amo_original d (x c (r_rs1 (operands i))) n)) (set_mmu m' c)) as -> by congruence.
  assert (Hn : n = 4 \/ n = 8) by (destruct op; try discriminate Hs; injection Hs as <- <-; auto).
  destruct Hn as [-> | ->].
  - destruct (decide (op = AMOXORW)) as [->|Hne]; [injection Hs as <-; by apply trace_AMOXORW | by apply (trace_amo_w _ _ _ Hok Hm op 4 f)].
  - by apply (trace_amo_d _ _ _ Hok Hm op 8 f).
Qed.

Lemma load_trace_to op i ra c1 : user_regs (InstrLoad op i) = true -> is_i32 (l_imm (operands i)) ->
  load_ready c (x c (l_rs1 (operands i)) + l_imm (operands i)) (fst (spec_load op)) ->
  execute (InstrLoad op i) c = Ok (ra, c1) -> trace_to (InstrLoad op i) c c1.
Proof.
  intros Hr Hi [Hm Ha] He. destruct (decide (op = LD)) as [->|Hne]; [by eapply leaf_trace_to|].
  destruct (spec_load op) as [n ext] eqn:Es. cbn [fst] in Ha.
  destruct (dword_ok _ Hm _ (acc_byte c _ _ Ha)) as (d & Hd & Hu).
  assert (Hro : regs_ok (InstrLoad op i) = true) by (by apply user_regs_ok).
  destruct (exec_load c Hm op i (x c) n ext d Es Hro Hi Ha Hd Hu) as [r He']. rewrite set_x_id in He'.
  assert (c1 = set_x (zupd (x c) (l_rd (operands i)) (ext (bytes_at d (x c (l_rs1 (operands i)) + l_imm (operands i)) n))) c) as -> by congruence.
  by apply (trace_load_64 _ _ c Hok Hm op i n ext d).
Qed.

Lemma store_trace_to op i n ra c1 : spec_store op = Some n -> user_regs (InstrS op i) = true -> is_i32 (s_imm (operands i)) ->
  store_ready c (x c (s_rs1 (operands i)) + s_imm (operands i)) n ->
  execute (InstrS op i) c = Ok (ra, c1) -> trace_to (InstrS op i) c c1.
Proof.
  intros Es Hr Hi ([Hm Ha] & Hst & Hstw) He. destruct (decide (op = SD)) as [->|Hne]; [by eapply leaf_trace_to|].
  pose proof (acc_byte c _ _ Ha) as Hb.
  destruct (stored_ok _ Hm _ n (as_unsigned (8 * n) (x c (s_rs2 (operands i)))) Hb (acc_width _ _ _ Ha) (acc_aligned _ _ _ Ha))
    as (d & m' & _ & _ & Hst' & _ & _).
  assert (Hro : regs_ok (InstrS op i) = true) by (by apply user_regs_ok).
  destruct (exec_store c Hm op i (x c) n m' Es Hro Ha Hst Hst') as [w He']. rewrite set_x_id in He'.
  replace (set_x (x c) (set_mmu m' c)) with (set_mmu m' c) in He' by (by destruct c).
  assert (c1 = set_mmu m' c) as -> by congruence. by apply (trace_store_64 _ _ c Hok Hm op i n m').
Qed.

Lemma R_trace_to op i ra c1 : user_regs (InstrR op i) = true -> traceable (InstrR op i) c ->
  execute (InstrR op i) c = Ok (ra, c1) -> trace_to (InstrR op i) c c1.
Proof.
  intros Hr Ht He. cbn [traceable] in Ht. assert (Hro : regs_ok (InstrR op i) = true) by (by apply user_regs_ok).
  destruct (is_leaf_R op) eqn:El; [by eapply leaf_trace_to|].
  destruct (R_classified op) as [Hl | [[g Hg] | (n & f & Hs)]]; [congruence| |].
  - destruct (spec_amo op) as [[n f]|] eqn:Es; [by destruct op|].
    eapply writes_trace_to; [by apply (trace_R_spec op g) | by apply exec_R_64 | exact He].
  - rewrite Hs in Ht. by apply (amo_trace_to op i n f ra).
Qed.

Lemma I_trace_to op i ra c1 : user_regs (InstrI op i) = true ->
  execute (InstrI op i) c = Ok (ra, c1) -> trace_to (InstrI op i) c c1.
Proof.
  intros Hr He. assert (Hro : regs_ok (InstrI op i) = true) by (by apply user_regs_ok).
  destruct (is_leaf (InstrI op i)) eqn:El; [by eapply leaf_trace_to|].
  assert (Hg : exists g, spec_I op = Some g) by (destruct op; try discriminate El; cbn [spec_I]; eauto).
  destruct Hg as [g Hg]. eapply writes_trace_to; [by apply (trace_I_64 c Hok op g) | by apply (exec_I_64 c Hok op g) | exact He].
Qed.

End Refines.

(** ** Theorems *)


(** C22: [execute] follows the manual on the register-register instructions of
    RV64IM (and [ANDN]): it writes the value of [spec_R] to [rd] and changes
    nothing else. *)
Theorem execute_R_manual `{B : Build} (c : Cpu) (op : OpR) (g : Z -> Z -> Z) (i : Instr FormatR)
  (Hok : cpu_ok64 c) (Hg : spec_R op = Some g) (Hr : user_regs (InstrR op i) = true) :
  execute (InstrR op i) c =
    Ok (RANoOp, set_x (zupd (x c) (r_rd (operands i)) (g (x c (r_rs1 (operands i))) (x c (r_rs2 (operands i))))) c).
Proof. apply exec_R_64; try done. by apply user_regs_ok. Qed.

(** C23: [execute] follows the manual on the register-immediate instructions of
    RV64I: it writes the value of [spec_I] to [rd] and changes nothing else. *)
Theorem execute_I_manual `{B : Build} (c : Cpu) (op : OpI) (g : Z -> Z -> Z) (i : Instr FormatI)
  (Hok : cpu_ok64 c) (Hg : spec_I op = Some g) (Hr : user_regs (InstrI op i) = true) :
  execute (InstrI op i) c =
    Ok (RANoOp, set_x (zupd (x c) (i_rd (operands i)) (g (x c (i_rs1 (operands i))) (i_imm (operands i)))) c).
Proof. apply exec_I_64; try done. by apply user_regs_ok. Qed.

(** C24: a load from main memory reads the little-endian bytes at its effective
    address, extends them as the manual says and writes [rd]; nothing else
    changes. *)
Theorem execute_load_manual `{B : Build} (c : Cpu) (op : OpLoad) (i : Instr FormatLoad) (n : Z) (ext : Z -> Z)
  (a := x c (l_rs1 (operands i)) + l_imm (operands i))
  (Hs : spec_load op = (n, ext)) (Hr : user_regs (InstrLoad op i) = true)
  (Hi : is_i32 (l_imm (operands i))) (Ha : load_ready c a n) :
  exists v r, read_bytes (memory (mmu c)) (a - DRAM_BASE) n = Ok v /\
    execute (InstrLoad op i) c = Ok (RARead r, set_x (zupd (x c) (l_rd (operands i)) (ext v)) c).
Proof.
  destruct Ha as [Hm Ha]. destruct (dword_ok _ Hm _ (acc_byte c _ _ Ha)) as (d & Hd & Hu).
  assert (Hro : regs_ok (InstrLoad op i) = true) by (by apply user_regs_ok).
  destruct (exec_load c Hm op i (x c) n ext d Hs Hro Hi Ha Hd Hu) as [r He]. rewrite set_x_id in He.
  eexists _, r. split; [|exact He]. by apply (read_bytes_at c Hm).
Qed.

(** C25: a store to main memory writes the low bytes of its operand at its
    effective address, little-endian; nothing else changes. *)
Theorem execute_store_manual `{B : Build} (c : Cpu) (op : OpS) (i : Instr FormatS) (n : Z)
  (a := x c (s_rs1 (operands i)) + s_imm (operands i))
  (Hs : spec_store op = Some n) (Hr : user_regs (InstrS op i) = true) (Ha : store_ready c a n) :
  exists mem w, write_bytes (memory (mmu c)) (a - DRAM_BASE) (x c (s_rs2 (operands i))) n = Ok mem /\
    execute (InstrS op i) c = Ok (RAWrite w, set_mmu (with_memory (mmu c) mem) c).
Proof.
  destruct Ha as ([Hm Ha] & Hst & _). assert (Hro : regs_ok (InstrS op i) = true) by (by apply user_regs_ok).
  destruct (write_bytes_at c Hm a n (x c (s_rs2 (operands i))) Ha) as (mem & Hw & Hst').
  destruct (exec_store c Hm op i (x c) n _ Hs Hro Ha Hst Hst') as [w He].
  exists mem, w. split; [exact Hw|]. rewrite set_x_id in He. rewrite He. by destruct c.
Qed.

(** C26: an atomic operation on main memory writes the original value
    (sign-extended) to [rd] and stores the value of [spec_amo], little-endian;
    nothing else changes. *)
Theorem execute_amo_manual `{B : Build} (c : Cpu) (op : OpR) (i : Instr FormatR) (n : Z) (f : Z -> Z -> Z)
  (a := x c (r_rs1 (operands i)))
  (Hs : spec_amo op = Some (n, f)) (Hr : user_regs (InstrR op i) = true) (Ha : store_ready c a n) :
  exists v mem, read_bytes (memory (mmu c)) (a - DRAM_BASE) n = Ok v /\
    let original := if n =? 8 then as_i64 v else as_i32 v in
    write_bytes (memory (mmu c)) (a - DRAM_BASE) (f original (x c (r_rs2 (operands i)))) n = Ok mem /\
    execute (InstrR op i) c =
      Ok (RANoOp, set_x (zupd (x c) (r_rd (operands i)) original) (set_mmu (with_memory (mmu c) mem) c)).
Proof.
  destruct Ha as ([Hm Ha] & Hst & _). destruct (dword_ok _ Hm _ (acc_byte c _ _ Ha)) as (d & Hd & Hu).
  assert (Hro : regs_ok (InstrR op i) = true) by (by apply user_regs_ok).
  destruct (write_bytes_at c Hm a n (f (amo_original d a n) (x c (r_rs2 (operands i)))) Ha) as (mem & Hw & Hst').
  exists (bytes_at d a n), mem. split; [by apply (read_bytes_at c Hm)|]. split; [exact Hw|].
  by apply (exec_amo c Hm op n f i d).
Qed.

(** C21: every instruction of the program expands, on the 64-bit machine, to a
    non-empty sequence of instructions that expand no further, over valid
    registers, all at its address, numbered down to 0 and with the compression
    flag on the last one only; the virtual registers allocated on the way are
    free again.  The recursion depth of the model is enough. *)
Theorem expansion_well_formed `{B : Build} `{R : InlineRegistry} (i : Instruction) (al : VirtualRegisterAllocator)
  (Hrv : feature_rv64 = true) (Hp : pool_free al) (Hb : is_base i = true) (Hr : user_regs i = true) :
  exists s, inline_sequence i Bit64 al = Ok (s, al) /\ expansion_ok i s.
Proof. destruct B as [rv oc dbg]. cbn in Hrv. subst rv. by apply expansion_exists. Qed.

(** C27: the cycles pushed by a traced instruction are the elements of its
    expansion, in order and one each, up to the advice filled in: the increment
    of [trace_len] is the number of cycles pushed. *)
Theorem trace_cycles_are_expansion `{B : Build} `{R : InlineRegistry} (c c2 : Cpu) (i : Instruction) (cs : list Cycle)
  (Hrv : feature_rv64 = true) (Hok : cpu_ok64 c) (Hb : is_base i = true) (Hr : user_regs i = true)
  (Hd : match i with InstrR op o => advice_of op <> None -> r_rd (operands o) <> 0 | _ => True end)
  (Ht : Instruction_trace i c = Ok (cs, c2)) :
  exists s, expand i c = Ok (s, c) /\ length cs = length s /\
    map erase_advice (map cycle_instruction cs) = map erase_advice s.
Proof.
  destruct B as [rv oc dbg]. cbn in Hrv. subst rv.
  destruct (trace_cycles oc dbg c Hok i cs c2 Hb Hr Hd Ht) as (s & Hs & _ & Hm). exists s. split; [done|]. split; [|done].
  apply (f_equal (@length _)) in Hm. by rewrite !length_map in Hm.
Qed.

(** C30: the checks of the [DIV], [DIVUW] and [REMUW] sequences determine the
    result: whatever advice they are run with, if every check passes the value
    written is that of the manual. *)
Theorem division_advice_sound `{B : Build} `{R : InlineRegistry} (c : Cpu) (op : OpR) (g : Z -> Z -> Z) (i : Instr FormatR) (q r : Z)
  (Hok : cpu_ok64 c) (Hop : op = DIV \/ op = DIVUW \/ op = REMUW) (Hg : spec_R op = Some g)
  (Hr : user_regs (InstrR op i) = true) :
  accepts_only c (r_rd (operands i)) (g (x c (r_rs1 (operands i))) (x c (r_rs2 (operands i)))) (advised_run (InstrR op i) q r c).
Proof.
  destruct Hop as [-> | [-> | ->]]; injection Hg as <-; [by apply DIV_accepts | by apply DIVUW_accepts | by apply REMUW_accepts].
Qed.

(** ** Counterexamples: advice that passes the checks with a wrong result *)

(** A machine with 64 bytes of memory and the given values in [x5] and [x6]. *)
Definition sample_mmu : Mmu := with_device (init_memory (Mmu_new Bit64) 64) (Some sample_device).

Definition sample_cpu (a b : Z) : Cpu :=
  {| clock := 0; xlen := Bit64; privilege_mode := Machine; wfi := false;
     x := zupd (zupd (fun _ => 0) 5 a) 6 b; pc := DRAM_BASE; csr := fun _ => 0; mmu := sample_mmu; reservation := 0;
     is_reservation_set := false; unsigned_data_mask := 0xffffffffffffffff; trace_len := 0; executed_instrs := 0;
     active_markers := empty; vr_allocator := VirtualRegisterAllocator_new; call_stack := [] |}.

Definition sample_R : Instr FormatR := mkInstr DRAM_BASE (mkFormatR 7 5 6) None false.

(** The value left in [x7] by an accepted run with advice [q], [r]. *)
Definition forged (op : OpR) (a b q r : Z) : option Z :=
  match @advised_run release_rv64 empty_registry (InstrR op sample_R) q r (sample_cpu a b) with
  | Ok c => Some (x c 7)
  | _ => None
  end.

(** The value of the manual. *)
Definition manual (op : OpR) (a b : Z) : option Z :=
  match spec_R op with Some g => Some (g a b) | None => None end.


(** ** Witnesses *)

Lemma sample_ok a b : is_i64 a -> is_i64 b -> cpu_ok64 (sample_cpu a b).
Proof.
  intros Ha Hb. constructor; try reflexivity.
  - intros r. cbn [sample_cpu x]. unfold zupd. destruct (r =? 6); [done|]. by destruct (r =? 5).
  - by exists (replicate 80 false).
Qed.

Lemma sample_mmu_ok a b : mmu_ok (mmu (sample_cpu a b)).
Proof.
  constructor; try reflexivity.
  - unfold wf_memory. apply Forall_replicate. by unfold is_u64.
  - by vm_compute.
Qed.

(** An address of the sample memory. *)
Lemma sample_access `{B : Build} a b e n : access_width n = true -> e mod n = 0 ->
  DRAM_BASE <= e < DRAM_BASE + 56 -> access_ok (mmu (sample_cpu a b)) e n.
Proof.
  intros Hn He Hd. constructor; try done.
  - unfold in_dram. rewrite record_address_eq. change (capacity (memory (mmu (sample_cpu a b)))) with 64.
    unfold DRAM_BASE, RAM_START_ADDRESS in *. lia.
  - unfold load_allowed, assert_effective_load_address, assert_effective_address.
    cbn [sample_cpu mmu sample_mmu with_device jolt_device]. rewrite (proj2 (Z.ltb_ge e DRAM_BASE)) by lia.
    rewrite (proj2 (Z.ltb_lt e _)); [done|].
    change (memory_end (memory_layout sample_device)) with 2181043200.
    unfold DRAM_BASE, RAM_START_ADDRESS in *. lia.
Qed.

Lemma sample_store `{B : Build} a b e : DRAM_BASE <= e < DRAM_BASE + 56 -> store_allowed (mmu (sample_cpu a b)) e.
Proof.
  intros Hd. unfold store_allowed, assert_effective_store_address, assert_effective_address.
  cbn [sample_cpu mmu sample_mmu with_device jolt_device]. rewrite (proj2 (Z.ltb_ge e DRAM_BASE)) by lia.
  change (memory_end (memory_layout sample_device)) with 2181043200.
  change (stack_end (memory_layout sample_device)) with 2147484672.
  unfold DRAM_BASE, RAM_START_ADDRESS in *. by zbool.
Qed.

Definition sample_S : Instr FormatS := mkInstr DRAM_BASE (mkFormatS 5 6 4) None false.
Definition sample_Load : Instr FormatLoad := mkInstr DRAM_BASE (mkFormatLoad 7 5 4) None false.
Definition sample_I : Instr FormatI := mkInstr DRAM_BASE (mkFormatI 7 5 12) None false.


Lemma execute_R_manual_witness :
  @execute release_rv64 (InstrR MULHSU sample_R) (sample_cpu (-3) 5) =
    Ok (RANoOp, set_x (zupd (x (sample_cpu (-3) 5)) 7 (-1)) (sample_cpu (-3) 5)).
Proof. by rewrite (@execute_R_manual release_rv64 (sample_cpu (-3) 5) MULHSU _ sample_R (sample_ok (-3) 5 ltac:(done) ltac:(done)) eq_refl eq_refl). Defined.

Lemma execute_I_manual_witness :
  @execute release_rv64 (InstrI SRAIW sample_I) (sample_cpu (-5000000) 0) =
    Ok (RANoOp, set_x (zupd (x (sample_cpu (-5000000) 0)) 7 (-1221)) (sample_cpu (-5000000) 0)).
Proof. by rewrite (@execute_I_manual release_rv64 (sample_cpu (-5000000) 0) SRAIW _ sample_I (sample_ok (-5000000) 0 ltac:(done) ltac:(done)) eq_refl eq_refl). Defined.

Lemma execute_load_manual_witness :
  exists v r, read_bytes (memory sample_mmu) 12 4 = Ok v /\
    @execute release_rv64 (InstrLoad LW sample_Load) (sample_cpu (DRAM_BASE + 8) 0) =
      Ok (RARead r, set_x (zupd (x (sample_cpu (DRAM_BASE + 8) 0)) 7 (as_i32 v)) (sample_cpu (DRAM_BASE + 8) 0)).
Proof.
  apply (@execute_load_manual release_rv64 (sample_cpu (DRAM_BASE + 8) 0) LW sample_Load 4 as_i32 eq_refl eq_refl).
  - by unfold is_i32; cbn.
  - split; [apply sample_mmu_ok | by apply sample_access].
Defined.

Lemma execute_store_manual_witness :
  exists mem w, write_bytes (memory sample_mmu) 12 (-2) 2 = Ok mem /\
    @execute release_rv64 (InstrS SH sample_S) (sample_cpu (DRAM_BASE + 8) (-2)) =
      Ok (RAWrite w, set_mmu (with_memory sample_mmu mem) (sample_cpu (DRAM_BASE + 8) (-2))).
Proof.
  apply (@execute_store_manual release_rv64 (sample_cpu (DRAM_BASE + 8) (-2)) SH sample_S 2 eq_refl eq_refl).
  split; [split; [apply sample_mmu_ok | by apply sample_access] | split; by apply sample_store].
Defined.

Lemma execute_amo_manual_witness :
  exists v mem, read_bytes (memory sample_mmu) 8 4 = Ok v /\
    write_bytes (memory sample_mmu) 8 (Z.max (as_i32 v) 7) 4 = Ok mem /\
    @execute release_rv64 (InstrR AMOMAXW sample_R) (sample_cpu (DRAM_BASE + 8) 7) =
      Ok (RANoOp, set_x (zupd (x (sample_cpu (DRAM_BASE + 8) 7)) 7 (as_i32 v))
                    (set_mmu (with_memory sample_mmu mem) (sample_cpu (DRAM_BASE + 8) 7))).
Proof.
  apply (@execute_amo_manual release_rv64 (sample_cpu (DRAM_BASE + 8) 7) AMOMAXW sample_R 4 _ eq_refl eq_refl).
  split; [split; [apply sample_mmu_ok | by apply sample_access] | split; by apply sample_store].
Defined.

Lemma expansion_well_formed_witness :
  exists s, @inline_sequence release_rv64 empty_registry (InstrR AMOXORW sample_R) Bit64 VirtualRegisterAllocator_new =
    Ok (s, VirtualRegisterAllocator_new) /\ expansion_ok (InstrR AMOXORW sample_R) s.
Proof.
  apply (@expansion_well_formed release_rv64 empty_registry); try reflexivity. by exists (replicate 80 false).
Defined.

Lemma trace_cycles_are_expansion_witness :
  exists cs c2 s, @Instruction_trace release_rv64 empty_registry (InstrR DIV sample_R) (sample_cpu (-7) 2) = Ok (cs, c2) /\
    @expand release_rv64 empty_registry (InstrR DIV sample_R) (sample_cpu (-7) 2) = Ok (s, sample_cpu (-7) 2) /\
    length cs = length s.
Proof.
  pose proof (sample_ok (-7) 2 ltac:(done) ltac:(done)) as Hok.
  destruct (@Instruction_trace release_rv64 empty_registry (InstrR DIV sample_R) (sample_cpu (-7) 2)) as [[cs c2]| |] eqn:Ht;
    [|exfalso; revert Ht; vm_compute; discriminate..].
  destruct (@trace_cycles_are_expansion release_rv64 empty_registry (sample_cpu (-7) 2) c2 (InstrR DIV sample_R) cs eq_refl
              Hok eq_refl eq_refl ltac:(cbn; intros _; clear; discriminate) Ht) as (s & Hs & Hlen & _).
  exists cs, c2, s. exact (conj eq_refl (conj Hs Hlen)).
Defined.

Lemma division_advice_sound_witness :
  accepts_only (sample_cpu (-7) 2) 7 (-3) (@advised_run release_rv64 empty_registry (InstrR DIV sample_R) (as_u64 (-3)) 1 (sample_cpu (-7) 2)).
Proof.
  apply (@division_advice_sound release_rv64 empty_registry (sample_cpu (-7) 2) DIV _ sample_R (as_u64 (-3)) 1
           (sample_ok (-7) 2 ltac:(done) ltac:(done)) (or_introl eq_refl) eq_refl eq_refl).
Defined.
