(* ===== verification/Field.v ===== *)
(** * Fields, loops and multilinear functions

    The interface [JoltField] of the proof system ([jolt-core/src/field/mod.rs]):
    the ring operations and the conversions from machine integers, which are one
    ring homomorphism from the integers.  The concrete field (the scalar field of
    BN254) is a library; its instance here is the ring of integers modulo that
    prime.  Then [for] loops as folds and the closure properties of multilinear
    functions of a challenge vector. *)

From Stdlib Require Import ZArith Lia Ring ZmodBase Zmod.
From stdpp Require Import base tactics.
From S2P Require Import Prelude.
Local Open Scope Z_scope.

(** ** The interface *)

Class JoltField (F : Type) := {
  fzero : F;
  fone : F;
  fadd : F -> F -> F;
  fmul : F -> F -> F;
  fsub : F -> F -> F;
  fopp : F -> F;
  (** [from_u64], [from_u128], [from_i128], [from_bool]: one map on integers. *)
  of_Z : Z -> F;
  F_ring : ring_theory fzero fone fadd fmul fsub fopp eq;
  of_Z_1 : of_Z 1 = fone;
  of_Z_add a b : of_Z (a + b) = fadd (of_Z a) (of_Z b);
  of_Z_mul a b : of_Z (a * b) = fmul (of_Z a) (of_Z b)
}.

Declare Scope jolt_scope.
Delimit Scope jolt_scope with J.
Bind Scope jolt_scope with JoltField.
Notation "0" := fzero : jolt_scope.
Notation "1" := fone : jolt_scope.
Infix "+" := fadd : jolt_scope.
Infix "*" := fmul : jolt_scope.
Infix "-" := fsub : jolt_scope.
Notation "- x" := (fopp x) : jolt_scope.

(** The integers, and the scalar field of BN254. *)
#[export, refine] Instance Z_field : JoltField Z := {
  fzero := 0; fone := 1; fadd := Z.add; fmul := Z.mul; fsub := Z.sub; fopp := Z.opp;
  of_Z := fun z => z
}.
Proof. 1: exact Zth. all: reflexivity. Defined.

Definition bn254_modulus : Z :=
  21888242871839275222246405745257275088548364400416034343698204186575808495617.

#[export, refine] Instance Fr_field : JoltField (Zmod bn254_modulus) := {
  fzero := Zmod.zero; fone := Zmod.one; fadd := Zmod.add; fmul := Zmod.mul; fsub := Zmod.sub;
  fopp := Zmod.opp; of_Z := Zmod.of_Z bn254_modulus
}.
Proof.
  - apply Zmod.ring_theory.
  - reflexivity.
  - apply Zmod.of_Z_add.
  - apply Zmod.of_Z_mul.
Defined.

(** ** Loops

    [for i in start..start+n { s = body(i, s) }] *)
Fixpoint for_range {A : Type} (n : nat) (i : Z) (s : A) (body : Z -> A -> A) : A :=
  match n with
  | O => s
  | S n' => for_range n' (i + 1) (body i s) body
  end.

Lemma for_range_inv {A} (P : Z -> A -> Prop) body n : forall i (s : A),
  P i s ->
  (forall k a, i <= k < i + Z.of_nat n -> P k a -> P (k + 1) (body k a)) ->
  P (i + Z.of_nat n) (for_range n i s body).
Proof.
  induction n as [|n IH]; intros i s H0 Hs; cbn [for_range].
  - by rewrite Z.add_0_r.
  - replace (i + Z.of_nat (S n)) with ((i + 1) + Z.of_nat n) by lia.
    apply IH; [apply Hs; [lia|done]|]. intros k a Hk. apply Hs. lia.
Qed.

(** Two loops in step. *)
Lemma for_range_rel {A B} (R : Z -> A -> B -> Prop) f g n : forall i (a : A) (b : B),
  R i a b ->
  (forall k a b, i <= k < i + Z.of_nat n -> R k a b -> R (k + 1) (f k a) (g k b)) ->
  R (i + Z.of_nat n) (for_range n i a f) (for_range n i b g).
Proof.
  induction n as [|n IH]; intros i a b H0 Hs; cbn [for_range].
  - by rewrite Z.add_0_r.
  - replace (i + Z.of_nat (S n)) with ((i + 1) + Z.of_nat n) by lia.
    apply IH; [apply Hs; [lia|done]|]. intros k a' b' Hk. apply Hs. lia.
Qed.

(** The loop as a function of a parameter [r]. *)
Lemma for_range_param {R A} (P : Z -> (R -> A) -> Prop) (body : R -> Z -> A -> A) n : forall i (s : R -> A),
  P i s ->
  (forall k f, i <= k < i + Z.of_nat n -> P k f -> P (k + 1) (fun r => body r k (f r))) ->
  P (i + Z.of_nat n) (fun r => for_range n i (s r) (body r)).
Proof.
  induction n as [|n IH]; intros i s H0 Hs; cbn [for_range].
  - by rewrite Z.add_0_r.
  - replace (i + Z.of_nat (S n)) with ((i + 1) + Z.of_nat n) by lia.
    apply (IH (i + 1) (fun r => body r i (s r))); [apply Hs; [lia|done]|]. intros k f Hk. apply Hs. lia.
Qed.

Section Field.
Context {F : Type} `{JF : JoltField F}.

Add Ring F_ring_tac : F_ring.

Lemma of_Z_0 : of_Z 0 = fzero.
Proof.
  assert (H : (of_Z 0 = of_Z 0 + of_Z 0)%J) by (by rewrite <- of_Z_add).
  transitivity (of_Z 0 - of_Z 0)%J; [|ring]. rewrite H at 2. ring.
Qed.

Lemma of_Z_opp a : of_Z (- a) = fopp (of_Z a).
Proof.
  transitivity (of_Z (- a) + of_Z a - of_Z a)%J; [ring|].
  rewrite <- of_Z_add. replace (- a + a) with 0 by lia. rewrite of_Z_0. ring.
Qed.

Lemma of_Z_sub a b : of_Z (a - b) = fsub (of_Z a) (of_Z b).
Proof. unfold Z.sub. rewrite of_Z_add, of_Z_opp. ring. Qed.

(** ** Multilinear functions

    [ml S f]: [f] reads only the coordinates in [S] and is affine in each. *)
Definition affine_at (i : Z) (f : (Z -> F) -> F) : Prop :=
  forall r t, f (zupd r i t) = (f (zupd r i fzero) + t * (f (zupd r i fone) - f (zupd r i fzero)))%J.

Definition reads_only (S : Z -> Prop) (f : (Z -> F) -> F) : Prop :=
  forall r r', (forall i, S i -> r i = r' i) -> f r = f r'.

Definition ml (S : Z -> Prop) (f : (Z -> F) -> F) : Prop :=
  reads_only S f /\ forall i, affine_at i f.

Lemma reads_only_indep S f i r t t' : reads_only S f -> ~ S i -> f (zupd r i t) = f (zupd r i t').
Proof. intros Hr Hi. apply Hr. intros j Hj. assert (j <> i) by (intros ->; done). by rewrite !zupd_other. Qed.

Lemma ml_weaken (S T : Z -> Prop) f : ml S f -> (forall i, S i -> T i) -> ml T f.
Proof. intros [H1 H2] HST. split; [|done]. intros r r' H. apply H1. auto. Qed.

Lemma ml_const (S : Z -> Prop) c : ml S (fun _ => c).
Proof. split; [done|]. intros i r t. ring. Qed.

Lemma ml_var (S : Z -> Prop) j : S j -> ml S (fun r => r j).
Proof.
  intros Hj. split; [by intros r r' H; apply H|]. intros i r t.
  destruct (Z.eq_dec j i) as [->|E]; [rewrite !zupd_same|rewrite !zupd_other by done]; ring.
Qed.

Lemma ml_add S f g : ml S f -> ml S g -> ml S (fun r => (f r + g r)%J).
Proof.
  intros [Hf1 Hf2] [Hg1 Hg2]. split.
  - intros r r' H. by rewrite (Hf1 r r' H), (Hg1 r r' H).
  - intros i r t. rewrite (Hf2 i r t), (Hg2 i r t). ring.
Qed.

Lemma ml_sub S f g : ml S f -> ml S g -> ml S (fun r => (f r - g r)%J).
Proof.
  intros [Hf1 Hf2] [Hg1 Hg2]. split.
  - intros r r' H. by rewrite (Hf1 r r' H), (Hg1 r r' H).
  - intros i r t. rewrite (Hf2 i r t), (Hg2 i r t). ring.
Qed.

Lemma ml_scale S c f : ml S f -> ml S (fun r => (c * f r)%J).
Proof.
  intros [Hf1 Hf2]. split.
  - intros r r' H. by rewrite (Hf1 r r' H).
  - intros i r t. rewrite (Hf2 i r t). ring.
Qed.

(** A product of functions of disjoint sets of coordinates. *)
Lemma ml_mul (S T U : Z -> Prop) f g :
  ml S f -> ml T g -> (forall i, ~ S i \/ ~ T i) -> (forall i, S i \/ T i -> U i) ->
  ml U (fun r => (f r * g r)%J).
Proof.
  intros [Hf1 Hf2] [Hg1 Hg2] Hd HU. split.
  - intros r r' H. rewrite (Hf1 r r'), (Hg1 r r'); auto.
  - intros i r t. destruct (Hd i) as [Hi|Hi].
    + rewrite (reads_only_indep S f i r t fzero), (reads_only_indep S f i r fone fzero) by done.
      rewrite (Hg2 i r t). ring.
    + rewrite (reads_only_indep T g i r t fzero), (reads_only_indep T g i r fone fzero) by done.
      rewrite (Hf2 i r t). ring.
Qed.

(** ** The multilinear extension of a table

    [mle n i idx e r] folds the variables [r i], ..., [r (i+n-1)], the most
    significant first, over the entries whose index starts with the bits of
    [idx]: the sum over all [b < 2^n] of [eq(r, b) * e (idx * 2^n + b)]. *)
Fixpoint mle (n : nat) (i idx : Z) (e : Z -> F) (r : Z -> F) : F :=
  match n with
  | O => e idx
  | S n' => ((1 - r i) * mle n' (i + 1) (2 * idx) e r + r i * mle n' (i + 1) (2 * idx + 1) e r)%J
  end.

(** The point of the hypercube with the bits of [idx], most significant first. *)
Definition bits_point (len idx : Z) (i : Z) : F := of_Z (Z.b2z (Z.testbit idx (len - 1 - i))).

Lemma bits_point_of_Z (len idx i : Z) :
  bits_point len idx i = of_Z (if Z.testbit idx (len - 1 - i) then 1%Z else 0%Z).
Proof. unfold bits_point. by destruct (Z.testbit _ _). Qed.

Lemma bits_point_snoc (k idx : Z) (b : bool) (i : Z) : 0 <= i < k ->
  bits_point (k + 1) (2 * idx + Z.b2z b) i = bits_point k idx i.
Proof.
  intros Hi. unfold bits_point. do 2 f_equal. replace (k + 1 - 1 - i) with (Z.succ (k - 1 - i)) by lia.
  rewrite <- Z.add_1_r, <- Z.shiftr_spec by lia. f_equal. rewrite Z.shiftr_div_pow2 by lia.
  change (2 ^ 1) with 2. rewrite Z.add_comm, Z.mul_comm, Z.div_add by lia. by destruct b.
Qed.

Lemma mle_ext (e : Z -> F) n : forall i idx (r r' : Z -> F),
  (forall j, i <= j -> r j = r' j) -> mle n i idx e r = mle n i idx e r'.
Proof.
  induction n as [|n IH]; intros i idx r r' H; cbn [mle]; [done|].
  rewrite (H i) by lia. rewrite !(IH (i + 1) _ r r') by (intros; apply H; lia). done.
Qed.

(** A multilinear function is the extension of its values on the hypercube. *)
Lemma ml_is_mle (f : (Z -> F) -> F) (e : Z -> F) (len : nat)
  (Hml : ml (fun i => 0 <= i < Z.of_nat len) f)
  (Hf : forall idx, 0 <= idx < 2 ^ Z.of_nat len -> f (bits_point (Z.of_nat len) idx) = e idx) :
  forall n k idx r,
    (n + k = len)%nat -> 0 <= idx < 2 ^ Z.of_nat k ->
    (forall i, 0 <= i < Z.of_nat k -> r i = bits_point (Z.of_nat k) idx i) ->
    f r = mle n (Z.of_nat k) idx e r.
Proof.
  destruct Hml as [Hr Ha]. induction n as [|n IH]; intros k idx r Hk Hidx Hb; cbn [mle].
  - assert (k = len) as -> by lia. rewrite <- Hf by done. by apply Hr.
  - assert (H1 : forall b, (b = false \/ b = true) ->
       mle n (Z.of_nat k + 1) (2 * idx + Z.b2z b) e r =
       f (zupd r (Z.of_nat k) (of_Z (Z.b2z b)))).
    { intros b _. rewrite (mle_ext e n _ _ r (zupd r (Z.of_nat k) (of_Z (Z.b2z b))))
        by (intros; rewrite zupd_other by lia; done).
      replace (Z.of_nat k + 1) with (Z.of_nat (S k)) by lia. symmetry. apply IH; [lia| |].
      { rewrite Nat2Z.inj_succ, Z.pow_succ_r by lia. destruct b; cbn; lia. }
      intros i Hi. rewrite Nat2Z.inj_succ, <- Z.add_1_r. destruct (Z.eq_dec i (Z.of_nat k)) as [->|E].
      - rewrite zupd_same. unfold bits_point. replace (Z.of_nat k + 1 - 1 - Z.of_nat k) with 0 by lia.
        by rewrite Z.add_comm, Z.add_b2z_double_bit0.
      - rewrite zupd_other by done. rewrite Hb by lia. by rewrite bits_point_snoc by lia. }
    pose proof (H1 false ltac:(auto)) as E0. pose proof (H1 true ltac:(auto)) as E1.
    cbn [Z.b2z] in E0, E1. rewrite Z.add_0_r in E0. rewrite E0, E1, of_Z_0, of_Z_1.
    assert (E : f r = f (zupd r (Z.of_nat k) (r (Z.of_nat k)))).
    { apply Hr. intros i _. destruct (Z.eq_dec i (Z.of_nat k)) as [->|Ei]; [by rewrite zupd_same|by rewrite zupd_other]. }
    rewrite E at 1. rewrite (Ha (Z.of_nat k) r). ring.
Qed.

End Field.
