(* ===== verification/LookupTables.v ===== *)
(** * The lookup tables of the proof system

    [jolt-core/src/zkvm/lookup_table/*.rs]: for every table the entry at an index
    ([materialize_entry]) and the evaluation of its multilinear extension
    ([evaluate_mle]), with the bit helpers of [jolt-core/src/utils].

    The const generic [XLEN] is the word size [xl] (the crate is built with 32 or
    64).  The challenge vector [r], whose length [2 * XLEN] the code asserts, is a
    function on indices. *)

From Stdlib Require Import ZArith Lia List Bool.
From stdpp Require Import base list.
From S2P Require Import Prelude Words Types Field Exec.
Import ListNotations.
Local Open Scope Z_scope.
Local Open Scope rust_scope.

Definition WIDTH (xl : Xlen) : Z := match xl with Bit32 => 32 | Bit64 => 64 end.

(** [bool::into()] *)
Definition bool_u64 (b : bool) : Z := if b then 1 else 0.

(** ** [utils/mod.rs] *)

(** [(x | (x >> n)) & mask] and [(x | (x << n)) & mask] on [u128]. *)
Definition fold_right_bits (x n mask : Z) : Z := Z.land (Z.lor x (Z.shiftr x n)) mask.
Definition fold_left_bits (x n mask : Z) : Z := Z.land (Z.lor x (as_u128 (Z.shiftl x n))) mask.

(** Compact the even bits of [x] into its lower half, and the inverse. *)
Definition compact_bits (x : Z) : Z :=
  let x := fold_right_bits x 1 0x33333333333333333333333333333333 in
  let x := fold_right_bits x 2 0x0F0F0F0F0F0F0F0F0F0F0F0F0F0F0F0F in
  let x := fold_right_bits x 4 0x00FF00FF00FF00FF00FF00FF00FF00FF in
  let x := fold_right_bits x 8 0x0000FFFF0000FFFF0000FFFF0000FFFF in
  let x := fold_right_bits x 16 0x00000000FFFFFFFF00000000FFFFFFFF in
  fold_right_bits x 32 0x0000000000000000FFFFFFFFFFFFFFFF.

Definition spread_bits (x : Z) : Z :=
  let x := fold_left_bits x 32 0x00000000FFFFFFFF00000000FFFFFFFF in
  let x := fold_left_bits x 16 0x0000FFFF0000FFFF0000FFFF0000FFFF in
  let x := fold_left_bits x 8 0x00FF00FF00FF00FF00FF00FF00FF00FF in
  let x := fold_left_bits x 4 0x0F0F0F0F0F0F0F0F0F0F0F0F0F0F0F0F in
  let x := fold_left_bits x 2 0x33333333333333333333333333333333 in
  fold_left_bits x 1 0x55555555555555555555555555555555.

Definition uninterleave_bits (val : Z) : Z * Z :=
  (as_u64 (compact_bits (Z.land (Z.shiftr val 1) 0x55555555555555555555555555555555)),
   as_u64 (compact_bits (Z.land val 0x55555555555555555555555555555555))).

Definition interleave_bits (even_bits odd_bits : Z) : Z :=
  Z.lor (as_u128 (Z.shiftl (spread_bits even_bits) 1)) (spread_bits odd_bits).

(** [utils/lookup_bits.rs] *)
Record LookupBits := mkLookupBits { lb_bits : Z; lb_len : Z }.

Definition LookupBits_new (bits len : Z) : LookupBits :=
  mkLookupBits (if len <? 128 then bits mod 2 ^ len else bits) len.

Definition pop_msb (b : LookupBits) : Z * LookupBits :=
  (Z.land (Z.shiftr (lb_bits b) (lb_len b - 1)) 1,
   mkLookupBits (lb_bits b mod 2 ^ (lb_len b - 1)) (lb_len b - 1)).

(** [leading_ones() == 0]: the most significant bit is clear. *)
Definition no_leading_ones (b : LookupBits) : bool := Z.land (Z.shiftr (lb_bits b) (lb_len b - 1)) 1 =? 0.

(** [rotate_right] on [u64]. *)
Definition rotate_right_u64 (z n : Z) : Z :=
  as_u64 (Z.lor (Z.shiftr z (n mod 64)) (Z.shiftl z ((64 - n mod 64) mod 64))).

(** ** Entries *)

Section Entries.
Context `{Build} (xl : Xlen).

Definition RangeCheckTable_materialize_entry (index : Z) : Z :=
  match xl with Bit64 => as_u64 index | Bit32 => as_u64 (index mod 2 ^ 32) end.

Definition AndTable_materialize_entry (index : Z) : Z :=
  let (x, y) := uninterleave_bits index in Z.land x y.

Definition AndnTable_materialize_entry (index : Z) : Z :=
  let (x, y) := uninterleave_bits index in Z.land x (as_u64 (Z.lnot y)).

Definition OrTable_materialize_entry (index : Z) : Z :=
  let (x, y) := uninterleave_bits index in Z.lor x y.

Definition XorTable_materialize_entry (index : Z) : Z :=
  let (x, y) := uninterleave_bits index in Z.lxor x y.

Definition EqualTable_materialize_entry (index : Z) : Z :=
  let (x, y) := uninterleave_bits index in bool_u64 (x =? y).

Definition NotEqualTable_materialize_entry (index : Z) : Z :=
  let (x, y) := uninterleave_bits index in bool_u64 (negb (x =? y)).

(** [x as iN] for the word size. *)
Definition as_signed_word (x : Z) : Z := match xl with Bit32 => as_i32 x | Bit64 => as_i64 x end.

Definition SignedLessThanTable_materialize_entry (index : Z) : Z :=
  let (x, y) := uninterleave_bits index in bool_u64 (as_signed_word x <? as_signed_word y).

Definition SignedGreaterThanEqualTable_materialize_entry (index : Z) : Z :=
  let (x, y) := uninterleave_bits index in bool_u64 (as_signed_word x >=? as_signed_word y).

Definition UnsignedLessThanTable_materialize_entry (index : Z) : Z :=
  let (x, y) := uninterleave_bits index in bool_u64 (x <? y).

Definition UnsignedGreaterThanEqualTable_materialize_entry (index : Z) : Z :=
  let (x, y) := uninterleave_bits index in bool_u64 (x >=? y).

Definition UnsignedLessThanEqualTable_materialize_entry (index : Z) : Z :=
  let (x, y) := uninterleave_bits index in bool_u64 (x <=? y).

Definition MovsignTable_materialize_entry (index : Z) : Z :=
  if negb (Z.land index (2 ^ (2 * WIDTH xl - 1)) =? 0) then as_u64 (2 ^ WIDTH xl - 1) else 0.

Definition UpperWordTable_materialize_entry (index : Z) : Z := as_u64 (Z.shiftr index (WIDTH xl)).

Definition ValidSignedRemainderTable_materialize_entry (index : Z) : Z :=
  let (x, y) := uninterleave_bits index in
  let remainder := as_signed_word x in
  let divisor := as_signed_word y in
  if (remainder =? 0) || (divisor =? 0) then 1
  else
    let remainder_sign := Z.shiftr remainder (WIDTH xl - 1) in
    let divisor_sign := Z.shiftr divisor (WIDTH xl - 1) in
    bool_u64 ((Z.abs remainder <? Z.abs divisor) && (remainder_sign =? divisor_sign)).

Definition ValidUnsignedRemainderTable_materialize_entry (index : Z) : Z :=
  let (remainder, divisor) := uninterleave_bits index in
  bool_u64 ((divisor =? 0) || (remainder <? divisor)).

(** The 64-bit word size has no arm. *)
Definition ValidDiv0Table_materialize_entry (index : Z) : Res Z :=
  let (divisor, quotient) := uninterleave_bits index in
  if divisor =? 0 then
    match xl with
    | Bit32 => Ok (bool_u64 (quotient =? u32_MAX))
    | Bit64 => Panic
    end
  else Ok 1.

Definition HalfwordAlignmentTable_materialize_entry (index : Z) : Z := bool_u64 (index mod 2 =? 0).
Definition WordAlignmentTable_materialize_entry (index : Z) : Z := bool_u64 (index mod 4 =? 0).

Definition LowerHalfWordTable_materialize_entry (index : Z) : Z :=
  let half_word_size := WIDTH xl / 2 in as_u64 (index mod 2 ^ half_word_size).

Definition SignExtendHalfWordTable_materialize_entry (index : Z) : Z :=
  let half_word_size := WIDTH xl / 2 in
  let lower_half := as_u64 (index mod 2 ^ half_word_size) in
  let sign_bit := Z.land (Z.shiftr lower_half (half_word_size - 1)) 1 in
  if sign_bit =? 1 then Z.lor lower_half (as_u64 (Z.shiftl (2 ^ half_word_size - 1) half_word_size))
  else lower_half.

Definition Pow2Table_materialize_entry (index : Z) : Z := 2 ^ (index mod WIDTH xl).
Definition Pow2WTable_materialize_entry (index : Z) : Z := 2 ^ (index mod 32).

Definition ShiftRightBitmaskTable_materialize_entry (index : Z) : Z :=
  let shift := index mod WIDTH xl in
  let ones := as_u64 (2 ^ (WIDTH xl - shift) - 1) in
  as_u64 (Z.shiftl ones shift).

Definition VirtualRev8WTable_materialize_entry (index : Z) : Z := rev8w (as_u64 index).

(** The loop of the right shifts over the bits of [x] and [y], most significant
    first; [entry] and [sign_extension] are [u64] sums that cannot overflow. *)
Definition shift_step (i : Z) (s : Z * Z * LookupBits * LookupBits) : Z * Z * LookupBits * LookupBits :=
  let '(entry, sign_extension, x, y) := s in
  let '(x_i, x) := pop_msb x in
  let '(y_i, y) := pop_msb y in
  let entry := entry * (1 + y_i) + x_i * y_i in
  let sign_extension := if i =? 0 then sign_extension else sign_extension + 2 ^ i * (1 - y_i) in
  (entry, sign_extension, x, y).

Definition shift_loop (x y : Z) : Z * Z * LookupBits * LookupBits :=
  for_range (Z.to_nat (WIDTH xl)) 0 (0, 0, LookupBits_new x (WIDTH xl), LookupBits_new y (WIDTH xl)) shift_step.

Definition srl_entry (x y : Z) : Z := let '(entry, _, _, _) := shift_loop x y in entry.

Definition sra_entry (x y : Z) : Z :=
  let sign_bit := if no_leading_ones (LookupBits_new x (WIDTH xl)) then 0 else 1 in
  let '(entry, sign_extension, _, _) := shift_loop x y in
  entry + sign_bit * sign_extension.

Definition VirtualSRLTable_materialize_entry (index : Z) : Z :=
  let (x, y) := uninterleave_bits index in srl_entry x y.

Definition VirtualSRATable_materialize_entry (index : Z) : Z :=
  let (x, y) := uninterleave_bits index in sra_entry x y.

(** One step of the rotation loop at bit [i]; the last doubling of
    [prod_one_plus_y] overflows when every bit of [y] is set. *)
Definition rotr_step (x_bits y_bits i : Z) (s : Res (Z * Z * Z)) : Res (Z * Z * Z) :=
  let? s := s in
  let '(prod_one_plus_y, first_sum, second_sum) := s in
  let x := Z.land (Z.shiftr x_bits i) 1 in
  let y := Z.land (Z.shiftr y_bits i) 1 in
  let first_sum := first_sum * (1 + y) + x * y in
  let second_sum := second_sum + x * (1 - y) * prod_one_plus_y * 2 ^ i in
  let? prod_one_plus_y := mul_u64 prod_one_plus_y (1 + y) in
  Ok (prod_one_plus_y, first_sum, second_sum).

(** [(0..XLEN).rev().skip(k)] *)
Definition rotr_entry (skip x_bits y_bits : Z) : Res Z :=
  let? s := for_range (Z.to_nat (WIDTH xl - skip)) skip (Ok (1, 0, 0))
              (fun k => rotr_step x_bits y_bits (WIDTH xl - 1 - k)) in
  let '(_, first_sum, second_sum) := s in
  Ok (first_sum + second_sum).

Definition VirtualRotrTable_materialize_entry (index : Z) : Res Z :=
  let (x_bits, y_bits) := uninterleave_bits index in rotr_entry 0 x_bits y_bits.

Definition VirtualRotrWTable_materialize_entry (index : Z) : Res Z :=
  let (x_bits, y_bits) := uninterleave_bits index in rotr_entry (WIDTH xl / 2) x_bits y_bits.

Definition VirtualChangeDivisorTable_materialize_entry (index : Z) : Z :=
  let (remainder, divisor) := uninterleave_bits index in
  match xl with
  | Bit32 =>
      let remainder := as_i32 remainder in
      let divisor := as_i32 divisor in
      if (remainder =? i32_MIN) && (divisor =? -1) then 1 else as_u32 divisor
  | Bit64 =>
      let remainder := as_i64 remainder in
      let divisor := as_i64 divisor in
      if (remainder =? i64_MIN) && (divisor =? -1) then 1 else as_u64 divisor
  end.

Definition VirtualChangeDivisorWTable_materialize_entry (index : Z) : Res Z :=
  let (remainder, divisor) := uninterleave_bits index in
  match xl with
  | Bit32 => Panic
  | Bit64 =>
      let remainder := as_i32 (as_u32 remainder) in
      let divisor := as_i32 (as_u32 divisor) in
      Ok (if (remainder =? i32_MIN) && (divisor =? -1) then 1 else as_u64 divisor)
  end.

Definition SubTable_materialize_entry (index : Z) : Z := as_u64 (index mod 2 ^ WIDTH xl).

Definition MulUNoOverflowTable_materialize_entry (index : Z) : Z :=
  bool_u64 (Z.shiftr index (WIDTH xl) =? 0).

Definition VirtualXORROTTable_materialize_entry (ROTATION index : Z) : Z :=
  let (x, y) := uninterleave_bits index in
  match xl with
  | Bit32 => rotate_right_u32 (Z.lxor (as_u32 x) (as_u32 y)) ROTATION
  | Bit64 => rotate_right_u64 (Z.lxor x y) ROTATION
  end.

Definition VirtualXORROTWTable_materialize_entry (ROTATION index : Z) : Res Z :=
  match xl with
  | Bit32 => Panic
  | Bit64 =>
      let (x, y) := uninterleave_bits index in
      Ok (rotate_right_u32 (Z.lxor (as_u32 x) (as_u32 y)) ROTATION)
  end.

End Entries.

(** ** Multilinear extensions *)

Section Extensions.
Context {F : Type} `{JoltField F} (xl : Xlen).
Local Open Scope jolt_scope.

(** [F::from_u64(1 << k)] *)
Definition pow2_F (k : Z) : F := of_Z (2 ^ k)%Z.

Definition XLEN_nat : nat := Z.to_nat (WIDTH xl).
Definition HALF_nat : nat := Z.to_nat (WIDTH xl / 2).

(** [for i in 0..n { result += term(i) }] *)
Definition sum_range (n : nat) (term : Z -> F) : F := for_range n 0%Z 0 (fun i result => result + term i).
(** [for i in 0..n { result *= factor(i) }] *)
Definition prod_range (n : nat) (factor : Z -> F) : F := for_range n 0%Z 1 (fun i result => result * factor i).

Definition RangeCheckTable_evaluate_mle (r : Z -> F) : F :=
  sum_range XLEN_nat (fun i => pow2_F (WIDTH xl - 1 - i) * r (WIDTH xl + i)%Z).

(** The bits [x_i] and [y_i] of the two operands. *)
Definition r_x (r : Z -> F) (i : Z) : F := r (2 * i)%Z.
Definition r_y (r : Z -> F) (i : Z) : F := r (2 * i + 1)%Z.

Definition AndTable_evaluate_mle (r : Z -> F) : F :=
  sum_range XLEN_nat (fun i => pow2_F (WIDTH xl - 1 - i) * r_x r i * r_y r i).

Definition AndnTable_evaluate_mle (r : Z -> F) : F :=
  sum_range XLEN_nat (fun i => pow2_F (WIDTH xl - 1 - i) * r_x r i * (1 - r_y r i)).

Definition OrTable_evaluate_mle (r : Z -> F) : F :=
  sum_range XLEN_nat (fun i => pow2_F (WIDTH xl - 1 - i) * (r_x r i + r_y r i - r_x r i * r_y r i)).

(** [(1 - x) * y + x * (1 - y)] and [x * y + (1 - x) * (1 - y)] *)
Definition xor_F (x y : F) : F := (1 - x) * y + x * (1 - y).
Definition eq_F (x y : F) : F := x * y + (1 - x) * (1 - y).

Definition XorTable_evaluate_mle (r : Z -> F) : F :=
  sum_range XLEN_nat (fun i => pow2_F (WIDTH xl - 1 - i) * xor_F (r_x r i) (r_y r i)).

Definition EqualTable_evaluate_mle (r : Z -> F) : F :=
  prod_range XLEN_nat (fun i => eq_F (r_x r i) (r_y r i)).

Definition NotEqualTable_evaluate_mle (r : Z -> F) : F := 1 - EqualTable_evaluate_mle r.

(** The pair [(lt, eq)] of the comparison loops. *)
Definition lt_eq_step (r : Z -> F) (i : Z) (s : F * F) : F * F :=
  let lt := fst s in let eq := snd s in
  (lt + (1 - r_x r i) * r_y r i * eq, eq * eq_F (r_x r i) (r_y r i)).

Definition lt_eq_loop (r : Z -> F) : F * F := for_range XLEN_nat 0%Z (0, 1) (lt_eq_step r).

Definition SignedLessThanTable_evaluate_mle (r : Z -> F) : F :=
  r 0%Z - r 1%Z + fst (lt_eq_loop r).

Definition SignedGreaterThanEqualTable_evaluate_mle (r : Z -> F) : F :=
  1 - SignedLessThanTable_evaluate_mle r.

Definition UnsignedLessThanTable_evaluate_mle (r : Z -> F) : F := fst (lt_eq_loop r).

Definition UnsignedGreaterThanEqualTable_evaluate_mle (r : Z -> F) : F :=
  1 - UnsignedLessThanTable_evaluate_mle r.

Definition UnsignedLessThanEqualTable_evaluate_mle (r : Z -> F) : F :=
  fst (lt_eq_loop r) + snd (lt_eq_loop r).

Definition MovsignTable_evaluate_mle (r : Z -> F) : F := r 0%Z * of_Z (2 ^ WIDTH xl - 1)%Z.

Definition UpperWordTable_evaluate_mle (r : Z -> F) : F :=
  sum_range XLEN_nat (fun i => pow2_F (WIDTH xl - 1 - i) * r i).

(** State of the signed remainder loop. *)
Record RemainderState := mkRemainderState {
  remainder_is_zero : F;
  divisor_is_zero : F;
  positive_remainder_equals_divisor : F;
  positive_remainder_less_than_divisor : F;
  negative_divisor_equals_remainder : F;
  negative_divisor_greater_than_remainder : F
}.

Definition remainder_step (r : Z -> F) (i : Z) (s : RemainderState) : RemainderState :=
  let x_i := r_x r i in
  let y_i := r_y r i in
  mkRemainderState
    (remainder_is_zero s * (1 - x_i))
    (divisor_is_zero s * (1 - y_i))
    (positive_remainder_equals_divisor s * eq_F x_i y_i)
    (if (i =? 1)%Z then positive_remainder_less_than_divisor s * ((1 - x_i) * y_i)
     else positive_remainder_less_than_divisor s + positive_remainder_equals_divisor s * (1 - x_i) * y_i)
    (negative_divisor_equals_remainder s * eq_F x_i y_i)
    (if (i =? 1)%Z then negative_divisor_greater_than_remainder s * (x_i * (1 - y_i))
     else negative_divisor_greater_than_remainder s + negative_divisor_equals_remainder s * x_i * (1 - y_i)).

Definition remainder_loop (r : Z -> F) : RemainderState :=
  for_range (Nat.pred XLEN_nat) 1%Z
    (mkRemainderState (1 - r 0%Z) (1 - r 1%Z) ((1 - r 0%Z) * (1 - r 1%Z)) ((1 - r 0%Z) * (1 - r 1%Z))
       (r 0%Z * r 1%Z) (r 0%Z * r 1%Z)) (remainder_step r).

Definition ValidSignedRemainderTable_evaluate_mle (r : Z -> F) : F :=
  let s := remainder_loop r in
  positive_remainder_less_than_divisor s + negative_divisor_greater_than_remainder s
    + r 1%Z * remainder_is_zero s + divisor_is_zero s.

(** The loop state is [(divisor_is_zero, (lt, eq))]. *)
Definition unsigned_remainder_step (r : Z -> F) (i : Z) (s : F * (F * F)) : F * (F * F) :=
  let divisor_is_zero := fst s in
  (divisor_is_zero * (1 - r_y r i), lt_eq_step r i (snd s)).

Definition ValidUnsignedRemainderTable_evaluate_mle (r : Z -> F) : F :=
  let s := for_range XLEN_nat 0%Z (1, (0, 1)) (unsigned_remainder_step r) in
  fst (snd s) + fst s.

Definition valid_div0_step (r : Z -> F) (i : Z) (s : F * F) : F * F :=
  let divisor_is_zero := fst s in let is_valid_div_by_zero := snd s in
  (divisor_is_zero * (1 - r_x r i), is_valid_div_by_zero * ((1 - r_x r i) * r_y r i)).

Definition ValidDiv0Table_evaluate_mle (r : Z -> F) : F :=
  let s := for_range XLEN_nat 0%Z (1, 1) (valid_div0_step r) in
  1 - fst s + snd s.

Definition HalfwordAlignmentTable_evaluate_mle (r : Z -> F) : F := 1 - r (2 * WIDTH xl - 1)%Z.

Definition WordAlignmentTable_evaluate_mle (r : Z -> F) : F :=
  (1 - r (2 * WIDTH xl - 1)%Z) * (1 - r (2 * WIDTH xl - 2)%Z).

Definition LowerHalfWordTable_evaluate_mle (r : Z -> F) : F :=
  sum_range HALF_nat (fun i => pow2_F (WIDTH xl / 2 - 1 - i) * r (WIDTH xl + WIDTH xl / 2 + i)%Z).

Definition SignExtendHalfWordTable_evaluate_mle (r : Z -> F) : F :=
  let lower_half := sum_range HALF_nat (fun i => pow2_F (WIDTH xl / 2 - 1 - i) * r (WIDTH xl + WIDTH xl / 2 + i)%Z) in
  let sign_bit := r (WIDTH xl + WIDTH xl / 2)%Z in
  let upper_half := sum_range HALF_nat (fun i => pow2_F (WIDTH xl / 2 - 1 - i) * sign_bit) in
  lower_half + upper_half * pow2_F (WIDTH xl / 2).

(** [XLEN.log_2()] *)
Definition log_w : Z := Z.log2 (WIDTH xl).

Definition Pow2Table_evaluate_mle (r : Z -> F) : F :=
  prod_range (Z.to_nat log_w) (fun i => 1 + of_Z (2 ^ (2 ^ i) - 1)%Z * r (2 * WIDTH xl - i - 1)%Z).

Definition Pow2WTable_evaluate_mle (r : Z -> F) : F :=
  prod_range 5 (fun i => 1 + of_Z (2 ^ (2 ^ i) - 1)%Z * r (2 * WIDTH xl - i - 1)%Z).

(** [r] is shadowed by its last [log_w] coordinates: [r[log_w - i - 1]] is
    coordinate [2 * XLEN - i - 1]. *)
Definition ShiftRightBitmaskTable_evaluate_mle (r : Z -> F) : F :=
  sum_range XLEN_nat (fun s =>
    let bitmask := ((2 ^ (WIDTH xl - s) - 1) * 2 ^ s)%Z in
    let eq_val := prod_range (Z.to_nat log_w) (fun i =>
      if (Z.land (Z.shiftr s i) 1 =? 0)%Z then 1 - r (2 * WIDTH xl - i - 1)%Z else r (2 * WIDTH xl - i - 1)%Z) in
    of_Z bitmask * eq_val).

(** Byte [k] of the reversed point, and the sum of the bytes in the order
    [d c b a h g f e]. *)
Definition rev8w_byte (r : Z -> F) (k : Z) : F :=
  sum_range 8 (fun i => r (2 * WIDTH xl - 1 - 8 * k - i)%Z * pow2_F i).

Definition VirtualRev8WTable_evaluate_mle (r : Z -> F) : F :=
  sum_range 8 (fun i =>
    rev8w_byte r (if (i <? 4)%Z then 3 - i else 11 - i)%Z * pow2_F (i * 8)).

(** The loop of the right shifts: [(result, sign_extension)]. *)
Definition shift_mle_step (r : Z -> F) (i : Z) (s : F * F) : F * F :=
  let result := fst s in let sign_extension := snd s in
  (result * (1 + r_y r i) + r_x r i * r_y r i,
   if (i =? 0)%Z then sign_extension else sign_extension + pow2_F i * (1 - r_y r i)).

Definition shift_mle_loop (r : Z -> F) : F * F := for_range XLEN_nat 0%Z (0, 0) (shift_mle_step r).

Definition VirtualSRLTable_evaluate_mle (r : Z -> F) : F := fst (shift_mle_loop r).

Definition VirtualSRATable_evaluate_mle (r : Z -> F) : F :=
  fst (shift_mle_loop r) + r 0%Z * snd (shift_mle_loop r).

(** The rotation loop from pair [skip]: [(prod_one_plus_y, (first_sum, second_sum))]. *)
Definition rotr_mle_step (r : Z -> F) (i : Z) (s : F * (F * F)) : F * (F * F) :=
  let prod_one_plus_y := fst s in let first_sum := fst (snd s) in let second_sum := snd (snd s) in
  (prod_one_plus_y * (1 + r_y r i),
   (first_sum * (1 + r_y r i) + r_x r i * r_y r i,
    second_sum + r_x r i * (1 - r_y r i) * prod_one_plus_y * pow2_F (WIDTH xl - 1 - i))).

Definition rotr_mle_loop (skip : Z) (r : Z -> F) : F * (F * F) :=
  for_range (Z.to_nat (WIDTH xl - skip)) skip (1, (0, 0)) (rotr_mle_step r).

Definition rotr_mle (skip : Z) (r : Z -> F) : F :=
  let s := rotr_mle_loop skip r in fst (snd s) + snd (snd s).

Definition VirtualRotrTable_evaluate_mle (r : Z -> F) : F := rotr_mle 0 r.
Definition VirtualRotrWTable_evaluate_mle (r : Z -> F) : F := rotr_mle (WIDTH xl / 2) r.

Definition VirtualChangeDivisorTable_evaluate_mle (r : Z -> F) : F :=
  let divisor_value := sum_range XLEN_nat (fun i => pow2_F (WIDTH xl - 1 - i) * r_y r i) in
  let x_product := for_range (Nat.pred XLEN_nat) 1%Z (r 0%Z) (fun i p => p * (1 - r_x r i)) in
  let y_product := prod_range XLEN_nat (fun i => r_y r i) in
  let adjustment := of_Z 2 - of_Z (2 ^ WIDTH xl)%Z in
  divisor_value + x_product * y_product * adjustment.

Definition VirtualChangeDivisorWTable_evaluate_mle (r : Z -> F) : F :=
  let half := (WIDTH xl / 2)%Z in
  let sign_bit := r (WIDTH xl + 1)%Z in
  let divisor_value := for_range HALF_nat half 0 (fun i v => v + pow2_F (WIDTH xl - 1 - i) * r_y r i) in
  let x_product := for_range (Nat.pred HALF_nat) (half + 1)%Z (r (WIDTH xl)) (fun i p => p * (1 - r_x r i)) in
  let y_product := for_range HALF_nat half 1 (fun i p => p * r_y r i) in
  let sign_extension := of_Z (2 ^ WIDTH xl - 2 ^ half)%Z * sign_bit in
  let adjustment := of_Z 2 - of_Z (2 ^ WIDTH xl)%Z in
  divisor_value + adjustment * x_product * y_product + sign_extension.

Definition SubTable_evaluate_mle (r : Z -> F) : F :=
  sum_range XLEN_nat (fun i => pow2_F (WIDTH xl - 1 - i) * r (WIDTH xl + i)%Z).

Definition MulUNoOverflowTable_evaluate_mle (r : Z -> F) : F := prod_range XLEN_nat (fun i => 1 - r i).

Definition VirtualXORROTTable_evaluate_mle (ROTATION : Z) (r : Z -> F) : F :=
  sum_range XLEN_nat (fun i =>
    let rotated_position := ((i + ROTATION) mod WIDTH xl)%Z in
    let bit_position := (WIDTH xl - 1 - rotated_position)%Z in
    pow2_F bit_position * xor_F (r_x r i) (r_y r i)).

Definition VirtualXORROTWTable_evaluate_mle (ROTATION : Z) (r : Z -> F) : F :=
  for_range HALF_nat (WIDTH xl / 2) 0 (fun idx result =>
    let xor_bit := xor_F (r_x r idx) (r_y r idx) in
    let position := (idx - WIDTH xl / 2)%Z in
    let rotated_position := ((position + ROTATION) mod (WIDTH xl / 2))%Z in
    let rotated_position := (WIDTH xl / 2 - 1 - rotated_position)%Z in
    result + pow2_F rotated_position * xor_bit).

End Extensions.

(** ** The enum of tables *)

Inductive LookupTables :=
| RangeCheck | And | Andn | Or | Xor | Equal
| SignedGreaterThanEqual | UnsignedGreaterThanEqual | NotEqual
| SignedLessThan | UnsignedLessThan | Movsign | UpperWord | LessThanEqual
| ValidSignedRemainder | ValidUnsignedRemainder | ValidDiv0
| HalfwordAlignment | WordAlignment | LowerHalfWord | SignExtendHalfWord
| Pow2 | Pow2W | ShiftRightBitmask | TVirtualRev8W | TVirtualSRL | TVirtualSRA
| VirtualROTR | VirtualROTRW | TVirtualChangeDivisor | TVirtualChangeDivisorW | MulUNoOverflow
| TVirtualXORROT (ROTATION : Z) | TVirtualXORROTW (ROTATION : Z).

Definition materialize_entry `{Build} (xl : Xlen) (t : LookupTables) (index : Z) : Res Z :=
  match t with
  | RangeCheck => Ok (RangeCheckTable_materialize_entry xl index)
  | And => Ok (AndTable_materialize_entry index)
  | Andn => Ok (AndnTable_materialize_entry index)
  | Or => Ok (OrTable_materialize_entry index)
  | Xor => Ok (XorTable_materialize_entry index)
  | Equal => Ok (EqualTable_materialize_entry index)
  | SignedGreaterThanEqual => Ok (SignedGreaterThanEqualTable_materialize_entry xl index)
  | UnsignedGreaterThanEqual => Ok (UnsignedGreaterThanEqualTable_materialize_entry index)
  | NotEqual => Ok (NotEqualTable_materialize_entry index)
  | SignedLessThan => Ok (SignedLessThanTable_materialize_entry xl index)
  | UnsignedLessThan => Ok (UnsignedLessThanTable_materialize_entry index)
  | Movsign => Ok (MovsignTable_materialize_entry xl index)
  | UpperWord => Ok (UpperWordTable_materialize_entry xl index)
  | LessThanEqual => Ok (UnsignedLessThanEqualTable_materialize_entry index)
  | ValidSignedRemainder => Ok (ValidSignedRemainderTable_materialize_entry xl index)
  | ValidUnsignedRemainder => Ok (ValidUnsignedRemainderTable_materialize_entry index)
  | ValidDiv0 => ValidDiv0Table_materialize_entry xl index
  | HalfwordAlignment => Ok (HalfwordAlignmentTable_materialize_entry index)
  | WordAlignment => Ok (WordAlignmentTable_materialize_entry index)
  | LowerHalfWord => Ok (LowerHalfWordTable_materialize_entry xl index)
  | SignExtendHalfWord => Ok (SignExtendHalfWordTable_materialize_entry xl index)
  | Pow2 => Ok (Pow2Table_materialize_entry xl index)
  | Pow2W => Ok (Pow2WTable_materialize_entry index)
  | ShiftRightBitmask => Ok (ShiftRightBitmaskTable_materialize_entry xl index)
  | TVirtualRev8W => Ok (VirtualRev8WTable_materialize_entry index)
  | TVirtualSRL => Ok (VirtualSRLTable_materialize_entry xl index)
  | TVirtualSRA => Ok (VirtualSRATable_materialize_entry xl index)
  | VirtualROTR => VirtualRotrTable_materialize_entry xl index
  | VirtualROTRW => VirtualRotrWTable_materialize_entry xl index
  | TVirtualChangeDivisor => Ok (VirtualChangeDivisorTable_materialize_entry xl index)
  | TVirtualChangeDivisorW => VirtualChangeDivisorWTable_materialize_entry xl index
  | MulUNoOverflow => Ok (MulUNoOverflowTable_materialize_entry xl index)
  | TVirtualXORROT n => Ok (VirtualXORROTTable_materialize_entry xl n index)
  | TVirtualXORROTW n => VirtualXORROTWTable_materialize_entry xl n index
  end.

Definition evaluate_mle {F : Type} `{JoltField F} (xl : Xlen) (t : LookupTables) : (Z -> F) -> F :=
  match t with
  | RangeCheck => RangeCheckTable_evaluate_mle xl
  | And => AndTable_evaluate_mle xl
  | Andn => AndnTable_evaluate_mle xl
  | Or => OrTable_evaluate_mle xl
  | Xor => XorTable_evaluate_mle xl
  | Equal => EqualTable_evaluate_mle xl
  | SignedGreaterThanEqual => SignedGreaterThanEqualTable_evaluate_mle xl
  | UnsignedGreaterThanEqual => UnsignedGreaterThanEqualTable_evaluate_mle xl
  | NotEqual => NotEqualTable_evaluate_mle xl
  | SignedLessThan => SignedLessThanTable_evaluate_mle xl
  | UnsignedLessThan => UnsignedLessThanTable_evaluate_mle xl
  | Movsign => MovsignTable_evaluate_mle xl
  | UpperWord => UpperWordTable_evaluate_mle xl
  | LessThanEqual => UnsignedLessThanEqualTable_evaluate_mle xl
  | ValidSignedRemainder => ValidSignedRemainderTable_evaluate_mle xl
  | ValidUnsignedRemainder => ValidUnsignedRemainderTable_evaluate_mle xl
  | ValidDiv0 => ValidDiv0Table_evaluate_mle xl
  | HalfwordAlignment => HalfwordAlignmentTable_evaluate_mle xl
  | WordAlignment => WordAlignmentTable_evaluate_mle xl
  | LowerHalfWord => LowerHalfWordTable_evaluate_mle xl
  | SignExtendHalfWord => SignExtendHalfWordTable_evaluate_mle xl
  | Pow2 => Pow2Table_evaluate_mle xl
  | Pow2W => Pow2WTable_evaluate_mle xl
  | ShiftRightBitmask => ShiftRightBitmaskTable_evaluate_mle xl
  | TVirtualRev8W => VirtualRev8WTable_evaluate_mle xl
  | TVirtualSRL => VirtualSRLTable_evaluate_mle xl
  | TVirtualSRA => VirtualSRATable_evaluate_mle xl
  | VirtualROTR => VirtualRotrTable_evaluate_mle xl
  | VirtualROTRW => VirtualRotrWTable_evaluate_mle xl
  | TVirtualChangeDivisor => VirtualChangeDivisorTable_evaluate_mle xl
  | TVirtualChangeDivisorW => VirtualChangeDivisorWTable_evaluate_mle xl
  | MulUNoOverflow => MulUNoOverflowTable_evaluate_mle xl
  | TVirtualXORROT n => VirtualXORROTTable_evaluate_mle xl n
  | TVirtualXORROTW n => VirtualXORROTWTable_evaluate_mle xl n
  end.
