(* ===== verification/TableMl.v ===== *)
(** * The evaluations of the lookup tables are multilinear

    Every [evaluate_mle] reads only the coordinates of its challenge vector and
    is affine in each of them. *)

From Stdlib Require Import ZArith Lia List Bool.
From stdpp Require Import base list.
From S2P Require Import Prelude Words Types Field LookupTables.
Local Open Scope Z_scope.

Section Ml.
Context {F : Type} `{JF : JoltField F}.

(** ** Rules that compute the support *)

Lemma ml_const_e (c : F) : ml (fun _ => False) (fun _ => c).
Proof. apply ml_const. Qed.

Lemma ml_var_e (j : Z) : ml (fun i => i = j) (fun r : Z -> F => r j).
Proof. by apply ml_var. Qed.

Lemma ml_add_u S T (f g : (Z -> F) -> F) : ml S f -> ml T g -> ml (fun i => S i \/ T i) (fun r => (f r + g r)%J).
Proof. intros Hf Hg. apply ml_add; [apply (ml_weaken S)|apply (ml_weaken T)]; tauto. Qed.

Lemma ml_sub_u S T (f g : (Z -> F) -> F) : ml S f -> ml T g -> ml (fun i => S i \/ T i) (fun r => (f r - g r)%J).
Proof. intros Hf Hg. apply ml_sub; [apply (ml_weaken S)|apply (ml_weaken T)]; tauto. Qed.

Lemma ml_mul_u S T (f g : (Z -> F) -> F) : ml S f -> ml T g -> (forall i, ~ S i \/ ~ T i) ->
  ml (fun i => S i \/ T i) (fun r => (f r * g r)%J).
Proof. intros Hf Hg Hd. by apply (ml_mul S T _ f g). Qed.

End Ml.

(** Infer the support of an expression over variables and known functions. *)
Ltac ml_infer :=
  first
    [ eassumption
    | lazymatch goal with
      | |- ml _ (fun r => fadd (@?f r) (@?g r)) => eapply (ml_add_u _ _ f g); ml_infer
      | |- ml _ (fun r => fsub (@?f r) (@?g r)) => eapply (ml_sub_u _ _ f g); ml_infer
      | |- ml _ (fun r => fmul (@?f r) (@?g r)) =>
          eapply (ml_mul_u _ _ f g); [ml_infer|ml_infer|cbv beta; intros ?; lia]
      | |- ml _ (fun r => r ?j) => apply (ml_var_e j)
      | |- ml _ (fun _ => ?c) => apply (ml_const_e c)
      end ].

(** Prove [ml S e] for an interval [S]. *)
Ltac ml_solve :=
  cbv [r_x r_y eq_F xor_F pow2_F]; cbn [fst snd];
  eapply ml_weaken; [ml_infer|cbv beta; intros ?; lia].

Section Tables.
Context {F : Type} `{JF : JoltField F} (xl : Xlen).

(** The coordinates of a point. *)
Definition coord : Z -> Prop := fun i => 0 <= i < 2 * WIDTH xl.

Lemma WIDTH_pos : 32 <= WIDTH xl <= 64 /\ WIDTH xl mod 2 = 0.
Proof. by destruct xl. Qed.

Lemma XLEN_nat_Z : Z.of_nat (XLEN_nat xl) = WIDTH xl.
Proof. by destruct xl. Qed.

Lemma HALF_nat_Z : Z.of_nat (HALF_nat xl) = WIDTH xl / 2.
Proof. by destruct xl. Qed.

Lemma XLEN_pred_Z : Z.of_nat (Nat.pred (XLEN_nat xl)) = WIDTH xl - 1.
Proof. by destruct xl. Qed.

Lemma HALF_pred_Z : Z.of_nat (Nat.pred (HALF_nat xl)) = WIDTH xl / 2 - 1.
Proof. by destruct xl. Qed.

(** Sums and products of terms with growing supports. *)
Lemma ml_sum S n (term : (Z -> F) -> Z -> F) :
  (forall k, 0 <= k < Z.of_nat n -> ml S (fun r => term r k)) -> ml S (fun r => sum_range n (term r)).
Proof.
  intros Ht. apply (for_range_param (fun _ f => ml S f) (fun r i result => (result + term r i)%J) n 0 (fun _ => fzero)).
  - apply ml_const.
  - intros k f Hk Hf. apply ml_add; [done|]. apply Ht. lia.
Qed.

(** [A k] holds the coordinates read before step [k]. *)
Lemma ml_prod (A S : Z -> Z -> Prop) n i0 (s : (Z -> F) -> F) (factor : (Z -> F) -> Z -> F) :
  ml (A i0) s ->
  (forall k, i0 <= k < i0 + Z.of_nat n -> ml (S k) (fun r => factor r k)) ->
  (forall k i, i0 <= k < i0 + Z.of_nat n -> ~ A k i \/ ~ S k i) ->
  (forall k i, i0 <= k < i0 + Z.of_nat n -> A k i \/ S k i -> A (k + 1) i) ->
  ml (A (i0 + Z.of_nat n)) (fun r => for_range n i0 (s r) (fun i result => (result * factor r i)%J)).
Proof.
  intros H0 Hf Hd Hu.
  apply (for_range_param (fun k f => ml (A k) f) (fun r i result => (result * factor r i)%J)); [done|].
  intros k f Hk Hm. eapply ml_mul; [exact Hm|by apply Hf|auto|auto].
Qed.

Ltac ml_sum_tac :=
  apply ml_sum; intros k Hk; rewrite ?XLEN_nat_Z, ?HALF_nat_Z in Hk; pose proof WIDTH_pos; unfold coord; ml_solve.

(** ** Loops over pairs of coordinates *)

Lemma lt_eq_ml : ml coord (fun r => fst (lt_eq_loop xl r)) /\ ml coord (fun r => snd (lt_eq_loop (F := F) xl r)).
Proof.
  pose (P := fun k (f : (Z -> F) -> F * F) => ml (fun i => 0 <= i < 2 * k) (fun r => fst (f r)) /\
                                              ml (fun i => 0 <= i < 2 * k) (fun r => snd (f r))).
  assert (H : P (WIDTH xl) (lt_eq_loop xl)); [|exact H].
  rewrite <- XLEN_nat_Z. apply (for_range_param P lt_eq_step (XLEN_nat xl) 0 (fun _ => (fzero, fone))).
  - split; apply ml_const.
  - intros k f Hk [Hl He]. unfold P, lt_eq_step. cbn [fst snd]. split; ml_solve.
Qed.

Lemma remainder_ml : ml coord (ValidSignedRemainderTable_evaluate_mle (F := F) xl).
Proof.
  pose (P := fun k (f : (Z -> F) -> RemainderState (F := F)) =>
    ml (fun i => 0 <= i < 2 * k /\ i mod 2 = 0) (fun r => remainder_is_zero (f r)) /\
    ml (fun i => 0 <= i < 2 * k) (fun r => divisor_is_zero (f r)) /\
    ml (fun i => 0 <= i < 2 * k) (fun r => positive_remainder_equals_divisor (f r)) /\
    ml (fun i => 0 <= i < 2 * k) (fun r => positive_remainder_less_than_divisor (f r)) /\
    ml (fun i => 0 <= i < 2 * k) (fun r => negative_divisor_equals_remainder (f r)) /\
    ml (fun i => 0 <= i < 2 * k) (fun r => negative_divisor_greater_than_remainder (f r))).
  assert (H : P (WIDTH xl) (remainder_loop xl)).
  { replace (WIDTH xl) with (1 + Z.of_nat (Nat.pred (XLEN_nat xl))) by (by destruct xl).
    apply (for_range_param P remainder_step _ 1 (fun r => mkRemainderState _ _ _ _ _ _)).
    - unfold P. cbn -[Z.mul]. split_and!; ml_solve.
    - intros k f Hk (H1 & H2 & H3 & H4 & H5 & H6). unfold P, remainder_step. cbn -[Z.mul].
      destruct (k =? 1); split_and!; ml_solve. }
  destruct H as (H1 & H2 & H3 & H4 & H5 & H6). unfold ValidSignedRemainderTable_evaluate_mle, coord.
  cbv zeta. pose proof WIDTH_pos. ml_solve.
Qed.

Lemma shift_ml : ml coord (fun r => fst (shift_mle_loop xl r)) /\
  ml (fun i => 2 <= i < 2 * WIDTH xl) (fun r => snd (shift_mle_loop (F := F) xl r)).
Proof.
  pose (P := fun k (f : (Z -> F) -> F * F) => ml (fun i => 0 <= i < 2 * k) (fun r => fst (f r)) /\
                                              ml (fun i => 2 <= i < 2 * k) (fun r => snd (f r))).
  assert (H : P (WIDTH xl) (shift_mle_loop xl)); [|exact H].
  rewrite <- XLEN_nat_Z. apply (for_range_param P shift_mle_step (XLEN_nat xl) 0 (fun _ => (fzero, fzero))).
  - split; apply ml_const.
  - intros k f Hk [H1 H2]. unfold P, shift_mle_step. cbn [fst snd]. destruct (Z.eqb_spec k 0); split; ml_solve.
Qed.

Lemma rotr_ml skip : 0 <= skip <= WIDTH xl -> ml coord (rotr_mle (F := F) xl skip).
Proof.
  intros Hs. pose (P := fun k (f : (Z -> F) -> F * (F * F)) => ml (fun i => 0 <= i < 2 * k) (fun r => fst (f r)) /\
    ml (fun i => 0 <= i < 2 * k) (fun r => fst (snd (f r))) /\ ml (fun i => 0 <= i < 2 * k) (fun r => snd (snd (f r)))).
  assert (H : P (skip + Z.of_nat (Z.to_nat (WIDTH xl - skip))) (rotr_mle_loop xl skip)).
  { apply (for_range_param P (rotr_mle_step xl) _ skip (fun _ => (fone, (fzero, fzero)))).
    - unfold P. split_and!; apply ml_const.
    - intros k f Hk (H1 & H2 & H3). unfold P, rotr_mle_step. cbn [fst snd]. split_and!; ml_solve. }
  replace (skip + _) with (WIDTH xl) in H by lia. destruct H as (H1 & H2 & H3).
  unfold rotr_mle, coord. cbv zeta. ml_solve.
Qed.

Lemma unsigned_remainder_ml : ml coord (ValidUnsignedRemainderTable_evaluate_mle (F := F) xl).
Proof.
  pose (P := fun k (f : (Z -> F) -> F * (F * F)) => ml (fun i => 0 <= i < 2 * k) (fun r => fst (f r)) /\
    ml (fun i => 0 <= i < 2 * k) (fun r => fst (snd (f r))) /\ ml (fun i => 0 <= i < 2 * k) (fun r => snd (snd (f r)))).
  assert (H : P (0 + Z.of_nat (XLEN_nat xl)) (fun r => for_range (XLEN_nat xl) 0 (fone, (fzero, fone)) (unsigned_remainder_step r))).
  { apply (for_range_param P unsigned_remainder_step _ 0 (fun _ => (fone, (fzero, fone)))).
    - unfold P. split_and!; apply ml_const.
    - intros k f Hk (H1 & H2 & H3). unfold P, unsigned_remainder_step, lt_eq_step. cbn [fst snd].
      split_and!; ml_solve. }
  rewrite XLEN_nat_Z in H. destruct H as (H1 & H2 & H3).
  unfold ValidUnsignedRemainderTable_evaluate_mle, coord. cbv zeta. ml_solve.
Qed.

Lemma valid_div0_ml : ml coord (ValidDiv0Table_evaluate_mle (F := F) xl).
Proof.
  pose (P := fun k (f : (Z -> F) -> F * F) => ml (fun i => 0 <= i < 2 * k) (fun r => fst (f r)) /\
                                              ml (fun i => 0 <= i < 2 * k) (fun r => snd (f r))).
  assert (H : P (0 + Z.of_nat (XLEN_nat xl)) (fun r => for_range (XLEN_nat xl) 0 (fone, fone) (valid_div0_step r))).
  { apply (for_range_param P valid_div0_step _ 0 (fun _ => (fone, fone))).
    - split; apply ml_const.
    - intros k f Hk (H1 & H2). unfold P, valid_div0_step. cbn [fst snd]. split; ml_solve. }
  rewrite XLEN_nat_Z in H. destruct H as (H1 & H2).
  unfold ValidDiv0Table_evaluate_mle, coord. cbv zeta. ml_solve.
Qed.

(** ** Products *)

Lemma pow2_ml n : 0 <= Z.of_nat n <= WIDTH xl ->
  ml coord (fun r : Z -> F => prod_range n (fun i => (1 + of_Z (2 ^ (2 ^ i) - 1)%Z * r (2 * WIDTH xl - i - 1)%Z)%J)).
Proof.
  intros Hn. pose proof WIDTH_pos.
  eapply ml_weaken; [apply (ml_prod (fun k i => 2 * WIDTH xl - k <= i < 2 * WIDTH xl) (fun k i => i = 2 * WIDTH xl - k - 1)
    n 0 (fun _ => fone))|].
  - apply ml_const.
  - intros k Hk. ml_solve.
  - cbv beta. lia.
  - cbv beta. lia.
  - cbv beta. unfold coord. lia.
Qed.

Lemma bitmask_ml : ml coord (ShiftRightBitmaskTable_evaluate_mle (F := F) xl).
Proof.
  pose proof WIDTH_pos. assert (Hl : 0 <= log_w xl <= WIDTH xl) by (by destruct xl).
  apply ml_sum. intros s Hs. cbv zeta. apply ml_scale.
  eapply ml_weaken; [apply (ml_prod (fun k i => 2 * WIDTH xl - k <= i < 2 * WIDTH xl) (fun k i => i = 2 * WIDTH xl - k - 1)
    (Z.to_nat (log_w xl)) 0 (fun _ => fone))|].
  - apply ml_const.
  - intros k Hk. destruct (_ =? _); ml_solve.
  - cbv beta. lia.
  - cbv beta. lia.
  - cbv beta. unfold coord. lia.
Qed.

Lemma equal_ml : ml coord (EqualTable_evaluate_mle (F := F) xl).
Proof.
  eapply ml_weaken; [apply (ml_prod (fun k i => 0 <= i < 2 * k) (fun k i => 2 * k <= i < 2 * k + 2) (XLEN_nat xl) 0 (fun _ => fone))|].
  - apply ml_const.
  - intros k Hk. ml_solve.
  - cbv beta. lia.
  - cbv beta. lia.
  - cbv beta. rewrite XLEN_nat_Z. unfold coord. lia.
Qed.

Lemma no_overflow_ml : ml coord (MulUNoOverflowTable_evaluate_mle (F := F) xl).
Proof.
  eapply ml_weaken; [apply (ml_prod (fun k i => 0 <= i < k) (fun k i => i = k) (XLEN_nat xl) 0 (fun _ => fone))|].
  - apply ml_const.
  - intros k Hk. ml_solve.
  - cbv beta. lia.
  - cbv beta. lia.
  - cbv beta. rewrite XLEN_nat_Z. unfold coord. lia.
Qed.

(** The products over the even and the odd coordinates from pair [k0]. *)
Lemma x_product_ml n k0 : 0 <= k0 ->
  ml (fun i => 2 * k0 <= i < 2 * (k0 + 1 + Z.of_nat n) /\ i mod 2 = 0)
    (fun r : Z -> F => for_range n (k0 + 1) (r (2 * k0)%Z) (fun i p => (p * (1 - r_x r i))%J)).
Proof.
  intros Hk0. apply (ml_prod (fun k i => 2 * k0 <= i < 2 * k /\ i mod 2 = 0) (fun k i => i = 2 * k)).
  - ml_solve.
  - intros k Hk. ml_solve.
  - cbv beta. lia.
  - cbv beta. lia.
Qed.

Lemma y_product_ml n k0 : 0 <= k0 ->
  ml (fun i => 2 * k0 <= i < 2 * (k0 + Z.of_nat n) /\ i mod 2 = 1)
    (fun r : Z -> F => for_range n k0 fone (fun i p => (p * r_y r i)%J)).
Proof.
  intros Hk0. apply (ml_prod (fun k i => 2 * k0 <= i < 2 * k /\ i mod 2 = 1) (fun k i => i = 2 * k + 1)).
  - apply ml_const.
  - intros k Hk. ml_solve.
  - cbv beta. lia.
  - cbv beta. lia.
Qed.

Lemma ml_sum_from S n i0 (term : (Z -> F) -> Z -> F) :
  (forall k, i0 <= k < i0 + Z.of_nat n -> ml S (fun r => term r k)) ->
  ml S (fun r => for_range n i0 fzero (fun i result => (result + term r i)%J)).
Proof.
  intros Ht. apply (for_range_param (fun _ f => ml S f) (fun r i result => (result + term r i)%J) n i0 (fun _ => fzero)).
  - apply ml_const.
  - intros k f Hk Hf. apply ml_add; [done|]. apply Ht. lia.
Qed.

Lemma change_divisor_ml : ml coord (VirtualChangeDivisorTable_evaluate_mle (F := F) xl).
Proof.
  pose proof WIDTH_pos. unfold VirtualChangeDivisorTable_evaluate_mle. cbv zeta.
  pose proof (x_product_ml (Nat.pred (XLEN_nat xl)) 0 ltac:(lia)) as Hx.
  pose proof (y_product_ml (XLEN_nat xl) 0 ltac:(lia)) as Hy.
  assert (Hs : ml coord (fun r : Z -> F => sum_range (XLEN_nat xl) (fun i => (pow2_F (WIDTH xl - 1 - i) * r_y r i)%J)))
    by ml_sum_tac.
  rewrite XLEN_nat_Z in Hy. rewrite XLEN_pred_Z in Hx. unfold coord in *. unfold prod_range. ml_solve.
Qed.

Lemma change_divisor_w_ml : ml coord (VirtualChangeDivisorWTable_evaluate_mle (F := F) xl).
Proof.
  pose proof WIDTH_pos. unfold VirtualChangeDivisorWTable_evaluate_mle. cbv zeta.
  pose proof (x_product_ml (Nat.pred (HALF_nat xl)) (WIDTH xl / 2) ltac:(lia)) as Hx.
  pose proof (y_product_ml (HALF_nat xl) (WIDTH xl / 2) ltac:(lia)) as Hy.
  assert (Hs : ml coord (fun r : Z -> F => for_range (HALF_nat xl) (WIDTH xl / 2) fzero
                 (fun i v => (v + pow2_F (WIDTH xl - 1 - i) * r_y r i)%J))).
  { apply ml_sum_from. intros k Hk. rewrite HALF_nat_Z in Hk. unfold coord. ml_solve. }
  rewrite HALF_nat_Z in Hy. rewrite HALF_pred_Z in Hx. assert (E2 : 2 * (WIDTH xl / 2) = WIDTH xl) by lia. rewrite E2 in *.
  unfold coord in *. ml_solve.
Qed.

Lemma rev8w_ml : ml coord (VirtualRev8WTable_evaluate_mle (F := F) xl).
Proof.
  pose proof WIDTH_pos. apply ml_sum. intros i Hi.
  assert (Hb : ml coord (fun r : Z -> F => rev8w_byte xl r (if i <? 4 then 3 - i else 11 - i))).
  { apply ml_sum. intros k Hk. unfold coord. destruct (Z.ltb_spec i 4); ml_solve. }
  cbv [pow2_F]. eapply ml_weaken; [ml_infer|]. cbv beta. tauto.
Qed.

Lemma xor_rotw_ml ROTATION : ml coord (VirtualXORROTWTable_evaluate_mle (F := F) xl ROTATION).
Proof.
  pose proof WIDTH_pos. apply ml_sum_from. intros k Hk. rewrite HALF_nat_Z in Hk. unfold coord. cbv zeta. ml_solve.
Qed.

Lemma sign_extend_ml : ml coord (SignExtendHalfWordTable_evaluate_mle (F := F) xl).
Proof.
  pose proof WIDTH_pos. unfold SignExtendHalfWordTable_evaluate_mle. cbv zeta.
  apply ml_add; [ml_sum_tac|]. eapply ml_mul; [|apply ml_const_e| |].
  - apply (ml_sum coord). intros k Hk. unfold coord. ml_solve.
  - tauto.
  - cbv beta. tauto.
Qed.

Ltac table_unfold :=
  cbv delta [RangeCheckTable_evaluate_mle AndTable_evaluate_mle AndnTable_evaluate_mle OrTable_evaluate_mle
    XorTable_evaluate_mle NotEqualTable_evaluate_mle SignedLessThanTable_evaluate_mle
    SignedGreaterThanEqualTable_evaluate_mle UnsignedLessThanTable_evaluate_mle
    UnsignedGreaterThanEqualTable_evaluate_mle UnsignedLessThanEqualTable_evaluate_mle MovsignTable_evaluate_mle
    UpperWordTable_evaluate_mle HalfwordAlignmentTable_evaluate_mle WordAlignmentTable_evaluate_mle
    LowerHalfWordTable_evaluate_mle VirtualSRLTable_evaluate_mle VirtualSRATable_evaluate_mle
    VirtualXORROTTable_evaluate_mle]; cbv beta zeta.

(** Every table is multilinear in the coordinates of its point. *)
Lemma evaluate_mle_ml (t : LookupTables) : ml coord (evaluate_mle (F := F) xl t).
Proof.
  pose proof WIDTH_pos as HW. destruct lt_eq_ml as [Hlt Heq]. destruct shift_ml as [Hsh Hse].
  pose proof equal_ml as Heqt.
  destruct t; cbn [evaluate_mle];
    first [ apply equal_ml | apply remainder_ml | apply unsigned_remainder_ml | apply valid_div0_ml | apply no_overflow_ml
          | apply bitmask_ml | apply change_divisor_ml | apply change_divisor_w_ml | apply pow2_ml; by destruct xl
          | apply rotr_ml; lia | apply rev8w_ml | apply sign_extend_ml | apply xor_rotw_ml | table_unfold; first [ml_sum_tac | unfold coord in *; ml_solve]].
Qed.

End Tables.
