(* ===== verification/BitOps.v ===== *)
(** * Bit permutations and sums of bits

    Functions built from [or], [and] with a mask and shifts are linear over
    [Z.lor], so they are determined by their values on powers of two, which are
    computed.  This settles [interleave_bits] and [uninterleave_bits]
    ([jolt-core/src/utils/mod.rs]).  Then a word as the sum of its bits. *)

From Stdlib Require Import ZArith Lia List Bool.
From stdpp Require Import base list.
From S2P Require Import Prelude Words Types Field LookupTables.
Import ListNotations.
Local Open Scope Z_scope.

(** ** Linear functions *)

Record lor_linear (f : Z -> Z) : Prop := mkLinear {
  linear_0 : f 0 = 0;
  linear_lor : forall a b, f (Z.lor a b) = Z.lor (f a) (f b)
}.

Lemma linear_land m : lor_linear (fun x => Z.land x m).
Proof. split; [done|]. intros a b. apply Z.land_lor_distr_l. Qed.

Lemma linear_fold_right n m : 0 <= n -> lor_linear (fun x => fold_right_bits x n m).
Proof.
  intros Hn. unfold fold_right_bits. split; [by rewrite Z.shiftr_0_l|]. intros a b. rewrite Z.shiftr_lor.
  rewrite <- Z.land_lor_distr_l. f_equal. bitblast.
Qed.

Lemma as_u128_lor a b : as_u128 (Z.lor a b) = Z.lor (as_u128 a) (as_u128 b).
Proof.
  unfold as_u128. change 340282366920938463463374607431768211456 with (2 ^ 128).
  rewrite <- !Z.land_ones by lia. apply Z.land_lor_distr_l.
Qed.

Lemma linear_fold_left n m : 0 <= n -> lor_linear (fun x => fold_left_bits x n m).
Proof.
  intros Hn. unfold fold_left_bits. split; [by rewrite Z.shiftl_0_l|]. intros a b. rewrite Z.shiftl_lor, as_u128_lor.
  rewrite <- Z.land_lor_distr_l. f_equal. bitblast.
Qed.

Lemma linear_compose f g : lor_linear f -> lor_linear g -> lor_linear (fun x => f (g x)).
Proof. intros [F0 F1] [G0 G1]. split; [by rewrite G0|]. intros a b. by rewrite G1, F1. Qed.

Lemma linear_shiftr n : lor_linear (fun x => Z.shiftr x n).
Proof. split; [apply Z.shiftr_0_l|]. intros a b. apply Z.shiftr_lor. Qed.

Lemma linear_shiftl_u128 n : lor_linear (fun x => as_u128 (Z.shiftl x n)).
Proof. split; [by rewrite Z.shiftl_0_l|]. intros a b. by rewrite Z.shiftl_lor, as_u128_lor. Qed.

Lemma linear_as_u64 : lor_linear as_u64.
Proof.
  split; [done|]. intros a b. unfold as_u64. change 18446744073709551616 with (2 ^ 64).
  rewrite <- !Z.land_ones by lia. apply Z.land_lor_distr_l.
Qed.

(** [0, 1, ..., n-1] *)
Definition zrange (n : Z) : list Z := map Z.of_nat (seq 0 (Z.to_nat n)).

Lemma in_zrange n i : 0 <= i < n -> In i (zrange n).
Proof.
  intros H. unfold zrange. apply in_map_iff. exists (Z.to_nat i). split; [lia|]. apply in_seq. lia.
Qed.

Lemma mod_succ_lor v n : 0 <= n ->
  v mod 2 ^ (n + 1) = Z.lor (v mod 2 ^ n) (if Z.testbit v n then 2 ^ n else 0).
Proof.
  intros Hn. apply Z.bits_inj'. intros m Hm. rewrite Z.lor_spec, !tb_mod by lia.
  destruct (Z.testbit v n) eqn:E.
  - rewrite Z.pow2_bits_eqb by lia. destruct (Z.eqb_spec n m) as [->|Hnm].
    + rewrite E. replace (m <? m + 1) with true by lia. by rewrite orb_true_r.
    + rewrite orb_false_r. f_equal. lia.
  - rewrite tb_0, orb_false_r. destruct (Z.eq_dec m n) as [->|Hnm]; [by rewrite E, !andb_false_r|].
    f_equal. lia.
Qed.

(** A linear function selects bit [s j] of its argument as bit [j] of its result
    (clears it if [s j] is out of range) when it does so on the powers of two. *)
Definition selects (f : Z -> Z) (n m : Z) (s : Z -> Z) : bool :=
  forallb (fun j => forallb (fun i => Bool.eqb (Z.testbit (f (2 ^ i)) j) (i =? s j)) (zrange n)) (zrange m).

Lemma linear_select f n m s v j : lor_linear f -> selects f n m s = true -> 0 <= n ->
  0 <= v < 2 ^ n -> 0 <= j < m -> Z.testbit (f v) j = Z.testbit v (s j).
Proof.
  intros [F0 F1] Hs Hn Hv Hj. unfold selects in Hs. rewrite forallb_forall in Hs.
  specialize (Hs j (in_zrange m j Hj)). rewrite forallb_forall in Hs.
  rewrite <- (Z.mod_small v (2 ^ n)) by done.
  assert (H : forall k : nat, Z.of_nat k <= n -> Z.testbit (f (v mod 2 ^ Z.of_nat k)) j = Z.testbit (v mod 2 ^ Z.of_nat k) (s j)).
  { induction k as [|k IH]; intros Hk.
    - change (2 ^ Z.of_nat 0) with 1. by rewrite Z.mod_1_r, F0, !tb_0.
    - rewrite Nat2Z.inj_succ, <- Z.add_1_r, mod_succ_lor, F1, !Z.lor_spec, IH by lia. f_equal.
      specialize (Hs (Z.of_nat k) (in_zrange n (Z.of_nat k) ltac:(lia))). apply Bool.eqb_prop in Hs.
      destruct (Z.testbit v (Z.of_nat k)); [|by rewrite F0, !tb_0]. by rewrite Hs, Z.pow2_bits_eqb by lia. }
  specialize (H (Z.to_nat n) ltac:(lia)). by rewrite Z2Nat.id in H by lia.
Qed.

(** ** Interleaving *)

Ltac linear_tac :=
  repeat (apply (linear_compose (fun x => fold_right_bits x _ _)); [by apply linear_fold_right|]);
  repeat (apply (linear_compose (fun x => fold_left_bits x _ _)); [by apply linear_fold_left|]).

Lemma compact_linear : lor_linear (fun x => as_u64 (compact_bits x)).
Proof.
  apply (linear_compose as_u64); [apply linear_as_u64|]. unfold compact_bits. cbv zeta. linear_tac.
  split; done.
Qed.

Lemma spread_linear : lor_linear spread_bits.
Proof. unfold spread_bits. cbv zeta. linear_tac. split; done. Qed.

Lemma uninterleave_u64 v : is_u64 (fst (uninterleave_bits v)) /\ is_u64 (snd (uninterleave_bits v)).
Proof. split; apply as_u64_range. Qed.

(** The left operand has the odd bits, the right one the even bits. *)
Lemma uninterleave_left v j : 0 <= v < 2 ^ 128 -> 0 <= j < 64 ->
  Z.testbit (fst (uninterleave_bits v)) j = Z.testbit v (2 * j + 1).
Proof.
  intros Hv Hj. apply (linear_select (fun v => fst (uninterleave_bits v)) 128 64 (fun j => 2 * j + 1) v j);
    [|vm_compute; reflexivity|done..].
  cbn [uninterleave_bits fst]. apply (linear_compose (fun x => as_u64 (compact_bits x))); [apply compact_linear|].
  apply (linear_compose (fun x => Z.land x _)); [apply linear_land|apply linear_shiftr].
Qed.

Lemma uninterleave_right v j : 0 <= v < 2 ^ 128 -> 0 <= j < 64 ->
  Z.testbit (snd (uninterleave_bits v)) j = Z.testbit v (2 * j).
Proof.
  intros Hv Hj. apply (linear_select (fun v => snd (uninterleave_bits v)) 128 64 (fun j => 2 * j) v j);
    [|vm_compute; reflexivity|done..].
  cbn [uninterleave_bits snd]. apply (linear_compose (fun x => as_u64 (compact_bits x))); [apply compact_linear|].
  apply linear_land.
Qed.

(** The bits of the words, also when the point has fewer than 128 coordinates. *)
Lemma uninterleave_bound v w : 0 <= w <= 64 -> 0 <= v < 2 ^ (2 * w) ->
  0 <= fst (uninterleave_bits v) < 2 ^ w /\ 0 <= snd (uninterleave_bits v) < 2 ^ w.
Proof.
  intros Hw Hv. pose proof (uninterleave_u64 v) as [Hx Hy].
  assert (Hv' : 0 <= v < 2 ^ 128) by (split; [lia|]; apply (Z.lt_le_trans _ (2 ^ (2 * w))); [lia|apply Z.pow_le_mono_r; lia]).
  assert (Hb : forall z, is_u64 z -> (forall j, w <= j < 64 -> Z.testbit z j = false) -> 0 <= z < 2 ^ w).
  { intros z Hz Hf. assert (E : z = z mod 2 ^ w); [|rewrite E; apply Z.mod_pos_bound; lia].
    apply Z.bits_inj'. intros m Hm. rewrite tb_mod by lia. destruct (Z.ltb_spec m w); [done|].
    destruct (Z.lt_ge_cases m 64); [by apply Hf|]. by apply u64_high. }
  assert (Hz : forall k, 2 * w <= k -> Z.testbit v k = false).
  { intros k Hk. rewrite <- (Z.mod_small v (2 ^ (2 * w))) by done. rewrite tb_mod by lia. by replace (k <? 2 * w) with false by lia. }
  split; apply Hb; try done; intros j Hj; [rewrite uninterleave_left|rewrite uninterleave_right]; try lia; apply Hz; lia.
Qed.

(** Interleaving. *)
Definition spread_source (p : Z) : Z := if Z.even p then p / 2 else -1.

Lemma spread_bit x p : is_u64 x -> 0 <= p < 128 -> Z.testbit (spread_bits x) p = Z.testbit x (spread_source p).
Proof.
  intros Hx Hp. apply (linear_select spread_bits 64 128 spread_source x p spread_linear); [vm_compute; reflexivity|lia|done|done].
Qed.

Lemma spread_u128 x : 0 <= spread_bits x < 2 ^ 128.
Proof.
  unfold spread_bits, fold_left_bits. cbv zeta. match goal with |- 0 <= Z.land ?a ?m < _ => set (b := a) end.
  assert (0 <= Z.land b 113427455640312821154458202477256070485) by (apply Z.land_nonneg; right; lia).
  split; [done|]. assert (E : Z.land b 113427455640312821154458202477256070485
    = Z.land b 113427455640312821154458202477256070485 mod 2 ^ 128); [|rewrite E; apply Z.mod_pos_bound; lia].
  apply Z.bits_inj'. intros m Hm. rewrite tb_mod, Z.land_spec by lia. destruct (Z.ltb_spec m 128); [done|].
  cbn [andb]. rewrite (Z.bits_above_log2 113427455640312821154458202477256070485); [apply andb_false_r|lia|].
  change (Z.log2 113427455640312821154458202477256070485) with 126. lia.
Qed.

Lemma as_u128_bit z p : Z.testbit (as_u128 z) p = (p <? 128) && Z.testbit z p.
Proof. unfold as_u128. change 340282366920938463463374607431768211456 with (2 ^ 128). apply tb_mod. lia. Qed.

Lemma interleave_bit x y p : is_u64 x -> is_u64 y -> 0 <= p < 128 ->
  Z.testbit (interleave_bits x y) p = if Z.even p then Z.testbit y (p / 2) else Z.testbit x (p / 2).
Proof.
  intros Hx Hy Hp. unfold interleave_bits. rewrite Z.lor_spec, as_u128_bit, tb_shiftl.
  rewrite (spread_bit y) by done. unfold spread_source at 1.
  destruct (Z.eq_dec p 0) as [->|Hp0]; [by rewrite (Z.testbit_neg_r (spread_bits x))|].
  rewrite (spread_bit x) by (done || lia). unfold spread_source.
  replace (p <? 128) with true by lia. replace (0 <=? p) with true by lia. cbn [andb].
  rewrite Z.even_sub. change (Z.even 1) with false. destruct (Z.even p) eqn:E; cbn [eqb].
  - rewrite (Z.testbit_neg_r x) by lia. done.
  - rewrite (Z.testbit_neg_r y), orb_false_r by lia. f_equal. rewrite <- Z.negb_odd in E. apply negb_false_iff in E.
    apply Z.odd_spec in E as [q ->]. lia.
Qed.

Lemma interleave_u128 x y : 0 <= interleave_bits x y < 2 ^ 128.
Proof.
  unfold interleave_bits. assert (H : forall a b, 0 <= a < 2 ^ 128 -> 0 <= b < 2 ^ 128 -> 0 <= Z.lor a b < 2 ^ 128).
  { intros a b Ha Hb. assert (E : Z.lor a b = Z.lor a b mod 2 ^ 128); [|rewrite E; apply Z.mod_pos_bound; lia].
    apply Z.bits_inj'. intros m Hm. rewrite tb_mod, Z.lor_spec by lia. destruct (Z.ltb_spec m 128); [done|].
    rewrite <- (Z.mod_small a (2 ^ 128)), <- (Z.mod_small b (2 ^ 128)), !tb_mod by lia.
    by replace (m <? 128) with false by lia. }
  apply H; [|apply spread_u128]. unfold as_u128. change 340282366920938463463374607431768211456 with (2 ^ 128).
  apply Z.mod_pos_bound. lia.
Qed.

Lemma even_half p : Z.even p = true -> 2 * (p / 2) = p.
Proof. intros H. apply Z.even_spec in H as [q ->]. lia. Qed.
Lemma odd_half p : Z.even p = false -> 2 * (p / 2) + 1 = p.
Proof. intros H. rewrite <- Z.negb_odd in H. apply negb_false_iff, Z.odd_spec in H as [q ->]. lia. Qed.

Lemma uninterleave_interleave x y : is_u64 x -> is_u64 y -> uninterleave_bits (interleave_bits x y) = (x, y).
Proof.
  intros Hx Hy. pose proof (interleave_u128 x y) as Hi. rewrite (surjective_pairing (uninterleave_bits _)).
  pose proof (uninterleave_u64 (interleave_bits x y)) as [H1 H2].
  f_equal; apply Z.bits_inj'; intros m Hm; (destruct (Z.lt_ge_cases m 64) as [Hl|Hl]; [|by rewrite !u64_high by done]).
  - rewrite uninterleave_left, interleave_bit by (done || lia). rewrite Z.even_add, Z.even_mul.
    cbn [Z.even orb eqb]. f_equal. lia.
  - rewrite uninterleave_right, interleave_bit by (done || lia). rewrite Z.even_mul. cbn [Z.even orb]. f_equal. lia.
Qed.

Lemma interleave_uninterleave v : 0 <= v < 2 ^ 128 ->
  interleave_bits (fst (uninterleave_bits v)) (snd (uninterleave_bits v)) = v.
Proof.
  intros Hv. pose proof (uninterleave_u64 v) as [H1 H2]. apply Z.bits_inj'. intros m Hm.
  destruct (Z.lt_ge_cases m 128) as [Hl|Hl].
  - rewrite interleave_bit by (done || lia). destruct (Z.even m) eqn:E;
      [rewrite uninterleave_right|rewrite uninterleave_left]; try lia; f_equal; [by apply even_half|by apply odd_half].
  - rewrite <- (Z.mod_small v (2 ^ 128)) at 3 by done.
    rewrite <- (Z.mod_small (interleave_bits _ _) (2 ^ 128)) by apply interleave_u128.
    rewrite !tb_mod by lia. by replace (m <? 128) with false by lia.
Qed.
