(* ===== verification/TableMle.v ===== *)
(** * The evaluations of the lookup tables agree with their entries

    At a point of the hypercube, given by the bits of an index, [evaluate_mle]
    is the entry [materialize_entry] computes at that index, whenever the latter
    returns.  With multilinearity ([TableMl]) this says that [evaluate_mle] is
    the multilinear extension of the table. *)

From Stdlib Require Import ZArith Lia List Bool.
From stdpp Require Import base list.
From S2P Require Import Prelude Words Types Field Exec LookupTables TableMl BitOps.
Local Open Scope Z_scope.

(** ** Words as sums of bits *)

(** The first [k] bits of [v mod 2^n], most significant first. *)
Lemma top_bits_step v n k : 0 <= k < n ->
  Z.shiftr v (n - 1 - k) = 2 * Z.shiftr v (n - k) + Z.b2z (Z.testbit v (n - 1 - k)).
Proof.
  intros Hk. replace (n - k) with ((n - 1 - k) + 1) by lia. rewrite <- Z.shiftr_shiftr by lia.
  rewrite <- (Z.add_0_l (n - 1 - k)) at 3. rewrite <- Z.shiftr_spec by lia. rewrite <- Z.div2_spec, Z.bit0_odd.
  apply Z.div2_odd.
Qed.

Lemma shiftr_all v n : 0 <= n -> 0 <= v < 2 ^ n -> Z.shiftr v n = 0.
Proof. intros Hn Hv. rewrite Z.shiftr_div_pow2 by lia. by apply Z.div_small. Qed.

Section Sums.
Context {F : Type} `{JF : JoltField F}.

Add Ring F_ring_tac : F_ring.

(** The bits of [v] at the weights [c * 2^(n-1) .. c], added to [s]. *)
Lemma sum_bits_scaled n i0 (s : F) c (term : Z -> F) (v : Z) :
  0 <= v < 2 ^ Z.of_nat n ->
  (forall i, 0 <= i < Z.of_nat n ->
     term (i0 + i) = of_Z (c * (2 ^ (Z.of_nat n - 1 - i) * Z.b2z (Z.testbit v (Z.of_nat n - 1 - i))))) ->
  for_range n i0 s (fun i result => (result + term i)%J) = (s + of_Z (c * v)%Z)%J.
Proof.
  intros Hv Ht. set (N := Z.of_nat n) in *.
  assert (H : for_range n i0 s (fun i result => (result + term i)%J)
              = (s + of_Z (c * (Z.shiftr v (N - (i0 + N - i0)) * 2 ^ (N - (i0 + N - i0))))%Z)%J).
  { apply (for_range_inv (fun k a => a = (s + of_Z (c * (Z.shiftr v (N - (k - i0)) * 2 ^ (N - (k - i0))))%Z)%J)).
    - replace (N - (i0 - i0)) with N by lia. rewrite shiftr_all by lia. rewrite Z.mul_0_l, Z.mul_0_r, of_Z_0. ring.
    - intros k a Hk ->. replace k with (i0 + (k - i0)) at 3 by lia. rewrite Ht by lia.
      replace (N - (k + 1 - i0)) with (N - 1 - (k - i0)) by lia. rewrite (top_bits_step v N (k - i0)) by lia.
      replace (N - (k - i0)) with (Z.succ (N - 1 - (k - i0))) by lia. rewrite Z.pow_succ_r by lia.
      rewrite !of_Z_mul, of_Z_add, of_Z_mul. ring. }
  rewrite H. replace (N - (i0 + N - i0)) with 0 by lia. by rewrite Z.shiftr_0_r, Z.pow_0_r, Z.mul_1_r.
Qed.

Lemma sum_bits_from n i0 (term : Z -> F) (v : Z) :
  0 <= v < 2 ^ Z.of_nat n ->
  (forall i, 0 <= i < Z.of_nat n ->
     term (i0 + i) = of_Z (2 ^ (Z.of_nat n - 1 - i) * Z.b2z (Z.testbit v (Z.of_nat n - 1 - i)))) ->
  for_range n i0 fzero (fun i result => (result + term i)%J) = of_Z v.
Proof.
  intros Hv Ht. rewrite (sum_bits_scaled n i0 fzero 1 term v) by (done || (intros; rewrite Z.mul_1_l; by apply Ht)).
  rewrite Z.mul_1_l. ring.
Qed.

Lemma sum_bits n (term : Z -> F) (v : Z) :
  0 <= v < 2 ^ Z.of_nat n ->
  (forall i, 0 <= i < Z.of_nat n ->
     term i = of_Z (2 ^ (Z.of_nat n - 1 - i) * Z.b2z (Z.testbit v (Z.of_nat n - 1 - i)))) ->
  sum_range n term = of_Z v.
Proof. intros Hv Ht. by apply sum_bits_from. Qed.

(** A boolean of the field. *)
Definition bit_F (b : bool) : F := of_Z (Z.b2z b).

Lemma bit_F_true : bit_F true = fone.
Proof. apply of_Z_1. Qed.
Lemma bit_F_false : bit_F false = fzero.
Proof. apply of_Z_0. Qed.

Lemma bool_bit b : of_Z (bool_u64 b) = bit_F b.
Proof. by destruct b. Qed.

End Sums.

(** Booleans at every bit of an equation, then the ring. *)
Ltac bits_ring :=
  unfold pow2_F, xor_F, eq_F; rewrite ?of_Z_mul;
  change (of_Z (Z.b2z ?b)) with (bit_F b);
  repeat match goal with |- context [ Z.testbit ?v ?j ] => destruct (Z.testbit v j) end;
  cbn [andb orb negb xorb]; rewrite ?bit_F_true, ?bit_F_false; ring.

(** Decide the booleans of an equation over [bit_F] with [lia]. *)
Ltac bit_cases :=
  unfold eq_F, xor_F;
  repeat match goal with |- context [ Z.testbit ?v ?j ] => destruct (Z.testbit v j) end; cbn [Z.b2z];
  repeat match goal with
    | |- context [ ?a <? ?b ] => destruct (Z.ltb_spec a b)
    | |- context [ ?a =? ?b ] => destruct (Z.eqb_spec a b)
    end; try lia; cbn [andb orb negb]; rewrite ?bit_F_true, ?bit_F_false; ring.


Lemma word_of_bits z w : 0 <= w -> (forall m, w <= m -> Z.testbit z m = false) -> 0 <= z < 2 ^ w.
Proof.
  intros Hw Hf. assert (E : z = z mod 2 ^ w); [|rewrite E; apply Z.mod_pos_bound; lia].
  apply Z.bits_inj'. intros m Hm. rewrite tb_mod by lia. destruct (Z.ltb_spec m w); [done|by apply Hf].
Qed.

Lemma word_high z w m : 0 <= z < 2 ^ w -> 0 <= w <= m -> Z.testbit z m = false.
Proof.
  intros Hz Hm. rewrite <- (Z.mod_small z (2 ^ w)) by done. rewrite tb_mod by lia.
  by replace (m <? w) with false by lia.
Qed.

Lemma word_land a b w : 0 <= w -> 0 <= a < 2 ^ w -> 0 <= Z.land a b < 2 ^ w.
Proof. intros Hw Ha. apply word_of_bits; [done|]. intros m Hm. by rewrite Z.land_spec, (word_high a w). Qed.

Lemma word_lor a b w : 0 <= w -> 0 <= a < 2 ^ w -> 0 <= b < 2 ^ w -> 0 <= Z.lor a b < 2 ^ w.
Proof.
  intros Hw Ha Hb. apply word_of_bits; [done|]. intros m Hm. by rewrite Z.lor_spec, (word_high a w), (word_high b w).
Qed.

Lemma word_lxor a b w : 0 <= w -> 0 <= a < 2 ^ w -> 0 <= b < 2 ^ w -> 0 <= Z.lxor a b < 2 ^ w.
Proof.
  intros Hw Ha Hb. apply word_of_bits; [done|]. intros m Hm. by rewrite Z.lxor_spec, (word_high a w), (word_high b w).
Qed.

Lemma lor_shiftl_add a b h : 0 <= h -> 0 <= a < 2 ^ h -> Z.lor a (Z.shiftl b h) = a + b * 2 ^ h.
Proof.
  intros Hh Ha. rewrite <- Z.shiftl_mul_pow2 by done. symmetry. rewrite <- Z.lxor_lor; [apply Z.add_nocarry_lxor|].
  all: apply Z.bits_inj'; intros m Hm; rewrite Z.land_spec, Z.shiftl_spec, tb_0 by done;
    destruct (Z.lt_ge_cases m h); [rewrite (Z.testbit_neg_r b) by lia; apply andb_false_r|by rewrite (word_high a h)].
Qed.

Lemma mod_pow2_succ v k : 0 <= k -> v mod 2 ^ (k + 1) = v mod 2 ^ k + 2 ^ k * Z.b2z (Z.testbit v k).
Proof.
  intros Hk. rewrite mod_succ_lor by done. destruct (Z.testbit v k); cbn [Z.b2z]; [|rewrite Z.lor_0_r; lia].
  rewrite <- (Z.mul_1_l (2 ^ k)) at 2. rewrite <- Z.shiftl_mul_pow2 by done.
  rewrite lor_shiftl_add by (done || apply Z.mod_pos_bound; lia). lia.
Qed.

(** [(z >> k) & 1] *)
Lemma shr_land_1 z k : 0 <= k -> Z.land (Z.shiftr z k) 1 = Z.b2z (Z.testbit z k).
Proof.
  intros Hk. change 1 with (Z.ones 1). rewrite Z.land_ones by lia. change (2 ^ 1) with 2.
  rewrite <- Z.bit0_mod, Z.shiftr_spec by lia. by rewrite Z.add_0_l.
Qed.

Lemma land_pow2_eqb z p : 0 <= p -> (Z.land z (2 ^ p) =? 0) = negb (Z.testbit z p).
Proof.
  intros Hp. destruct (Z.testbit z p) eqn:E; cbn [negb].
  - apply Z.eqb_neq. intros H0. apply (f_equal (fun u => Z.testbit u p)) in H0.
    by rewrite Z.land_spec, E, Z.pow2_bits_true, tb_0 in H0 by done.
  - apply Z.eqb_eq. apply Z.bits_inj'. intros m Hm. rewrite Z.land_spec, tb_0, Z.pow2_bits_eqb by done.
    destruct (Z.eqb_spec p m) as [->|_]; [by rewrite E|apply andb_false_r].
Qed.

Section Top.
Context (xl : Xlen).
Local Abbreviation W := (WIDTH xl).

(** The top [k] bits of an operand. *)
Definition top (v k : Z) : Z := Z.shiftr v (W - k).

Lemma top_0 v : 0 <= v < 2 ^ W -> top v 0 = 0.
Proof. intros Hv. unfold top. rewrite Z.sub_0_r. apply shiftr_all; [by destruct xl|done]. Qed.

Lemma top_W v : top v W = v.
Proof. unfold top. by rewrite Z.sub_diag, Z.shiftr_0_r. Qed.

Lemma top_succ v k : 0 <= k < W -> top v (k + 1) = 2 * top v k + Z.b2z (Z.testbit v (W - 1 - k)).
Proof. intros Hk. unfold top. replace (W - (k + 1)) with (W - 1 - k) by lia. by apply top_bits_step. Qed.

Lemma top_nonneg v k : 0 <= v -> 0 <= top v k.
Proof. intros Hv. by apply Z.shiftr_nonneg. Qed.

Lemma top_1 v : 0 <= v < 2 ^ W -> top v 1 = Z.b2z (Z.testbit v (W - 1)).
Proof.
  intros Hv. rewrite <- (Z.add_0_l 1) at 1. rewrite (top_succ v 0), top_0 by (done || by destruct xl). by rewrite Z.sub_0_r.
Qed.

(** The value of a word as a signed number. *)
Lemma signed_word v : 0 <= v < 2 ^ W -> as_signed_word xl v = v - 2 ^ W * Z.b2z (Z.testbit v (W - 1)).
Proof.
  intros Hv. rewrite testbit_top by (by destruct xl). rewrite Z.mod_small by done.
  destruct xl; cbn [as_signed_word WIDTH] in *; unfold as_i32, as_i64;
    change (2 ^ 32) with 4294967296 in *; change (2 ^ 64) with 18446744073709551616 in *;
    change (2 ^ (32 - 1)) with 2147483648; change (2 ^ (64 - 1)) with 9223372036854775808;
    destruct (Z.leb_spec 2147483648 v), (Z.leb_spec 9223372036854775808 v); cbn [Z.b2z]; lia.
Qed.

Lemma top_bit_half v : 0 <= v < 2 ^ W -> Z.testbit v (W - 1) = (2 ^ (W - 1) <=? v).
Proof. intros Hv. rewrite testbit_top by (by destruct xl). by rewrite Z.mod_small. Qed.

Lemma pow_W : 2 ^ W = 2 * 2 ^ (W - 1) /\ 0 < 2 ^ (W - 1).
Proof. by destruct xl. Qed.

End Top.

(** ** A point of the hypercube *)

Section Hypercube.
Context {F : Type} `{JF : JoltField F} (xl : Xlen) (idx : Z).
Hypothesis Hidx : 0 <= idx < 2 ^ (2 * WIDTH xl).

Add Ring F_ring_tac2 : F_ring.

Local Abbreviation W := (WIDTH xl).
Local Abbreviation x := (fst (uninterleave_bits idx)).
Local Abbreviation y := (snd (uninterleave_bits idx)).
Local Abbreviation pt := (bits_point (F := F) (2 * W) idx).
Local Abbreviation top := (top xl).

Lemma idx_u128 : 0 <= idx < 2 ^ 128.
Proof. pose proof Hidx. destruct xl; cbn in *; lia. Qed.

Lemma operands_bound : 0 <= x < 2 ^ W /\ 0 <= y < 2 ^ W.
Proof. apply uninterleave_bound; [|done]. by destruct xl. Qed.

Lemma pt_bit k : pt k = bit_F (Z.testbit idx (2 * W - 1 - k)).
Proof. done. Qed.

Lemma pt_x i : 0 <= i < W -> r_x pt i = bit_F (Z.testbit x (W - 1 - i)).
Proof.
  intros Hi. unfold r_x. rewrite pt_bit, uninterleave_left; [do 2 f_equal; lia|apply idx_u128|].
  pose proof (WIDTH_pos xl). lia.
Qed.

Lemma pt_y i : 0 <= i < W -> r_y pt i = bit_F (Z.testbit y (W - 1 - i)).
Proof.
  intros Hi. unfold r_y. rewrite pt_bit, uninterleave_right; [do 2 f_equal; lia|apply idx_u128|].
  pose proof (WIDTH_pos xl). lia.
Qed.

Ltac sum_bits_tac :=
  pose proof operands_bound as [Hx Hy]; apply sum_bits; rewrite XLEN_nat_Z;
  [|intros i Hi; rewrite pt_x, pt_y by lia].

Lemma and_bits : AndTable_evaluate_mle xl pt = of_Z (Z.land x y).
Proof. sum_bits_tac; [by apply word_land; [destruct xl|]|]. rewrite Z.land_spec. bits_ring. Qed.

Lemma andn_bits : AndnTable_evaluate_mle xl pt = of_Z (Z.land x (as_u64 (Z.lnot y))).
Proof.
  sum_bits_tac; [by apply word_land; [destruct xl|]|]. pose proof (WIDTH_pos xl).
  rewrite Z.land_spec, tb_u64, Z.lnot_spec by lia. replace (W - 1 - i <? 64) with true by lia. bits_ring.
Qed.

Lemma or_bits : OrTable_evaluate_mle xl pt = of_Z (Z.lor x y).
Proof. sum_bits_tac; [by apply word_lor; [destruct xl|..]|]. rewrite Z.lor_spec. bits_ring. Qed.

Lemma xor_bits : XorTable_evaluate_mle xl pt = of_Z (Z.lxor x y).
Proof. sum_bits_tac; [by apply word_lxor; [destruct xl|..]|]. rewrite Z.lxor_spec. bits_ring. Qed.

(** ** Comparisons *)

Lemma lt_eq_bits : lt_eq_loop xl pt = (bit_F (x <? y), bit_F (x =? y)).
Proof.
  pose proof operands_bound as [Hx Hy].
  assert (H : lt_eq_loop xl pt = (bit_F (top x W <? top y W), bit_F (top x W =? top y W))); [|by rewrite !top_W in H].
  rewrite <- XLEN_nat_Z at 2 3 4 5.
  apply (for_range_inv (fun k s => s = (bit_F (top x k <? top y k), bit_F (top x k =? top y k)))).
  - rewrite !top_0 by done. by rewrite Z.ltb_irrefl, Z.eqb_refl, bit_F_true, bit_F_false.
  - intros k s Hk ->. rewrite XLEN_nat_Z in Hk. unfold lt_eq_step. cbn [fst snd]. rewrite pt_x, pt_y by lia.
    rewrite !top_succ by lia. f_equal; bit_cases.
Qed.

Lemma equal_bits : EqualTable_evaluate_mle xl pt = bit_F (x =? y).
Proof.
  pose proof operands_bound as [Hx Hy].
  assert (H : EqualTable_evaluate_mle xl pt = bit_F (top x W =? top y W)); [|by rewrite !top_W in H].
  rewrite <- XLEN_nat_Z at 2 3. apply (for_range_inv (fun k s => s = bit_F (top x k =? top y k))).
  - rewrite !top_0 by done. by rewrite Z.eqb_refl, bit_F_true.
  - intros k s Hk ->. rewrite XLEN_nat_Z in Hk. rewrite pt_x, pt_y by lia. rewrite !top_succ by lia. bit_cases.
Qed.

Lemma pt_0 : pt 0 = bit_F (Z.testbit x (W - 1)).
Proof. rewrite <- (Z.sub_0_r (W - 1)). apply (pt_x 0). by destruct xl. Qed.
Lemma pt_1 : pt 1 = bit_F (Z.testbit y (W - 1)).
Proof. rewrite <- (Z.sub_0_r (W - 1)). apply (pt_y 0). by destruct xl. Qed.

Lemma signed_less_bits : SignedLessThanTable_evaluate_mle xl pt = bit_F (as_signed_word xl x <? as_signed_word xl y).
Proof.
  pose proof operands_bound as [Hx Hy]. unfold SignedLessThanTable_evaluate_mle. rewrite lt_eq_bits, pt_0, pt_1.
  cbn [fst]. rewrite !signed_word by done. pose proof (pow_W xl) as [HW _]. rewrite !top_bit_half by done.
  destruct (Z.leb_spec (2 ^ (W - 1)) x), (Z.leb_spec (2 ^ (W - 1)) y); cbn [Z.b2z]; bit_cases.
Qed.

(** ** Remainders and division by zero *)

(** The loop of the signed remainder after [k] bits. *)
Definition remainder_inv (k : Z) (s : RemainderState (F := F)) : Prop :=
  let sx := Z.testbit x (W - 1) in
  let sy := Z.testbit y (W - 1) in
  s = mkRemainderState
        (bit_F (top x k =? 0)) (bit_F (top y k =? 0))
        (bit_F (negb sx && negb sy && (top x k =? top y k)))
        (bit_F (negb sx && negb sy && ((k =? 1) || (top x k <? top y k))))
        (bit_F (sx && sy && (top x k =? top y k)))
        (bit_F (sx && sy && ((k =? 1) || (top y k <? top x k)))).

Lemma remainder_bits : remainder_inv W (remainder_loop xl pt).
Proof.
  pose proof operands_bound as [Hx Hy]. unfold remainder_loop.
  replace W with (1 + Z.of_nat (Nat.pred (XLEN_nat xl))) at 1 by (by destruct xl).
  apply (for_range_inv remainder_inv (remainder_step pt)).
  - unfold remainder_inv. rewrite !top_1, pt_0, pt_1 by done.
    destruct (Z.testbit x (W - 1)), (Z.testbit y (W - 1)); cbn [Z.b2z negb andb orb Z.eqb Pos.eqb];
      rewrite ?bit_F_true, ?bit_F_false; f_equal; ring.
  - intros k s Hk ->. rewrite XLEN_pred_Z in Hk. unfold remainder_inv, remainder_step.
    cbn [remainder_is_zero divisor_is_zero positive_remainder_equals_divisor positive_remainder_less_than_divisor
         negative_divisor_equals_remainder negative_divisor_greater_than_remainder].
    rewrite pt_x, pt_y by lia. rewrite !top_succ by lia. replace (k + 1 =? 1) with false by lia.
    pose proof (top_nonneg xl x k ltac:(lia)). pose proof (top_nonneg xl y k ltac:(lia)).
    assert (E : k = 1 -> top x k = Z.b2z (Z.testbit x (W - 1)) /\ top y k = Z.b2z (Z.testbit y (W - 1)))
      by (intros ->; by rewrite !top_1).
    set (X := top x k) in *. set (Y := top y k) in *.
    destruct (Z.testbit x (W - 1)), (Z.testbit y (W - 1)); cbn [negb andb]; cbn [Z.b2z] in E;
      (destruct (Z.eqb_spec k 1) as [Ek|Ek]; [destruct (E Ek)|clear E]); cbn [orb]; f_equal; bit_cases.
Qed.

Lemma signed_remainder_bits : ValidSignedRemainderTable_evaluate_mle xl pt = of_Z (ValidSignedRemainderTable_materialize_entry xl idx).
Proof.
  pose proof operands_bound as [Hx Hy]. pose proof (pow_W xl) as [HW HW0].
  unfold ValidSignedRemainderTable_evaluate_mle, ValidSignedRemainderTable_materialize_entry. cbv zeta.
  rewrite (surjective_pairing (uninterleave_bits idx)). rewrite remainder_bits, pt_1. unfold TableMle.top.
  cbn [remainder_is_zero divisor_is_zero positive_remainder_less_than_divisor negative_divisor_greater_than_remainder].
  rewrite Z.sub_diag, !Z.shiftr_0_r, !signed_word by done. replace (W =? 1) with false by (by destruct xl). cbn [orb].
  assert (Hs : forall v, 0 <= v < 2 ^ W -> Z.shiftr (v - 2 ^ W * Z.b2z (Z.testbit v (W - 1))) (W - 1) = - Z.b2z (Z.testbit v (W - 1))).
  { intros v Hv. rewrite Z.shiftr_div_pow2 by (destruct xl; cbn; lia). rewrite top_bit_half by done. rewrite HW in *.
    destruct (Z.leb_spec (2 ^ (W - 1)) v); cbn [Z.b2z].
    - replace (v - 2 * 2 ^ (W - 1) * 1) with ((v - 2 ^ (W - 1)) + (-1) * 2 ^ (W - 1)) by lia.
      rewrite Z.div_add, Z.div_small by lia. done.
    - rewrite Z.mul_0_r, Z.sub_0_r. apply Z.div_small. lia. }
  rewrite !Hs by done. rewrite !top_bit_half by done.
  destruct (Z.leb_spec (2 ^ (W - 1)) x), (Z.leb_spec (2 ^ (W - 1)) y); cbn [Z.b2z negb andb orb];
    rewrite ?(proj2 (Z.eqb_eq _ _)) by lia; rewrite ?(proj2 (Z.eqb_neq (- 1) (- 0))), ?(proj2 (Z.eqb_neq (- 0) (- 1))) by lia.
  all: rewrite ?andb_false_r, ?andb_true_r.
  all: match goal with |- _ = of_Z (if ?b then 1 else bool_u64 ?c) =>
      transitivity (of_Z (F := F) (bool_u64 (b || c))); [rewrite bool_bit|by destruct b] end.
  all: bit_cases.
Qed.

End Hypercube.
