(* ===== verification/TableMleRest.v ===== *)
(** * The remaining tables at the points of the hypercube

    Division by zero, words and half words, powers of two and bitmasks, byte
    reversal, shifts, rotations and the divisor changes. *)

From Stdlib Require Import ZArith Lia List Bool.
From stdpp Require Import base list.
From S2P Require Import Prelude Words Types Field Exec LookupTables TableMl BitOps TableMle.
Local Open Scope Z_scope.
Local Open Scope rust_scope.

Section Hypercube.
Context {F : Type} `{JF : JoltField F} (xl : Xlen) (idx : Z).
Hypothesis Hidx : 0 <= idx < 2 ^ (2 * WIDTH xl).

Add Ring F_ring_tac3 : F_ring.

Local Abbreviation W := (WIDTH xl).
Local Abbreviation x := (fst (uninterleave_bits idx)).
Local Abbreviation y := (snd (uninterleave_bits idx)).
Local Abbreviation pt := (bits_point (F := F) (2 * W) idx).
Local Abbreviation top := (top xl).

Lemma unsigned_remainder_bits : ValidUnsignedRemainderTable_evaluate_mle xl pt = bit_F ((y =? 0) || (x <? y)).
Proof.
  destruct (operands_bound xl idx Hidx) as [Hx Hy]. unfold ValidUnsignedRemainderTable_evaluate_mle. cbv zeta.
  pose (P := fun k s => s = (bit_F (top y k =? 0), (bit_F (top x k <? top y k), bit_F (F := F) (top x k =? top y k)))).
  assert (H : P (0 + Z.of_nat (XLEN_nat xl)) (for_range (XLEN_nat xl) 0 (fone, (fzero, fone)) (unsigned_remainder_step pt))).
  { apply for_range_inv; unfold P.
    - rewrite !top_0 by done. by rewrite Z.ltb_irrefl, Z.eqb_refl, bit_F_true, bit_F_false.
    - intros k s Hk ->. rewrite XLEN_nat_Z in Hk. unfold unsigned_remainder_step, lt_eq_step. cbn [fst snd].
      rewrite pt_x, pt_y by (done || lia). rewrite !top_succ by lia. pose proof (top_nonneg xl y k ltac:(lia)).
      repeat f_equal; bit_cases. }
  rewrite Z.add_0_l, XLEN_nat_Z in H. rewrite H, !top_W. cbn [fst snd]. bit_cases.
Qed.

Lemma valid_div0_bits : ValidDiv0Table_evaluate_mle xl pt = bit_F (negb (x =? 0) || (y =? 2 ^ W - 1)).
Proof.
  destruct (operands_bound xl idx Hidx) as [Hx Hy]. unfold ValidDiv0Table_evaluate_mle. cbv zeta.
  pose (P := fun k s => s = (bit_F (top x k =? 0), bit_F (F := F) ((top x k =? 0) && (top y k =? 2 ^ k - 1)))).
  assert (H : P (0 + Z.of_nat (XLEN_nat xl)) (for_range (XLEN_nat xl) 0 (fone, fone) (valid_div0_step pt))).
  { apply for_range_inv; unfold P.
    - rewrite !top_0 by done. change (2 ^ 0 - 1) with 0. rewrite Z.eqb_refl. cbn [andb]. by rewrite bit_F_true.
    - intros k s Hk ->. rewrite XLEN_nat_Z in Hk. unfold valid_div0_step. cbn [fst snd].
      rewrite pt_x, pt_y by (done || lia). rewrite !top_succ by lia. pose proof (top_nonneg xl x k ltac:(lia)).
      rewrite Z.add_1_r, Z.pow_succ_r by lia. f_equal; bit_cases. }
  rewrite Z.add_0_l, XLEN_nat_Z in H. rewrite H, !top_W. cbn [fst snd]. bit_cases.
Qed.

(** ** Words and half words *)

Lemma range_check_bits : RangeCheckTable_evaluate_mle xl pt = of_Z (idx mod 2 ^ W).
Proof.
  apply sum_bits; rewrite XLEN_nat_Z; [apply Z.mod_pos_bound; by destruct xl|]. intros i Hi.
  rewrite pt_bit, tb_mod by lia. replace (2 * W - 1 - (W + i)) with (W - 1 - i) by lia.
  replace (W - 1 - i <? W) with true by lia. bits_ring.
Qed.

Lemma upper_word_bits : UpperWordTable_evaluate_mle xl pt = of_Z (Z.shiftr idx W).
Proof.
  apply sum_bits; rewrite XLEN_nat_Z.
  - rewrite Z.shiftr_div_pow2 by (by destruct xl). split; [apply Z.div_pos; [lia|by destruct xl]|].
    apply Z.div_lt_upper_bound; [by destruct xl|]. rewrite <- Z.pow_add_r by (by destruct xl).
    replace (W + W) with (2 * W) by lia. apply Hidx.
  - intros i Hi. rewrite pt_bit, Z.shiftr_spec by lia. replace (2 * W - 1 - i) with (W - 1 - i + W) by lia. bits_ring.
Qed.

Lemma half_word_bits : LowerHalfWordTable_evaluate_mle xl pt = of_Z (idx mod 2 ^ (W / 2)).
Proof.
  apply sum_bits; rewrite HALF_nat_Z; [apply Z.mod_pos_bound; by destruct xl|]. intros i Hi.
  rewrite pt_bit, tb_mod by lia. pose proof (WIDTH_pos xl).
  replace (2 * W - 1 - (W + W / 2 + i)) with (W / 2 - 1 - i) by lia.
  replace (W / 2 - 1 - i <? W / 2) with true by lia. bits_ring.
Qed.

Lemma sign_extend_bits : SignExtendHalfWordTable_evaluate_mle xl pt = of_Z (SignExtendHalfWordTable_materialize_entry xl idx).
Proof.
  unfold SignExtendHalfWordTable_evaluate_mle, SignExtendHalfWordTable_materialize_entry. cbv zeta.
  fold (LowerHalfWordTable_evaluate_mle xl pt). rewrite half_word_bits, pt_bit. pose proof (WIDTH_pos xl) as [HW HW2].
  replace (2 * W - 1 - (W + W / 2)) with (W / 2 - 1) by lia. set (b := Z.testbit idx (W / 2 - 1)).
  assert (Hs : sum_range (HALF_nat xl) (fun i => (pow2_F (W / 2 - 1 - i) * bit_F b)%J) = of_Z (F := F) (if b then Z.ones (W / 2) else 0)).
  { apply sum_bits; rewrite HALF_nat_Z.
    - destruct b; [rewrite Z.ones_equiv|]; destruct xl; cbn; lia.
    - intros i Hi. destruct b; [rewrite Z.ones_spec_low by lia|rewrite tb_0]; bits_ring. }
  rewrite Hs. set (lo := idx mod 2 ^ (W / 2)).
  assert (Hlo : 0 <= lo < 2 ^ (W / 2)) by (apply Z.mod_pos_bound; by destruct xl).
  assert (Hu : as_u64 lo = lo) by (apply as_u64_small; split; [lia|apply (Z.lt_le_trans _ (2 ^ (W / 2))); [lia|by destruct xl]]). rewrite Hu.
  assert (Hb : (Z.land (Z.shiftr lo (W / 2 - 1)) 1 =? 1) = b).
  { rewrite shr_land_1 by lia. unfold lo. rewrite tb_mod by lia. replace (W / 2 - 1 <? W / 2) with true by lia.
    fold b. by destruct b. }
  rewrite Hb. assert (Hz : as_u64 (Z.shiftl (2 ^ (W / 2) - 1) (W / 2)) = Z.shiftl (2 ^ (W / 2) - 1) (W / 2)) by (by destruct xl).
  destruct b; [|rewrite of_Z_0; ring]. rewrite Hz, lor_shiftl_add by lia.
  rewrite Z.ones_equiv, of_Z_add, of_Z_mul. by rewrite <- Z.sub_1_r.
Qed.

Lemma movsign_bits : MovsignTable_evaluate_mle xl pt = of_Z (MovsignTable_materialize_entry xl idx).
Proof.
  unfold MovsignTable_evaluate_mle, MovsignTable_materialize_entry. rewrite pt_bit, land_pow2_eqb by (by destruct xl).
  rewrite negb_involutive, Z.sub_0_r. assert (E : as_u64 (2 ^ W - 1) = 2 ^ W - 1) by (by destruct xl). rewrite E.
  destruct (Z.testbit _ _); rewrite ?bit_F_true, ?bit_F_false, ?of_Z_0; ring.
Qed.

Lemma no_overflow_bits : MulUNoOverflowTable_evaluate_mle xl pt = bit_F (Z.shiftr idx W =? 0).
Proof.
  pose (P := fun k s => s = bit_F (F := F) (Z.shiftr idx (2 * W - k) =? 0)).
  assert (H : P (0 + Z.of_nat (XLEN_nat xl)) (MulUNoOverflowTable_evaluate_mle xl pt)).
  { unfold MulUNoOverflowTable_evaluate_mle, prod_range. apply for_range_inv; unfold P.
    - rewrite Z.sub_0_r, shiftr_all by (done || by destruct xl). by rewrite Z.eqb_refl, bit_F_true.
    - intros k s Hk ->. rewrite XLEN_nat_Z in Hk. rewrite pt_bit. replace (2 * W - (k + 1)) with (2 * W - 1 - k) by lia.
      rewrite (top_bits_step idx (2 * W) k) by lia. pose proof (proj2 (Z.shiftr_nonneg idx (2 * W - k)) ltac:(lia)).
      bit_cases. }
  unfold P in H. rewrite Z.add_0_l, XLEN_nat_Z in H. by replace (2 * W - W) with W in H by lia.
Qed.

Lemma halfword_bits : HalfwordAlignmentTable_evaluate_mle xl pt = bit_F (idx mod 2 =? 0).
Proof.
  unfold HalfwordAlignmentTable_evaluate_mle. rewrite pt_bit. replace (2 * W - 1 - (2 * W - 1)) with 0 by lia.
  rewrite <- Z.bit0_mod. destruct (Z.testbit idx 0); cbn [Z.b2z Z.eqb]; rewrite ?bit_F_true, ?bit_F_false; ring.
Qed.

Lemma mod4_bits : idx mod 4 = Z.b2z (Z.testbit idx 0) + 2 * Z.b2z (Z.testbit idx 1).
Proof.
  change 4 with (2 ^ (1 + 1)). rewrite mod_pow2_succ by lia. change (2 ^ 1) with 2 at 1. by rewrite <- Z.bit0_mod.
Qed.

Lemma word_bits : WordAlignmentTable_evaluate_mle xl pt = bit_F (idx mod 4 =? 0).
Proof.
  unfold WordAlignmentTable_evaluate_mle. rewrite !pt_bit, mod4_bits. replace (2 * W - 1 - (2 * W - 1)) with 0 by lia.
  replace (2 * W - 1 - (2 * W - 2)) with 1 by lia. bit_cases.
Qed.

End Hypercube.
