(* ===== verification/TableMleShift.v ===== *)
(** * Agreement of the shift, rotation and divisor tables

    The tables whose entries are computed by a loop over the bits of the operands
    ([virtual_srl.rs], [virtual_sra.rs], [virtual_rotr.rs], [virtual_rotrw.rs]) or
    whose evaluation sums permuted bits ([virtual_rev8w.rs], [virtual_xor_rot.rs],
    [virtual_xor_rotw.rs]), and the masks and adjusted divisors. *)

From Stdlib Require Import ZArith Lia List Bool.
From stdpp Require Import base list.
From S2P Require Import Prelude Words Types Field Exec LookupTables TableMl BitOps TableMle.
Local Open Scope Z_scope.

(** ** Sums and products of bits *)

Section Sums.
Context {F : Type} `{JF : JoltField F}.

Add Ring F_ring_tac4 : F_ring.

(** The bits of [v] at ascending weights. *)
Lemma sum_bits_low n (term : Z -> F) v :
  (forall i, 0 <= i < Z.of_nat n -> term i = of_Z (2 ^ i * Z.b2z (Z.testbit v i))) ->
  sum_range n term = of_Z (v mod 2 ^ Z.of_nat n).
Proof.
  intros Ht. pose (P := fun k s => s = of_Z (F := F) (v mod 2 ^ k)).
  assert (H : P (0 + Z.of_nat n) (sum_range n term)); [|exact H].
  unfold sum_range. apply for_range_inv; unfold P.
  - change (2 ^ 0) with 1. by rewrite Z.mod_1_r, of_Z_0.
  - intros k s Hk ->. rewrite Ht, mod_pow2_succ by lia. by rewrite of_Z_add.
Qed.

(** The sum picks the term of one index. *)
Lemma sum_select n (g : Z -> Z) t (term : Z -> F) : 0 <= t < Z.of_nat n ->
  (forall i, 0 <= i < Z.of_nat n -> term i = (of_Z (g i) * bit_F (i =? t))%J) ->
  sum_range n term = of_Z (g t).
Proof.
  intros Ht Hterm. pose (P := fun k s => s = (of_Z (F := F) (g t) * bit_F (t <? k))%J).
  assert (H : P (0 + Z.of_nat n) (sum_range n term)).
  { unfold sum_range. apply for_range_inv; unfold P.
    - replace (t <? 0) with false by lia. rewrite bit_F_false. ring.
    - intros k s Hk ->. rewrite Hterm by lia.
      destruct (Z.eqb_spec k t) as [->|]; [replace (t <? t) with false by lia; replace (t <? t + 1) with true by lia
        |replace (t <? k + 1) with (t <? k) by lia]; rewrite ?bit_F_true, ?bit_F_false; ring. }
  unfold P in H. replace (t <? 0 + Z.of_nat n) with true in H by lia. rewrite H, bit_F_true. ring.
Qed.

(** The product of the bits of [v] tells [v] is all ones. *)
Lemma prod_ones n i0 (factor : Z -> F) v : 0 <= v < 2 ^ Z.of_nat n ->
  (forall i, 0 <= i < Z.of_nat n -> factor (i0 + i) = bit_F (Z.testbit v (Z.of_nat n - 1 - i))) ->
  for_range n i0 fone (fun i p => (p * factor i)%J) = bit_F (v =? 2 ^ Z.of_nat n - 1).
Proof.
  intros Hv Hf. set (N := Z.of_nat n) in *.
  pose (P := fun k s => s = bit_F (F := F) (Z.shiftr v (N - (k - i0)) =? 2 ^ (k - i0) - 1)).
  assert (H : P (i0 + N) (for_range n i0 fone (fun i p => (p * factor i)%J))).
  { apply for_range_inv; unfold P.
    - rewrite Z.sub_diag, Z.sub_0_r, shiftr_all by lia. by rewrite bit_F_true.
    - intros k s Hk ->. replace k with (i0 + (k - i0)) at 3 by lia. rewrite Hf by lia.
      replace (k + 1 - i0) with (Z.succ (k - i0)) by lia. replace (N - Z.succ (k - i0)) with (N - 1 - (k - i0)) by lia.
      rewrite (top_bits_step v N (k - i0)), Z.pow_succ_r by lia. bit_cases. }
  unfold P in H. replace (i0 + N - i0) with N in H by lia. by rewrite Z.sub_diag, Z.shiftr_0_r in H.
Qed.

(** The top bit times the complements of the others tells [v] is the sign bit. *)
Lemma prod_min n i0 (factor : Z -> F) v : 0 <= v < 2 ^ (Z.of_nat n + 1) ->
  (forall i, 1 <= i < Z.of_nat n + 1 -> factor (i0 + i) = (1 - bit_F (Z.testbit v (Z.of_nat n - i)))%J) ->
  for_range n (i0 + 1) (bit_F (Z.testbit v (Z.of_nat n))) (fun i p => (p * factor i)%J) = bit_F (v =? 2 ^ Z.of_nat n).
Proof.
  intros Hv Hf. set (N := Z.of_nat n) in *.
  pose (P := fun k s => s = bit_F (F := F) (Z.shiftr v (N + 1 - (k - i0)) =? 2 ^ (k - i0 - 1))).
  assert (H : P (i0 + 1 + N) (for_range n (i0 + 1) (bit_F (Z.testbit v N)) (fun i p => (p * factor i)%J))).
  { apply for_range_inv; unfold P.
    - replace (i0 + 1 - i0) with 1 by lia. pose proof (top_bits_step v (N + 1) 0 ltac:(lia)) as E.
      rewrite !Z.sub_0_r, (shiftr_all v (N + 1)) in E by lia. replace (N + 1 - 1) with N in * by lia.
      rewrite E. by destruct (Z.testbit v N).
    - intros k s Hk ->. replace k with (i0 + (k - i0)) at 3 by lia. rewrite Hf by lia.
      replace (N + 1 - (k + 1 - i0)) with (N + 1 - 1 - (k - i0)) by lia. rewrite (top_bits_step v (N + 1) (k - i0)) by lia.
      replace (k + 1 - i0 - 1) with (Z.succ (k - i0 - 1)) by lia. rewrite Z.pow_succ_r by lia.
      replace (N + 1 - 1 - (k - i0)) with (N - (k - i0)) by lia. bit_cases. }
  unfold P in H. replace (i0 + 1 + N - i0) with (N + 1) in H by lia. rewrite Z.sub_diag, Z.shiftr_0_r in H.
  by replace (N + 1 - 1) with N in H by lia.
Qed.

End Sums.

Lemma log_w_pow xl : 2 ^ Z.of_nat (Z.to_nat (log_w xl)) = WIDTH xl /\ Z.of_nat (Z.to_nat (log_w xl)) <= WIDTH xl.
Proof. by destruct xl. Qed.

Lemma pop_msb_bit v n : 0 < n ->
  pop_msb (mkLookupBits (v mod 2 ^ n) n) = (Z.b2z (Z.testbit v (n - 1)), mkLookupBits (v mod 2 ^ (n - 1)) (n - 1)).
Proof.
  intros Hn. unfold pop_msb. cbn [lb_bits lb_len]. rewrite shr_land_1, tb_mod by lia.
  replace (n - 1 <? n) with true by lia. f_equal. f_equal. replace n with ((n - 1) + 1) at 1 by lia.
  rewrite mod_pow2_succ by lia. rewrite Z.mul_comm, Z_mod_plus_full. apply Zmod_mod.
Qed.

(** ** A point of the hypercube *)

Section Hypercube.
Context {F : Type} `{JF : JoltField F} (xl : Xlen) (idx : Z).
Hypothesis Hidx : 0 <= idx < 2 ^ (2 * WIDTH xl).

Add Ring F_ring_tac5 : F_ring.

Local Abbreviation W := (WIDTH xl).
Local Abbreviation x := (fst (uninterleave_bits idx)).
Local Abbreviation y := (snd (uninterleave_bits idx)).
Local Abbreviation pt := (bits_point (F := F) (2 * W) idx).

(** The product of the bitmask loop compares the low bits with [s]. *)
Lemma eq_val_bits s n : 0 <= s -> Z.of_nat n <= W ->
  prod_range n (fun i => if Z.land (Z.shiftr s i) 1 =? 0 then (1 - pt (2 * W - i - 1)%Z)%J else pt (2 * W - i - 1))
  = bit_F (s mod 2 ^ Z.of_nat n =? idx mod 2 ^ Z.of_nat n).
Proof.
  intros Hs Hn. pose (P := fun k p => p = bit_F (F := F) (s mod 2 ^ k =? idx mod 2 ^ k)).
  match goal with |- ?l = _ => assert (H : P (0 + Z.of_nat n) l); [|exact H] end.
  unfold prod_range. apply for_range_inv; unfold P.
  - change (2 ^ 0) with 1. by rewrite !Z.mod_1_r, bit_F_true.
  - intros k p Hk ->. rewrite shr_land_1, pt_bit, !mod_pow2_succ by lia. replace (2 * W - 1 - (2 * W - k - 1)) with k by lia.
    assert (0 <= s mod 2 ^ k < 2 ^ k) by (apply Z.mod_pos_bound; lia).
    assert (0 <= idx mod 2 ^ k < 2 ^ k) by (apply Z.mod_pos_bound; lia).
    destruct (Z.testbit s k), (Z.testbit idx k); cbn [Z.b2z Z.eqb]; rewrite ?Z.mul_0_r, ?Z.mul_1_r, ?Z.add_0_r; bit_cases.
Qed.

Lemma bitmask_entry : ShiftRightBitmaskTable_materialize_entry xl idx = (2 ^ (W - idx mod W) - 1) * 2 ^ (idx mod W).
Proof.
  pose proof (WIDTH_pos xl) as [HW _]. unfold ShiftRightBitmaskTable_materialize_entry. cbv zeta. set (t := idx mod W).
  assert (Ht : 0 <= t < W) by (apply Z.mod_pos_bound; lia).
  assert (0 < 2 ^ (W - t) <= 2 ^ 64) by (split; [lia|apply Z.pow_le_mono_r; lia]).
  rewrite (as_u64_small (2 ^ (W - t) - 1)) by (unfold is_u64; lia). rewrite Z.shiftl_mul_pow2 by lia.
  apply as_u64_small. rewrite Z.mul_sub_distr_r, <- Z.pow_add_r by lia. replace (W - t + t) with W by lia.
  assert (2 ^ t <= 2 ^ W <= 2 ^ 64) by (split; apply Z.pow_le_mono_r; lia). unfold is_u64. lia.
Qed.

Lemma bitmask_bits : ShiftRightBitmaskTable_evaluate_mle xl pt = of_Z (ShiftRightBitmaskTable_materialize_entry xl idx).
Proof.
  rewrite bitmask_entry. pose proof (WIDTH_pos xl) as [HW _].
  apply (sum_select _ (fun s => (2 ^ (W - s) - 1) * 2 ^ s)); rewrite XLEN_nat_Z; [apply Z.mod_pos_bound; lia|].
  intros s Hs. destruct (log_w_pow xl) as [E Hn]. cbv zeta. rewrite eq_val_bits by lia. by rewrite E, (Z.mod_small s) by lia.
Qed.

Lemma pow2_bits n : Z.of_nat n <= W -> prod_range n (fun i => (1 + of_Z (2 ^ (2 ^ i) - 1)%Z * pt (2 * W - i - 1)%Z)%J)
  = of_Z (2 ^ (idx mod 2 ^ Z.of_nat n)).
Proof.
  intros Hn. pose (P := fun k s => s = of_Z (F := F) (2 ^ (idx mod 2 ^ k))).
  match goal with |- ?l = _ => assert (H : P (0 + Z.of_nat n) l); [|exact H] end.
  unfold prod_range. apply for_range_inv; unfold P.
  - change (2 ^ 0) with 1. by rewrite Z.mod_1_r, of_Z_1.
  - intros k s Hk ->. rewrite pt_bit. replace (2 * W - 1 - (2 * W - k - 1)) with k by lia.
    rewrite mod_pow2_succ by lia. assert (0 <= idx mod 2 ^ k < 2 ^ k) by (apply Z.mod_pos_bound; lia).
    destruct (Z.testbit idx k); cbn [Z.b2z]; rewrite ?bit_F_true, ?bit_F_false.
    + rewrite Z.mul_1_r, Z.pow_add_r by lia. rewrite of_Z_mul, of_Z_sub, of_Z_1. ring.
    + rewrite Z.mul_0_r, Z.add_0_r. ring.
Qed.

(** ** Bytes *)

Lemma rev8w_byte_bits k : 0 <= k < 8 -> rev8w_byte xl pt k = of_Z (Z.shiftr idx (8 * k) mod 2 ^ 8).
Proof.
  intros Hk. apply (sum_bits_low 8). intros i Hi. rewrite pt_bit, Z.shiftr_spec by lia.
  replace (2 * W - 1 - (2 * W - 1 - 8 * k - i)) with (i + 8 * k) by lia. bits_ring.
Qed.

Lemma byte_at_range z k : 0 <= byte_at z k < 256.
Proof. unfold byte_at. change 255 with (Z.ones 8). rewrite Z.land_ones by lia. apply Z.mod_pos_bound. lia. Qed.

Lemma swap_bytes_sum z :
  swap_bytes_u32 z = byte_at z 3 + byte_at z 2 * 2 ^ 8 + byte_at z 1 * 2 ^ 16 + byte_at z 0 * 2 ^ 24.
Proof.
  unfold swap_bytes_u32. pose proof (byte_at_range z 0). pose proof (byte_at_range z 1).
  pose proof (byte_at_range z 2). pose proof (byte_at_range z 3).
  rewrite (Z.lor_comm (Z.shiftl (byte_at z 2) 8)), lor_shiftl_add by lia.
  rewrite (Z.lor_comm (Z.shiftl (byte_at z 1) 16)), lor_shiftl_add by lia.
  rewrite (Z.lor_comm (Z.shiftl (byte_at z 0) 24)), lor_shiftl_add by lia. lia.
Qed.

Lemma byte_lo k : 0 <= k < 4 -> byte_at (as_u32 (as_u64 idx)) k = Z.shiftr idx (8 * k) mod 2 ^ 8.
Proof.
  intros Hk. unfold byte_at. change 255 with (Z.ones 8). rewrite Z.land_ones by lia. apply Z.bits_inj'. intros m Hm.
  rewrite !tb_mod, !tb_shiftr, tb_u32, tb_u64 by lia. destruct (Z.ltb_spec m 8); [|done].
  replace (m + 8 * k <? 32) with true by lia. by replace (m + 8 * k <? 64) with true by lia.
Qed.

Lemma byte_hi k : 0 <= k < 4 -> byte_at (as_u32 (Z.shiftr (as_u64 idx) 32)) k = Z.shiftr idx (8 * (k + 4)) mod 2 ^ 8.
Proof.
  intros Hk. unfold byte_at. change 255 with (Z.ones 8). rewrite Z.land_ones by lia. apply Z.bits_inj'. intros m Hm.
  rewrite !tb_mod, !tb_shiftr, tb_u32, tb_shiftr, tb_u64 by lia. destruct (Z.ltb_spec m 8); [|done].
  replace (m + 8 * k <? 32) with true by lia. replace (m + 8 * k + 32 <? 64) with true by lia.
  replace (0 <=? m + 8 * k) with true by lia. by replace (m + 8 * (k + 4)) with (m + 8 * k + 32) by lia.
Qed.

Lemma rev8w_bits : VirtualRev8WTable_evaluate_mle xl pt = of_Z (VirtualRev8WTable_materialize_entry idx).
Proof.
  unfold VirtualRev8WTable_materialize_entry, rev8w. cbv zeta. rewrite !swap_bytes_sum, !byte_lo, !byte_hi by lia.
  set (b := fun k => Z.shiftr idx (8 * k) mod 2 ^ 8).
  assert (Hb : forall k, 0 <= b k < 2 ^ 8) by (intros; apply Z.mod_pos_bound; lia).
  change (VirtualRev8WTable_evaluate_mle xl pt = of_Z (b 3 + b 2 * 2 ^ 8 + b 1 * 2 ^ 16 + b 0 * 2 ^ 24
    + as_u64 (Z.shiftl (b 7 + b 6 * 2 ^ 8 + b 5 * 2 ^ 16 + b 4 * 2 ^ 24) 32))).
  pose proof (Hb 4). pose proof (Hb 5). pose proof (Hb 6). pose proof (Hb 7).
  rewrite Z.shiftl_mul_pow2, as_u64_small by (unfold is_u64; lia).
  set (B := rev8w_byte xl pt).
  assert (E : VirtualRev8WTable_evaluate_mle xl pt = (0 + B 3 * of_Z (2 ^ 0) + B 2 * of_Z (2 ^ 8) + B 1%Z * of_Z (2 ^ 16)
    + B 0%Z * of_Z (2 ^ 24) + B 7 * of_Z (2 ^ 32) + B 6 * of_Z (2 ^ 8 * 2 ^ 32) + B 5 * of_Z (2 ^ 16 * 2 ^ 32)
    + B 4 * of_Z (2 ^ 24 * 2 ^ 32))%J) by reflexivity.
  assert (HB : forall k, 0 <= k < 8 -> B k = of_Z (b k)) by apply rev8w_byte_bits. rewrite E.
  rewrite (HB 0), (HB 1), (HB 2), (HB 3), (HB 4), (HB 5), (HB 6), (HB 7) by lia.
  change (2 ^ 0) with 1. rewrite !of_Z_add, !of_Z_mul, !of_Z_add, !of_Z_mul, of_Z_1. ring.
Qed.

(** ** Right shifts *)

(** The integer loop pops the bits the field loop reads. *)
Definition shift_rel (k : Z) (s : Z * Z * LookupBits * LookupBits) (f : F * F) : Prop :=
  let '(entry, sign_extension, xb, yb) := s in
  xb = mkLookupBits (x mod 2 ^ (W - k)) (W - k) /\ yb = mkLookupBits (y mod 2 ^ (W - k)) (W - k) /\
  f = (of_Z entry, of_Z sign_extension).

Lemma shift_bits : shift_rel W (shift_loop xl x y) (shift_mle_loop xl pt).
Proof.
  pose proof (operands_bound xl idx Hidx) as [Hx Hy]. pose proof (WIDTH_pos xl) as [HW _].
  assert (H : shift_rel (0 + Z.of_nat (XLEN_nat xl)) (shift_loop xl x y) (shift_mle_loop xl pt)); [|by rewrite Z.add_0_l, XLEN_nat_Z in H].
  unfold shift_loop, shift_mle_loop. apply for_range_rel.
  - unfold shift_rel, LookupBits_new. replace (W <? 128) with true by lia. by rewrite Z.sub_0_r, of_Z_0.
  - intros k [[[e se] xb] yb] f Hk (-> & -> & ->). rewrite XLEN_nat_Z in Hk. unfold shift_step, shift_mle_step.
    rewrite !pop_msb_bit by lia. cbn [fst snd]. rewrite pt_x, pt_y by (done || lia). unfold shift_rel.
    replace (W - (k + 1)) with (W - k - 1) by lia. split_and!; [done..|]. replace (W - 1 - k) with (W - k - 1) by lia.
    f_equal; [|destruct (k =? 0); [done|]]; rewrite ?of_Z_add, ?of_Z_mul, ?of_Z_sub, ?of_Z_add, ?of_Z_1; unfold pow2_F;
      change (of_Z (Z.b2z ?b)) with (bit_F (F := F) b); ring.
Qed.

Lemma srl_bits : VirtualSRLTable_evaluate_mle xl pt = of_Z (srl_entry xl x y).
Proof.
  unfold VirtualSRLTable_evaluate_mle, srl_entry. pose proof shift_bits as H.
  destruct (shift_loop xl x y) as [[[e se] xb] yb]. destruct H as (_ & _ & ->). done.
Qed.

Lemma sra_bits : VirtualSRATable_evaluate_mle xl pt = of_Z (sra_entry xl x y).
Proof.
  unfold VirtualSRATable_evaluate_mle, sra_entry. pose proof shift_bits as H. pose proof (WIDTH_pos xl) as [HW _].
  destruct (shift_loop xl x y) as [[[e se] xb] yb]. destruct H as (_ & _ & ->). cbn [fst snd].
  unfold no_leading_ones, LookupBits_new. replace (W <? 128) with true by lia. cbn [lb_bits lb_len].
  rewrite shr_land_1, tb_mod, pt_0 by (done || lia). replace (W - 1 <? W) with true by lia. cbn [andb].
  rewrite of_Z_add, of_Z_mul. destruct (Z.testbit x (W - 1)); cbn [Z.b2z Z.eqb]; rewrite ?bit_F_true, ?bit_F_false, ?of_Z_0, ?of_Z_1; ring.
Qed.

End Hypercube.
