(* ===== verification/TableMleRot.v ===== *)
(** * Agreement of the rotation and divisor tables, and the whole family

    The tables of [virtual_rotr.rs], [virtual_rotrw.rs], [virtual_xor_rot.rs],
    [virtual_xor_rotw.rs] and [virtual_change_divisor{,_w}.rs], then the theorem on
    all tables: [evaluate_mle] is the multilinear extension of the table. *)

From Stdlib Require Import ZArith Lia List Bool.
From stdpp Require Import base list.
From S2P Require Import Prelude Words Types Field Exec LookupTables TableMl BitOps TableMle TableMleRest TableMleShift.
Local Open Scope Z_scope.
Local Open Scope rust_scope.

#[local] Opaque uninterleave_bits.

Lemma for_range_app {A} (body : Z -> A -> A) n m : forall i s,
  for_range (n + m) i s body = for_range m (i + Z.of_nat n) (for_range n i s body) body.
Proof.
  induction n as [|n IH]; intros i s; [by rewrite Z.add_0_r|].
  cbn [Nat.add for_range]. rewrite IH. f_equal. lia.
Qed.

(** ** Rotations *)

(** [z] rotated right by [r] in [n] bits. *)
Definition rotated (n z r : Z) : Z := Z.shiftr z r + 2 ^ (n - r) * (z mod 2 ^ r).

Lemma shiftr_word n z r : 0 <= r <= n -> 0 <= z < 2 ^ n -> 0 <= Z.shiftr z r < 2 ^ (n - r).
Proof.
  intros Hr Hz. rewrite Z.shiftr_div_pow2 by lia. split; [apply Z.div_pos; lia|]. apply Z.div_lt_upper_bound; [lia|].
  rewrite <- Z.pow_add_r by lia. replace (r + (n - r)) with n; lia.
Qed.

Lemma rotated_lor n z r : 0 <= r < n -> 0 <= z < 2 ^ n ->
  Z.lor (Z.shiftr z r) (Z.shiftl z ((n - r) mod n)) mod 2 ^ n = rotated n z r.
Proof.
  intros Hr Hz. unfold rotated. destruct (Z.eq_dec r 0) as [->|].
  - rewrite Z.sub_0_r, Z_mod_same_full, Z.shiftr_0_r, Z.shiftl_0_r, Z.lor_diag, Z.mod_small by done.
    change (2 ^ 0) with 1. rewrite Z.mod_1_r. lia.
  - rewrite (Z.mod_small (n - r)) by lia.
    pose proof (shiftr_word n z r ltac:(lia) Hz) as H1.
    rewrite (Z.mul_comm (2 ^ (n - r))). rewrite <- lor_shiftl_add by lia. apply Z.bits_inj'. intros m Hm.
    rewrite tb_mod, !Z.lor_spec, !tb_shiftl, tb_mod by lia. destruct (Z.ltb_spec m n).
    + by replace (m - (n - r) <? r) with true by lia.
    + replace (m - (n - r) <? r) with false by lia. cbn [andb]. rewrite andb_false_r, orb_false_r.
      symmetry. apply (word_high _ (n - r)); [done|lia].
Qed.

Section Rotations.
Context {F : Type} `{JF : JoltField F}.

Add Ring F_ring_tac6 : F_ring.

(** Bits [n-1 .. 0] of [z] summed at their rotated weights. *)
Lemma sum_rotated n i0 R z (term : Z -> F) : 0 < Z.of_nat n -> 0 <= z < 2 ^ Z.of_nat n ->
  (forall i, 0 <= i < Z.of_nat n ->
     term (i0 + i) = of_Z (2 ^ (Z.of_nat n - 1 - (i + R) mod Z.of_nat n) * Z.b2z (Z.testbit z (Z.of_nat n - 1 - i)))) ->
  for_range n i0 fzero (fun i result => (result + term i)%J) = of_Z (rotated (Z.of_nat n) z (R mod Z.of_nat n)).
Proof.
  intros Hn Hz Ht. set (N := Z.of_nat n) in *. set (r := R mod N). assert (Hr : 0 <= r < N) by (apply Z.mod_pos_bound; lia).
  assert (Hm : forall i, (i + R) mod N = (i + r) mod N) by (intros i; unfold r; by rewrite Zplus_mod_idemp_r).
  replace n with (Z.to_nat (N - r) + Z.to_nat r)%nat by lia. rewrite for_range_app, Z2Nat.id by lia.
  rewrite (sum_bits_from _ i0 _ (Z.shiftr z r)).
  - rewrite (sum_bits_scaled _ _ _ (2 ^ (N - r)) _ (z mod 2 ^ r)).
    + unfold rotated. by rewrite <- of_Z_add.
    + rewrite Z2Nat.id by lia. apply Z.mod_pos_bound. lia.
    + rewrite Z2Nat.id by lia. intros i Hi. rewrite <- Z.add_assoc, Ht, Hm by lia. f_equal.
      rewrite tb_mod by lia. replace (r - 1 - i <? r) with true by lia. cbn [andb].
      replace ((N - r + i + r) mod N) with i by (replace (N - r + i + r) with (i + 1 * N) by lia; rewrite Z_mod_plus_full, Z.mod_small; lia).
      replace (N - 1 - (N - r + i)) with (r - 1 - i) by lia. rewrite Z.mul_assoc, <- Z.pow_add_r by lia.
      f_equal. f_equal. lia.
  - rewrite Z2Nat.id by lia. apply shiftr_word; lia.
  - rewrite Z2Nat.id by lia. intros i Hi. rewrite Ht, Hm, Z.mod_small, Z.shiftr_spec by lia.
    f_equal. f_equal; [f_equal; lia|]. do 2 f_equal. lia.
Qed.

End Rotations.

Section Hypercube.
Context {F : Type} `{JF : JoltField F} `{B : Build} (xl : Xlen) (idx : Z).
Hypothesis Hidx : 0 <= idx < 2 ^ (2 * WIDTH xl).

Add Ring F_ring_tac7 : F_ring.

Local Abbreviation W := (WIDTH xl).
Local Abbreviation x := (fst (uninterleave_bits idx)).
Local Abbreviation y := (snd (uninterleave_bits idx)).
Local Abbreviation pt := (bits_point (F := F) (2 * W) idx).

Lemma xor_rot_bits ROTATION :
  VirtualXORROTTable_evaluate_mle xl ROTATION pt = of_Z (VirtualXORROTTable_materialize_entry xl ROTATION idx).
Proof.
  pose proof (operands_bound xl idx Hidx) as [Hx Hy]. pose proof (WIDTH_pos xl) as [HW _].
  assert (Hz : 0 <= Z.lxor x y < 2 ^ W) by (apply word_lxor; (done || lia)).
  assert (E : VirtualXORROTTable_materialize_entry xl ROTATION idx = rotated W (Z.lxor x y) (ROTATION mod W)).
  { rewrite <- rotated_lor by (done || by apply Z.mod_pos_bound; lia). unfold VirtualXORROTTable_materialize_entry.
    rewrite (surjective_pairing (uninterleave_bits idx)). cbn [fst snd]. destruct xl; cbn [WIDTH] in *.
    - change (2 ^ 32) with 4294967296. unfold rotate_right_u32. cbv zeta.
      by rewrite (as_u32_small x), (as_u32_small y), (as_u32_small (Z.lxor x y)) by (unfold is_u32; lia).
    - unfold rotate_right_u64, as_u64. change (2 ^ 64) with 18446744073709551616. done. }
  rewrite E, <- XLEN_nat_Z. apply sum_rotated; rewrite XLEN_nat_Z; [lia|done|].
  intros i Hi. rewrite Z.add_0_l, pt_x, pt_y, Z.lxor_spec by (done || lia). cbv zeta. bits_ring.
Qed.

Lemma xor_rotw_bits ROTATION v : VirtualXORROTWTable_materialize_entry xl ROTATION idx = Ok v ->
  VirtualXORROTWTable_evaluate_mle xl ROTATION pt = of_Z v.
Proof.
  unfold VirtualXORROTWTable_materialize_entry. rewrite (surjective_pairing (uninterleave_bits idx)).
  destruct xl eqn:Exl; [done|]. intros [= <-]. rewrite <- Exl in *.
  set (z := Z.lxor (as_u32 x) (as_u32 y)).
  assert (Hz : 0 <= z < 2 ^ 32) by (apply word_lxor; [lia|apply as_u32_range..]).
  assert (E : rotate_right_u32 z ROTATION = rotated 32 z (ROTATION mod 32)).
  { rewrite <- rotated_lor by (done || by apply Z.mod_pos_bound; lia). unfold rotate_right_u32. cbv zeta.
    by rewrite (as_u32_small z). }
  assert (Hh : WIDTH xl / 2 = 32) by (by rewrite Exl). assert (HW : W = 64) by (by rewrite Exl).
  rewrite E. replace 32 with (Z.of_nat (HALF_nat xl)) by (rewrite HALF_nat_Z; lia).
  apply sum_rotated; rewrite HALF_nat_Z, Hh; [lia|done|]. intros i Hi.
  rewrite pt_x, pt_y by (done || lia). replace (W - 1 - (32 + i)) with (31 - i) by lia.
  replace (32 + i - 32) with i by lia. unfold z. rewrite Z.lxor_spec, !tb_u32.
  replace (32 - 1 - i) with (31 - i) by lia. replace (31 - i <? 32) with true by lia. bits_ring.
Qed.

(** ** Rotation by a bitmask *)

Definition rotr_rel (skip k : Z) (s : Res (Z * Z * Z)) (f : F * (F * F)) : Prop :=
  match s with
  | Ok (p, first, second) => snd f = (of_Z first, of_Z second) /\ (k < W -> fst f = of_Z p /\ 1 <= p <= 2 ^ (k - skip))
  | _ => True
  end.

Lemma rotr_step_bits skip k s f : 0 <= skip <= k -> k < W -> rotr_rel skip k s f ->
  rotr_rel skip (k + 1) (rotr_step x y (W - 1 - k) s) (rotr_mle_step xl pt k f).
Proof.
  intros Hs Hk. pose proof (WIDTH_pos xl) as [HW _]. destruct s as [[[p f1] f2]| |]; [|done..].
  intros [Hf Hp]. destruct (Hp Hk) as [Ep Bp]. unfold rotr_step. cbn [res_bind]. rewrite !shr_land_1 by lia.
  set (xb := Z.testbit x (W - 1 - k)). set (yb := Z.testbit y (W - 1 - k)).
  unfold rotr_mle_step. rewrite pt_x, pt_y by (done || lia). fold xb yb. rewrite Hf, Ep. cbn [fst snd].
  destruct (mul_u64 p (1 + Z.b2z yb)) as [p'| |] eqn:Em; [|done..]. cbn [res_bind rotr_rel]. split.
  - rewrite !of_Z_add, !of_Z_mul, of_Z_sub, of_Z_add, of_Z_1. cbn [snd]. unfold pow2_F, bit_F. f_equal; ring.
  - intros Hk1. assert (Hb : 1 <= p * (1 + Z.b2z yb) <= 2 ^ (k + 1 - skip)).
    { replace (k + 1 - skip) with (Z.succ (k - skip)) by lia. rewrite Z.pow_succ_r by lia. destruct yb; cbn [Z.b2z]; lia. }
    assert (2 ^ (k + 1 - skip) <= 2 ^ 63) by (apply Z.pow_le_mono_r; lia).
    unfold mul_u64 in Em. rewrite arith_u64_ok in Em by (unfold is_u64; lia). injection Em as <-. split; [|done].
    cbn [fst]. rewrite of_Z_mul, of_Z_add, of_Z_1. done.
Qed.

Lemma rotr_bits skip v : 0 <= skip <= W -> rotr_entry xl skip x y = Ok v -> rotr_mle xl skip pt = of_Z v.
Proof.
  intros Hs. unfold rotr_entry, rotr_mle. cbv zeta.
  assert (H : rotr_rel skip (skip + Z.of_nat (Z.to_nat (W - skip)))
    (for_range (Z.to_nat (W - skip)) skip (Ok (1, 0, 0)) (fun k => rotr_step x y (W - 1 - k))) (rotr_mle_loop xl skip pt)).
  { unfold rotr_mle_loop. apply for_range_rel.
    - cbn [rotr_rel fst snd]. rewrite of_Z_0, of_Z_1, Z.sub_diag. split; [done|]. intros _. split; [done|]. change (2 ^ 0) with 1. lia.
    - intros k a b Hk. apply rotr_step_bits; lia. }
  destruct (for_range _ _ _ _) as [[[p f1] f2]| |]; [|done..]. cbn [res_bind]. intros [= <-].
  destruct H as [-> _]. cbn [fst snd]. by rewrite of_Z_add.
Qed.

(** ** The adjusted divisor *)

Lemma change_divisor_bits : VirtualChangeDivisorTable_evaluate_mle xl pt
  = of_Z (if (x =? 2 ^ (W - 1)) && (y =? 2 ^ W - 1) then 1 else y).
Proof.
  pose proof (operands_bound xl idx Hidx) as [Hx Hy]. pose proof (WIDTH_pos xl) as [HW _].
  unfold VirtualChangeDivisorTable_evaluate_mle. cbv zeta. rewrite (sum_bits _ _ y).
  - unfold prod_range. rewrite (prod_ones _ 0 _ y).
    + pose proof (prod_min (F := F) (Nat.pred (XLEN_nat xl)) 0 (fun i => (1 - r_x pt i)%J) x) as E.
      rewrite (XLEN_pred_Z xl) in E. replace (W - 1 + 1) with W in E by lia. change (0 + 1) with 1 in E.
      rewrite pt_0 by done. rewrite E; [|done|].
      * rewrite XLEN_nat_Z. destruct (x =? 2 ^ (W - 1)); [destruct (Z.eqb_spec y (2 ^ W - 1)) as [->|]|];
          cbn [andb]; rewrite ?bit_F_true, ?bit_F_false; [|ring..].
        change (of_Z 2) with (of_Z (F := F) (1 + 1)). rewrite of_Z_sub, of_Z_add, of_Z_1. ring.
      * intros i Hi. by rewrite Z.add_0_l, pt_x by (done || lia).
    + by rewrite XLEN_nat_Z.
    + intros i Hi. rewrite XLEN_nat_Z in *. rewrite Z.add_0_l. apply pt_y; done || lia.
  - by rewrite XLEN_nat_Z.
  - intros i Hi. rewrite XLEN_nat_Z in *. rewrite pt_y by (done || lia). bits_ring.
Qed.

Lemma change_divisor_entry : VirtualChangeDivisorTable_materialize_entry xl idx
  = if (x =? 2 ^ (W - 1)) && (y =? 2 ^ W - 1) then 1 else y.
Proof.
  pose proof (operands_bound xl idx Hidx) as [Hx Hy]. unfold VirtualChangeDivisorTable_materialize_entry.
  rewrite (surjective_pairing (uninterleave_bits idx)). cbn [fst snd]. set (X := x) in *. set (Y := y) in *. clearbody X Y.
  destruct xl; cbn [WIDTH] in *; cbv zeta.
  - assert (E1 : (as_i32 X =? i32_MIN) = (X =? 2 ^ 31)) by (unfold as_i32, i32_MIN; lia).
    assert (E2 : (as_i32 Y =? -1) = (Y =? 2 ^ 32 - 1)) by (unfold as_i32; lia).
    change (32 - 1) with 31. rewrite E1, E2. destruct (_ && _); [done|]. rewrite as_u32_i32. apply as_u32_small. unfold is_u32. lia.
  - assert (E1 : (as_i64 X =? i64_MIN) = (X =? 2 ^ 63)) by (unfold as_i64, i64_MIN; lia).
    assert (E2 : (as_i64 Y =? -1) = (Y =? 2 ^ 64 - 1)) by (unfold as_i64; lia).
    change (64 - 1) with 63. rewrite E1, E2. destruct (_ && _); [done|]. rewrite as_u64_i64. apply as_u64_small. unfold is_u64. lia.
Qed.

Lemma change_divisor_w_bits : W = 64 -> VirtualChangeDivisorWTable_evaluate_mle xl pt
  = of_Z (if (as_u32 x =? 2 ^ 31) && (as_u32 y =? 2 ^ 32 - 1) then 1
          else as_u32 y + (2 ^ 64 - 2 ^ 32) * Z.b2z (Z.testbit y 31)).
Proof.
  intros HW. assert (Hn : Z.of_nat (HALF_nat xl) = 32) by (rewrite HALF_nat_Z, HW; done).
  pose proof (as_u32_range x) as Hx. pose proof (as_u32_range y) as Hy. unfold is_u32 in *.
  unfold VirtualChangeDivisorWTable_evaluate_mle. cbv zeta. replace (W / 2) with 32 by lia.
  rewrite (sum_bits_from _ 32 _ (as_u32 y)), (prod_ones _ 32 _ (as_u32 y)).
  - assert (HP : Z.of_nat (Nat.pred (HALF_nat xl)) = 31) by lia.
    pose proof (prod_min (F := F) (Nat.pred (HALF_nat xl)) 32 (fun i => (1 - r_x pt i)%J) (as_u32 x)) as E.
    rewrite HP in E. replace (pt W) with (bit_F (F := F) (Z.testbit (as_u32 x) 31)).
    replace (pt (W + 1)) with (bit_F (F := F) (Z.testbit y 31)). rewrite E; [|done|].
    + rewrite Hn, HW. destruct (as_u32 x =? 2 ^ 31); [destruct (Z.eqb_spec (as_u32 y) (2 ^ 32 - 1)) as [Ey|]|]; cbn [andb].
      * assert (Hb : Z.testbit y 31 = true) by (rewrite <- (andb_true_l (Z.testbit y 31)); change true with (31 <? 32) at 1;
          rewrite <- tb_u32, Ey; done).
        rewrite Ey, Hb, !bit_F_true. change (of_Z 2) with (of_Z (F := F) (1 + 1)).
        rewrite !of_Z_sub, of_Z_add, of_Z_1. ring.
      * rewrite bit_F_true, bit_F_false, of_Z_add, of_Z_mul. unfold bit_F. ring.
      * rewrite bit_F_false, of_Z_add, of_Z_mul. unfold bit_F. ring.
    + intros i Hi. rewrite pt_x, tb_u32 by (done || lia). replace (31 - i <? 32) with true by lia.
      by replace (W - 1 - (32 + i)) with (31 - i) by lia.
    + replace (pt (W + 1)) with (r_y pt 32) by (unfold r_y; f_equal; lia). rewrite pt_y by (done || lia).
      by replace (W - 1 - 32) with 31 by lia.
    + replace (pt W) with (r_x pt 32) by (unfold r_x; f_equal; lia). rewrite pt_x by (done || lia).
      rewrite tb_u32. by replace (W - 1 - 32) with 31 by lia.
  - by rewrite Hn.
  - rewrite Hn. intros i Hi. rewrite pt_y, tb_u32 by (done || lia). replace (32 - 1 - i <? 32) with true by lia.
    by replace (W - 1 - (32 + i)) with (32 - 1 - i) by lia.
  - by rewrite Hn.
  - rewrite Hn. intros i Hi. rewrite pt_y, tb_u32 by (done || lia). replace (32 - 1 - i <? 32) with true by lia.
    replace (W - 1 - (32 + i)) with (32 - 1 - i) by lia. bits_ring.
Qed.

Lemma change_divisor_w_entry v : VirtualChangeDivisorWTable_materialize_entry xl idx = Ok v ->
  W = 64 /\ v = if (as_u32 x =? 2 ^ 31) && (as_u32 y =? 2 ^ 32 - 1) then 1
                else as_u32 y + (2 ^ 64 - 2 ^ 32) * Z.b2z (Z.testbit y 31).
Proof.
  unfold VirtualChangeDivisorWTable_materialize_entry. rewrite (surjective_pairing (uninterleave_bits idx)).
  cbn [fst snd]. set (X := x). set (Y := y). clearbody X Y. destruct xl; [done|]. cbv zeta. intros H. injection H as <-. split; [done|].
  rewrite !as_i32_u32.
  assert (E1 : (as_i32 X =? i32_MIN) = (as_u32 X =? 2 ^ 31)) by (unfold as_i32, as_u32, i32_MIN; lia).
  assert (E2 : (as_i32 Y =? -1) = (as_u32 Y =? 2 ^ 32 - 1)) by (unfold as_i32, as_u32; lia).
  rewrite E1, E2. destruct (_ && _); [done|].
  assert (Hb : Z.testbit Y 31 = (2 ^ 31 <=? as_u32 Y)) by apply (testbit_top Y 32 eq_refl).
  rewrite Hb. unfold as_u64, as_i32, as_u32. destruct (Z.leb_spec (2 ^ 31) (Y mod 4294967296)); cbn [Z.b2z]; lia.
Qed.

(** ** Every table *)

(** Reduce the equation on a table that always returns to its entry. *)
Ltac entry_goal :=
  let H := fresh in intros H; injection H as <-;
  repeat match goal with
    | |- context [ ?f idx ] => match type of (f idx) with Z => progress unfold f end
    | |- context [ ?f xl idx ] => match type of (f xl idx) with Z => progress unfold f end
    end; rewrite (surjective_pairing (uninterleave_bits idx)); cbn [fst snd].

Lemma small_word_u64 v : 0 <= v < 2 ^ W -> as_u64 v = v.
Proof. intros Hv. apply as_u64_small. unfold is_u64. destruct xl; cbn [WIDTH] in Hv; lia. Qed.

Lemma range_check_entry : RangeCheckTable_materialize_entry xl idx = idx mod 2 ^ W.
Proof.
  transitivity (as_u64 (idx mod 2 ^ W)).
  - unfold RangeCheckTable_materialize_entry. destruct xl; [done|]. symmetry. apply Zmod_mod.
  - apply small_word_u64. apply Z.mod_pos_bound. by destruct xl.
Qed.

Lemma half_word_entry : LowerHalfWordTable_materialize_entry xl idx = idx mod 2 ^ (W / 2).
Proof.
  unfold LowerHalfWordTable_materialize_entry. cbv zeta. apply small_word_u64.
  pose proof (Z.mod_pos_bound idx (2 ^ (W / 2)) ltac:(by destruct xl)) as [H0 H1].
  split; [done|]. apply (Z.lt_le_trans _ _ _ H1). by destruct xl.
Qed.

Lemma upper_word_entry : UpperWordTable_materialize_entry xl idx = Z.shiftr idx W.
Proof.
  unfold UpperWordTable_materialize_entry. apply small_word_u64. pose proof (WIDTH_pos xl) as [HW _].
  pose proof (shiftr_word (2 * W) idx W ltac:(lia) Hidx) as H1. by replace (2 * W - W) with W in H1 by lia.
Qed.

Lemma not_F b : (1 - bit_F b)%J = bit_F (F := F) (negb b).
Proof. destruct b; cbn [negb]; rewrite ?bit_F_true, ?bit_F_false; ring. Qed.

Lemma le_bits : UnsignedLessThanEqualTable_evaluate_mle xl pt = bit_F (x <=? y).
Proof. unfold UnsignedLessThanEqualTable_evaluate_mle. rewrite lt_eq_bits by done. cbn [fst snd].
  destruct (Z.leb_spec x y), (Z.ltb_spec x y), (Z.eqb_spec x y); try lia; rewrite ?bit_F_true, ?bit_F_false; ring. Qed.

Lemma valid_div0_entry v : ValidDiv0Table_materialize_entry xl idx = Ok v ->
  v = bool_u64 (negb (x =? 0) || (y =? 2 ^ W - 1)).
Proof.
  unfold ValidDiv0Table_materialize_entry. rewrite (surjective_pairing (uninterleave_bits idx)). cbn [fst snd].
  destruct (x =? 0); [|by intros [= <-]]. destruct xl; [|done]. by intros [= <-].
Qed.

(** At a boolean point the evaluation is the entry. *)
Lemma evaluate_mle_entry t v : materialize_entry xl t idx = Ok v -> evaluate_mle xl t pt = of_Z v.
Proof.
  pose proof (log_w_pow xl) as [EL BL]. pose proof (WIDTH_pos xl) as [HW _].
  destruct t; cbn [materialize_entry evaluate_mle].
  - intros [= <-]. by rewrite range_check_entry, range_check_bits.
  - entry_goal. by apply and_bits.
  - entry_goal. by apply andn_bits.
  - entry_goal. by apply or_bits.
  - entry_goal. by apply xor_bits.
  - entry_goal. rewrite bool_bit. by apply equal_bits.
  - entry_goal. unfold SignedGreaterThanEqualTable_evaluate_mle. rewrite signed_less_bits, not_F, bool_bit by done.
    by rewrite Z.geb_leb, Z.leb_antisym.
  - entry_goal. unfold UnsignedGreaterThanEqualTable_evaluate_mle, UnsignedLessThanTable_evaluate_mle.
    rewrite lt_eq_bits by done. cbn [fst]. by rewrite not_F, bool_bit, Z.geb_leb, Z.leb_antisym.
  - entry_goal. unfold NotEqualTable_evaluate_mle. by rewrite equal_bits, not_F, bool_bit.
  - entry_goal. rewrite bool_bit. by apply signed_less_bits.
  - entry_goal. unfold UnsignedLessThanTable_evaluate_mle. rewrite lt_eq_bits by done. by rewrite bool_bit.
  - intros [= <-]. by apply movsign_bits.
  - intros [= <-]. by rewrite upper_word_entry, upper_word_bits.
  - entry_goal. rewrite bool_bit. by apply le_bits.
  - intros [= <-]. by apply signed_remainder_bits.
  - entry_goal. rewrite bool_bit. by apply unsigned_remainder_bits.
  - intros ->%valid_div0_entry. rewrite bool_bit. by apply valid_div0_bits.
  - intros [= <-]. unfold HalfwordAlignmentTable_materialize_entry. rewrite bool_bit. by apply halfword_bits.
  - intros [= <-]. unfold WordAlignmentTable_materialize_entry. rewrite bool_bit. by apply word_bits.
  - intros [= <-]. by rewrite half_word_entry, half_word_bits.
  - intros [= <-]. by apply sign_extend_bits.
  - intros [= <-]. unfold Pow2Table_materialize_entry. rewrite <- EL at 2. by apply pow2_bits.
  - intros [= <-]. apply (pow2_bits xl idx Hidx 5). lia.
  - intros [= <-]. by apply bitmask_bits.
  - intros [= <-]. by apply rev8w_bits.
  - entry_goal. by apply srl_bits.
  - entry_goal. by apply sra_bits.
  - unfold VirtualRotrTable_materialize_entry. rewrite (surjective_pairing (uninterleave_bits idx)). apply rotr_bits. lia.
  - unfold VirtualRotrWTable_materialize_entry. rewrite (surjective_pairing (uninterleave_bits idx)). apply rotr_bits. lia.
  - intros [= <-]. rewrite change_divisor_entry. by apply change_divisor_bits.
  - intros [? ->]%change_divisor_w_entry. by apply change_divisor_w_bits.
  - intros [= <-]. unfold MulUNoOverflowTable_materialize_entry. rewrite bool_bit. by apply no_overflow_bits.
  - intros [= <-]. by apply xor_rot_bits.
  - by apply xor_rotw_bits.
Qed.

End Hypercube.
