(* ===== verification/Tables.v ===== *)
(** * The lookup tables: what the prover and the verifier rely on

    The verifier of the instruction lookups evaluates [evaluate_mle] at a random
    point, the prover sums entries [materialize_entry] over the indices of the
    cycles: the two agree only if the former is the multilinear extension of the
    latter.  This file states that for every table, says at which indices an entry
    exists, and states the round trip of the operand interleaving. *)

From Stdlib Require Import ZArith Lia List Bool Zmod.
From stdpp Require Import base list.
From S2P Require Import Prelude Words Types Field Exec LookupTables TableMl BitOps TableMle TableMleRest TableMleShift TableMleRot.
Local Open Scope Z_scope.
Local Open Scope rust_scope.

(** The indices at which a table has an entry: the division by zero table has no
    64-bit arm, the word variants have no 32-bit arm, and the running product of the
    rotation overflows [u64] when all 64 bits of the mask are set. *)
Definition entry_defined `{Build} (xl : Xlen) (t : LookupTables) (index : Z) : bool :=
  match t, xl with
  | ValidDiv0, Bit64 => negb (fst (uninterleave_bits index) =? 0)
  | VirtualROTR, Bit64 => negb (overflow_checks && (snd (uninterleave_bits index) =? u64_MAX))
  | (TVirtualChangeDivisorW | TVirtualXORROTW _), Bit32 => false
  | _, _ => true
  end.

Definition is_ok {A} (r : Res A) : bool := match r with Ok _ => true | _ => false end.

(** ** The rotation product *)

Section Rotation.
Context `{B : Build} (xl : Xlen) (x y : Z).
Hypothesis Hy : 0 <= y < 2 ^ WIDTH xl.
Local Abbreviation W := (WIDTH xl).

(** The part of [y] read between [skip] and [k] is all ones. *)
Definition read_ones (skip k : Z) : bool := Z.shiftr y (W - k) mod 2 ^ (k - skip) =? 2 ^ (k - skip) - 1.

Lemma read_ones_step skip k : 0 <= skip <= k -> k < W ->
  read_ones skip (k + 1) = read_ones skip k && Z.testbit y (W - 1 - k).
Proof.
  intros Hs Hk. unfold read_ones. replace (W - (k + 1)) with (W - 1 - k) by lia. rewrite (top_bits_step y W k) by lia.
  replace (k + 1 - skip) with (Z.succ (k - skip)) by lia. rewrite Z.pow_succ_r by lia.
  set (P := 2 ^ (k - skip)). assert (HP : 0 < P) by (unfold P; lia). set (a := Z.shiftr y (W - k)).
  assert (Ha : 0 <= a) by (apply Z.shiftr_nonneg; lia). pose proof (Z.mod_pos_bound a P HP).
  assert (E : (2 * a + Z.b2z (Z.testbit y (W - 1 - k))) mod (2 * P) = 2 * (a mod P) + Z.b2z (Z.testbit y (W - 1 - k))).
  { symmetry. apply (Z.mod_unique _ _ (a / P)); [left; destruct (Z.testbit y _); cbn [Z.b2z]; lia|].
    rewrite (Z.div_mod a P) at 1 by lia. ring. }
  rewrite E. destruct (Z.testbit y _); cbn [Z.b2z]; rewrite ?andb_true_r, ?andb_false_r; lia.
Qed.

(** Sixty-four ones have been multiplied with the checks of the build on. *)
Definition rotr_overflow (skip k : Z) : bool := overflow_checks && read_ones skip k && (k - skip =? 64).

(** The loop has returned after [k] steps unless it overflowed; the product is the
    power of two of the ones it read. *)
Definition rotr_ok (skip k : Z) (s : Res (Z * Z * Z)) : Prop :=
  match s with
  | Ok (p, _, _) => rotr_overflow skip k = false /\
      (k - skip < 64 -> 1 <= p /\ if read_ones skip k then p = 2 ^ (k - skip) else p <= 2 ^ (k - skip - 1))
  | Panic => rotr_overflow skip k = true
  | OutOfFuel => False
  end.

Lemma rotr_step_ok skip k s : 0 <= skip <= k -> k < W -> rotr_ok skip k s ->
  rotr_ok skip (k + 1) (rotr_step x y (W - 1 - k) s).
Proof.
  intros Hs Hk. pose proof (WIDTH_pos xl) as [HW _]. set (q := k - skip).
  assert (Hq : 2 ^ (q + 1) = 2 * 2 ^ q) by (rewrite Z.add_1_r, Z.pow_succ_r; lia).
  assert (Hq63 : 2 ^ q <= 2 ^ 63) by (apply Z.pow_le_mono_r; lia).
  destruct s as [[[p a] b]| |]; cbn [rotr_ok]; [|unfold rotr_overflow; lia|done]. intros [_ Hp].
  destruct (Hp ltac:(lia)) as [H1 H2]. unfold rotr_step. cbn [res_bind]. rewrite !shr_land_1 by lia.
  unfold rotr_ok, rotr_overflow, mul_u64, arith_u64. rewrite read_ones_step by lia. replace (k + 1 - skip) with (q + 1) by lia.
  replace (q + 1 - 1) with q by lia. fold q in H2.
  assert (Hq1 : p <= 2 ^ (q - 1) -> 2 * p <= 2 ^ q).
  { intros Hle. assert (1 <= q) by (destruct (Z.lt_ge_cases q 1); [rewrite Z.pow_neg_r in Hle|]; lia).
    replace q with (Z.succ (q - 1)) by lia. rewrite Z.pow_succ_r; lia. }
  assert (Hq64 : q < 63 -> 2 ^ (q + 1) <= 2 ^ 63) by (intros; apply Z.pow_le_mono_r; lia).
  assert (Hqe : q = 63 -> 2 ^ q = 2 ^ 63) by (by intros ->).
  destruct (Z.testbit y _), (read_ones skip k), overflow_checks; cbn [Z.b2z andb negb]; rewrite ?andb_true_r, ?andb_false_r;
    unfold as_u64 in *;
    repeat match goal with |- context [ if ?c then Panic else _ ] => destruct c eqn:? end; cbn [res_bind]; try lia.
Qed.
Lemma rotr_entry_ok skip : 0 <= skip < W ->
  is_ok (rotr_entry xl skip x y) = negb (rotr_overflow skip W).
Proof.
  intros Hs. unfold rotr_entry.
  assert (H : rotr_ok skip (skip + Z.of_nat (Z.to_nat (W - skip)))
    (for_range (Z.to_nat (W - skip)) skip (Ok (1, 0, 0)) (fun k => rotr_step x y (W - 1 - k)))).
  { apply for_range_inv; [|intros k a Hk; apply rotr_step_ok; lia].
    cbn [rotr_ok]. unfold rotr_overflow, read_ones. rewrite Z.sub_diag. change (2 ^ 0) with 1. rewrite Z.mod_1_r.
    split; [by rewrite andb_false_r|done]. }
  replace (skip + Z.of_nat (Z.to_nat (W - skip))) with W in H by lia.
  destruct (for_range _ _ _ _) as [[[p a] b]| |]; cbn [rotr_ok res_bind is_ok] in *; [by destruct H as [-> _]|by rewrite H|done].
Qed.

End Rotation.

(** ** The accumulators of the shifts and rotations fit [u64] *)

(** [entry] and [sign_extension] with [o] ones of the mask read in [k] steps. *)
Definition shift_fit (k : Z) (s : Z * Z * LookupBits * LookupBits) : Prop :=
  let '(entry, sign_extension, xb, yb) := s in
  exists o, 0 <= o <= k /\ 0 <= entry < 2 ^ o /\ 0 <= sign_extension <= 2 ^ k - 2 ^ o.

Lemma pop_msb_range b : fst (pop_msb b) = 0 \/ fst (pop_msb b) = 1.
Proof.
  unfold pop_msb. cbn [fst]. set (z := Z.shiftr _ _). pose proof (Z.land_ones z 1 ltac:(lia)) as E.
  change (Z.ones 1) with 1 in E. rewrite E. pose proof (Z.mod_pos_bound z (2 ^ 1) eq_refl). lia.
Qed.

Lemma shift_step_fit k s : 0 <= k -> shift_fit k s -> shift_fit (k + 1) (shift_step k s).
Proof.
  destruct s as [[[e se] xb] yb]. intros Hk (o & Ho & He & Hse). unfold shift_step.
  pose proof (pop_msb_range xb) as Hx. pose proof (pop_msb_range yb) as Hy.
  destruct (pop_msb xb) as [x_i xb'], (pop_msb yb) as [y_i yb']. cbn [fst] in *.
  assert (Hp : 2 ^ (k + 1) = 2 * 2 ^ k) by (rewrite Z.add_1_r, Z.pow_succ_r; lia).
  assert (Hq : 2 ^ (o + 1) = 2 * 2 ^ o) by (rewrite Z.add_1_r, Z.pow_succ_r; lia).
  assert (Ho2 : 2 ^ o <= 2 ^ k) by (apply Z.pow_le_mono_r; lia).
  destruct Hy as [->| ->].
  - exists o. destruct (Z.eqb_spec k 0); lia.
  - exists (o + 1). destruct (Z.eqb_spec k 0), Hx as [->| ->]; lia.
Qed.

Lemma shift_loop_fit xl x y n :
  shift_fit (Z.of_nat n) (for_range n 0 (0, 0, LookupBits_new x (WIDTH xl), LookupBits_new y (WIDTH xl)) shift_step).
Proof.
  apply (for_range_inv shift_fit); [exists 0; cbn; lia|]. intros k s Hk. apply shift_step_fit. lia.
Qed.

Definition rotr_fit (xl : Xlen) (skip k : Z) (s : Res (Z * Z * Z)) : Prop :=
  match s with
  | Ok (p, first, second) => exists o, 0 <= o <= k - skip /\ (k < WIDTH xl -> p = 2 ^ o) /\
      0 <= first < 2 ^ o /\ 0 <= second <= 2 ^ (WIDTH xl) - 2 ^ (WIDTH xl - k + o)
  | _ => True
  end.

Lemma rotr_step_fit `{Build} xl x y skip k s : 0 <= skip <= k -> k < WIDTH xl ->
  rotr_fit xl skip k s -> rotr_fit xl skip (k + 1) (rotr_step x y (WIDTH xl - 1 - k) s).
Proof.
  intros Hs Hk. pose proof (WIDTH_pos xl) as [HW _]. set (W := WIDTH xl) in *.
  destruct s as [[[p f] g]| |]; cbn [rotr_fit]; [|done..]. intros (o & Ho & Hp & Hf & Hg). specialize (Hp Hk) as ->.
  unfold rotr_step. cbn [res_bind]. rewrite !shr_land_1 by lia.
  assert (Hq : 2 ^ (o + 1) = 2 * 2 ^ o) by (rewrite Z.add_1_r, Z.pow_succ_r; lia).
  assert (Hw : 2 ^ (W - k + o) = 2 * 2 ^ (W - 1 - k + o))
    by (replace (W - k + o) with (Z.succ (W - 1 - k + o)) by lia; rewrite Z.pow_succ_r; lia).
  assert (Hv : 2 ^ o * 2 ^ (W - 1 - k) = 2 ^ (W - 1 - k + o)) by (rewrite <- Z.pow_add_r by lia; f_equal; lia).
  assert (Hle : k + 1 < W -> 2 ^ (o + 1) <= 2 ^ 63) by (intros; apply Z.pow_le_mono_r; lia).
  destruct (mul_u64 _ _) as [p'| |] eqn:Em; [|done..]. cbn [res_bind rotr_fit]. fold W in Hg |- *.
  assert (Hp : k + 1 < W -> p' = 2 ^ o * (1 + Z.b2z (Z.testbit y (W - 1 - k)))).
  { intros Hk1. unfold mul_u64 in Em. rewrite arith_u64_ok in Em; [by injection Em as <-|].
    unfold is_u64. destruct (Z.testbit y _); cbn [Z.b2z]; lia. }
  destruct (Z.testbit y (W - 1 - k)); cbn [Z.b2z] in *; [exists (o + 1)|exists o].
  - replace (W - (k + 1) + (o + 1)) with (W - k + o) by lia. destruct (Z.testbit x _); cbn [Z.b2z]; lia.
  - replace (W - (k + 1) + o) with (W - 1 - k + o) by lia. rewrite Z.sub_0_r, Z.mul_1_r, <- Z.mul_assoc, Hv.
    destruct (Z.testbit x _); cbn [Z.b2z]; lia.
Qed.

Lemma rotr_loop_fit `{Build} xl x y skip n : 0 <= skip -> skip + Z.of_nat n <= WIDTH xl ->
  rotr_fit xl skip (skip + Z.of_nat n) (for_range n skip (Ok (1, 0, 0)) (fun k => rotr_step x y (WIDTH xl - 1 - k))).
Proof.
  intros Hs Hn. apply (for_range_inv (rotr_fit xl skip)).
  - exists 0. change (2 ^ 0) with 1. assert (2 ^ (WIDTH xl - skip + 0) <= 2 ^ WIDTH xl) by (apply Z.pow_le_mono_r; lia). lia.
  - intros k s Hk. apply rotr_step_fit; lia.
Qed.

(** ** Claims *)

Section Claims.
Context `{B : Build} (xl : Xlen).

(** C6: The evaluation the verifier computes is the multilinear extension of the table the
    prover reads: for every table that returns an entry [e index] at each of its
    [2^(2*XLEN)] indices, [evaluate_mle] at any point [r] of any field is the sum of
    [eq(r, index) * e(index)] over all indices. *)
Theorem evaluate_mle_extends {F : Type} `{JF : JoltField F} (t : LookupTables) (e : Z -> Z)
  (He : forall index, 0 <= index < 2 ^ (2 * WIDTH xl) -> materialize_entry xl t index = Ok (e index)) (r : Z -> F) :
  evaluate_mle xl t r = mle (Z.to_nat (2 * WIDTH xl)) 0 0 (fun index => of_Z (e index)) r.
Proof.
  pose proof (WIDTH_pos xl) as [HW _]. assert (Hn : Z.of_nat (Z.to_nat (2 * WIDTH xl)) = 2 * WIDTH xl) by lia.
  apply (ml_is_mle _ _ (Z.to_nat (2 * WIDTH xl))) with (k := 0%nat); rewrite ?Hn; [| |lia|cbn; lia|cbn; lia].
  - apply evaluate_mle_ml.
  - intros index Hi. apply evaluate_mle_entry; [done|]. by apply He.
Qed.

(** A table returns an entry exactly at the indices [entry_defined] accepts: every table
    is total except for the 64-bit division by zero check at divisor 0, the 64-bit
    rotation by the all-ones mask when overflow is checked, and the word variants built
    for 32 bits. *)
Theorem materialize_entry_defined (t : LookupTables) (index : Z) (Hi : 0 <= index < 2 ^ (2 * WIDTH xl)) :
  is_ok (materialize_entry xl t index) = entry_defined xl t index.
Proof.
  pose proof (operands_bound xl index Hi) as [Hx Hy]. pose proof (WIDTH_pos xl) as [HW _].
  destruct t; try done; cbn [materialize_entry entry_defined].
  - unfold ValidDiv0Table_materialize_entry. rewrite (surjective_pairing (uninterleave_bits index)). cbn [fst snd].
    destruct (_ =? 0), xl; done.
  - unfold VirtualRotrTable_materialize_entry. rewrite (surjective_pairing (uninterleave_bits index)). cbn [fst snd].
    rewrite rotr_entry_ok by (done || lia). unfold rotr_overflow, read_ones. rewrite Z.sub_diag, Z.shiftr_0_r, Z.sub_0_r.
    rewrite Z.mod_small by done. destruct xl; cbn [WIDTH]; [by rewrite andb_false_r|].
    by rewrite andb_true_r.
  - unfold VirtualRotrWTable_materialize_entry. rewrite (surjective_pairing (uninterleave_bits index)). cbn [fst snd].
    rewrite rotr_entry_ok by (done || lia). unfold rotr_overflow. destruct xl; by rewrite andb_false_r.
  - unfold VirtualChangeDivisorWTable_materialize_entry. rewrite (surjective_pairing (uninterleave_bits index)).
    by destruct xl.
  - unfold VirtualXORROTWTable_materialize_entry. rewrite (surjective_pairing (uninterleave_bits index)). by destruct xl.
Qed.

(** The accumulators of the right shift and rotation entries stay within [u64] at every
    iteration, and so do the sums the tables return. *)
Theorem shift_tables_fit (x y skip : Z) (n : nat) (Hs : 0 <= skip) (Hn : skip + Z.of_nat n <= WIDTH xl) :
  (let '(entry, sign_extension, _, _) :=
     for_range n 0 (0, 0, LookupBits_new x (WIDTH xl), LookupBits_new y (WIDTH xl)) shift_step in
   is_u64 entry /\ is_u64 sign_extension /\ is_u64 (entry + sign_extension)) /\
  (match for_range n skip (Ok (1, 0, 0)) (fun k => rotr_step x y (WIDTH xl - 1 - k)) with
   | Ok (_, first_sum, second_sum) => is_u64 first_sum /\ is_u64 second_sum /\ is_u64 (first_sum + second_sum)
   | _ => True
   end).
Proof.
  pose proof (WIDTH_pos xl) as [HW _]. split.
  - pose proof (shift_loop_fit xl x y n) as H. destruct (for_range _ _ _ _) as [[[e se] xb] yb].
    destruct H as (o & Ho & He & Hse). assert (2 ^ Z.of_nat n <= 2 ^ 64) by (apply Z.pow_le_mono_r; lia).
    unfold is_u64. lia.
  - pose proof (rotr_loop_fit xl x y skip n Hs Hn) as H. destruct (for_range _ _ _ _) as [[[p f] g]| |]; [|done..].
    destruct H as (o & Ho & _ & Hf & Hg). assert (2 ^ WIDTH xl <= 2 ^ 64) by (apply Z.pow_le_mono_r; lia).
    assert (2 ^ o <= 2 ^ (WIDTH xl - (skip + Z.of_nat n) + o)) by (apply Z.pow_le_mono_r; lia). unfold is_u64. lia.
Qed.

End Claims.

(** Interleaving two operands into a lookup index and splitting an index into operands
    are inverse to each other. *)
Theorem interleave_round_trip (x y v : Z) (Hx : is_u64 x) (Hy : is_u64 y) (Hv : 0 <= v < 2 ^ 128) :
  uninterleave_bits (interleave_bits x y) = (x, y) /\
  interleave_bits (fst (uninterleave_bits v)) (snd (uninterleave_bits v)) = v.
Proof. split; [by apply uninterleave_interleave|by apply interleave_uninterleave]. Qed.

(** ** Witnesses *)

Lemma evaluate_mle_extends_witness :
  let r i := of_Z (F := Zmod bn254_modulus) (3 * i + 2) in
  evaluate_mle Bit64 And r = mle 128 0 0 (fun index => of_Z (AndTable_materialize_entry index)) r.
Proof. intros r. apply (evaluate_mle_extends (B := release_rv64) Bit64 And AndTable_materialize_entry). reflexivity. Defined.

Lemma materialize_entry_defined_witness :
  is_ok (materialize_entry (H := test_rv64) Bit64 VirtualROTR (interleave_bits 5 u64_MAX)) = false.
Proof.
  rewrite (materialize_entry_defined (B := test_rv64) Bit64 VirtualROTR (interleave_bits 5 u64_MAX)); [vm_compute; reflexivity|].
  split; [apply Z.leb_le|apply Z.ltb_lt]; vm_compute; reflexivity.
Defined.

Lemma shift_tables_fit_witness :
  let '(entry, sign_extension, _, _) := shift_loop Bit32 4294967295 0 in is_u64 (entry + sign_extension).
Proof.
  destruct (shift_tables_fit (B := release_rv64) Bit32 4294967295 0 0 32) as [H _]; [lia|cbn; lia|].
  unfold shift_loop. change (Z.to_nat (WIDTH Bit32)) with 32%nat.
  destruct (for_range _ _ _ _) as [[[e se] xb] yb]. apply H.
Defined.

Lemma interleave_round_trip_witness : uninterleave_bits (interleave_bits 12 10) = (12, 10).
Proof. apply (interleave_round_trip 12 10 0); unfold is_u64; lia. Defined.
