(* ===== verification/InstructionLookup.v ===== *)
(** * Instruction lookups and circuit flags

    [jolt-core/src/zkvm/instruction/*.rs]: for every instruction the prover
    supports, the lookup table it queries, its circuit flags, and how a cycle of
    the trace becomes a lookup query ([to_instruction_inputs],
    [to_lookup_operands], [to_lookup_index], [to_lookup_output]).

    The source has three [impl] blocks per instruction; here one record
    [JoltInstruction] per instruction holds them. *)

From Stdlib Require Import ZArith Lia List Bool.
From stdpp Require Import base list.
From S2P Require Import Prelude Words Types Isa Exec Trace LookupTables.
Import ListNotations.
Local Open Scope Z_scope.
Local Open Scope rust_scope.

Inductive CircuitFlags :=
| LeftOperandIsPC | RightOperandIsImm | LeftOperandIsRs1Value | RightOperandIsRs2Value
| AddOperands | SubtractOperands | MultiplyOperands | Load | Store | Jump | Branch
| WriteLookupOutputToRD | InlineSequenceInstruction | Assert | DoNotUpdateUnexpandedPC
| Advice | IsNoop | IsCompressed.

#[export] Instance CircuitFlags_eq_dec : EqDecision CircuitFlags. Proof. solve_decision. Defined.

(** [[bool; NUM_CIRCUIT_FLAGS]], indexed by a flag. *)
Definition Flags := CircuitFlags -> bool.

Definition is_interleaved_operands (flags : Flags) : bool :=
  negb (flags AddOperands) && negb (flags SubtractOperands) && negb (flags MultiplyOperands) && negb (flags Advice).

(** ** Cycles

    [self.register_state.rs1], [self.register_state.rs2], [self.instruction.operands.imm],
    [self.instruction.address]. *)
Definition rs1 (cy : Cycle) : Z := st_rs1 (register_state cy).
Definition rs2 (cy : Cycle) : Z := st_rs2 (register_state cy).
Definition imm (cy : Cycle) : Z := n_imm (ni_operands (normalize (cycle_instruction cy))).
Definition instruction_address (cy : Cycle) : Z := ni_address (normalize (cycle_instruction cy)).

(** The trait [LookupQuery<XLEN>]. *)
Record LookupQuery := mkQuery {
  to_instruction_inputs : Xlen -> Cycle -> Res (Z * Z);
  to_lookup_operands : Xlen -> Cycle -> Res (Z * Z);
  to_lookup_index : Xlen -> Cycle -> Res Z;
  to_lookup_output : Xlen -> Cycle -> Res Z
}.

Definition Inputs := Xlen -> Cycle -> Res (Z * Z).

(** The default methods. *)
Definition default_lookup_operands (inputs : Inputs) : Inputs := fun xl cy =>
  let? p := inputs xl cy in Ok (fst p, as_u64 (snd p)).
Definition default_lookup_index (operands : Inputs) : Xlen -> Cycle -> Res Z := fun xl cy =>
  let? p := operands xl cy in Ok (interleave_bits (fst p) (as_u64 (snd p))).

(** [to_lookup_operands(self).1] *)
Definition operand_index (operands : Inputs) : Xlen -> Cycle -> Res Z := fun xl cy =>
  let? p := operands xl cy in Ok (snd p).

(** The operand pairs of the instructions: two registers, a register and the
    immediate, the address and the immediate, a single operand. *)
Definition rs1_rs2 : Inputs := fun xl cy =>
  match xl with
  | Bit32 => Ok (as_u32 (rs1 cy), as_u32 (rs2 cy))
  | Bit64 => Ok (rs1 cy, rs2 cy)
  end.
Definition rs1_imm : Inputs := fun xl cy =>
  match xl with
  | Bit32 => Ok (as_u32 (rs1 cy), as_u32 (imm cy))
  | Bit64 => Ok (rs1 cy, imm cy)
  end.
Definition pc_imm : Inputs := fun xl cy =>
  match xl with
  | Bit32 => Ok (as_u32 (instruction_address cy), as_u32 (imm cy))
  | Bit64 => Ok (instruction_address cy, imm cy)
  end.
Definition rs1_only : Inputs := fun xl cy =>
  match xl with
  | Bit32 => Ok (as_u32 (rs1 cy), 0)
  | Bit64 => Ok (rs1 cy, 0)
  end.
Definition imm_only : Inputs := fun xl cy =>
  match xl with
  | Bit32 => Ok (0, as_u32 (imm cy))
  | Bit64 => Ok (0, imm cy)
  end.
Definition no_inputs : Inputs := fun _ _ => Ok (0, 0).

(** [(0, x as u128 + y as u64 as u128)], [(0, (x as i128 + y) as u128)] and
    [(0, x as u128 * y as u64 as u128)] *)
Definition add_operands (inputs : Inputs) : Inputs := fun xl cy =>
  let? p := inputs xl cy in Ok (0, fst p + as_u64 (snd p)).
Definition signed_add_operands (inputs : Inputs) : Inputs := fun xl cy =>
  let? p := inputs xl cy in Ok (0, as_u128 (fst p + snd p)).
Definition mul_operands (inputs : Inputs) : Inputs := fun xl cy =>
  let? p := inputs xl cy in Ok (0, fst p * as_u64 (snd p)).

(** An output computed from the instruction inputs. *)
Definition on_inputs (inputs : Inputs) (f : Xlen -> Z -> Z -> Z) : Xlen -> Cycle -> Res Z := fun xl cy =>
  let? p := inputs xl cy in Ok (f xl (fst p) (snd p)).

(** ** Instructions *)

Record JoltInstruction := mkJolt {
  lookup_table : option LookupTables;
  (** the flags, from [inline_sequence_remaining] and [is_compressed] *)
  circuit_flags : option Z -> bool -> Flags;
  query : LookupQuery
}.

Definition flag_in (l : list CircuitFlags) (f : CircuitFlags) : bool := bool_decide (f ∈ l).

(** The flags [l], the two sequence flags and [IsCompressed]. *)
Definition sequence_flags (l : list CircuitFlags) (remaining : option Z) (compressed : bool) : Flags := fun f =>
  match f with
  | InlineSequenceInstruction => match remaining with Some _ => true | None => false end
  | DoNotUpdateUnexpandedPC => negb (match remaining with Some n => n | None => 0 end =? 0)
  | IsCompressed => compressed
  | _ => flag_in l f
  end.

(** A query whose operands are interleaved. *)
Definition interleaved (inputs : Inputs) (output : Xlen -> Cycle -> Res Z) : LookupQuery :=
  mkQuery inputs (default_lookup_operands inputs) (default_lookup_index (default_lookup_operands inputs)) output.
(** A query with a single combined operand. *)
Definition combined (inputs operands : Inputs) (output : Xlen -> Cycle -> Res Z) : LookupQuery :=
  mkQuery inputs operands (operand_index operands) output.

(** [match XLEN { 32 => a, 64 => b }] *)
Definition by_width (a b : Z -> Z -> Z) (xl : Xlen) (x y : Z) : Z := match xl with Bit32 => a x y | Bit64 => b x y end.

Definition wrapping_add_output : Xlen -> Z -> Z -> Z :=
  by_width (fun x y => as_u32 (as_u32 x + as_u32 y)) (fun x y => as_u64 (x + as_u64 y)).
Definition signed_add_output : Xlen -> Z -> Z -> Z :=
  by_width (fun x y => as_u32 (as_i32 (as_i32 x + as_i32 y))) (fun x y => as_u64 (as_i64 (as_i64 x + as_i64 y))).
Definition wrapping_mul_output : Xlen -> Z -> Z -> Z :=
  by_width (fun x y => as_u32 (as_i32 (as_i32 x * as_i32 y))) (fun x y => as_u64 (as_i64 (as_i64 x * as_i64 y))).

Definition ADD_jolt : JoltInstruction :=
  mkJolt (Some RangeCheck)
    (sequence_flags [LeftOperandIsRs1Value; RightOperandIsRs2Value; AddOperands; WriteLookupOutputToRD])
    (combined rs1_rs2 (add_operands rs1_rs2) (on_inputs rs1_rs2 wrapping_add_output)).

Definition ADDI_jolt : JoltInstruction :=
  mkJolt (Some RangeCheck)
    (sequence_flags [AddOperands; LeftOperandIsRs1Value; RightOperandIsImm; WriteLookupOutputToRD])
    (combined rs1_imm (add_operands rs1_imm) (on_inputs rs1_imm wrapping_add_output)).

Definition and_output : Xlen -> Z -> Z -> Z :=
  by_width (fun x y => Z.land (as_u32 x) (as_u32 y)) (fun x y => Z.land x (as_u64 y)).

Definition AND_jolt : JoltInstruction :=
  mkJolt (Some And) (sequence_flags [LeftOperandIsRs1Value; RightOperandIsRs2Value; WriteLookupOutputToRD])
    (interleaved rs1_rs2 (on_inputs rs1_rs2 and_output)).

Definition ANDI_jolt : JoltInstruction :=
  mkJolt (Some And) (sequence_flags [LeftOperandIsRs1Value; RightOperandIsImm; WriteLookupOutputToRD])
    (interleaved rs1_imm (on_inputs rs1_imm and_output)).

Definition ANDN_jolt : JoltInstruction :=
  mkJolt (Some Andn) (sequence_flags [LeftOperandIsRs1Value; RightOperandIsRs2Value; WriteLookupOutputToRD])
    (interleaved rs1_rs2 (on_inputs rs1_rs2
       (by_width (fun x y => Z.land (as_u32 x) (as_u32 (Z.lnot (as_u32 y))))
          (fun x y => Z.land x (as_u64 (Z.lnot (as_u64 y))))))).

Definition AUIPC_jolt : JoltInstruction :=
  mkJolt (Some RangeCheck) (sequence_flags [LeftOperandIsPC; RightOperandIsImm; AddOperands; WriteLookupOutputToRD])
    (combined pc_imm (signed_add_operands pc_imm) (on_inputs pc_imm signed_add_output)).

Definition BEQ_jolt : JoltInstruction :=
  mkJolt (Some Equal) (sequence_flags [LeftOperandIsRs1Value; RightOperandIsRs2Value; Branch])
    (interleaved rs1_rs2 (on_inputs rs1_rs2 (fun _ x y => bool_u64 (x =? as_u64 y)))).

Definition BGE_jolt : JoltInstruction :=
  mkJolt (Some SignedGreaterThanEqual) (sequence_flags [LeftOperandIsRs1Value; RightOperandIsRs2Value; Branch])
    (interleaved rs1_rs2 (on_inputs rs1_rs2
       (by_width (fun x y => bool_u64 (as_i32 x >=? as_i32 y)) (fun x y => bool_u64 (as_i64 x >=? as_i64 y))))).

Definition BGEU_jolt : JoltInstruction :=
  mkJolt (Some UnsignedGreaterThanEqual) (sequence_flags [LeftOperandIsRs1Value; RightOperandIsRs2Value; Branch])
    (interleaved rs1_rs2 (on_inputs rs1_rs2 (fun _ x y => bool_u64 (x >=? as_u64 y)))).

Definition signed_less_output : Xlen -> Z -> Z -> Z :=
  by_width (fun x y => bool_u64 (as_i32 x <? as_i32 y)) (fun x y => bool_u64 (as_i64 x <? as_i64 y)).
Definition unsigned_less_output : Xlen -> Z -> Z -> Z :=
  by_width (fun x y => bool_u64 (as_u32 x <? as_u32 y)) (fun x y => bool_u64 (x <? as_u64 y)).

Definition BLT_jolt : JoltInstruction :=
  mkJolt (Some SignedLessThan) (sequence_flags [LeftOperandIsRs1Value; RightOperandIsRs2Value; Branch])
    (interleaved rs1_rs2 (on_inputs rs1_rs2 signed_less_output)).

Definition BLTU_jolt : JoltInstruction :=
  mkJolt (Some UnsignedLessThan) (sequence_flags [LeftOperandIsRs1Value; RightOperandIsRs2Value; Branch])
    (interleaved rs1_rs2 (on_inputs rs1_rs2 unsigned_less_output)).

Definition BNE_jolt : JoltInstruction :=
  mkJolt (Some NotEqual) (sequence_flags [LeftOperandIsRs1Value; RightOperandIsRs2Value; Branch])
    (interleaved rs1_rs2 (on_inputs rs1_rs2 (fun _ x y => bool_u64 (negb (x =? as_u64 y))))).

(** The instructions without a lookup. *)
Definition no_lookup : LookupQuery := interleaved no_inputs (fun _ _ => Ok 0).
Definition compressed_flag (_ : option Z) (compressed : bool) : Flags :=
  fun f => match f with IsCompressed => compressed | _ => false end.

Definition ECALL_jolt : JoltInstruction := mkJolt None compressed_flag no_lookup.
Definition FENCE_jolt : JoltInstruction := mkJolt None compressed_flag no_lookup.

Definition JAL_jolt : JoltInstruction :=
  mkJolt (Some RangeCheck) (sequence_flags [LeftOperandIsPC; RightOperandIsImm; AddOperands; Jump])
    (combined pc_imm (signed_add_operands pc_imm) (on_inputs pc_imm signed_add_output)).

Definition JALR_jolt : JoltInstruction :=
  mkJolt (Some RangeCheck) (sequence_flags [LeftOperandIsRs1Value; RightOperandIsImm; Jump; AddOperands])
    (combined rs1_imm (signed_add_operands rs1_imm) (on_inputs rs1_imm signed_add_output)).

Definition LD_jolt : JoltInstruction := mkJolt None (sequence_flags [Load]) no_lookup.

Definition LUI_jolt : JoltInstruction :=
  mkJolt (Some RangeCheck) (sequence_flags [RightOperandIsImm; AddOperands; WriteLookupOutputToRD])
    (combined imm_only (default_lookup_operands imm_only)
       (fun xl cy => Ok (match xl with Bit32 => as_u32 (imm cy) | Bit64 => imm cy end))).

Definition MUL_jolt : JoltInstruction :=
  mkJolt (Some RangeCheck)
    (sequence_flags [LeftOperandIsRs1Value; RightOperandIsRs2Value; MultiplyOperands; WriteLookupOutputToRD])
    (combined rs1_rs2 (mul_operands rs1_rs2) (on_inputs rs1_rs2 wrapping_mul_output)).

Definition MULHU_jolt : JoltInstruction :=
  mkJolt (Some UpperWord)
    (sequence_flags [MultiplyOperands; LeftOperandIsRs1Value; RightOperandIsRs2Value; WriteLookupOutputToRD])
    (combined rs1_rs2 (mul_operands rs1_rs2) (on_inputs rs1_rs2
       (by_width (fun x y => Z.shiftr (as_u64 (x * as_u64 y)) 32) (fun x y => as_u64 (Z.shiftr (x * as_u64 y) 64))))).

Definition or_output : Xlen -> Z -> Z -> Z :=
  by_width (fun x y => Z.lor (as_u32 x) (as_u32 y)) (fun x y => Z.lor x (as_u64 y)).

Definition OR_jolt : JoltInstruction :=
  mkJolt (Some Or) (sequence_flags [LeftOperandIsRs1Value; RightOperandIsRs2Value; WriteLookupOutputToRD])
    (interleaved rs1_rs2 (on_inputs rs1_rs2 or_output)).

Definition ORI_jolt : JoltInstruction :=
  mkJolt (Some Or) (sequence_flags [WriteLookupOutputToRD; LeftOperandIsRs1Value; RightOperandIsImm])
    (interleaved rs1_imm (on_inputs rs1_imm or_output)).

Definition SD_jolt : JoltInstruction := mkJolt None (sequence_flags [Store]) no_lookup.

Definition SLT_jolt : JoltInstruction :=
  mkJolt (Some SignedLessThan) (sequence_flags [LeftOperandIsRs1Value; RightOperandIsRs2Value; WriteLookupOutputToRD])
    (interleaved rs1_rs2 (on_inputs rs1_rs2 signed_less_output)).

Definition SLTI_jolt : JoltInstruction :=
  mkJolt (Some SignedLessThan) (sequence_flags [WriteLookupOutputToRD; LeftOperandIsRs1Value; RightOperandIsImm])
    (interleaved rs1_imm (on_inputs rs1_imm signed_less_output)).

Definition SLTIU_jolt : JoltInstruction :=
  mkJolt (Some UnsignedLessThan) (sequence_flags [WriteLookupOutputToRD; LeftOperandIsRs1Value; RightOperandIsImm])
    (interleaved rs1_imm (on_inputs rs1_imm unsigned_less_output)).

Definition SLTU_jolt : JoltInstruction :=
  mkJolt (Some UnsignedLessThan) (sequence_flags [WriteLookupOutputToRD; LeftOperandIsRs1Value; RightOperandIsRs2Value])
    (interleaved rs1_rs2 (on_inputs rs1_rs2 unsigned_less_output)).

(** [(0, x + ((1u128 << XLEN) - y))] *)
Definition sub_operands (inputs : Inputs) : Inputs := fun xl cy =>
  let? p := inputs xl cy in Ok (0, fst p + (2 ^ WIDTH xl - snd p)).

Definition SUB_jolt : JoltInstruction :=
  mkJolt (Some RangeCheck)
    (sequence_flags [SubtractOperands; LeftOperandIsRs1Value; RightOperandIsRs2Value; WriteLookupOutputToRD])
    (combined rs1_rs2 (sub_operands rs1_rs2) (on_inputs rs1_rs2
       (by_width (fun x y => as_u32 (as_u32 x - as_u32 y)) (fun x y => as_u64 (x - as_u64 y))))).

Definition xor_output : Xlen -> Z -> Z -> Z :=
  by_width (fun x y => Z.lxor (as_u32 x) (as_u32 y)) (fun x y => Z.lxor x (as_u64 y)).

Definition XOR_jolt : JoltInstruction :=
  mkJolt (Some Xor) (sequence_flags [LeftOperandIsRs1Value; RightOperandIsRs2Value; WriteLookupOutputToRD])
    (interleaved rs1_rs2 (on_inputs rs1_rs2 xor_output)).

Definition XORI_jolt : JoltInstruction :=
  mkJolt (Some Xor) (sequence_flags [WriteLookupOutputToRD; LeftOperandIsRs1Value; RightOperandIsImm])
    (interleaved rs1_imm (on_inputs rs1_imm xor_output)).

(** ** Virtual instructions *)

(** [self.instruction.advice.unwrap_or(0)] *)
Definition advice_value (cy : Cycle) : Z :=
  match cycle_instruction cy with VirtualAdvice _ (Some a) => a | _ => 0 end.

Definition advice_output (xl : Xlen) (cy : Cycle) : Z :=
  match xl with Bit32 => as_u32 (advice_value cy) | Bit64 => advice_value cy end.

Definition VirtualAdvice_jolt : JoltInstruction :=
  mkJolt (Some RangeCheck) (sequence_flags [Advice; WriteLookupOutputToRD])
    (combined no_inputs (fun xl cy => Ok (0, advice_output xl cy)) (fun xl cy => Ok (advice_output xl cy))).

Definition VirtualAssertEQ_jolt : JoltInstruction :=
  mkJolt (Some Equal) (sequence_flags [Assert; LeftOperandIsRs1Value; RightOperandIsRs2Value])
    (interleaved rs1_rs2 (on_inputs rs1_rs2 (fun _ x y => bool_u64 (x =? as_u64 y)))).

(** [to_lookup_index(self).is_multiple_of(n)] *)
Definition aligned_output (operands : Inputs) (n : Z) : Xlen -> Cycle -> Res Z := fun xl cy =>
  let? index := operand_index operands xl cy in Ok (bool_u64 (index mod n =? 0)).

Definition VirtualAssertHalfwordAlignment_jolt : JoltInstruction :=
  mkJolt (Some HalfwordAlignment) (sequence_flags [Assert; LeftOperandIsRs1Value; RightOperandIsImm; AddOperands])
    (combined rs1_imm (signed_add_operands rs1_imm) (aligned_output (signed_add_operands rs1_imm) 2)).

Definition VirtualAssertWordAlignment_jolt : JoltInstruction :=
  mkJolt (Some WordAlignment) (sequence_flags [Assert; LeftOperandIsRs1Value; RightOperandIsImm; AddOperands])
    (combined rs1_imm (signed_add_operands rs1_imm) (aligned_output (signed_add_operands rs1_imm) 4)).

Definition VirtualAssertLTE_jolt : JoltInstruction :=
  mkJolt (Some LessThanEqual) (sequence_flags [Assert; LeftOperandIsRs1Value; RightOperandIsRs2Value])
    (interleaved rs1_rs2 (on_inputs rs1_rs2 (fun _ x y => bool_u64 (x <=? as_u64 y)))).

Definition VirtualAssertMulUNoOverflow_jolt : JoltInstruction :=
  mkJolt (Some MulUNoOverflow)
    (sequence_flags [MultiplyOperands; Assert; LeftOperandIsRs1Value; RightOperandIsRs2Value])
    (combined rs1_rs2 (mul_operands rs1_rs2) (on_inputs rs1_rs2
       (by_width (fun x y => bool_u64 (x * as_u64 y <=? u32_MAX)) (fun x y => bool_u64 (x * as_u64 y <=? u64_MAX))))).

Definition VirtualAssertValidDiv0_jolt : JoltInstruction :=
  mkJolt (Some ValidDiv0) (sequence_flags [Assert; LeftOperandIsRs1Value; RightOperandIsRs2Value])
    (interleaved rs1_rs2 (on_inputs rs1_rs2 (fun xl divisor quotient =>
       if divisor =? 0 then
         bool_u64 (as_u64 quotient =? match xl with Bit32 => u32_MAX | Bit64 => u64_MAX end)
       else 1))).

Definition VirtualAssertValidUnsignedRemainder_jolt : JoltInstruction :=
  mkJolt (Some ValidUnsignedRemainder) (sequence_flags [Assert; LeftOperandIsRs1Value; RightOperandIsRs2Value])
    (interleaved rs1_rs2 (on_inputs rs1_rs2 (fun _ remainder divisor =>
       bool_u64 ((divisor =? 0) || (remainder <? as_u64 divisor))))).

(** For 64 bits [divisor] is compared as the [i128] the inputs return. *)
Definition VirtualChangeDivisor_jolt : JoltInstruction :=
  mkJolt (Some TVirtualChangeDivisor)
    (sequence_flags [LeftOperandIsRs1Value; RightOperandIsRs2Value; WriteLookupOutputToRD])
    (interleaved rs1_rs2 (on_inputs rs1_rs2 (by_width
       (fun remainder divisor =>
          if (as_i32 remainder =? i32_MIN) && (as_i32 divisor =? -1) then 1 else as_u32 (as_i32 divisor))
       (fun remainder divisor =>
          if (as_i64 remainder =? i64_MIN) && (divisor =? -1) then 1 else as_u64 divisor)))).

(** [(rs1 as u32 as u64, rs2 as i32 as i128)] *)
Definition word_inputs : Inputs := fun _ cy => Ok (as_u32 (rs1 cy), as_i32 (rs2 cy)).

Definition VirtualChangeDivisorW_jolt : JoltInstruction :=
  mkJolt (Some TVirtualChangeDivisorW)
    (sequence_flags [LeftOperandIsRs1Value; RightOperandIsRs2Value; WriteLookupOutputToRD])
    (interleaved word_inputs (on_inputs word_inputs (fun _ remainder divisor =>
       if (as_i32 remainder =? i32_MIN) && (as_i32 divisor =? -1) then 1 else as_u64 (as_i32 divisor)))).

Definition VirtualLW_jolt : JoltInstruction := mkJolt None (sequence_flags [Load]) no_lookup.
Definition VirtualSW_jolt : JoltInstruction := mkJolt None (sequence_flags [Store]) no_lookup.

Definition VirtualMove_jolt : JoltInstruction :=
  mkJolt (Some RangeCheck)
    (sequence_flags [LeftOperandIsRs1Value; RightOperandIsImm; AddOperands; WriteLookupOutputToRD])
    (combined rs1_only (fun xl cy => let? p := rs1_only xl cy in Ok (0, fst p + as_u128 (snd p)))
       (fun xl cy => Ok (match xl with Bit32 => as_u32 (rs1 cy) | Bit64 => rs1 cy end))).

Definition VirtualMovsign_jolt : JoltInstruction :=
  mkJolt (Some Movsign) (sequence_flags [LeftOperandIsRs1Value; RightOperandIsImm; WriteLookupOutputToRD])
    (interleaved rs1_imm (on_inputs rs1_imm (by_width
       (fun x _ => if negb (Z.land x (2 ^ 31) =? 0) then 0xFFFFFFFF else 0)
       (fun x _ => if negb (Z.land x (2 ^ 63) =? 0) then 0xFFFFFFFFFFFFFFFF else 0)))).

Definition VirtualMULI_jolt : JoltInstruction :=
  mkJolt (Some RangeCheck)
    (sequence_flags [LeftOperandIsRs1Value; RightOperandIsImm; MultiplyOperands; WriteLookupOutputToRD])
    (combined rs1_imm (mul_operands rs1_imm) (on_inputs rs1_imm wrapping_mul_output)).

(** [1u64 << (to_lookup_index(self) % XLEN)] and its word variant. *)
Definition pow2_output (operands : Inputs) : Xlen -> Cycle -> Res Z := fun xl cy =>
  let? y := operand_index operands xl cy in Ok (2 ^ (y mod WIDTH xl)).
Definition pow2w_output (operands : Inputs) : Xlen -> Cycle -> Res Z := fun xl cy =>
  let? y := operand_index operands xl cy in Ok (2 ^ (y mod 32)).

Definition VirtualPow2_jolt : JoltInstruction :=
  mkJolt (Some Pow2)
    (sequence_flags [LeftOperandIsRs1Value; RightOperandIsImm; AddOperands; WriteLookupOutputToRD])
    (combined rs1_only (add_operands rs1_only) (pow2_output (add_operands rs1_only))).

(** [RightOperandIsImm] is set only inside a sequence. *)
Definition VirtualPow2I_flags (remaining : option Z) (compressed : bool) : Flags := fun f =>
  match f with
  | RightOperandIsImm => match remaining with Some _ => true | None => false end
  | _ => sequence_flags [AddOperands; WriteLookupOutputToRD] remaining compressed f
  end.
Definition VirtualPow2I_jolt : JoltInstruction :=
  mkJolt (Some Pow2) VirtualPow2I_flags
    (combined imm_only (add_operands imm_only) (pow2_output (add_operands imm_only))).

Definition imm_input : Inputs := fun _ cy => Ok (0, imm cy).
Definition rs1_input : Inputs := fun _ cy => Ok (rs1 cy, 0).

Definition VirtualPow2IW_jolt : JoltInstruction :=
  mkJolt (Some Pow2W) (sequence_flags [RightOperandIsImm; AddOperands; WriteLookupOutputToRD])
    (combined imm_input (add_operands imm_input) (pow2w_output (add_operands imm_input))).

Definition VirtualPow2W_jolt : JoltInstruction :=
  mkJolt (Some Pow2W) (sequence_flags [LeftOperandIsRs1Value; AddOperands; WriteLookupOutputToRD])
    (combined rs1_input (add_operands rs1_input) (pow2w_output (add_operands rs1_input))).

Definition VirtualRev8W_jolt : JoltInstruction :=
  mkJolt (Some TVirtualRev8W) (sequence_flags [LeftOperandIsRs1Value; WriteLookupOutputToRD; AddOperands])
    (mkQuery rs1_input (fun _ cy => Ok (0, rs1 cy)) (fun _ cy => Ok (rs1 cy)) (fun _ cy => Ok (rev8w (rs1 cy)))).

(** [rotate_right] on [u16]. *)
Definition rotate_right_u16 (z n : Z) : Z :=
  let z := as_u16 z in as_u16 (Z.lor (Z.shiftr z (n mod 16)) (Z.shiftl z ((16 - n mod 16) mod 16))).

Definition rs1_imm_full : Inputs := fun _ cy => Ok (rs1 cy, imm cy).

Definition VirtualROTRI_jolt : JoltInstruction :=
  mkJolt (Some VirtualROTR) (sequence_flags [LeftOperandIsRs1Value; RightOperandIsImm; WriteLookupOutputToRD])
    (interleaved rs1_imm_full (on_inputs rs1_imm_full (by_width
       (fun x y => rotate_right_u32 (as_u32 x) (trailing_zeros 32 (as_u32 y)))
       (fun x y => rotate_right_u64 x (trailing_zeros 64 (as_u64 y)))))).

Definition VirtualROTRIW_jolt : JoltInstruction :=
  mkJolt (Some VirtualROTRW) (sequence_flags [LeftOperandIsRs1Value; RightOperandIsImm; WriteLookupOutputToRD])
    (interleaved rs1_imm_full (on_inputs rs1_imm_full (by_width
       (fun x y => rotate_right_u16 (as_u16 x) (Z.min (trailing_zeros 32 (as_u32 y)) 16))
       (fun x y => rotate_right_u32 (as_u32 x) (Z.min (trailing_zeros 64 (as_u64 y)) 32))))).

(** [let ones = (1 << (XLEN - shift)) - 1; ones << shift] *)
Definition bitmask_output (operands : Inputs) : Xlen -> Cycle -> Res Z := fun xl cy =>
  let? y := operand_index operands xl cy in
  let shift := y mod WIDTH xl in
  let ones := 2 ^ (WIDTH xl - shift) - 1 in
  Ok (as_u64 (Z.shiftl ones shift)).

Definition VirtualShiftRightBitmask_jolt : JoltInstruction :=
  mkJolt (Some ShiftRightBitmask)
    (sequence_flags [LeftOperandIsRs1Value; RightOperandIsImm; WriteLookupOutputToRD; AddOperands])
    (combined rs1_only (add_operands rs1_only) (bitmask_output (add_operands rs1_only))).

Definition VirtualShiftRightBitmaskI_jolt : JoltInstruction :=
  mkJolt (Some ShiftRightBitmask) (sequence_flags [WriteLookupOutputToRD; AddOperands; RightOperandIsImm])
    (combined imm_only (add_operands imm_only) (bitmask_output (add_operands imm_only))).

Definition VirtualSignExtendWord_jolt : JoltInstruction :=
  mkJolt (Some SignExtendHalfWord) (sequence_flags [WriteLookupOutputToRD; LeftOperandIsRs1Value; AddOperands])
    (combined rs1_input (add_operands rs1_input) (fun xl cy =>
       let? y := operand_index (add_operands rs1_input) xl cy in
       let half_word_size := WIDTH xl / 2 in
       let lower_half := Z.land (as_u64 y) (2 ^ half_word_size - 1) in
       let sign_bit := Z.land (Z.shiftr lower_half (half_word_size - 1)) 1 in
       Ok (if sign_bit =? 1 then Z.lor lower_half (as_u64 (Z.shiftl (2 ^ half_word_size - 1) half_word_size))
           else lower_half))).

(** [u128::try_from(x as i128 + y).unwrap()] *)
Definition checked_add_operands (inputs : Inputs) : Inputs := fun xl cy =>
  let? p := inputs xl cy in
  let s := fst p + snd p in if 0 <=? s then Ok (0, s) else Panic.

Definition VirtualZeroExtendWord_jolt : JoltInstruction :=
  mkJolt (Some LowerHalfWord) (sequence_flags [WriteLookupOutputToRD; LeftOperandIsRs1Value; AddOperands])
    (combined rs1_input (checked_add_operands rs1_input) (fun xl cy =>
       let? y := operand_index (checked_add_operands rs1_input) xl cy in
       let half_word_size := WIDTH xl / 2 in
       Ok (Z.land (as_u64 y) (2 ^ half_word_size - 1)))).

(** The loops of the right shifts, as in the tables. *)
Definition sra_output (xl : Xlen) (x y : Z) : Z := sra_entry xl x (as_u64 y).
Definition srl_output (xl : Xlen) (x y : Z) : Z := srl_entry xl x (as_u128 y).

Definition VirtualSRA_jolt : JoltInstruction :=
  mkJolt (Some TVirtualSRA) (sequence_flags [LeftOperandIsRs1Value; RightOperandIsRs2Value; WriteLookupOutputToRD])
    (interleaved rs1_rs2 (on_inputs rs1_rs2 sra_output)).

Definition VirtualSRAI_jolt : JoltInstruction :=
  mkJolt (Some TVirtualSRA) (sequence_flags [LeftOperandIsRs1Value; RightOperandIsImm; WriteLookupOutputToRD])
    (interleaved rs1_imm (on_inputs rs1_imm (fun xl x y => sra_entry xl x (as_u128 y)))).

Definition VirtualSRL_jolt : JoltInstruction :=
  mkJolt (Some TVirtualSRL) (sequence_flags [LeftOperandIsRs1Value; RightOperandIsRs2Value; WriteLookupOutputToRD])
    (interleaved rs1_rs2 (on_inputs rs1_rs2 srl_output)).

Definition VirtualSRLI_jolt : JoltInstruction :=
  mkJolt (Some TVirtualSRL) (sequence_flags [LeftOperandIsRs1Value; RightOperandIsImm; WriteLookupOutputToRD])
    (interleaved rs1_imm (on_inputs rs1_imm srl_output)).

(** Only 64-bit arms. *)
Definition rs1_rs2_64 : Inputs := fun xl cy =>
  match xl with Bit32 => Panic | Bit64 => Ok (rs1 cy, rs2 cy) end.

Definition VirtualXORROT_jolt (rotation : Z) : JoltInstruction :=
  mkJolt (Some (TVirtualXORROT rotation))
    (sequence_flags [LeftOperandIsRs1Value; RightOperandIsRs2Value; WriteLookupOutputToRD])
    (interleaved rs1_rs2_64 (on_inputs rs1_rs2_64 (fun _ x y => rotate_right_u64 (Z.lxor x (as_u64 y)) rotation))).

Definition VirtualXORROTW_jolt (rotation : Z) : JoltInstruction :=
  mkJolt (Some (TVirtualXORROTW rotation))
    (sequence_flags [LeftOperandIsRs1Value; RightOperandIsRs2Value; WriteLookupOutputToRD])
    (interleaved rs1_rs2_64 (on_inputs rs1_rs2_64
       (fun _ x y => rotate_right_u32 (Z.lxor (as_u32 x) (as_u32 y)) rotation))).

(** ** Dispatch

    The macro [define_rv32im_trait_impls!], with the list of instructions of the
    build; an instruction outside the list panics. *)

Definition jolt_R (rv64 : bool) (op : OpR) : option JoltInstruction :=
  match op with
  | ADD => Some ADD_jolt | SUB => Some SUB_jolt | AND => Some AND_jolt | ANDN => Some ANDN_jolt
  | OR => Some OR_jolt | XOR => Some XOR_jolt | SLT => Some SLT_jolt | SLTU => Some SLTU_jolt
  | MUL => Some MUL_jolt | MULHU => Some MULHU_jolt
  | VirtualChangeDivisor => Some VirtualChangeDivisor_jolt
  | VirtualChangeDivisorW => if rv64 then Some VirtualChangeDivisorW_jolt else None
  | VirtualXORROT32 => Some (VirtualXORROT_jolt 32) | VirtualXORROT24 => Some (VirtualXORROT_jolt 24)
  | VirtualXORROT16 => Some (VirtualXORROT_jolt 16) | VirtualXORROT63 => Some (VirtualXORROT_jolt 63)
  | VirtualXORROTW16 => if rv64 then Some (VirtualXORROTW_jolt 16) else None
  | VirtualXORROTW12 => if rv64 then Some (VirtualXORROTW_jolt 12) else None
  | VirtualXORROTW8 => if rv64 then Some (VirtualXORROTW_jolt 8) else None
  | VirtualXORROTW7 => if rv64 then Some (VirtualXORROTW_jolt 7) else None
  | _ => None
  end.

Definition jolt_I (rv64 : bool) (op : OpI) : option JoltInstruction :=
  match op with
  | ADDI => Some ADDI_jolt | ANDI => Some ANDI_jolt | ORI => Some ORI_jolt | XORI => Some XORI_jolt
  | SLTI => Some SLTI_jolt | SLTIU => Some SLTIU_jolt | JALR => Some JALR_jolt
  | ECALL => Some ECALL_jolt | FENCE => Some FENCE_jolt
  | VirtualLW => Some VirtualLW_jolt | VirtualMULI => Some VirtualMULI_jolt | VirtualMove => Some VirtualMove_jolt
  | VirtualMovsign => Some VirtualMovsign_jolt | VirtualPow2 => Some VirtualPow2_jolt
  | VirtualPow2W => if rv64 then Some VirtualPow2W_jolt else None
  | VirtualRev8W => Some VirtualRev8W_jolt | VirtualShiftRightBitmask => Some VirtualShiftRightBitmask_jolt
  | VirtualSignExtendWord => if rv64 then Some VirtualSignExtendWord_jolt else None
  | VirtualZeroExtendWord => if rv64 then Some VirtualZeroExtendWord_jolt else None
  | _ => None
  end.

Definition jolt_B (op : OpB) : JoltInstruction :=
  match op with
  | BEQ => BEQ_jolt | BNE => BNE_jolt | BLT => BLT_jolt | BGE => BGE_jolt | BLTU => BLTU_jolt | BGEU => BGEU_jolt
  | VirtualAssertEQ => VirtualAssertEQ_jolt | VirtualAssertLTE => VirtualAssertLTE_jolt
  | VirtualAssertMulUNoOverflow => VirtualAssertMulUNoOverflow_jolt
  | VirtualAssertValidDiv0 => VirtualAssertValidDiv0_jolt
  | VirtualAssertValidUnsignedRemainder => VirtualAssertValidUnsignedRemainder_jolt
  end.

Definition jolt_instruction (rv64 : bool) (i : Instruction) : option JoltInstruction :=
  match i with
  | NoOp | UNIMPL | INLINE _ _ _ _ => None
  | InstrR op _ => jolt_R rv64 op
  | InstrI op _ => jolt_I rv64 op
  | InstrLoad op _ => match op with LD => if rv64 then Some LD_jolt else None | _ => None end
  | InstrS op _ =>
      match op with
      | SD => if rv64 then Some SD_jolt else None
      | VirtualSW => Some VirtualSW_jolt
      | _ => None
      end
  | InstrB op _ => Some (jolt_B op)
  | InstrJ op _ =>
      match op with
      | JAL => Some JAL_jolt
      | VirtualPow2I => Some VirtualPow2I_jolt
      | VirtualPow2IW => if rv64 then Some VirtualPow2IW_jolt else None
      | VirtualShiftRightBitmaskI => Some VirtualShiftRightBitmaskI_jolt
      end
  | InstrU op _ => match op with LUI => Some LUI_jolt | AUIPC => Some AUIPC_jolt end
  | InstrVI op _ =>
      match op with
      | VirtualROTRI => Some VirtualROTRI_jolt
      | VirtualROTRIW => if rv64 then Some VirtualROTRIW_jolt else None
      | VirtualSRAI => Some VirtualSRAI_jolt
      | VirtualSRLI => Some VirtualSRLI_jolt
      end
  | InstrVR op _ => match op with VirtualSRA => Some VirtualSRA_jolt | VirtualSRL => Some VirtualSRL_jolt end
  | InstrAlign op _ =>
      match op with
      | VirtualAssertHalfwordAlignment => Some VirtualAssertHalfwordAlignment_jolt
      | VirtualAssertWordAlignment => Some VirtualAssertWordAlignment_jolt
      end
  | VirtualAdvice _ _ => Some VirtualAdvice_jolt
  end.

Section Dispatch.
Context `{Build}.

Definition noop_flags : Flags := fun f => match f with IsNoop | DoNotUpdateUnexpandedPC => true | _ => false end.

Definition Instruction_circuit_flags (i : Instruction) : Res Flags :=
  match i with
  | NoOp => Ok noop_flags
  | UNIMPL => Ok (fun _ => false)
  | _ =>
      match jolt_instruction feature_rv64 i with
      | Some j => Ok (circuit_flags j (ni_inline_sequence_remaining (normalize i)) (ni_is_compressed (normalize i)))
      | None => Panic
      end
  end.

Definition Instruction_lookup_table (i : Instruction) : Res (option LookupTables) :=
  match i with
  | NoOp | UNIMPL => Ok None
  | _ => match jolt_instruction feature_rv64 i with Some j => Ok (lookup_table j) | None => Panic end
  end.

(** The methods of [Cycle]; [NoOp] answers with zeros. *)
Definition cycle_query {A} (noop : A) (method : LookupQuery -> Xlen -> Cycle -> Res A) (xl : Xlen) (cy : Cycle) : Res A :=
  match cycle_instruction cy with
  | NoOp => Ok noop
  | i => match jolt_instruction feature_rv64 i with Some j => method (query j) xl cy | None => Panic end
  end.

Definition Cycle_to_instruction_inputs : Inputs := cycle_query (0, 0) to_instruction_inputs.
Definition Cycle_to_lookup_operands : Inputs := cycle_query (0, 0) to_lookup_operands.
Definition Cycle_to_lookup_index : Xlen -> Cycle -> Res Z := cycle_query 0 to_lookup_index.
Definition Cycle_to_lookup_output : Xlen -> Cycle -> Res Z := cycle_query 0 to_lookup_output.

Definition Cycle_lookup_table (cy : Cycle) : Res (option LookupTables) :=
  match cycle_instruction cy with
  | NoOp => Ok None
  | i => match jolt_instruction feature_rv64 i with Some j => Ok (lookup_table j) | None => Panic end
  end.

End Dispatch.
