(* ===== verification/InstructionEntries.v ===== *)
(** * Lookup outputs are table entries

    For every instruction of [zkvm/instruction/*.rs] the output a cycle claims
    ([to_lookup_output]) is the entry its table holds at the cycle's index
    ([to_lookup_index]): what the instruction lookup argument checks. *)

From Stdlib Require Import ZArith Lia List Bool.
From stdpp Require Import base list.
From S2P Require Import Prelude Words Types Isa Exec Trace Field LookupTables TableMl BitOps TableMle TableMleRest.
From S2P Require Import TableMleShift TableMleRot InstructionLookup.
Import ListNotations.
Local Open Scope Z_scope.
Local Open Scope rust_scope.

#[local] Opaque uninterleave_bits interleave_bits.

(** ** Indices *)

Lemma interleave_bound w x y : 0 <= w <= 64 -> 0 <= x < 2 ^ w -> 0 <= y < 2 ^ w ->
  0 <= interleave_bits x y < 2 ^ (2 * w).
Proof.
  intros Hw Hx Hy. assert (2 ^ w <= 2 ^ 64) by (apply Z.pow_le_mono_r; lia).
  apply word_of_bits; [lia|]. intros m Hm. destruct (Z.lt_ge_cases m 128).
  - rewrite interleave_bit by (unfold is_u64; lia).
    destruct (Z.even m) eqn:E; apply (word_high _ w); try done; (split; [lia|]); apply Z.div_le_lower_bound; lia.
  - apply (word_high _ 128); [apply interleave_u128|lia].
Qed.

(** What an entry lemma says of an instruction and a cycle. *)
Definition entry_correct `{Build} (xl : Xlen) (j : JoltInstruction) (cy : Cycle) : Prop :=
  match lookup_table j with
  | None => True
  | Some t => exists index out,
      to_lookup_index (query j) xl cy = Ok index /\ to_lookup_output (query j) xl cy = Ok out /\
      0 <= index < 2 ^ (2 * WIDTH xl) /\ materialize_entry xl t index = Ok out
  end.

(** A value of the word size. *)
Definition in_word (xl : Xlen) (v : Z) : Prop := 0 <= v < 2 ^ WIDTH xl.

Lemma in_word_u64 xl v : in_word xl v -> is_u64 v.
Proof. unfold in_word, is_u64. destruct xl; cbn [WIDTH]; lia. Qed.

Lemma as_u64_word xl v : in_word xl v -> as_u64 v = v.
Proof. intros Hv. by apply as_u64_small, (in_word_u64 xl). Qed.

Lemma as_u32_word v : in_word Bit32 v -> as_u32 v = v.
Proof. intros Hv. by apply as_u32_small. Qed.

Lemma as_u128_word xl v : in_word xl v -> as_u128 v = v.
Proof. intros Hv%in_word_u64. unfold is_u64 in Hv. apply Z.mod_small. lia. Qed.

Section Queries.
Context `{B : Build} (xl : Xlen) (cy : Cycle).

(** The entry of an interleaved query at operands [x], [y]. *)
Lemma interleaved_correct_u64 inputs t f flags x y :
  inputs xl cy = Ok (x, y) -> in_word xl x -> in_word xl (as_u64 y) ->
  materialize_entry xl t (interleave_bits x (as_u64 y)) = Ok (f xl x y) ->
  entry_correct xl (mkJolt (Some t) flags (interleaved inputs (on_inputs inputs f))) cy.
Proof.
  intros Hin Hx Hy He. pose proof (WIDTH_pos xl) as [HW _]. exists (interleave_bits x (as_u64 y)), (f xl x y).
  cbn [query interleaved to_lookup_index to_lookup_output]. unfold default_lookup_index, default_lookup_operands, on_inputs.
  rewrite Hin. cbn [res_bind fst snd]. rewrite (as_u64_word xl (as_u64 y)) by done.
  do 2 (split; [done|]). split; [|done]. apply interleave_bound; [lia|done..].
Qed.

Lemma interleaved_correct inputs t f flags x y :
  inputs xl cy = Ok (x, y) -> in_word xl x -> in_word xl y ->
  materialize_entry xl t (interleave_bits x y) = Ok (f xl x y) ->
  entry_correct xl (mkJolt (Some t) flags (interleaved inputs (on_inputs inputs f))) cy.
Proof.
  intros Hin Hx Hy He. apply (interleaved_correct_u64 _ _ _ _ x y); rewrite ?(as_u64_word xl y) by done; done.
Qed.

(** The entry of a query with one combined operand. *)
Lemma combined_correct inputs operands t output flags index out :
  operands xl cy = Ok (0, index) -> output xl cy = Ok out -> 0 <= index < 2 ^ (2 * WIDTH xl) ->
  materialize_entry xl t index = Ok out ->
  entry_correct xl (mkJolt (Some t) flags (combined inputs operands output)) cy.
Proof.
  intros Ho Hout Hi He. exists index, out. cbn [query combined to_lookup_index to_lookup_output]. unfold operand_index.
  by rewrite Ho.
Qed.

End Queries.

(** ** Entries of the tables at interleaved operands *)

Section Interleaved.
Context `{B : Build} (xl : Xlen) (x y : Z) (Hx : in_word xl x) (Hy : in_word xl y).

Lemma split_index : uninterleave_bits (interleave_bits x y) = (x, y).
Proof. apply uninterleave_interleave; by apply (in_word_u64 xl). Qed.

(** Split the index, then compare at both widths. *)
Ltac entry_at :=
  match goal with |- materialize_entry _ ?t _ = _ => cbn [materialize_entry] end;
  match goal with |- Ok (?f _) = _ => unfold f | |- Ok (?f _ _) = _ => unfold f | |- Ok (?f _ _ _) = _ => unfold f | _ => idtac end;
  rewrite split_index; unfold by_width.

Ltac word_casts :=
  destruct xl; rewrite ?(as_u32_word x), ?(as_u32_word y), ?(as_u64_word _ y Hy), ?(as_u128_word _ y Hy) by done.

Lemma and_entry : materialize_entry xl And (interleave_bits x y) = Ok (and_output xl x y).
Proof. entry_at. unfold and_output, by_width. by word_casts. Qed.

Lemma or_entry : materialize_entry xl Or (interleave_bits x y) = Ok (or_output xl x y).
Proof. entry_at. unfold or_output, by_width. by word_casts. Qed.

Lemma xor_entry : materialize_entry xl Xor (interleave_bits x y) = Ok (xor_output xl x y).
Proof. entry_at. unfold xor_output, by_width. by word_casts. Qed.

Lemma equal_entry : materialize_entry xl Equal (interleave_bits x y) = Ok (bool_u64 (x =? as_u64 y)).
Proof. entry_at. by word_casts. Qed.

Lemma not_equal_entry : materialize_entry xl NotEqual (interleave_bits x y) = Ok (bool_u64 (negb (x =? as_u64 y))).
Proof. entry_at. by word_casts. Qed.

Lemma unsigned_ge_entry : materialize_entry xl UnsignedGreaterThanEqual (interleave_bits x y) = Ok (bool_u64 (x >=? as_u64 y)).
Proof. entry_at. by word_casts. Qed.

Lemma unsigned_le_entry : materialize_entry xl LessThanEqual (interleave_bits x y) = Ok (bool_u64 (x <=? as_u64 y)).
Proof. entry_at. by word_casts. Qed.

Lemma signed_less_entry : materialize_entry xl SignedLessThan (interleave_bits x y) = Ok (signed_less_output xl x y).
Proof. entry_at. unfold signed_less_output, by_width. by destruct xl. Qed.

Lemma signed_ge_entry : materialize_entry xl SignedGreaterThanEqual (interleave_bits x y) = Ok (by_width
  (fun x y => bool_u64 (as_i32 x >=? as_i32 y)) (fun x y => bool_u64 (as_i64 x >=? as_i64 y)) xl x y).
Proof. entry_at. by destruct xl. Qed.

Lemma unsigned_less_entry : materialize_entry xl UnsignedLessThan (interleave_bits x y) = Ok (unsigned_less_output xl x y).
Proof. entry_at. unfold unsigned_less_output, by_width. by word_casts. Qed.

Lemma valid_unsigned_remainder_entry :
  materialize_entry xl ValidUnsignedRemainder (interleave_bits x y) = Ok (bool_u64 ((y =? 0) || (x <? as_u64 y))).
Proof. entry_at. by word_casts. Qed.

Lemma srl_output_entry : materialize_entry xl TVirtualSRL (interleave_bits x y) = Ok (srl_output xl x y).
Proof. entry_at. unfold srl_output. by word_casts. Qed.

Lemma sra_output_entry : materialize_entry xl TVirtualSRA (interleave_bits x y) = Ok (sra_entry xl x y).
Proof. by entry_at. Qed.

End Interleaved.

(** ** Rotation by a bitmask *)

Section RotateMask.
Context `{B : Build} (xl : Xlen) (x y skip s : Z).
Local Abbreviation W := (WIDTH xl).
Local Abbreviation n := (WIDTH xl - skip).
Local Abbreviation xs := (x mod 2 ^ (WIDTH xl - skip)).
Hypothesis Hskip : 0 <= skip.
Hypothesis Hs : 0 <= s < n.
Hypothesis Hy : y mod 2 ^ n = 2 ^ n - 2 ^ s.
Hypothesis Hover : overflow_checks = false \/ n < 64 \/ 0 < s.

(** [y] has ones above bit [s]. *)
Lemma mask_bit i : 0 <= i < n -> Z.testbit y i = (s <=? i).
Proof.
  intros Hi. assert (E : Z.testbit (y mod 2 ^ n) i = Z.testbit y i)
    by (rewrite tb_mod by lia; by replace (i <? n) with true by lia).
  rewrite <- E, Hy. replace (2 ^ n - 2 ^ s) with (Z.shiftl (Z.ones (n - s)) s).
  - rewrite tb_shiftl, tb_ones by lia. lia.
  - rewrite Z.shiftl_mul_pow2, Z.ones_equiv, <- Z.sub_1_r, Z.mul_sub_distr_r, <- Z.pow_add_r by lia.
    replace (n - s + s) with n by lia. lia.
Qed.

Lemma low_bit i : 0 <= i < n -> Z.testbit x i = Z.testbit xs i.
Proof. intros Hi. rewrite tb_mod by lia. by replace (i <? n) with true by lia. Qed.

Lemma xs_word : 0 <= xs < 2 ^ n.
Proof. apply Z.mod_pos_bound. lia. Qed.

(** The first [n - s] steps read ones. *)
Lemma rotr_ones : exists p,
  for_range (Z.to_nat (n - s)) skip (Ok (1, 0, 0)) (fun k => rotr_step x y (W - 1 - k)) = Ok (p, Z.shiftr xs s, 0)
  /\ (n - s < 64 -> p = 2 ^ (n - s)).
Proof.
  pose proof (WIDTH_pos xl) as [HW _]. pose proof xs_word as Hx.
  pose (P := fun k st => exists p, st = Ok (p, Z.shiftr xs (n - (k - skip)), 0) /\ (k - skip < 64 -> p = 2 ^ (k - skip))).
  assert (H : P (skip + Z.of_nat (Z.to_nat (n - s)))
    (for_range (Z.to_nat (n - s)) skip (Ok (1, 0, 0)) (fun k => rotr_step x y (W - 1 - k)))).
  { apply for_range_inv; unfold P.
    - exists 1. rewrite Z.sub_diag, Z.sub_0_r, shiftr_all by lia. done.
    - intros k st Hk (p & -> & Hp). specialize (Hp ltac:(lia)) as ->. set (j := k - skip) in *.
      unfold rotr_step. cbn [res_bind]. rewrite !shr_land_1 by lia. replace (W - 1 - k) with (n - 1 - j) by lia.
      rewrite mask_bit, low_bit by lia. replace (s <=? n - 1 - j) with true by lia. cbn [Z.b2z].
      replace (k + 1 - skip) with (j + 1) by lia. assert (Hj : 2 ^ (j + 1) = 2 ^ j * 2) by (rewrite Z.pow_add_r; lia).
      replace (n - (j + 1)) with (n - 1 - j) by lia. rewrite (top_bits_step xs n j) by lia. unfold mul_u64.
      replace (2 ^ j * (1 + 1)) with (2 ^ (j + 1)) by lia.
      assert (Hok : exists p, arith_u64 (2 ^ (j + 1)) = Ok p /\ (j + 1 < 64 -> p = 2 ^ (j + 1))).
      { destruct (Z.lt_ge_cases (j + 1) 64).
        - exists (2 ^ (j + 1)). split; [|done]. apply arith_u64_ok. split; [lia|].
          change 18446744073709551616 with (2 ^ 64). apply Z.pow_lt_mono_r; lia.
        - exists (as_u64 (2 ^ (j + 1))). split; [|lia]. unfold arith_u64. destruct Hover as [-> |]; [done|lia]. }
      destruct Hok as (p & -> & Hp). cbn [res_bind]. exists p. split; [|done]. do 3 f_equal; lia. }
  replace (skip + Z.of_nat (Z.to_nat (n - s))) with (skip + (n - s)) in H by lia. destruct H as (p & -> & Hp).
  exists p. replace (skip + (n - s) - skip) with (n - s) in * by lia. split; [|done]. do 3 f_equal. f_equal. lia.
Qed.

Lemma rotr_entry_mask : rotr_entry xl skip x y = Ok (rotated n xs s).
Proof.
  pose proof (WIDTH_pos xl) as [HW _]. unfold rotr_entry.
  replace (Z.to_nat n) with (Z.to_nat (n - s) + Z.to_nat s)%nat by lia. rewrite for_range_app.
  destruct rotr_ones as (p & -> & Hp). set (k0 := skip + Z.of_nat (Z.to_nat (n - s))).
  pose (P := fun k st => st = Ok (p, Z.shiftr xs s, 2 ^ (n - s) * (Z.shiftr (xs mod 2 ^ s) (s - (k - k0)) * 2 ^ (s - (k - k0))))).
  assert (H : P (k0 + Z.of_nat (Z.to_nat s)) (for_range (Z.to_nat s) k0 (Ok (p, Z.shiftr xs s, 0)) (fun k => rotr_step x y (W - 1 - k)))).
  { apply for_range_inv; unfold P.
    - rewrite Z.sub_diag, Z.sub_0_r, (shiftr_all (xs mod 2 ^ s)), Z.mul_0_l, Z.mul_0_r; [done|lia|apply Z.mod_pos_bound; lia].
    - intros k st Hk ->. assert (Hs0 : 0 < s) by lia. specialize (Hp ltac:(lia)). set (j := k - k0) in *.
      replace (k + 1 - k0) with (j + 1) by lia. unfold rotr_step. cbn [res_bind]. rewrite !shr_land_1 by lia.
      replace (W - 1 - k) with (s - 1 - j) by lia. rewrite mask_bit, low_bit by lia. replace (s <=? s - 1 - j) with false by lia.
      cbn [Z.b2z]. assert (Hb : 2 ^ (n - s) <= 2 ^ 63) by (apply Z.pow_le_mono_r; lia).
      unfold mul_u64. rewrite arith_u64_ok by (unfold is_u64; lia). cbn [res_bind]. do 2 f_equal; [f_equal; lia|].
      replace (s - (j + 1)) with (s - 1 - j) by lia. rewrite (top_bits_step (xs mod 2 ^ s) s j) by lia.
      rewrite (tb_mod xs s) by lia. replace (s - 1 - j <? s) with true by lia. cbn [andb].
      replace (s - j) with (Z.succ (s - 1 - j)) by lia. rewrite Hp, Z.pow_succ_r by lia. ring. }
  rewrite H. cbn [res_bind]. unfold rotated. replace (s - (k0 + Z.of_nat (Z.to_nat s) - k0)) with 0 by lia.
  by rewrite Z.shiftr_0_r, Z.pow_0_r, Z.mul_1_r.
Qed.

End RotateMask.

(** ** Further interleaved entries *)

Section Interleaved2.
Context `{B : Build} (xl : Xlen) (x y : Z) (Hx : in_word xl x) (Hy : in_word xl y).

Lemma andn_entry : materialize_entry xl Andn (interleave_bits x y) = Ok (by_width
  (fun x y => Z.land (as_u32 x) (as_u32 (Z.lnot (as_u32 y)))) (fun x y => Z.land x (as_u64 (Z.lnot (as_u64 y)))) xl x y).
Proof.
  cbn [materialize_entry]. unfold AndnTable_materialize_entry, by_width. rewrite (split_index xl) by done.
  destruct xl; [|by rewrite (as_u64_word Bit64 y)]. rewrite (as_u32_word x), (as_u32_word y) by done. f_equal. apply Z.bits_inj'. intros m Hm.
  rewrite !Z.land_spec, tb_u64, tb_u32. destruct (Z.lt_ge_cases m 32).
  - by replace (m <? 64) with true by lia; replace (m <? 32) with true by lia.
  - by rewrite (word_high x 32) by (exact Hx || lia).
Qed.

Lemma movsign_entry : materialize_entry xl Movsign (interleave_bits x y) = Ok (by_width
  (fun x _ => if negb (Z.land x (2 ^ 31) =? 0) then 0xFFFFFFFF else 0)
  (fun x _ => if negb (Z.land x (2 ^ 63) =? 0) then 0xFFFFFFFFFFFFFFFF else 0) xl x y).
Proof.
  cbn [materialize_entry]. unfold MovsignTable_materialize_entry, by_width.
  pose proof (in_word_u64 _ _ Hx). pose proof (in_word_u64 _ _ Hy).
  destruct xl; cbn [WIDTH]; rewrite !land_pow2_eqb, interleave_bit by (done || lia); done.
Qed.

Lemma valid_div0_output_entry : (xl = Bit64 -> x <> 0) ->
  materialize_entry xl ValidDiv0 (interleave_bits x y) = Ok (if x =? 0
     then bool_u64 (as_u64 y =? match xl with Bit32 => u32_MAX | Bit64 => u64_MAX end) else 1).
Proof.
  intros H0. cbn [materialize_entry]. unfold ValidDiv0Table_materialize_entry. rewrite (split_index xl) by done.
  rewrite (as_u64_word xl y) by done. destruct xl; [by destruct (x =? 0)|].
  destruct (Z.eqb_spec x 0); [by destruct H0|done].
Qed.

Lemma change_divisor_output_entry : ~ (xl = Bit64 /\ x = 2 ^ 63 /\ y = 2 ^ 64 - 1) ->
  materialize_entry xl TVirtualChangeDivisor (interleave_bits x y) = Ok (by_width
     (fun remainder divisor =>
        if (as_i32 remainder =? i32_MIN) && (as_i32 divisor =? -1) then 1 else as_u32 (as_i32 divisor))
     (fun remainder divisor =>
        if (as_i64 remainder =? i64_MIN) && (divisor =? -1) then 1 else as_u64 divisor) xl x y).
Proof.
  intros Hn. cbn [materialize_entry]. unfold VirtualChangeDivisorTable_materialize_entry, by_width.
  rewrite (split_index xl) by done. destruct xl; [done|]. cbv zeta.
  assert (H1 : (as_i64 x =? i64_MIN) && (as_i64 y =? -1) = false).
  { destruct (Z.eqb_spec (as_i64 x) i64_MIN) as [E1|]; [|done]. destruct (Z.eqb_spec (as_i64 y) (-1)) as [E2|]; [|done].
    exfalso. apply Hn. split; [done|]. unfold in_word in *. cbn [WIDTH] in *. unfold as_i64, i64_MIN in *. lia. }
  assert (H2 : (y =? -1) = false) by (unfold in_word in *; lia).
  rewrite H1, H2, andb_false_r, as_u64_i64. done.
Qed.

Lemma change_divisor_w_output_entry (a b : Z) : xl = Bit64 -> x = as_u32 a -> y = as_u64 (as_i32 b) ->
  materialize_entry xl TVirtualChangeDivisorW (interleave_bits x y)
  = Ok (if (as_i32 (as_u32 a) =? i32_MIN) && (as_i32 (as_i32 b) =? -1) then 1 else as_u64 (as_i32 (as_i32 b))).
Proof.
  intros Hxl Ex Ey. cbn [materialize_entry]. unfold VirtualChangeDivisorWTable_materialize_entry.
  rewrite (split_index xl) by done. rewrite Hxl, Ex, Ey. cbv zeta. rewrite !as_i32_u32, as_i32_u64.
  by rewrite (as_i32_small (as_i32 b)) by apply as_i32_range.
Qed.

Lemma xor_rot_entry rotation : xl = Bit64 ->
  materialize_entry xl (TVirtualXORROT rotation) (interleave_bits x y) = Ok (rotate_right_u64 (Z.lxor x (as_u64 y)) rotation).
Proof.
  intros ->. cbn [materialize_entry]. unfold VirtualXORROTTable_materialize_entry.
  by rewrite (split_index Bit64), (as_u64_word Bit64 y) by done.
Qed.

Lemma xor_rotw_entry rotation : xl = Bit64 -> materialize_entry xl (TVirtualXORROTW rotation) (interleave_bits x y)
  = Ok (rotate_right_u32 (Z.lxor (as_u32 x) (as_u32 y)) rotation).
Proof.
  intros ->. cbn [materialize_entry]. unfold VirtualXORROTWTable_materialize_entry. by rewrite (split_index Bit64) by done.
Qed.

(** [y] is the bitmask of a right shift by [s] on [n] bits. *)
Definition bitmask_of (n s : Z) : Prop := 0 <= s < n /\ y = 2 ^ n - 2 ^ s.

Lemma bitmask_mod n s : bitmask_of n s -> y mod 2 ^ n = 2 ^ n - 2 ^ s.
Proof.
  intros [Hs E]. rewrite E. apply Z.mod_small. assert (2 ^ s < 2 ^ n) by (apply Z.pow_lt_mono_r; lia). lia.
Qed.

Lemma rotr_output_entry :
  bitmask_of (WIDTH xl) (trailing_zeros (WIDTH xl) y) ->
  overflow_checks = false \/ xl = Bit32 \/ 0 < trailing_zeros (WIDTH xl) y ->
  materialize_entry xl VirtualROTR (interleave_bits x y) = Ok (by_width
    (fun x y => rotate_right_u32 (as_u32 x) (trailing_zeros 32 (as_u32 y)))
    (fun x y => rotate_right_u64 x (trailing_zeros 64 (as_u64 y))) xl x y).
Proof.
  intros Hm Ho. cbn [materialize_entry]. unfold VirtualRotrTable_materialize_entry. rewrite (split_index xl) by done.
  set (s := trailing_zeros (WIDTH xl) y) in *. destruct Hm as [Hs Ey] eqn:Em.
  rewrite (rotr_entry_mask xl x y 0 s); rewrite ?Z.sub_0_r; [| |done|by apply bitmask_mod|].
  2: lia. 2: { destruct Ho as [?|[->|?]]; [by left|right; left; done|by right; right]. }
  rewrite Z.mod_small by done. rewrite <- rotated_lor by done. unfold by_width. rewrite <- (Z.mod_small s (WIDTH xl)) by done.
  destruct xl; cbn [WIDTH] in *.
  - unfold rotate_right_u32. cbv zeta. rewrite !(as_u32_word x), (as_u32_word y) by done. done.
  - unfold rotate_right_u64. by rewrite (as_u64_word Bit64 y) by done.
Qed.

End Interleaved2.

Lemma rotrw_output_entry `{B : Build} xl x y : in_word xl x -> in_word xl y ->
  bitmask_of y (WIDTH xl / 2) (trailing_zeros (WIDTH xl) y) ->
  materialize_entry xl VirtualROTRW (interleave_bits x y) = Ok (by_width
    (fun x y => rotate_right_u16 (as_u16 x) (Z.min (trailing_zeros 32 (as_u32 y)) 16))
    (fun x y => rotate_right_u32 (as_u32 x) (Z.min (trailing_zeros 64 (as_u64 y)) 32)) xl x y).
Proof.
  intros Hx Hy Hm. cbn [materialize_entry]. unfold VirtualRotrWTable_materialize_entry. rewrite (split_index xl) by done.
  set (s := trailing_zeros (WIDTH xl) y) in *. pose proof (WIDTH_pos xl) as [HW HW2].
  assert (Hh : WIDTH xl - WIDTH xl / 2 = WIDTH xl / 2) by lia. destruct Hm as [Hs Ey] eqn:Em.
  rewrite (rotr_entry_mask xl x y (WIDTH xl / 2) s); rewrite ?Hh; [|lia|done|by apply bitmask_mod|right; left; lia].
  rewrite <- rotated_lor by (done || apply Z.mod_pos_bound; lia). rewrite <- (Z.mod_small s (WIDTH xl / 2)) by done.
  assert (Hmin : Z.min s (WIDTH xl / 2) = s) by lia.
  unfold by_width. destruct xl; cbn [WIDTH] in *; change (32 / 2) with 16 in *; change (64 / 2) with 32 in *.
  - unfold rotate_right_u16. cbv zeta. rewrite (as_u32_word y) by done. fold s. rewrite Hmin, (Z.mod_small s 16) by done.
    assert (E : as_u16 (as_u16 x) = x mod 2 ^ 16) by (unfold as_u16; change (2 ^ 16) with 65536; apply Zmod_mod).
    by rewrite E.
  - unfold rotate_right_u32. cbv zeta. rewrite (as_u64_word Bit64 y) by done. fold s. rewrite Hmin, (Z.mod_small s 32) by done.
    assert (E : as_u32 (as_u32 x) = x mod 2 ^ 32) by (unfold as_u32; change (2 ^ 32) with 4294967296; apply Zmod_mod).
    by rewrite E.
Qed.

(** ** Entries at a combined operand *)

Section Combined.
Context `{B : Build} (xl : Xlen) (index : Z) (Hi : 0 <= index < 2 ^ (2 * WIDTH xl)).

Lemma range_check_at v : v = index mod 2 ^ WIDTH xl -> materialize_entry xl RangeCheck index = Ok v.
Proof. intros ->. cbn [materialize_entry]. by rewrite range_check_entry. Qed.

Lemma upper_word_at v : v = Z.shiftr index (WIDTH xl) -> materialize_entry xl UpperWord index = Ok v.
Proof. intros ->. cbn [materialize_entry]. by rewrite upper_word_entry. Qed.

Lemma no_overflow_at v : v = bool_u64 (index <=? 2 ^ WIDTH xl - 1) -> materialize_entry xl MulUNoOverflow index = Ok v.
Proof.
  intros ->. cbn [materialize_entry]. unfold MulUNoOverflowTable_materialize_entry. do 2 f_equal.
  assert (0 < 2 ^ WIDTH xl) by (by destruct xl). rewrite Z.shiftr_div_pow2 by (by destruct xl).
  destruct (Z.leb_spec index (2 ^ WIDTH xl - 1)).
  - rewrite Z.div_small by lia. done.
  - apply Z.eqb_neq. pose proof (Z.div_str_pos index (2 ^ WIDTH xl) ltac:(lia)). lia.
Qed.

Lemma low_half : Z.land (as_u64 index) (2 ^ (WIDTH xl / 2) - 1) = as_u64 (index mod 2 ^ (WIDTH xl / 2)).
Proof.
  assert (Hh : 0 <= WIDTH xl / 2 <= 32) by (by destruct xl). rewrite Z.sub_1_r, <- Z.ones_equiv.
  apply Z.bits_inj'. intros m Hm. rewrite Z.land_spec, !tb_u64, tb_ones, tb_mod by lia.
  destruct (Z.ltb_spec m (WIDTH xl / 2)); rewrite ?andb_false_r, ?andb_false_l; [|done].
  replace (0 <=? m) with true by lia. by rewrite andb_true_r.
Qed.

Lemma sign_extend_at v :
  v = (let half_word_size := WIDTH xl / 2 in
       let lower_half := Z.land (as_u64 index) (2 ^ half_word_size - 1) in
       let sign_bit := Z.land (Z.shiftr lower_half (half_word_size - 1)) 1 in
       if sign_bit =? 1 then Z.lor lower_half (as_u64 (Z.shiftl (2 ^ half_word_size - 1) half_word_size))
       else lower_half) ->
  materialize_entry xl SignExtendHalfWord index = Ok v.
Proof. intros ->. cbv zeta. by rewrite low_half. Qed.

Lemma lower_half_at v : v = Z.land (as_u64 index) (2 ^ (WIDTH xl / 2) - 1) ->
  materialize_entry xl LowerHalfWord index = Ok v.
Proof. intros ->. by rewrite low_half. Qed.

Lemma bitmask_at v : v = as_u64 (Z.shiftl (2 ^ (WIDTH xl - index mod WIDTH xl) - 1) (index mod WIDTH xl)) ->
  materialize_entry xl ShiftRightBitmask index = Ok v.
Proof.
  intros ->. cbn [materialize_entry]. unfold ShiftRightBitmaskTable_materialize_entry. cbv zeta.
  pose proof (WIDTH_pos xl) as [HW _]. pose proof (Z.mod_pos_bound index (WIDTH xl) ltac:(lia)) as Hm.
  set (s := index mod WIDTH xl) in *. assert (2 ^ (WIDTH xl - s) <= 2 ^ 64) by (apply Z.pow_le_mono_r; lia).
  assert (0 < 2 ^ (WIDTH xl - s)) by lia. by rewrite (as_u64_small (2 ^ (WIDTH xl - s) - 1)) by (unfold is_u64; lia).
Qed.

End Combined.

(** ** Every instruction *)

(** The operands of a cycle fit their types: registers and addresses the word size,
    immediates the type of their format. *)
Record operands_fit (xl : Xlen) (cy : Cycle) : Prop := {
  fit_rs1 : in_word xl (rs1 cy);
  fit_rs2 : in_word xl (rs2 cy);
  fit_address : in_word xl (instruction_address cy);
  fit_advice : in_word xl (advice_value cy);
  fit_imm : match cycle_instruction cy with
            | InstrI _ _ | InstrJ _ _ | InstrU _ _ | InstrVI _ _ => is_u64 (imm cy)
            | InstrAlign _ _ => is_i64 (imm cy)
            | _ => True
            end
}.

Definition is_bit64 (xl : Xlen) : bool := match xl with Bit64 => true | Bit32 => false end.

(** [v] is the bitmask, on [n] bits, of the shift its trailing zeros encode. *)
Definition is_bitmask (xl : Xlen) (n v : Z) : bool :=
  (trailing_zeros (WIDTH xl) v <? n) && (v =? 2 ^ n - 2 ^ trailing_zeros (WIDTH xl) v).

(** The cycles whose query the table answers with the output: the rotations need a
    bitmask, the division checks exclude the operands at which output and table
    differ, and some instructions only exist for 64 bits. *)
Definition query_supported `{Build} (xl : Xlen) (cy : Cycle) : bool :=
  match cycle_instruction cy with
  | InstrR VirtualChangeDivisor _ => negb (is_bit64 xl && (rs1 cy =? 2 ^ 63) && (rs2 cy =? 2 ^ 64 - 1))
  | InstrR (VirtualChangeDivisorW
           | VirtualXORROT32 | VirtualXORROT24 | VirtualXORROT16 | VirtualXORROT63
           | VirtualXORROTW16 | VirtualXORROTW12 | VirtualXORROTW8 | VirtualXORROTW7) _ => is_bit64 xl
  | InstrB VirtualAssertValidDiv0 _ => negb (is_bit64 xl && (rs1 cy =? 0))
  | InstrVI VirtualROTRI _ =>
      is_bitmask xl (WIDTH xl) (imm cy)
      && negb (overflow_checks && is_bit64 xl && (trailing_zeros (WIDTH xl) (imm cy) =? 0))
  | InstrVI VirtualROTRIW _ => is_bitmask xl (WIDTH xl / 2) (imm cy)
  | _ => true
  end.

Lemma pos_ctz_nonneg p : 0 <= pos_ctz p.
Proof. induction p; cbn [pos_ctz]; lia. Qed.

Section Every.
Context `{B : Build} (xl : Xlen) (cy : Cycle) (Hfit : operands_fit xl cy).

Lemma rs1_rs2_at : rs1_rs2 xl cy = Ok (rs1 cy, rs2 cy).
Proof. destruct Hfit as [H1 H2 _ _ _]. unfold rs1_rs2. destruct xl; [by rewrite !as_u32_word|done]. Qed.

(** The immediate the inputs return. *)
Definition imm_word : Z := match xl with Bit32 => as_u32 (imm cy) | Bit64 => imm cy end.

Lemma rs1_imm_at : rs1_imm xl cy = Ok (rs1 cy, imm_word).
Proof. destruct Hfit as [H1 _ _ _ _]. unfold rs1_imm, imm_word. destruct xl; [by rewrite as_u32_word|done]. Qed.

Lemma pc_imm_at : pc_imm xl cy = Ok (instruction_address cy, imm_word).
Proof. destruct Hfit as [_ _ H1 _ _]. unfold pc_imm, imm_word. destruct xl; [by rewrite as_u32_word|done]. Qed.

Lemma imm_only_at : imm_only xl cy = Ok (0, imm_word).
Proof. unfold imm_only, imm_word. by destruct xl. Qed.

Lemma rs1_only_at : rs1_only xl cy = Ok (rs1 cy, 0).
Proof. destruct Hfit as [H1 _ _ _ _]. unfold rs1_only. destruct xl; [by rewrite as_u32_word|done]. Qed.

Lemma imm_word_fits : is_u64 (imm cy) -> in_word xl imm_word.
Proof. intros Hi. unfold imm_word, in_word. destruct xl; [apply as_u32_range|done]. Qed.

(** Sums and products of words as indices. *)
Lemma add_index x y : in_word xl x -> in_word xl y -> 0 <= x + y < 2 ^ (2 * WIDTH xl).
Proof. unfold in_word. destruct xl; cbn [WIDTH]; lia. Qed.

Lemma mul_index x y : in_word xl x -> in_word xl y -> 0 <= x * y < 2 ^ (2 * WIDTH xl).
Proof.
  unfold in_word. intros Hx Hy. replace (2 * WIDTH xl) with (WIDTH xl + WIDTH xl) by lia.
  rewrite Z.pow_add_r by (by destruct xl). nia.
Qed.

Lemma wrapping_add_word x y : in_word xl x -> in_word xl y -> wrapping_add_output xl x y = (x + y) mod 2 ^ WIDTH xl.
Proof.
  intros Hx Hy. unfold wrapping_add_output, by_width. destruct xl.
  - by rewrite (as_u32_word x), (as_u32_word y).
  - by rewrite (as_u64_word Bit64 y).
Qed.

Lemma signed_add_word x y : signed_add_output xl x y = (x + y) mod 2 ^ WIDTH xl.
Proof.
  unfold signed_add_output, by_width. destruct xl.
  - rewrite as_u32_i32. unfold as_u32. change (2 ^ WIDTH Bit32) with 4294967296. unfold as_i32. lia.
  - rewrite as_u64_i64. unfold as_u64. change (2 ^ WIDTH Bit64) with 18446744073709551616. unfold as_i64. lia.
Qed.

Lemma wrapping_mul_word x y : wrapping_mul_output xl x y = (x * y) mod 2 ^ WIDTH xl.
Proof.
  unfold wrapping_mul_output, by_width. destruct xl.
  - rewrite as_u32_i32. destruct (as_i32_decomp x) as [a ->], (as_i32_decomp y) as [b ->]. unfold as_u32.
    change (2 ^ WIDTH Bit32) with 4294967296. rewrite <- (Z_mod_plus_full (x * y) (a * y + b * x + a * b * 4294967296)). f_equal. ring.
  - rewrite as_u64_i64. destruct (as_i64_decomp x) as [a ->], (as_i64_decomp y) as [b ->]. unfold as_u64.
    change (2 ^ WIDTH Bit64) with 18446744073709551616.
    rewrite <- (Z_mod_plus_full (x * y) (a * y + b * x + a * b * 18446744073709551616)). f_equal. ring.
Qed.

Lemma add_operands_at inputs x y : inputs xl cy = Ok (x, y) -> in_word xl y -> add_operands inputs xl cy = Ok (0, x + y).
Proof. intros E Hy. unfold add_operands. rewrite E. cbn [res_bind fst snd]. by rewrite (as_u64_word xl y). Qed.

Lemma mul_operands_at inputs x y : inputs xl cy = Ok (x, y) -> in_word xl y -> mul_operands inputs xl cy = Ok (0, x * y).
Proof. intros E Hy. unfold mul_operands. rewrite E. cbn [res_bind fst snd]. by rewrite (as_u64_word xl y). Qed.

Lemma signed_add_operands_at inputs x y : inputs xl cy = Ok (x, y) -> in_word xl x -> in_word xl y ->
  signed_add_operands inputs xl cy = Ok (0, x + y).
Proof.
  intros E Hx Hy. unfold signed_add_operands. rewrite E. cbn [res_bind fst snd].
  pose proof (in_word_u64 _ _ Hx). pose proof (in_word_u64 _ _ Hy). unfold is_u64 in *.
  do 2 f_equal. apply Z.mod_small. lia.
Qed.

Lemma on_inputs_at inputs f x y : inputs xl cy = Ok (x, y) -> on_inputs inputs f xl cy = Ok (f xl x y).
Proof. intros E. unfold on_inputs. by rewrite E. Qed.

(** Additions, checked modulo the word size. *)
Lemma add_correct inputs flags x y : inputs xl cy = Ok (x, y) -> in_word xl x -> in_word xl y ->
  entry_correct xl (mkJolt (Some RangeCheck) flags (combined inputs (add_operands inputs) (on_inputs inputs wrapping_add_output))) cy.
Proof.
  intros E Hx Hy. pose proof (add_index x y Hx Hy).
  apply (combined_correct _ _ _ _ _ _ _ (x + y) (wrapping_add_output xl x y)); [by apply add_operands_at|by apply on_inputs_at|done|].
  apply range_check_at; [done|]. by apply wrapping_add_word.
Qed.

Lemma signed_add_correct inputs flags x y : inputs xl cy = Ok (x, y) -> in_word xl x -> in_word xl y ->
  entry_correct xl (mkJolt (Some RangeCheck) flags (combined inputs (signed_add_operands inputs) (on_inputs inputs signed_add_output))) cy.
Proof.
  intros E Hx Hy. pose proof (add_index x y Hx Hy).
  apply (combined_correct _ _ _ _ _ _ _ (x + y) (signed_add_output xl x y)); [by apply signed_add_operands_at|by apply on_inputs_at|done|].
  apply range_check_at; [done|]. apply signed_add_word.
Qed.

Lemma mul_correct inputs flags x y : inputs xl cy = Ok (x, y) -> in_word xl x -> in_word xl y ->
  entry_correct xl (mkJolt (Some RangeCheck) flags (combined inputs (mul_operands inputs) (on_inputs inputs wrapping_mul_output))) cy.
Proof.
  intros E Hx Hy. pose proof (mul_index x y Hx Hy).
  apply (combined_correct _ _ _ _ _ _ _ (x * y) (wrapping_mul_output xl x y)); [by apply mul_operands_at|by apply on_inputs_at|done|].
  apply range_check_at; [done|]. apply wrapping_mul_word.
Qed.

(** A table whose entry at the sum of the operands is computed from the index. *)
Lemma index_correct operands t f flags inputs index : operands xl cy = Ok (0, index) ->
  0 <= index < 2 ^ (2 * WIDTH xl) -> materialize_entry xl t index = Ok (f xl index) ->
  entry_correct xl (mkJolt (Some t) flags (combined inputs operands
    (fun xl cy => let? y := operand_index operands xl cy in Ok (f xl y)))) cy.
Proof.
  intros E Hi He. apply (combined_correct _ _ _ _ _ _ _ index (f xl index)); [done| |done|done].
  unfold operand_index. by rewrite E.
Qed.

(** *** Register operations *)

Lemma sub_correct : entry_correct xl SUB_jolt cy.
Proof.
  pose proof rs1_rs2_at as E. pose proof (fit_rs1 _ _ Hfit) as H1. pose proof (fit_rs2 _ _ Hfit) as H2.
  assert (Hi : 0 <= rs1 cy + (2 ^ WIDTH xl - rs2 cy) < 2 ^ (2 * WIDTH xl)) by (unfold in_word in *; destruct xl; cbn [WIDTH] in *; lia).
  eapply combined_correct; [|exact (on_inputs_at _ _ _ _ E)|exact Hi|].
  - unfold sub_operands. by rewrite E.
  - apply range_check_at; [done|]. replace (rs1 cy + (2 ^ WIDTH xl - rs2 cy)) with (rs1 cy - rs2 cy + 1 * 2 ^ WIDTH xl) by ring.
    rewrite Z_mod_plus_full.
    unfold by_width. destruct xl; [by rewrite (as_u32_word (rs1 cy)), (as_u32_word (rs2 cy))|by rewrite (as_u64_word Bit64 (rs2 cy))].
Qed.

Lemma mulhu_correct : entry_correct xl MULHU_jolt cy.
Proof.
  pose proof rs1_rs2_at as E. pose proof (fit_rs1 _ _ Hfit) as H1. pose proof (fit_rs2 _ _ Hfit) as H2.
  pose proof (mul_index _ _ H1 H2) as Hi.
  eapply combined_correct; [exact (mul_operands_at _ _ _ E H2)|exact (on_inputs_at _ _ _ _ E)|exact Hi|].
  apply upper_word_at; [done|]. unfold by_width. rewrite (as_u64_word xl (rs2 cy)) by done. destruct xl; cbn [WIDTH] in *.
  - by rewrite as_u64_small by (unfold is_u64; lia).
  - apply as_u64_small. pose proof (shiftr_word 128 (rs1 cy * rs2 cy) 64 ltac:(lia) Hi) as Hs. done.
Qed.

Lemma R_correct op i j : cycle_instruction cy = InstrR op i -> query_supported xl cy = true ->
  jolt_R feature_rv64 op = Some j -> entry_correct xl j cy.
Proof.
  intros Ei Hq Hj. pose proof rs1_rs2_at as E. pose proof (fit_rs1 _ _ Hfit) as H1. pose proof (fit_rs2 _ _ Hfit) as H2.
  unfold query_supported in Hq. rewrite Ei in Hq.
  destruct op; cbn [jolt_R] in Hj; try discriminate Hj.
  1: injection Hj as <-; exact (add_correct _ _ _ _ E H1 H2).
  1: injection Hj as <-; exact sub_correct.
  1: injection Hj as <-; exact (interleaved_correct _ _ _ _ _ _ _ _ E H1 H2 (and_entry _ _ _ H1 H2)).
  1: injection Hj as <-; exact (interleaved_correct _ _ _ _ _ _ _ _ E H1 H2 (andn_entry _ _ _ H1 H2)).
  1: injection Hj as <-; exact (interleaved_correct _ _ _ _ _ _ _ _ E H1 H2 (or_entry _ _ _ H1 H2)).
  1: injection Hj as <-; exact (interleaved_correct _ _ _ _ _ _ _ _ E H1 H2 (xor_entry _ _ _ H1 H2)).
  1: injection Hj as <-; exact (interleaved_correct _ _ _ _ _ _ _ _ E H1 H2 (signed_less_entry _ _ _ H1 H2)).
  1: injection Hj as <-; exact (interleaved_correct _ _ _ _ _ _ _ _ E H1 H2 (unsigned_less_entry _ _ _ H1 H2)).
  1: injection Hj as <-; exact (mul_correct _ _ _ _ E H1 H2).
  1: injection Hj as <-; exact mulhu_correct.
  all: try (destruct feature_rv64; [|discriminate Hj]); injection Hj as <-.
  1: { refine (interleaved_correct _ _ _ _ _ _ _ _ E H1 H2 (change_divisor_output_entry _ _ _ H1 H2 _)).
       intros (Hx & H3 & H4). rewrite Hx, H3, H4 in Hq. discriminate Hq. }
  all: assert (H64 : xl = Bit64) by (by destruct xl).
  all: assert (E64 : rs1_rs2_64 xl cy = Ok (rs1 cy, rs2 cy)) by (unfold rs1_rs2_64; by rewrite H64).
  2-5: exact (interleaved_correct _ _ _ _ _ _ _ _ E64 H1 H2 (xor_rot_entry _ _ _ H1 H2 _ H64)).
  2-5: exact (interleaved_correct _ _ _ _ _ _ _ _ E64 H1 H2 (xor_rotw_entry _ _ _ H1 H2 _ H64)).
  assert (Hw1 : in_word xl (as_u32 (rs1 cy))) by (rewrite H64; pose proof (as_u32_range (rs1 cy)); unfold in_word, is_u32 in *; cbn; lia).
  assert (Hw2 : in_word xl (as_u64 (as_i32 (rs2 cy)))) by (rewrite H64; apply as_u64_range).
  exact (interleaved_correct_u64 _ _ word_inputs _ _ _ _ _ eq_refl Hw1 Hw2
           (change_divisor_w_output_entry _ _ _ Hw1 Hw2 _ _ H64 eq_refl eq_refl)).
Qed.

(** *** Immediate operations *)

Lemma zero_word : in_word xl 0.
Proof. unfold in_word. by destruct xl. Qed.

Lemma word_index v : in_word xl v -> 0 <= v < 2 ^ (2 * WIDTH xl).
Proof. intros Hv. pose proof (add_index v 0 Hv zero_word). by rewrite Z.add_0_r in *. Qed.

(** A table read at [v + 0], with the output computed from the index. *)
Lemma single_correct inputs t f flags v : add_operands inputs xl cy = Ok (0, v) -> in_word xl v ->
  materialize_entry xl t v = Ok (f xl v) ->
  entry_correct xl (mkJolt (Some t) flags (combined inputs (add_operands inputs)
    (fun xl cy => let? y := operand_index (add_operands inputs) xl cy in Ok (f xl y)))) cy.
Proof. intros E Hv He. apply (index_correct _ _ _ _ _ v); [done|by apply word_index|done]. Qed.

Lemma rs1_operand inputs : inputs xl cy = Ok (rs1 cy, 0) -> add_operands inputs xl cy = Ok (0, rs1 cy).
Proof. intros E. rewrite (add_operands_at _ _ _ E zero_word). by rewrite Z.add_0_r. Qed.

Lemma move_correct : entry_correct xl VirtualMove_jolt cy.
Proof.
  pose proof (fit_rs1 _ _ Hfit) as H1. eapply combined_correct.
  - rewrite rs1_only_at. cbn [res_bind fst snd]. change (as_u128 0) with 0. by rewrite Z.add_0_r.
  - reflexivity.
  - by apply word_index.
  - apply range_check_at; [by apply word_index|]. rewrite Z.mod_small by done. destruct xl; [by rewrite as_u32_word|done].
Qed.

Lemma rev8w_correct : entry_correct xl VirtualRev8W_jolt cy.
Proof.
  pose proof (fit_rs1 _ _ Hfit) as H1. exists (rs1 cy), (rev8w (rs1 cy)).
  do 2 (split; [done|]). split; [by apply word_index|]. cbn [materialize_entry]. unfold VirtualRev8WTable_materialize_entry.
  by rewrite (as_u64_word xl).
Qed.

Lemma zero_extend_correct : entry_correct xl VirtualZeroExtendWord_jolt cy.
Proof.
  pose proof (fit_rs1 _ _ Hfit) as H1.
  assert (E : checked_add_operands rs1_input xl cy = Ok (0, rs1 cy)).
  { unfold checked_add_operands. cbn [rs1_input res_bind fst snd]. rewrite Z.add_0_r.
    unfold in_word in H1. by replace (0 <=? rs1 cy) with true by lia. }
  eapply combined_correct; [exact E| |by apply word_index|].
  - unfold operand_index. rewrite E. cbn [res_bind snd]. reflexivity.
  - apply lower_half_at; [by apply word_index|done].
Qed.

Lemma I_correct op i j : cycle_instruction cy = InstrI op i -> jolt_I feature_rv64 op = Some j -> entry_correct xl j cy.
Proof.
  intros Ei Hj. pose proof rs1_imm_at as E. pose proof (fit_rs1 _ _ Hfit) as H1.
  assert (H2 : in_word xl imm_word) by (apply imm_word_fits; pose proof (fit_imm _ _ Hfit) as Hi; by rewrite Ei in Hi).
  destruct op; cbn [jolt_I] in Hj; try discriminate Hj; try (destruct feature_rv64; [|discriminate Hj]); injection Hj as <-.
  - exact (add_correct _ _ _ _ E H1 H2).
  - exact (interleaved_correct _ _ _ _ _ _ _ _ E H1 H2 (and_entry _ _ _ H1 H2)).
  - exact (interleaved_correct _ _ _ _ _ _ _ _ E H1 H2 (or_entry _ _ _ H1 H2)).
  - exact (interleaved_correct _ _ _ _ _ _ _ _ E H1 H2 (xor_entry _ _ _ H1 H2)).
  - exact (interleaved_correct _ _ _ _ _ _ _ _ E H1 H2 (signed_less_entry _ _ _ H1 H2)).
  - exact (interleaved_correct _ _ _ _ _ _ _ _ E H1 H2 (unsigned_less_entry _ _ _ H1 H2)).
  - exact (signed_add_correct _ _ _ _ E H1 H2).
  - exact I.
  - exact I.
  - exact I.
  - exact (mul_correct _ _ _ _ E H1 H2).
  - exact move_correct.
  - exact (interleaved_correct _ _ _ _ _ _ _ _ E H1 H2 (movsign_entry _ _ _ H1 H2)).
  - exact (single_correct rs1_only Pow2 (fun xl y => 2 ^ (y mod WIDTH xl)) _ _ (rs1_operand _ rs1_only_at) H1 eq_refl).
  - exact (single_correct rs1_input Pow2W (fun _ y => 2 ^ (y mod 32)) _ _ (rs1_operand _ eq_refl) H1 eq_refl).
  - exact rev8w_correct.
  - refine (single_correct rs1_only ShiftRightBitmask (fun xl y => as_u64 (Z.shiftl (2 ^ (WIDTH xl - y mod WIDTH xl) - 1) (y mod WIDTH xl)))
             _ _ (rs1_operand _ rs1_only_at) H1 _). apply bitmask_at; [by apply word_index|done].
  - refine (single_correct rs1_input SignExtendHalfWord (fun xl y =>
       let half_word_size := WIDTH xl / 2 in
       let lower_half := Z.land (as_u64 y) (2 ^ half_word_size - 1) in
       let sign_bit := Z.land (Z.shiftr lower_half (half_word_size - 1)) 1 in
       if sign_bit =? 1 then Z.lor lower_half (as_u64 (Z.shiftl (2 ^ half_word_size - 1) half_word_size)) else lower_half)
      _ _ (rs1_operand _ eq_refl) H1 _). apply sign_extend_at; [by apply word_index|done].
  - exact zero_extend_correct.
Qed.

(** *** The other formats *)

Lemma no_overflow_correct : entry_correct xl VirtualAssertMulUNoOverflow_jolt cy.
Proof.
  pose proof rs1_rs2_at as E. pose proof (fit_rs1 _ _ Hfit) as H1. pose proof (fit_rs2 _ _ Hfit) as H2.
  pose proof (mul_index _ _ H1 H2) as Hi.
  eapply combined_correct; [exact (mul_operands_at _ _ _ E H2)|exact (on_inputs_at _ _ _ _ E)|exact Hi|].
  apply no_overflow_at; [done|]. unfold by_width. rewrite (as_u64_word xl (rs2 cy)) by done. by destruct xl.
Qed.

Lemma B_correct op i : cycle_instruction cy = InstrB op i -> query_supported xl cy = true -> entry_correct xl (jolt_B op) cy.
Proof.
  intros Ei Hq. pose proof rs1_rs2_at as E. pose proof (fit_rs1 _ _ Hfit) as H1. pose proof (fit_rs2 _ _ Hfit) as H2.
  unfold query_supported in Hq. rewrite Ei in Hq. destruct op; cbn [jolt_B].
  - exact (interleaved_correct _ _ _ _ _ _ _ _ E H1 H2 (equal_entry _ _ _ H1 H2)).
  - exact (interleaved_correct _ _ _ _ _ _ _ _ E H1 H2 (not_equal_entry _ _ _ H1 H2)).
  - exact (interleaved_correct _ _ _ _ _ _ _ _ E H1 H2 (signed_less_entry _ _ _ H1 H2)).
  - exact (interleaved_correct _ _ _ _ _ _ _ _ E H1 H2 (signed_ge_entry _ _ _ H1 H2)).
  - exact (interleaved_correct _ _ _ _ _ _ _ _ E H1 H2 (unsigned_less_entry _ _ _ H1 H2)).
  - exact (interleaved_correct _ _ _ _ _ _ _ _ E H1 H2 (unsigned_ge_entry _ _ _ H1 H2)).
  - exact (interleaved_correct _ _ _ _ _ _ _ _ E H1 H2 (equal_entry _ _ _ H1 H2)).
  - exact (interleaved_correct _ _ _ _ _ _ _ _ E H1 H2 (unsigned_le_entry _ _ _ H1 H2)).
  - exact no_overflow_correct.
  - refine (interleaved_correct _ _ _ _ _ _ _ _ E H1 H2 (valid_div0_output_entry _ _ _ H1 H2 _)).
    intros Hx H0. rewrite Hx, H0 in Hq. discriminate Hq.
  - exact (interleaved_correct _ _ _ _ _ _ _ _ E H1 H2 (valid_unsigned_remainder_entry _ _ _ H1 H2)).
Qed.

Lemma imm_operand inputs : inputs xl cy = Ok (0, imm_word) -> in_word xl imm_word ->
  add_operands inputs xl cy = Ok (0, imm_word).
Proof. intros E Hi. exact (add_operands_at _ _ _ E Hi). Qed.

Lemma J_correct op i j : cycle_instruction cy = InstrJ op i -> jolt_instruction feature_rv64 (InstrJ op i) = Some j ->
  entry_correct xl j cy.
Proof.
  intros Ei Hj. pose proof (fit_imm _ _ Hfit) as Hi. rewrite Ei in Hi. assert (H2 : in_word xl imm_word) by (by apply imm_word_fits).
  destruct op; cbn [jolt_instruction] in Hj; try (destruct feature_rv64; [|discriminate Hj]); injection Hj as <-.
  - exact (signed_add_correct _ _ _ _ pc_imm_at (fit_address _ _ Hfit) H2).
  - exact (single_correct imm_only Pow2 (fun xl y => 2 ^ (y mod WIDTH xl)) _ _ (imm_operand _ imm_only_at H2) H2 eq_refl).
  - refine (index_correct (add_operands imm_input) Pow2W (fun _ y => 2 ^ (y mod 32)) _ _ (imm cy) _ _ eq_refl).
    + unfold add_operands. cbn [imm_input res_bind fst snd]. by rewrite as_u64_small.
    + unfold is_u64 in Hi. destruct xl; cbn [WIDTH]; lia.
  - refine (single_correct imm_only ShiftRightBitmask (fun xl y => as_u64 (Z.shiftl (2 ^ (WIDTH xl - y mod WIDTH xl) - 1) (y mod WIDTH xl)))
             _ _ (imm_operand _ imm_only_at H2) H2 _). apply bitmask_at; [by apply word_index|done].
Qed.

Lemma U_correct op i j : cycle_instruction cy = InstrU op i -> jolt_instruction feature_rv64 (InstrU op i) = Some j ->
  entry_correct xl j cy.
Proof.
  intros Ei Hj. assert (H2 : in_word xl imm_word) by (apply imm_word_fits; pose proof (fit_imm _ _ Hfit) as Hi; by rewrite Ei in Hi).
  destruct op; cbn [jolt_instruction] in Hj; injection Hj as <-.
  - eapply combined_correct; [|reflexivity|exact (word_index _ H2)|].
    + unfold default_lookup_operands. rewrite imm_only_at. cbn [res_bind fst snd]. by rewrite (as_u64_word xl imm_word).
    + apply range_check_at; [by apply word_index|]. by rewrite Z.mod_small.
  - exact (signed_add_correct _ _ _ _ pc_imm_at (fit_address _ _ Hfit) H2).
Qed.

Lemma bitmask_word n v : is_bitmask xl n v = true -> 0 <= n <= WIDTH xl ->
  bitmask_of v n (trailing_zeros (WIDTH xl) v) /\ in_word xl v.
Proof.
  unfold is_bitmask. intros Hb Hn. apply andb_prop in Hb as [H1 H2]. set (s := trailing_zeros _ _) in *.
  assert (Hs : 0 <= s). { unfold s, trailing_zeros. destruct v; [lia|apply pos_ctz_nonneg..]. }
  assert (2 ^ s < 2 ^ n) by (apply Z.pow_lt_mono_r; lia). assert (2 ^ n <= 2 ^ WIDTH xl) by (apply Z.pow_le_mono_r; lia).
  unfold bitmask_of, in_word. lia.
Qed.

Lemma VI_correct op i j : cycle_instruction cy = InstrVI op i -> query_supported xl cy = true ->
  jolt_instruction feature_rv64 (InstrVI op i) = Some j -> entry_correct xl j cy.
Proof.
  intros Ei Hq Hj. pose proof (fit_rs1 _ _ Hfit) as H1. pose proof rs1_imm_at as E. pose proof (WIDTH_pos xl) as [HW _].
  assert (H2 : in_word xl imm_word) by (apply imm_word_fits; pose proof (fit_imm _ _ Hfit) as Hi; by rewrite Ei in Hi).
  unfold query_supported in Hq. rewrite Ei in Hq.
  destruct op; cbn [jolt_instruction] in Hj; try (destruct feature_rv64; [|discriminate Hj]); injection Hj as <-.
  - apply andb_prop in Hq as [Hb Ho]. apply bitmask_word in Hb as [Hb Hi]; [|lia].
    refine (interleaved_correct xl cy rs1_imm_full _ _ _ _ _ eq_refl H1 Hi (rotr_output_entry _ _ _ H1 Hi Hb _)).
    destruct Hb as [Hs _]. destruct overflow_checks; [right|by left]. destruct xl; [by left|right].
    cbn [is_bit64 andb] in Ho. lia.
  - apply bitmask_word in Hq as [Hb Hi]; [|lia].
    exact (interleaved_correct xl cy rs1_imm_full _ _ _ _ _ eq_refl H1 Hi (rotrw_output_entry _ _ _ H1 Hi Hb)).
  - refine (interleaved_correct _ _ _ _ _ _ _ _ E H1 H2 _). rewrite (as_u128_word xl imm_word) by done. by apply sra_output_entry.
  - exact (interleaved_correct _ _ _ _ _ _ _ _ E H1 H2 (srl_output_entry _ _ _ H1 H2)).
Qed.

Lemma VR_correct op i j : jolt_instruction feature_rv64 (InstrVR op i) = Some j -> entry_correct xl j cy.
Proof.
  intros Hj. pose proof rs1_rs2_at as E. pose proof (fit_rs1 _ _ Hfit) as H1. pose proof (fit_rs2 _ _ Hfit) as H2.
  destruct op; cbn [jolt_instruction] in Hj; injection Hj as <-.
  - refine (interleaved_correct _ _ _ _ _ _ _ _ E H1 H2 _). unfold sra_output. rewrite (as_u64_word xl (rs2 cy)) by done.
    by apply sra_output_entry.
  - exact (interleaved_correct _ _ _ _ _ _ _ _ E H1 H2 (srl_output_entry _ _ _ H1 H2)).
Qed.

Lemma Align_correct op i j : cycle_instruction cy = InstrAlign op i ->
  jolt_instruction feature_rv64 (InstrAlign op i) = Some j -> entry_correct xl j cy.
Proof.
  intros Ei Hj. pose proof (fit_imm _ _ Hfit) as Hi. rewrite Ei in Hi.
  set (index := as_u128 (rs1 cy + imm_word)).
  assert (E : signed_add_operands rs1_imm xl cy = Ok (0, index)) by (unfold signed_add_operands; by rewrite rs1_imm_at).
  assert (Hb : 0 <= index < 2 ^ (2 * WIDTH xl)).
  { unfold index, imm_word. pose proof (fit_rs1 _ _ Hfit) as H1. unfold in_word in H1. destruct xl; cbn [WIDTH] in *.
    - pose proof (as_u32_range (imm cy)) as Hr. unfold is_u32 in Hr. unfold as_u128. rewrite Z.mod_small; lia.
    - apply Z.mod_pos_bound. lia. }
  destruct op; cbn [jolt_instruction] in Hj; injection Hj as <-.
  - exact (index_correct _ HalfwordAlignment (fun _ y => bool_u64 (y mod 2 =? 0)) _ _ _ E Hb eq_refl).
  - exact (index_correct _ WordAlignment (fun _ y => bool_u64 (y mod 4 =? 0)) _ _ _ E Hb eq_refl).
Qed.

Lemma advice_correct : entry_correct xl VirtualAdvice_jolt cy.
Proof.
  pose proof (fit_advice _ _ Hfit) as H1. assert (E : advice_output xl cy = advice_value cy)
    by (unfold advice_output; destruct xl; [by apply as_u32_word|done]).
  eapply combined_correct; [reflexivity|reflexivity|rewrite E; by apply word_index|].
  rewrite E. apply range_check_at; [by apply word_index|]. by rewrite Z.mod_small.
Qed.

Lemma instruction_correct j : jolt_instruction feature_rv64 (cycle_instruction cy) = Some j ->
  query_supported xl cy = true -> entry_correct xl j cy.
Proof.
  intros Hj Hq. destruct (cycle_instruction cy) eqn:Ei; try discriminate Hj.
  - by apply (R_correct op i).
  - by apply (I_correct op i).
  - destruct op; try discriminate Hj. cbn in Hj. destruct feature_rv64; [|discriminate Hj]. by injection Hj as <-.
  - destruct op; try discriminate Hj; cbn in Hj; [destruct feature_rv64; [|discriminate Hj]|]; by injection Hj as <-.
  - cbn in Hj. injection Hj as <-. by apply (B_correct op i).
  - by apply (J_correct op i).
  - by apply (U_correct op i).
  - by apply (VI_correct op i).
  - by apply (VR_correct op i).
  - by apply (Align_correct op i).
  - injection Hj as <-. apply advice_correct.
Qed.

End Every.
