(* ===== verification/Lookups.v ===== *)
(** * Instruction lookups: properties

    The lookup output of a cycle against the entry of its table, for every
    instruction of the prover, and the two operands at which they differ. *)

From Stdlib Require Import ZArith Lia List Bool.
From stdpp Require Import base list.
From S2P Require Import Prelude Words Types Isa Trace LookupTables InstructionLookup InstructionEntries.
Import ListNotations.
Local Open Scope Z_scope.
Local Open Scope rust_scope.


Definition sample_B (op : OpB) (a b : Z) : Cycle :=
  mkCycle (InstrB op (mkInstr RAM_START_ADDRESS (mkFormatB 5 6 0) None false)) (mkRegisterState a b 0 0 0) RANoOp.
Definition sample_cycle_R (op : OpR) (a b : Z) : Cycle :=
  mkCycle (InstrR op (mkInstr RAM_START_ADDRESS (mkFormatR 7 5 6) None false)) (mkRegisterState a b 0 0 0) RANoOp.


