(* ===== verification/LinComb.v ===== *)
(** * Linear combinations

    [jolt-core/src/zkvm/r1cs/ops.rs]: the linear combinations over the witness
    columns of a cycle, with at most five terms and an optional constant, and the
    sums the [lc!] macro builds.  [Terms1] to [Terms5] are one constructor with the
    list of terms. *)

From Stdlib Require Import ZArith Lia List Bool.
From stdpp Require Import base list.
From S2P Require Import Prelude Words Field.
Import ListNotations.
Local Open Scope Z_scope.

Record Term := mkTerm { input_index : nat; coeff : Z }.

Inductive LC :=
| Zero
| Const (c : Z)
| Terms (ts : list Term)
| TermsConst (ts : list Term) (c : Z).

Definition single_term (index : nat) (coeff : Z) : LC := Terms [mkTerm index coeff].

(** [decompose] and [compose]; an LC holds at most five terms. *)
Definition decompose (lc : LC) : list Term * Z :=
  match lc with
  | Zero => ([], 0)
  | Const k => ([], k)
  | Terms ts => (ts, 0)
  | TermsConst ts k => (ts, k)
  end.

Definition compose (terms : list Term) (c : Z) : LC :=
  match length terms, c =? 0 with
  | 0%nat, true => Zero
  | 0%nat, false => Const c
  | (1 | 2 | 3 | 4 | 5)%nat, true => Terms terms
  | (1 | 2 | 3 | 4 | 5)%nat, false => TermsConst terms c
  | _, _ => Zero
  end.

Definition terms_of (lc : LC) : list Term := fst (decompose lc).
Definition const_term (lc : LC) : option Z :=
  match lc with Zero | Terms _ => None | Const c | TermsConst _ c => Some c end.

Definition mul_term (m : Z) (t : Term) : Term := mkTerm (input_index t) (coeff t * m).

Definition mul_by_const (lc : LC) (multiplier : Z) : LC :=
  match lc with
  | Zero => Zero
  | Const c => Const (c * multiplier)
  | Terms ts => Terms (map (mul_term multiplier) ts)
  | TermsConst ts c => TermsConst (map (mul_term multiplier) ts) (c * multiplier)
  end.

(** The inner loop of [checked_add]: the first term with the same input takes the
    sum of the coefficients; a zero sum is replaced by the last term. *)
Fixpoint merge_at (j : nat) (out : list Term) (term : Term) (len : nat) : option (list Term) :=
  match len with
  | O => None
  | S len' =>
      match out !! j with
      | None => None
      | Some t =>
          if Nat.eqb (input_index t) (input_index term) then
            let new_coeff := coeff t + coeff term in
            if new_coeff =? 0 then
              let last := pred (length out) in
              match out !! last with
              | Some l => Some (take last (<[j := l]> out))
              | None => None
              end
            else Some (<[j := mkTerm (input_index term) new_coeff]> out)
          else merge_at (S j) out term len'
      end
  end.

Definition add_term (out : list Term) (term : Term) : option (list Term) :=
  match merge_at 0 out term (length out) with
  | Some out' => Some out'
  | None => if (5 <=? length out)%nat then None else Some (out ++ [term])
  end.

Fixpoint add_terms (out rhs : list Term) : option (list Term) :=
  match rhs with
  | [] => Some out
  | t :: rhs' => match add_term out t with Some out' => add_terms out' rhs' | None => None end
  end.

Definition checked_add (a b : LC) : option LC :=
  let (out, out_const) := decompose a in
  let (rhs, rhs_const) := decompose b in
  match add_terms out rhs with
  | Some terms => Some (compose terms (out_const + rhs_const))
  | None => None
  end.

Definition checked_sub (a b : LC) : option LC := checked_add a (mul_by_const b (-1)).

Definition add_or_zero (a b : LC) : LC := match checked_add a b with Some lc => lc | None => Zero end.
Definition sub_or_zero (a b : LC) : LC := match checked_sub a b with Some lc => lc | None => Zero end.
Definition add_const_or_zero (a : LC) (k : Z) : LC := add_or_zero a (Const k).

(** ** Evaluation *)

Section Evaluation.
Context {F : Type} `{JF : JoltField F}.
Local Open Scope jolt_scope.

Add Ring F_ring_lc : F_ring.

(** [evaluate_row] and [evaluate_row_with]: [value] reads a column of the row. *)
Definition term_value (value : nat -> F) (t : Term) : F := of_Z (coeff t) * value (input_index t).

Definition terms_value (value : nat -> F) (ts : list Term) : F :=
  fold_left (fun result t => result + term_value value t) ts 0.

Definition evaluate_lc (value : nat -> F) (lc : LC) : F :=
  let result := terms_value value (terms_of lc) in
  match const_term lc with Some c => result + of_Z c | None => result end.

(** [dot_eq_ry]: the dot product with a vector, the constant at its own column. *)
Definition dot_eq_ry (eq_ry : nat -> F) (const_col : nat) (lc : LC) : F :=
  match terms_of lc, const_term lc with
  | [], None => 0
  | [], Some c => of_Z c * eq_ry const_col
  | t :: ts, None => fold_left (fun a t => a + term_value eq_ry t) ts (term_value eq_ry t)
  | t :: ts, Some c => fold_left (fun a t => a + term_value eq_ry t) ts (term_value eq_ry t) + of_Z c * eq_ry const_col
  end.

(** [accumulate_evaluations] adds the scaled combination to the columns [evals]. *)
Definition add_at (evals : nat -> F) (i : nat) (v : F) : nat -> F :=
  fun j => if Nat.eqb j i then evals j + v else evals j.
Definition accumulate_evaluations (evals : nat -> F) (wr_scale : F) (num_vars : nat) (lc : LC) : nat -> F :=
  let evals := fold_left (fun e t => add_at e (input_index t) (of_Z (coeff t) * wr_scale)) (terms_of lc) evals in
  match const_term lc with Some c => add_at evals num_vars (of_Z c * wr_scale) | None => evals end.

(** ** Lemmas *)

Fixpoint sum_terms (value : nat -> F) (ts : list Term) : F :=
  match ts with [] => 0 | t :: ts' => term_value value t + sum_terms value ts' end.

Lemma fold_sum value ts : forall a : F,
  fold_left (fun result t => result + term_value value t) ts a = a + sum_terms value ts.
Proof. induction ts as [|t ts IH]; intros a; cbn; [ring|]. rewrite IH. ring. Qed.

Lemma terms_value_sum value ts : terms_value value ts = sum_terms value ts.
Proof. unfold terms_value. rewrite fold_sum. ring. Qed.

Lemma sum_terms_app value ts us : sum_terms value (ts ++ us) = sum_terms value ts + sum_terms value us.
Proof. induction ts as [|t ts IH]; cbn; [ring|]. rewrite IH. ring. Qed.

Lemma evaluate_lc_decompose value lc :
  evaluate_lc value lc = sum_terms value (fst (decompose lc)) + of_Z (snd (decompose lc)).
Proof.
  unfold evaluate_lc, terms_of, const_term. destruct lc; cbn [decompose fst snd]; rewrite terms_value_sum, ?of_Z_0; ring.
Qed.

Lemma evaluate_compose value ts c : (length ts <= 5)%nat -> evaluate_lc value (compose ts c) = sum_terms value ts + of_Z c.
Proof.
  intros Hl. rewrite evaluate_lc_decompose. unfold compose.
  destruct (Z.eqb_spec c 0) as [->|Hc].
  - do 6 (destruct ts as [|? ts]; [cbn; rewrite ?of_Z_0; ring|]). cbn in Hl. lia.
  - do 6 (destruct ts as [|? ts]; [cbn; ring|]). cbn in Hl. lia.
Qed.

Lemma sum_terms_mul value m ts : sum_terms value (map (mul_term m) ts) = of_Z m * sum_terms value ts.
Proof.
  induction ts as [|t ts IH]; cbn [map sum_terms]; [ring|]. rewrite IH. unfold term_value, mul_term. cbn.
  rewrite of_Z_mul. ring.
Qed.

Lemma evaluate_mul value lc m : evaluate_lc value (mul_by_const lc m) = of_Z m * evaluate_lc value lc.
Proof.
  rewrite !evaluate_lc_decompose. destruct lc; cbn [mul_by_const decompose fst snd];
    rewrite ?sum_terms_mul, ?of_Z_mul, ?of_Z_0; cbn [sum_terms]; ring.
Qed.

Lemma sum_terms_insert value ts j t t' : ts !! j = Some t ->
  sum_terms value (<[j := t']> ts) = sum_terms value ts - term_value value t + term_value value t'.
Proof.
  revert j. induction ts as [|u ts IH]; intros [|j] Hj; try done.
  - cbn in Hj. injection Hj as ->. cbn. ring.
  - cbn in Hj. change (<[S j:=t']> (u :: ts)) with (u :: <[j:=t']> ts). cbn [sum_terms]. rewrite (IH j Hj). ring.
Qed.

Lemma sum_terms_last value ts l : ts !! pred (length ts) = Some l ->
  sum_terms value ts = sum_terms value (take (pred (length ts)) ts) + term_value value l.
Proof.
  intros Hl. assert (E : take (S (pred (length ts))) ts = ts) by (destruct ts; [done|]; apply take_ge; cbn; lia).
  rewrite <- E at 1. rewrite (take_S_r _ _ _ Hl), sum_terms_app. cbn. ring.
Qed.

(** The term at [j] leaves the combination. *)
Lemma swap_remove_sum value ts j t l : ts !! j = Some t -> ts !! pred (length ts) = Some l ->
  sum_terms value (take (pred (length ts)) (<[j := l]> ts)) = sum_terms value ts - term_value value t.
Proof.
  intros Hj Hl. pose proof (sum_terms_insert value ts j t l Hj) as E.
  assert (Hl' : <[j := l]> ts !! pred (length (<[j := l]> ts)) = Some l).
  { rewrite length_insert. destruct (decide (j = pred (length ts))) as [->|Hne].
    - apply list_lookup_insert_eq. apply lookup_lt_Some in Hj. lia.
    - by rewrite list_lookup_insert_ne. }
  apply (sum_terms_last value) in Hl'. rewrite length_insert in Hl'. rewrite Hl' in E.
  assert (X : forall a b c d : F, a + b = c - d + b -> a = c - d).
  { intros a b c d Heq. assert (Y : a = a + b - b) by ring. rewrite Y, Heq. ring. }
  by apply X in E.
Qed.

Lemma merge_at_sum value term len : forall j out out', merge_at j out term len = Some out' ->
  sum_terms value out' = sum_terms value out + term_value value term /\ (length out' <= length out)%nat.
Proof.
  induction len as [|len IH]; intros j out out' Hm; cbn in Hm; [done|].
  destruct (out !! j) as [t|] eqn:Hj; [|done]. destruct (Nat.eqb_spec (input_index t) (input_index term)) as [Hi|]; [|by apply IH in Hm].
  destruct (Z.eqb_spec (coeff t + coeff term) 0) as [Hz|].
  - destruct (out !! pred (length out)) as [l|] eqn:Hl; [|done]. injection Hm as <-. split.
    + rewrite (swap_remove_sum value out j t l) by done. unfold term_value. rewrite Hi.
      replace (coeff term) with (- coeff t)%Z by lia. rewrite of_Z_opp. ring.
    + rewrite length_take, length_insert. lia.
  - injection Hm as <-. split; [|by rewrite length_insert]. rewrite (sum_terms_insert value out j t) by done.
    unfold term_value. cbn. rewrite Hi, of_Z_add. ring.
Qed.

Lemma add_terms_sum value rhs : forall out out', (length out <= 5)%nat -> add_terms out rhs = Some out' ->
  sum_terms value out' = sum_terms value out + sum_terms value rhs /\ (length out' <= 5)%nat.
Proof.
  induction rhs as [|t rhs IH]; intros out out' Hl Ha; cbn in Ha.
  - injection Ha as <-. cbn. split; [ring|done].
  - destruct (add_term out t) as [o|] eqn:Ho; [|done]. unfold add_term in Ho.
    assert (Hs : sum_terms value o = sum_terms value out + term_value value t /\ (length o <= 5)%nat).
    { destruct (merge_at 0 out t (length out)) as [o'|] eqn:Hm.
      - injection Ho as <-. apply (merge_at_sum value) in Hm as [-> Hm]. split; [done|lia].
      - destruct (Nat.leb_spec 5 (length out)); [done|]. injection Ho as <-. rewrite sum_terms_app, length_app. cbn. split; [ring|lia]. }
    destruct Hs as [Hs Hlo]. apply IH in Ha as [-> Hla]; [|done]. split; [|done]. rewrite Hs. cbn. ring.
Qed.

(** At most five terms. *)
Definition lc_fits (lc : LC) : Prop := (length (terms_of lc) <= 5)%nat.

Lemma evaluate_add value a b c : lc_fits a -> checked_add a b = Some c ->
  evaluate_lc value c = evaluate_lc value a + evaluate_lc value b.
Proof.
  unfold lc_fits, checked_add, terms_of. intros Hf. rewrite !(evaluate_lc_decompose value a), !(evaluate_lc_decompose value b).
  destruct (decompose a) as [ta ca], (decompose b) as [tb cb]. cbn [fst snd] in *.
  destruct (add_terms ta tb) as [ts|] eqn:Ht; [|done]. intros [= <-].
  apply (add_terms_sum value) in Ht as [Hs Hl]; [|done]. rewrite evaluate_compose by done. rewrite Hs, of_Z_add. ring.
Qed.

Lemma evaluate_sub value a b c : lc_fits a -> checked_sub a b = Some c ->
  evaluate_lc value c = evaluate_lc value a - evaluate_lc value b.
Proof.
  intros Hf Hs. unfold checked_sub in Hs. rewrite (evaluate_add value _ _ _ Hf Hs), evaluate_mul.
  change (-1)%Z with (- (1))%Z. rewrite of_Z_opp, of_Z_1. ring.
Qed.

(** The two other evaluations are [evaluate_lc]. *)
Lemma dot_eq_ry_evaluate eq_ry const_col lc :
  dot_eq_ry eq_ry const_col lc = sum_terms eq_ry (fst (decompose lc)) + of_Z (snd (decompose lc)) * eq_ry const_col.
Proof.
  unfold dot_eq_ry, terms_of. destruct lc as [|c|ts|ts c]; cbn [decompose fst snd const_term]; rewrite ?of_Z_0; cbn [sum_terms].
  1, 2: ring.
  all: destruct ts; [cbn; ring|]. all: rewrite fold_sum; cbn; ring.
Qed.

(** The indicator of a column. *)
Definition column (j : nat) : nat -> F := fun i => if Nat.eqb j i then 1 else 0.

Lemma fold_add_at (w : F) ts j : forall e : nat -> F,
  fold_left (fun e t => add_at e (input_index t) (of_Z (coeff t) * w)) ts e j = e j + w * sum_terms (column j) ts.
Proof.
  induction ts as [|t ts IH]; intros e; cbn [fold_left sum_terms]; [ring|]. rewrite IH.
  unfold add_at, term_value, column. destruct (Nat.eqb j (input_index t)); ring.
Qed.

Lemma add_at_column (e : nat -> F) n v j : add_at e n v j = e j + v * column j n.
Proof. unfold add_at, column. destruct (Nat.eqb j n); ring. Qed.

Lemma accumulate_column evals w num_vars lc j :
  accumulate_evaluations evals w num_vars lc j = evals j + w * dot_eq_ry (column j) num_vars lc.
Proof.
  rewrite dot_eq_ry_evaluate. unfold accumulate_evaluations, terms_of.
  destruct lc as [|c|ts|ts c]; cbn [decompose fst snd const_term]; rewrite ?add_at_column, ?fold_add_at, ?of_Z_0; cbn [sum_terms]; ring.
Qed.

End Evaluation.
