(* ===== verification/R1cs.v ===== *)
(** * The uniform constraint system

    [jolt-core/src/zkvm/r1cs/inputs.rs] and [constraints.rs]: the witness columns
    of a cycle, the 26 constraints [Az * Bz = Cz] every cycle satisfies, and the
    integer evaluators of [Az] and [Bz] the prover uses instead of the field.

    The signed-magnitude integers [S64], [S128], [S160] belong to the arithmetic
    library; they are parameters, with the values their documentation gives. *)

From Stdlib Require Import ZArith Lia List Bool.
From stdpp Require Import base list.
From S2P Require Import Prelude Words Types Isa Trace Field LinComb InstructionLookup.
Import ListNotations.
Local Open Scope Z_scope.
Local Open Scope rust_scope.

(** ** Signed-magnitude integers *)

Class SignedInts := {
  S64 : Type;
  S128 : Type;
  S160 : Type;
  S64_from_u64 : Z -> S64;
  S64_from_u64_with_sign : Z -> bool -> S64;
  S64_to_i128 : S64 -> Z;
  S64_is_positive : S64 -> bool;
  S64_magnitude : S64 -> Z;
  S128_from_i128 : Z -> S128;
  (** [mul_trunc::<2, 2>] *)
  S64_mul_trunc : S64 -> S128 -> S128;
  S160_from_diff_u64 : Z -> Z -> S160;
  (** [S160::from] of [u64], [u128] and [i128] *)
  S160_from : Z -> S160;
  S160_from_S64 : S64 -> S160;
  S160_from_S128 : S128 -> S160;
  S160_sub : S160 -> S160 -> S160;
  S160_neg : S160 -> S160;
  (** the integers they stand for *)
  S128_val : S128 -> Z;
  S160_val : S160 -> Z;
  S64_sign_magnitude s : S64_to_i128 s = (if S64_is_positive s then S64_magnitude s else - S64_magnitude s);
  S64_magnitude_u64 s : is_u64 (S64_magnitude s);
  S64_from_u64_val m : is_u64 m -> S64_to_i128 (S64_from_u64 m) = m;
  S64_from_val m b : is_u64 m -> S64_to_i128 (S64_from_u64_with_sign m b) = if b then m else - m;
  S128_from_val z : - 2 ^ 127 <= z < 2 ^ 127 -> S128_val (S128_from_i128 z) = z;
  S64_mul_val a b : Z.abs (S64_to_i128 a * S128_val b) < 2 ^ 128 -> S128_val (S64_mul_trunc a b) = S64_to_i128 a * S128_val b;
  S160_diff_val a b : is_u64 a -> is_u64 b -> S160_val (S160_from_diff_u64 a b) = a - b;
  S160_from_Z_val z : Z.abs z < 2 ^ 128 -> S160_val (S160_from z) = z;
  S160_from_S64_val s : S160_val (S160_from_S64 s) = S64_to_i128 s;
  S160_from_S128_val s : S160_val (S160_from_S128 s) = S128_val s;
  S128_bound s : Z.abs (S128_val s) < 2 ^ 128;
  S160_sub_val a b : Z.abs (S160_val a - S160_val b) < 2 ^ 160 -> S160_val (S160_sub a b) = S160_val a - S160_val b;
  S160_neg_val a : S160_val (S160_neg a) = - S160_val a
}.

(** [usize] columns of [JoltR1CSInputs]. *)
Inductive JoltR1CSInputs :=
| InPC | InUnexpandedPC | InRd | InImm | InRamAddress | InRs1Value | InRs2Value | InRdWriteValue
| InRamReadValue | InRamWriteValue | InLeftInstructionInput | InRightInstructionInput
| InLeftLookupOperand | InRightLookupOperand | InProduct | InWriteLookupOutputToRD | InWritePCtoRD
| InShouldBranch | InNextUnexpandedPC | InNextPC | InLookupOutput | InNextIsNoop | InShouldJump
| OpFlags (f : CircuitFlags).

Definition ALL_R1CS_INPUTS : list JoltR1CSInputs :=
  [InLeftInstructionInput; InRightInstructionInput; InProduct; InWriteLookupOutputToRD; InWritePCtoRD;
   InShouldBranch; InPC; InUnexpandedPC; InRd; InImm; InRamAddress; InRs1Value; InRs2Value; InRdWriteValue;
   InRamReadValue; InRamWriteValue; InLeftLookupOperand; InRightLookupOperand; InNextUnexpandedPC; InNextPC;
   InLookupOutput; InNextIsNoop; InShouldJump;
   OpFlags LeftOperandIsRs1Value; OpFlags RightOperandIsRs2Value; OpFlags LeftOperandIsPC;
   OpFlags RightOperandIsImm; OpFlags AddOperands; OpFlags SubtractOperands; OpFlags MultiplyOperands;
   OpFlags Load; OpFlags Store; OpFlags Jump; OpFlags Branch; OpFlags WriteLookupOutputToRD;
   OpFlags InlineSequenceInstruction; OpFlags Assert; OpFlags DoNotUpdateUnexpandedPC; OpFlags Advice;
   OpFlags IsNoop; OpFlags IsCompressed].

Definition to_index (i : JoltR1CSInputs) : nat :=
  match i with
  | InLeftInstructionInput => 0 | InRightInstructionInput => 1 | InProduct => 2 | InWriteLookupOutputToRD => 3
  | InWritePCtoRD => 4 | InShouldBranch => 5 | InPC => 6 | InUnexpandedPC => 7 | InRd => 8 | InImm => 9
  | InRamAddress => 10 | InRs1Value => 11 | InRs2Value => 12 | InRdWriteValue => 13 | InRamReadValue => 14
  | InRamWriteValue => 15 | InLeftLookupOperand => 16 | InRightLookupOperand => 17 | InNextUnexpandedPC => 18
  | InNextPC => 19 | InLookupOutput => 20 | InNextIsNoop => 21 | InShouldJump => 22
  | OpFlags LeftOperandIsRs1Value => 23 | OpFlags RightOperandIsRs2Value => 24 | OpFlags LeftOperandIsPC => 25
  | OpFlags RightOperandIsImm => 26 | OpFlags AddOperands => 27 | OpFlags SubtractOperands => 28
  | OpFlags MultiplyOperands => 29 | OpFlags Load => 30 | OpFlags Store => 31 | OpFlags Jump => 32
  | OpFlags Branch => 33 | OpFlags WriteLookupOutputToRD => 34 | OpFlags InlineSequenceInstruction => 35
  | OpFlags Assert => 36 | OpFlags DoNotUpdateUnexpandedPC => 37 | OpFlags Advice => 38 | OpFlags IsNoop => 39
  | OpFlags IsCompressed => 40
  end%nat.

(** [ALL_R1CS_INPUTS[index]] *)
Definition from_index (index : nat) : option JoltR1CSInputs := ALL_R1CS_INPUTS !! index.

(** ** Rows *)

Record R1CSCycleInputs `{SignedInts} := mkRow {
  left_input : Z;
  right_input : S64;
  product : S128;
  left_lookup : Z;
  right_lookup : Z;
  lookup_output : Z;
  rd_addr : Z;
  rs1_read_value : Z;
  rs2_read_value : Z;
  rd_write_value : Z;
  ram_addr : Z;
  ram_read_value : Z;
  ram_write_value : Z;
  row_pc : Z;
  next_pc : Z;
  unexpanded_pc : Z;
  next_unexpanded_pc : Z;
  row_imm : S64;
  flags : Flags;
  next_is_noop : bool;
  should_jump : bool;
  should_branch : Z;
  write_lookup_output_to_rd_addr : Z;
  write_pc_to_rd_addr : Z
}.

Section Rows.
Context `{SI : SignedInts} {F : Type} `{JF : JoltField F}.

(** [R1CSCycleInputs::to_field] *)
Definition to_field (row : R1CSCycleInputs) (i : JoltR1CSInputs) : F :=
  match i with
  | InLeftInstructionInput => of_Z (left_input row)
  | InRightInstructionInput => of_Z (S64_to_i128 (right_input row))
  | InProduct => (of_Z (S64_to_i128 (right_input row)) * of_Z (left_input row))%J
  | InWriteLookupOutputToRD => of_Z (write_lookup_output_to_rd_addr row)
  | InWritePCtoRD => of_Z (write_pc_to_rd_addr row)
  | InShouldBranch => of_Z (should_branch row)
  | InPC => of_Z (row_pc row)
  | InUnexpandedPC => of_Z (unexpanded_pc row)
  | InRd => of_Z (rd_addr row)
  | InImm => of_Z (S64_to_i128 (row_imm row))
  | InRamAddress => of_Z (ram_addr row)
  | InRs1Value => of_Z (rs1_read_value row)
  | InRs2Value => of_Z (rs2_read_value row)
  | InRdWriteValue => of_Z (rd_write_value row)
  | InRamReadValue => of_Z (ram_read_value row)
  | InRamWriteValue => of_Z (ram_write_value row)
  | InLeftLookupOperand => of_Z (left_lookup row)
  | InRightLookupOperand => of_Z (right_lookup row)
  | InNextUnexpandedPC => of_Z (next_unexpanded_pc row)
  | InNextPC => of_Z (next_pc row)
  | InLookupOutput => of_Z (lookup_output row)
  | InNextIsNoop => of_Z (Z.b2z (next_is_noop row))
  | InShouldJump => of_Z (Z.b2z (should_jump row))
  | OpFlags f => of_Z (Z.b2z (flags row f))
  end.

(** [inputs.to_field(JoltR1CSInputs::from_index(i))]; every index of an LC is in range. *)
Definition row_value (row : R1CSCycleInputs) (i : nat) : F :=
  match from_index i with Some inp => to_field row inp | None => fzero end.

Definition evaluate_row_with (row : R1CSCycleInputs) (lc : LC) : F := evaluate_lc (row_value row) lc.

End Rows.

(** ** Constraints *)

Record Constraint := mkConstraint { con_a : LC; con_b : LC; con_c : LC }.

Definition or_zero (lc : option LC) : LC := match lc with Some l => l | None => Zero end.

Definition constraint_eq_conditional_lc (condition left right : LC) : Constraint :=
  mkConstraint condition (or_zero (checked_sub left right)) Zero.
Definition constraint_prod_lc (left right result : LC) : Constraint := mkConstraint left right result.
Definition constraint_if_else_lc (condition true_val false_val result : LC) : Constraint :=
  mkConstraint condition (or_zero (checked_sub true_val false_val)) (or_zero (checked_sub result false_val)).

Inductive ConstraintName :=
| LeftInputEqRs1 | LeftInputEqPC | LeftInputZeroOtherwise | RightInputEqRs2 | RightInputEqImm
| RightInputZeroOtherwise | RamAddrEqRs1PlusImmIfLoadStore | RamReadEqRamWriteIfLoad | RamReadEqRdWriteIfLoad
| Rs2EqRamWriteIfStore | LeftLookupZeroUnlessAddSubMul | RightLookupAdd | RightLookupSub
| RightLookupEqProductIfMul | RightLookupEqRightInputOtherwise | AssertLookupOne | WriteLookupOutputToRDDef
| RdWriteEqLookupIfWriteLookupToRd | WritePCtoRDDef | RdWriteEqPCPlusConstIfWritePCtoRD | ShouldJumpDef
| NextUnexpPCEqLookupIfShouldJump | ShouldBranchDef | NextUnexpPCEqPCPlusImmIfShouldBranch
| NextUnexpPCUpdateOtherwise | NextPCEqPCPlusOneIfInline.

(** The [lc!] macro: an input, a constant, and sums of them. *)
Definition inp (i : JoltR1CSInputs) : LC := single_term (to_index i) 1.
Definition flag (f : CircuitFlags) : LC := inp (OpFlags f).
Definition inp_coeff (k : Z) (i : JoltR1CSInputs) : LC := single_term (to_index i) k.

Declare Scope lc_scope.
Delimit Scope lc_scope with lc.
Infix "+" := add_or_zero : lc_scope.
Infix "-" := sub_or_zero : lc_scope.

(** The rows of [UNIFORM_R1CS]. *)
Definition uniform_constraint `{Build} (n : ConstraintName) : Constraint :=
  (match n with
  | LeftInputEqRs1 =>
      constraint_eq_conditional_lc (flag LeftOperandIsRs1Value) (inp InLeftInstructionInput) (inp InRs1Value)
  | LeftInputEqPC =>
      constraint_eq_conditional_lc (flag LeftOperandIsPC) (inp InLeftInstructionInput) (inp InUnexpandedPC)
  | LeftInputZeroOtherwise =>
      constraint_eq_conditional_lc (Const 1 - flag LeftOperandIsRs1Value - flag LeftOperandIsPC)
        (inp InLeftInstructionInput) (Const 0)
  | RightInputEqRs2 =>
      constraint_eq_conditional_lc (flag RightOperandIsRs2Value) (inp InRightInstructionInput) (inp InRs2Value)
  | RightInputEqImm =>
      constraint_eq_conditional_lc (flag RightOperandIsImm) (inp InRightInstructionInput) (inp InImm)
  | RightInputZeroOtherwise =>
      constraint_eq_conditional_lc (Const 1 - flag RightOperandIsRs2Value - flag RightOperandIsImm)
        (inp InRightInstructionInput) (Const 0)
  | RamAddrEqRs1PlusImmIfLoadStore =>
      constraint_if_else_lc (flag Load + flag Store) (inp InRs1Value + inp InImm) (Const 0) (inp InRamAddress)
  | RamReadEqRamWriteIfLoad =>
      constraint_eq_conditional_lc (flag Load) (inp InRamReadValue) (inp InRamWriteValue)
  | RamReadEqRdWriteIfLoad =>
      constraint_eq_conditional_lc (flag Load) (inp InRamReadValue) (inp InRdWriteValue)
  | Rs2EqRamWriteIfStore =>
      constraint_eq_conditional_lc (flag Store) (inp InRs2Value) (inp InRamWriteValue)
  | LeftLookupZeroUnlessAddSubMul =>
      constraint_if_else_lc (flag AddOperands + flag SubtractOperands + flag MultiplyOperands) (Const 0)
        (inp InLeftInstructionInput) (inp InLeftLookupOperand)
  | RightLookupAdd =>
      constraint_eq_conditional_lc (flag AddOperands) (inp InRightLookupOperand)
        (inp InLeftInstructionInput + inp InRightInstructionInput)
  | RightLookupSub =>
      constraint_eq_conditional_lc (flag SubtractOperands) (inp InRightLookupOperand)
        (add_const_or_zero (inp InLeftInstructionInput - inp InRightInstructionInput) (2 ^ XLEN))
  | RightLookupEqProductIfMul =>
      constraint_eq_conditional_lc (flag MultiplyOperands) (inp InRightLookupOperand) (inp InProduct)
  | RightLookupEqRightInputOtherwise =>
      constraint_eq_conditional_lc
        (Const 1 - flag AddOperands - flag SubtractOperands - flag MultiplyOperands - flag Advice)
        (inp InRightLookupOperand) (inp InRightInstructionInput)
  | AssertLookupOne => constraint_eq_conditional_lc (flag Assert) (inp InLookupOutput) (Const 1)
  | WriteLookupOutputToRDDef =>
      constraint_prod_lc (inp InRd) (flag WriteLookupOutputToRD) (inp InWriteLookupOutputToRD)
  | RdWriteEqLookupIfWriteLookupToRd =>
      constraint_eq_conditional_lc (inp InWriteLookupOutputToRD) (inp InRdWriteValue) (inp InLookupOutput)
  | WritePCtoRDDef => constraint_prod_lc (inp InRd) (flag Jump) (inp InWritePCtoRD)
  | RdWriteEqPCPlusConstIfWritePCtoRD =>
      constraint_eq_conditional_lc (inp InWritePCtoRD) (inp InRdWriteValue)
        (add_const_or_zero (inp InUnexpandedPC) 4 - inp_coeff 2 (OpFlags IsCompressed))
  | ShouldJumpDef =>
      constraint_prod_lc (flag Jump) (Const 1 - inp InNextIsNoop) (inp InShouldJump)
  | NextUnexpPCEqLookupIfShouldJump =>
      constraint_eq_conditional_lc (inp InShouldJump) (inp InNextUnexpandedPC) (inp InLookupOutput)
  | ShouldBranchDef => constraint_prod_lc (flag Branch) (inp InLookupOutput) (inp InShouldBranch)
  | NextUnexpPCEqPCPlusImmIfShouldBranch =>
      constraint_eq_conditional_lc (inp InShouldBranch) (inp InNextUnexpandedPC) (inp InUnexpandedPC + inp InImm)
  | NextUnexpPCUpdateOtherwise =>
      constraint_eq_conditional_lc (Const 1 - inp InShouldBranch - flag Jump) (inp InNextUnexpandedPC)
        (add_const_or_zero (inp InUnexpandedPC) 4 - inp_coeff 4 (OpFlags DoNotUpdateUnexpandedPC)
         - inp_coeff 2 (OpFlags IsCompressed))
  | NextPCEqPCPlusOneIfInline =>
      constraint_eq_conditional_lc (flag InlineSequenceInstruction) (inp InNextPC) (add_const_or_zero (inp InPC) 1)
  end)%lc.

Definition ALL_CONSTRAINTS : list ConstraintName :=
  [LeftInputEqRs1; LeftInputEqPC; LeftInputZeroOtherwise; RightInputEqRs2; RightInputEqImm;
   RightInputZeroOtherwise; RamAddrEqRs1PlusImmIfLoadStore; RamReadEqRamWriteIfLoad; RamReadEqRdWriteIfLoad;
   Rs2EqRamWriteIfStore; LeftLookupZeroUnlessAddSubMul; RightLookupAdd; RightLookupSub;
   RightLookupEqProductIfMul; RightLookupEqRightInputOtherwise; AssertLookupOne; WriteLookupOutputToRDDef;
   RdWriteEqLookupIfWriteLookupToRd; WritePCtoRDDef; RdWriteEqPCPlusConstIfWritePCtoRD; ShouldJumpDef;
   NextUnexpPCEqLookupIfShouldJump; ShouldBranchDef; NextUnexpPCEqPCPlusImmIfShouldBranch;
   NextUnexpPCUpdateOtherwise; NextPCEqPCPlusOneIfInline].

Definition UNIFORM_R1CS `{Build} : list (ConstraintName * Constraint) :=
  map (fun n => (n, uniform_constraint n)) ALL_CONSTRAINTS.

(** ** Integer evaluators *)

Section Evaluators.
Context `{B : Build} `{SI : SignedInts}.

Definition eval_az_by_name (n : ConstraintName) (row : R1CSCycleInputs) : Z :=
  let f x := Z.b2z (flags row x) in
  match n with
  | LeftInputEqRs1 => f LeftOperandIsRs1Value
  | LeftInputEqPC => f LeftOperandIsPC
  | LeftInputZeroOtherwise => Z.b2z (negb (flags row LeftOperandIsRs1Value || flags row LeftOperandIsPC))
  | RightInputEqRs2 => f RightOperandIsRs2Value
  | RightInputEqImm => f RightOperandIsImm
  | RightInputZeroOtherwise => Z.b2z (negb (flags row RightOperandIsRs2Value || flags row RightOperandIsImm))
  | RamAddrEqRs1PlusImmIfLoadStore => Z.b2z (flags row Load || flags row Store)
  | RamReadEqRamWriteIfLoad => f Load
  | RamReadEqRdWriteIfLoad => f Load
  | Rs2EqRamWriteIfStore => f Store
  | LeftLookupZeroUnlessAddSubMul =>
      Z.b2z (flags row AddOperands || flags row SubtractOperands || flags row MultiplyOperands)
  | RightLookupAdd => f AddOperands
  | RightLookupSub => f SubtractOperands
  | RightLookupEqProductIfMul => f MultiplyOperands
  | RightLookupEqRightInputOtherwise =>
      Z.b2z (negb (flags row AddOperands || flags row SubtractOperands || flags row MultiplyOperands || flags row Advice))
  | AssertLookupOne => f Assert
  | WriteLookupOutputToRDDef => rd_addr row
  | RdWriteEqLookupIfWriteLookupToRd => write_lookup_output_to_rd_addr row
  | WritePCtoRDDef => rd_addr row
  | RdWriteEqPCPlusConstIfWritePCtoRD => write_pc_to_rd_addr row
  | ShouldJumpDef => f Jump
  | NextUnexpPCEqLookupIfShouldJump => Z.b2z (should_jump row)
  | ShouldBranchDef => f Branch
  | NextUnexpPCEqPCPlusImmIfShouldBranch => should_branch row
  | NextUnexpPCUpdateOtherwise =>
      let not_jump := if flags row Jump then 0 else 1 in not_jump - should_branch row
  | NextPCEqPCPlusOneIfInline => f InlineSequenceInstruction
  end.

(** [S160::one()] and [S160::zero()] are [S160_from] of 1 and 0. *)
Definition S160_bit (b : bool) : S160 := S160_from (Z.b2z b).

Definition eval_bz_by_name (n : ConstraintName) (row : R1CSCycleInputs) : S160 :=
  match n with
  | LeftInputEqRs1 => S160_from_diff_u64 (left_input row) (rs1_read_value row)
  | LeftInputEqPC => S160_from_diff_u64 (left_input row) (unexpanded_pc row)
  | LeftInputZeroOtherwise => S160_from_diff_u64 (left_input row) 0
  | RightInputEqRs2 => S160_sub (S160_from_S64 (right_input row)) (S160_from (rs2_read_value row))
  | RightInputEqImm => S160_sub (S160_from_S64 (right_input row)) (S160_from_S64 (row_imm row))
  | RightInputZeroOtherwise => S160_from_S64 (right_input row)
  | RamAddrEqRs1PlusImmIfLoadStore =>
      if S64_is_positive (row_imm row) then S160_from (rs1_read_value row + S64_magnitude (row_imm row))
      else S160_from (rs1_read_value row - S64_magnitude (row_imm row))
  | RamReadEqRamWriteIfLoad => S160_from_diff_u64 (ram_read_value row) (ram_write_value row)
  | RamReadEqRdWriteIfLoad => S160_from_diff_u64 (ram_read_value row) (rd_write_value row)
  | Rs2EqRamWriteIfStore => S160_from_diff_u64 (rs2_read_value row) (ram_write_value row)
  | LeftLookupZeroUnlessAddSubMul => S160_neg (S160_from (left_input row))
  | RightLookupAdd =>
      let expected_i128 := left_input row + S64_to_i128 (right_input row) in
      S160_sub (S160_from (right_lookup row)) (S160_from expected_i128)
  | RightLookupSub =>
      let expected_i128 := left_input row - S64_to_i128 (right_input row) + 2 ^ XLEN in
      S160_sub (S160_from (right_lookup row)) (S160_from expected_i128)
  | RightLookupEqProductIfMul => S160_sub (S160_from (right_lookup row)) (S160_from_S128 (product row))
  | RightLookupEqRightInputOtherwise => S160_sub (S160_from (right_lookup row)) (S160_from_S64 (right_input row))
  | AssertLookupOne => S160_from (lookup_output row - 1)
  | WriteLookupOutputToRDDef => S160_bit (flags row WriteLookupOutputToRD)
  | RdWriteEqLookupIfWriteLookupToRd => S160_from_diff_u64 (rd_write_value row) (lookup_output row)
  | WritePCtoRDDef => S160_bit (flags row Jump)
  | RdWriteEqPCPlusConstIfWritePCtoRD =>
      let const_term := 4 - (if flags row IsCompressed then 2 else 0) in
      S160_from (rd_write_value row - (unexpanded_pc row + const_term))
  | ShouldJumpDef => S160_bit (negb (next_is_noop row))
  | NextUnexpPCEqLookupIfShouldJump => S160_from_diff_u64 (next_unexpanded_pc row) (lookup_output row)
  | ShouldBranchDef => S160_from (lookup_output row)
  | NextUnexpPCEqPCPlusImmIfShouldBranch =>
      S160_from (next_unexpanded_pc row - (unexpanded_pc row + S64_to_i128 (row_imm row)))
  | NextUnexpPCUpdateOtherwise =>
      let const_term := 4 - (if flags row DoNotUpdateUnexpandedPC then 4 else 0) - (if flags row IsCompressed then 2 else 0) in
      let target := unexpanded_pc row + const_term in
      S160_from (next_unexpanded_pc row - target)
  | NextPCEqPCPlusOneIfInline => S160_from (next_pc row - (row_pc row + 1))
  end.

(** [eval_az_bz_batch_from_row] *)
Definition eval_az_bz_batch_from_row (constraints : list (ConstraintName * Constraint)) (row : R1CSCycleInputs) :
    list (Z * S160) :=
  map (fun c => (eval_az_by_name (fst c) row, eval_bz_by_name (fst c) row)) constraints.

End Evaluators.

(** ** Evaluators and constraints agree *)

(** Witness values have the widths of the struct. *)
Record row_typed `{SignedInts} (row : R1CSCycleInputs) : Prop := {
  ty_left_input : is_u64 (left_input row);
  ty_right_lookup : 0 <= right_lookup row < 2 ^ 128;
  ty_lookup_output : is_u64 (lookup_output row);
  ty_rs1 : is_u64 (rs1_read_value row);
  ty_rs2 : is_u64 (rs2_read_value row);
  ty_rd : is_u64 (rd_write_value row);
  ty_ram_read : is_u64 (ram_read_value row);
  ty_ram_write : is_u64 (ram_write_value row);
  ty_pc : is_u64 (row_pc row);
  ty_next_pc : is_u64 (next_pc row);
  ty_unexpanded : is_u64 (unexpanded_pc row);
  ty_next_unexpanded : is_u64 (next_unexpanded_pc row);
  ty_product : S128_val (product row) = left_input row * S64_to_i128 (right_input row)
}.

(** At most one flag of a group is set; what the evaluators rely on. *)
Definition exclusive (a b : bool) : Prop := a && b = false.

Record flags_exclusive (f : Flags) : Prop := {
  ex_left : exclusive (f LeftOperandIsRs1Value) (f LeftOperandIsPC);
  ex_right : exclusive (f RightOperandIsRs2Value) (f RightOperandIsImm);
  ex_load_store : exclusive (f Load) (f Store);
  ex_add_sub : exclusive (f AddOperands) (f SubtractOperands);
  ex_add_mul : exclusive (f AddOperands) (f MultiplyOperands);
  ex_add_advice : exclusive (f AddOperands) (f Advice);
  ex_sub_mul : exclusive (f SubtractOperands) (f MultiplyOperands);
  ex_sub_advice : exclusive (f SubtractOperands) (f Advice);
  ex_mul_advice : exclusive (f MultiplyOperands) (f Advice)
}.

(** Normalize a closed LC and evaluate it on the row as an integer. *)
Ltac lc_norm :=
  match goal with |- context [ evaluate_row_with _ ?lc ] => let l := eval vm_compute in lc in change lc with l end;
  unfold evaluate_row_with, evaluate_lc, terms_value;
  cbn [terms_of decompose fst const_term fold_left]; unfold term_value; cbn [coeff input_index];
  unfold row_value; cbn [from_index ALL_R1CS_INPUTS lookup list_lookup to_field];
  rewrite <- ?of_Z_0, <- ?of_Z_mul, <- ?of_Z_add; f_equal.

Section Agreement.
Context `{B : Build} `{SI : SignedInts} {F : Type} `{JF : JoltField F} (row : R1CSCycleInputs).

Lemma az_agrees n : flags_exclusive (flags row) ->
  evaluate_row_with (F := F) row (con_a (uniform_constraint n)) = of_Z (eval_az_by_name n row).
Proof.
  intros [e1 e2 e3 e4 e5 e6 e7 e8 e9]. unfold exclusive in *.
  destruct n; lc_norm; cbn [eval_az_by_name]; cbv zeta;
    repeat match goal with |- context [ flags row ?f ] => destruct (flags row f) end; cbn [Z.b2z negb orb andb] in *; lia || discriminate.
Qed.

Lemma S64_bound s : Z.abs (S64_to_i128 s) < 2 ^ 64.
Proof.
  rewrite S64_sign_magnitude. pose proof (S64_magnitude_u64 s) as H. unfold is_u64 in H. destruct (S64_is_positive s); lia.
Qed.

Lemma S160_bit_val b : S160_val (S160_bit b) = Z.b2z b.
Proof. unfold S160_bit. rewrite S160_from_Z_val; [done|]. destruct b; cbn; lia. Qed.

(** The value of an [S160] expression whose operands are in range. *)
Ltac s160_leaf :=
  rewrite ?S160_bit_val; cbn [Z.b2z]; rewrite ?S160_neg_val, ?S160_from_S64_val, ?S160_from_S128_val, ?S160_diff_val by done;
  rewrite ?S160_from_Z_val by (unfold is_u64 in *; lia).
Ltac s160_value :=
  match goal with
  | |- context [ S160_sub _ _ ] => rewrite S160_sub_val; s160_leaf; unfold is_u64 in *; lia
  | _ => s160_leaf; unfold is_u64 in *; lia
  end.

Lemma bz_agrees n : row_typed row ->
  evaluate_row_with (F := F) row (con_b (uniform_constraint n)) = of_Z (S160_val (eval_bz_by_name n row)).
Proof.
  intros []. pose proof (S64_bound (right_input row)). pose proof (S64_bound (row_imm row)).
  pose proof (S64_sign_magnitude (row_imm row)). pose proof (S64_magnitude_u64 (row_imm row)).
  assert (is_u64 0) by (unfold is_u64; lia). pose proof (S128_bound (product row)).
  destruct B as [rv oc dbg]. destruct rv; destruct n; lc_norm; cbn [eval_bz_by_name]; cbv zeta.
  all: try (replace (2 ^ XLEN) with (2 ^ 64) by reflexivity); try (replace (2 ^ XLEN) with (2 ^ 32) by reflexivity).
  all: repeat match goal with
         | |- context [ flags row ?f ] => destruct (flags row f)
         | |- context [ next_is_noop row ] => destruct (next_is_noop row)
         | |- context [ S64_is_positive ?s ] => destruct (S64_is_positive s)
         end; cbn [Z.b2z negb]; s160_value.
Qed.

End Agreement.
