(* ===== verification/R1csMeaning.v ===== *)
(** * What the constraint system says

    [row_holds] states the 26 constraints of [zkvm/r1cs/constraints.rs] as a reader of the
    machine would: which operand goes where, what is written back, which
    instruction comes next.  Over a field of large characteristic a typed row
    satisfies the constraints exactly when it holds. *)

From Stdlib Require Import ZArith Lia List Bool ZmodBase Zmod.
From stdpp Require Import base list.
From S2P Require Import Prelude Words Types Isa Trace Field LinComb InstructionLookup R1cs.
Import ListNotations.
Local Open Scope Z_scope.
Local Open Scope rust_scope.

(** [Az * Bz = Cz] on a row. *)
Definition satisfied `{Build} `{SignedInts} {F : Type} `{JoltField F} (row : R1CSCycleInputs) (n : ConstraintName) : Prop :=
  let con := uniform_constraint n in
  fmul (evaluate_row_with (F := F) row (con_a con)) (evaluate_row_with row (con_b con)) = evaluate_row_with row (con_c con).

(** ** The meaning of a row *)

Section Meaning.
Context `{B : Build} `{SI : SignedInts}.

Record row_holds (row : R1CSCycleInputs) : Prop := {
  (** operands of the instruction *)
  rh_left : left_input row =
    (if flags row LeftOperandIsRs1Value then rs1_read_value row
     else if flags row LeftOperandIsPC then unexpanded_pc row else 0);
  rh_right : S64_to_i128 (right_input row) =
    (if flags row RightOperandIsRs2Value then rs2_read_value row
     else if flags row RightOperandIsImm then S64_to_i128 (row_imm row) else 0);
  (** memory *)
  rh_ram : ram_addr row =
    (if flags row Load || flags row Store then rs1_read_value row + S64_to_i128 (row_imm row) else 0);
  rh_load : flags row Load = true -> ram_read_value row = ram_write_value row /\ ram_read_value row = rd_write_value row;
  rh_store : flags row Store = true -> rs2_read_value row = ram_write_value row;
  (** operands of the lookup *)
  rh_left_lookup : left_lookup row =
    (if flags row AddOperands || flags row SubtractOperands || flags row MultiplyOperands then 0 else left_input row);
  rh_right_lookup :
    let r := S64_to_i128 (right_input row) in
    right_lookup row =
    (if flags row AddOperands then left_input row + r
     else if flags row SubtractOperands then left_input row - r + 2 ^ XLEN
     else if flags row MultiplyOperands then left_input row * r
     else if flags row Advice then right_lookup row else r);
  rh_assert : flags row Assert = true -> lookup_output row = 1;
  (** write back *)
  rh_write_lookup : write_lookup_output_to_rd_addr row = (if flags row WriteLookupOutputToRD then rd_addr row else 0);
  rh_rd : write_lookup_output_to_rd_addr row <> 0 -> rd_write_value row = lookup_output row;
  rh_write_pc : write_pc_to_rd_addr row = (if flags row Jump then rd_addr row else 0);
  rh_link : write_pc_to_rd_addr row <> 0 -> rd_write_value row = unexpanded_pc row + 4 - 2 * Z.b2z (flags row IsCompressed);
  (** the next instruction *)
  rh_should_jump : should_jump row = flags row Jump && negb (next_is_noop row);
  rh_jump : should_jump row = true -> next_unexpanded_pc row = lookup_output row;
  rh_should_branch : should_branch row = (if flags row Branch then lookup_output row else 0);
  rh_branch : should_branch row <> 0 -> next_unexpanded_pc row = unexpanded_pc row + S64_to_i128 (row_imm row);
  rh_next : 1 - should_branch row - Z.b2z (flags row Jump) <> 0 ->
    next_unexpanded_pc row = unexpanded_pc row + 4 - 4 * Z.b2z (flags row DoNotUpdateUnexpandedPC)
                             - 2 * Z.b2z (flags row IsCompressed);
  rh_inline : flags row InlineSequenceInstruction = true -> next_pc row = row_pc row + 1
}.

(** The widths of the remaining columns. *)
Record row_bounded (row : R1CSCycleInputs) : Prop := {
  bd_typed : row_typed row;
  bd_left_lookup : is_u64 (left_lookup row);
  bd_rd_addr : is_u8 (rd_addr row);
  bd_ram_addr : is_u64 (ram_addr row);
  bd_should_branch : is_u64 (should_branch row);
  bd_write_lookup : is_u8 (write_lookup_output_to_rd_addr row);
  bd_write_pc : is_u8 (write_pc_to_rd_addr row)
}.

End Meaning.

(** ** Constraints over the integers *)

Ltac open_constraint :=
  unfold satisfied, evaluate_row_with, evaluate_lc, terms_value;
  lazymatch goal with |- context [ @uniform_constraint ?b0 ?n ] =>
    let a := eval vm_compute in (con_a (@uniform_constraint b0 n)) in
    let b := eval vm_compute in (con_b (@uniform_constraint b0 n)) in
    let c := eval vm_compute in (con_c (@uniform_constraint b0 n)) in
    change (con_a (@uniform_constraint b0 n)) with a; change (con_b (@uniform_constraint b0 n)) with b;
    change (con_c (@uniform_constraint b0 n)) with c end;
  cbn [terms_of decompose fst const_term fold_left fadd fmul fzero of_Z Z_field]; unfold term_value;
  cbn [coeff input_index fadd fmul fzero of_Z Z_field]; unfold row_value;
  cbn [from_index ALL_R1CS_INPUTS lookup list_lookup to_field fadd fmul fzero of_Z Z_field].

Lemma mul_zero_or a b : a * b = 0 <-> (a <> 0 -> b = 0).
Proof. rewrite Z.mul_eq_0. destruct (Z.eq_dec a 0); lia. Qed.

(** Case analysis on the flags that occur. *)
Ltac case_flags :=
  unfold exclusive in *;
  repeat match goal with
  | |- context [ flags ?row ?f ] => destruct (flags row f)
  | |- context [ next_is_noop ?row ] => destruct (next_is_noop row)
  | |- context [ should_jump ?row ] => destruct (should_jump row)
  | H : context [ flags ?row ?f ] |- _ => destruct (flags row f)
  | H : context [ next_is_noop ?row ] |- _ => destruct (next_is_noop row)
  | H : context [ should_jump ?row ] |- _ => destruct (should_jump row)
  end; cbn [Z.b2z negb andb orb] in *; try discriminate; try (intuition lia); try nia.

Section Integers.
Context `{B : Build} `{SI : SignedInts} (row : R1CSCycleInputs).

Lemma holds_satisfied_Z n : flags_exclusive (flags row) -> row_holds row -> satisfied (F := Z) row n.
Proof.
  intros [el er els eas eam eaa esm esa ema] []. destruct n; lazymatch goal with |- satisfied _ RightLookupSub => idtac | _ => open_constraint end.
  - clear - rh_left0. case_flags.
  - clear - rh_left0 el. case_flags.
  - clear - rh_left0 el. case_flags.
  - clear - rh_right0. case_flags.
  - clear - rh_right0 er. case_flags.
  - clear - rh_right0 er. case_flags.
  - clear - rh_ram0 els. case_flags.
  - clear - rh_load0. case_flags.
  - clear - rh_load0. case_flags.
  - clear - rh_store0. case_flags.
  - clear - rh_left_lookup0 eas eam esm. case_flags.
  - clear - rh_right_lookup0. case_flags.
  - clear - rh_right_lookup0 eas. destruct B as [rv oc dbg]. destruct rv; cbv [XLEN feature_rv64] in *; open_constraint; case_flags.
  - clear - rh_right_lookup0 eam esm. case_flags.
  - clear - rh_right_lookup0 eas eam eaa esm esa ema. case_flags.
  - clear - rh_assert0. case_flags.
  - clear - rh_write_lookup0. case_flags.
  - clear - rh_rd0. rewrite mul_zero_or. lia.
  - clear - rh_write_pc0. case_flags.
  - clear - rh_link0. rewrite mul_zero_or. lia.
  - clear - rh_should_jump0. case_flags.
  - clear - rh_jump0. case_flags.
  - clear - rh_should_branch0. case_flags.
  - clear - rh_branch0. rewrite mul_zero_or. lia.
  - clear - rh_next0. rewrite mul_zero_or. lia.
  - clear - rh_inline0. case_flags.
Qed.

(** Use the constraints [n], [m], [k] on the integers. *)
Ltac constraint_on H n := let Hn := fresh "C" in pose proof (H n) as Hn; revert Hn; open_constraint; intros Hn.

Lemma satisfied_holds_Z : flags_exclusive (flags row) -> (forall n, satisfied (F := Z) row n) -> row_holds row.
Proof.
  intros [el er els eas eam eaa esm esa ema] H. constructor; cbv zeta.
  - constraint_on H LeftInputEqRs1. constraint_on H LeftInputEqPC. constraint_on H LeftInputZeroOtherwise.
    clear - C C0 C1 el. case_flags.
  - constraint_on H RightInputEqRs2. constraint_on H RightInputEqImm. constraint_on H RightInputZeroOtherwise.
    clear - C C0 C1 er. case_flags.
  - constraint_on H RamAddrEqRs1PlusImmIfLoadStore. clear - C els. case_flags.
  - constraint_on H RamReadEqRamWriteIfLoad. constraint_on H RamReadEqRdWriteIfLoad. clear - C C0. case_flags.
  - constraint_on H Rs2EqRamWriteIfStore. clear - C. case_flags.
  - constraint_on H LeftLookupZeroUnlessAddSubMul. clear - C eas eam esm. case_flags.
  - pose proof (H RightLookupSub) as Hsub. constraint_on H RightLookupAdd. constraint_on H RightLookupEqProductIfMul.
    constraint_on H RightLookupEqRightInputOtherwise. clear - Hsub C C0 C1 eas eam eaa esm esa ema. revert Hsub.
    destruct B as [rv oc dbg]. destruct rv; cbv [XLEN feature_rv64] in *; open_constraint; intros Hsub; case_flags.
  - constraint_on H AssertLookupOne. clear - C. case_flags.
  - constraint_on H WriteLookupOutputToRDDef. clear - C. case_flags.
  - constraint_on H RdWriteEqLookupIfWriteLookupToRd. rewrite mul_zero_or in C. clear - C. lia.
  - constraint_on H WritePCtoRDDef. clear - C. case_flags.
  - constraint_on H RdWriteEqPCPlusConstIfWritePCtoRD. rewrite mul_zero_or in C. clear - C. lia.
  - constraint_on H ShouldJumpDef. clear - C. case_flags.
  - constraint_on H NextUnexpPCEqLookupIfShouldJump. clear - C. case_flags.
  - constraint_on H ShouldBranchDef. clear - C. case_flags.
  - constraint_on H NextUnexpPCEqPCPlusImmIfShouldBranch. rewrite mul_zero_or in C. clear - C. lia.
  - constraint_on H NextUnexpPCUpdateOtherwise. rewrite mul_zero_or in C. clear - C. lia.
  - constraint_on H NextPCEqPCPlusOneIfInline. clear - C. case_flags.
Qed.

End Integers.

(** ** From the field to the integers *)

(** Small integers are told apart in the field. *)
Class LargeField (F : Type) `{JoltField F} := large z : Z.abs z < 2 ^ 250 -> of_Z z = fzero -> z = 0.

Section Transfer.
Context `{B : Build} `{SI : SignedInts} {F : Type} `{JF : JoltField F} (row : R1CSCycleInputs).

Add Ring F_ring_meaning : F_ring.

Lemma to_field_Z i : to_field (F := F) row i = of_Z (to_field (F := Z) row i).
Proof. destruct i; try reflexivity. cbn [to_field]. cbn [fmul Z_field of_Z]. by rewrite of_Z_mul. Qed.

Lemma row_value_Z k : row_value (F := F) row k = of_Z (row_value (F := Z) row k).
Proof. unfold row_value. destruct (from_index k); [apply to_field_Z|]. symmetry. apply of_Z_0. Qed.

Lemma terms_value_Z ts : terms_value (F := F) (row_value row) ts = of_Z (terms_value (F := Z) (row_value row) ts).
Proof.
  rewrite !terms_value_sum. induction ts as [|t ts IH]; cbn [sum_terms]; [symmetry; apply of_Z_0|].
  rewrite IH. unfold term_value. rewrite row_value_Z. cbn [fadd fmul Z_field of_Z]. by rewrite of_Z_add, of_Z_mul.
Qed.

Lemma evaluate_row_Z lc : evaluate_row_with (F := F) row lc = of_Z (evaluate_row_with (F := Z) row lc).
Proof.
  unfold evaluate_row_with, evaluate_lc. rewrite terms_value_Z. destruct (const_term lc); [|done].
  cbn [fadd Z_field of_Z]. by rewrite of_Z_add.
Qed.

End Transfer.

Lemma combine_bound a b c : Z.abs a <= 2 ^ 66 -> Z.abs b <= 2 ^ 132 -> Z.abs c <= 2 ^ 132 -> Z.abs (a * b - c) < 2 ^ 250.
Proof. intros Ha Hb Hc. assert (Z.abs (a * b) <= 2 ^ 66 * 2 ^ 132) by (rewrite Z.abs_mul; nia). lia. Qed.

Lemma b2z_bound b : 0 <= Z.b2z b <= 1.
Proof. destruct b; cbn; lia. Qed.

(** Every constraint of a bounded row is an equation between small integers. *)
Lemma constraint_bound `{B : Build} `{SI : SignedInts} row n : row_bounded row ->
  let con := uniform_constraint n in
  Z.abs (evaluate_row_with (F := Z) row (con_a con) * evaluate_row_with (F := Z) row (con_b con)
         - evaluate_row_with (F := Z) row (con_c con)) < 2 ^ 250.
Proof.
  intros [[] ]. cbv zeta. pose proof (S64_bound (right_input row)) as Hr. pose proof (S64_bound (row_imm row)) as Hi.
  assert (Hp : Z.abs (S64_to_i128 (right_input row) * left_input row) <= 2 ^ 128)
    by (rewrite Z.abs_mul; unfold is_u64 in *; nia).
  unfold is_u64, is_u8 in *. apply combine_bound.
  all: destruct B as [rv oc dbg]; destruct rv, n; open_constraint.
  all: repeat match goal with |- context [ Z.b2z ?b ] => let v := fresh "v" in pose proof (b2z_bound b); set (v := Z.b2z b) in * end.
  all: lia.
Qed.

Section Characterization.
Context `{B : Build} `{SI : SignedInts} {F : Type} `{JF : JoltField F} (row : R1CSCycleInputs).

Add Ring F_ring_char : F_ring.

Lemma satisfied_of_Z n : satisfied (F := Z) row n -> satisfied (F := F) row n.
Proof.
  unfold satisfied. cbv zeta. rewrite !(evaluate_row_Z (F := F)), <- of_Z_mul. cbn [fmul Z_field]. by intros ->.
Qed.

Lemma satisfied_to_Z `{!LargeField F} n : row_bounded row -> satisfied (F := F) row n -> satisfied (F := Z) row n.
Proof.
  intros Hb. pose proof (constraint_bound row n Hb) as H. revert H. unfold satisfied. cbv zeta.
  rewrite !(evaluate_row_Z (F := F)), <- of_Z_mul. cbn [fmul Z_field]. intros H E.
  apply large in H; [lia|]. rewrite of_Z_sub, E. ring.
Qed.

End Characterization.

#[export] Instance Fr_large : LargeField (Zmod bn254_modulus).
Proof.
  intros z Hz E. apply (f_equal Zmod.to_Z) in E. change (Zmod.to_Z (Zmod.of_Z bn254_modulus z) = 0) in E.
  rewrite Zmod.to_Z_of_Z in E. unfold bn254_modulus in E. lia.
Qed.

(** ** Properties *)

(** C4: over a field that separates integers below [2^250], such as the scalar field of BN254, a row of
    machine words satisfies the 26 constraints exactly when it records a step
    of the machine as [row_holds] states it. *)
Theorem constraints_characterize `{B : Build} `{SI : SignedInts} {F : Type} `{JF : JoltField F} `{!LargeField F}
  (row : R1CSCycleInputs) (Hb : row_bounded row) (Hf : flags_exclusive (flags row)) :
  (forall n c, (n, c) ∈ UNIFORM_R1CS ->
     fmul (evaluate_row_with (F := F) row (con_a c)) (evaluate_row_with row (con_b c)) = evaluate_row_with row (con_c c))
  <-> row_holds row.
Proof.
  assert (Hn : forall n, (n, uniform_constraint n) ∈ UNIFORM_R1CS).
  { intros n. unfold UNIFORM_R1CS. apply list_elem_of_fmap. exists n. split; [done|]. apply list_elem_of_In. destruct n; cbn; tauto. }
  split.
  - intros H. apply satisfied_holds_Z; [done|]. intros n. exact (satisfied_to_Z (F := F) row n Hb (H _ _ (Hn n))).
  - intros H n c Hc. apply list_elem_of_fmap in Hc as (m & [= -> ->] & _).
    apply (satisfied_of_Z (F := F)). by apply holds_satisfied_Z.
Qed.

(** C28: the integer evaluators of the prover compute the field values of the
    constraint system: for every row, batch and constraint, [Az] and [Bz] are
    the images of the evaluated integers. *)
Theorem evaluators_agree `{B : Build} `{SI : SignedInts} {F : Type} `{JF : JoltField F} (row : R1CSCycleInputs)
  (Ht : row_typed row) (Hf : flags_exclusive (flags row)) :
  map (fun nc => (evaluate_row_with (F := F) row (con_a (snd nc)), evaluate_row_with (F := F) row (con_b (snd nc)))) UNIFORM_R1CS =
  map (fun ab => (of_Z (fst ab), of_Z (S160_val (snd ab)))) (eval_az_bz_batch_from_row UNIFORM_R1CS row).
Proof.
  unfold eval_az_bz_batch_from_row, UNIFORM_R1CS. rewrite !map_map. apply map_ext. intros n. cbn [fst snd].
  by rewrite (az_agrees row n Hf), (bz_agrees row n Ht).
Qed.

(** ** Witnesses *)

(** Integers of [n] bits and a sign. *)
Record bounded_int (n : Z) := mkBounded { int_of : Z; int_bound : (Z.abs int_of <? 2 ^ n) = true }.
Arguments int_of {n} _.
Arguments int_bound {n} _.
Arguments mkBounded {n} _ _.

Lemma rem_bound z n : 0 <= n -> (Z.abs (Z.rem z (2 ^ n)) <? 2 ^ n) = true.
Proof.
  intros Hn. apply Z.ltb_lt. rewrite <- Z.rem_abs by (apply Z.pow_nonzero; lia).
  rewrite (Z.abs_eq (2 ^ n)) by (apply Z.pow_nonneg; lia). apply Z.rem_bound_pos; [lia|]. apply Z.pow_pos_nonneg; lia.
Qed.

Lemma rem_abs_small z n : 0 <= n -> Z.abs z < 2 ^ n -> Z.rem z (2 ^ n) = z.
Proof. intros Hn Hz. apply Z.rem_small_iff; [apply Z.pow_nonzero; lia|]. rewrite (Z.abs_eq (2 ^ n)); lia. Qed.

Definition truncated (n : Z) (Hn : 0 <= n) (z : Z) : bounded_int n := mkBounded (Z.rem z (2 ^ n)) (rem_bound z n Hn).

#[refine] Definition sample_ints : SignedInts := {|
  S64 := bounded_int 64; S128 := bounded_int 128; S160 := Z;
  S64_from_u64 z := truncated 64 _ z;
  S64_from_u64_with_sign m b := truncated 64 _ (if b : bool then m else - m);
  S64_to_i128 := int_of;
  S64_is_positive s := 0 <=? int_of s;
  S64_magnitude s := Z.abs (int_of s);
  S128_from_i128 z := truncated 128 _ z;
  S64_mul_trunc a b := truncated 128 _ (int_of a * int_of b);
  S160_from_diff_u64 a b := a - b; S160_from z := z; S160_from_S64 := int_of; S160_from_S128 := int_of;
  S160_sub := Z.sub; S160_neg := Z.opp; S128_val := int_of; S160_val z := z
|}.
Proof.
  all: try (clear; lia); cbn beta.
  - intros s. destruct (Z.leb_spec 0 (int_of s)); lia.
  - intros s. pose proof (int_bound s) as H%Z.ltb_lt. unfold is_u64. lia.
  - intros m Hm. unfold is_u64 in Hm. apply rem_abs_small; lia.
  - intros m b Hm. unfold is_u64 in Hm. apply rem_abs_small; destruct b; lia.
  - intros z Hz. apply rem_abs_small; lia.
  - intros a b Hab. by apply rem_abs_small.
  - intros s. apply Z.ltb_lt, int_bound.
Defined.

Definition sample_S64 (z : Z) : @S64 sample_ints := @S64_from_u64_with_sign sample_ints (Z.abs z) (0 <=? z).

(** The row of [ADDI x5, x6, -1] at the start of the RAM, with [x6 = 8], followed
    by another instruction. *)
Definition sample_row : @R1CSCycleInputs sample_ints :=
  @mkRow sample_ints 8 (sample_S64 (2 ^ 64 - 1)) (@S128_from_i128 sample_ints (8 * (2 ^ 64 - 1)))
    0 (8 + (2 ^ 64 - 1)) 7 5 8 0 7 0 0 0 1 2 RAM_START_ADDRESS (RAM_START_ADDRESS + 4) (sample_S64 (2 ^ 64 - 1))
    (circuit_flags ADDI_jolt None false) false false 0 5 0.

Lemma sample_row_typed : @row_typed sample_ints sample_row.
Proof. split; [split; vm_compute; (reflexivity || discriminate)..|vm_compute; reflexivity]. Qed.

Lemma sample_row_exclusive : flags_exclusive (flags sample_row).
Proof. split; reflexivity. Qed.

Lemma constraints_characterize_witness :
  (forall n c, (n, c) ∈ @UNIFORM_R1CS release_rv64 ->
     fmul (evaluate_row_with (F := Zmod bn254_modulus) sample_row (con_a c)) (evaluate_row_with sample_row (con_b c)) =
     evaluate_row_with sample_row (con_c c)) <-> @row_holds release_rv64 sample_ints sample_row.
Proof.
  apply (constraints_characterize (B := release_rv64) (SI := sample_ints) (F := Zmod bn254_modulus)).
  - split; [apply sample_row_typed|split; vm_compute; (reflexivity || discriminate)..].
  - apply sample_row_exclusive.
Defined.

Lemma evaluators_agree_witness :
  map (fun nc => (evaluate_row_with (F := Zmod bn254_modulus) sample_row (con_a (snd nc)),
                  evaluate_row_with (F := Zmod bn254_modulus) sample_row (con_b (snd nc)))) (@UNIFORM_R1CS release_rv64) =
  map (fun ab => (of_Z (fst ab), of_Z (@S160_val sample_ints (snd ab))))
    (@eval_az_bz_batch_from_row release_rv64 sample_ints (@UNIFORM_R1CS release_rv64) sample_row).
Proof. apply (evaluators_agree (B := release_rv64)); [apply sample_row_typed|apply sample_row_exclusive]. Defined.
