(* ===== verification/Bytecode.v ===== *)
(** * Bytecode and its program counters

    [jolt-core/src/guest/program.rs] ([decode]: the expansion of a program into
    its bytecode), [jolt-core/src/zkvm/bytecode/mod.rs] (the padded bytecode and
    the map from instruction addresses to bytecode positions) and the size
    parameters of [zkvm/witness.rs] and [utils/math.rs].

    The main result: the program counter the map gives to a cycle is the position
    of its instruction in the bytecode. *)

From Stdlib Require Import ZArith Lia List Bool Sorted.
From stdpp Require Import base list.
From S2P Require Import Prelude Words Types Isa Allocator Assembler Sequences Trace Step Refine Expansion Cycles Machine.
Import ListNotations.
Local Open Scope Z_scope.
Local Open Scope rust_scope.

(** ** Sizes ([utils/math.rs], [zkvm/witness.rs])

    [usize] of at most 63 bits: lengths of vectors. *)

Definition is_power_of_two (n : Z) : bool := n =? 2 ^ Z.log2 n.
Definition next_power_of_two (n : Z) : Z := if n <=? 1 then 1 else 2 ^ Z.log2_up n.
Definition div_ceil (a b : Z) : Res Z :=
  if b =? 0 then Panic else Ok (if a mod b =? 0 then a / b else a / b + 1).

(** [base.pow(self as u32)] *)
Definition pow2 `{Build} (n : Z) : Res Z := arith_u64 (2 ^ as_u32 n).

Definition leading_zeros (n : Z) : Z := if n =? 0 then 64 else 63 - Z.log2 n.

Definition log_2 (n : Z) : Res Z :=
  if n =? 0 then Panic
  else if is_power_of_two n then Ok (leading_zeros 1 - leading_zeros n)
  else Ok (leading_zeros 0 - leading_zeros n).

Definition DTH_ROOT_OF_K : Z := 2 ^ 8.

Definition compute_d_parameter_from_log_K (log_K : Z) : Res Z :=
  let? r := log_2 DTH_ROOT_OF_K in div_ceil log_K r.

Definition compute_d_parameter (K : Z) : Res Z :=
  let? log_K := log_2 K in
  let? r := log_2 DTH_ROOT_OF_K in div_ceil log_K r.

(** ** The map of program counters *)

Definition ALIGNMENT_FACTOR_BYTECODE : Z := 2.

(** [indices], indexed by [get_index] of an address: the position of the first
    instruction at the address and its [inline_sequence_remaining]. *)
Record BytecodePCMapper := mkMapper { indices : list (option (Z * Z)) }.

Definition get_index (address : Z) : Res nat :=
  if (RAM_START_ADDRESS <=? address) && (address mod ALIGNMENT_FACTOR_BYTECODE =? 0)
  then Ok (Z.to_nat ((address - RAM_START_ADDRESS) / ALIGNMENT_FACTOR_BYTECODE + 1))
  else Panic.

(** [instr.inline_sequence_remaining.unwrap_or(0)] *)
Definition remaining_or_0 (i : Instruction) : Z :=
  match ni_inline_sequence_remaining (normalize i) with Some n => n | None => 0 end.
Definition address_of (i : Instruction) : Z := ni_address (normalize i).

(** The closure of [for_each]. *)
Definition mapper_step (st : list (option (Z * Z)) * Z) (instr : Instruction) : Res (list (option (Z * Z)) * Z) :=
  let '(slots, last_pc) := st in
  if address_of instr =? 0 then Ok st
  else
    let last_pc := last_pc + 1 in
    let? index := get_index (address_of instr) in
    match slots !! index with
    | None => Panic
    | Some (Some (_, max_sequence)) =>
        if max_sequence <=? remaining_or_0 instr then Panic else Ok (slots, last_pc)
    | Some None => Ok (<[index := Some (last_pc, remaining_or_0 instr)]> slots, last_pc)
    end.

Fixpoint mapper_loop (bytecode : list Instruction) (st : list (option (Z * Z)) * Z) : Res (list (option (Z * Z)) * Z) :=
  match bytecode with
  | [] => Ok st
  | instr :: rest => let? st := mapper_step st instr in mapper_loop rest st
  end.

Definition BytecodePCMapper_new (bytecode : list Instruction) : Res BytecodePCMapper :=
  match last bytecode with
  | None => Panic
  | Some instr =>
      let? n := get_index (address_of instr) in
      let slots := <[0%nat := Some (0, 0)]> (replicate (S n) None) in
      let? st := mapper_loop bytecode (slots, 0) in Ok (mkMapper (fst st))
  end.

Section Mapper.
Context `{Build}.

(** The difference is a [u16] subtraction. *)
Definition mapper_get_pc (m : BytecodePCMapper) (address inline_sequence_remaining : Z) : Res Z :=
  let? index := get_index address in
  match indices m !! index with
  | Some (Some (base_pc, max_inline_seq)) =>
      let d := max_inline_seq - inline_sequence_remaining in
      if overflow_checks && (d <? 0) then Panic else Ok (base_pc + as_u16 d)
  | _ => Panic
  end.

(** ** Preprocessing *)

Record BytecodePreprocessing := mkBytecode {
  code_size : Z;
  bytecode : list Instruction;
  pc_map : BytecodePCMapper;
  bytecode_d : Z
}.

(** [Vec::resize] *)
Definition vec_resize {A} (l : list A) (n : Z) (v : A) : list A :=
  take (Z.to_nat n) l ++ replicate (Z.to_nat n - length l) v.

Definition preprocess (bytecode : list Instruction) : Res BytecodePreprocessing :=
  let bytecode := NoOp :: bytecode in
  let? pc_map := BytecodePCMapper_new bytecode in
  let len := Z.of_nat (length bytecode) in
  let? d := compute_d_parameter (Z.max (next_power_of_two len) 2) in
  let? log := log_2 (next_power_of_two len) in
  let? k := div_ceil log d in
  let? p := pow2 (k * d) in
  let code_size := Z.max p DTH_ROOT_OF_K in
  Ok (mkBytecode code_size (vec_resize bytecode code_size NoOp) pc_map d).

Definition get_pc (b : BytecodePreprocessing) (cy : Cycle) : Res Z :=
  match cycle_instruction cy with
  | NoOp => Ok 0
  | i => mapper_get_pc (pc_map b) (address_of i) (remaining_or_0 i)
  end.

(** ** Expansion of a program

    [instructions.into_iter().flat_map(|instr| instr.inline_sequence(&allocator, xlen)).collect()] *)
Fixpoint expand_program `{InlineRegistry} (xl : Xlen) (instructions : list Instruction) :
    ST VirtualRegisterAllocator (list Instruction) :=
  match instructions with
  | [] => ret []
  | instr :: rest =>
      s <-- inline_sequence instr xl ;;
      t <-- expand_program xl rest ;;
      ret (s ++ t)
  end.

End Mapper.

(** ** Lemmas *)

(** The instructions at one address, in the order of the bytecode. *)
Definition block_ok (a : Z) (b : list Instruction) : Prop :=
  b <> [] /\ Z.of_nat (length b) < 65536 /\ forall k i, b !! k = Some i ->
    address_of i = a /\ remaining_or_0 i = Z.of_nat (length b) - 1 - Z.of_nat k.

Definition indexable (a : Z) : Prop := RAM_START_ADDRESS <= a /\ a mod 2 = 0.

Definition index_of (a : Z) : nat := Z.to_nat ((a - RAM_START_ADDRESS) / 2 + 1).

Lemma get_index_ok a : indexable a -> get_index a = Ok (index_of a).
Proof.
  intros [H1 H2]. unfold get_index, ALIGNMENT_FACTOR_BYTECODE. by rewrite (proj2 (Z.leb_le _ _) H1), H2.
Qed.

Lemma index_of_lt a b : indexable a -> indexable b -> a < b -> (index_of a < index_of b)%nat.
Proof. intros [] [] Hlt. unfold index_of. lia. Qed.

(** The first instruction of a block claims the slot of its address, the others
    find it claimed. *)
Lemma mapper_step_first a i slots p :
  indexable a -> address_of i = a -> slots !! index_of a = Some None ->
  mapper_step (slots, p) i = Ok (<[index_of a := Some (p + 1, remaining_or_0 i)]> slots, p + 1).
Proof.
  intros Ha Hi Hn. unfold mapper_step. rewrite Hi, get_index_ok by done. cbn [res_bind]. rewrite Hn.
  destruct Ha as [Ha _]. unfold RAM_START_ADDRESS in Ha. by rewrite (proj2 (Z.eqb_neq a 0)) by lia.
Qed.

Lemma mapper_step_next a i slots p base m :
  indexable a -> address_of i = a -> slots !! index_of a = Some (Some (base, m)) -> remaining_or_0 i < m ->
  mapper_step (slots, p) i = Ok (slots, p + 1).
Proof.
  intros Ha Hi Hn Hr. unfold mapper_step. rewrite Hi, get_index_ok by done. cbn [res_bind]. rewrite Hn.
  destruct Ha as [Ha _]. unfold RAM_START_ADDRESS in Ha. rewrite (proj2 (Z.eqb_neq a 0)) by lia.
  by rewrite (proj2 (Z.leb_gt _ _) Hr).
Qed.

Lemma mapper_loop_app l1 l2 st : mapper_loop (l1 ++ l2) st = let? st := mapper_loop l1 st in mapper_loop l2 st.
Proof.
  revert st. induction l1 as [|i l1 IH]; intros st; [done|]. cbn. destruct (mapper_step st i); cbn; auto.
Qed.

Lemma mapper_loop_rest a slots base m l : indexable a -> slots !! index_of a = Some (Some (base, m)) ->
  forall p, Forall (fun i => address_of i = a /\ remaining_or_0 i < m) l ->
  mapper_loop l (slots, p) = Ok (slots, p + Z.of_nat (length l)).
Proof.
  intros Ha Hn. induction l as [|i l IH]; intros p Hl; cbn [mapper_loop]; [by rewrite Z.add_0_r|].
  apply Forall_cons_1 in Hl as [[Hi Hr] Hl]. rewrite (mapper_step_next a i slots p base m) by done. cbn [res_bind].
  rewrite IH by done. do 2 f_equal. cbn [length]. lia.
Qed.

Lemma mapper_block a b slots p : indexable a -> block_ok a b -> slots !! index_of a = Some None ->
  mapper_loop b (slots, p) =
    Ok (<[index_of a := Some (p + 1, Z.of_nat (length b) - 1)]> slots, p + Z.of_nat (length b)).
Proof.
  intros Ha (Hne & _ & Hb) Hn. destruct b as [|i b]; [done|]. cbn [mapper_loop].
  destruct (Hb 0%nat i eq_refl) as [Hi Hr]. rewrite (mapper_step_first a) by done. cbn [res_bind].
  erewrite (mapper_loop_rest a); [|done|by apply list_lookup_insert_eq, (lookup_lt_Some _ _ _ Hn)|].
  - do 2 f_equal; [|cbn [length]; lia]. do 2 f_equal. rewrite Hr. cbn [length]. f_equal. lia.
  - apply Forall_forall. intros j [k Hk]%list_elem_of_lookup. destruct (Hb (S k) j Hk) as [Hj Hjr]. split; [done|]. lia.
Qed.

(** Blocks at ascending addresses, below the size of the table. *)
Definition ascending (blocks : list (Z * list Instruction)) : Prop :=
  StronglySorted (fun p q => fst p < fst q) blocks.

Definition entry_at (m : list (option (Z * Z))) (i : Instruction) (pc : Z) : Prop :=
  exists base max, m !! index_of (address_of i) = Some (Some (base, max)) /\
    0 <= max - remaining_or_0 i < 65536 /\ base + (max - remaining_or_0 i) = pc.

Lemma mapper_blocks blocks :
  Forall (fun p => indexable (fst p) /\ block_ok (fst p) (snd p)) blocks -> ascending blocks ->
  forall slots p, Forall (fun q => slots !! index_of (fst q) = Some None) blocks ->
  exists m, mapper_loop (concat (map snd blocks)) (slots, p) = Ok (m, p + Z.of_nat (length (concat (map snd blocks)))) /\
    length m = length slots /\
    (forall n, Forall (fun q => (n < index_of (fst q))%nat) blocks -> m !! n = slots !! n) /\
    (forall k i, concat (map snd blocks) !! k = Some i -> entry_at m i (p + 1 + Z.of_nat k)).
Proof.
  induction blocks as [|[a b] bs IH]; intros Hok Hs slots p Hn.
  - exists slots. cbn. rewrite Z.add_0_r. split_and!; try done.
  - apply Forall_cons_1 in Hok as [[Ha Hb] Hok]. apply Forall_cons_1 in Hn as [Hna Hn]. cbn [fst snd] in *.
    apply StronglySorted_inv in Hs as [Hs Hlt].
    assert (Hlt' : Forall (fun q => (index_of a < index_of (fst q))%nat) bs).
    { apply Forall_forall. intros q Hq. rewrite Forall_forall in Hlt, Hok.
      apply index_of_lt; [done|by apply Hok|by apply Hlt]. }
    set (slots1 := <[index_of a := Some (p + 1, Z.of_nat (length b) - 1)]> slots).
    destruct (IH Hok Hs slots1 (p + Z.of_nat (length b))) as (m & Hm & Hlen & Hlow & Hat).
    { rewrite Forall_forall in Hn, Hlt' |- *. intros q Hq. specialize (Hlt' q Hq). cbv beta. unfold slots1.
      rewrite list_lookup_insert_ne by lia. by apply Hn. }
    exists m. change (concat (map snd ((a, b) :: bs))) with (b ++ concat (map snd bs)). rewrite mapper_loop_app, (mapper_block a) by done. cbn [res_bind]. fold slots1.
    split; [rewrite Hm; do 2 f_equal; rewrite length_app; lia|].
    split; [rewrite Hlen; apply length_insert|]. split.
    + intros n [Hna' Hn']%Forall_cons_1. cbn [fst] in Hna'. rewrite Hlow by done. apply list_lookup_insert_ne. lia.
    + intros k i Hk. destruct (decide (k < length b)%nat) as [Hkb|Hkb].
      * rewrite lookup_app_l in Hk by done. destruct Hb as (_ & Hsz & Hb). destruct (Hb k i Hk) as [Hi Hr].
        exists (p + 1), (Z.of_nat (length b) - 1). rewrite Hi, Hlow by done. unfold slots1.
        rewrite list_lookup_insert_eq by (by apply (lookup_lt_Some _ _ _ Hna)). split; [done|]. lia.
      * rewrite lookup_app_r in Hk by lia. specialize (Hat _ _ Hk) as (base & max & H1 & H2 & H3).
        exists base, max. split; [done|]. lia.
Qed.

(** ** Blocks of an expanded program *)

Lemma countdown_lookup n k : (k < n)%nat -> countdown n !! k = Some (Some (Z.of_nat n - 1 - Z.of_nat k)).
Proof.
  revert k. induction n as [|n IH]; intros [|k] Hk; cbn [countdown lookup list_lookup]; try lia; [do 2 f_equal; lia|].
  rewrite IH by lia. do 2 f_equal. lia.
Qed.

Lemma map_lookup_eq {A B C} (f : A -> C) (g : B -> C) l l' k a : map f l = map g l' -> l !! k = Some a ->
  exists b, l' !! k = Some b /\ f a = g b.
Proof.
  intros E Hk. apply (f_equal (lookup k)) in E. rewrite !list_lookup_fmap, Hk in E. cbn in E.
  destruct (l' !! k) as [b|]; [|done]. injection E as E. by exists b.
Qed.

Lemma expansion_block i s : expansion_ok i s -> (is_leaf i = true -> remaining_or_0 i = 0) ->
  block_ok (address_of i) s.
Proof.
  intros (Hne & _ & Hs) Hl. destruct (is_leaf i).
  - subst s. split; [done|]. split; [cbn; lia|]. intros [|k] j Hj; [|done]. injection Hj as <-.
    rewrite Hl by done. split; [done|]. cbn. lia.
  - destruct Hs as (Hr & Ha & _ & Hlen). apply Z.ltb_lt in Hlen. split; [done|]. split; [done|]. intros k j Hj.
    pose proof (lookup_lt_Some _ _ _ Hj) as Hk. split.
    + destruct (map_lookup_eq _ _ _ _ _ _ Ha Hj) as (j' & _ & E). exact E.
    + apply (f_equal (lookup k)) in Hr. rewrite list_lookup_fmap, Hj, countdown_lookup in Hr by done. cbn in Hr.
      injection Hr as Hr. unfold remaining_or_0. rewrite Hr. done.
Qed.

(** A decoded program: instructions at ascending, aligned addresses of the RAM,
    and words that do not decode ([UNIMPL]). *)
Definition decoded (i : Instruction) : Prop :=
  is_base i = true /\ user_regs i = true /\ indexable (address_of i) /\ ni_inline_sequence_remaining (normalize i) = None.

Definition is_unimpl (i : Instruction) : bool := match i with UNIMPL => true | _ => false end.
Definition real_part (prog : list Instruction) : list Instruction := List.filter (fun i => negb (is_unimpl i)) prog.

Record program_ok (prog : list Instruction) : Prop := {
  pr_decoded : Forall decoded (real_part prog);
  pr_ascending : StronglySorted (fun i j => address_of i < address_of j) (real_part prog);
  pr_nonempty : real_part prog <> [];
  pr_size : Z.of_nat (length (real_part prog)) <= 2 ^ 31
}.

Section Program.
Context (oc dbg : bool) `{R : InlineRegistry}.
Local Instance B64p : Build := Build_Build true oc dbg.

Lemma expand_program_blocks prog al : pool_free al -> Forall decoded (real_part prog) ->
  exists blocks, expand_program Bit64 prog al = Ok (concat (map snd blocks), al) /\
    map fst blocks = map address_of (real_part prog) /\
    Forall (fun p => block_ok (fst p) (snd p)) blocks.
Proof.
  intros Hp. induction prog as [|i prog IH]; intros Hd; [by exists []|].
  cbn [expand_program]. unfold bind. cbn [real_part List.filter] in Hd |- *. destruct (is_unimpl i) eqn:Eu; cbn [negb] in *.
  - destruct i; try discriminate Eu. change (inline_sequence UNIMPL Bit64 al) with (Ok (@nil Instruction, al)).
    destruct (IH Hd) as (bs & Hbs & Hm & Hf). exists bs. cbv beta iota. by rewrite Hbs.
  - apply Forall_cons_1 in Hd as [(Hb & Hr & Hi & Hn) Hd]. destruct (IH Hd) as (bs & Hbs & Hm & Hf).
    destruct (expansion_exists oc dbg i al Hp Hb Hr) as (s & Hs & Hok).
    change (inline_sequence i Bit64 al = Ok (s, al)) in Hs. rewrite Hs. cbv beta iota. rewrite Hbs.
    exists ((address_of i, s) :: bs). split; [done|]. split; [cbn; by f_equal|]. constructor; [|done].
    apply expansion_block; [done|]. intros _. unfold remaining_or_0. by rewrite Hn.
Qed.

End Program.

Lemma ascending_blocks blocks addrs : map fst blocks = addrs -> StronglySorted Z.lt addrs -> ascending blocks.
Proof.
  intros <-. induction blocks as [|p bs IH]; intros Hs; [constructor|]. change (map fst (p :: bs)) with (fst p :: map fst bs) in Hs.
  apply StronglySorted_inv in Hs as [Hs Hlt]. constructor; [by apply IH|]. by rewrite List.Forall_map in Hlt.
Qed.

Lemma sorted_map {A} (f : A -> Z) l : StronglySorted (fun i j => f i < f j) l -> StronglySorted Z.lt (map f l).
Proof.
  induction 1 as [|a l Hs IH Hl]; [constructor|]. change (map f (a :: l)) with (f a :: map f l).
  constructor; [done|]. by rewrite List.Forall_map.
Qed.

(** The last element of a sorted list is the largest. *)
Lemma sorted_last l x y : StronglySorted Z.lt l -> last l = Some x -> y ∈ l -> y <= x.
Proof.
  intros Hs Hl Hy. apply last_Some in Hl as [l' ->]. apply elem_of_app in Hy as [Hy|Hy%list_elem_of_singleton]; [|lia].
  induction l' as [|z l' IH]; [by apply elem_of_nil in Hy|]. apply StronglySorted_inv in Hs as [Hs Hlt].
  apply elem_of_cons in Hy as [->|Hy]; [|by apply IH]. rewrite Forall_forall in Hlt. apply Z.lt_le_incl, Hlt.
  apply elem_of_app. right. by apply list_elem_of_singleton.
Qed.

Lemma last_concat {A} (ls : list (list A)) (l : list A) : l <> [] -> last (concat (ls ++ [l])) = last l.
Proof.
  intros Hl. rewrite concat_app. cbn. rewrite app_nil_r, last_app. destruct (last l) eqn:E; [done|]. by apply last_None in E.
Qed.

(** The map of a bytecode made of blocks. *)
Lemma mapper_new_blocks blocks : blocks <> [] ->
  Forall (fun p => indexable (fst p) /\ block_ok (fst p) (snd p)) blocks -> ascending blocks ->
  exists m, BytecodePCMapper_new (NoOp :: concat (map snd blocks)) = Ok (mkMapper m) /\
    (forall k i, concat (map snd blocks) !! k = Some i -> entry_at m i (1 + Z.of_nat k)).
Proof.
  intros Hne Hok Hs. destruct (exists_last Hne) as (bs & [a b] & ->).
  assert (Hok' := Hok). apply Forall_app in Hok' as [_ [[Ha Hb] _]%Forall_cons_1]. cbn [fst snd] in *.
  assert (Hlast : exists i, last (NoOp :: concat (map snd (bs ++ [(a, b)]))) = Some i /\ address_of i = a).
  { rewrite map_app. cbn [map snd]. rewrite last_cons, last_concat by apply Hb. destruct Hb as (Hbne & _ & Hb).
    destruct (last b) as [i|] eqn:E; [|by apply last_None in E]. exists i. split; [done|].
    rewrite last_lookup in E. by apply Hb in E as [? _]. }
  destruct Hlast as (i & Hi & Hia). unfold BytecodePCMapper_new. rewrite Hi, Hia, get_index_ok by done. cbn [res_bind mapper_loop].
  set (slots := <[0%nat := Some (0, 0)]> (replicate (S (index_of a)) None)).
  assert (E0 : mapper_step (slots, 0) NoOp = Ok (slots, 0)) by done. rewrite E0. cbn [res_bind].
  destruct (mapper_blocks _ Hok Hs slots 0) as (m & Hm & _ & _ & Hat).
  { apply Forall_forall. intros q Hq.
    assert (Hqa : fst q <= a).
    { apply (sorted_last (map fst (bs ++ [(a, b)]))); [by apply (sorted_map fst)|rewrite map_app; apply last_snoc|].
      by apply list_elem_of_fmap_2. }
    rewrite Forall_forall in Hok. destruct (Hok q Hq) as [[H1 H2] _]. unfold slots.
    rewrite list_lookup_insert_ne by (unfold index_of; lia). apply lookup_replicate. split; [done|].
    unfold index_of. destruct Ha. lia. }
  exists m. rewrite Hm. cbn [res_bind fst]. split; [done|]. intros k j Hk. by apply Hat.
Qed.

(** ** Sizes *)

Lemma log_2_pow n : 0 <= n -> log_2 (2 ^ n) = Ok n.
Proof.
  intros Hn. unfold log_2, is_power_of_two, leading_zeros. rewrite Z.log2_pow2, Z.eqb_refl by done.
  assert (2 ^ n <> 0) by (apply Z.pow_nonzero; lia). rewrite (proj2 (Z.eqb_neq _ _)) by done. f_equal. cbn. lia.
Qed.

Lemma div_ceil_spec a b : 0 <= a -> 0 < b -> exists q, div_ceil a b = Ok q /\ a <= q * b < a + b.
Proof.
  intros Ha Hb. unfold div_ceil. rewrite (proj2 (Z.eqb_neq b 0)) by lia. eexists. split; [done|].
  pose proof (Z.div_mod a b) as E. pose proof (Z.mod_pos_bound a b Hb).
  destruct (Z.eqb_spec (a mod b) 0); nia.
Qed.

Lemma next_power_of_two_spec n : 2 <= n -> exists L, next_power_of_two n = 2 ^ L /\ 1 <= L /\ 2 ^ (L - 1) < n <= 2 ^ L.
Proof.
  intros Hn. exists (Z.log2_up n). unfold next_power_of_two. rewrite (proj2 (Z.leb_gt _ _)) by lia.
  split; [done|]. pose proof (Z.log2_up_spec n) as H. pose proof (Z.log2_up_pos n). rewrite <- Z.sub_1_r in H. lia.
Qed.

(** The padded size of a bytecode of [n] instructions: a power of two whose
    logarithm [d] divides. *)
Lemma code_size_spec `{Build} n : 2 <= n <= 2 ^ 48 ->
  exists d log k p L, compute_d_parameter (Z.max (next_power_of_two n) 2) = Ok d /\ log_2 (next_power_of_two n) = Ok log /\
    div_ceil log d = Ok k /\ pow2 (k * d) = Ok p /\ 0 < d /\
    Z.max p DTH_ROOT_OF_K = 2 ^ L /\ n <= 2 ^ L /\ L mod d = 0 /\ 8 <= L < 64.
Proof.
  intros Hn. destruct (next_power_of_two_spec n) as (L & EL & HL & Hlo & Hhi); [lia|]. rewrite EL.
  assert (HL48 : L - 1 < 48) by (apply (Z.pow_lt_mono_r_iff 2); lia).
  assert (2 ^ 1 <= 2 ^ L) by (apply Z.pow_le_mono_r; lia).
  rewrite Z.max_l, log_2_pow by lia. unfold compute_d_parameter. rewrite log_2_pow by lia. cbn [res_bind].
  change (log_2 DTH_ROOT_OF_K) with (Ok 8). cbn [res_bind].
  destruct (div_ceil_spec L 8) as (d & Ed & Hd); [lia..|]. rewrite Ed.
  destruct (div_ceil_spec L d) as (k & Ek & Hk); [lia..|].
  exists d, L, k, (2 ^ (k * d)), (Z.max (k * d) 8). rewrite Ek. split_and!; try done; try lia.
  - unfold pow2. replace (as_u32 (k * d)) with (k * d) by (unfold as_u32; lia). apply arith_u64_ok. unfold is_u64.
    split; [lia|]. change 18446744073709551616 with (2 ^ 64). apply Z.pow_lt_mono_r; lia.
  - unfold DTH_ROOT_OF_K. destruct (Z.max_spec (k * d) 8) as [[? ->]|[? ->]].
    + apply Z.max_r, Z.pow_le_mono_r; lia.
    + apply Z.max_l, Z.pow_le_mono_r; lia.
  - etransitivity; [exact Hhi|]. apply Z.pow_le_mono_r; lia.
  - destruct (Z.max_spec (k * d) 8) as [[? ->]|[? ->]]; [|by apply Z.mod_mul; lia].
    assert (d = 1) as -> by lia. apply Z.mod_1_r.
Qed.

Lemma vec_resize_prefix {A} (l : list A) n v k a : Z.of_nat (length l) <= n -> l !! k = Some a -> vec_resize l n v !! k = Some a.
Proof.
  intros Hn Hk. unfold vec_resize. rewrite take_ge by lia. rewrite lookup_app_l; [done|]. by apply lookup_lt_Some in Hk.
Qed.

Lemma vec_resize_length {A} (l : list A) n v : 0 <= n -> Z.of_nat (length (vec_resize l n v)) = n.
Proof. intros Hn. unfold vec_resize. rewrite length_app, length_take, length_replicate. lia. Qed.

Lemma erase_advice_normalize i j : erase_advice i = erase_advice j -> normalize i = normalize j.
Proof.
  intros E. destruct i, j; cbn in E; try discriminate E; try done; injection E; intros; by subst.
Qed.

Lemma concat_size (blocks : list (Z * list Instruction)) :
  Forall (fun p => indexable (fst p) /\ block_ok (fst p) (snd p)) blocks ->
  Z.of_nat (length (concat (map snd blocks))) <= 65535 * Z.of_nat (length blocks).
Proof.
  induction 1 as [|p bs (_ & _ & Hp & _) Hbs IH]; [done|]. change (concat (map snd (p :: bs))) with (snd p ++ concat (map snd bs)).
  rewrite length_app. cbn [length]. lia.
Qed.

Lemma entry_get_pc `{Build} b cy i pc m : cycle_instruction cy <> NoOp -> normalize (cycle_instruction cy) = normalize i ->
  pc_map b = mkMapper m -> indexable (address_of i) -> entry_at m i pc ->
  get_pc b cy = Ok pc.
Proof.
  intros Hne En Em Hi (base & max & Hat & Hd & Hpc).
  unfold get_pc. destruct (cycle_instruction cy); try done; unfold address_of, remaining_or_0 in *; rewrite En.
  all: unfold mapper_get_pc; rewrite get_index_ok by done; cbn [res_bind]; rewrite Em; cbn [indices]; rewrite Hat.
  all: rewrite (proj2 (Z.ltb_ge _ _)) by lia; rewrite andb_false_r; f_equal; unfold as_u16; rewrite Z.mod_small; lia.
Qed.

(** The parts of a decoded program's expansion the map is built from. *)
Lemma program_blocks oc dbg `{R : InlineRegistry} prog al : pool_free al -> program_ok prog ->
  exists blocks, @expand_program (Build_Build true oc dbg) R Bit64 prog al = Ok (concat (map snd blocks), al) /\ blocks <> [] /\
    Forall (fun p => indexable (fst p) /\ block_ok (fst p) (snd p)) blocks /\ ascending blocks /\
    Z.of_nat (length blocks) <= 2 ^ 31.
Proof.
  intros Hp [Hd Ha Hne Hsz]. destruct (expand_program_blocks oc dbg prog al Hp Hd) as (bs & He & Hm & Hf).
  exists bs. assert (Hlen : length bs = length (real_part prog)) by (by rewrite <- (length_map fst), Hm, length_map).
  split; [done|]. split.
  { intros ->. by destruct (real_part prog). }
  split; [|split; [|by rewrite Hlen]].
  - apply Forall_and. split; [|done]. apply (List.Forall_map fst indexable bs). rewrite Hm. apply List.Forall_map.
    eapply Forall_impl; [exact Hd|]. by intros i (_ & _ & H & _).
  - by apply (ascending_blocks _ _ Hm), sorted_map.
Qed.

Lemma preprocess_blocks `{Build} blocks : blocks <> [] ->
  Forall (fun p => indexable (fst p) /\ block_ok (fst p) (snd p)) blocks -> ascending blocks ->
  Z.of_nat (length blocks) <= 2 ^ 31 ->
  exists b m L, preprocess (concat (map snd blocks)) = Ok b /\ pc_map b = mkMapper m /\
    (forall k i, concat (map snd blocks) !! k = Some i -> entry_at m i (1 + Z.of_nat k)) /\
    bytecode b = vec_resize (NoOp :: concat (map snd blocks)) (2 ^ L) NoOp /\
    Z.of_nat (length (NoOp :: concat (map snd blocks))) <= 2 ^ L /\ code_size b = 2 ^ L /\ L mod bytecode_d b = 0 /\ 0 <= L.
Proof.
  intros Hne Hok Hs Hsz. destruct (mapper_new_blocks blocks Hne Hok Hs) as (m & Hm & Hat).
  assert (Hlen : 2 <= Z.of_nat (length (NoOp :: concat (map snd blocks))) <= 2 ^ 48).
  { pose proof (concat_size blocks Hok). split; [|cbn [length]; lia]. destruct blocks as [|p bs]; [done|].
    apply Forall_cons_1 in Hok as [(_ & Hb & _) _]. change (concat (map snd (p :: bs))) with (snd p ++ concat (map snd bs)).
    destruct (snd p) as [|i b]; [done|]. cbn [length app]. lia. }
  destruct (code_size_spec _ Hlen) as (d & log & k & p & L & E1 & E2 & E3 & E4 & Hd & EL & HL & Hmod & HL8).
  unfold preprocess. rewrite Hm. cbn [res_bind]. rewrite E1. cbn [res_bind]. rewrite E2. cbn [res_bind]. rewrite E3.
  cbn [res_bind]. rewrite E4. cbn [res_bind]. rewrite EL. eexists _, m, L. split_and!; try done. lia.
Qed.

Lemma blocks_address blocks k i :
  Forall (fun p => indexable (fst p) /\ block_ok (fst p) (snd p)) blocks ->
  concat (map snd blocks) !! k = Some i -> indexable (address_of i).
Proof.
  intros Hok Hk. apply list_elem_of_lookup_2, list_elem_of_In, in_concat in Hk as (l & Hl & Hi).
  apply in_map_iff in Hl as (p & <- & Hp). rewrite List.Forall_forall in Hok. destruct (Hok p Hp) as (Ha & _ & _ & Hb).
  apply list_elem_of_In, list_elem_of_lookup in Hi as [n Hn]. by destruct (Hb n i Hn) as [-> _].
Qed.

(** ** Properties *)

(** C20: the bytecode of a decoded 64-bit program is built without a panic, padded to a power
    of two whose logarithm [d] divides, and the program counter computed for a
    cycle is the position in it of the cycle's instruction. *)
Theorem bytecode_pc_is_position `{B : Build} `{R : InlineRegistry} (prog : list Instruction) (al : VirtualRegisterAllocator)
  (Hrv : feature_rv64 = true) (Hp : pool_free al) (Hprog : program_ok prog) :
  exists bc b, expand_program Bit64 prog al = Ok (bc, al) /\ preprocess bc = Ok b /\
    (forall k i cy, (NoOp :: bc) !! k = Some i -> erase_advice (cycle_instruction cy) = erase_advice i ->
       bytecode b !! k = Some i /\ get_pc b cy = Ok (Z.of_nat k)) /\
    (exists L, code_size b = 2 ^ L /\ Z.of_nat (length (bytecode b)) = 2 ^ L /\ L mod bytecode_d b = 0).
Proof.
  destruct B as [rv oc dbg]. cbn in Hrv. subst rv.
  destruct (program_blocks oc dbg prog al Hp Hprog) as (bs & He & Hne & Hok & Hs & Hsz).
  destruct (preprocess_blocks (H := Build_Build true oc dbg) bs Hne Hok Hs Hsz)
    as (b & m & L & Hb & Hm & Hat & Hbc & Hlen & Hcs & Hmod & HL).
  exists (concat (map snd bs)), b. split; [done|]. split; [done|]. split.
  - intros k i cy Hk Hcy. split; [rewrite Hbc; by apply vec_resize_prefix|].
    apply erase_advice_normalize in Hcy as Hn. destruct k as [|k].
    + injection Hk as <-. unfold get_pc. destruct (cycle_instruction cy); try discriminate Hcy. done.
    + assert (Ha := blocks_address _ _ _ Hok Hk). refine (entry_get_pc b cy i _ m _ Hn Hm Ha _).
      * intros E. rewrite E in Hn. unfold address_of in Ha. rewrite <- Hn in Ha. destruct Ha as [Ha _]. by apply Ha.
      * specialize (Hat k i Hk). by replace (Z.of_nat (S k)) with (1 + Z.of_nat k) by lia.
  - exists L. split; [done|]. split; [|done]. rewrite Hbc. apply vec_resize_length. apply Z.pow_nonneg. lia.
Qed.

Definition sample_addi : Instruction := InstrI ADDI (mkInstr RAM_START_ADDRESS (mkFormatI 5 0 7) None false).

(** A program with a leaf, a word that does not decode, and a division. *)
Definition sample_program : list Instruction :=
  [sample_addi; UNIMPL;
   InstrR DIV (mkInstr (RAM_START_ADDRESS + 8) (mkFormatR 7 5 6) None false)].

Lemma bytecode_pc_is_position_witness :
  exists bc b, @expand_program release_rv64 empty_registry Bit64 sample_program VirtualRegisterAllocator_new =
      Ok (bc, VirtualRegisterAllocator_new) /\ preprocess (H := release_rv64) bc = Ok b /\
    get_pc (H := release_rv64) b (mkCycle sample_addi RegisterState_default RANoOp) = Ok 1.
Proof.
  destruct (@bytecode_pc_is_position release_rv64 empty_registry sample_program VirtualRegisterAllocator_new)
    as (bc & b & He & Hb & Hpc & _).
  - reflexivity.
  - by exists (replicate 80 false).
  - split.
    + repeat constructor; vm_compute; discriminate.
    + repeat constructor.
    + discriminate.
    + vm_compute. discriminate.
  - exists bc, b. split; [exact He|]. split; [exact Hb|].
    assert (Hbc : exists rest, bc = sample_addi :: rest).
    { vm_compute in He. injection He as <-. eexists. reflexivity. }
    destruct Hbc as [rest ->]. exact (proj2 (Hpc 1%nat sample_addi (mkCycle sample_addi RegisterState_default RANoOp) eq_refl eq_refl)).
Defined.
