(* ===== verification/R1csRows.v ===== *)
(** * Rows of the constraint system from the trace

    [R1CSCycleInputs::from_trace] ([zkvm/r1cs/inputs.rs]): the witness columns
    of a cycle, computed from the cycle, the next one and the bytecode. *)

From Stdlib Require Import ZArith Lia List Bool.
From stdpp Require Import base list.
From S2P Require Import Prelude Words Types Isa Trace Field LookupTables InstructionLookup InstructionEntries LinComb.
From S2P Require Import R1cs R1csMeaning Bytecode.
Import ListNotations.
Local Open Scope Z_scope.
Local Open Scope rust_scope.

Definition build_xlen `{Build} : Xlen := if feature_rv64 then Bit64 else Bit32.

Definition RAMAccess_address (a : RAMAccess) : Z :=
  match a with RARead r => rr_address r | RAWrite w => rw_address w | RANoOp => 0 end.

Definition RAMAccess_values (a : RAMAccess) : Z * Z :=
  match a with
  | RARead r => (rr_value r, rr_value r)
  | RAWrite w => (rw_pre_value w, rw_post_value w)
  | RANoOp => (0, 0)
  end.

Section FromTrace.
Context `{B : Build} `{SI : SignedInts}.

(** [S64::from_u64_with_sign(z.unsigned_abs() as u64, z >= 0)] behind the
    [debug_assert!] on the magnitude. *)
Definition S64_from_signed (z : Z) : Res S64 :=
  let? _ := debug_assert (Z.abs z <=? u64_MAX) in
  Ok (S64_from_u64_with_sign (as_u64 (Z.abs z)) (0 <=? z)).

(** The immediate of the row: for 64 bits the normalized one. *)
Definition row_immediate (flags : Flags) (imm : Z) : Z :=
  if feature_rv64 then imm
  else if flags Branch || flags Load || flags Store then as_i32 imm else as_u32 imm.

Definition from_trace (preprocessing : BytecodePreprocessing) (trace : list Cycle) (t : nat) : Res R1CSCycleInputs :=
  match trace !! t with
  | None => Panic
  | Some cycle =>
      let instr := cycle_instruction cycle in
      let? flags_view := Instruction_circuit_flags instr in
      let norm := normalize instr in
      let next_cycle := trace !! S t in
      let? inputs := Cycle_to_instruction_inputs build_xlen cycle in
      let left_input := fst inputs in
      let right_i128 := snd inputs in
      let left_s64 := S64_from_u64 left_input in
      let? right_input := S64_from_signed right_i128 in
      let right_s128 := S128_from_i128 right_i128 in
      let product := S64_mul_trunc left_s64 right_s128 in
      let? lookup := Cycle_to_lookup_operands build_xlen cycle in
      let? lookup_output := Cycle_to_lookup_output build_xlen cycle in
      let rd_addr := fst (fst (rd_write cycle)) in
      let rs1_read_value := snd (rs1_read cycle) in
      let rs2_read_value := snd (rs2_read cycle) in
      let rd_write_value := snd (rd_write cycle) in
      let ram_addr := RAMAccess_address (ram_access cycle) in
      let ram_values := RAMAccess_values (ram_access cycle) in
      let? pc := get_pc preprocessing cycle in
      let? next_pc := match next_cycle with Some nc => get_pc preprocessing nc | None => Ok 0 end in
      let unexpanded_pc := ni_address norm in
      let next_unexpanded_pc :=
        match next_cycle with Some nc => ni_address (normalize (cycle_instruction nc)) | None => 0 end in
      let? imm := S64_from_signed (row_immediate flags_view (n_imm (ni_operands norm))) in
      let? next_is_noop :=
        match next_cycle with
        | Some nc => let? f := Instruction_circuit_flags (cycle_instruction nc) in Ok (f IsNoop)
        | None => Ok false
        end in
      let should_jump := flags_view Jump && negb next_is_noop in
      let should_branch := if flags_view Branch then lookup_output else 0 in
      let write_lookup_output_to_rd_addr := if flags_view WriteLookupOutputToRD then rd_addr else 0 in
      let write_pc_to_rd_addr := if flags_view Jump then rd_addr else 0 in
      Ok (mkRow SI left_input right_input product (fst lookup) (snd lookup) lookup_output rd_addr rs1_read_value
            rs2_read_value rd_write_value ram_addr (fst ram_values) (snd ram_values) pc next_pc unexpanded_pc
            next_unexpanded_pc imm flags_view next_is_noop should_jump should_branch
            write_lookup_output_to_rd_addr write_pc_to_rd_addr)
  end.

End FromTrace.

(** ** Flags *)

Lemma sequence_flags_exclusive l rem comp :
  flags_exclusive (fun f => flag_in l f) -> flags_exclusive (sequence_flags l rem comp).
Proof. intros []. split; done. Qed.

Ltac exclusive_case := first [apply sequence_flags_exclusive; split; reflexivity | split; reflexivity].

Lemma jolt_flags_exclusive rv i j rem comp : jolt_instruction rv i = Some j -> flags_exclusive (circuit_flags j rem comp).
Proof.
  intros Hj. destruct i as [| |op ?|op ?|op ?|op ?|op ?|op ?|op ?|op ?|op ?|op ?|? ?|? ? ? ?]; try discriminate Hj.
  all: try destruct op; cbn [jolt_instruction jolt_R jolt_I jolt_B] in Hj; try discriminate Hj;
    try (destruct rv; [|discriminate Hj]); try (injection Hj as <-; exclusive_case).
Qed.

(** The flags of every instruction are exclusive where the evaluators of the prover and the constraints
    assume it: one source per operand, one combination of the operands, a load or a store. *)
Theorem circuit_flags_exclusive `{B : Build} (i : Instruction) (f : Flags) (Hf : Instruction_circuit_flags i = Ok f) :
  flags_exclusive f.
Proof.
  unfold Instruction_circuit_flags in Hf. destruct i.
  1, 2: injection Hf as <-; split; reflexivity.
  all: (destruct (jolt_instruction feature_rv64 _) as [j|] eqn:Ej; [|discriminate Hf]); injection Hf as <-;
    by apply (jolt_flags_exclusive _ _ _ _ _ Ej).
Qed.

Lemma circuit_flags_exclusive_witness :
  flags_exclusive (circuit_flags SUB_jolt (Some 3) true).
Proof.
  apply (circuit_flags_exclusive (B := release_rv64) (InstrR SUB (mkInstr RAM_START_ADDRESS (mkFormatR 7 5 6) (Some 3) true))).
  reflexivity.
Defined.
