(* ===== verification/RowShape.v ===== *)
(** * Operands of a row

    For every instruction of the 64-bit prover the operands of a cycle
    ([to_instruction_inputs], [to_lookup_operands]) are the ones its circuit
    flags select: the part of a row that does not depend on execution. *)

From Stdlib Require Import ZArith Lia List Bool.
From stdpp Require Import base list.
From S2P Require Import Prelude Words Types Isa Trace LookupTables InstructionLookup InstructionEntries R1cs R1csRows.
Import ListNotations.
Local Open Scope Z_scope.
Local Open Scope rust_scope.

#[local] Opaque uninterleave_bits interleave_bits.

(** The operands the flags [fl] select. *)
Record selected (fl : Flags) (rs1v rs2v addr immv l r ll rl : Z) : Prop := {
  sel_left : l = (if fl LeftOperandIsRs1Value then rs1v else if fl LeftOperandIsPC then addr else 0);
  sel_right : r = (if fl RightOperandIsRs2Value then rs2v else if fl RightOperandIsImm then immv else 0);
  sel_left_lookup : ll = (if fl AddOperands || fl SubtractOperands || fl MultiplyOperands then 0 else l);
  sel_right_lookup : rl =
    (if fl AddOperands then l + r else if fl SubtractOperands then l - r + 2 ^ 64
     else if fl MultiplyOperands then l * r else if fl Advice then rl else r)
}.

(** The cycles whose operands the flags select: [VirtualChangeDivisorW] reads
    its registers as words, three instructions drop an immediate they are
    flagged to use, [VirtualPow2I] is flagged to use it in a sequence only, and the
    address of an alignment check is not negative. *)
Definition shape_supported (cy : Cycle) : bool :=
  match cycle_instruction cy with
  | InstrR VirtualChangeDivisorW _ => (rs1 cy <? 2 ^ 32) && (rs2 cy <? 2 ^ 31)
  | InstrI (VirtualMove | VirtualPow2 | VirtualShiftRightBitmask) _ => imm cy =? 0
  | InstrJ VirtualPow2I i => match inline_sequence_remaining i with Some _ => true | None => imm cy =? 0 end
  | InstrAlign _ _ => 0 <=? rs1 cy + imm cy
  | _ => true
  end.

Definition has_shape (j : JoltInstruction) (cy : Cycle) : Prop :=
  let norm := normalize (cycle_instruction cy) in
  exists l r ll rl,
    to_instruction_inputs (query j) Bit64 cy = Ok (l, r) /\ to_lookup_operands (query j) Bit64 cy = Ok (ll, rl) /\
    selected (circuit_flags j (ni_inline_sequence_remaining norm) (ni_is_compressed norm))
      (rs1 cy) (rs2 cy) (instruction_address cy) (imm cy) l r ll rl /\
    is_u64 l /\ Z.abs r < 2 ^ 64 /\ is_u64 ll /\ 0 <= rl < 2 ^ 128.

Lemma mul_u128 a b : is_u64 a -> is_u64 b -> 0 <= a * b < 2 ^ 128.
Proof. unfold is_u64. nia. Qed.

(** Evaluate the flags of a known instruction. *)
Ltac flag_ifs :=
  repeat match goal with
  | |- context [ circuit_flags ?j ?r ?c ?f ] =>
      let v := eval vm_compute in (circuit_flags j r c f) in
      lazymatch v with true => idtac | false => idtac end; change (circuit_flags j r c f) with v
  end; cbv iota beta; cbn [orb andb negb].

(** Evaluate the operands of one instruction. *)
Ltac shape_case :=
  eexists _, _, _, _; split; [reflexivity|]; split; [reflexivity|]; unfold fst, snd;
  split; [split; flag_ifs; try reflexivity | split_and!].

(** Arithmetic on the columns. *)
Ltac columns := cbn [WIDTH] in *; unfold is_u64, is_i64, as_u64, as_u128, as_i64, as_u32, as_i32 in *; lia.

Section Shape.
Context (rv : bool) (cy : Cycle) (Hfit : operands_fit Bit64 cy).

Lemma rs1_u64 : is_u64 (rs1 cy). Proof. apply (fit_rs1 _ _ Hfit). Qed.
Lemma rs2_u64 : is_u64 (rs2 cy). Proof. apply (fit_rs2 _ _ Hfit). Qed.
Lemma address_u64 : is_u64 (instruction_address cy). Proof. apply (fit_address _ _ Hfit). Qed.
Lemma advice_u64 : is_u64 (advice_value cy). Proof. apply (fit_advice _ _ Hfit). Qed.

Lemma R_shape op i j : cycle_instruction cy = InstrR op i -> shape_supported cy = true -> jolt_R rv op = Some j -> has_shape j cy.
Proof.
  intros Ei Hs Hj. pose proof rs1_u64 as H1. pose proof rs2_u64 as H2. pose proof (mul_u128 _ _ H1 H2) as Hm.
  unfold shape_supported in Hs. rewrite Ei in Hs. pose proof (as_u64_small _ H2) as E2.
  destruct op; cbn [jolt_R] in Hj; try discriminate Hj; try (destruct rv; [|discriminate Hj]); injection Hj as <-.
  all: shape_case; rewrite ?E2; try done; try columns.
Qed.

Lemma I_shape op i j : cycle_instruction cy = InstrI op i -> shape_supported cy = true -> jolt_I rv op = Some j -> has_shape j cy.
Proof.
  intros Ei Hs Hj. pose proof rs1_u64 as H1. pose proof (fit_imm _ _ Hfit) as H2. rewrite Ei in H2.
  pose proof (mul_u128 _ _ H1 H2) as Hm. unfold shape_supported in Hs. rewrite Ei in Hs. pose proof (as_u64_small _ H2) as E2.
  destruct op; cbn [jolt_I] in Hj; try discriminate Hj; try (destruct rv; [|discriminate Hj]); injection Hj as <-.
  all: try (unfold has_shape; cbn [VirtualZeroExtendWord_jolt query combined to_lookup_operands]; 
            unfold checked_add_operands, rs1_input; cbn [res_bind fst snd]; rewrite (proj2 (Z.leb_le _ _)) by columns).
  all: shape_case; rewrite ?E2; try done; try columns.
Qed.

Lemma B_shape op : has_shape (jolt_B op) cy.
Proof.
  pose proof rs1_u64 as H1. pose proof rs2_u64 as H2. pose proof (mul_u128 _ _ H1 H2) as Hm.
  pose proof (as_u64_small _ H2) as E2. destruct op; shape_case; rewrite ?E2; try done; try columns.
Qed.

Lemma J_shape op i j : cycle_instruction cy = InstrJ op i -> shape_supported cy = true ->
  jolt_instruction rv (InstrJ op i) = Some j -> has_shape j cy.
Proof.
  intros Ei Hs Hj. pose proof address_u64 as H3. pose proof (fit_imm _ _ Hfit) as Hi. rewrite Ei in Hi.
  pose proof (as_u64_small _ Hi) as E2. unfold shape_supported in Hs. rewrite Ei in Hs.
  destruct op; cbn in Hj; try (destruct rv; [|discriminate Hj]); injection Hj as <-.
  2: { unfold has_shape. rewrite Ei. cbn [normalize instr_to_normalized ni_inline_sequence_remaining].
       destruct (inline_sequence_remaining i); shape_case; rewrite ?E2; try done; try columns. }
  all: shape_case; rewrite ?E2; try done; try columns.
Qed.

Lemma instruction_shape j : jolt_instruction rv (cycle_instruction cy) = Some j -> shape_supported cy = true -> has_shape j cy.
Proof.
  intros Hj Hs. pose proof rs1_u64 as H1. pose proof rs2_u64 as H2. pose proof address_u64 as H3. pose proof advice_u64 as H4.
  pose proof (fit_imm _ _ Hfit) as Hi. pose proof (as_u64_small _ H2) as E2.
  destruct (cycle_instruction cy) as [| |op i|op i|op i|op i|op i|op i|op i|op i|op i|op i|i a|? ? ? ?] eqn:Ei; try discriminate Hj.
  - by apply (R_shape op i).
  - by apply (I_shape op i).
  - destruct op; try discriminate Hj. destruct rv; [|discriminate Hj]. injection Hj as <-. shape_case; columns.
  - destruct op; try discriminate Hj; [destruct rv; [|discriminate Hj]|]; injection Hj as <-; shape_case; columns.
  - injection Hj as <-. apply B_shape.
  - by apply (J_shape op i).
  - pose proof (as_u64_small _ Hi) as Ei2. destruct op; injection Hj as <-; shape_case; rewrite ?Ei2; try done; try columns.
  - pose proof (as_u64_small _ Hi) as Ei2. destruct op; cbn in Hj; try (destruct rv; [|discriminate Hj]); injection Hj as <-;
      shape_case; rewrite ?Ei2; try done; try columns.
  - destruct op; injection Hj as <-; shape_case; rewrite ?E2; try done; try columns.
  - unfold shape_supported in Hs. rewrite Ei in Hs.
    destruct op; injection Hj as <-; shape_case; try done; try columns.
  - injection Hj as <-. shape_case; unfold advice_output; try done; columns.
Qed.

End Shape.
