(* ===== verification/RowExec.v ===== *)
(** * Execution and lookup outputs

    The value an instruction writes ([jolt-tracer], [exec]) is the output the
    prover looks up for its cycle ([jolt-core], [to_lookup_output]), on the
    64-bit machine.  The cycle itself is the one recorded by [RISCVTrace::trace]. *)

From Stdlib Require Import ZArith Lia List Bool.
From stdpp Require Import base list.
From S2P Require Import Prelude Words Memory Types Device Mmu DramAccess Isa Decode Allocator Cpu Exec Assembler.
From S2P Require Import Sequences Trace Step Refine Field LookupTables TableMl BitOps TableMle TableMleShift.
From S2P Require Import InstructionLookup InstructionEntries.
Import ListNotations.
Local Open Scope Z_scope.
Local Open Scope rust_scope.

#[local] Opaque uninterleave_bits interleave_bits.

(** ** Right shifts by a bitmask *)

(** State of the loop after [k] steps for [y = 2^64 - 2^s]. *)
Definition shift_state (x s k : Z) (st : Z * Z * LookupBits * LookupBits) : Prop :=
  let '(entry, sign_extension, xb, yb) := st in
  xb = mkLookupBits (x mod 2 ^ (64 - k)) (64 - k) /\ yb = mkLookupBits ((2 ^ 64 - 2 ^ s) mod 2 ^ (64 - k)) (64 - k) /\
  entry = Z.shiftr x (64 - Z.min k (64 - s)) /\
  sign_extension = (if 64 - s <? k then 2 ^ k - 2 ^ (64 - s) else 0).

Lemma mask_testbit s j : 0 <= s < 64 -> 0 <= j < 64 -> Z.testbit (2 ^ 64 - 2 ^ s) j = (s <=? j).
Proof.
  intros Hs Hj. replace (2 ^ 64 - 2 ^ s) with (Z.shiftl (Z.ones (64 - s)) s).
  - rewrite tb_shiftl, tb_ones by lia. destruct (Z.leb_spec s j); lia.
  - rewrite Z.shiftl_mul_pow2, Z.ones_equiv by lia. rewrite <- Z.sub_1_r, Z.mul_sub_distr_r, <- Z.pow_add_r by lia. f_equal; [f_equal|]; lia.
Qed.

Lemma shift_state_step x s k st : 0 <= s < 64 -> 0 <= k < 64 ->
  shift_state x s k st -> shift_state x s (k + 1) (shift_step k st).
Proof.
  intros Hs Hk. destruct st as [[[entry se] xb] yb]. intros (-> & -> & -> & ->).
  unfold shift_step. rewrite !pop_msb_bit by lia. unfold shift_state.
  replace (64 - (k + 1)) with (64 - k - 1) by lia. split; [done|]. split; [done|].
  rewrite mask_testbit by lia. split.
  - destruct (Z.leb_spec s (64 - k - 1)); cbn [Z.b2z].
    + rewrite !Z.min_l by lia. replace (64 - (k + 1)) with (64 - 1 - k) by lia. rewrite (top_bits_step x 64 k) by lia.
      replace (64 - k - 1) with (64 - 1 - k) by lia. lia.
    + rewrite !Z.min_r by lia. lia.
  - destruct (Z.eqb_spec k 0) as [->|Hk0].
    + replace (64 - s <? 0) with false by lia. replace (64 - s <? 0 + 1) with false by lia. done.
    + destruct (Z.leb_spec s (64 - k - 1)); cbn [Z.b2z].
      * replace (64 - s <? k) with false by lia. replace (64 - s <? k + 1) with false by lia. lia.
      * replace (64 - s <? k + 1) with true by lia. rewrite Z.add_1_r, Z.pow_succ_r by lia.
        destruct (Z.ltb_spec (64 - s) k); [lia|]. replace (64 - s) with k by lia. lia.
Qed.

Lemma shift_loop_mask x s : is_u64 x -> 0 <= s < 64 ->
  exists xb yb, shift_loop Bit64 x (2 ^ 64 - 2 ^ s) = (Z.shiftr x s, 2 ^ 64 - 2 ^ (64 - s), xb, yb).
Proof.
  intros Hx Hs. assert (H : shift_state x s (0 + Z.of_nat (Z.to_nat (WIDTH Bit64))) (shift_loop Bit64 x (2 ^ 64 - 2 ^ s))).
  { unfold shift_loop. apply (for_range_inv (shift_state x s)).
    - assert (0 < 2 ^ s) by (apply Z.pow_pos_nonneg; lia). assert (2 ^ s <= 2 ^ 63) by (apply Z.pow_le_mono_r; lia).
      unfold shift_state, LookupBits_new. cbn [WIDTH Z.eqb Pos.eqb]. rewrite Z.sub_0_r, Z.min_l, Z.sub_0_r by lia.
      replace (64 - s <? 0) with false by lia. unfold is_u64 in Hx.
      split_and!; try done; try (f_equal; unfold as_u128; rewrite ?Z.mod_small; lia).
      symmetry. apply Z.shiftr_eq_0; [lia|]. destruct (Z.eq_dec x 0) as [->|]; [done|]. apply Z.log2_lt_pow2; lia.
    - intros k st Hk. apply shift_state_step; [lia|]. cbn in Hk. lia. }
  change (0 + Z.of_nat (Z.to_nat (WIDTH Bit64))) with 64 in H. destruct (shift_loop _ _ _) as [[[e se] xb] yb].
  destruct H as (_ & _ & -> & ->). exists xb, yb. do 3 f_equal.
  - f_equal. lia.
  - destruct (Z.ltb_spec (64 - s) 64); [done|]. replace s with 0 by lia. done.
Qed.

Lemma srl_entry_mask x s : is_u64 x -> 0 <= s < 64 -> srl_entry Bit64 x (2 ^ 64 - 2 ^ s) = Z.shiftr x s.
Proof. intros Hx Hs. unfold srl_entry. by destruct (shift_loop_mask x s Hx Hs) as (xb & yb & ->). Qed.

Lemma sra_entry_mask a s : is_i64 a -> 0 <= s < 64 -> sra_entry Bit64 (as_u64 a) (2 ^ 64 - 2 ^ s) = as_u64 (Z.shiftr a s).
Proof.
  intros Ha Hs. unfold sra_entry. destruct (shift_loop_mask (as_u64 a) s (as_u64_range a) Hs) as (xb & yb & ->).
  unfold no_leading_ones, LookupBits_new. cbn [lb_bits lb_len WIDTH Z.ltb Z.compare Pos.compare Pos.compare_cont].
  rewrite shr_land_1, tb_mod, testbit_top by lia. change (64 - 1 <? 64) with true. cbn [andb]. rewrite !Z.shiftr_div_pow2 by lia.
  assert (E : 2 ^ 64 = 2 ^ (64 - s) * 2 ^ s) by (rewrite <- Z.pow_add_r by lia; f_equal; lia).
  assert (Hp : 0 < 2 ^ s) by (apply Z.pow_pos_nonneg; lia). assert (Hq : 0 < 2 ^ (64 - s)) by (apply Z.pow_pos_nonneg; lia).
  unfold is_i64 in Ha. destruct (Z.ltb_spec a 0) as [Hneg|Hpos].
  - replace (as_u64 a) with (a + 2 ^ 64) by (unfold as_u64; lia).
    replace (2 ^ (64 - 1) <=? (a + 2 ^ 64) mod 2 ^ 64) with true by (symmetry; apply Z.leb_le; lia). cbn [Z.b2z Z.eqb].
    assert (-9223372036854775808 <= a / 2 ^ s < 0)
      by (split; [apply Z.div_le_lower_bound; nia | apply Z.div_lt_upper_bound; lia]).
    rewrite E at 1. rewrite Z.div_add by lia. generalize dependent (a / 2 ^ s). intros q Hq2. clear E. unfold as_u64. lia.
  - replace (as_u64 a) with a by (unfold as_u64; lia).
    replace (2 ^ (64 - 1) <=? a mod 2 ^ 64) with false by (symmetry; apply Z.leb_gt; lia). cbn [Z.b2z Z.eqb].
    assert (0 <= a / 2 ^ s <= a) by (split; [apply Z.div_pos; lia | apply Z.div_le_upper_bound; nia]).
    generalize dependent (a / 2 ^ s). intros q Hq2. clear E. unfold as_u64. lia.
Qed.

(** ** Words *)

Lemma as_u64_land a b : as_u64 (Z.land a b) = Z.land (as_u64 a) (as_u64 b).
Proof. bitblast. Qed.
Lemma as_u64_lor a b : as_u64 (Z.lor a b) = Z.lor (as_u64 a) (as_u64 b).
Proof. bitblast. Qed.
Lemma as_u64_lxor a b : as_u64 (Z.lxor a b) = Z.lxor (as_u64 a) (as_u64 b).
Proof. bitblast. Qed.
Lemma as_u64_lnot a : as_u64 (Z.lnot (as_u64 a)) = as_u64 (Z.lnot a).
Proof. bitblast. Qed.
Lemma as_u64_u64 a : as_u64 (as_u64 a) = as_u64 a.
Proof. apply as_u64_small, as_u64_range. Qed.

Lemma rotate_right_agree z n : as_u64 (rotate_right_i64 z n) = rotate_right_u64 (as_u64 z) n.
Proof. unfold rotate_right_i64, rotate_right_u64. apply as_u64_i64. Qed.

Lemma rotate_right_u32_u64 z n : as_u64 (rotate_right_u32 z n) = rotate_right_u32 z n.
Proof. apply as_u64_small. unfold rotate_right_u32. pose proof (as_u32_range (Z.lor (Z.shiftr (as_u32 z) (n mod 32)) (Z.shiftl (as_u32 z) ((32 - n mod 32) mod 32)))) as H. unfold is_u32, is_u64 in *. lia. Qed.

Lemma bool_agree b : as_u64 (bool_i64 b) = bool_u64 b.
Proof. by destruct b. Qed.

Lemma as_i32_i32 a : as_i32 (as_i32 a) = as_i32 a.
Proof. apply as_i32_small, as_i32_range. Qed.

Create Rewrite HintDb word64.
#[export] Hint Rewrite as_u64_land as_u64_lor as_u64_lxor as_u64_lnot as_u64_u64 as_i64_u64 as_u64_i64 as_u32_u64 as_i32_u32 as_i32_u64
  as_i32_i32 rotate_right_agree rotate_right_u32_u64 bool_agree : word64.

Lemma mulhu_agree a b : as_u64 (Z.shiftr (as_u128 (as_u64 a * as_u64 b)) 64) = as_u64 (Z.shiftr (as_u64 a * as_u64 b) 64).
Proof.
  f_equal. f_equal. unfold as_u128. apply Z.mod_small, mul_u64_bound; apply as_u64_range.
Qed.

Lemma change_divisor_agree a b : is_i64 a -> is_i64 b -> negb ((as_u64 a =? 2 ^ 63) && (as_u64 b =? 2 ^ 64 - 1)) = true ->
  as_u64 (if (a =? i64_MIN) && (b =? -1) then 1 else b) =
  (if (as_i64 (as_u64 a) =? i64_MIN) && (as_u64 b =? -1) then 1 else as_u64 (as_u64 b)).
Proof.
  intros Ha Hb Hs. rewrite as_i64_u64, (as_i64_small a), as_u64_u64 by done. pose proof (as_u64_range b) as Hr. unfold is_u64, is_i64 in *.
  rewrite (proj2 (Z.eqb_neq (as_u64 b) (-1))) by lia. rewrite andb_false_r. apply negb_true_iff, andb_false_iff in Hs.
  assert (E : (a =? i64_MIN) && (b =? -1) = false); [|by rewrite E].
  unfold i64_MIN, as_u64 in *. apply andb_false_iff. destruct Hs as [Hs%Z.eqb_neq|Hs%Z.eqb_neq];
    [left|right]; apply Z.eqb_neq; lia.
Qed.

Lemma as_u128_u64 a : is_u64 a -> as_u128 a = a.
Proof. unfold is_u64, as_u128. lia. Qed.

Lemma if_ok_inv {A} (b : bool) (p q v : A) : (if b then Ok p else Ok q) = Ok v -> v = (if b then p else q).
Proof. destruct b; by intros [= ->]. Qed.

Lemma as_u64_add_l a b : as_u64 (as_u64 a + b) = as_u64 (a + b).
Proof. unfold as_u64. lia. Qed.
Lemma as_u64_add_r a b : as_u64 (a + as_u64 b) = as_u64 (a + b).
Proof. unfold as_u64. lia. Qed.
Lemma as_u64_sub_l a b : as_u64 (as_u64 a - b) = as_u64 (a - b).
Proof. unfold as_u64. lia. Qed.
Lemma as_u64_sub_r a b : as_u64 (a - as_u64 b) = as_u64 (a - b).
Proof. unfold as_u64. lia. Qed.
#[export] Hint Rewrite as_u64_add_l as_u64_add_r as_u64_sub_l as_u64_sub_r mulhu_agree : word64.

Lemma pow2_agree n m : 0 < m <= 64 -> 2 ^ (n mod m) = as_u64 (Z.shiftl 1 (n mod m)).
Proof.
  intros Hm. pose proof (Z.mod_pos_bound n m) as Hn. rewrite Z.shiftl_1_l. symmetry. apply as_u64_small. unfold is_u64.
  change 18446744073709551616 with (2 ^ 64). split; [apply Z.pow_nonneg; lia|]. apply Z.pow_lt_mono_r; lia.
Qed.

Lemma movsign_agree u : (if negb (Z.land u (2 ^ 63) =? 0) then 18446744073709551615 else 0) =
  as_u64 (if negb (Z.land u SIGN_BIT_64 =? 0) then as_i64 ALL_ONES_64 else 0).
Proof. change SIGN_BIT_64 with (2 ^ 63). by destruct (negb _). Qed.

Lemma bitmask_agree u : 
  as_u64 (Z.shiftl (2 ^ (64 - u mod 64) - 1) (u mod 64)) =
  as_u64 (as_u128 (Z.shiftl (as_u128 (Z.shiftl 1 (64 - u mod 64)) - 1) (u mod 64))).
Proof.
  pose proof (shift_bitmask_u128 (u mod 64)) as H. rewrite <- (as_u64_i64 (as_u128 _)), H by (apply Z.mod_pos_bound; lia).
  unfold shift_bitmask. by rewrite as_u64_i64, Z.shiftl_1_l.
Qed.

Lemma sign_extend_word_agree a :
  (if Z.land (Z.shiftr (Z.land (as_u64 a) (2 ^ 32 - 1)) 31) 1 =? 1
   then Z.lor (Z.land (as_u64 a) (2 ^ 32 - 1)) (as_u64 (Z.shiftl (2 ^ 32 - 1) 32))
   else Z.land (as_u64 a) (2 ^ 32 - 1)) = as_u64 (as_i32 a).
Proof.
  assert (E : Z.land (as_u64 a) (2 ^ 32 - 1) = as_u32 a).
  { change (2 ^ 32 - 1) with (Z.ones 32). rewrite Z.land_ones by lia. unfold as_u32, as_u64. lia. }
  rewrite E, shr_land_1, tb_u32 by lia. change (31 <? 32) with true. cbn [andb].
  change (2 ^ 32 - 1) with 4294967295. destruct (Z.testbit a 31) eqn:Eb; cbn [Z.b2z Z.eqb Pos.eqb]; bitblast; discriminate.
Qed.

Lemma swap_bytes_range z : is_u32 (swap_bytes_u32 z).
Proof.
  replace (swap_bytes_u32 z) with (as_u32 (swap_bytes_u32 z)); [apply as_u32_range|]. unfold swap_bytes_u32, byte_at. bitblast.
Qed.

Lemma rev8w_range u : is_u64 (rev8w u).
Proof.
  unfold rev8w. pose proof (swap_bytes_range (as_u32 u)) as H1. pose proof (swap_bytes_range (as_u32 (Z.shiftr u 32))) as H2.
  rewrite Z.shiftl_mul_pow2 by lia. unfold is_u32, is_u64, as_u64 in *. lia.
Qed.

Lemma bitmask_shift v : is_bitmask Bit64 64 v = true -> 0 <= trailing_zeros 64 v < 64 /\ v = 2 ^ 64 - 2 ^ trailing_zeros 64 v.
Proof.
  unfold is_bitmask. cbn [WIDTH]. intros [Hs%Z.ltb_lt Hv%Z.eqb_eq]%andb_prop. split; [|done]. split; [|done].
  unfold trailing_zeros. destruct v; try apply pos_ctz_nonneg; lia.
Qed.

Lemma ctz_neg_pow2 n : trailing_zeros 64 (- 2 ^ Z.of_nat n) = Z.of_nat n.
Proof.
  induction n as [|n IH]; [done|]. rewrite Nat2Z.inj_succ, Z.pow_succ_r by lia.
  assert (0 < 2 ^ Z.of_nat n) by (apply Z.pow_pos_nonneg; lia). destruct (2 ^ Z.of_nat n) as [|p|p] eqn:E; try lia.
  change (pos_ctz p = Z.of_nat n) in IH. change (1 + pos_ctz p = Z.succ (Z.of_nat n)). lia.
Qed.

(** A mask held in a register encodes the same shift. *)
Lemma ctz_register b : is_i64 b -> is_bitmask Bit64 64 (as_u64 b) = true -> trailing_zeros 64 b = trailing_zeros 64 (as_u64 b).
Proof.
  intros Hb [Hs Em]%bitmask_shift. set (s := trailing_zeros 64 (as_u64 b)) in *. clearbody s.
  assert (0 < 2 ^ s) by (apply Z.pow_pos_nonneg; lia). assert (2 ^ s <= 2 ^ 63) by (apply Z.pow_le_mono_r; lia).
  replace b with (- 2 ^ Z.of_nat (Z.to_nat s)) by (rewrite Z2Nat.id by lia; unfold as_u64, is_i64 in *; lia).
  rewrite ctz_neg_pow2. lia.
Qed.

Lemma srl_agree a y : is_bitmask Bit64 64 y = true ->
  srl_entry Bit64 (as_u64 a) y = as_u64 (as_i64 (wrapping_shr_u64 (as_u64 a) (trailing_zeros 64 y))).
Proof.
  intros [Hs Em]%bitmask_shift. unfold wrapping_shr_u64. rewrite Z.mod_small, as_u64_i64 by lia.
  rewrite Em at 1. rewrite srl_entry_mask by (done || apply as_u64_range). symmetry. apply as_u64_small.
  pose proof (as_u64_range a) as Ha. unfold is_u64 in *. rewrite Z.shiftr_div_pow2 by lia.
  assert (0 < 2 ^ trailing_zeros 64 y) by (apply Z.pow_pos_nonneg; lia).
  split; [apply Z.div_pos; lia|]. apply Z.div_lt_upper_bound; nia.
Qed.

Lemma sra_agree a y : is_i64 a -> is_bitmask Bit64 64 y = true ->
  sra_entry Bit64 (as_u64 a) y = as_u64 (wrapping_shr_i64 a (trailing_zeros 64 y)).
Proof.
  intros Ha [Hs Em]%bitmask_shift. unfold wrapping_shr_i64. rewrite Z.mod_small by lia. rewrite Em at 1.
  by rewrite sra_entry_mask.
Qed.

(** ** Recorded cycles *)

Section Recorded.
Context `{B : Build} (c : Cpu) (Hok : cpu_ok64 c).

(** What a traced leaf records, on the 64-bit machine. *)
Record recorded (i : Instruction) (cy : Cycle) (c' : Cpu) : Prop := {
  rec_instr : cycle_instruction cy = i;
  rec_exec : execute i c = Ok (ram_access cy, c');
  rec_rs1 : rs1 cy = as_u64 (x c (n_rs1 (ni_operands (normalize i))));
  rec_rs2 : rs2 cy = as_u64 (x c (n_rs2 (ni_operands (normalize i))));
  rec_rd : match i with
           | InstrS _ _ | InstrB _ _ | InstrAlign _ _ | INLINE _ _ _ _ => True
           | _ => xlen c' = Bit64 -> snd (rd_write cy) = as_u64 (x c' (n_rd (ni_operands (normalize i))))
           end
}.

Lemma captured_64 c1 r v : xlen c1 = Bit64 -> captured c1 r = Ok v -> v = as_u64 (x c1 r).
Proof. unfold captured. intros E. destruct (reg_ok r); intros Hv; [|discriminate Hv]. injection Hv as <-. by rewrite E. Qed.

Lemma as_u64_x0 : as_u64 (x c 0) = 0.
Proof. by rewrite (ok_x0 c Hok). Qed.

Lemma default_trace_recorded i cy c' : default_trace i c = Ok ([cy], c') -> recorded i cy c'.
Proof.
  intros Ht. pose proof (ok_xlen c Hok) as Hx. pose proof as_u64_x0 as H0.
  unfold default_trace in Ht. apply bind_inv in Ht as (pre & c1 & Hpre & Ht). apply bind_inv in Ht as (ram & c2 & Hex & Ht).
  apply bind_inv in Ht as (post & c3 & Hpost & Ht). unfold asks, lift in Hpre, Hpost.
  destruct (capture_pre i c) as [p| |] eqn:Ep; try discriminate Hpre. injection Hpre as -> <-.
  destruct (capture_post i pre c2) as [q| |] eqn:Eq; try discriminate Hpost. injection Hpost as -> <-.
  injection Ht as <- <-. unfold rs1, rs2, rd_write. cbn [cycle_instruction register_state ram_access].
  destruct i; try discriminate Ep; cbn in Ep, Eq;
    repeat match goal with
    | H : res_bind (captured ?k ?r) _ = Ok _ |- _ =>
        let E := fresh "E" in destruct (captured k r) eqn:E; cbn in H; try discriminate H
    end; injection Ep as <-; injection Eq as <-; split; cbn; try done; try intros Hx';
    repeat match goal with E : captured _ _ = Ok _ |- _ => apply captured_64 in E; [|done] end; congruence.
Qed.

End Recorded.

(** ** Effects *)

(** The result of a register instruction and the output looked up for it. *)
Definition effect_ok (j : JoltInstruction) (cy : Cycle) (c c' : Cpu) (rd : Z) : Prop :=
  exists v, c' = set_x (zupd (x c) rd v) c /\ to_lookup_output (query j) Bit64 cy = Ok (as_u64 v) /\ ram_access cy = RANoOp.

(** The cycles whose output is the value written: shifts take a bitmask, and one
    pair of operands of [VirtualChangeDivisor] is excluded. *)
Definition output_supported (cy : Cycle) : bool :=
  match cycle_instruction cy with
  | InstrR VirtualChangeDivisor _ => negb ((rs1 cy =? 2 ^ 63) && (rs2 cy =? 2 ^ 64 - 1))
  | InstrVI (VirtualSRAI | VirtualSRLI) _ => is_bitmask Bit64 64 (imm cy)
  | InstrVR _ _ => is_bitmask Bit64 64 (rs2 cy)
  | _ => true
  end.

Section Effects.
Context `{B : Build} (c : Cpu) (Hok : cpu_ok64 c).

(** Invert an execution that ends with a register write. *)
Ltac run_exec H :=
  unfold no_ram, bind, get_x, asks, lift, put_x, gets in H;
  repeat match type of H with
  | context [ if reg_ok ?r then _ else _ ] => destruct (reg_ok r)
  | context [ match ?f _ _ with Ok _ => _ | _ => _ end ] => is_var f; let v := fresh "v" in destruct (f _ _) as [v| |] eqn:?
  | context [ match ?f _ _ _ with Ok _ => _ | _ => _ end ] => is_var f; let v := fresh "v" in destruct (f _ _ _) as [v| |] eqn:?
  end; cbn in H; try discriminate H; injection H as <- <-; eauto.

Lemma rr_exec_inv f i ra c' : no_ram (rr_exec f i) c = Ok (ra, c') ->
  exists v, f c (x c (r_rs1 (operands i))) (x c (r_rs2 (operands i))) = Ok v /\ ra = RANoOp /\
    c' = set_x (zupd (x c) (r_rd (operands i)) v) c.
Proof. unfold rr_exec. intros H. run_exec H. Qed.

Lemma ri_exec_inv f i ra c' : no_ram (ri_exec f i) c = Ok (ra, c') ->
  exists v, f c (x c (i_rs1 (operands i))) (i_imm (operands i)) = Ok v /\ ra = RANoOp /\
    c' = set_x (zupd (x c) (i_rd (operands i)) v) c.
Proof. unfold ri_exec. intros H. run_exec H. Qed.

Lemma rj_exec_inv f i ra c' : no_ram (rj_exec f i) c = Ok (ra, c') ->
  exists v, f c (j_imm (operands i)) = Ok v /\ ra = RANoOp /\ c' = set_x (zupd (x c) (j_rd (operands i)) v) c.
Proof.
  unfold rj_exec. intros H. run_exec H.
Qed.

Lemma rvi_exec_inv f i ra c' : no_ram (rvi_exec f i) c = Ok (ra, c') ->
  exists v, f c (x c (vi_rs1 (operands i))) (vi_imm (operands i)) = Ok v /\ ra = RANoOp /\
    c' = set_x (zupd (x c) (vi_rd (operands i)) v) c.
Proof. unfold rvi_exec. intros H. run_exec H. Qed.

Lemma rvr_exec_inv f i ra c' : no_ram (rvr_exec f i) c = Ok (ra, c') ->
  exists v, f c (x c (vr_rs1 (operands i))) (x c (vr_rs2 (operands i))) = Ok v /\ ra = RANoOp /\
    c' = set_x (zupd (x c) (vr_rd (operands i)) v) c.
Proof. unfold rvr_exec. intros H. run_exec H. Qed.

Lemma xlen_64 : xlen c = Bit64. Proof. apply (ok_xlen c Hok). Qed.
Lemma unsigned_64 v : unsigned_data c v = as_u64 v. Proof. apply unsigned_data_64, (ok_mask c Hok). Qed.
Lemma sign_extend_64 v : sign_extend c v = v. Proof. unfold sign_extend. by rewrite xlen_64. Qed.

Lemma R_effect op i j cy c' : recorded c (InstrR op i) cy c' -> jolt_R true op = Some j -> output_supported cy = true ->
  effect_ok j cy c c' (r_rd (operands i)).
Proof.
  intros [Ei He H1 H2 _] Hj Hs. cbn in H1, H2. unfold output_supported in Hs. rewrite Ei, ?H1, ?H2 in Hs.
  pose proof (ok_x c Hok (r_rs1 (operands i))) as Ha. pose proof (ok_x c Hok (r_rs2 (operands i))) as Hb.
  destruct op; try discriminate Hj; injection Hj as <-; cbn [execute exec_R] in He;
    apply rr_exec_inv in He as (v & Hv & Hra & ->); rewrite ?xlen_64, ?sign_extend_64, ?unsigned_64 in Hv; cbv zeta in Hv; first [injection Hv as <- | apply if_ok_inv in Hv as ->].
  all: eexists; split; [reflexivity|]; split; [|exact Hra]; clear Hra; cbn; rewrite H1, H2; f_equal;
    revert Ha Hb Hs; generalize (x c (r_rs1 (operands i))) (x c (r_rs2 (operands i))); intros a b Ha Hb Hs.
  all: autorewrite with word64; rewrite ?(as_i64_small a Ha), ?(as_i64_small b Hb); try done.
  - rewrite change_divisor_agree by done. by autorewrite with word64; rewrite (as_i64_small a Ha).
  - by destruct (_ && _).
Qed.

Lemma I_effect op i j cy c' : recorded c (InstrI op i) cy c' -> jolt_I true op = Some j -> is_u64 (i_imm (operands i)) ->
  match op with JALR | ECALL | FENCE | VirtualLW => True | _ => effect_ok j cy c c' (i_rd (operands i)) end.
Proof.
  intros [Ei He H1 _ _] Hj Hi. cbn in H1. assert (H2 : imm cy = i_imm (operands i)) by (unfold imm; by rewrite Ei).
  pose proof (ok_x c Hok (i_rs1 (operands i))) as Ha.
  destruct op; try discriminate Hj; try exact I; injection Hj as <-; cbn [execute exec_I] in He;
    apply ri_exec_inv in He as (v & Hv & Hra & ->); unfold normalize_imm in Hv;
    rewrite ?xlen_64, ?sign_extend_64, ?unsigned_64 in Hv; cbv zeta in Hv; injection Hv as <-.
  all: eexists; split; [reflexivity|]; split; [|exact Hra]; clear Hra; cbn;
    unfold checked_add_operands, operand_index, rs1_input; cbn [res_bind fst snd]; rewrite ?H1, ?H2; f_equal;
    revert Ha Hi; generalize (x c (i_rs1 (operands i))) (i_imm (operands i)); intros a b Ha Hi.
  all: autorewrite with word64; rewrite ?(as_i64_small a Ha), ?(as_u64_small b Hi); try done.
  - unfold as_u64, as_i64. lia.
  - apply movsign_agree.
  - rewrite Z.add_0_r. by apply pow2_agree.
  - rewrite Z.add_0_r. by apply pow2_agree.
  - symmetry. apply as_u64_small, rev8w_range.
  - rewrite Z.add_0_r. change 63 with (Z.ones 6). rewrite land_mod by lia. apply bitmask_agree.
  - rewrite Z.add_0_r, sign_extend_word. apply sign_extend_word_agree.
  - rewrite Z.add_0_r. rewrite (proj2 (Z.leb_le _ _)) by apply as_u64_range. cbn [res_bind snd]. by rewrite as_u64_u64.
Qed.

Lemma VI_effect op i j cy c' : feature_rv64 = true -> recorded c (InstrVI op i) cy c' ->
  jolt_instruction true (InstrVI op i) = Some j -> is_u64 (vi_imm (operands i)) -> output_supported cy = true ->
  effect_ok j cy c c' (vi_rd (operands i)).
Proof.
  intros Hrv [Ei He H1 _ _] Hj Hi Hs. cbn in H1. assert (H2 : imm cy = vi_imm (operands i)) by (unfold imm; by rewrite Ei).
  unfold output_supported in Hs. rewrite Ei, ?H2 in Hs.
  pose proof (ok_x c Hok (vi_rs1 (operands i))) as Ha. pose proof (as_u64_small _ Hi) as Eu.
  pose proof (as_u128_u64 _ Hi) as E128.
  destruct op; injection Hj as <-; cbn [execute exec_VI] in He;
    apply rvi_exec_inv in He as (v & Hv & Hra & ->); cbv zeta in Hv;
    rewrite ?xlen_64, ?sign_extend_64, ?unsigned_64 in Hv; injection Hv as <-.
  all: eexists; split; [reflexivity|]; split; [|exact Hra]; clear Hra; cbn; rewrite ?H1, ?H2, ?Eu; f_equal.
  - by autorewrite with word64.
  - unfold XLEN. rewrite Hrv. by autorewrite with word64.
  - by rewrite E128, sra_agree.
  - unfold srl_output. by rewrite E128, srl_agree.
Qed.

Lemma VR_effect op i j cy c' : recorded c (InstrVR op i) cy c' -> jolt_instruction true (InstrVR op i) = Some j ->
  output_supported cy = true -> effect_ok j cy c c' (vr_rd (operands i)).
Proof.
  intros [Ei He H1 H2 _] Hj Hs. cbn in H1, H2. unfold output_supported in Hs. rewrite Ei, H2 in Hs.
  pose proof (ok_x c Hok (vr_rs1 (operands i))) as Ha. pose proof (ok_x c Hok (vr_rs2 (operands i))) as Hb.
  pose proof (ctz_register _ Hb Hs) as Ez. pose proof (as_u64_range (x c (vr_rs2 (operands i)))) as Hr.
  destruct op; injection Hj as <-; cbn [execute exec_VR] in He;
    apply rvr_exec_inv in He as (v & Hv & Hra & ->); cbv zeta in Hv;
    rewrite ?xlen_64, ?sign_extend_64, ?unsigned_64, Ez in Hv; injection Hv as <-.
  all: eexists; split; [reflexivity|]; split; [|exact Hra]; clear Hra; cbn; rewrite ?H1, ?H2; f_equal.
  - unfold sra_output. by rewrite as_u64_u64, sra_agree.
  - unfold srl_output. rewrite as_u128_u64 by done. by rewrite srl_agree.
Qed.

Lemma J_effect op i j cy c' : recorded c (InstrJ op i) cy c' -> jolt_instruction true (InstrJ op i) = Some j ->
  is_u64 (j_imm (operands i)) -> match op with JAL => True | _ => effect_ok j cy c c' (j_rd (operands i)) end.
Proof.
  intros [Ei He _ _ _] Hj Hi. assert (H2 : imm cy = j_imm (operands i)) by (unfold imm; by rewrite Ei).
  pose proof (as_u64_small _ Hi) as Eu. destruct op; [exact I|..]; injection Hj as <-; cbn [execute exec_J] in He;
    apply rj_exec_inv in He as (v & Hv & Hra & ->); rewrite ?xlen_64 in Hv; cbv zeta in Hv; injection Hv as <-.
  all: eexists; split; [reflexivity|]; split; [|exact Hra]; clear Hra; cbn; rewrite ?H2, ?Eu; f_equal; autorewrite with word64.
  - by apply pow2_agree.
  - by apply pow2_agree.
  - apply bitmask_agree.
Qed.

Lemma LUI_exec_inv i ra c' : no_ram (LUI_exec i) c = Ok (ra, c') ->
  ra = RANoOp /\ c' = set_x (zupd (x c) (u_rd (operands i)) (as_i64 (u_imm (operands i)))) c.
Proof. unfold LUI_exec, normalize_imm. intros H. run_exec H. by rewrite xlen_64. Qed.

Lemma arith_i64_value z v : arith_i64 z = Ok v -> v = as_i64 z.
Proof. unfold arith_i64. destruct (_ && _); congruence. Qed.

Lemma AUIPC_exec_inv i ra c' : no_ram (AUIPC_exec i) c = Ok (ra, c') ->
  ra = RANoOp /\ c' = set_x (zupd (x c) (u_rd (operands i)) (as_i64 (as_i64 (address i) + as_i64 (u_imm (operands i))))) c.
Proof.
  unfold AUIPC_exec, normalize_imm, no_ram, bind, asks, lift. intros H. rewrite xlen_64 in H.
  destruct (arith_i64 _) as [v| |] eqn:Ea; try discriminate H. apply arith_i64_value in Ea as ->. cbn [res_bind] in H.
  rewrite sign_extend_64 in H. unfold put_x in H. destruct (reg_ok _); [|discriminate H]. cbn in H. by injection H as <- <-.
Qed.

Lemma U_effect op i j cy c' : recorded c (InstrU op i) cy c' -> jolt_instruction true (InstrU op i) = Some j ->
  is_u64 (u_imm (operands i)) -> is_u64 (address i) -> effect_ok j cy c c' (u_rd (operands i)).
Proof.
  intros [Ei He _ _ _] Hj Hi Had. assert (H2 : imm cy = u_imm (operands i)) by (unfold imm; by rewrite Ei).
  assert (H3 : instruction_address cy = address i) by (unfold instruction_address; by rewrite Ei).
  pose proof (as_u64_small _ Hi) as Eu. destruct op; injection Hj as <-; cbn [execute exec_U] in He.
  - apply LUI_exec_inv in He as [Hra ->]. eexists. split; [reflexivity|]. cbn. rewrite H2. split; [|done].
    f_equal. by autorewrite with word64.
  - apply AUIPC_exec_inv in He as [Hra ->]. eexists. split; [reflexivity|]. cbn. by rewrite H2, H3.
Qed.

(** ** Control flow, checks and advice *)

Lemma branch_exec_inv taken i ra c' : no_ram (branch_exec taken i) c = Ok (ra, c') ->
  ra = RANoOp /\ c' = (if taken c (x c (b_rs1 (operands i))) (x c (b_rs2 (operands i)))
                       then set_pc (as_u64 (as_i64 (address i) + as_i64 (b_imm (operands i)))) c else c).
Proof.
  unfold branch_exec, no_ram, bind, get_x, gets, lift, modify, ret. intros H.
  destruct (reg_ok _); [|discriminate H]. cbv beta iota in H. destruct (reg_ok _); [|discriminate H]. cbv beta iota in H.
  destruct (taken _ _ _); [|by injection H as <- <-].
  destruct (arith_i64 _) as [v| |] eqn:Ea; try discriminate H. apply arith_i64_value in Ea as ->.
  injection H as <- <-. by rewrite as_u64_i64.
Qed.

Lemma JAL_exec_inv i ra c' : no_ram (JAL_exec i) c = Ok (ra, c') ->
  ra = RANoOp /\ xlen c' = Bit64 /\ pc c' = as_u64 (as_i64 (address i) + as_i64 (j_imm (operands i))) /\
  (j_rd (operands i) <> 0 -> x c' (j_rd (operands i)) = as_i64 (pc c)).
Proof.
  unfold JAL_exec, no_ram, normalize_imm. intros H. cbv zeta in H. pose proof xlen_64 as Hx.
  apply bind_inv in H as (u & c1 & H & [= <- <-]). apply bind_inv in H as (u2 & c2 & H1 & H).
  apply bind_inv in H as (t & c3 & Ht & [= <- <-]).
  assert (E : xlen c2 = Bit64 /\ (j_rd (operands i) <> 0 -> x c2 (j_rd (operands i)) = as_i64 (pc c))).
  { destruct (Z.eqb_spec (j_rd (operands i)) 0) as [E0|E0]; cbn [negb] in H1; [injection H1 as _ <-; by split|].
    unfold bind, gets, put_x, track_call, modify, ret in H1.
    destruct (j_rd (operands i) =? 1); cbv beta iota in H1; (destruct (reg_ok _); [|discriminate H1]); injection H1 as _ <-;
      (split; [exact Hx|]); intros _; cbn; rewrite zupd_same; unfold sign_extend; cbn; by rewrite Hx. }
  destruct E as [Ex Erd]. unfold asks, lift in Ht. rewrite Ex in Ht.
  destruct (arith_i64 _) as [v| |] eqn:Ea; try discriminate Ht. apply arith_i64_value in Ea as ->. injection Ht as <- <-.
  split; [done|]. cbn. by rewrite as_u64_i64.
Qed.

Lemma JALR_exec_inv i ra c' : no_ram (JALR_exec i) c = Ok (ra, c') ->
  ra = RANoOp /\ xlen c' = Bit64 /\
  pc c' = Z.land (as_u64 (as_u64 (x c (i_rs1 (operands i))) + as_u64 (as_i32 (i_imm (operands i))))) (as_u64 (Z.lnot 1)) /\
  (i_rd (operands i) <> 0 -> x c' (i_rd (operands i)) = as_i64 (pc c)).
Proof.
  unfold JALR_exec, no_ram. intros H. cbv zeta in H. pose proof xlen_64 as Hx.
  unfold bind, gets, get_x, put_x, track_call, modify, ret in H. destruct (reg_ok (i_rs1 _)); [|discriminate H].
  cbv beta iota in H. destruct (Z.eqb_spec (i_rd (operands i)) 0) as [E0|E0]; cbn [negb] in H.
  - injection H as <- <-. by split_and!.
  - destruct (i_rd (operands i) =? 1); cbv beta iota in H; (destruct (reg_ok _); [|discriminate H]); injection H as <- <-;
      split_and!; try done; intros _; cbn; rewrite zupd_same; by rewrite sign_extend_64.
Qed.

Lemma align_exec_inv mask i ra c' : no_ram (align_exec mask i) c = Ok (ra, c') ->
  ra = RANoOp /\ c' = c /\ (Z.land (as_i64 (x c (a_rs1 (operands i)) + a_imm (operands i))) mask =? 0) = true.
Proof.
  unfold align_exec, no_ram, bind, get_x, lift, assert_that, ret. intros H.
  destruct (reg_ok _); [|discriminate H]. cbv beta iota in H.
  destruct (arith_i64 _) as [v| |] eqn:Ea; try discriminate H. apply arith_i64_value in Ea as ->.
  destruct (_ =? 0) eqn:E; [|discriminate H]. by injection H as <- <-.
Qed.

End Effects.
