(* ===== verification/RowMem.v ===== *)
(** * Records of doubleword accesses

    The RAM records that [LD] and [SD] leave in a cycle ([mmu.rs], [trace_load] and
    [trace_store]): the accessed address, and the doubleword before and after. *)

From Stdlib Require Import ZArith Lia List Bool.
From stdpp Require Import base list.
From S2P Require Import Prelude Words Memory Types Device Mmu DramAccess Isa Decode Allocator Cpu Exec Assembler.
From S2P Require Import Sequences Trace Step Refine Alu64 Mem64.
Import ListNotations.
Local Open Scope Z_scope.
Local Open Scope rust_scope.

Section Records.
Context `{B : Build} (m : Mmu) (Hm : mmu_ok m).

(** Eight bytes gathered at an aligned address are the doubleword there. *)
Lemma gather_dword w d : in_dram m w 8 -> w mod 8 = 0 -> dword m w = Ok d -> is_u64 d ->
  forall n i, 0 <= i -> Z.of_nat n + i = 8 ->
  gather_le (mw_read_byte m) w n i (d mod 2 ^ (8 * i)) = Ok d.
Proof.
  intros Hw Ha Hd Hu. induction n as [|n IH]; intros i Hi Hn; cbn [gather_le].
  - f_equal. replace i with 8 by lia. apply Z.mod_small. exact Hu.
  - assert (Hin : in_dram m (w + i) 1) by (unfold in_dram in *; lia).
    pose proof (dram_range m Hm _ 1 Hin ltac:(lia)) as Hr.
    rewrite add_u64_ok by (unfold is_u64; lia). cbn [res_bind]. unfold mw_read_byte. rewrite (mw_read_eq m Hm) by (done || lia).
    unfold read_byte. replace (Z.shiftr (w + i - DRAM_BASE) 3) with (Z.shiftr (w - DRAM_BASE) 3).
    2: { rewrite !Z.shiftr_div_pow2 by lia. change (2 ^ 3) with 8. unfold DRAM_BASE, RAM_START_ADDRESS in *. lia. }
    unfold dword in Hd. rewrite Hd. cbn [res_bind].
    replace ((w + i - DRAM_BASE) mod 8) with i by (unfold DRAM_BASE, RAM_START_ADDRESS in *; lia).
    rewrite <- (IH (i + 1)) by lia. f_equal.
    apply Z.bits_inj'. intros k Hk. rewrite Z.lor_spec, !tb_mod, tb_shiftl, tb_u8, tb_shiftr by lia. bit_split; bit_finish.
Qed.

Lemma record_dword w d : in_dram m w 8 -> w mod 8 = 0 -> dword m w = Ok d -> is_u64 d ->
  gather_le (mw_read_byte m) w (xlen_bytes m) 0 0 = Ok d.
Proof.
  intros Hw Ha Hd Hu. unfold xlen_bytes. rewrite (ok_width m Hm).
  pose proof (gather_dword w d Hw Ha Hd Hu 8 0) as H. rewrite Z.mod_1_r in H. by apply H.
Qed.

Lemma record_address_8 a : a mod 8 = 0 -> record_address a = a.
Proof. intros Ha. rewrite record_address_eq. lia. Qed.

Lemma trace_load_dword a d : in_dram m a 8 -> a mod 8 = 0 -> dword m a = Ok d -> is_u64 d ->
  trace_load m a = Ok (mkRAMRead a d).
Proof.
  intros Hw Ha Hd Hu. unfold trace_load. fold (record_address a). rewrite record_address_8 by done.
  rewrite (proj2 (Z.ltb_ge _ DRAM_BASE)) by apply Hw. by rewrite (record_dword a d).
Qed.

Lemma trace_store_dword a d v : in_dram m a 8 -> a mod 8 = 0 -> store_allowed m a -> dword m a = Ok d -> is_u64 d ->
  trace_store m a v = Ok (mkRAMWrite a d v).
Proof.
  intros Hw Ha Hst Hd Hu. unfold trace_store. rewrite Hst. cbn [res_bind]. unfold store_pre_value.
  rewrite (proj2 (Z.ltb_ge _ DRAM_BASE)) by apply Hw. by rewrite (record_dword a d).
Qed.

Lemma bytes_at_8 a d : a mod 8 = 0 -> is_u64 d -> bytes_at d a 8 = d.
Proof. intros Ha Hu. unfold bytes_at, as_unsigned. rewrite Ha, Z.mul_0_r, Z.shiftr_0_r. apply Z.mod_small. exact Hu. Qed.

Lemma load_dword a d : access_ok m a 8 -> dword m a = Ok d -> is_u64 d ->
  load_doubleword a m = Ok (ROk (d, mkRAMRead a d), m).
Proof.
  intros [_ Ha Hrec Hld] Hd Hu. rewrite record_address_8 in Hrec by done.
  unfold load_doubleword. rewrite (load_width_record m Hm 8 a d (mkRAMRead a d)) by (done || by apply trace_load_dword).
  by rewrite bytes_at_8.
Qed.

Lemma store_dword a d v m' : access_ok m a 8 -> store_allowed m a -> dword m a = Ok d -> is_u64 d -> is_u64 v ->
  stored m a 8 v = Ok m' -> store_doubleword a v m = Ok (ROk (mkRAMWrite a d v), m').
Proof.
  intros [_ Ha Hrec Hld] Hst Hd Hu Hv Hm'. rewrite record_address_8 in Hrec by done.
  apply (store_width_record m Hm 8 a d v m'); try done; [lia|]. by apply trace_store_dword.
Qed.

End Records.

Section Accesses.
Context `{B : Build} (c : Cpu) (Hm : mmu_ok (mmu c)).

(** The cycle of [LD]: the doubleword at the address is read, recorded and
    written to the register. *)
Lemma LD_effect i ram c' (a := x c (l_rs1 (operands i)) + l_imm (operands i)) :
  regs_ok (InstrLoad LD i) = true -> is_i32 (l_imm (operands i)) -> access_ok (mmu c) a 8 ->
  execute (InstrLoad LD i) c = Ok (ram, c') ->
  exists d, is_u64 d /\ ram = RARead (mkRAMRead a d) /\ c' = set_x (zupd (x c) (l_rd (operands i)) (as_i64 d)) c.
Proof.
  intros [Hd H1]%andb_prop Hi Ha He. pose proof (acc_byte c a 8 Ha) as Hb. pose proof (acc_range c Hm a 8 Ha) as Hr.
  destruct (dword_ok (mmu c) Hm a Hb) as (d & Hdw & Hu). exists d. split; [done|]. subst a.
  pose proof (load_dword (mmu c) Hm _ d Ha Hdw Hu) as Hl. rewrite <- (set_x_id c) in He at 1.
  cbn [execute exec_Load] in He. unfold LD_exec in He. rewrite ram_read_get_x, address_ld in He by done.
  rewrite (load_tail c _ _ _ _ _ _ Hd Hl) in He. by injection He as <- <-.
Qed.

(** The cycle of [SD]: the doubleword before and the register stored. *)
Lemma SD_effect i ram c' (a := x c (s_rs1 (operands i)) + s_imm (operands i)) :
  regs_ok (InstrS SD i) = true -> access_ok (mmu c) a 8 -> store_allowed (mmu c) a ->
  execute (InstrS SD i) c = Ok (ram, c') ->
  exists d m', is_u64 d /\ ram = RAWrite (mkRAMWrite a d (as_u64 (x c (s_rs2 (operands i))))) /\ c' = set_mmu m' c.
Proof.
  intros [H1 H2]%andb_prop Ha Hst He. pose proof (acc_byte c a 8 Ha) as Hb. pose proof (acc_range c Hm a 8 Ha) as Hr.
  destruct (dword_ok (mmu c) Hm a Hb) as (d & Hdw & Hu). pose proof (as_u64_range (x c (s_rs2 (operands i)))) as Hv.
  destruct (stored_ok (mmu c) Hm a 8 (as_u64 (x c (s_rs2 (operands i))))) as (d' & m' & _ & _ & Hm' & _); [done|done|apply Ha|].
  pose proof (store_dword (mmu c) Hm a d _ m' Ha Hst Hdw Hu Hv Hm') as Hs. exists d, m'. split; [done|].
  rewrite <- (set_x_id c) in He at 1. cbn [execute exec_S] in He. unfold ram_write, SD_exec, store_exec in He.
  erewrite bind_ok in He; [|erewrite bind_ok by (by apply get_x_ok); erewrite bind_ok by (by apply get_x_ok);
    rewrite address_64 by done; by apply expect_mmu].
  injection He as <- <-. split; [done|]. by destruct c.
Qed.

End Accesses.
