(* ===== verification/RowSat.v ===== *)
(** * Outcomes of the instructions, as the constraints see them

    For every instruction of the 64-bit prover: what its execution by the tracer
    does to the registers, the program counter and the memory, in terms of the
    circuit flags and the lookup output of the recorded cycle. *)

From Stdlib Require Import ZArith Lia List Bool ZmodBase Zmod.
From stdpp Require Import base list.
From S2P Require Import Prelude Words Memory Types Device Mmu DramAccess Isa Decode Allocator Cpu Exec Assembler.
From S2P Require Import Sequences Trace Step Refine Alu64 Mem64 Machine Field LookupTables InstructionLookup.
From S2P Require Import InstructionEntries LinComb R1cs R1csMeaning Bytecode R1csRows RowShape RowExec RowMem.
Import ListNotations.
Local Open Scope Z_scope.
Local Open Scope rust_scope.

#[local] Opaque uninterleave_bits interleave_bits.

(** ** Outcomes of a recorded cycle *)

Definition rd_of (i : Instruction) : Z := n_rd (ni_operands (normalize i)).
Definition imm_of (i : Instruction) : Z := n_imm (ni_operands (normalize i)).
Definition flags_of (j : JoltInstruction) (i : Instruction) : Flags :=
  circuit_flags j (ni_inline_sequence_remaining (normalize i)) (ni_is_compressed (normalize i)).

(** The output looked up for a cycle, against the state it leaves. *)
Record output_ok (fl : Flags) (i : Instruction) (c c' : Cpu) (out : Z) : Prop := {
  oc_range : is_u64 out;
  oc_assert : fl Assert = true -> out = 1;
  oc_write : fl WriteLookupOutputToRD = true -> as_u64 (x c' (rd_of i)) = out;
  oc_jump : fl Jump = true -> pc c' = out /\ (rd_of i <> 0 -> as_u64 (x c' (rd_of i)) = as_u64 (pc c));
  oc_branch : fl Branch = true -> (out = 0 /\ pc c' = pc c) \/ (out = 1 /\ pc c' = address_of i + imm_of i);
  oc_step : fl Jump = false -> fl Branch = false -> pc c' = pc c
}.

Definition ram_ok (fl : Flags) (i : Instruction) (cy : Cycle) (c' : Cpu) : Prop :=
  if fl Load then exists d, is_u64 d /\ ram_access cy = RARead (mkRAMRead (rs1 cy + imm_of i) d) /\ as_u64 (x c' (rd_of i)) = d
  else if fl Store then exists d, is_u64 d /\ ram_access cy = RAWrite (mkRAMWrite (rs1 cy + imm_of i) d (rs2 cy))
  else ram_access cy = RANoOp.

Definition outcome (j : JoltInstruction) (i : Instruction) (cy : Cycle) (c c' : Cpu) : Prop :=
  let fl := flags_of j i in
  xlen c' = Bit64 /\ ram_ok fl i cy c' /\
  exists out, to_lookup_output (query j) Bit64 cy = Ok out /\ output_ok fl i c c' out.

(** The operands of an instruction have the types of its format. *)
Definition instr_typed (i : Instruction) : Prop :=
  is_u64 (address_of i) /\
  match i with
  | InstrI _ _ | InstrJ _ _ | InstrU _ _ | InstrVI _ _ => is_u64 (imm_of i)
  | InstrLoad _ _ | InstrS _ _ => is_i32 (imm_of i)
  | InstrB _ _ | InstrAlign _ _ => is_i64 (imm_of i)
  | VirtualAdvice _ a => is_u64 (imm_of i) /\ match a with Some a => is_u64 a | None => True end
  | _ => True
  end.

(** The cycles covered: operands the flags select, outputs that are the values
    written, no environment calls, jumps to even targets and branches inside the
    address space, aligned doublewords of main memory. *)
Definition control_supported (cy : Cycle) : Prop :=
  let i := cycle_instruction cy in
  match i with
  | InstrI JALR o => (rs1 cy + imm_of i) mod 2 = 0 /\ imm_of i = as_u64 (as_i32 (imm_of i))
  | InstrI (ECALL | VirtualLW) _ | InstrS VirtualSW _ => False
  | InstrI FENCE o => inline_sequence_remaining o = None
  | InstrB _ _ => is_u64 (address_of i + imm_of i)
  | _ => True
  end.

Definition access_supported `{Build} (c : Cpu) (i : Instruction) : Prop :=
  match i with
  | InstrLoad _ o => access_ok (mmu c) (x c (l_rs1 (operands o)) + l_imm (operands o)) 8
  | InstrS _ o => let a := x c (s_rs1 (operands o)) + s_imm (operands o) in access_ok (mmu c) a 8 /\ store_allowed (mmu c) a
  | _ => True
  end.

Record row_supported `{Build} (c : Cpu) (cy : Cycle) : Prop := {
  sup_shape : shape_supported cy = true;
  sup_output : output_supported cy = true;
  sup_control : control_supported cy;
  sup_access : access_supported c (cycle_instruction cy)
}.

(** ** Every instruction *)

Lemma bool_u64_range b : is_u64 (bool_u64 b).
Proof. destruct b; unfold is_u64; cbn; lia. Qed.

Lemma clear_bit_0 t : is_u64 t -> t mod 2 = 0 -> Z.land t (as_u64 (Z.lnot 1)) = t.
Proof.
  intros Ht He. apply Z.bits_inj'. intros k Hk. rewrite Z.land_spec, tb_u64, tb_lnot.
  destruct (Z.eq_dec k 0) as [->|Hk0].
  - rewrite Z.bit0_odd, <- Z.negb_even, Zeven_mod, He. done.
  - replace (Z.testbit 1 k) with false by (symmetry; change 1 with (2 ^ 0); rewrite Z.pow2_bits_eqb by lia; apply Z.eqb_neq; lia).
    destruct (Z.ltb_spec k 64); [|by rewrite (u64_high t k Ht) by lia]. replace (0 <=? k) with true by lia. apply andb_true_r.
Qed.

Lemma eqb_agree a b : is_i64 a -> is_i64 b -> (as_u64 a =? as_u64 b) = (a =? b).
Proof.
  intros Ha Hb. destruct (Z.eqb_spec a b) as [->|Hne]; [apply Z.eqb_refl|]. apply Z.eqb_neq. unfold is_i64, as_u64 in *. lia.
Qed.

Section Outcomes.
Context `{B : Build} (c : Cpu) (Hok : cpu_ok64 c) (Hmmu : mmu_ok (mmu c)).

(** Flags of the instructions that only compute a register. *)
Record plain (fl : Flags) : Prop := {
  pl_assert : fl Assert = false; pl_jump : fl Jump = false; pl_branch : fl Branch = false;
  pl_load : fl Load = false; pl_store : fl Store = false
}.

Lemma effect_outcome j i cy c' : plain (flags_of j i) -> effect_ok j cy c c' (rd_of i) -> outcome j i cy c c'.
Proof.
  intros [Ha Hj Hb Hl Hs] (v & -> & Hout & Hra). split; [apply (ok_xlen c Hok)|]. split.
  - unfold ram_ok. by rewrite Hl, Hs.
  - exists (as_u64 v). split; [done|]. split; rewrite ?Ha, ?Hj, ?Hb; try done; [apply as_u64_range|].
    intros _. cbn. by rewrite zupd_same.
Qed.

Ltac plain_flags := constructor; reflexivity.

Lemma R_outcome op i j cy c' : recorded c (InstrR op i) cy c' -> jolt_R true op = Some j -> output_supported cy = true ->
  outcome j (InstrR op i) cy c c'.
Proof.
  intros Hr Hj Hs. apply effect_outcome; [|by apply (R_effect c Hok op)].
  destruct op; try discriminate Hj; injection Hj as <-; plain_flags.
Qed.

Lemma VI_outcome op i j cy c' : feature_rv64 = true -> recorded c (InstrVI op i) cy c' ->
  jolt_instruction true (InstrVI op i) = Some j -> instr_typed (InstrVI op i) -> output_supported cy = true ->
  outcome j (InstrVI op i) cy c c'.
Proof.
  intros Hrv Hr Hj [_ Ht] Hs. apply effect_outcome; [|by apply (VI_effect c Hok op)]. destruct op; injection Hj as <-; plain_flags.
Qed.

Lemma VR_outcome op i j cy c' : recorded c (InstrVR op i) cy c' -> jolt_instruction true (InstrVR op i) = Some j ->
  output_supported cy = true -> outcome j (InstrVR op i) cy c c'.
Proof. intros Hr Hj Hs. apply effect_outcome; [|by apply (VR_effect c Hok op)]. destruct op; injection Hj as <-; plain_flags. Qed.

Lemma U_outcome op i j cy c' : recorded c (InstrU op i) cy c' -> jolt_instruction true (InstrU op i) = Some j ->
  instr_typed (InstrU op i) -> outcome j (InstrU op i) cy c c'.
Proof. intros Hr Hj [Ha Ht]. apply effect_outcome; [|by apply (U_effect c Hok op)]. destruct op; injection Hj as <-; plain_flags. Qed.

(** A cycle that leaves the registers and the program counter. *)
Lemma unchanged_outcome j i cy out : flags_of j i Jump = false -> flags_of j i Branch = false -> flags_of j i Load = false ->
  flags_of j i Store = false -> flags_of j i WriteLookupOutputToRD = false -> ram_access cy = RANoOp ->
  to_lookup_output (query j) Bit64 cy = Ok out -> is_u64 out -> (flags_of j i Assert = true -> out = 1) -> outcome j i cy c c.
Proof.
  intros Hj Hb Hl Hs Hw Hra Hout Hu Ha. split; [apply (ok_xlen c Hok)|]. split; [unfold ram_ok; by rewrite Hl, Hs|].
  exists out. split; [done|]. split; rewrite ?Hj, ?Hb, ?Hw; done.
Qed.

Lemma JALR_outcome i cy c' : recorded c (InstrI JALR i) cy c' -> instr_typed (InstrI JALR i) -> control_supported cy ->
  outcome JALR_jolt (InstrI JALR i) cy c c'.
Proof.
  intros [Ei He H1 _ _] [_ Hi] Hc. unfold control_supported in Hc. rewrite Ei in Hc. destruct Hc as [Hev Him].
  unfold imm_of in Hi, Hev, Him. cbn in H1, Hi, Hev, Him.
  cbn [execute exec_I] in He. apply (JALR_exec_inv c Hok) in He as (Hra & Hx & Hpc & Hrd).
  split; [done|]. split; [done|]. eexists. split; [reflexivity|].
  assert (Eo : signed_add_output Bit64 (rs1 cy) (imm cy) = as_u64 (rs1 cy + i_imm (operands i))).
  { unfold imm. rewrite Ei. cbn. unfold as_i64, as_u64. lia. }
  cbn [fst snd]. rewrite Eo. split; try done; [apply as_u64_range|]. intros _. split.
  - rewrite Hpc, <- Him, <- H1. set (t := as_u64 (rs1 cy + i_imm (operands i))).
    apply clear_bit_0; [apply as_u64_range|]. unfold t, as_u64. lia.
  - intros H0. unfold rd_of in *. cbn in *. by rewrite Hrd, as_u64_i64.
Qed.

Lemma I_outcome op i j cy c' : recorded c (InstrI op i) cy c' -> jolt_I true op = Some j -> instr_typed (InstrI op i) ->
  control_supported cy -> outcome j (InstrI op i) cy c c'.
Proof.
  intros Hr Hj Ht Hc. pose proof (I_effect c Hok op i j cy c' Hr Hj (proj2 Ht)) as He.
  destruct op; try discriminate Hj; try (apply effect_outcome; [injection Hj as <-; plain_flags|exact He]); injection Hj as <-.
  - by apply JALR_outcome.
  - destruct Hr as [Ei _ _ _ _]. unfold control_supported in Hc. by rewrite Ei in Hc.
  - destruct Hr as [Ei Hex _ _ _]. cbn in Hex. injection Hex as Hra <-.
    by apply (unchanged_outcome _ _ _ 0).
  - destruct Hr as [Ei _ _ _ _]. unfold control_supported in Hc. by rewrite Ei in Hc.
Qed.

Lemma J_outcome op i j cy c' : recorded c (InstrJ op i) cy c' -> jolt_instruction true (InstrJ op i) = Some j ->
  instr_typed (InstrJ op i) -> outcome j (InstrJ op i) cy c c'.
Proof.
  intros Hr Hj [Ha Ht]. pose proof (J_effect c Hok op i j cy c' Hr Hj Ht) as He. cbn in Hj.
  destruct op; try (apply effect_outcome; [injection Hj as <-; plain_flags|exact He]); injection Hj as <-.
  destruct Hr as [Ei Hex _ _ _]. cbn [execute exec_J] in Hex. apply (JAL_exec_inv c Hok) in Hex as (Hra & Hx & Hpc & Hrd).
  split; [done|]. split; [done|]. eexists. split; [reflexivity|]. cbn [fst snd].
  assert (Eo : signed_add_output Bit64 (instruction_address cy) (imm cy) = as_u64 (as_i64 (address i) + as_i64 (j_imm (operands i)))).
  { unfold imm, instruction_address. rewrite Ei. cbn. unfold as_i64, as_u64. lia. }
  rewrite Eo. split; try done; [apply as_u64_range|]. intros _. split; [done|].
  intros H0. unfold rd_of in *. cbn in *. by rewrite Hrd, as_u64_i64.
Qed.

Lemma advice_outcome i a cy c' : recorded c (VirtualAdvice i a) cy c' -> instr_typed (VirtualAdvice i a) ->
  outcome VirtualAdvice_jolt (VirtualAdvice i a) cy c c'.
Proof.
  intros [Ei Hex _ _ _] [_ Ht]. cbn [execute] in Hex. unfold no_ram, VirtualAdvice_execute, bind in Hex.
  destruct a as [a|]; [|discriminate Hex]. destruct Ht as [_ Ht]. unfold put_x in Hex. destruct (reg_ok _); [|discriminate Hex]. injection Hex as Hra <-.
  apply effect_outcome; [plain_flags|]. exists (as_i64 a). split; [done|]. split; [|done]. cbn. unfold advice_value. rewrite Ei.
  by rewrite as_u64_i64, as_u64_small.
Qed.

(** A conditional branch whose output is the test. *)
Lemma branch_outcome taken op i cy c' t : recorded c (InstrB op i) cy c' -> no_ram (branch_exec taken i) c = Ok (ram_access cy, c') ->
  taken c (x c (b_rs1 (operands i))) (x c (b_rs2 (operands i))) = t -> to_lookup_output (query (jolt_B op)) Bit64 cy = Ok (bool_u64 t) ->
  control_supported cy -> instr_typed (InstrB op i) ->
  flags_of (jolt_B op) (InstrB op i) Jump = false -> flags_of (jolt_B op) (InstrB op i) Assert = false ->
  flags_of (jolt_B op) (InstrB op i) Load = false -> flags_of (jolt_B op) (InstrB op i) Store = false ->
  flags_of (jolt_B op) (InstrB op i) WriteLookupOutputToRD = false -> flags_of (jolt_B op) (InstrB op i) Branch = true ->
  outcome (jolt_B op) (InstrB op i) cy c c'.
Proof.
  intros [Ei _ _ _ _] He Et Hout Hc [Ha Hi] Hj Has Hl Hs Hw Hb. unfold control_supported in Hc. rewrite Ei in Hc.
  apply branch_exec_inv in He as [Hra ->]. rewrite Et.
  split; [destruct t; apply (ok_xlen c Hok)|]. split; [unfold ram_ok; by rewrite Hl, Hs|]. exists (bool_u64 t). split; [done|].
  split; rewrite ?Hj, ?Has, ?Hw, ?Hb; try done; [apply bool_u64_range|]. intros _. destruct t; [right|by left]. split; [done|].
  cbn. unfold address_of, imm_of in *. cbn in *. unfold is_u64, as_u64, as_i64, is_i64 in *. lia.
Qed.

Lemma check_outcome op g i cy c' : recorded c (InstrB op i) cy c' -> regs_ok (InstrB op i) = true -> check64_B op = Some g ->
  flags_of (jolt_B op) (InstrB op i) Jump = false -> flags_of (jolt_B op) (InstrB op i) Branch = false ->
  flags_of (jolt_B op) (InstrB op i) Load = false -> flags_of (jolt_B op) (InstrB op i) Store = false ->
  flags_of (jolt_B op) (InstrB op i) WriteLookupOutputToRD = false ->
  (g (x c (b_rs1 (operands i))) (x c (b_rs2 (operands i))) = true -> to_lookup_output (query (jolt_B op)) Bit64 cy = Ok 1) ->
  outcome (jolt_B op) (InstrB op i) cy c c'.
Proof.
  intros [Ei He _ _ _] Hr Hg Hj Hb Hl Hs Hw Hout. rewrite <- (set_x_id c) in He at 1.
  rewrite (step_check c (ok_xlen c Hok) op g i (x c) Hg Hr (ok_x c Hok)) in He.
  destruct (g _ _); [|discriminate He]. injection He as Hra <-. rewrite set_x_id.
  apply (unchanged_outcome _ _ _ 1); auto. unfold is_u64. lia.
Qed.

Lemma B_outcome op i cy c' : recorded c (InstrB op i) cy c' -> regs_ok (InstrB op i) = true -> instr_typed (InstrB op i) ->
  control_supported cy -> outcome (jolt_B op) (InstrB op i) cy c c'.
Proof.
  intros Hr Hreg Ht Hc. assert (H1 := rec_rs1 _ _ _ _ Hr). assert (H2 := rec_rs2 _ _ _ _ Hr). cbn in H1, H2.
  assert (He := rec_exec _ _ _ _ Hr). cbn [execute] in He.
  pose proof (ok_x c Hok (b_rs1 (operands i))) as Ha. pose proof (ok_x c Hok (b_rs2 (operands i))) as Hb.
  destruct op; cbn [exec_B] in He.
  all: try (eapply branch_outcome; [exact Hr|exact He|reflexivity| |exact Hc|exact Ht|reflexivity..];
    rewrite ?(sign_extend_64 c Hok), ?(unsigned_64 c Hok); cbn; rewrite H1, H2; autorewrite with word64;
    rewrite ?eqb_agree, ?(as_i64_small _ Ha), ?(as_i64_small _ Hb) by done; done).
  all: eapply check_outcome; [exact Hr|exact Hreg|reflexivity..|]; intros Hg; cbn; rewrite H1, H2; autorewrite with word64; f_equal.
  - by rewrite eqb_agree, Hg.
  - by rewrite Hg.
  - apply Z.ltb_lt in Hg. by rewrite (proj2 (Z.leb_le _ _)) by (unfold u64_MAX; lia).
  - change 0 with (as_u64 0) at 1. rewrite eqb_agree by (done || unfold is_i64; lia).
    destruct (Z.eqb_spec (x c (b_rs1 (operands i))) 0) as [E0|]; [|done]. rewrite E0 in Hg. cbn in Hg. apply Z.eqb_eq in Hg. by rewrite Hg.
  - change 0 with (as_u64 0) at 1. rewrite eqb_agree by (done || unfold is_i64; lia). by rewrite Hg.
Qed.

Lemma Align_outcome op i j cy c' : recorded c (InstrAlign op i) cy c' -> jolt_instruction true (InstrAlign op i) = Some j ->
  instr_typed (InstrAlign op i) -> shape_supported cy = true -> outcome j (InstrAlign op i) cy c c'.
Proof.
  intros [Ei He H1 _ _] Hj [_ Hi] Hs. cbn in H1. unfold shape_supported in Hs. rewrite Ei in Hs. apply Z.leb_le in Hs.
  assert (H2 : imm cy = a_imm (operands i)) by (unfold imm; by rewrite Ei). unfold imm_of in Hi. cbn in Hi. rewrite H2 in Hs.
  assert (Hr := as_u64_range (x c (a_rs1 (operands i)))). rewrite <- H1 in Hr.
  assert (E : as_u128 (rs1 cy + a_imm (operands i)) = rs1 cy + a_imm (operands i)) by (unfold as_u128, is_u64, is_i64 in *; lia).
  destruct op; injection Hj as <-; cbn [execute exec_Align] in He; apply align_exec_inv in He as (Hra & -> & Hm);
    apply Z.eqb_eq in Hm; (eapply (unchanged_outcome _ _ _ 1); try reflexivity; try done); cbn; rewrite H2, E; f_equal.
  - change 1 with (Z.ones 1) in Hm. rewrite Z.land_ones in Hm by lia. rewrite (proj2 (Z.eqb_eq _ _)); [done|].
    rewrite H1. unfold as_u64, as_i64 in *. lia.
  - change 3 with (Z.ones 2) in Hm. rewrite Z.land_ones in Hm by lia. rewrite (proj2 (Z.eqb_eq _ _)); [done|].
    change (2 ^ 2) with 4 in Hm. rewrite H1. unfold as_u64, as_i64 in *. lia.
Qed.

(** An address of main memory does not wrap. *)
Lemma address_column a imm : is_i64 a -> is_i32 imm -> DRAM_BASE <= a + imm < 2 ^ 63 -> as_u64 a + imm = a + imm.
Proof. unfold is_i64, is_i32, DRAM_BASE, RAM_START_ADDRESS, as_u64. lia. Qed.

Lemma Load_outcome op i j cy c' : feature_rv64 = true -> recorded c (InstrLoad op i) cy c' -> regs_ok (InstrLoad op i) = true ->
  jolt_instruction true (InstrLoad op i) = Some j -> instr_typed (InstrLoad op i) -> access_supported c (InstrLoad op i) ->
  outcome j (InstrLoad op i) cy c c'.
Proof.
  intros Hrv [Ei He H1 _ _] Hreg Hj [_ Ht] Ha. destruct op; try discriminate Hj. injection Hj as <-.
  unfold imm_of in Ht. cbn in H1, Ht, Ha. pose proof (acc_range c Hmmu _ 8 Ha) as Hr.
  destruct (LD_effect c Hmmu i _ c' Hreg Ht Ha He) as (d & Hd & Hram & ->).
  split; [apply (ok_xlen c Hok)|]. split.
  - exists d. split; [done|]. unfold imm_of, rd_of. cbn. rewrite zupd_same, as_u64_i64, (as_u64_small d) by done.
    split; [|done]. rewrite Hram, H1, address_column; try done. apply (ok_x c Hok).
  - exists 0. split; [done|]. split; done.
Qed.

Lemma S_outcome op i j cy c' : feature_rv64 = true -> recorded c (InstrS op i) cy c' -> regs_ok (InstrS op i) = true ->
  jolt_instruction true (InstrS op i) = Some j -> instr_typed (InstrS op i) -> access_supported c (InstrS op i) ->
  control_supported cy -> outcome j (InstrS op i) cy c c'.
Proof.
  intros Hrv [Ei He H1 H2 _] Hreg Hj [_ Ht] [Ha Hst] Hc. unfold control_supported in Hc. rewrite Ei in Hc.
  destruct op; try discriminate Hj; [|done]. injection Hj as <-.
  unfold imm_of in Ht. cbn in H1, H2, Ht, Ha, Hst. pose proof (acc_range c Hmmu _ 8 Ha) as Hr.
  destruct (SD_effect c Hmmu i _ c' Hreg Ha Hst He) as (d & m' & Hd & Hram & ->).
  split; [apply (ok_xlen c Hok)|]. split.
  - exists d. split; [done|]. unfold imm_of. cbn. rewrite Hram, H1, H2, address_column; try done. apply (ok_x c Hok).
  - exists 0. split; [done|]. split; done.
Qed.

(** Every instruction of the 64-bit prover. *)
Lemma instruction_outcome i j cy c' : feature_rv64 = true -> recorded c i cy c' -> regs_ok i = true ->
  jolt_instruction true i = Some j -> instr_typed i -> row_supported c cy -> outcome j i cy c c'.
Proof.
  intros Hrv Hr Hreg Hj Ht [Hsh Hso Hsc Hsa]. rewrite (rec_instr _ _ _ _ Hr) in Hsa.
  destruct i as [| |op i|op i|op i|op i|op i|op i|op i|op i|op i|op i|i a|? ? ? ?]; try discriminate Hj.
  - by apply R_outcome.
  - by apply I_outcome.
  - by apply Load_outcome.
  - by apply S_outcome.
  - injection Hj as <-. by apply B_outcome.
  - by apply J_outcome.
  - by apply U_outcome.
  - by apply VI_outcome.
  - by apply VR_outcome.
  - by apply Align_outcome.
  - injection Hj as <-. by apply advice_outcome.
Qed.

(** The width is the same after the instruction, also where only the outcome is known. *)
Lemma recorded_fits i cy c' : recorded c i cy c' -> instr_typed i -> operands_fit Bit64 cy.
Proof.
  intros [Ei _ H1 H2 _] [Ha Hi]. unfold in_word. cbn [WIDTH]. constructor.
  - rewrite H1. apply as_u64_range.
  - rewrite H2. apply as_u64_range.
  - unfold instruction_address. by rewrite Ei.
  - unfold in_word, advice_value. rewrite Ei. destruct i; try (cbn; lia). destruct Hi as [_ Hi]. destruct advice; cbn in *; [done|lia].
  - unfold imm. rewrite Ei. by destruct i.
Qed.

End Outcomes.
