(* ===== verification/RowTrace.v ===== *)
(** * Traced cycles satisfy the constraints

    The tracer, the lookups, the bytecode and the constraint system together:
    the row [from_trace] builds for a cycle of the 64-bit tracer satisfies the
    26 constraints. *)

From Stdlib Require Import ZArith Lia List Bool ZmodBase Zmod.
From stdpp Require Import base list.
From S2P Require Import Prelude Words Memory Types Device Mmu DramAccess Isa Decode Allocator Cpu Exec Assembler.
From S2P Require Import Sequences Trace Step Refine Alu64 Mem64 Machine Field LookupTables InstructionLookup.
From S2P Require Import InstructionEntries LinComb R1cs R1csMeaning Bytecode R1csRows RowShape RowExec RowMem RowSat.
Import ListNotations.
Local Open Scope Z_scope.
Local Open Scope rust_scope.

#[local] Opaque uninterleave_bits interleave_bits.

(** A cycle [cy] recorded from the state [c], which leaves [c'], and the cycle
    [nc] after it.  The program counter is past the instruction when it
    executes; the steps of an inline sequence stay at its address and follow one
    another in the bytecode; after the last jump the trace is padded. *)
Record traced_step `{Build} (b : BytecodePreprocessing) (c : Cpu) (cy : Cycle) (c' : Cpu) (nc : Cycle) (f g : Flags) (p q : Z) : Prop := {
  ts_trace : default_trace (cycle_instruction cy) c = Ok ([cy], c');
  ts_flags : Instruction_circuit_flags (cycle_instruction cy) = Ok f;
  ts_pc : is_u64 (pc c) /\ pc c = address_of (cycle_instruction cy) + 4 - 2 * Z.b2z (f IsCompressed);
  ts_regs : regs_ok (cycle_instruction cy) = true;
  ts_typed : instr_typed (cycle_instruction cy);
  ts_inner : f DoNotUpdateUnexpandedPC = true -> f IsCompressed = false /\ f Jump = false /\ f Branch = false;
  ts_next_flags : Instruction_circuit_flags (cycle_instruction nc) = Ok g;
  ts_noop : g IsNoop = true -> f Jump = true;
  ts_next : g IsNoop = false -> address_of (cycle_instruction nc) =
    if f DoNotUpdateUnexpandedPC then address_of (cycle_instruction cy) else pc c';
  ts_get_pc : get_pc b cy = Ok p;
  ts_next_pc : get_pc b nc = Ok q;
  ts_inline : f InlineSequenceInstruction = true -> q = p + 1
}.

Lemma S64_from_signed_ok `{B : Build} `{SI : SignedInts} z : Z.abs z < 2 ^ 64 ->
  exists s, S64_from_signed z = Ok s /\ S64_to_i128 s = z.
Proof.
  intros Hz. unfold S64_from_signed, debug_assert. rewrite (proj2 (Z.leb_le _ _)) by (unfold u64_MAX; lia).
  assert (Hu : is_u64 (Z.abs z)) by (unfold is_u64; lia). rewrite (as_u64_small _ Hu).
  exists (S64_from_u64_with_sign (Z.abs z) (0 <=? z)). split; [by destruct debug_assertions|].
  rewrite S64_from_val by done. destruct (Z.leb_spec 0 z); lia.
Qed.

(** The instructions that write a register record the value. *)
Lemma recorded_rd `{B : Build} c i j cy c' : recorded c i cy c' -> jolt_instruction true i = Some j ->
  forall k, k = WriteLookupOutputToRD \/ k = Jump \/ k = Load -> flags_of j i k = true -> xlen c' = Bit64 -> snd (rd_write cy) = as_u64 (x c' (rd_of i)).
Proof.
  intros Hr Hj k Hk Hf Hx. pose proof (rec_rd _ _ _ _ Hr) as Hrd. destruct i; try discriminate Hj; try exact (Hrd Hx).
  all: destruct op; try discriminate Hj; injection Hj as <-; destruct Hk as [-> | [-> | ->]]; discriminate Hf.
Qed.

Lemma typed_imm i : jolt_instruction true i <> None -> instr_typed i -> Z.abs (imm_of i) < 2 ^ 64.
Proof.
  intros Hj [_ Ht]. destruct i; try done; try (unfold is_u64, is_i64, is_i32 in *; lia).
  all: unfold imm_of; cbn; lia.
Qed.

Lemma jump_branch_exclusive i j rem comp : jolt_instruction true i = Some j ->
  circuit_flags j rem comp Jump && circuit_flags j rem comp Branch = false.
Proof.
  intros Hj. destruct i as [| |op ?|op ?|op ?|op ?|op ?|op ?|op ?|op ?|op ?|op ?|? ?|? ? ? ?]; try discriminate Hj.
  all: try destruct op; try discriminate Hj; injection Hj as <-; reflexivity.
Qed.

(** The program counter, the lookup output and the address of the next cycle. *)
Lemma next_columns (f g : Flags) (a im pc0 pc1 next out : Z) :
  f Jump && f Branch = false -> pc0 = a + 4 - 2 * Z.b2z (f IsCompressed) ->
  (f DoNotUpdateUnexpandedPC = true -> f IsCompressed = false /\ f Jump = false /\ f Branch = false) ->
  (g IsNoop = true -> f Jump = true) ->
  (g IsNoop = false -> next = if f DoNotUpdateUnexpandedPC then a else pc1) ->
  (f Jump = true -> pc1 = out) ->
  (f Branch = true -> (out = 0 /\ pc1 = pc0) \/ (out = 1 /\ pc1 = a + im)) ->
  (f Jump = false -> f Branch = false -> pc1 = pc0) ->
  (f Jump = true -> g IsNoop = false -> next = out) /\
  (f Branch = true -> out <> 0 -> next = a + im) /\
  (1 - (if f Branch then out else 0) - Z.b2z (f Jump) <> 0 ->
   next = a + 4 - 4 * Z.b2z (f DoNotUpdateUnexpandedPC) - 2 * Z.b2z (f IsCompressed)).
Proof.
  intros. destruct (f Jump), (f Branch), (g IsNoop), (f DoNotUpdateUnexpandedPC), (f IsCompressed); cbn [Z.b2z andb] in *;
    try discriminate; intuition (try discriminate; lia).
Qed.

Lemma flags_query `{B : Build} i f : feature_rv64 = true -> Instruction_circuit_flags i = Ok f -> i <> NoOp -> i <> UNIMPL ->
  exists j, jolt_instruction true i = Some j /\ f = flags_of j i.
Proof.
  unfold Instruction_circuit_flags. intros -> Hf H1 H2. destruct i; try done; destruct (jolt_instruction true _) as [j|]; try discriminate Hf;
    injection Hf as <-; by exists j.
Qed.

Section Row.
Context `{B : Build} `{SI : SignedInts} (Hrv : feature_rv64 = true).
Context (b : BytecodePreprocessing) (c c' : Cpu) (cy nc : Cycle) (f g : Flags) (p q : Z).
Context (Hok : cpu_ok64 c) (Hmmu : mmu_ok (mmu c)) (Hs : traced_step b c cy c' nc f g p q) (Hsup : row_supported c cy).

Let i : Instruction := cycle_instruction cy.

Lemma step_not_padding : i <> NoOp /\ i <> UNIMPL.
Proof.
  pose proof (ts_trace _ _ _ _ _ _ _ _ _ Hs) as Ht. fold i in Ht. split; intros E; rewrite E in Ht; discriminate Ht.
Qed.

Lemma step_parts : exists j, jolt_instruction true i = Some j /\ f = flags_of j i /\ recorded c i cy c' /\
  has_shape j cy /\ outcome j i cy c c'.
Proof.
  destruct step_not_padding as [H1 H2]. destruct (flags_query i f Hrv (ts_flags _ _ _ _ _ _ _ _ _ Hs) H1 H2) as (j & Hj & ->).
  exists j. split; [done|]. split; [done|].
  pose proof (default_trace_recorded c Hok i cy c' (ts_trace _ _ _ _ _ _ _ _ _ Hs)) as Hr.
  split; [done|]. split.
  - apply (instruction_shape true cy); [|exact Hj|apply Hsup]. by apply (recorded_fits c i cy c' Hr), Hs.
  - apply (instruction_outcome c Hok Hmmu); try done; apply Hs.
Qed.

Lemma cycle_query_at {A} (noop : A) method xl j : jolt_instruction true i = Some j ->
  cycle_query noop method xl cy = method (query j) xl cy.
Proof.
  intros Hj. unfold cycle_query. rewrite Hrv. fold i. destruct step_not_padding as [H1 _].
  destruct i; try done; by rewrite Hj.
Qed.

(** The columns of the memory access. *)
Lemma ram_columns fl : ram_ok fl i cy c' ->
  let ra := RAMAccess_address (ram_access cy) in
  let '(rd, wr) := RAMAccess_values (ram_access cy) in
  ra = (if fl Load || fl Store then rs1 cy + imm_of i else 0) /\
  (fl Load = true -> rd = wr /\ rd = as_u64 (x c' (rd_of i))) /\
  (fl Store = true -> exclusive (fl Load) (fl Store) -> wr = rs2 cy).
Proof.
  unfold ram_ok, exclusive. destruct (fl Load), (fl Store); intros H;
    try (destruct H as (d & Hd & E & Hx)); try (destruct H as (d & Hd & E)); try rewrite E; try rewrite H; cbn; split_and!; try done; auto.
Qed.

(** The row exists and records the step. *)
Lemma traced_row_holds trace t : trace !! t = Some cy -> trace !! S t = Some nc ->
  exists row, from_trace b trace t = Ok row /\ flags row = f /\ row_holds row.
Proof.
  intros Hcy Hnc. destruct step_parts as (j & Hj & Hf & Hr & Hsh & Ho). fold i in Hs.
  destruct Hsh as (l & r & ll & rl & Hin & Hlo & [sl sr sll srl] & Hl & Hrr & Hll & Hrl).
  destruct Ho as (Hx' & Hram & out & Hout & [Our Oas Owr Oj Ob Ost]).
  pose proof (jolt_flags_exclusive true i j (ni_inline_sequence_remaining (normalize i)) (ni_is_compressed (normalize i)) Hj) as Hex.
  fold i in sl, sr, sll, srl. fold (flags_of j i) in sl, sr, sll, srl, Hex. rewrite <- Hf in *.
  assert (Hrd : forall k, k = WriteLookupOutputToRD \/ k = Jump \/ k = Load -> f k = true -> snd (rd_write cy) = as_u64 (x c' (rd_of i))).
  { intros k Hk Hfk. rewrite Hf in Hfk. by apply (recorded_rd c i j cy c' Hr Hj k). }
  apply ram_columns in Hram. cbv zeta in Hram. destruct (RAMAccess_values (ram_access cy)) as [mr mw] eqn:Em. destruct Hram as (Ra & Rl & Rs).
  destruct Hs as [_ Efl [Hpc0 Epc] _ Hty Hinner Eg Hnoop Hnext Ep Eq Hinl]. fold i in Efl, Epc, Hty, Hnext.
  assert (Hjb : f Jump && f Branch = false) by (rewrite Hf; apply (jump_branch_exclusive _ _ _ _ Hj)).
  assert (Hctl := next_columns f g (address_of i) (imm_of i) (pc c) (pc c') (address_of (cycle_instruction nc)) out
    Hjb Epc Hinner Hnoop Hnext (fun H => proj1 (Oj H)) Ob Ost).
  destruct (S64_from_signed_ok r Hrr) as (rs & Ers & Vrs).
  destruct (S64_from_signed_ok (imm_of i)) as (im & Eim & Vim); [apply typed_imm; [congruence|done]|].
  eexists. split.
  - unfold from_trace. rewrite Hcy. fold i. rewrite Efl. cbn [res_bind]. unfold build_xlen, Cycle_to_instruction_inputs,
      Cycle_to_lookup_operands, Cycle_to_lookup_output. rewrite !(cycle_query_at _ _ _ j Hj), Hrv, Hin. cbn [res_bind fst snd].
    rewrite Ers. cbn [res_bind]. rewrite Hlo, Hout. cbn [res_bind]. rewrite Ep, Hnc. cbn [res_bind]. rewrite Eq. cbn [res_bind].
    unfold row_immediate. rewrite Hrv. fold (imm_of i). rewrite Eim. cbn [res_bind]. rewrite Eg. cbn [res_bind]. rewrite Em. reflexivity.
  - split; [reflexivity|]. change (imm cy) with (imm_of i) in *. change (instruction_address cy) with (address_of i) in *.
    assert (EX : 2 ^ XLEN = 2 ^ 64) by (unfold XLEN; by rewrite Hrv).
    constructor; cbn [left_input right_input product left_lookup right_lookup lookup_output rd_addr rs1_read_value rs2_read_value
      rd_write_value ram_addr ram_read_value ram_write_value row_pc next_pc unexpanded_pc next_unexpanded_pc row_imm flags
      next_is_noop should_jump should_branch write_lookup_output_to_rd_addr write_pc_to_rd_addr fst snd]; cbv zeta;
      rewrite ?Vrs, ?Vim, ?EX; try done.
    + intros E. rewrite (Hrd Load) by auto. by apply Rl.
    + intros E. symmetry. apply Rs; [done|apply Hex].
    + destruct (f WriteLookupOutputToRD) eqn:E; [|done]. intros _. rewrite (Hrd WriteLookupOutputToRD) by auto. by apply Owr.
    + destruct (f Jump) eqn:E; [|done]. intros H0. rewrite (Hrd Jump) by auto. rewrite (proj2 (Oj eq_refl) H0), (as_u64_small _ Hpc0).
      exact Epc.
    + intros [E1 E2%negb_true_iff]%andb_true_iff. by apply Hctl.
    + destruct (f Branch) eqn:E; [|done]. by apply Hctl.
    + apply Hctl.
Qed.

End Row.

(** ** Properties *)


(** A machine about to execute the instruction at the start of the RAM, and the
    loop that ends a program. *)
Definition sample_at (a b : Z) : Cpu := set_pc (DRAM_BASE + 4) (sample_cpu a b).
Definition sample_loop : Instruction := InstrJ JAL (mkInstr (DRAM_BASE + 4) (mkFormatJ 0 0) None false).
Definition sample_loop_cycle : Cycle := mkCycle sample_loop RegisterState_default RANoOp.
Definition sample_sub_cycle : Cycle :=
  mkCycle (InstrR SUB sample_R) (mkRegisterState 3 10 0 0 (2 ^ 64 - 7)) RANoOp.
Definition sample_code (i : Instruction) : Res BytecodePreprocessing := preprocess (H := release_rv64) [i; sample_loop].

(** The constraints [row] violates over the scalar field of BN254. *)
Definition violated (row : @R1CSCycleInputs sample_ints) : list ConstraintName :=
  map fst (List.filter (fun nc : ConstraintName * Constraint => let con := snd nc in
    negb (Zmod.to_Z (fmul (evaluate_row_with (F := Zmod bn254_modulus) row (con_a con)) (evaluate_row_with row (con_b con)))
          =? Zmod.to_Z (evaluate_row_with (F := Zmod bn254_modulus) row (con_c con)))) (@UNIFORM_R1CS release_rv64)).

(** The rows of the program [i; loop], with [a] in [x5] and [b] in [x6]: bytecode,
    trace, and the constraints each row violates. *)
Definition program_rows (i : Instruction) (a b : Z) : Res (list (list ConstraintName)) :=
  let? p := @expand_program release_rv64 empty_registry Bit64 [i; sample_loop] VirtualRegisterAllocator_new in
  let? bc := preprocess (H := release_rv64) (fst p) in
  let? r := @Instruction_trace release_rv64 empty_registry i (sample_at a b) in
  let cycles := fst r ++ [sample_loop_cycle] in
  (fix go (ts : list nat) : Res (list (list ConstraintName)) :=
     match ts with
     | [] => Ok []
     | t :: ts =>
         let? row := @from_trace release_rv64 sample_ints bc cycles t in
         let? rest := go ts in Ok (violated row :: rest)
     end) (seq 0 (length (fst r))).

Definition violations (i : Instruction) (a b : Z) : Res (list ConstraintName) :=
  let? rows := program_rows i a b in Ok (concat rows).


(** ** Witness *)

Lemma sample_at_ok a b : is_i64 a -> is_i64 b -> cpu_ok64 (sample_at a b).
Proof. intros Ha Hb. destruct (sample_ok a b Ha Hb). by constructor. Qed.

