(* ===== verification/Carry.v ===== *)
(** * Carries in parallel

    The mathematics of the Kogge-Stone adders ([protocols/rep3/detail.rs],
    [protocols/rep3_ring/detail.rs]): generate and propagate bits of windows of
    positions, how a doubling step widens the windows, and that the full windows
    are the carries of an addition. *)

From Stdlib Require Import ZArith Lia Bool Btauto.
From stdpp Require Import base tactics.
From S2P Require Import Prelude Words.
Local Open Scope Z_scope.

(** ** Words of [w] bits *)

Definition word (w a : Z) : Prop := 0 <= a < 2 ^ w.

Lemma bword_bits w a : 0 <= w -> word w a <-> 0 <= a /\ forall m, w <= m -> Z.testbit a m = false.
Proof.
  intros Hw. unfold word. split.
  - intros [H0 H1]. split; [done|]. intros m Hm. destruct (Z.eq_dec a 0) as [->|Ha]; [apply Z.testbit_0_l|].
    apply Z.bits_above_log2; [done|]. apply Z.log2_lt_pow2 in H1; lia.
  - intros [H0 H1]. split; [done|]. destruct (Z.eq_dec a 0) as [->|Ha]; [lia|].
    apply Z.log2_lt_pow2; [lia|]. destruct (Z.lt_ge_cases (Z.log2 a) w) as [H|H]; [done|].
    apply H1 in H. rewrite Z.bit_log2 in H by lia. done.
Qed.

Lemma bword_high w a m : 0 <= w -> word w a -> w <= m -> Z.testbit a m = false.
Proof. intros Hw [_ Ha]%bword_bits; auto. Qed.

Lemma bword_lxor w a b : 0 <= w -> word w a -> word w b -> word w (Z.lxor a b).
Proof.
  intros Hw Ha Hb. apply bword_bits in Ha as [A0 A1], Hb as [B0 B1]; [|done..]. apply bword_bits; [done|].
  split; [apply Z.lxor_nonneg; lia|]. intros m Hm. by rewrite Z.lxor_spec, A1, B1.
Qed.
Lemma bword_land w a b : 0 <= w -> word w a -> 0 <= b -> word w (Z.land a b).
Proof.
  intros Hw Ha Hb. apply bword_bits in Ha as [A0 A1]; [|done]. apply bword_bits; [done|].
  split; [apply Z.land_nonneg; lia|]. intros m Hm. by rewrite Z.land_spec, A1.
Qed.
Lemma word_land_r w a b : 0 <= w -> 0 <= a -> word w b -> word w (Z.land a b).
Proof. intros. rewrite Z.land_comm. by apply bword_land. Qed.
Lemma word_shiftr w a n : 0 <= n <= w -> word w a -> word (w - n) (Z.shiftr a n).
Proof.
  intros Hn Ha. apply bword_bits in Ha as [A0 A1]; [|lia]. apply bword_bits; [lia|].
  split; [by apply Z.shiftr_nonneg|]. intros m Hm. rewrite Z.shiftr_spec by lia. apply A1. lia.
Qed.
Lemma word_shiftl w a n : 0 <= w -> 0 <= n -> word w a -> word (w + n) (Z.shiftl a n).
Proof. intros Hw Hn [A0 A1]. unfold word. rewrite Z.shiftl_mul_pow2, Z.pow_add_r by lia. nia. Qed.
Lemma word_weaken w w' a : w <= w' -> word w a -> word w' a.
Proof. intros Hw [A0 A1]. split; [done|]. apply Z.lt_le_trans with (1 := A1). by apply Z.pow_le_mono_r. Qed.
Lemma word_mask w : 0 <= w -> word w (Z.shiftl 1 w - 1).
Proof. intros Hw. unfold word. rewrite Z.shiftl_1_l. lia. Qed.
Lemma word_mod w a : 0 <= w -> word w (a mod 2 ^ w).
Proof. intros Hw. apply Z.mod_pos_bound. lia. Qed.

Lemma word_nonneg w a : word w a -> 0 <= a.
Proof. by intros []. Qed.

Create HintDb words.
#[export] Hint Resolve bword_lxor bword_land word_land_r word_shiftl word_shiftr word_mask word_nonneg : words.

Lemma tb_mask w m : 0 <= w -> Z.testbit (Z.shiftl 1 w - 1) m = (0 <=? m) && (m <? w).
Proof. intros Hw. rewrite Z.shiftl_1_l, Z.sub_1_r. rewrite <- Z.ones_equiv. by apply tb_ones. Qed.

(** Bits of nonnegative integers. *)
Lemma bits_eq a b : 0 <= a -> 0 <= b -> (forall m, 0 <= m -> Z.testbit a m = Z.testbit b m) -> a = b.
Proof. intros _ _ H. by apply Z.bits_inj'. Qed.

(** ** Windows *)

Section Windows.
Variables p g : Z.

(** All of the [n] positions up to [j] propagate; a carry is generated in them. *)
Fixpoint Pw (n : nat) (j : Z) : bool := match n with O => true | S n => Z.testbit p j && Pw n (j - 1) end.
Fixpoint Gw (n : nat) (j : Z) : bool := match n with O => false | S n => xorb (Z.testbit g j) (Z.testbit p j && Gw n (j - 1)) end.

Lemma Pw_add n m j : Pw (n + m) j = Pw n j && Pw m (j - Z.of_nat n).
Proof.
  revert j. induction n as [|n IH]; intros j; [by rewrite Z.sub_0_r|].
  cbn [Nat.add Pw]. rewrite IH. replace (j - 1 - Z.of_nat n) with (j - Z.of_nat (S n)) by lia. btauto.
Qed.
Lemma Gw_add n m j : Gw (n + m) j = xorb (Gw n j) (Pw n j && Gw m (j - Z.of_nat n)).
Proof.
  revert j. induction n as [|n IH]; intros j.
  - cbn. rewrite Z.sub_0_r. by destruct (Gw m j).
  - cbn [Nat.add Pw Gw]. rewrite IH. replace (j - 1 - Z.of_nat n) with (j - Z.of_nat (S n)) by lia. btauto.
Qed.

(** Below position 0 there is nothing. *)
Lemma Gw_neg n j : j < 0 -> Gw n j = false.
Proof. intros Hj. destruct n; [done|]. cbn. by rewrite !Z.testbit_neg_r. Qed.
Lemma Pw_neg n j : j < 0 -> (0 < n)%nat -> Pw n j = false.
Proof. intros Hj Hn. destruct n; [lia|]. cbn. by rewrite Z.testbit_neg_r. Qed.

Lemma Gw_enough n m j : j < Z.of_nat n -> (n <= m)%nat -> Gw n j = Gw m j.
Proof.
  intros Hj Hm. replace m with (n + (m - n))%nat by lia. rewrite Gw_add, (Gw_neg (m - n)) by lia. by destruct (Gw n j), (Pw n j).
Qed.

End Windows.

(** ** The carries of an addition *)

(** The carry out of position [j] of [x + y + c]. *)
Definition carry_out (x y : Z) (c : bool) (j : Z) : bool :=
  Gw (Z.lxor x y) (Z.lxor (Z.land x y) (if c then Z.land (Z.lxor x y) 1 else 0)) (S (Z.to_nat j)) j.

Lemma testbit_1 m : Z.testbit 1 m = (m =? 0).
Proof.
  destruct (Z.eqb_spec m 0) as [->|Hm]; [done|]. destruct (Z.lt_ge_cases m 0); [by apply Z.testbit_neg_r|].
  apply (Z.bits_above_log2 1); cbn; lia.
Qed.

Lemma carry_out_spec x y c : exists v, x + y + Z.b2z c = Z.lxor (Z.lxor x y) v /\ Z.testbit v 0 = c /\
  forall j, 0 <= j -> Z.testbit v (j + 1) = carry_out x y c j.
Proof.
  destruct (Z.add_carry_bits x y c) as (v & Hv & Hc & H0). exists v. split; [exact Hv|]. split; [done|].
  assert (Hn : forall k, 0 <= k -> Z.testbit v (Z.succ k) = Z.testbit (Z.lor (Z.land x y) (Z.land v (Z.lor x y))) k).
  { intros k Hk. by rewrite <- Hc, Z.div2_bits. }
  intros j Hj. unfold carry_out. pattern j. apply natlike_ind; [| |done].
  - cbn [Z.to_nat Gw]. rewrite (Gw_neg _ _ _ (0 - 1)) by lia. change (0 + 1) with (Z.succ 0). rewrite Hn by lia.
    rewrite !Z.lor_spec, !Z.land_spec, !Z.lor_spec, H0, !Z.lxor_spec, Z.land_spec. destruct c; [rewrite Z.land_spec, Z.lxor_spec|].
    all: rewrite ?Z.testbit_0_l, ?testbit_1; destruct (Z.testbit x 0), (Z.testbit y 0); done.
  - intros k Hk IH. rewrite Z2Nat.inj_succ by done. cbn [Gw]. replace (Z.succ k - 1) with k by lia. cbn [Gw] in IH.
    rewrite <- IH, Z.add_1_r, Hn by lia. rewrite Z.add_1_r.
    rewrite !Z.lor_spec, !Z.land_spec, !Z.lor_spec, !Z.lxor_spec, Z.land_spec.
    assert (E : Z.testbit (if c then Z.land (Z.lxor x y) 1 else 0) (Z.succ k) = false).
    { destruct c; [|apply Z.testbit_0_l]. rewrite Z.land_spec, testbit_1. rewrite (proj2 (Z.eqb_neq (Z.succ k) 0)) by lia. apply andb_false_r. }
    rewrite E. destruct (Z.testbit x (Z.succ k)), (Z.testbit y (Z.succ k)), (Z.testbit v (Z.succ k)); done.
Qed.

(** ** The adder of [rep3/detail.rs], on clear values *)

(** [while x > 0 { x >>= 1; y += 1 }] *)
Fixpoint count_shifts (x : positive) : nat := match x with xH => 1 | xO x | xI x => S (count_shifts x) end.
(** [ceil_log2], of a positive [usize] *)
Definition ceil_log2 (x : Z) : nat := match (x - 1)%Z with Zpos p => count_shifts p | _ => 0 end.

Definition ks_mask (bitlen shift : Z) : Z := Z.shiftl 1 (bitlen - shift) - 1.
Definition ks_step_p (bitlen shift p : Z) : Z := Z.shiftl (Z.land (Z.shiftr p shift) (Z.land p (ks_mask bitlen shift))) shift.
Definition ks_step_g (bitlen shift p g : Z) : Z :=
  Z.lxor g (Z.shiftl (Z.land (Z.land g (ks_mask bitlen shift)) (Z.shiftr p shift)) shift).

(** [d] steps from step [i]. *)
Fixpoint ks_loop (d : nat) (i bitlen p g : Z) : Z :=
  match d with
  | O => g
  | S d => let shift := Z.shiftl 1 i in ks_loop d (i + 1) bitlen (ks_step_p bitlen shift p) (ks_step_g bitlen shift p g)
  end.

Definition ks_sum (bitlen p g : Z) : Z := Z.lxor (Z.shiftl (ks_loop (ceil_log2 bitlen) 0 bitlen p g) 1) p.

Lemma count_shifts_bounds x : 2 ^ Z.of_nat (count_shifts x - 1) <= Zpos x < 2 ^ Z.of_nat (count_shifts x).
Proof.
  induction x as [x IH|x IH|]; [| |cbn; lia]; cbn [count_shifts]; rewrite Nat.sub_succ, Nat.sub_0_r;
    replace (Z.of_nat (S (count_shifts x))) with (Z.of_nat (count_shifts x) + 1) by lia; rewrite Z.pow_add_r by lia;
    assert (1 <= count_shifts x)%nat by (destruct x; cbn; lia);
    replace (2 ^ Z.of_nat (count_shifts x)) with (2 * 2 ^ Z.of_nat (count_shifts x - 1)) in *
      by (rewrite <- Z.pow_succ_r by lia; f_equal; lia); lia.
Qed.

Lemma ceil_log2_upper n : n <= 2 ^ Z.of_nat (ceil_log2 n).
Proof.
  unfold ceil_log2. destruct (n - 1) as [|x|x] eqn:E; [cbn; lia| |cbn; lia]. pose proof (count_shifts_bounds x). lia.
Qed.
Lemma ceil_log2_lower n i : 0 <= i < Z.of_nat (ceil_log2 n) -> 2 ^ i < n.
Proof.
  unfold ceil_log2. destruct (n - 1) as [|x|x] eqn:E; try (cbn; lia). intros Hi. pose proof (count_shifts_bounds x) as [H _].
  assert (2 ^ i <= 2 ^ Z.of_nat (count_shifts x - 1)) by (apply Z.pow_le_mono_r; lia). lia.
Qed.

Section Adder.
Variables (bitlen p g : Z).
Hypothesis Hb : 0 < bitlen.
Hypothesis Hp : 0 <= p.
Hypothesis Hg : word bitlen g.

(** The state after windows of [n] positions. *)
Definition ks_state (n : nat) (p' g' : Z) : Prop :=
  0 <= p' /\ word bitlen g' /\
  forall j, 0 <= j < bitlen -> Z.testbit p' j = Pw p n j /\ Z.testbit g' j = Gw p g n j.

Lemma ks_step_state n p' g' : (0 < n)%nat -> Z.of_nat n < bitlen -> ks_state n p' g' ->
  ks_state (n + n) (ks_step_p bitlen (Z.of_nat n) p') (ks_step_g bitlen (Z.of_nat n) p' g').
Proof.
  intros Hn Hlt (P0 & G0 & H). set (s := Z.of_nat n) in *.
  assert (Hm : word (bitlen - s) (ks_mask bitlen s)) by (apply word_mask; lia).
  assert (M0 : 0 <= ks_mask bitlen s) by apply Hm. pose proof G0 as [G1 _].
  split; [|split].
  - apply Z.shiftl_nonneg, Z.land_nonneg. left. by apply Z.shiftr_nonneg.
  - apply bword_lxor; [lia|done|]. replace bitlen with (bitlen - s + s) at 1 by lia. apply word_shiftl; [lia..|].
    apply bword_land; [lia| |by apply Z.shiftr_nonneg]. by apply word_land_r; [lia|..].
  - intros j Hj. unfold ks_step_p, ks_step_g. rewrite !Pw_add, !Gw_add. fold s.
    destruct (H j Hj) as [<- <-]. rewrite Z.lxor_spec, !Z.shiftl_spec by lia.
    destruct (Z.lt_ge_cases j s) as [Hs|Hs].
    + rewrite !(Z.testbit_neg_r _ (j - s)) by lia. rewrite Pw_neg, Gw_neg by lia. by rewrite !andb_false_r, xorb_false_r.
    + destruct (H (j - s)) as [<- <-]; [lia|]. rewrite !Z.land_spec, Z.shiftr_spec by lia. unfold ks_mask.
      rewrite tb_mask, (proj2 (Z.leb_le 0 (j - s))), (proj2 (Z.ltb_lt (j - s) (bitlen - s))) by lia.
      replace (j - s + s) with j by lia. split; btauto.
Qed.

Lemma ks_loop_state d : forall i p' g', 0 <= i -> (forall k, i <= k < i + Z.of_nat d -> 2 ^ k < bitlen) ->
  ks_state (Z.to_nat (2 ^ i)) p' g' ->
  word bitlen (ks_loop d i bitlen p' g') /\
  forall j, 0 <= j < bitlen -> Z.testbit (ks_loop d i bitlen p' g') j = Gw p g (Z.to_nat (2 ^ (i + Z.of_nat d))) j.
Proof.
  induction d as [|d IH]; intros i p' g' Hi Hk Hst.
  - cbn. rewrite Z.add_0_r. destruct Hst as (_ & ? & H). split; [done|]. intros j Hj. by apply H.
  - cbn [ks_loop]. rewrite Z.shiftl_1_l. replace (i + Z.of_nat (S d)) with (i + 1 + Z.of_nat d) by lia. apply IH; [lia|..].
    { intros k ?. apply Hk. lia. }
    assert (E : Z.to_nat (2 ^ (i + 1)) = (Z.to_nat (2 ^ i) + Z.to_nat (2 ^ i))%nat)
      by (rewrite Z.pow_add_r by lia; lia).
    rewrite E. specialize (Hk i ltac:(lia)). pose proof (ks_step_state (Z.to_nat (2 ^ i)) p' g') as Hs.
    rewrite Z2Nat.id in Hs by lia. apply Hs; [lia..|done].
Qed.

(** Bit [j] of the sum is the carry out of position [j - 1] on bit [j] of [p]. *)
Lemma ks_sum_bits j : 0 <= j ->
  Z.testbit (ks_sum bitlen p g) j = xorb (Z.testbit p j) ((0 <? j) && (j <=? bitlen) && Gw p g (Z.to_nat j) (j - 1)).
Proof.
  intros Hj. destruct (ks_loop_state (ceil_log2 bitlen) 0 p g) as [Hw Hl]; [lia|..].
  { intros k Hk. apply ceil_log2_lower. lia. }
  { split; [done|]. split; [done|]. intros k Hk. change (Z.to_nat (2 ^ 0)) with 1%nat. cbn [Pw Gw].
    by rewrite andb_false_r, xorb_false_r, andb_true_r. }
  unfold ks_sum. rewrite Z.lxor_spec, Z.shiftl_spec by lia. rewrite xorb_comm. f_equal.
  destruct (Z.ltb_spec 0 j) as [H0|H0]; [|by rewrite Z.testbit_neg_r by lia].
  destruct (Z.leb_spec j bitlen) as [H1|H1]; cbn [andb].
  - rewrite Hl by lia. symmetry. pose proof (ceil_log2_upper bitlen). rewrite Z.add_0_l. apply Gw_enough; lia.
  - apply (bword_high bitlen); [lia|done|lia].
Qed.

End Adder.

(** The adder adds, with the carry in put in [g] and the lowest bit. *)
Lemma ks_sum_add bitlen x y (c : bool) : 0 < bitlen -> word bitlen x -> word bitlen y ->
  Z.lxor (ks_sum bitlen (Z.lxor x y) (Z.lxor (Z.land x y) (if c then Z.land (Z.lxor x y) 1 else 0))) (Z.b2z c) = x + y + Z.b2z c.
Proof.
  intros Hb Hx Hy. destruct (carry_out_spec x y c) as (v & Hv & H0 & Hc). rewrite Hv. apply Z.bits_inj'. intros j Hj.
  assert (Hxy : word bitlen (Z.lxor x y)) by (apply bword_lxor; [lia|done..]).
  assert (Hand : word bitlen (Z.land x y)) by (apply bword_land; [lia|done|apply Hy]).
  rewrite !Z.lxor_spec, ks_sum_bits; [|done|apply Hxy| |done].
  2:{ apply bword_lxor; [lia|done|]. destruct c; [apply bword_land; [lia|done|lia]|split; lia]. }
  rewrite Z.lxor_spec. destruct (Z.ltb_spec 0 j) as [Hj0|Hj0]; cbn [andb].
  - replace (Z.testbit (Z.b2z c) j) with false by (destruct c; cbn; rewrite ?testbit_1, ?Z.testbit_0_l; symmetry; [apply Z.eqb_neq; lia|done]).
    rewrite xorb_false_r. f_equal. replace (Z.testbit v j) with (carry_out x y c (j - 1)) by (rewrite <- Hc by lia; f_equal; lia).
    unfold carry_out. replace (S (Z.to_nat (j - 1))) with (Z.to_nat j) by lia.
    destruct (Z.leb_spec j bitlen) as [H1|H1]; [done|]. cbn [andb]. symmetry.
    replace (Z.to_nat j) with (S (Z.to_nat j - 1)) by lia. cbn [Gw]. rewrite Z.lxor_spec, (bword_high bitlen _ (j - 1) ltac:(lia) Hand ltac:(lia)).
    rewrite (bword_high bitlen _ (j - 1) ltac:(lia) Hxy ltac:(lia)). cbn [andb]. rewrite !xorb_false_r, xorb_false_l.
    destruct c; [|apply Z.testbit_0_l]. by rewrite Z.land_spec, (bword_high bitlen _ (j - 1) ltac:(lia) Hxy ltac:(lia)).
  - replace j with 0 by lia. rewrite H0. rewrite xorb_false_r. f_equal. by destruct c.
Qed.
