(* ===== verification/Ring2k.v ===== *)
(** * Integers modulo a power of two

    [mpc-core/src/protocols/rep3_ring/ring]: the types that implement [IntRing2k]
    ([Bit], the machine integers, [U34] and [U66]), the operations of
    [RingElement] on them as they are implemented, and that every one of them is
    the operation of the ring modulo [2 ^ K]. *)

From Stdlib Require Import ZArith Lia List Bool Setoid Morphisms Btauto.
From stdpp Require Import base list.
From S2P Require Import Prelude Words Carry.
Import ListNotations.
Local Open Scope Z_scope.

Inductive RingType := Bit | U8 | U16 | U32 | U64 | U128 | U34 | U66.

#[export] Instance RingType_eq_dec : EqDecision RingType. Proof. solve_decision. Defined.

(** [IntRing2k::K], [IntRing2k::BYTES] *)
Definition K (T : RingType) : Z :=
  match T with Bit => 1 | U8 => 8 | U16 => 16 | U32 => 32 | U64 => 64 | U128 => 128 | U34 => 34 | U66 => 66 end.
Definition BYTES (T : RingType) : Z :=
  match T with Bit => 1 | U8 => 1 | U16 => 2 | U32 => 4 | U64 => 8 | U128 => 16 | U34 => 5 | U66 => 9 end.

Definition MASK34 : Z := Z.shiftl 1 34 - 1.
Definition MASK66 : Z := Z.shiftl 1 66 - 1.

(** ** Operators *)

(** Machine integers wrap at their width; [U34] and [U66] compute on [u64] and
    [u128] and mask. *)
Definition wrapped (T : RingType) (z : Z) : Z :=
  match T with
  | U34 => Z.land (z mod 2 ^ 64) MASK34
  | U66 => Z.land (z mod 2 ^ 128) MASK66
  | _ => z mod 2 ^ K T
  end.

Definition ring_add (T : RingType) (a b : Z) : Z := match T with Bit => Z.lxor a b | _ => wrapped T (a + b) end.
Definition ring_sub (T : RingType) (a b : Z) : Z := match T with Bit => Z.lxor a b | _ => wrapped T (a - b) end.
Definition ring_mul (T : RingType) (a b : Z) : Z := match T with Bit => Z.land a b | _ => wrapped T (a * b) end.
Definition ring_neg (T : RingType) (a : Z) : Z := match T with Bit => a | _ => wrapped T (- a) end.

Definition ring_xor (T : RingType) (a b : Z) : Z :=
  match T with U34 => Z.land (Z.lxor a b) MASK34 | U66 => Z.land (Z.lxor a b) MASK66 | _ => Z.lxor a b end.
Definition ring_or (T : RingType) (a b : Z) : Z :=
  match T with U34 => Z.land (Z.lor a b) MASK34 | U66 => Z.land (Z.lor a b) MASK66 | _ => Z.lor a b end.
Definition ring_and (T : RingType) (a b : Z) : Z := Z.land a b.
Definition ring_not (T : RingType) (a : Z) : Z := match T with Bit => 1 - a | _ => wrapped T (Z.lnot a) end.

(** The shifts of [RingElement], which guard those of the inner type *)
Definition ring_shl (T : RingType) (a n : Z) : Z :=
  if K T <=? n then 0 else match T with Bit => if n =? 0 then a else 0 | _ => wrapped T (Z.shiftl a n) end.
Definition ring_shr (T : RingType) (a n : Z) : Z :=
  if K T <=? n then 0 else match T with Bit => if n =? 0 then a else 0 | _ => Z.shiftr a n end.

(** [RingElement::get_bit], by the shift of the inner type *)
Definition get_bit (T : RingType) (a index : Z) : Z := Z.land (Z.shiftr a index) 1.

(** [IntRing2k::bits] *)
Definition ring_bits (T : RingType) (a : Z) : Z := match T with Bit => a | _ => if a =? 0 then 0 else Z.log2 a end.

(** [cast_from_biguint]: one or two digits of 64 bits *)
Definition cast_from_biguint (T : RingType) (z : Z) : Z :=
  match T with
  | Bit => Z.land (z mod 2 ^ 64) 1
  | U128 => Z.lor (Z.shiftl (Z.shiftr z 64 mod 2 ^ 64) 64) (z mod 2 ^ 64)
  | U66 => Z.land (Z.lor (Z.shiftl (Z.shiftr z 64 mod 2 ^ 64) 64) (z mod 2 ^ 64)) MASK66
  | U34 => Z.land (z mod 2 ^ 64) MASK34
  | _ => (z mod 2 ^ 64) mod 2 ^ K T
  end.

(** [AsPrimitive::as_] between the types that have it *)
Definition as_ (T U : RingType) (a : Z) : Z :=
  match U with Bit => match T with Bit => a | _ => if Z.land a 1 =? 1 then 1 else 0 end | _ => a mod 2 ^ K U end.

(** ** Serialization *)

Fixpoint to_le_bytes (n : nat) (z : Z) : list Z :=
  match n with O => [] | S n => z mod 256 :: to_le_bytes n (z / 256) end.
Fixpoint from_le_bytes (l : list Z) : Z := match l with [] => 0 | b :: l => b + 256 * from_le_bytes l end.

(** [write]: what is appended *)
Definition ring_write (T : RingType) (a : Z) : list Z :=
  match T with
  | Bit => [a]
  | U34 => take 5 (to_le_bytes 8 a)
  | U66 => take 9 (to_le_bytes 16 a)
  | _ => to_le_bytes (Z.to_nat (BYTES T)) a
  end.

(** [from_reader]: [None] at the end of the input, and for a bit that is neither 0 nor 1 *)
Definition from_reader (T : RingType) (input : list Z) : option (Z * list Z) :=
  let n := Z.to_nat (BYTES T) in
  if Nat.ltb (length input) n then None
  else
    let bytes := take n input in
    let rest := drop n input in
    match T with
    | Bit => match bytes with [0] => Some (0, rest) | [1] => Some (1, rest) | _ => None end
    | U34 => Some (Z.land (from_le_bytes bytes) MASK34, rest)
    | U66 => Some (Z.land (from_le_bytes bytes) MASK66, rest)
    | _ => Some (from_le_bytes bytes, rest)
    end.

(** ** Congruence modulo [2 ^ K] *)

Definition eqm (T : RingType) (a b : Z) : Prop := a mod 2 ^ K T = b mod 2 ^ K T.

Declare Scope ring2k_scope.
Notation "a =[ T ]= b" := (eqm T a b) (at level 70, T at level 9, no associativity) : ring2k_scope.
Local Open Scope ring2k_scope.

Lemma K_pos T : 0 < K T.
Proof. by destruct T. Qed.
Lemma modulus_pos T : 0 < 2 ^ K T.
Proof. apply Z.pow_pos_nonneg; [lia|]. pose proof (K_pos T). lia. Qed.
#[export] Hint Resolve K_pos modulus_pos : words.

#[export] Instance eqm_equiv T : Equivalence (eqm T).
Proof. split; unfold eqm; [intros x|intros x y|intros x y z]; congruence. Qed.
#[export] Instance eqm_add T : Proper (eqm T ==> eqm T ==> eqm T) Z.add.
Proof. intros a a' Ha b b' Hb. unfold eqm in *. by rewrite (Z.add_mod a), (Z.add_mod a'), Ha, Hb by (pose proof (modulus_pos T); lia). Qed.
#[export] Instance eqm_mul T : Proper (eqm T ==> eqm T ==> eqm T) Z.mul.
Proof. intros a a' Ha b b' Hb. unfold eqm in *. by rewrite (Z.mul_mod a), (Z.mul_mod a'), Ha, Hb by (pose proof (modulus_pos T); lia). Qed.
#[export] Instance eqm_opp T : Proper (eqm T ==> eqm T) Z.opp.
Proof. intros a a' Ha. rewrite !Z.opp_eq_mul_m1. by rewrite Ha. Qed.
#[export] Instance eqm_sub T : Proper (eqm T ==> eqm T ==> eqm T) Z.sub.
Proof. intros a a' Ha b b' Hb. rewrite <- !Z.add_opp_r. by rewrite Ha, Hb. Qed.

Lemma eqm_eq T a b : a = b -> a =[T]= b.
Proof. by intros ->. Qed.
Lemma eqm_mod T a : a mod 2 ^ K T =[T]= a.
Proof. unfold eqm. apply Z.mod_mod. pose proof (modulus_pos T). lia. Qed.

Lemma eqm_words T a b : word (K T) a -> word (K T) b -> a =[T]= b -> a = b.
Proof. unfold eqm, word. intros Ha Hb. by rewrite !Z.mod_small. Qed.

Lemma land_mask w z : 0 <= w -> Z.land z (Z.shiftl 1 w - 1) = z mod 2 ^ w.
Proof. intros Hw. rewrite Z.shiftl_1_l, Z.sub_1_r, <- Z.ones_equiv. by apply Z.land_ones. Qed.

Lemma wrapped_mod T z : wrapped T z = z mod 2 ^ K T.
Proof.
  destruct T; try done; cbn [wrapped K].
  - unfold MASK34. rewrite land_mask by lia. apply Z.mod_mod_divide. by exists (2 ^ 30).
  - unfold MASK66. rewrite land_mask by lia. apply Z.mod_mod_divide. by exists (2 ^ 62).
Qed.

Lemma lxor_parity a b : Z.lxor a b mod 2 = (a + b) mod 2.
Proof.
  rewrite <- !Z.bit0_mod. rewrite Z.lxor_spec. f_equal. symmetry. apply Z.add_bit0.
Qed.
Lemma land_parity a b : Z.land a b mod 2 = (a * b) mod 2.
Proof.
  rewrite <- !Z.bit0_mod. rewrite Z.land_spec. f_equal. rewrite !Z.bit0_odd, Z.odd_mul. done.
Qed.

Lemma ring_add_eqm T a b : ring_add T a b =[T]= a + b.
Proof. destruct T; [apply lxor_parity|unfold ring_add; rewrite wrapped_mod; apply eqm_mod..]. Qed.
Lemma ring_sub_eqm T a b : ring_sub T a b =[T]= a - b.
Proof.
  destruct T; [|unfold ring_sub; rewrite wrapped_mod; apply eqm_mod..]. unfold eqm. cbn [ring_sub K]. rewrite lxor_parity.
  change (2 ^ 1) with 2. replace (a + b) with (a - b + b * 2) by lia. apply Z.mod_add. lia.
Qed.
Lemma ring_mul_eqm T a b : ring_mul T a b =[T]= a * b.
Proof. destruct T; [apply land_parity|unfold ring_mul; rewrite wrapped_mod; apply eqm_mod..]. Qed.
Lemma ring_neg_eqm T a : ring_neg T a =[T]= - a.
Proof.
  destruct T; [|unfold ring_neg; rewrite wrapped_mod; apply eqm_mod..]. unfold eqm. cbn [ring_neg K]. change (2 ^ 1) with 2.
  replace a with (- a + a * 2) at 1 by lia. apply Z.mod_add. lia.
Qed.

(** Results are words. *)
Lemma word_wrapped T z : word (K T) (wrapped T z).
Proof. rewrite wrapped_mod. apply word_mod. pose proof (K_pos T). lia. Qed.
Lemma ring_add_word T a b : word (K T) a -> word (K T) b -> word (K T) (ring_add T a b).
Proof. intros. destruct T; [by apply bword_lxor|apply word_wrapped..]. Qed.
Lemma ring_sub_word T a b : word (K T) a -> word (K T) b -> word (K T) (ring_sub T a b).
Proof. intros. destruct T; [by apply bword_lxor|apply word_wrapped..]. Qed.
Lemma ring_mul_word T a b : word (K T) a -> word (K T) b -> word (K T) (ring_mul T a b).
Proof. intros ? Hb. destruct T; [by apply bword_land; [..|apply Hb]|apply word_wrapped..]. Qed.
Lemma ring_neg_word T a : word (K T) a -> word (K T) (ring_neg T a).
Proof. intros. destruct T; [done|apply word_wrapped..]. Qed.

(** Bitwise operators on words. *)
Lemma K_nonneg T : 0 <= K T.
Proof. by destruct T. Qed.
Lemma ring_xor_word T a b : word (K T) a -> word (K T) b -> ring_xor T a b = Z.lxor a b.
Proof.
  intros Ha Hb. pose proof (bword_lxor (K T) a b (K_nonneg T) Ha Hb) as H. destruct T; try done; cbn [ring_xor];
    unfold MASK34, MASK66; rewrite land_mask by lia; by apply Z.mod_small.
Qed.
Lemma lnot_mod w a : 0 <= w -> word w a -> Z.lnot a mod 2 ^ w = Z.lxor a (Z.shiftl 1 w - 1).
Proof.
  intros Hw Ha. rewrite <- land_mask by done. apply Z.bits_inj'. intros m Hm.
  rewrite Z.land_spec, Z.lxor_spec, Z.lnot_spec, tb_mask by done.
  destruct (Z.ltb_spec m w) as [H|H]; [rewrite (proj2 (Z.leb_le 0 m)) by done|rewrite (bword_high w a m Hw Ha H)]; btauto.
Qed.
Lemma ring_not_word T a : word (K T) a -> ring_not T a = Z.lxor a (Z.shiftl 1 (K T) - 1).
Proof.
  intros Ha. destruct T; [|cbn [ring_not]; rewrite wrapped_mod; apply lnot_mod; [apply K_nonneg|done]..].
  cbn [ring_not K] in *. unfold word in Ha. by assert (a = 0 \/ a = 1) as [-> | ->] by lia.
Qed.
Lemma ring_shl_mod T a n : 0 <= n -> word (K T) a -> ring_shl T a n = Z.shiftl a n mod 2 ^ K T.
Proof.
  intros Hn Ha. unfold ring_shl. rewrite Z.shiftl_mul_pow2 by done. destruct (Z.leb_spec (K T) n) as [H|H].
  - replace (2 ^ n) with (2 ^ (n - K T) * 2 ^ K T) by (rewrite <- Z.pow_add_r by (pose proof (K_pos T); lia); f_equal; lia).
    rewrite Z.mul_assoc, Z.mod_mul; [done|]. pose proof (modulus_pos T). lia.
  - destruct T; [|rewrite <- Z.shiftl_mul_pow2 by done; apply wrapped_mod..]. cbn [K] in *. replace n with 0 by lia.
    rewrite Z.mul_1_r. symmetry. by apply Z.mod_small.
Qed.
Lemma ring_shr_word T a n : 0 <= n -> word (K T) a -> ring_shr T a n = Z.shiftr a n.
Proof.
  intros Hn Ha. unfold ring_shr. destruct (Z.leb_spec (K T) n) as [H|H].
  - symmetry. rewrite Z.shiftr_div_pow2 by done. apply Z.div_small. destruct Ha. split; [done|].
    eapply Z.lt_le_trans; [eassumption|]. by apply Z.pow_le_mono_r.
  - destruct T; [|done..]. cbn [K] in *. replace n with 0 by lia. by rewrite Z.shiftr_0_r.
Qed.

Lemma digits_mod z w : 0 <= z -> 64 <= w <= 128 ->
  Z.lor (Z.shiftl (Z.shiftr z 64 mod 2 ^ 64) 64) (z mod 2 ^ 64) mod 2 ^ w = z mod 2 ^ w.
Proof.
  intros Hz Hw. apply Z.bits_inj'. intros m Hm. rewrite !Z.testbit_mod_pow2 by lia. destruct (Z.ltb_spec m w); [|done]. cbn [andb].
  rewrite Z.lor_spec, Z.shiftl_spec, !Z.testbit_mod_pow2 by lia. destruct (Z.lt_ge_cases m 64).
  - by rewrite (Z.testbit_neg_r _ (m - 64)), andb_false_r, (proj2 (Z.ltb_lt m 64)) by lia.
  - rewrite (proj2 (Z.ltb_ge m 64)), (proj2 (Z.ltb_lt (m - 64) 64)) by lia. cbn [andb].
    rewrite Z.shiftr_spec, orb_false_r by lia. f_equal. lia.
Qed.

Lemma cast_from_biguint_mod T z : 0 <= z -> cast_from_biguint T z = z mod 2 ^ K T.
Proof.
  intros Hz. destruct T; cbn [cast_from_biguint K]; unfold MASK34, MASK66.
  1: change 1 with (Z.shiftl 1 1 - 1) at 1.
  all: rewrite ?land_mask by lia.
  all: try (apply digits_mod; lia).
  all: try (apply Z.mod_mod_divide).
  - by exists (2 ^ 63).
  - by exists (2 ^ 56).
  - by exists (2 ^ 48).
  - by exists (2 ^ 32).
  - by exists 1.
  - rewrite <- (digits_mod z 128) by lia. symmetry. apply Z.mod_small. apply (bword_bits 128); [lia|]. split.
    + apply Z.lor_nonneg. split; [apply Z.shiftl_nonneg|]; apply Z.mod_pos_bound; lia.
    + intros m Hm. rewrite Z.lor_spec, Z.shiftl_spec, !Z.testbit_mod_pow2 by lia.
      by rewrite (proj2 (Z.ltb_ge (m - 64) 64)), (proj2 (Z.ltb_ge m 64)) by lia.
  - by exists (2 ^ 30).
Qed.

Lemma as_mod T U a : word (K T) a -> as_ T U a = a mod 2 ^ K U.
Proof.
  intros Ha. destruct U; try done. unfold as_. cbn [K]. destruct T; [symmetry; by apply Z.mod_small|..];
  (change 1 with (Z.shiftl 1 1 - 1) at 1; rewrite land_mask by lia; pose proof (Z.mod_pos_bound a (2 ^ 1));
   destruct (Z.eqb_spec (a mod 2 ^ 1) 1); lia).
Qed.

Lemma to_le_bytes_length n z : length (to_le_bytes n z) = n.
Proof. revert z. induction n as [|n IH]; intros z; cbn; [done|]. by rewrite IH. Qed.

Lemma from_to_le_bytes n z : from_le_bytes (to_le_bytes n z) = z mod 256 ^ Z.of_nat n.
Proof.
  revert z. induction n as [|n IH]; intros z; cbn [to_le_bytes from_le_bytes]; [by rewrite Z.mod_1_r|].
  rewrite IH, Nat2Z.inj_succ, Z.pow_succ_r by lia. symmetry. rewrite Z.mul_comm, (Z.mul_comm _ 256). apply Z.rem_mul_r; lia.
Qed.

Lemma take_to_le_bytes n m z : (n <= m)%nat -> take n (to_le_bytes m z) = to_le_bytes n z.
Proof.
  revert m z. induction n as [|n IH]; intros [|m] z H; cbn; [done..|lia|]. by rewrite IH by lia.
Qed.

Lemma ring_write_bytes T a : word (K T) a -> ring_write T a = to_le_bytes (Z.to_nat (BYTES T)) a.
Proof.
  intros Ha. destruct T; cbn [ring_write]; try done; [|by rewrite take_to_le_bytes by lia..].
  unfold word in Ha. cbn [K] in Ha. by assert (a = 0 \/ a = 1) as [-> | ->] by lia.
Qed.

Lemma write_read T a rest : word (K T) a -> from_reader T (ring_write T a ++ rest) = Some (a, rest).
Proof.
  intros Ha. rewrite ring_write_bytes by done. unfold from_reader. set (n := Z.to_nat (BYTES T)).
  rewrite length_app, to_le_bytes_length, (proj2 (Nat.ltb_ge _ _)) by lia.
  rewrite take_app_length', drop_app_length' by (by rewrite to_le_bytes_length).
  assert (E : from_le_bytes (to_le_bytes n a) = a).
  { rewrite from_to_le_bytes. apply Z.mod_small. destruct Ha as [H0 H1]. split; [done|]. eapply Z.lt_le_trans; [exact H1|].
    unfold n. destruct T; vm_compute; discriminate. }
  destruct T; try (by rewrite E).
  - unfold n in *. cbn in *. unfold word in Ha. assert (a = 0 \/ a = 1) as [-> | ->] by (cbn in Ha; lia); done.
  - rewrite E. unfold MASK34. rewrite land_mask by lia. by rewrite Z.mod_small.
  - rewrite E. unfold MASK66. rewrite land_mask by lia. by rewrite Z.mod_small.
Qed.

(** C33: every operator of a ring element, as each of the eight types implements
    it, is the operation modulo [2 ^ K] on words of [K] bits; shifts, casts to
    and from big integers and between types keep the low bits; and what [write]
    writes is read back by [from_reader], from [BYTES] bytes. *)
Theorem ring_operations_modular T U a b n z rest : word (K T) a -> word (K T) b -> 0 <= n -> 0 <= z ->
  let m := 2 ^ K T in
  ring_add T a b = (a + b) mod m /\ ring_sub T a b = (a - b) mod m /\ ring_mul T a b = (a * b) mod m /\ ring_neg T a = (- a) mod m /\
  ring_xor T a b = Z.lxor a b /\ ring_not T a = m - 1 - a /\
  ring_shl T a n = (a * 2 ^ n) mod m /\ ring_shr T a n = a / 2 ^ n /\
  cast_from_biguint T z = z mod m /\ as_ T U a = a mod 2 ^ K U /\
  length (ring_write T a) = Z.to_nat (BYTES T) /\ from_reader T (ring_write T a ++ rest) = Some (a, rest).
Proof.
  intros Ha Hb Hn Hz m.
  assert (E : forall v w, word (K T) v -> v =[T]= w -> v = w mod m).
  { intros v w Hv Hvw. unfold m. rewrite <- Hvw. symmetry. by apply Z.mod_small. }
  split_and!.
  - apply E; [by apply ring_add_word|apply ring_add_eqm].
  - apply E; [by apply ring_sub_word|apply ring_sub_eqm].
  - apply E; [by apply ring_mul_word|apply ring_mul_eqm].
  - apply E; [by apply ring_neg_word|apply ring_neg_eqm].
  - by apply ring_xor_word.
  - rewrite ring_not_word, <- lnot_mod by (done || apply K_nonneg). unfold word, m in *. unfold Z.lnot. symmetry. apply Z.mod_unique with (q := -1); lia.
  - rewrite ring_shl_mod, Z.shiftl_mul_pow2; done.
  - rewrite ring_shr_word, Z.shiftr_div_pow2; done.
  - by apply cast_from_biguint_mod.
  - by apply as_mod.
  - by rewrite ring_write_bytes, to_le_bytes_length.
  - by apply write_read.
Qed.

Lemma ring_operations_modular_witness : let m := 2 ^ 34 in
  ring_sub U34 5 9 = (5 - 9) mod m /\ ring_mul U34 (2 ^ 33 + 1) 6 = 6 /\ from_reader U34 (ring_write U34 (2 ^ 33 + 1) ++ [7]) = Some (2 ^ 33 + 1, [7]).
Proof.
  assert (H : word (K U34) (2 ^ 33 + 1)) by (unfold word; cbn; lia). assert (H6 : word (K U34) 6) by (unfold word; cbn; lia).
  assert (H5 : word (K U34) 5) by (unfold word; cbn; lia). assert (H9 : word (K U34) 9) by (unfold word; cbn; lia).
  destruct (ring_operations_modular U34 U8 (2 ^ 33 + 1) 6 3 (2 ^ 40) [7] H H6 ltac:(lia) ltac:(lia)) as (_ & _ & E1 & _ & _ & _ & _ & _ & _ & _ & _ & E2).
  destruct (ring_operations_modular U34 U8 5 9 3 (2 ^ 40) [7] H5 H9 ltac:(lia) ltac:(lia)) as (_ & E3 & _).
  split; [exact E3|]. split; [rewrite E1; reflexivity|exact E2].
Defined.
