(* ===== verification/RingCarry.v ===== *)
(** * The Kogge-Stone adder of a ring, on clear values

    The mathematics of [protocols/rep3_ring/detail.rs]: the steps shift left and
    lose what leaves the word, and [ilog2 K] of them are enough when the width is a
    power of two. *)

From Stdlib Require Import ZArith Lia Bool Btauto.
From stdpp Require Import base tactics.
From S2P Require Import Prelude Words Carry Ring2k.
Local Open Scope Z_scope.

(** [d] steps from step [i]. *)
Fixpoint rks_loop (T : RingType) (d : nat) (i p g : Z) : Z :=
  match d with
  | O => g
  | S d => let shift := Z.shiftl 1 i in
           rks_loop T d (i + 1) (Z.land p (ring_shl T p shift)) (Z.lxor g (Z.land (ring_shl T g shift) p))
  end.

(** [T::K.ilog2()] *)
Definition ilog2_K (T : RingType) : nat := Z.to_nat (Z.log2 (K T)).

Definition rks_carries (T : RingType) (p g : Z) : Z := rks_loop T (ilog2_K T) 0 p g.
Definition rks_sum (T : RingType) (p g : Z) : Z := Z.lxor (ring_shl T (rks_carries T p g) 1) p.

(** [K] is a power of two: what the assertion of the code checks. *)
Definition power_of_two (T : RingType) : bool := 2 ^ Z.log2 (K T) =? K T.

Lemma ring_shl_bits T a n j : 0 <= n -> word (K T) a -> 0 <= j < K T -> Z.testbit (ring_shl T a n) j = Z.testbit a (j - n).
Proof.
  intros Hn Ha Hj. rewrite ring_shl_mod by done. rewrite Z.testbit_mod_pow2 by (apply K_nonneg).
  rewrite (proj2 (Z.ltb_lt j (K T))), Z.shiftl_spec by lia. done.
Qed.
Lemma ring_shl_word T a n : 0 <= n -> word (K T) a -> word (K T) (ring_shl T a n).
Proof. intros. rewrite ring_shl_mod by done. apply word_mod, K_nonneg. Qed.

Section Adder.
Variables (T : RingType) (p g : Z).
Hypothesis Hp : word (K T) p.
Hypothesis Hg : word (K T) g.

(** The state after windows of [n] positions. *)
Definition rks_state (n : nat) (p' g' : Z) : Prop :=
  word (K T) p' /\ word (K T) g' /\
  forall j, 0 <= j < K T -> Z.testbit p' j = Pw p n j /\ Z.testbit g' j = Gw p g n j.

Lemma rks_step_state n p' g' : (0 < n)%nat -> rks_state n p' g' ->
  rks_state (n + n) (Z.land p' (ring_shl T p' (Z.of_nat n))) (Z.lxor g' (Z.land (ring_shl T g' (Z.of_nat n)) p')).
Proof.
  intros Hn (P0 & G0 & H). set (s := Z.of_nat n).
  pose proof (ring_shl_word T p' s ltac:(lia) P0) as Ps. pose proof (ring_shl_word T g' s ltac:(lia) G0) as Gs.
  split; [|split].
  - apply bword_land; [apply K_nonneg|done|apply Ps].
  - apply bword_lxor; [apply K_nonneg|done|]. apply bword_land; [apply K_nonneg|done|apply P0].
  - intros j Hj. rewrite Pw_add, Gw_add. fold s. destruct (H j Hj) as [<- <-].
    rewrite Z.lxor_spec, !Z.land_spec, !ring_shl_bits by (done || lia). destruct (Z.lt_ge_cases j s) as [Hs|Hs].
    + rewrite !(Z.testbit_neg_r _ (j - s)) by lia. rewrite Pw_neg, Gw_neg by lia. split; btauto.
    + destruct (H (j - s)) as [<- <-]; [lia|]. split; btauto.
Qed.

Lemma rks_loop_state d : forall i p' g', 0 <= i -> rks_state (Z.to_nat (2 ^ i)) p' g' ->
  word (K T) (rks_loop T d i p' g') /\
  forall j, 0 <= j < K T -> Z.testbit (rks_loop T d i p' g') j = Gw p g (Z.to_nat (2 ^ (i + Z.of_nat d))) j.
Proof.
  induction d as [|d IH]; intros i p' g' Hi Hst.
  - cbn. rewrite Z.add_0_r. destruct Hst as (_ & ? & H). split; [done|]. intros j Hj. by apply H.
  - cbn [rks_loop]. rewrite Z.shiftl_1_l. replace (i + Z.of_nat (S d)) with (i + 1 + Z.of_nat d) by lia. apply IH; [lia|].
    assert (E : Z.to_nat (2 ^ (i + 1)) = (Z.to_nat (2 ^ i) + Z.to_nat (2 ^ i))%nat) by (rewrite Z.pow_add_r by lia; lia).
    rewrite E. pose proof (rks_step_state (Z.to_nat (2 ^ i)) p' g') as Hs. rewrite Z2Nat.id in Hs by lia. apply Hs; [lia|done].
Qed.

Lemma rks_carries_word : word (K T) (rks_carries T p g).
Proof.
  apply rks_loop_state; [lia|]. split; [done|]. split; [done|]. intros k Hk. change (Z.to_nat (2 ^ 0)) with 1%nat. cbn [Pw Gw].
  by rewrite andb_false_r, xorb_false_r, andb_true_r.
Qed.

(** All carries of a word whose width is a power of two. *)
Lemma rks_carries_bits j : power_of_two T = true -> 0 <= j < K T -> Z.testbit (rks_carries T p g) j = Gw p g (S (Z.to_nat j)) j.
Proof.
  intros Hpow%Z.eqb_eq Hj. destruct (rks_loop_state (ilog2_K T) 0 p g) as [_ Hl]; [lia|..].
  { split; [done|]. split; [done|]. intros k Hk. change (Z.to_nat (2 ^ 0)) with 1%nat. cbn [Pw Gw].
    by rewrite andb_false_r, xorb_false_r, andb_true_r. }
  unfold rks_carries. rewrite Hl by done. symmetry. apply Gw_enough; [lia|]. unfold ilog2_K.
  rewrite Z.add_0_l, Z2Nat.id, Hpow by apply Z.log2_nonneg. lia.
Qed.

End Adder.

Section Sum.
Variables (T : RingType) (x y : Z) (c : bool).
Hypothesis Hpow : power_of_two T = true.
Hypothesis Hx : word (K T) x.
Hypothesis Hy : word (K T) y.

Let p := Z.lxor x y.
Let g := Z.lxor (Z.land x y) (if c then Z.land (Z.lxor x y) 1 else 0).

Lemma rks_p_word : word (K T) p.
Proof. apply bword_lxor; [apply K_nonneg|done..]. Qed.
Lemma rks_g_word : word (K T) g.
Proof.
  apply bword_lxor; [apply K_nonneg|apply bword_land; [apply K_nonneg|done|apply Hy]|].
  destruct c; [apply bword_land; [apply K_nonneg|apply rks_p_word|lia]|]. unfold word. pose proof (modulus_pos T). lia.
Qed.

Lemma rks_carry j : 0 <= j < K T -> Z.testbit (rks_carries T p g) j = carry_out x y c j.
Proof. intros Hj. apply rks_carries_bits; [apply rks_p_word|apply rks_g_word|done..]. Qed.

Lemma rks_sum_add : Z.lxor (rks_sum T p g) (Z.b2z c) = (x + y + Z.b2z c) mod 2 ^ K T.
Proof.
  destruct (carry_out_spec x y c) as (v & Hv & H0 & Hc). rewrite Hv. apply Z.bits_inj'. intros j Hj.
  pose proof (K_pos T) as HK. pose proof (rks_carries_word T p g rks_p_word rks_g_word) as Hw.
  rewrite Z.testbit_mod_pow2 by apply K_nonneg. unfold rks_sum. rewrite !Z.lxor_spec. destruct (Z.ltb_spec j (K T)) as [Hlt|Hge]; cbn [andb].
  - rewrite ring_shl_bits by (done || lia). destruct (Z.eq_dec j 0) as [->|Hj0].
    + rewrite (Z.testbit_neg_r _ (0 - 1)) by lia. rewrite H0. unfold p. rewrite Z.lxor_spec. by destruct c, (Z.testbit x 0), (Z.testbit y 0).
    + rewrite rks_carry by lia. replace (Z.testbit (Z.b2z c) j) with false
        by (destruct c; cbn; rewrite ?testbit_1, ?Z.testbit_0_l; symmetry; [apply Z.eqb_neq; lia|done]).
      replace (Z.testbit v j) with (carry_out x y c (j - 1)) by (rewrite <- Hc by lia; f_equal; lia).
      unfold p. rewrite Z.lxor_spec. btauto.
  - rewrite (bword_high (K T) (ring_shl T (rks_carries T p g) 1) j (K_nonneg T) (ring_shl_word T _ 1 ltac:(lia) Hw) Hge).
    rewrite (bword_high (K T) p j (K_nonneg T) rks_p_word Hge).
    destruct c; cbn; rewrite ?testbit_1, ?Z.testbit_0_l; [|done]. rewrite (proj2 (Z.eqb_neq j 0)) by lia. done.
Qed.

Lemma rks_carry_out : Z.testbit (rks_carries T p g) (K T - 1) = (2 ^ K T <=? x + y + Z.b2z c).
Proof.
  pose proof (K_pos T) as HK. rewrite rks_carry by lia. destruct (carry_out_spec x y c) as (v & Hv & _ & Hc).
  rewrite <- Hc by lia. replace (K T - 1 + 1) with (K T) by lia.
  assert (E : Z.testbit (x + y + Z.b2z c) (K T) = Z.testbit v (K T)).
  { rewrite Hv, !Z.lxor_spec, (bword_high (K T) x (K T) ltac:(lia) Hx), (bword_high (K T) y (K T) ltac:(lia) Hy) by lia. by destruct (Z.testbit v (K T)). }
  rewrite <- E, Z.testbit_odd, Z.shiftr_div_pow2 by lia. unfold word in *.
  assert (0 <= Z.b2z c <= 1) by (by destruct c). destruct (Z.leb_spec (2 ^ K T) (x + y + Z.b2z c)) as [H1|H1].
  - replace ((x + y + Z.b2z c) / 2 ^ K T) with 1; [done|]. apply Z.div_unique with (r := x + y + Z.b2z c - 2 ^ K T); lia.
  - rewrite Z.div_small by lia. done.
Qed.

End Sum.
