(* ===== verification/MpcNet.v ===== *)
(** * Three parties and their network

    Programs of the three parties of the MPC layer ([mpc-core/src/network.rs],
    [mpc-net/src/id.rs]) as processes that send and receive messages, the
    system of three processes with a queue per ordered pair of parties, and its
    schedules.  A party blocks on an empty queue; the parties interleave in any
    order.  The result of a protocol does not depend on the schedule
    ([runs_computes]). *)

From Stdlib Require Import ZArith Lia List Bool.
From stdpp Require Import base list.
From S2P Require Import Prelude.
Import ListNotations.
Local Open Scope nat_scope.

(** ** Parties *)

Inductive PartyID := ID0 | ID1 | ID2.

Definition next_id (i : PartyID) : PartyID := match i with ID0 => ID1 | ID1 => ID2 | ID2 => ID0 end.
Definition prev_id (i : PartyID) : PartyID := match i with ID0 => ID2 | ID1 => ID0 | ID2 => ID1 end.

#[export] Instance PartyID_eq_dec : EqDecision PartyID. Proof. solve_decision. Defined.

(** One value per party. *)
Record Tri (A : Type) := mkTri { t0 : A; t1 : A; t2 : A }.
Arguments mkTri {A} _ _ _.
Arguments t0 {A} _.
Arguments t1 {A} _.
Arguments t2 {A} _.

Definition tget {A} (t : Tri A) (i : PartyID) : A := match i with ID0 => t0 t | ID1 => t1 t | ID2 => t2 t end.
Definition tset {A} (i : PartyID) (a : A) (t : Tri A) : Tri A :=
  match i with
  | ID0 => mkTri a (t1 t) (t2 t)
  | ID1 => mkTri (t0 t) a (t2 t)
  | ID2 => mkTri (t0 t) (t1 t) a
  end.
Definition tmap {A B} (f : A -> B) (t : Tri A) : Tri B := mkTri (f (t0 t)) (f (t1 t)) (f (t2 t)).
Definition tmap2 {A B C} (f : A -> B -> C) (s : Tri A) (t : Tri B) : Tri C :=
  mkTri (f (t0 s) (t0 t)) (f (t1 s) (t1 t)) (f (t2 s) (t2 t)).
Definition tpure {A} (a : A) : Tri A := mkTri a a a.

(** ** Processes

    [Done] is an [Ok] return, [IoErr] an [Err] passed on by [?], [Crashed] a
    panic. *)
Inductive Proc (D A : Type) :=
| Done (a : A)
| IoErr
| Crashed
| Send (target : PartyID) (data : D) (k : Proc D A)
| Recv (from : PartyID) (k : D -> Proc D A).
Arguments Done {D A} _.
Arguments IoErr {D A}.
Arguments Crashed {D A}.
Arguments Send {D A} _ _ _.
Arguments Recv {D A} _ _.

Fixpoint proc_bind {D A B} (p : Proc D A) (k : A -> Proc D B) : Proc D B :=
  match p with
  | Done a => k a
  | IoErr => IoErr
  | Crashed => Crashed
  | Send i d p => Send i d (proc_bind p k)
  | Recv i r => Recv i (fun d => proc_bind (r d) k)
  end.

(** ** The system *)

Section System.
Context {D : Type}.

(** [chan] holds, for a sender and a receiver, the messages under way, oldest first. *)
Definition Chan := Tri (Tri (list D)).
Definition empty_chan : Chan := tpure (tpure []).
Definition queue (c : Chan) (i j : PartyID) : list D := tget (tget c i) j.
Definition set_queue (i j : PartyID) (q : list D) (c : Chan) : Chan := tset i (tset j q (tget c i)) c.

Record Sys (A : Type) := mkSys { procs : Tri (Proc D A); chan : Chan }.
Arguments mkSys {A} _ _.
Arguments procs {A} _.
Arguments chan {A} _.

(** One step of party [i], if it can move. *)
Definition step_by {A} (i : PartyID) (s : Sys A) : option (Sys A) :=
  match tget (procs s) i with
  | Send j d k => Some (mkSys (tset i k (procs s)) (set_queue i j (queue (chan s) i j ++ [d]) (chan s)))
  | Recv j k =>
      match queue (chan s) j i with
      | [] => None
      | d :: rest => Some (mkSys (tset i (k d) (procs s)) (set_queue j i rest (chan s)))
      end
  | _ => None
  end.

Fixpoint run {A} (schedule : list PartyID) (s : Sys A) : option (Sys A) :=
  match schedule with
  | [] => Some s
  | i :: rest => match step_by i s with Some s' => run rest s' | None => None end
  end.

Definition start {A} (p : Tri (Proc D A)) : Sys A := mkSys p empty_chan.
Definition final {A} (r : Tri A) : Sys A := mkSys (tmap Done r) empty_chan.

(** The three parties have returned an error. *)
Definition aborted {A} : Sys A := mkSys (tpure IoErr) empty_chan.

(** Some schedule takes the three programs to [e]. *)
Definition ends {A} (p : Tri (Proc D A)) (e : Sys A) : Prop := exists schedule, run schedule (start p) = Some e.

(** Every schedule does: no schedule is longer than [n] steps or gets stuck
    before the system is in [e]. *)
Definition always_ends {A} (p : Tri (Proc D A)) (e : Sys A) : Prop :=
  exists n, forall schedule s, run schedule (start p) = Some s ->
    length schedule <= n /\ exists rest, length schedule + length rest = n /\ run rest s = Some e.

Definition runs {A} (p : Tri (Proc D A)) (r : Tri A) : Prop := ends p (final r).
Definition computes {A} (p : Tri (Proc D A)) (r : Tri A) : Prop := always_ends p (final r).
Definition aborts {A} (p : Tri (Proc D A)) : Prop := ends p aborted.

(** ** Schedules do not matter *)

Lemma tget_tset_eq {A} i (a : A) t : tget (tset i a t) i = a.
Proof. by destruct i. Qed.
Lemma tget_tset_ne {A} i j (a : A) t : i <> j -> tget (tset i a t) j = tget t j.
Proof. by destruct i, j. Qed.
Lemma tset_comm {A} i j (a b : A) t : i <> j -> tset i a (tset j b t) = tset j b (tset i a t).
Proof. by destruct i, j. Qed.
Lemma tset_twice {A} i (a b : A) t : tset i a (tset i b t) = tset i a t.
Proof. by destruct i. Qed.

Lemma queue_set_eq c i j q : queue (set_queue i j q c) i j = q.
Proof. unfold queue, set_queue. by rewrite !tget_tset_eq. Qed.
Lemma queue_set_ne c i j i' j' q : (i, j) <> (i', j') -> queue (set_queue i j q c) i' j' = queue c i' j'.
Proof.
  intros Hne. unfold queue, set_queue. destruct (decide (i = i')) as [->|Hi]; [|by rewrite tget_tset_ne].
  rewrite tget_tset_eq, tget_tset_ne; [done|]. intros ->. by apply Hne.
Qed.
Lemma set_queue_comm c i j i' j' q q' : (i, j) <> (i', j') ->
  set_queue i j q (set_queue i' j' q' c) = set_queue i' j' q' (set_queue i j q c).
Proof.
  intros Hne. unfold set_queue. destruct (decide (i = i')) as [->|Hi].
  - rewrite !tset_twice, !tget_tset_eq. f_equal. apply tset_comm. intros ->. by apply Hne.
  - rewrite !tget_tset_ne by done. by apply tset_comm.
Qed.
Lemma set_queue_twice c i j q q' : set_queue i j q (set_queue i j q' c) = set_queue i j q c.
Proof. unfold set_queue. by rewrite tget_tset_eq, !tset_twice. Qed.

(** Two parties that can both move do so in either order. *)
Lemma step_diamond {A} i j (s s1 s2 : Sys A) : i <> j -> step_by i s = Some s1 -> step_by j s = Some s2 ->
  exists s3, step_by j s1 = Some s3 /\ step_by i s2 = Some s3.
Proof.
  intros Hij H1 H2. unfold step_by in *.
  destruct (tget (procs s) i) as [| | |a d k|a k] eqn:Ei; try discriminate H1;
    destruct (tget (procs s) j) as [| | |b e l|b l] eqn:Ej; try discriminate H2.
  - injection H1 as <-. injection H2 as <-. cbn [procs chan]. rewrite !tget_tset_ne, Ei, Ej by done.
    eexists. split; [done|]. rewrite !queue_set_ne by congruence. rewrite (tset_comm i j) by done.
    by rewrite (set_queue_comm _ i a) by congruence.
  - injection H1 as <-. destruct (queue (chan s) b j) as [|e rest] eqn:Eq; [done|]. injection H2 as <-. cbn [procs chan].
    rewrite !tget_tset_ne, Ei, Ej by done. destruct (decide ((i, a) = (b, j))) as [E|Hne].
    + injection E as -> ->. rewrite !queue_set_eq, Eq. cbn [app]. eexists. split; [done|].
      by rewrite (tset_comm b j), !set_queue_twice by done.
    + rewrite !queue_set_ne, Eq by congruence. eexists. split; [done|]. rewrite (tset_comm i j) by done.
      by rewrite (set_queue_comm _ i a) by congruence.
  - destruct (queue (chan s) a i) as [|d rest] eqn:Eq; [done|]. injection H1 as <-. injection H2 as <-. cbn [procs chan].
    rewrite !tget_tset_ne, Ei, Ej by done. destruct (decide ((a, i) = (j, b))) as [E|Hne].
    + injection E as -> ->. rewrite !queue_set_eq, Eq. cbn [app]. eexists. split; [done|].
      by rewrite (tset_comm b j), !set_queue_twice by done.
    + rewrite !queue_set_ne, Eq by congruence. eexists. split; [done|]. rewrite (tset_comm i j) by done.
      by rewrite (set_queue_comm _ a i) by congruence.
  - destruct (queue (chan s) a i) as [|d rest] eqn:Eq; [done|]. destruct (queue (chan s) b j) as [|e rest'] eqn:Eq'; [done|].
    injection H1 as <-. injection H2 as <-. cbn [procs chan]. rewrite !tget_tset_ne, Ei, Ej by done.
    rewrite !queue_set_ne, Eq, Eq' by congruence. eexists. split; [done|]. rewrite (tset_comm i j) by done.
    by rewrite (set_queue_comm _ a i) by congruence.
Qed.

Lemma run_app {A} l1 l2 (s : Sys A) : run (l1 ++ l2) s = match run l1 s with Some s' => run l2 s' | None => None end.
Proof. revert s. induction l1 as [|i l1 IH]; intros s; [done|]. cbn. by destruct (step_by i s). Qed.

(** No party can move. *)
Definition stuck {A} (s : Sys A) : Prop := forall i, step_by i s = None.

Lemma final_stuck {A} (r : Tri A) : stuck (final r).
Proof. by intros []. Qed.
Lemma aborted_stuck {A} : stuck (@aborted A).
Proof. by intros []. Qed.

(** A party that can move now moves in every complete schedule, and could have
    moved first. *)
Lemma step_first {A} i l (s s1 e : Sys A) : stuck e -> step_by i s = Some s1 -> run l s = Some e ->
  exists l', run l' s1 = Some e /\ S (length l') = length l.
Proof.
  intros He. revert s s1. induction l as [|j l IH]; intros s s1 H1 Hl.
  - injection Hl as ->. by rewrite He in H1.
  - cbn in Hl. destruct (step_by j s) as [s2|] eqn:H2; [|done]. destruct (decide (i = j)) as [->|Hij].
    + rewrite H1 in H2. injection H2 as ->. by exists l.
    + destruct (step_diamond i j s s1 s2 Hij H1 H2) as (s3 & H3 & H4).
      destruct (IH s2 s3 H4 Hl) as (l' & Hl' & Hlen). exists (j :: l'). cbn. rewrite H3. split; [done|]. by rewrite Hlen.
Qed.

Lemma ends_always_ends {A} (p : Tri (Proc D A)) e : stuck e -> ends p e -> always_ends p e.
Proof.
  intros He [l Hl]. exists (length l). intros sch. generalize dependent (start p). clear p.
  revert l. induction sch as [|i sch IH]; intros l s0 Hl s Hs.
  - injection Hs as <-. split; [cbn; lia|]. by exists l.
  - cbn in Hs. destruct (step_by i s0) as [s1|] eqn:H1; [|done].
    destruct (step_first i l s0 s1 e He H1 Hl) as (l' & Hl' & Hlen).
    destruct (IH l' s1 Hl' s Hs) as (Hle & rest & Hr & Hrun). split; [cbn; lia|]. exists rest. split; [cbn; lia|done].
Qed.

Lemma runs_computes {A} (p : Tri (Proc D A)) r : runs p r -> computes p r.
Proof. apply ends_always_ends, final_stuck. Qed.
Lemma aborts_always {A} (p : Tri (Proc D A)) : aborts p -> always_ends p aborted.
Proof. apply ends_always_ends, aborted_stuck. Qed.

(** ** Sequencing *)

Definition sys_bind {A B} (s : Sys A) (k : Tri (A -> Proc D B)) : Sys B := mkSys (tmap2 proc_bind (procs s) k) (chan s).

Lemma step_bind {A B} i (s s' : Sys A) (k : Tri (A -> Proc D B)) : step_by i s = Some s' ->
  step_by i (sys_bind s k) = Some (sys_bind s' k).
Proof.
  unfold step_by. destruct i; cbn [sys_bind procs chan tmap2 tget t0 t1 t2];
    [destruct (t0 (procs s)) | destruct (t1 (procs s)) | destruct (t2 (procs s))]; cbn [proc_bind]; try discriminate;
    try (intros [= <-]; done); destruct (queue _ _ _); try discriminate; intros [= <-]; done.
Qed.

Lemma run_bind {A B} l (s s' : Sys A) (k : Tri (A -> Proc D B)) : run l s = Some s' ->
  run l (sys_bind s k) = Some (sys_bind s' k).
Proof.
  revert s. induction l as [|i l IH]; intros s Hl; [by injection Hl as ->|]. cbn in *.
  destruct (step_by i s) as [s1|] eqn:E; [|done]. rewrite (step_bind i s s1 k E). by apply IH.
Qed.

Lemma ends_bind {A B} (p : Tri (Proc D A)) (k : Tri (A -> Proc D B)) r e :
  runs p r -> ends (tmap2 (fun f a => f a) k r) e -> ends (tmap2 proc_bind p k) e.
Proof.
  intros [l Hl] [l' Hl']. exists (l ++ l'). rewrite run_app.
  change (start (tmap2 proc_bind p k)) with (sys_bind (start p) k). rewrite (run_bind l _ _ k Hl). exact Hl'.
Qed.

Lemma runs_bind {A B} (p : Tri (Proc D A)) (k : Tri (A -> Proc D B)) r r' :
  runs p r -> runs (tmap2 (fun f a => f a) k r) r' -> runs (tmap2 proc_bind p k) r'.
Proof. apply ends_bind. Qed.

Lemma runs_bind3 {A B} (p0 p1 p2 : Proc D A) (k0 k1 k2 : A -> Proc D B) a0 a1 a2 r' :
  runs (mkTri p0 p1 p2) (mkTri a0 a1 a2) -> runs (mkTri (k0 a0) (k1 a1) (k2 a2)) r' ->
  runs (mkTri (proc_bind p0 k0) (proc_bind p1 k1) (proc_bind p2 k2)) r'.
Proof. intros Hp Hk. exact (runs_bind (mkTri p0 p1 p2) (mkTri k0 k1 k2) (mkTri a0 a1 a2) r' Hp Hk). Qed.

Lemma runs_done {A} (r : Tri A) : runs (tmap Done r) r.
Proof. by exists []. Qed.

End System.
Arguments Sys : clear implicits.
Arguments Chan : clear implicits.
Arguments mkSys {D A} _ _.
Arguments procs {D A} _.
Arguments chan {D A} _.
