(* ===== verification/Rep3Ctx.v ===== *)
(** * The context of a party

    [IoContext], the network operations and the correlated random generators of
    [mpc-core/src/network.rs] and [protocols/rep3/rngs.rs], as a monad over the
    processes of [MpcNet], and rules to reason about the three parties at once.

    Parameters: the field of the shares (class [PrimeField]), the generator
    ChaCha12 with its typed outputs (class [RngOps]), and serialization (class
    [Wire]: what is sent is what is received). *)

From Stdlib Require Import ZArith Lia List Bool.
From stdpp Require Import base list.
From S2P Require Import Prelude Field MpcNet.
Import ListNotations.
Local Open Scope Z_scope.

(** ** Parameters *)

Class PrimeField (F : Type) `{JoltField F} := {
  MODULUS : Z;
  MODULUS_BIT_SIZE : Z;
  MODULUS_range : 1 < MODULUS_BIT_SIZE /\ 2 ^ (MODULUS_BIT_SIZE - 1) < MODULUS < 2 ^ MODULUS_BIT_SIZE;
  into_biguint : F -> Z;
  into_biguint_of_Z z : into_biguint (of_Z z) = z mod MODULUS;
  of_Z_into_biguint x : of_Z (into_biguint x) = x;
  inverse : F -> option F;
  inverse_spec x : into_biguint x <> 0 -> exists y, inverse x = Some y /\ fmul x y = fone;
  field_sqrt : F -> option F;
  field_sqrt_spec x y : field_sqrt x = Some y -> fmul y y = x;
  TWO_INV : F;
  TWO_INV_spec : fmul (fadd fone fone) TWO_INV = fone
}.

(** A generator, its state advanced by each draw: a seed, a field element, an
    integer of [w] bits. *)
Class RngOps (F : Type) := {
  Rng : Type;
  Seed : Type;
  from_seed : Seed -> Rng;
  gen_seed : Rng -> Seed * Rng;
  gen_fe : Rng -> F * Rng;
  gen_bits : Z -> Rng -> Z * Rng;
  gen_bits_range w r : 0 <= w -> 0 <= fst (gen_bits w r) < 2 ^ w
}.

#[local] Set Warnings "-register-all".

(** What travels on the network. *)
Inductive Data (F S : Type) := DF (x : F) | DZ (z : Z) | DS (s : S) | DL (l : list (Data F S)).
Arguments DF {F S} _.
Arguments DZ {F S} _.
Arguments DS {F S} _.
Arguments DL {F S} _.

(** [CanonicalSerialize] and [CanonicalDeserialize]. *)
Class Wire (D T : Type) := {
  serialize : T -> D;
  deserialize : D -> option T;
  deserialize_serialize x : deserialize (serialize x) = Some x
}.

Fixpoint all_some {A} (l : list (option A)) : option (list A) :=
  match l with
  | [] => Some []
  | Some a :: l => match all_some l with Some r => Some (a :: r) | None => None end
  | None :: _ => None
  end.

Section Wires.
Context {F S : Type}.

#[export, refine] Instance wire_F : Wire (Data F S) F := {
  serialize := DF; deserialize d := match d with DF x => Some x | _ => None end }.
Proof. done. Defined.
#[export, refine] Instance wire_Z : Wire (Data F S) Z := {
  serialize := DZ; deserialize d := match d with DZ x => Some x | _ => None end }.
Proof. done. Defined.
#[export, refine] Instance wire_S : Wire (Data F S) S := {
  serialize := DS; deserialize d := match d with DS x => Some x | _ => None end }.
Proof. done. Defined.
#[export, refine] Instance wire_list {T} `{Wire (Data F S) T} : Wire (Data F S) (list T) := {
  serialize l := DL (map serialize l);
  deserialize d := match d with DL l => all_some (map deserialize l) | _ => None end }.
Proof. intros l. rewrite map_map. induction l as [|x l IH]; [done|]. cbn. by rewrite deserialize_serialize, IH. Defined.
#[export, refine] Instance wire_pair {T U} `{Wire (Data F S) T} `{Wire (Data F S) U} : Wire (Data F S) (T * U) := {
  serialize p := DL [serialize (fst p); serialize (snd p)];
  deserialize d := match d with
    | DL [a; b] => match deserialize a, deserialize b with Some a, Some b => Some (a, b) | _, _ => None end
    | _ => None end }.
Proof. intros [a b]. cbn. by rewrite !deserialize_serialize. Defined.

End Wires.

(** ** Correlated generators ([rngs.rs]) *)

Section Context_.
Context {F : Type} `{JF : JoltField F} `{PF : !PrimeField F} `{RO : !RngOps F}.

Record Rep3Rand := mkRand { rng1 : Rng; rng2 : Rng }.
Record Rep3RandBitComp := mkBitComp { bc_rng1 : Rng; bc_rng2 : Rng; bc_rng3 : option Rng }.
Record Rep3CorrelatedRng := mkCorrelated { rand : Rep3Rand; bitcomp1 : Rep3RandBitComp; bitcomp2 : Rep3RandBitComp }.

Definition Rep3Rand_new (seed1 seed2 : Seed) : Rep3Rand := mkRand (from_seed seed1) (from_seed seed2).

(** A draw of each generator, in order. *)
Definition draw2 {A} (g : Rng -> A * Rng) (r : Rep3Rand) : (A * A) * Rep3Rand :=
  let (a, r1) := g (rng1 r) in
  let (b, r2) := g (rng2 r) in
  ((a, b), mkRand r1 r2).

Definition random_fes : Rep3Rand -> (F * F) * Rep3Rand := draw2 gen_fe.
Definition random_seeds : Rep3Rand -> (Seed * Seed) * Rep3Rand := draw2 gen_seed.
Definition random_elements (w : Z) : Rep3Rand -> (Z * Z) * Rep3Rand := draw2 (gen_bits w).

Definition masking_field_element (r : Rep3Rand) : F * Rep3Rand :=
  let '((a, b), r) := random_fes r in (fsub a b, r).

(** [BigUint::new]: little-endian words of 32 bits. *)
Fixpoint biguint_new (limbs : list Z) : Z :=
  match limbs with [] => 0 | l :: rest => l + 2 ^ 32 * biguint_new rest end.

Fixpoint gen_limbs (n : nat) (r : Rng) : list Z * Rng :=
  match n with
  | O => ([], r)
  | S n => let (l, r) := gen_bits 32 r in let (rest, r) := gen_limbs n r in (l :: rest, r)
  end.

Definition limb_size (bitlen : Z) : nat := Z.to_nat ((bitlen + 31) / 32).

Definition gen_biguint (bitlen : Z) (r : Rng) : Z * Rng :=
  let (limbs, r) := gen_limbs (limb_size bitlen) r in
  (Z.land (biguint_new limbs) (Z.shiftl 1 bitlen - 1), r).

Definition random_biguint (bitlen : Z) : Rep3Rand -> (Z * Z) * Rep3Rand := draw2 (gen_biguint bitlen).

Definition Rep3Rand_fork (r : Rep3Rand) : Rep3Rand * Rep3Rand :=
  let '((seed1, seed2), r) := random_seeds r in (Rep3Rand_new seed1 seed2, r).

Definition new_2keys (k1 k2 : Seed) : Rep3RandBitComp := mkBitComp (from_seed k1) (from_seed k2) None.
Definition new_3keys (k1 k2 k3 : Seed) : Rep3RandBitComp := mkBitComp (from_seed k1) (from_seed k2) (Some (from_seed k3)).

(** [random_fes_3keys], [random_elements_3keys]; without a third key the code
    is unreachable. *)
Definition draw3 {A} (g : Rng -> A * Rng) (r : Rep3RandBitComp) : option ((A * A * A) * Rep3RandBitComp) :=
  let (a, r1) := g (bc_rng1 r) in
  let (b, r2) := g (bc_rng2 r) in
  match bc_rng3 r with
  | Some r3 => let (c, r3) := g r3 in Some ((a, b, c), mkBitComp r1 r2 (Some r3))
  | None => None
  end.

Definition fork_seed (r : Rng) : Rng * Rng := let (s, r) := gen_seed r in (from_seed s, r).

Definition BitComp_fork (r : Rep3RandBitComp) : Rep3RandBitComp * Rep3RandBitComp :=
  let (a, r1) := fork_seed (bc_rng1 r) in
  let (b, r2) := fork_seed (bc_rng2 r) in
  match bc_rng3 r with
  | Some r3 => let (c, r3) := fork_seed r3 in (mkBitComp a b (Some c), mkBitComp r1 r2 (Some r3))
  | None => (mkBitComp a b None, mkBitComp r1 r2 None)
  end.

Definition CorrelatedRng_fork (r : Rep3CorrelatedRng) : Rep3CorrelatedRng * Rep3CorrelatedRng :=
  let (a, r1) := Rep3Rand_fork (rand r) in
  let (b, r2) := BitComp_fork (bitcomp1 r) in
  let (c, r3) := BitComp_fork (bitcomp2 r) in
  (mkCorrelated a b c, mkCorrelated r1 r2 r3).

(** [generate_shared] with the generator it draws from. *)
Definition shared_rng (id : PartyID) (r : Rep3CorrelatedRng) : Rng :=
  match id with ID0 | ID1 => bc_rng2 (bitcomp1 r) | ID2 => bc_rng1 (bitcomp1 r) end.
Definition generate_shared {A} (g : Rng -> A * Rng) (id : PartyID) (r : Rep3CorrelatedRng) : A := fst (g (shared_rng id r)).

(** ** The monad of a party *)

Inductive MPCType := Online | Preprocessed.

Record IoContext := mkIo {
  io_id : PartyID;
  rngs : Rep3CorrelatedRng;
  io_rng : Rng;
  mpc_type : MPCType
}.

Definition Wired := Data F Seed.
Definition MPC (A : Type) : Type := IoContext -> Proc Wired (A * IoContext).

Definition mret {A} (a : A) : MPC A := fun c => Done (a, c).
Definition mbind {A B} (m : MPC A) (k : A -> MPC B) : MPC B := fun c => proc_bind (m c) (fun p => k (fst p) (snd p)).
Definition io_err {A} : MPC A := fun _ => IoErr.
Definition crash {A} : MPC A := fun _ => Crashed.
Definition get_id : MPC PartyID := fun c => Done (io_id c, c).
Definition get_mpc_type : MPC MPCType := fun c => Done (mpc_type c, c).

(** A draw from [io_context.rngs.rand]. *)
Definition with_rand {A} (f : Rep3Rand -> A * Rep3Rand) : MPC A := fun c =>
  let (a, r) := f (rand (rngs c)) in
  Done (a, mkIo (io_id c) (mkCorrelated r (bitcomp1 (rngs c)) (bitcomp2 (rngs c))) (io_rng c) (mpc_type c)).

Definition with_bitcomp1 {A} (f : Rep3RandBitComp -> option (A * Rep3RandBitComp)) : MPC A := fun c =>
  match f (bitcomp1 (rngs c)) with
  | Some (a, r) => Done (a, mkIo (io_id c) (mkCorrelated (rand (rngs c)) r (bitcomp2 (rngs c))) (io_rng c) (mpc_type c))
  | None => Crashed
  end.
Definition with_bitcomp2 {A} (f : Rep3RandBitComp -> option (A * Rep3RandBitComp)) : MPC A := fun c =>
  match f (bitcomp2 (rngs c)) with
  | Some (a, r) => Done (a, mkIo (io_id c) (mkCorrelated (rand (rngs c)) (bitcomp1 (rngs c)) r) (io_rng c) (mpc_type c))
  | None => Crashed
  end.

End Context_.

Declare Scope mpc_scope.
Delimit Scope mpc_scope with mpc.
Notation "x <~ m ;; k" := (mbind m (fun x => k)) (at level 100, m at next level, right associativity) : mpc_scope.
Notation "m ;~ k" := (mbind m (fun _ => k)) (at level 100, right associativity) : mpc_scope.
Local Open Scope mpc_scope.

(** ** The network ([Rep3Network], its implementation [Rep3MpcNet])

    [id] is [self.get_id()]. *)

Section Network.
Context {F : Type} `{JF : JoltField F} `{PF : !PrimeField F} `{RO : !RngOps F}.

Definition net_bind {A B} (p : Proc Wired A) (k : A -> Proc Wired B) : Proc Wired B := proc_bind p k.

Definition send_many {T} `{Wire Wired T} (target : PartyID) (data : list T) : Proc Wired unit :=
  Send target (serialize data) (Done tt).
Definition recv_many {T} `{Wire Wired T} (from : PartyID) : Proc Wired (list T) :=
  Recv from (fun d => match deserialize d with Some l => Done l | None => IoErr end).

(** [if res.len() != 1 { Err(..) } else { Ok(res.pop().unwrap()) }] *)
Definition single {T} (res : list T) : Proc Wired T := match res with [x] => Done x | _ => IoErr end.

Definition send {T} `{Wire Wired T} (target : PartyID) (data : T) : Proc Wired unit := send_many target [data].
Definition recv {T} `{Wire Wired T} (from : PartyID) : Proc Wired T := net_bind (recv_many from) single.
Definition send_next {T} `{Wire Wired T} (id : PartyID) (data : T) : Proc Wired unit := send (next_id id) data.
Definition send_next_many {T} `{Wire Wired T} (id : PartyID) (data : list T) : Proc Wired unit := send_many (next_id id) data.
Definition recv_prev {T} `{Wire Wired T} (id : PartyID) : Proc Wired T := recv (prev_id id).
Definition recv_prev_many {T} `{Wire Wired T} (id : PartyID) : Proc Wired (list T) := recv_many (prev_id id).

Definition reshare_many {T} `{Wire Wired T} (id : PartyID) (data : list T) : Proc Wired (list T) :=
  net_bind (send_many (next_id id) data) (fun _ => recv_many (prev_id id)).
Definition reshare {T} `{Wire Wired T} (id : PartyID) (data : T) : Proc Wired T :=
  net_bind (reshare_many id [data]) single.

(** The messages of the previous and of the next party. *)
Definition broadcast_many {T} `{Wire Wired T} (id : PartyID) (data : list T) : Proc Wired (list T * list T) :=
  net_bind (send_many (next_id id) data) (fun _ =>
  net_bind (send_many (prev_id id) data) (fun _ =>
  net_bind (recv_many (next_id id)) (fun recv_next =>
  net_bind (recv_many (prev_id id)) (fun recv_prev => Done (recv_prev, recv_next))))).
Definition broadcast {T} `{Wire Wired T} (id : PartyID) (data : T) : Proc Wired (T * T) :=
  net_bind (broadcast_many id [data]) (fun p =>
    match p with ([prev], [next]) => Done (prev, next) | _ => IoErr end).

(** [io_context.network.op(..)] *)
Definition network {A} (op : PartyID -> Proc Wired A) : MPC A := fun c => proc_bind (op (io_id c)) (fun a => Done (a, c)).

(** ** Setting up ([IoContext::init]) *)

Definition setup_prf (id : PartyID) (rng : Rng) : Proc Wired (Rep3Rand * Rng) :=
  let (seed1, rng) := gen_seed rng in
  net_bind (send_next id seed1) (fun _ =>
  net_bind (recv_prev id) (fun seed2 => Done (Rep3Rand_new seed1 seed2, rng))).

Definition setup_bitcomp (id : PartyID) (rands : Rep3Rand) : Proc Wired ((Rep3RandBitComp * Rep3RandBitComp) * Rep3Rand) :=
  let '((k1a, k1c), rands) := random_seeds rands in
  let '((k2a, k2c), rands) := random_seeds rands in
  match id with
  | ID0 =>
      net_bind (send_next id k1c) (fun _ =>
      net_bind (recv_prev (T := Seed * Seed) id) (fun p =>
      let (k1b, k2b) := p in
      Done ((new_3keys k1a k1b k1c, new_3keys k2a k2b k2c), rands)))
  | ID1 =>
      net_bind (send_next id (k1c, k2c)) (fun _ =>
      net_bind (recv_prev (T := Seed) id) (fun k1b =>
      Done ((new_3keys k1a k1b k1c, new_2keys k2a k2c), rands)))
  | ID2 =>
      net_bind (send_next id (k1c, k2c)) (fun _ =>
      net_bind (recv_prev (T := Seed * Seed) id) (fun p =>
      let (k1b, k2b) := p in
      Done ((new_3keys k1a k1b k1c, new_3keys k2a k2b k2c), rands)))
  end.

(** [rng] is the generator seeded from the entropy of the system; the forks
    [rng_src], [rngs_src] for child contexts are left out. *)
Definition IoContext_init (rng : Rng) (id : PartyID) : Proc Wired IoContext :=
  net_bind (setup_prf id rng) (fun p =>
  let (rand, rng) := p in
  net_bind (setup_bitcomp id rand) (fun q =>
  let '((b1, b2), rand) := q in
  let (child, _) := CorrelatedRng_fork (mkCorrelated rand b1 b2) in
  Done (mkIo id child rng Online))).

End Network.
