(* ===== verification/Rep3Rules.v ===== *)
(** * Reasoning about three parties at once

    [protocol ms Q]: from contexts in step with each other, the three programs
    run to results that satisfy [Q], and the contexts are in step again.  Rules
    for sequencing, for draws of correlated randomness and for the exchanges of
    the network, and the theorem that [IoContext::init] puts the contexts in
    step. *)

From Stdlib Require Import ZArith Lia List Bool.
From stdpp Require Import base list.
From S2P Require Import Prelude Field MpcNet Rep3Ctx.
Import ListNotations.
Local Open Scope Z_scope.
Local Open Scope mpc_scope.

Section Rules.
Context {F : Type} `{JF : JoltField F} `{PF : !PrimeField F} `{RO : !RngOps F}.

(** The second generator of a party is the first of the previous one; the third
    share of a conversion is drawn from three generators two parties have. *)
Record synced (c : Tri IoContext) : Prop := {
  sy_id0 : io_id (t0 c) = ID0;
  sy_id1 : io_id (t1 c) = ID1;
  sy_id2 : io_id (t2 c) = ID2;
  sy_rand0 : rng2 (rand (rngs (t0 c))) = rng1 (rand (rngs (t2 c)));
  sy_rand1 : rng2 (rand (rngs (t1 c))) = rng1 (rand (rngs (t0 c)));
  sy_rand2 : rng2 (rand (rngs (t2 c))) = rng1 (rand (rngs (t1 c)));
  sy_bitcomp1 : exists a b d, bitcomp1 (rngs (t1 c)) = mkBitComp a b (Some d) /\ bitcomp1 (rngs (t2 c)) = mkBitComp b d (Some a);
  sy_bitcomp2 : exists a b d, bitcomp2 (rngs (t0 c)) = mkBitComp a b (Some d) /\ bitcomp2 (rngs (t2 c)) = mkBitComp d a (Some b);
  sy_type : mpc_type (t1 c) = mpc_type (t0 c) /\ mpc_type (t2 c) = mpc_type (t0 c)
}.

Definition exec {A} (ms : Tri (MPC A)) (c : Tri IoContext) : Tri (Proc Wired (A * IoContext)) :=
  mkTri (t0 ms (t0 c)) (t1 ms (t1 c)) (t2 ms (t2 c)).

(** From the contexts [c] the parties return results that satisfy [Q]. *)
Definition protocol_at {A} (c : Tri IoContext) (ms : Tri (MPC A)) (Q : Tri A -> Prop) : Prop :=
  exists r c', runs (exec ms c) (tmap2 pair r c') /\ synced c' /\ Q r.

(** From the contexts [c] the parties return an error. *)
Definition fails_at {A} (c : Tri IoContext) (ms : Tri (MPC A)) : Prop := aborts (exec ms c).

Definition protocol {A} (ms : Tri (MPC A)) (Q : Tri A -> Prop) : Prop := forall c, synced c -> protocol_at c ms Q.
Definition fails {A} (ms : Tri (MPC A)) : Prop := forall c, synced c -> fails_at c ms.

(** Whatever the schedule. *)
Definition delivers_at {A} (c : Tri IoContext) (ms : Tri (MPC A)) (Q : Tri A -> Prop) : Prop :=
  exists r c', computes (exec ms c) (tmap2 pair r c') /\ synced c' /\ Q r.
Definition errs_at {A} (c : Tri IoContext) (ms : Tri (MPC A)) : Prop := always_ends (exec ms c) aborted.
Definition delivers {A} (ms : Tri (MPC A)) (Q : Tri A -> Prop) : Prop := forall c, synced c -> delivers_at c ms Q.

Lemma protocol_at_delivers {A} c (ms : Tri (MPC A)) Q : protocol_at c ms Q -> delivers_at c ms Q.
Proof. intros (r & c' & Hr & H). exists r, c'. split; [by apply runs_computes|done]. Qed.
Lemma protocol_delivers {A} (ms : Tri (MPC A)) Q : protocol ms Q -> delivers ms Q.
Proof. intros Hm c Hc. by apply protocol_at_delivers, Hm. Qed.
Lemma fails_at_errs {A} c (ms : Tri (MPC A)) : fails_at c ms -> errs_at c ms.
Proof. apply aborts_always. Qed.

(** ** Sequencing *)

Lemma protocol_ret {A} (r : Tri A) (Q : Tri A -> Prop) : Q r -> protocol (tmap mret r) Q.
Proof. intros HQ c Hc. exists r, c. split; [by exists []|done]. Qed.

Lemma protocol_ret' {A} (a b d : A) (Q : Tri A -> Prop) : Q (mkTri a b d) -> protocol (mkTri (mret a) (mret b) (mret d)) Q.
Proof. apply (protocol_ret (mkTri a b d)). Qed.

Lemma exec_bind {A B} (m0 m1 m2 : MPC A) (k0 k1 k2 : A -> MPC B) a0 a1 a2 c c1 e :
  runs (exec (mkTri m0 m1 m2) c) (tmap2 pair (mkTri a0 a1 a2) c1) -> ends (exec (mkTri (k0 a0) (k1 a1) (k2 a2)) c1) e ->
  ends (exec (mkTri (mbind m0 k0) (mbind m1 k1) (mbind m2 k2)) c) e.
Proof.
  exact (ends_bind _ (mkTri (fun p => k0 (fst p) (snd p)) (fun p => k1 (fst p) (snd p)) (fun p => k2 (fst p) (snd p))) _ _).
Qed.

Lemma protocol_at_bind {A B} c (m0 m1 m2 : MPC A) (k0 k1 k2 : A -> MPC B) Q Q' :
  protocol_at c (mkTri m0 m1 m2) Q ->
  (forall a0 a1 a2, Q (mkTri a0 a1 a2) -> protocol (mkTri (k0 a0) (k1 a1) (k2 a2)) Q') ->
  protocol_at c (mkTri (mbind m0 k0) (mbind m1 k1) (mbind m2 k2)) Q'.
Proof.
  intros ([a0 a1 a2] & c1 & Hr & Hc1 & HQ) Hk. destruct (Hk a0 a1 a2 HQ c1 Hc1) as (r & c2 & Hr2 & Hc2 & HQ2).
  exists r, c2. split; [|done]. exact (exec_bind _ _ _ _ _ _ _ _ _ _ _ _ Hr Hr2).
Qed.

Lemma protocol_bind {A B} (m0 m1 m2 : MPC A) (k0 k1 k2 : A -> MPC B) Q Q' :
  protocol (mkTri m0 m1 m2) Q ->
  (forall a0 a1 a2, Q (mkTri a0 a1 a2) -> protocol (mkTri (k0 a0) (k1 a1) (k2 a2)) Q') ->
  protocol (mkTri (mbind m0 k0) (mbind m1 k1) (mbind m2 k2)) Q'.
Proof. intros Hm Hk c Hc. exact (protocol_at_bind c _ _ _ _ _ _ Q Q' (Hm c Hc) Hk). Qed.

Lemma fails_at_bind {A B} c (m0 m1 m2 : MPC A) (k0 k1 k2 : A -> MPC B) Q :
  protocol_at c (mkTri m0 m1 m2) Q ->
  (forall a0 a1 a2, Q (mkTri a0 a1 a2) -> fails (mkTri (k0 a0) (k1 a1) (k2 a2))) ->
  fails_at c (mkTri (mbind m0 k0) (mbind m1 k1) (mbind m2 k2)).
Proof.
  intros ([a0 a1 a2] & c1 & Hr & Hc1 & HQ) Hk. exact (exec_bind _ _ _ _ _ _ _ _ _ _ _ _ Hr (Hk a0 a1 a2 HQ c1 Hc1)).
Qed.

(** From the contexts [c] a party panics. *)
Definition crashes_at {A} (c : Tri IoContext) (ms : Tri (MPC A)) (i : PartyID) : Prop :=
  exists schedule s, run schedule (start (exec ms c)) = Some s /\ tget (procs s) i = Crashed.

Lemma crashes_bind {A B} c (m0 m1 m2 : MPC A) (k0 k1 k2 : A -> MPC B) Q i :
  protocol_at c (mkTri m0 m1 m2) Q ->
  (forall a0 a1 a2 c, Q (mkTri a0 a1 a2) -> synced c -> crashes_at c (mkTri (k0 a0) (k1 a1) (k2 a2)) i) ->
  crashes_at c (mkTri (mbind m0 k0) (mbind m1 k1) (mbind m2 k2)) i.
Proof.
  intros ([a0 a1 a2] & c1 & Hr & Hc1 & HQ) Hk. destruct (Hk a0 a1 a2 c1 HQ Hc1) as (l & s & Hl & Hs).
  destruct (exec_bind m0 m1 m2 k0 k1 k2 a0 a1 a2 c c1 s Hr) as [l' Hl']; [by exists l|]. by exists l', s.
Qed.

Lemma crashes_left {A B} c (m0 m1 m2 : MPC A) (k0 k1 k2 : A -> MPC B) i :
  crashes_at c (mkTri m0 m1 m2) i -> crashes_at c (mkTri (mbind m0 k0) (mbind m1 k1) (mbind m2 k2)) i.
Proof.
  intros (l & s & Hl & Hs). set (k := mkTri (fun p => k0 (fst p) (snd p)) (fun p => k1 (fst p) (snd p)) (fun p => k2 (fst p) (snd p))).
  exists l, (sys_bind s k). split; [exact (run_bind l _ s k Hl)|]. unfold sys_bind.
  destruct i; cbn [procs tget tmap2 t0 t1 t2] in *; by rewrite Hs.
Qed.

(** A run with a panic gives no results, whatever the schedule. *)
Lemma crashes_no_result {A} c (ms : Tri (MPC A)) i r : crashes_at c ms i -> ~ runs (exec ms c) r.
Proof.
  intros (l & s & Hl & Hs) Hr. destruct (runs_computes _ _ Hr) as (n & Hn). destruct (Hn l s Hl) as (_ & rest & _ & Hrest).
  clear Hn Hl. revert s Hs Hrest. induction rest as [|j rest IH]; intros s Hs Hrest.
  - injection Hrest as ->. by destruct i.
  - cbn in Hrest. destruct (step_by j s) as [s'|] eqn:E; [|done]. apply (IH s'); [|done]. unfold step_by in E.
    destruct (decide (j = i)) as [->|Hne]; [by rewrite Hs in E|].
    destruct (tget (procs s) j) as [| | |? ? ?|? ?]; try done; [|destruct (queue _ _ _); [done|]]; injection E as <-; cbn;
      by rewrite tget_tset_ne.
Qed.

Lemma fails_err {A} : fails (tpure (io_err : MPC A)).
Proof. intros c Hc. by exists []. Qed.

Lemma protocol_weaken {A} (ms : Tri (MPC A)) (Q Q' : Tri A -> Prop) :
  protocol ms Q -> (forall r, Q r -> Q' r) -> protocol ms Q'.
Proof. intros Hm HQ c Hc. destruct (Hm c Hc) as (r & c' & ? & ? & ?). exists r, c'. auto. Qed.

Lemma protocol_id {B} (k0 k1 k2 : PartyID -> MPC B) Q : protocol (mkTri (k0 ID0) (k1 ID1) (k2 ID2)) Q ->
  protocol (mkTri (mbind get_id k0) (mbind get_id k1) (mbind get_id k2)) Q.
Proof.
  intros Hk c Hc. destruct (Hk c Hc) as (r & c' & Hr & H). exists r, c'. split; [|done].
  unfold exec, mbind, get_id in *. cbn in *. by rewrite (sy_id0 _ Hc), (sy_id1 _ Hc), (sy_id2 _ Hc).
Qed.

Lemma protocol_mpc_type {B} (k0 k1 k2 : MPCType -> MPC B) Q : (forall m, protocol (mkTri (k0 m) (k1 m) (k2 m)) Q) ->
  protocol (mkTri (mbind get_mpc_type k0) (mbind get_mpc_type k1) (mbind get_mpc_type k2)) Q.
Proof.
  intros Hk c Hc. destruct (Hk (mpc_type (t0 c)) c Hc) as (r & c' & Hr & H). exists r, c'. split; [|done].
  destruct (sy_type _ Hc) as [E1 E2]. unfold exec, mbind, get_mpc_type in *. cbn in *. by rewrite E1, E2.
Qed.

(** ** Randomness *)

(** A draw of both generators: the second of a party is the first of the previous. *)
Definition drawn {A} (g : Rng -> A * Rng) (c : IoContext) : A := fst (g (rng1 (rand (rngs c)))).

Lemma protocol_at_draw {A} (g : Rng -> A * Rng) c : synced c ->
  protocol_at c (tpure (with_rand (draw2 g)))
    (fun r => r = mkTri (drawn g (t0 c), drawn g (t2 c)) (drawn g (t1 c), drawn g (t0 c)) (drawn g (t2 c), drawn g (t1 c))).
Proof.
  intros [H0 H1 H2 R0 R1 R2 B1 B2 T].
  destruct c as [[i0 [[x0 y0] p0 q0] s0 e0] [i1 [[x1 y1] p1 q1] s1 e1] [i2 [[x2 y2] p2 q2] s2 e2]]. cbn in *. subst.
  unfold protocol_at, exec, with_rand, draw2, drawn. cbn.
  destruct (g x0) as [a x0'], (g x1) as [b x1'], (g x2) as [d x2'].
  exists (mkTri (a, d) (b, a) (d, b)),
    (mkTri (mkIo ID0 (mkCorrelated (mkRand x0' x2') p0 q0) s0 e0) (mkIo ID1 (mkCorrelated (mkRand x1' x0') p1 q1) s1 e1)
           (mkIo ID2 (mkCorrelated (mkRand x2' x1') p2 q2) s2 e2)).
  split; [by exists []|]. by split.
Qed.

Lemma protocol_draw {A} (g : Rng -> A * Rng) (P : A -> Prop) : (forall r, P (fst (g r))) ->
  protocol (tpure (with_rand (draw2 g))) (fun r => exists a b d, P a /\ P b /\ P d /\ r = mkTri (a, d) (b, a) (d, b)).
Proof.
  intros HP c Hc. destruct (protocol_at_draw g c Hc) as (r & c' & Hr & Hc' & ->). eexists _, c'. split; [exact Hr|].
  split; [done|]. eexists _, _, _. split; [apply HP|]. split; [apply HP|]. by split; [apply HP|].
Qed.

(** A draw that is mapped. *)
Lemma with_rand_map {A B} (f : Rep3Rand -> A * Rep3Rand) (h : A -> B) c :
  with_rand (fun r => let (a, r) := f r in (h a, r)) c = mbind (with_rand f) (fun a => mret (h a)) c.
Proof. unfold mbind, with_rand. by destruct (f (rand (rngs c))). Qed.

Lemma protocol_ext {A} (m0 m1 m2 n0 n1 n2 : MPC A) Q : (forall c, m0 c = n0 c) -> (forall c, m1 c = n1 c) -> (forall c, m2 c = n2 c) ->
  protocol (mkTri n0 n1 n2) Q -> protocol (mkTri m0 m1 m2) Q.
Proof.
  intros E0 E1 E2 Hn c Hc. destruct (Hn c Hc) as (r & c' & Hr & H). exists r, c'. split; [|done].
  unfold exec in *. cbn in *. by rewrite E0, E1, E2.
Qed.

(** The masks of the three parties cancel. *)
Lemma protocol_mask : protocol (tpure (with_rand masking_field_element))
  (fun r => exists a b d, r = mkTri (fsub a d) (fsub b a) (fsub d b)).
Proof.
  assert (E : forall c, with_rand masking_field_element c = mbind (with_rand random_fes) (fun p => mret (fsub (fst p) (snd p))) c).
  { intros c. unfold masking_field_element, random_fes. rewrite <- with_rand_map. unfold with_rand.
    by destruct (draw2 gen_fe (rand (rngs c))) as [[u v] r]. }
  apply (protocol_ext _ _ _ _ _ _ _ E E E).
  eapply protocol_bind; [apply (protocol_draw gen_fe (fun _ => True) (fun _ => I))|].
  intros a0 a1 a2 (a & b & d & _ & _ & _ & Er). injection Er as -> -> ->. apply protocol_ret'. by exists a, b, d.
Qed.

(** Limbs of a big integer. *)
Lemma biguint_mask_range z n : 0 <= n -> 0 <= Z.land z (Z.shiftl 1 n - 1) < 2 ^ n.
Proof.
  intros Hn. rewrite Z.shiftl_1_l. replace (2 ^ n - 1) with (Z.ones n) by (rewrite Z.ones_equiv; lia).
  rewrite Z.land_ones by done. apply Z.mod_pos_bound, Z.pow_pos_nonneg; lia.
Qed.

Lemma gen_biguint_range bitlen r : 0 <= bitlen -> 0 <= fst (gen_biguint bitlen r) < 2 ^ bitlen.
Proof. intros Hb. unfold gen_biguint. destruct (gen_limbs _ _). by apply biguint_mask_range. Qed.

(** ** The network *)

Lemma protocol_network {A} (op0 op1 op2 : PartyID -> Proc Wired A) (r : Tri A) :
  runs (mkTri (op0 ID0) (op1 ID1) (op2 ID2)) r ->
  protocol (mkTri (network op0) (network op1) (network op2)) (fun r' => r' = r).
Proof.
  intros Hr c Hc. exists r, c. split; [|done]. unfold exec, network. cbn.
  rewrite (sy_id0 _ Hc), (sy_id1 _ Hc), (sy_id2 _ Hc).
  apply (runs_bind (mkTri (op0 ID0) (op1 ID1) (op2 ID2)) (mkTri (fun a => Done (a, t0 c)) (fun a => Done (a, t1 c)) (fun a => Done (a, t2 c))) r); [done|].
  by exists [].
Qed.

(** Evaluate a schedule. *)
Ltac run_schedule l :=
  exists l; cbn -[serialize deserialize]; rewrite ?deserialize_serialize; cbn -[serialize deserialize];
  repeat (rewrite ?deserialize_serialize; cbn -[serialize deserialize]); try reflexivity.

Lemma runs_reshare_many {T} `{Wire Wired T} (x0 x1 x2 : list T) :
  runs (mkTri (reshare_many ID0 x0) (reshare_many ID1 x1) (reshare_many ID2 x2)) (mkTri x2 x0 x1).
Proof. run_schedule [ID0; ID1; ID2; ID0; ID1; ID2]. Qed.

Lemma runs_reshare {T} `{Wire Wired T} (x0 x1 x2 : T) :
  runs (mkTri (reshare ID0 x0) (reshare ID1 x1) (reshare ID2 x2)) (mkTri x2 x0 x1).
Proof. run_schedule [ID0; ID1; ID2; ID0; ID1; ID2]. Qed.

Lemma runs_broadcast_many {T} `{Wire Wired T} (x0 x1 x2 : list T) :
  runs (mkTri (broadcast_many ID0 x0) (broadcast_many ID1 x1) (broadcast_many ID2 x2)) (mkTri (x2, x1) (x0, x2) (x1, x0)).
Proof. run_schedule [ID0; ID1; ID2; ID0; ID1; ID2; ID0; ID1; ID2; ID0; ID1; ID2]. Qed.

Lemma runs_broadcast {T} `{Wire Wired T} (x0 x1 x2 : T) :
  runs (mkTri (broadcast ID0 x0) (broadcast ID1 x1) (broadcast ID2 x2)) (mkTri (x2, x1) (x0, x2) (x1, x0)).
Proof. run_schedule [ID0; ID1; ID2; ID0; ID1; ID2; ID0; ID1; ID2; ID0; ID1; ID2]. Qed.

Lemma protocol_reshare {T} `{Wire Wired T} (x0 x1 x2 : T) :
  protocol (mkTri (network (fun id => reshare id x0)) (network (fun id => reshare id x1)) (network (fun id => reshare id x2)))
    (fun r => r = mkTri x2 x0 x1).
Proof. apply protocol_network, runs_reshare. Qed.

Lemma protocol_reshare_many {T} `{Wire Wired T} (x0 x1 x2 : list T) :
  protocol (mkTri (network (fun id => reshare_many id x0)) (network (fun id => reshare_many id x1))
                  (network (fun id => reshare_many id x2))) (fun r => r = mkTri x2 x0 x1).
Proof. apply protocol_network, runs_reshare_many. Qed.

Lemma protocol_broadcast {T} `{Wire Wired T} (x0 x1 x2 : T) :
  protocol (mkTri (network (fun id => broadcast id x0)) (network (fun id => broadcast id x1)) (network (fun id => broadcast id x2)))
    (fun r => r = mkTri (x2, x1) (x0, x2) (x1, x0)).
Proof. apply protocol_network, runs_broadcast. Qed.

Lemma protocol_broadcast_many {T} `{Wire Wired T} (x0 x1 x2 : list T) :
  protocol (mkTri (network (fun id => broadcast_many id x0)) (network (fun id => broadcast_many id x1))
                  (network (fun id => broadcast_many id x2))) (fun r => r = mkTri (x2, x1) (x0, x2) (x1, x0)).
Proof. apply protocol_network, runs_broadcast_many. Qed.

(** [send_next_many] then [recv_prev_many], as two calls. *)
Lemma ends_exchange_many {T A} `{Wire Wired T} (x0 x1 x2 : list T) (k0 k1 k2 : list T -> MPC A) c e : synced c ->
  ends (exec (mkTri (k0 x2) (k1 x0) (k2 x1)) c) e ->
  ends (exec (mkTri (network (fun id => send_next_many id x0) ;~ v <~ network (fun id => recv_prev_many id) ;; k0 v)
                    (network (fun id => send_next_many id x1) ;~ v <~ network (fun id => recv_prev_many id) ;; k1 v)
                    (network (fun id => send_next_many id x2) ;~ v <~ network (fun id => recv_prev_many id) ;; k2 v)) c) e.
Proof.
  intros Hc [l Hl]. exists ([ID0; ID1; ID2; ID0; ID1; ID2] ++ l). rewrite run_app. rewrite <- Hl. clear Hl.
  unfold exec, network, mbind. cbn -[serialize deserialize]. rewrite (sy_id0 _ Hc), (sy_id1 _ Hc), (sy_id2 _ Hc).
  cbn -[serialize deserialize]. by rewrite !deserialize_serialize.
Qed.

Lemma protocol_exchange {T A} `{Wire Wired T} (x0 x1 x2 : T) (k0 k1 k2 : T -> MPC A) Q :
  protocol (mkTri (k0 x2) (k1 x0) (k2 x1)) Q ->
  protocol (mkTri (network (fun id => send_next id x0) ;~ v <~ network (fun id => recv_prev id) ;; k0 v)
                  (network (fun id => send_next id x1) ;~ v <~ network (fun id => recv_prev id) ;; k1 v)
                  (network (fun id => send_next id x2) ;~ v <~ network (fun id => recv_prev id) ;; k2 v)) Q.
Proof.
  intros Hk c Hc. destruct (Hk c Hc) as (r & c' & [l Hl] & H'). exists r, c'. split; [|done].
  exists ([ID0; ID1; ID2; ID0; ID1; ID2] ++ l). rewrite run_app. rewrite <- Hl. clear Hl.
  unfold exec, network, mbind. cbn -[serialize deserialize]. rewrite (sy_id0 _ Hc), (sy_id1 _ Hc), (sy_id2 _ Hc).
  do 3 (cbn -[serialize deserialize]; rewrite ?deserialize_serialize). done.
Qed.

Lemma protocol_exchange_many {T A} `{Wire Wired T} (x0 x1 x2 : list T) (k0 k1 k2 : list T -> MPC A) Q :
  protocol (mkTri (k0 x2) (k1 x0) (k2 x1)) Q ->
  protocol (mkTri (network (fun id => send_next_many id x0) ;~ v <~ network (fun id => recv_prev_many id) ;; k0 v)
                  (network (fun id => send_next_many id x1) ;~ v <~ network (fun id => recv_prev_many id) ;; k1 v)
                  (network (fun id => send_next_many id x2) ;~ v <~ network (fun id => recv_prev_many id) ;; k2 v)) Q.
Proof.
  intros Hk c Hc. destruct (Hk c Hc) as (r & c' & Hr & H'). exists r, c'. split; [|done]. by apply ends_exchange_many.
Qed.

Lemma fails_exchange_many {T A} `{Wire Wired T} (x0 x1 x2 : list T) (k0 k1 k2 : list T -> MPC A) :
  fails (mkTri (k0 x2) (k1 x0) (k2 x1)) ->
  fails (mkTri (network (fun id => send_next_many id x0) ;~ v <~ network (fun id => recv_prev_many id) ;; k0 v)
               (network (fun id => send_next_many id x1) ;~ v <~ network (fun id => recv_prev_many id) ;; k1 v)
               (network (fun id => send_next_many id x2) ;~ v <~ network (fun id => recv_prev_many id) ;; k2 v)).
Proof. intros Hk c Hc. apply ends_exchange_many; [done|]. exact (Hk c Hc). Qed.

(** ** Setting up *)

Lemma runs_setup_prf (s0 s1 s2 : Rng) : exists k0 k1 k2 s0' s1' s2',
  runs (mkTri (setup_prf ID0 s0) (setup_prf ID1 s1) (setup_prf ID2 s2))
    (mkTri (Rep3Rand_new k0 k2, s0') (Rep3Rand_new k1 k0, s1') (Rep3Rand_new k2 k1, s2')).
Proof.
  unfold setup_prf. destruct (gen_seed s0) as [k0 s0'], (gen_seed s1) as [k1 s1'], (gen_seed s2) as [k2 s2'].
  exists k0, k1, k2, s0', s1', s2'. run_schedule [ID0; ID1; ID2; ID0; ID1; ID2].
Qed.

Lemma runs_setup_bitcomp (g0 g1 g2 : Rng) : exists a0 a1 a2 b0 b1 b2 h0 h1 h2,
  runs (mkTri (setup_bitcomp ID0 (mkRand g0 g2)) (setup_bitcomp ID1 (mkRand g1 g0)) (setup_bitcomp ID2 (mkRand g2 g1)))
    (mkTri ((new_3keys a0 a1 a2, new_3keys b0 b1 b2), mkRand h0 h2)
           ((new_3keys a1 a2 a0, new_2keys b1 b0), mkRand h1 h0)
           ((new_3keys a2 a0 a1, new_3keys b2 b0 b1), mkRand h2 h1)).
Proof.
  unfold setup_bitcomp, random_seeds, draw2. cbn [rng1 rng2].
  destruct (gen_seed g0) as [a0 u0], (gen_seed g1) as [a1 u1], (gen_seed g2) as [a2 u2]. cbn [rng1 rng2].
  destruct (gen_seed u0) as [b0 h0], (gen_seed u1) as [b1 h1], (gen_seed u2) as [b2 h2].
  exists a0, a1, a2, b0, b1, b2, h0, h1, h2. run_schedule [ID0; ID1; ID2; ID0; ID1; ID2].
Qed.

(** After [init] the contexts are in step.  The generator of [generate_shared]
    is one for parties 1 and 2, and another for party 0. *)
Lemma runs_init (s0 s1 s2 : Rng) : exists c,
  runs (mkTri (IoContext_init s0 ID0) (IoContext_init s1 ID1) (IoContext_init s2 ID2)) c /\ synced c /\
  shared_rng ID1 (rngs (t1 c)) = shared_rng ID2 (rngs (t2 c)) /\
  shared_rng ID0 (rngs (t0 c)) = bc_rng1 (bitcomp1 (rngs (t1 c))).
Proof.
  destruct (runs_setup_prf s0 s1 s2) as (k0 & k1 & k2 & s0' & s1' & s2' & H1).
  destruct (runs_setup_bitcomp (from_seed k0) (from_seed k1) (from_seed k2)) as (a0 & a1 & a2 & b0 & b1 & b2 & h0 & h1 & h2 & H2).
  unfold IoContext_init, net_bind.
  destruct (gen_seed h0) as [e0 h0'] eqn:G0, (gen_seed h1) as [e1 h1'] eqn:G1, (gen_seed h2) as [e2 h2'] eqn:G2.
  set (fk k := fst (fork_seed (from_seed k))).
  exists (mkTri
    (mkIo ID0 (mkCorrelated (Rep3Rand_new e0 e2) (mkBitComp (fk a0) (fk a1) (Some (fk a2))) (mkBitComp (fk b0) (fk b1) (Some (fk b2)))) s0' Online)
    (mkIo ID1 (mkCorrelated (Rep3Rand_new e1 e0) (mkBitComp (fk a1) (fk a2) (Some (fk a0))) (mkBitComp (fk b1) (fk b0) None)) s1' Online)
    (mkIo ID2 (mkCorrelated (Rep3Rand_new e2 e1) (mkBitComp (fk a2) (fk a0) (Some (fk a1))) (mkBitComp (fk b2) (fk b0) (Some (fk b1)))) s2' Online)).
  split; [|split; [split; cbn; eauto 7|done]].
  apply (runs_bind3 _ _ _ _ _ _ _ _ _ _ H1). apply (runs_bind3 _ _ _ _ _ _ _ _ _ _ H2).
  exists []. unfold CorrelatedRng_fork, Rep3Rand_fork, random_seeds, draw2, BitComp_fork. cbn [rand bitcomp1 bitcomp2 rng1 rng2].
  rewrite G0, G1, G2. unfold fk.
  cbn [new_3keys new_2keys bc_rng1 bc_rng2 bc_rng3].
  destruct (fork_seed (from_seed a0)), (fork_seed (from_seed a1)), (fork_seed (from_seed a2)), (fork_seed (from_seed b0)),
    (fork_seed (from_seed b1)), (fork_seed (from_seed b2)). reflexivity.
Qed.

End Rules.
