(* ===== verification/Rep3Share.v ===== *)
(** * Replicated shares

    A value is split in three summands; every party holds its own and the one of
    the previous party ([protocols/rep3/types], [protocols/rep3_ring/types.rs]).
    The combining operation is addition in a field or a ring for arithmetic
    shares and exclusive or for binary shares. *)

From Stdlib Require Import ZArith Lia List Bool.
From stdpp Require Import base list.
From S2P Require Import Prelude Words Field MpcNet Rep3Ctx Rep3Rules.
Import ListNotations.
Local Open Scope Z_scope.
Local Open Scope mpc_scope.

(** [Rep3PrimeFieldShare], [Rep3BigUintShare], [Rep3RingShare] *)
Record Share (A : Type) := mkShare { sa : A; sb : A }.
Arguments mkShare {A} _ _.
Arguments sa {A} _.
Arguments sb {A} _.

(** ** Sharings *)

Section Sharings.
Context {A : Type}.

Definition shares_of (a0 a1 a2 : A) : Tri (Share A) := mkTri (mkShare a0 a2) (mkShare a1 a0) (mkShare a2 a1).

(** The shares [s] combine to [x]. *)
Definition sharing (op : A -> A -> A) (s : Tri (Share A)) (x : A) : Prop :=
  exists a0 a1 a2, s = shares_of a0 a1 a2 /\ op (op a0 a1) a2 = x.

(** Additive shares, one summand per party. *)
Definition additive (op : A -> A -> A) (s : Tri A) (x : A) : Prop := op (op (t0 s) (t1 s)) (t2 s) = x.

Lemma sharing_local op s x : sharing op s x -> additive op (tmap sa s) x.
Proof. by intros (a0 & a1 & a2 & -> & <-). Qed.

End Sharings.

(** ** Vectors of shares *)

(** [P] holds of the elements of three vectors of one length, with the values [vs]. *)
Inductive tri_forall {A V : Type} (P : Tri A -> V -> Prop) : Tri (list A) -> list V -> Prop :=
| tri_nil : tri_forall P (mkTri [] [] []) []
| tri_cons a0 a1 a2 v l0 l1 l2 vs : P (mkTri a0 a1 a2) v -> tri_forall P (mkTri l0 l1 l2) vs ->
    tri_forall P (mkTri (a0 :: l0) (a1 :: l1) (a2 :: l2)) (v :: vs).

Section Vectors.
Context {A V : Type}.
Implicit Types (P : Tri A -> V -> Prop).

Lemma tri_forall_length P l vs : tri_forall P l vs ->
  length (t0 l) = length vs /\ length (t1 l) = length vs /\ length (t2 l) = length vs.
Proof. induction 1 as [|? ? ? ? ? ? ? ? ? ? (IH0 & IH1 & IH2)]; cbn in *; auto. Qed.

Lemma tri_forall_impl {W} P (Q : Tri A -> W -> Prop) (f : V -> W) l vs :
  (forall a v, P a v -> Q a (f v)) -> tri_forall P l vs -> tri_forall Q l (map f vs).
Proof. intros H. induction 1; constructor; auto. Qed.

Lemma tri_forall_map {B W} (Q : Tri B -> W -> Prop) P (f0 f1 f2 : A -> B) (g : V -> W) l vs :
  (forall a v, P a v -> Q (mkTri (f0 (t0 a)) (f1 (t1 a)) (f2 (t2 a))) (g v)) -> tri_forall P l vs ->
  tri_forall Q (mkTri (map f0 (t0 l)) (map f1 (t1 l)) (map f2 (t2 l))) (map g vs).
Proof. intros H. induction 1 as [|? ? ? ? ? ? ? ? Hp ? IH]; constructor; [exact (H _ _ Hp)|exact IH]. Qed.

Lemma tri_forall_app P l0 l1 l2 vs m0 m1 m2 ws : tri_forall P (mkTri l0 l1 l2) vs -> tri_forall P (mkTri m0 m1 m2) ws ->
  tri_forall P (mkTri (l0 ++ m0) (l1 ++ m1) (l2 ++ m2)) (vs ++ ws).
Proof.
  intros H Hw. remember (mkTri l0 l1 l2) as l eqn:El. revert l0 l1 l2 El.
  induction H; intros ? ? ? [= <- <- <-]; cbn; [done|]. constructor; auto.
Qed.

Lemma tri_forall_snoc P l vs v : tri_forall P l (vs ++ [v]) -> exists m0 m1 m2 a0 a1 a2,
  l = mkTri (m0 ++ [a0]) (m1 ++ [a1]) (m2 ++ [a2]) /\ tri_forall P (mkTri m0 m1 m2) vs /\ P (mkTri a0 a1 a2) v.
Proof.
  revert l. induction vs as [|w vs IH]; intros l H; inversion H as [|b0 b1 b2 ? l0 l1 l2 ? Hp Hl]; subst.
  - inversion Hl; subst. exists [], [], [], b0, b1, b2. split; [done|]. split; [constructor|done].
  - destruct (IH _ Hl) as (m0 & m1 & m2 & a0 & a1 & a2 & [= -> -> ->] & Hm & Ha).
    exists (b0 :: m0), (b1 :: m1), (b2 :: m2), a0, a1, a2. split; [done|]. split; [by constructor|done].
Qed.

Lemma tri_forall_zip {B W} (Q : Tri B -> W -> Prop) P l0 l1 l2 vs m0 m1 m2 ws :
  tri_forall P (mkTri l0 l1 l2) vs -> tri_forall Q (mkTri m0 m1 m2) ws -> length vs = length ws ->
  tri_forall (fun ab v => P (tmap fst ab) (fst v) /\ Q (tmap snd ab) (snd v))
    (mkTri (zip l0 m0) (zip l1 m1) (zip l2 m2)) (zip vs ws).
Proof.
  intros H. remember (mkTri l0 l1 l2) as l eqn:El. revert l0 l1 l2 El m0 m1 m2 ws.
  induction H as [|a0 a1 a2 v l0' l1' l2' vs Hp H IH]; intros ? ? ? [= <- <- <-] ? ? ? ws Hw Hlen.
  - destruct ws; [|done]. constructor.
  - inversion Hw; subst; [done|]. cbn. constructor; [done|]. apply IH; auto.
Qed.

End Vectors.

(** ** Loops in the monad of a party *)

Section Loops.
Context {F : Type} `{JF : JoltField F} `{PF : !PrimeField F} `{RO : !RngOps F}.

Fixpoint mmap {A B} (f : A -> MPC B) (l : list A) : MPC (list B) :=
  match l with
  | [] => mret []
  | a :: l => b <~ f a ;; r <~ mmap f l ;; mret (b :: r)
  end.

(** [debug_assert!] *)
Definition mdebug_assert `{Build} (b : bool) : MPC unit := if debug_assertions && negb b then crash else mret tt.
(** [assert!] *)
Definition massert (b : bool) : MPC unit := if b then mret tt else crash.

Lemma protocol_mmap {A B V W} (P : Tri A -> V -> Prop) (Q : Tri B -> W -> Prop) (g : V -> W) (f0 f1 f2 : A -> MPC B) l vs :
  (forall a v, P a v -> protocol (mkTri (f0 (t0 a)) (f1 (t1 a)) (f2 (t2 a))) (fun r => Q r (g v))) -> tri_forall P l vs ->
  protocol (mkTri (mmap f0 (t0 l)) (mmap f1 (t1 l)) (mmap f2 (t2 l))) (fun r => tri_forall Q r (map g vs)).
Proof.
  intros H. induction 1 as [|a0 a1 a2 v l0 l1 l2 vs Hp Hl IH]; cbn [mmap map t0 t1 t2] in *.
  - apply protocol_ret'. constructor.
  - eapply protocol_bind; [exact (H _ _ Hp)|]. intros b0 b1 b2 Hb. eapply protocol_bind; [exact IH|].
    intros r0 r1 r2 Hr. apply protocol_ret'. by constructor.
Qed.

Lemma mdebug_assert_true `{Build} b : b = true -> mdebug_assert b = mret tt.
Proof. intros ->. unfold mdebug_assert. by rewrite andb_false_r. Qed.

End Loops.
