(* ===== verification/Rep3Arith.v ===== *)
(** * Arithmetic on shares of field elements

    [mpc-core/src/protocols/rep3.rs] and [protocols/rep3/arithmetic.rs] without the
    comparisons: sharing and combining, local operations, multiplication,
    opening, inversion, square roots, powers and products. *)

From Stdlib Require Import ZArith Lia List Bool Ring.
From stdpp Require Import base list.
From S2P Require Import Prelude Words Field MpcNet Rep3Ctx Rep3Rules Rep3Share.
Import ListNotations.
Local Open Scope Z_scope.
Local Open Scope mpc_scope.

Section Arithmetic.
Context {F : Type} `{JF : JoltField F} `{PF : !PrimeField F} `{RO : !RngOps F} `{B : Build}.
Local Open Scope jolt_scope.

Definition FieldShare := Share F.
(** [AdditivePrimeFieldShare]: one summand. *)
Local Abbreviation AdditiveShare := F (only parsing).

Definition is_zero_fe (x : F) : bool := (into_biguint x =? 0)%Z.
Definition is_one_fe (x : F) : bool := (into_biguint x =? 1)%Z.

(** ** Operators of [Rep3PrimeFieldShare] *)

Definition zero_share : FieldShare := mkShare 0 0.
Definition share_add (x y : FieldShare) : FieldShare := mkShare (sa x + sa y) (sb x + sb y).
Definition share_sub (x y : FieldShare) : FieldShare := mkShare (sa x - sa y) (sb x - sb y).
Definition share_neg (x : FieldShare) : FieldShare := mkShare (- sa x) (- sb x).
Definition share_scale (x : FieldShare) (c : F) : FieldShare := mkShare (sa x * c) (sb x * c).
(** The local part of a product. *)
Definition share_mul (x y : FieldShare) : AdditiveShare := sa x * sa y + sa x * sb y + sb x * sa y.
Definition into_additive (x : FieldShare) : AdditiveShare := (sa x + sb x) * TWO_INV.

Definition promote_to_trivial_share (id : PartyID) (public_value : F) : FieldShare :=
  match id with
  | ID0 => mkShare public_value 0
  | ID1 => mkShare 0 public_value
  | ID2 => zero_share
  end.
Definition promote_to_trivial_shares (public_values : list F) (id : PartyID) : list FieldShare :=
  map (promote_to_trivial_share id) public_values.

(** ** Sharing and combining ([rep3.rs]); the random elements are arguments *)

Definition share_field_element (val a b : F) : Tri FieldShare :=
  let c := val - a - b in mkTri (mkShare a c) (mkShare b a) (mkShare c b).
Definition share_field_element_additive (val a b : F) : Tri F :=
  let c := val - a - b in mkTri a b c.

Fixpoint share_field_elements (vals : list F) (r : Rng) : Tri (list FieldShare) :=
  match vals with
  | [] => mkTri [] [] []
  | val :: rest =>
      let (a, r) := gen_fe r in
      let (b, r) := gen_fe r in
      let s := share_field_element val a b in
      let t := share_field_elements rest r in
      mkTri (t0 s :: t0 t) (t1 s :: t1 t) (t2 s :: t2 t)
  end.

Definition combine_field_element (share1 share2 share3 : FieldShare) : F := sa share1 + sa share2 + sa share3.

Fixpoint multizip3 {A R} (f : A -> A -> A -> R) (l1 l2 l3 : list A) : list R :=
  match l1, l2, l3 with
  | a :: l1, b :: l2, c :: l3 => f a b c :: multizip3 f l1 l2 l3
  | _, _, _ => []
  end.
(** [None] is a failed [assert_eq!] on the lengths. *)
Definition combine_field_elements (share1 share2 share3 : list FieldShare) : option (list F) :=
  if Nat.eqb (length share1) (length share2) && Nat.eqb (length share2) (length share3)
  then Some (multizip3 combine_field_element share1 share2 share3) else None.

(** ** Local operations *)

Definition add_public (shared : FieldShare) (public : F) (id : PartyID) : FieldShare :=
  match id with
  | ID0 => mkShare (sa shared + public) (sb shared)
  | ID1 => mkShare (sa shared) (sb shared + public)
  | ID2 => shared
  end.
Definition sub_shared_by_public (shared : FieldShare) (public : F) (id : PartyID) : FieldShare := add_public shared (- public) id.
Definition sub_public_by_shared (public : F) (shared : FieldShare) (id : PartyID) : FieldShare := add_public (share_neg shared) public id.
Definition mul_public (shared : FieldShare) (public : F) : FieldShare := share_scale shared public.
(** [None] is the error of a division by zero. *)
Definition div_shared_by_public (shared : FieldShare) (public : F) : option FieldShare :=
  if is_zero_fe public then None
  else match inverse public with Some b_inv => Some (mul_public shared b_inv) | None => None end.
Definition neg (a : FieldShare) : FieldShare := share_neg a.
Definition add_mul_public (a b : FieldShare) (c : F) : FieldShare := share_add a (mul_public b c).

Definition field_mul_0_1_optimized (a b : F) : F :=
  if is_zero_fe a || is_zero_fe b then 0
  else if is_one_fe a then b
  else if is_one_fe b then a
  else a * b.
Definition mul_public_0_1_optimized (shared : FieldShare) (public : F) : FieldShare :=
  if is_zero_fe public then zero_share
  else if is_one_fe public then shared
  else mkShare (field_mul_0_1_optimized (sa shared) public) (field_mul_0_1_optimized (sb shared) public).

Definition share_sum (l : list FieldShare) : FieldShare := fold_left share_add l zero_share.

(** ** Multiplication *)

Definition masking : MPC F := with_rand masking_field_element.

Definition mul (a b : FieldShare) : MPC FieldShare :=
  m <~ masking ;;
  let local_a := share_mul a b + m in
  local_b <~ network (fun id => reshare id local_a) ;;
  mret (mkShare local_a local_b).

Definition zip_shares (local_a local_b : list F) : list FieldShare := map (fun p => mkShare (fst p) (snd p)) (zip local_a local_b).

Definition reshare_vec (local_a : list F) : MPC (list FieldShare) :=
  local_b <~ network (fun id => reshare_many id local_a) ;;
  if negb (Nat.eqb (length local_b) (length local_a)) then io_err else mret (zip_shares local_a local_b).

Definition mul_vec (lhs rhs : list FieldShare) : MPC (list FieldShare) :=
  mdebug_assert (Nat.eqb (length lhs) (length rhs)) ;~
  local_a <~ mmap (fun p => m <~ masking ;; mret (share_mul (fst p) (snd p) + m)) (zip lhs rhs) ;;
  reshare_vec local_a.

(** The masks are drawn before the products. *)
Definition mul_vec_par (lhs rhs : list FieldShare) : MPC (list FieldShare) :=
  mdebug_assert (Nat.eqb (length lhs) (length rhs)) ;~
  rngs <~ mmap (fun _ => masking) lhs ;;
  let local_a := map (fun p => share_mul (fst (fst p)) (snd (fst p)) + snd p) (zip (zip lhs rhs) rngs) in
  reshare_vec local_a.

Definition mul_open (a b : FieldShare) : MPC F :=
  m <~ masking ;;
  let a := share_mul a b + m in
  bc <~ network (fun id => broadcast id a) ;;
  mret (a + fst bc + snd bc).

Definition mul_open_vec (a b : list FieldShare) : MPC (list F) :=
  a <~ mmap (fun p => m <~ masking ;; mret (share_mul (fst p) (snd p) + m)) (zip a b) ;;
  bc <~ network (fun id => broadcast_many id a) ;;
  mret (map (fun p => fst (fst p) + (snd (fst p) + snd p)) (zip (zip a (fst bc)) (snd bc))).

(** ** Opening *)

Definition open (a : FieldShare) : MPC F :=
  c <~ network (fun id => reshare id (sb a)) ;; mret (sa a + sb a + c).

Definition open_vec (a : list FieldShare) : MPC (list F) :=
  c <~ network (fun id => reshare_many id (map sb a)) ;;
  mret (map (fun p => sa (fst p) + sb (fst p) + snd p) (zip a c)).

(** [open_bit], of a binary share *)
Definition open_bit (a : Share Z) : MPC Z :=
  c <~ network (fun id => reshare id (sb a)) ;; mret (Z.lxor (Z.lxor (sa a) (sb a)) c).

(** ** Inversion and roots *)

Definition rand : MPC FieldShare := p <~ with_rand random_fes ;; mret (mkShare (fst p) (snd p)).

Definition inv (a : FieldShare) : MPC FieldShare :=
  r <~ rand ;;
  y <~ mul_open a r ;;
  if is_zero_fe y then io_err
  else match inverse y with Some y_inv => mret (share_scale r y_inv) | None => crash end.

Definition div (a b : FieldShare) : MPC FieldShare := i <~ inv b ;; mul a i.
Definition div_public_by_shared (public : F) (shared : FieldShare) : MPC FieldShare := i <~ inv shared ;; mret (mul_public i public).

Definition inv_vec (a : list FieldShare) : MPC (list FieldShare) :=
  r <~ mmap (fun _ => rand) a ;;
  y <~ mul_open_vec a r ;;
  if existsb is_zero_fe y then io_err
  else mmap (fun p => match inverse (snd p) with Some i => mret (share_scale (fst p) i) | None => crash end) (zip r y).

(** The values [y_sq] and [y_inv] of [sqrt] are opened from the products and what is received. *)
Definition sqrt_opened (mul : list FieldShare) (c : list F) (r_inv : FieldShare) : MPC FieldShare :=
  match mul, c with
  | [m0; m1], [c0; c1] =>
      let y_sq := field_sqrt (sa m0 + sb m0 + c0) in
      let y_inv := sa m1 + sb m1 + c1 in
      match y_sq with
      | None => io_err
      | Some y_sq =>
          if is_zero_fe y_inv then io_err
          else match inverse y_inv with
               | None => crash
               | Some y_inv => mret (share_scale (share_scale r_inv y_inv) y_sq)
               end
      end
  | _, _ => io_err
  end.

Definition sqrt (share : FieldShare) : MPC FieldShare :=
  r_squ <~ rand ;;
  r_inv <~ rand ;;
  rr <~ mul r_squ r_squ ;;
  mul <~ mul_vec [rr; r_squ] [share; r_inv] ;;
  network (fun id => send_next_many id (map sb mul)) ;~
  c <~ network (fun id => recv_prev_many id) ;;
  sqrt_opened mul c r_inv.

(** ** Multiplexers *)

Definition cmux (cond truthy falsy : FieldShare) : MPC FieldShare :=
  let b_min_a := share_sub truthy falsy in
  d <~ mul cond b_min_a ;; mret (share_add falsy d).

Definition cmux_vec (cond : FieldShare) (truthy falsy : list FieldShare) : MPC (list FieldShare) :=
  mdebug_assert (Nat.eqb (length truthy) (length falsy)) ;~
  result_a <~ mmap (fun p => m <~ masking ;; mret (share_mul (share_sub (fst p) (snd p)) cond + sa (snd p) + m)) (zip truthy falsy) ;;
  reshare_vec result_a.

Definition cmux_many (cond truthy falsy : list FieldShare) : MPC (list FieldShare) :=
  mdebug_assert (Nat.eqb (length truthy) (length falsy)) ;~
  result_a <~ mmap (fun p => let '((t, f), c) := p in
                      m <~ masking ;; mret (share_mul (share_sub t f) c + sa f + m)) (zip (zip truthy falsy) cond) ;;
  reshare_vec result_a.

Definition add_mul (a b c : FieldShare) : MPC FieldShare := m <~ mul c b ;; mret (share_add a m).

(** ** Powers and products *)

(** [while !public.is_zero()] over the bits of the exponent. *)
Fixpoint pow_loop (public : positive) (res shared : FieldShare) : MPC (FieldShare * FieldShare) :=
  match public with
  | xH => res <~ mul res shared ;; shared <~ mul shared shared ;; mret (res, shared)
  | xO e => shared <~ mul shared shared ;; pow_loop e res shared
  | xI e => res <~ mul res shared ;; shared <~ mul shared shared ;; pow_loop e res shared
  end.

Definition pow_public (shared : FieldShare) (public : F) : MPC FieldShare :=
  id <~ get_id ;;
  let res := promote_to_trivial_share id 1 in
  p <~ match into_biguint public with Zpos e => pow_loop e res shared | _ => mret (res, shared) end ;;
  mul (fst p) (snd p).

Fixpoint product_loop (acc : FieldShare) (l : list FieldShare) : MPC FieldShare :=
  match l with [] => mret acc | x :: l => acc <~ mul acc x ;; product_loop acc l end.

Definition product (shares : list FieldShare) : MPC FieldShare :=
  match shares with [] => crash | s :: rest => product_loop s rest end.

Definition product_into_additive (shares : list FieldShare) (public_extra : option F) : MPC AdditiveShare :=
  let e := match public_extra with Some e => e | None => 1 end in
  match shares with
  | [] => crash
  | [s] => mret (into_additive (share_scale s e))
  | [s; t] => mret (share_mul s (share_scale t e))
  | s :: rest =>
      match last rest with
      | None => crash
      | Some l => p <~ product_loop (share_scale s e) (take (length shares - 2) rest) ;; mret (share_mul p l)
      end
  end.

Fixpoint product_many_loop (acc : list FieldShare) (l : list (list FieldShare)) : MPC (list FieldShare) :=
  match l with [] => mret acc | x :: l => acc <~ mul_vec acc x ;; product_many_loop acc l end.

Definition product_many (shares : list (list FieldShare)) : MPC (list FieldShare) :=
  match shares with [] => crash | s :: rest => product_many_loop s rest end.

Definition last_share (x : list FieldShare) : FieldShare := List.last x zero_share.

(** [shares] is not empty, nor are its elements (an index panics). *)
Definition product_many_into_additive (shares : list (list FieldShare)) (public_extra : option F) : MPC (list AdditiveShare) :=
  let e := match public_extra with Some e => e | None => 1 end in
  match shares with
  | [] => crash
  | s :: rest =>
      let n := length s in
      if existsb (fun x => Nat.ltb (length x) (if Nat.eqb n 2 then 2 else 1)) shares then crash
      else if Nat.eqb n 1 then mret (map (fun x => into_additive (share_scale (List.nth 0 x zero_share) e)) shares)
      else if Nat.eqb n 2 then mret (map (fun x => share_mul (List.nth 0 x zero_share) (share_scale (List.nth 1 x zero_share) e)) shares)
      else
        products <~ product_many_loop (map (fun x => share_scale (List.nth 0 x zero_share) e) shares) (take (n - 2) rest) ;;
        mret (map (fun p => share_mul (fst p) (last_share (snd p))) (zip products shares))
  end.

Definition reshare_additive (additive : AdditiveShare) : MPC FieldShare :=
  prev_share <~ network (fun id => reshare id additive) ;; mret (mkShare additive prev_share).
Definition reshare_additive_many (additive_shares : list AdditiveShare) : MPC (list FieldShare) :=
  b_shares <~ network (fun id => reshare_many id additive_shares) ;; mret (zip_shares additive_shares b_shares).

(** Only for [x] and [y] that are 0 or 1. *)
Definition xor_local (x y : FieldShare) (m : F) : F :=
  let d := share_mul x y + m in
  let d := d + d in
  let e := sa x + sa y in e - d.

Definition arithmetic_xor (x y : FieldShare) : MPC FieldShare :=
  m <~ masking ;;
  let res_a := xor_local x y m in
  res_b <~ network (fun id => reshare id res_a) ;;
  mret (mkShare res_a res_b).

Definition arithmetic_xor_many (x y : list FieldShare) : MPC (list FieldShare) :=
  mdebug_assert (Nat.eqb (length x) (length y)) ;~
  a <~ mmap (fun p => m <~ masking ;; mret (xor_local (fst p) (snd p) m)) (zip x y) ;;
  b <~ network (fun id => reshare_many id a) ;;
  mret (zip_shares a b).

End Arithmetic.
