(* ===== verification/Rep3Correct.v ===== *)
(** * Correctness of the arithmetic protocols

    Every protocol of [Rep3Arith] takes shares of its arguments to shares of its
    result, whatever the randomness. *)

From Stdlib Require Import ZArith Lia List Bool Ring.
From stdpp Require Import base list.
From S2P Require Import Prelude Words Field MpcNet Rep3Ctx Rep3Rules Rep3Share Rep3Arith.
Import ListNotations.
Local Open Scope Z_scope.
Local Open Scope mpc_scope.

Section Correct.
Context {F : Type} `{JF : JoltField F} `{PF : !PrimeField F} `{RO : !RngOps F} `{B : Build}.
Local Open Scope jolt_scope.

Add Ring F_ring_rep3 : F_ring.

(** Shares of a field element, of a vector. *)
Definition shared : Tri FieldShare -> F -> Prop := sharing fadd.
Definition shared_vec : Tri (list FieldShare) -> list F -> Prop := tri_forall shared.
Definition summands : Tri F -> F -> Prop := additive fadd.

(** Three local computations and the identities of the parties. *)
Definition with_ids {A R} (f : A -> PartyID -> R) (s : Tri A) : Tri R := mkTri (f (t0 s) ID0) (f (t1 s) ID1) (f (t2 s) ID2).

Ltac open_shares :=
  repeat match goal with H : shared _ _ |- _ => destruct H as (? & ? & ? & -> & <-) end.
Ltac close_shares := cbn; eexists _, _, _; split; [reflexivity|cbn; ring].

(** ** Local operations *)

Lemma shared_add a b x y : shared a x -> shared b y -> shared (tmap2 share_add a b) (x + y).
Proof. intros. open_shares. close_shares. Qed.
Lemma shared_sub a b x y : shared a x -> shared b y -> shared (tmap2 share_sub a b) (x - y).
Proof. intros. open_shares. close_shares. Qed.
Lemma shared_neg a x : shared a x -> shared (tmap share_neg a) (- x).
Proof. intros. open_shares. close_shares. Qed.
Lemma shared_scale a x c : shared a x -> shared (tmap (fun s => share_scale s c) a) (x * c).
Proof. intros. open_shares. close_shares. Qed.
Lemma shared_public x : shared (with_ids (fun _ id => promote_to_trivial_share id x) (tpure tt)) x.
Proof. close_shares. Qed.
Lemma shared_add_public a x p : shared a x -> shared (with_ids (fun s => add_public s p) a) (x + p).
Proof. intros. open_shares. close_shares. Qed.
Lemma shared_sub_public a x p : shared a x -> shared (with_ids (fun s => sub_public_by_shared p s) a) (p - x).
Proof. intros. open_shares. close_shares. Qed.

Lemma share_mul_local a b x y : shared a x -> shared b y -> summands (tmap2 share_mul a b) (x * y).
Proof. intros. open_shares. unfold summands, additive, share_mul. cbn. ring. Qed.

Lemma shared_summands a x : shared a x -> summands (tmap sa a) x.
Proof. apply sharing_local. Qed.

Lemma into_additive_summands a x : shared a x -> summands (tmap into_additive a) x.
Proof.
  intros. open_shares. unfold summands, additive, into_additive. cbn.
  transitivity ((x0 + x1 + x2) * ((1 + 1) * TWO_INV)); [ring|]. rewrite TWO_INV_spec. ring.
Qed.

(** ** Masks and resharing *)

Lemma masking_spec : protocol (tpure masking) (fun r => summands r 0).
Proof.
  eapply protocol_weaken; [apply protocol_mask|]. intros r (a & b & d & ->). unfold summands, additive. cbn. ring.
Qed.

Lemma summands_masked s m x : summands s x -> summands m 0 -> summands (tmap2 fadd s m) x.
Proof.
  unfold summands, additive. cbn. intros <- Hm.
  transitivity (t0 s + t1 s + t2 s + (t0 m + t1 m + t2 m)); [ring|]. rewrite Hm. ring.
Qed.

Definition reshared (l : F) : MPC FieldShare := b <~ network (fun id => reshare id l) ;; mret (mkShare l b).

Lemma reshared_spec l0 l1 l2 x : summands (mkTri l0 l1 l2) x ->
  protocol (mkTri (reshared l0) (reshared l1) (reshared l2)) (fun r => shared r x).
Proof.
  intros Hx. unfold reshared. eapply protocol_bind; [apply protocol_reshare|]. intros a0 a1 a2 [= -> -> ->].
  apply protocol_ret'. by exists l0, l1, l2.
Qed.

(** A masked local result that is reshared. *)
Lemma masked_reshare (f0 f1 f2 : F -> F) x : (forall m0 m1 m2, summands (mkTri m0 m1 m2) 0 -> summands (mkTri (f0 m0) (f1 m1) (f2 m2)) x) ->
  protocol (mkTri (m <~ masking ;; reshared (f0 m)) (m <~ masking ;; reshared (f1 m)) (m <~ masking ;; reshared (f2 m)))
    (fun r => shared r x).
Proof.
  intros Hf. eapply protocol_bind; [apply masking_spec|]. intros m0 m1 m2 Hm. by apply reshared_spec, Hf.
Qed.

(** ** Multiplication *)

Lemma mul_spec a b x y : shared a x -> shared b y -> protocol (tmap2 mul a b) (fun r => shared r (x * y)).
Proof.
  intros Ha Hb. apply (masked_reshare (fun m => share_mul (t0 a) (t0 b) + m) (fun m => share_mul (t1 a) (t1 b) + m)
    (fun m => share_mul (t2 a) (t2 b) + m)). intros m0 m1 m2 Hm.
  exact (summands_masked _ (mkTri m0 m1 m2) _ (share_mul_local a b x y Ha Hb) Hm).
Qed.

(** ** Vectors *)

Lemma zip_shares_shared l0 l1 l2 xs : tri_forall summands (mkTri l0 l1 l2) xs ->
  shared_vec (mkTri (zip_shares l0 l2) (zip_shares l1 l0) (zip_shares l2 l1)) xs.
Proof.
  intros H. remember (mkTri l0 l1 l2) as l eqn:El. revert l0 l1 l2 El.
  induction H as [|a0 a1 a2 v l0' l1' l2' vs Hp H IH]; intros ? ? ? [= <- <- <-]; [constructor|].
  unfold zip_shares in *. cbn. constructor; [by exists a0, a1, a2|by apply IH].
Qed.

Lemma reshare_vec_spec l0 l1 l2 xs : tri_forall summands (mkTri l0 l1 l2) xs ->
  protocol (mkTri (reshare_vec l0) (reshare_vec l1) (reshare_vec l2)) (fun r => shared_vec r xs).
Proof.
  intros H. destruct (tri_forall_length _ _ _ H) as (E0 & E1 & E2). cbn in E0, E1, E2.
  unfold reshare_vec. eapply protocol_bind; [apply protocol_reshare_many|]. intros a0 a1 a2 [= -> -> ->].
  rewrite E0, E1, E2, Nat.eqb_refl. apply protocol_ret'. by apply zip_shares_shared.
Qed.

(** A loop of masked local results. *)
Lemma masked_loop {A V} (P : Tri A -> V -> Prop) (f : A -> F) (g : V -> F) l vs :
  (forall a v, P a v -> summands (tmap f a) (g v)) -> tri_forall P l vs ->
  protocol (tmap (mmap (fun a => m <~ masking ;; mret (f a + m))) l) (fun r => tri_forall summands r (map g vs)).
Proof.
  intros Hf Hl. apply (protocol_mmap P summands g); [|done]. intros a v Ha.
  eapply protocol_bind; [apply masking_spec|]. intros m0 m1 m2 Hm. apply protocol_ret'.
  exact (summands_masked (tmap f a) (mkTri m0 m1 m2) _ (Hf a v Ha) Hm).
Qed.

(** Pairs of shared vectors. *)
Lemma shared_zip a b xs ys : shared_vec a xs -> shared_vec b ys -> length xs = length ys ->
  tri_forall (fun ab v => shared (tmap fst ab) (fst v) /\ shared (tmap snd ab) (snd v)) (tmap2 zip a b) (zip xs ys).
Proof. destruct a, b. apply tri_forall_zip. Qed.

Lemma protocol_assert {A} b0 b1 b2 (m0 m1 m2 : MPC A) Q : b0 = true -> b1 = true -> b2 = true ->
  protocol (mkTri m0 m1 m2) Q ->
  protocol (mkTri (mdebug_assert b0 ;~ m0) (mdebug_assert b1 ;~ m1) (mdebug_assert b2 ;~ m2)) Q.
Proof.
  intros -> -> -> Hm. rewrite !mdebug_assert_true by done. eapply protocol_bind; [|intros ? ? ? _; exact Hm].
  by apply (protocol_ret' tt tt tt (fun _ => True)).
Qed.

(** The [debug_assert_eq!] on the lengths of two vectors holds. *)
Lemma protocol_lengths {A V} {P : Tri A -> V -> Prop} {A' V'} {P' : Tri A' -> V' -> Prop} {T} a b xs ys (m0 m1 m2 : MPC T) Q :
  tri_forall P a xs -> tri_forall P' b ys -> length xs = length ys -> protocol (mkTri m0 m1 m2) Q ->
  protocol (mkTri (mdebug_assert (Nat.eqb (length (t0 a)) (length (t0 b))) ;~ m0)
                  (mdebug_assert (Nat.eqb (length (t1 a)) (length (t1 b))) ;~ m1)
                  (mdebug_assert (Nat.eqb (length (t2 a)) (length (t2 b))) ;~ m2)) Q.
Proof.
  intros Ha Hb E. destruct (tri_forall_length _ _ _ Ha) as (-> & -> & ->), (tri_forall_length _ _ _ Hb) as (-> & -> & ->).
  rewrite E. apply protocol_assert; apply Nat.eqb_refl.
Qed.

(** Elementwise local results, masked and reshared. *)
Lemma masked_reshare_vec {A V} (P : Tri A -> V -> Prop) (f : A -> F) (g : V -> F) l vs :
  (forall a v, P a v -> summands (tmap f a) (g v)) -> tri_forall P l vs ->
  protocol (tmap (fun l => r <~ mmap (fun a => m <~ masking ;; mret (f a + m)) l ;; reshare_vec r) l)
    (fun r => shared_vec r (map g vs)).
Proof.
  intros Hf Hl. eapply protocol_bind; [exact (masked_loop P f g l vs Hf Hl)|]. intros. by apply reshare_vec_spec.
Qed.

Lemma mul_vec_spec a b xs ys : shared_vec a xs -> shared_vec b ys -> length xs = length ys ->
  protocol (tmap2 mul_vec a b) (fun r => shared_vec r (map (fun p => fst p * snd p) (zip xs ys))).
Proof.
  intros Ha Hb E. apply (protocol_lengths a b xs ys _ _ _ _ Ha Hb E).
  apply (masked_reshare_vec _ (fun p => share_mul (fst p) (snd p)) (fun p => fst p * snd p) (tmap2 zip a b) _) with
    (2 := shared_zip a b xs ys Ha Hb E).
  intros p v [H1 H2]. exact (share_mul_local _ _ _ _ H1 H2).
Qed.

Lemma zip_masks {A V} (P : Tri A -> V -> Prop) (f : A -> F) (g : V -> F) l vs m ms :
  (forall a v, P a v -> summands (tmap f a) (g v)) -> tri_forall P l vs -> tri_forall summands m ms ->
  Forall (eq 0) ms -> length ms = length vs ->
  tri_forall summands (tmap2 (fun l m => map (fun p => f (fst p) + snd p) (zip l m)) l m) (map g vs).
Proof.
  intros Hf Hl. revert m ms. induction Hl as [|a0 a1 a2 v l0 l1 l2 vs Hp Hl IH]; intros m ms Hm Hz E.
  - destruct ms; [|done]. inversion Hm; subst. constructor.
  - destruct Hm as [|b0 b1 b2 w m0 m1 m2 ms Hw Hm]; [done|]. inversion Hz as [|? ? E0 Hz']; subst. cbn. constructor.
    + exact (summands_masked _ (mkTri b0 b1 b2) _ (Hf _ _ Hp) Hw).
    + apply (IH (mkTri m0 m1 m2) ms); auto.
Qed.

Lemma masking_loop {A V} (P : Tri A -> V -> Prop) l vs : tri_forall P l vs ->
  protocol (tmap (mmap (fun _ => masking)) l) (fun r => tri_forall summands r (map (fun _ => 0) vs)).
Proof. intros Hl. apply (protocol_mmap P summands (fun _ => 0)); [|done]. intros a v _. exact masking_spec. Qed.

(** Drawing all the masks first makes no difference to what is shared. *)
Lemma mul_vec_par_spec a b xs ys : shared_vec a xs -> shared_vec b ys -> length xs = length ys ->
  protocol (tmap2 mul_vec_par a b) (fun r => shared_vec r (map (fun p => fst p * snd p) (zip xs ys))).
Proof.
  intros Ha Hb E. apply (protocol_lengths a b xs ys _ _ _ _ Ha Hb E).
  eapply protocol_bind; [exact (masking_loop shared a xs Ha)|]. intros m0 m1 m2 Hm. apply reshare_vec_spec.
  apply (zip_masks _ (fun p => share_mul (fst p) (snd p)) (fun p => fst p * snd p) (tmap2 zip a b) (zip xs ys) (mkTri m0 m1 m2))
    with (2 := shared_zip a b xs ys Ha Hb E) (3 := Hm).
  - intros p v [H1 H2]. exact (share_mul_local _ _ _ _ H1 H2).
  - apply Forall_forall. by intros ? (? & <- & _)%list_elem_of_fmap.
  - rewrite length_map, length_zip. lia.
Qed.

(** ** Opening *)

(** The three parties have [x]. *)
Definition revealed {A} (r : Tri A) (x : A) : Prop := r = tpure x.

Lemma open_spec a x : shared a x -> protocol (tmap open a) (fun r => revealed r x).
Proof.
  intros. open_shares. eapply protocol_bind; [apply protocol_reshare|]. intros c0 c1 c2 [= -> -> ->]. cbn [t0 t1 t2].
  apply protocol_ret'. unfold revealed, tpure. cbn. f_equal; ring.
Qed.

(** Columns of three vectors, combined. *)
Lemma tri_forall_eq {A} (P : Tri A -> A -> Prop) (f0 f1 f2 : A -> A -> A -> A) l xs :
  (forall a v, P a v -> f0 (t0 a) (t2 a) (t1 a) = v /\ f1 (t1 a) (t0 a) (t2 a) = v /\ f2 (t2 a) (t1 a) (t0 a) = v) ->
  tri_forall P l xs ->
  let column f l1 l2 l3 := map (fun p => f (fst (fst p)) (snd (fst p)) (snd p)) (zip (zip l1 l2) l3) in
  revealed (mkTri (column f0 (t0 l) (t2 l) (t1 l)) (column f1 (t1 l) (t0 l) (t2 l)) (column f2 (t2 l) (t1 l) (t0 l))) xs.
Proof.
  intros Hf. unfold revealed, tpure. cbn. induction 1 as [|a0 a1 a2 v l0 l1 l2 vs Hp Hl IH]; [done|]. cbn in *.
  destruct (Hf _ _ Hp) as (H0 & H1 & H2). cbn in H0, H1, H2. injection IH as E0 E1 E2. by rewrite H0, H1, H2, E0, E1, E2.
Qed.

Lemma open_vec_spec a xs : shared_vec a xs -> protocol (tmap open_vec a) (fun r => revealed r xs).
Proof.
  intros Ha. eapply protocol_bind; [apply protocol_reshare_many|]. intros c0 c1 c2 [= -> -> ->]. apply protocol_ret'.
  unfold revealed, tpure. induction Ha as [|a0 a1 a2 v l0 l1 l2 vs Hp Hl IH]; [done|]. cbn in *.
  destruct Hp as (u0 & u1 & u2 & [= -> -> ->] & <-). injection IH as E0 E1 E2. rewrite E0, E1, E2. cbn. f_equal; f_equal; ring.
Qed.

Lemma mul_open_spec a b x y : shared a x -> shared b y -> protocol (tmap2 mul_open a b) (fun r => revealed r (x * y)).
Proof.
  intros Ha Hb. eapply protocol_bind; [apply masking_spec|]. intros m0 m1 m2 Hm.
  eapply protocol_bind; [apply protocol_broadcast|]. intros p0 p1 p2 [= -> -> ->]. apply protocol_ret'.
  pose proof (summands_masked _ _ _ (share_mul_local a b x y Ha Hb) Hm) as E. unfold summands, additive in E. cbn in *.
  unfold revealed, tpure. rewrite <- E. f_equal; ring.
Qed.

Lemma mul_open_vec_spec a b xs ys : shared_vec a xs -> shared_vec b ys -> length xs = length ys ->
  protocol (tmap2 mul_open_vec a b) (fun r => revealed r (map (fun p => fst p * snd p) (zip xs ys))).
Proof.
  intros Ha Hb E. eapply protocol_bind.
  - apply (masked_loop _ (fun p => share_mul (fst p) (snd p)) (fun p => fst p * snd p) (tmap2 zip a b))
      with (2 := shared_zip a b xs ys Ha Hb E). intros p v [H1 H2]. exact (share_mul_local _ _ _ _ H1 H2).
  - intros l0 l1 l2 Hl. eapply protocol_bind; [apply protocol_broadcast_many|]. intros p0 p1 p2 [= -> -> ->].
    apply protocol_ret'. cbn [fst snd].
    apply (tri_forall_eq summands (fun u v w => u + (v + w)) (fun u v w => u + (v + w)) (fun u v w => u + (v + w))) with (2 := Hl).
    intros u v <-. unfold summands, additive. split; [|split]; ring.
Qed.

(** ** Inversion and roots *)

Lemma into_biguint_range (x : F) : (0 <= into_biguint x < MODULUS)%Z.
Proof.
  rewrite <- (of_Z_into_biguint x), into_biguint_of_Z. apply Z.mod_pos_bound. pose proof MODULUS_range. lia.
Qed.

Definition nonzero (x : F) : Prop := into_biguint x <> 0%Z.

Lemma is_zero_fe_true x : is_zero_fe x = true <-> ~ nonzero x.
Proof. unfold is_zero_fe, nonzero. rewrite Z.eqb_eq. split; [tauto|]. intros H. destruct (Z.eq_dec (into_biguint x) 0); tauto. Qed.
Lemma is_zero_fe_false x : nonzero x -> is_zero_fe x = false.
Proof. intros H. by apply Z.eqb_neq. Qed.

(** What [rand] shares from the contexts [c]. *)
Definition random_element (c : Tri IoContext) : F := drawn gen_fe (t0 c) + drawn gen_fe (t1 c) + drawn gen_fe (t2 c).

Lemma rand_at c : synced c -> protocol_at c (tpure rand) (fun r => shared r (random_element c)).
Proof.
  intros Hc. unfold rand. eapply protocol_at_bind; [exact (protocol_at_draw gen_fe c Hc)|].
  intros p0 p1 p2 [= -> -> ->]. apply protocol_ret'. by eexists _, _, _.
Qed.
Lemma rand_spec : protocol (tpure rand) (fun r => exists x, shared r x).
Proof. intros c Hc. destruct (rand_at c Hc) as (r & c' & ? & ? & ?). eexists _, c'. split; [done|]. eauto. Qed.

Lemma inv_at a x c : synced c -> shared a x -> nonzero (x * random_element c) ->
  protocol_at c (tmap inv a) (fun r => exists y, x * y = 1 /\ shared r y).
Proof.
  intros Hc Ha Hnz. eapply protocol_at_bind; [exact (rand_at c Hc)|]. intros r0 r1 r2 Hr.
  eapply protocol_bind; [exact (mul_open_spec a _ _ _ Ha Hr)|]. intros y0 y1 y2 [= -> -> ->].
  rewrite is_zero_fe_false by done. destruct (inverse_spec _ Hnz) as (i & -> & Hi). apply protocol_ret'.
  exists (random_element c * i). split; [rewrite <- Hi; ring|]. exact (shared_scale _ _ i Hr).
Qed.

Lemma inv_fails_at a x c : synced c -> shared a x -> ~ nonzero (x * random_element c) -> fails_at c (tmap inv a).
Proof.
  intros Hc Ha Hz%is_zero_fe_true. eapply fails_at_bind; [exact (rand_at c Hc)|]. intros r0 r1 r2 Hr c1 Hc1.
  eapply fails_at_bind; [exact (mul_open_spec a _ _ _ Ha Hr c1 Hc1)|]. intros y0 y1 y2 [= -> -> ->].
  rewrite Hz. exact fails_err.
Qed.

Lemma div_at a b x y c : synced c -> shared a x -> shared b y -> nonzero (y * random_element c) ->
  protocol_at c (tmap2 div a b) (fun r => exists i, y * i = 1 /\ shared r (x * i)).
Proof.
  intros Hc Ha Hb Hnz. eapply protocol_at_bind; [exact (inv_at b y c Hc Hb Hnz)|]. intros i0 i1 i2 (i & Hi & Hs).
  eapply protocol_weaken; [exact (mul_spec a _ _ _ Ha Hs)|]. eauto.
Qed.

(** [sqrt] on the masks [r] and [s]: the square root of [r * r * x], unmasked by
    the opened product [r * s]. *)
Lemma sqrt_unmask (r s x w i : F) : w * w = r * r * x -> r * s * i = 1 -> (s * i * w) * (s * i * w) = x.
Proof.
  intros Hw Hi. transitivity ((s * i) * (s * i) * (w * w)); [ring|]. rewrite Hw.
  transitivity ((r * s * i) * (r * s * i) * x); [ring|]. rewrite Hi. ring.
Qed.

(** Scaling by public inverses. *)
Definition inverse_or_zero (y : F) : F := match inverse y with Some i => i | None => 0 end.

Lemma inverse_or_zero_spec y : nonzero y -> y * inverse_or_zero y = 1.
Proof. intros H. unfold inverse_or_zero. by destruct (inverse_spec y H) as (i & -> & ->). Qed.

Lemma unmask_loop r rs ys : shared_vec r rs -> length rs = length ys -> Forall nonzero ys ->
  protocol (tmap (fun r => mmap (fun p => match inverse (snd p) with Some i => mret (share_scale (fst p) i) | None => crash end) (zip r ys)) r)
    (fun o => shared_vec o (map (fun p => fst p * inverse_or_zero (snd p)) (zip rs ys))).
Proof.
  intros Hr. revert ys. induction Hr as [|r0 r1 r2 v l0 l1 l2 vs Hp Hl IH]; intros [|y ys] E Hn; try done.
  - apply protocol_ret'. constructor.
  - apply Forall_cons in Hn as [Hy Hn]. injection E as E. unfold tmap. cbn [t0 t1 t2 zip_with mmap map fst snd].
    unfold inverse_or_zero at 1. destruct (inverse_spec y Hy) as (i & -> & _).
    eapply protocol_bind; [apply (protocol_ret' _ _ _ (fun s => shared s (v * i))), (shared_scale _ _ i Hp)|].
    intros s0 s1 s2 Hs. eapply protocol_bind; [apply IH; auto|]. intros o0 o1 o2 Ho. apply protocol_ret'. by constructor.
Qed.

Lemma rand_loop_at a xs c : synced c -> shared_vec a xs -> exists rs, length rs = length xs /\
  protocol_at c (tmap (mmap (fun _ => rand)) a) (fun r => shared_vec r rs).
Proof.
  intros Hc Ha. revert c Hc. induction Ha as [|a0 a1 a2 v l0 l1 l2 vs Hp Hl IH]; intros c Hc.
  - exists []. split; [done|]. eapply protocol_ret'; [constructor|done].
  - destruct (rand_at c Hc) as ([r0 r1 r2] & c1 & Hr & Hc1 & Hs). destruct (IH c1 Hc1) as (rs & El & [o0 o1 o2] & c2 & Ho & Hc2 & Hos).
    exists (random_element c :: rs). split; [cbn; by rewrite El|].
    exists (mkTri (r0 :: o0) (r1 :: o1) (r2 :: o2)), c2. split; [|split; [done|by constructor]].
    cbn [tmap t0 t1 t2 mmap]. eapply exec_bind; [exact Hr|]. eapply exec_bind; [exact Ho|]. by exists [].
Qed.

(** All the elements are inverted, or all the parties report an error. *)
Lemma inv_vec_at a xs c : synced c -> shared_vec a xs -> exists rs, length rs = length xs /\
  (Forall nonzero (map (fun p => fst p * snd p) (zip xs rs)) ->
     protocol_at c (tmap inv_vec a) (fun r => exists ys, Forall2 (fun x y => x * y = 1) xs ys /\ shared_vec r ys)) /\
  (~ Forall nonzero (map (fun p => fst p * snd p) (zip xs rs)) -> fails_at c (tmap inv_vec a)).
Proof.
  intros Hc Ha. destruct (rand_loop_at a xs c Hc Ha) as (rs & El & Hr). exists rs. split; [done|].
  set (ys := map (fun p => fst p * snd p) (zip xs rs)).
  assert (Ey : existsb is_zero_fe ys = false <-> Forall nonzero ys).
  { clear. induction ys as [|y ys IH]; cbn; [by split|]. rewrite orb_false_iff, Forall_cons, IH. unfold is_zero_fe, nonzero.
    by rewrite Z.eqb_neq. }
  split; intros Hn.
  - eapply protocol_at_bind; [exact Hr|]. intros r0 r1 r2 Hs. eapply protocol_bind; [exact (mul_open_vec_spec a _ _ _ Ha Hs (eq_sym El))|].
    intros y0 y1 y2 [= -> -> ->]. fold ys. rewrite (proj2 Ey Hn).
    eapply protocol_weaken; [apply (unmask_loop _ _ ys Hs); [|done]|].
    { unfold ys. rewrite length_map, length_zip. lia. }
    intros o Ho. eexists. split; [|exact Ho]. revert Hn. unfold ys. clear -El. revert rs El.
    induction xs as [|x xs IH]; intros [|r rs] [=]; [constructor|]. cbn. intros [Hx Hn]%Forall_cons.
    constructor; [|by apply IH]. cbn [fst snd] in *.
    transitivity (x * r * inverse_or_zero (x * r)); [ring|by apply inverse_or_zero_spec].
  - eapply fails_at_bind; [exact Hr|]. intros r0 r1 r2 Hs c1 Hc1.
    eapply fails_at_bind; [exact (mul_open_vec_spec a _ _ _ Ha Hs (eq_sym El) c1 Hc1)|].
    intros y0 y1 y2 [= -> -> ->]. fold ys. destruct (existsb is_zero_fe ys) eqn:E; [exact fails_err|]. by destruct Hn, Ey; auto.
Qed.

(** The root of what is opened, or an error. *)
Definition sqrt_of (r s x : F) : option F :=
  match field_sqrt (r * r * x) with
  | Some w => if is_zero_fe (r * s) then None else Some (s * inverse_or_zero (r * s) * w)
  | None => None
  end.

Lemma sqrt_of_spec r s x y : sqrt_of r s x = Some y -> y * y = x.
Proof.
  unfold sqrt_of. destruct (field_sqrt _) as [w|] eqn:Ew; [|done]. destruct (is_zero_fe _) eqn:Ez; [done|]. intros [= <-].
  apply (sqrt_unmask r s x w); [by apply field_sqrt_spec|]. apply inverse_or_zero_spec. by apply Z.eqb_neq.
Qed.

(** The parties return shares of a value, or all report an error. *)
Definition outcome_at (c : Tri IoContext) (ms : Tri (MPC FieldShare)) (o : option F) : Prop :=
  match o with Some y => protocol_at c ms (fun r => shared r y) | None => fails_at c ms end.

Lemma outcome_bind {A} c (m0 m1 m2 : MPC A) k0 k1 k2 Q o : protocol_at c (mkTri m0 m1 m2) Q ->
  (forall a0 a1 a2, Q (mkTri a0 a1 a2) -> forall c, synced c -> outcome_at c (mkTri (k0 a0) (k1 a1) (k2 a2)) o) ->
  outcome_at c (mkTri (mbind m0 k0) (mbind m1 k1) (mbind m2 k2)) o.
Proof.
  intros Hm Hk. destruct o as [y|].
  - exact (protocol_at_bind c _ _ _ _ _ _ Q (fun r => shared r y) Hm Hk).
  - exact (fails_at_bind c _ _ _ _ _ _ Q Hm Hk).
Qed.

Lemma outcome_run {A} c c1 (m0 m1 m2 : MPC A) k0 k1 k2 a0 a1 a2 o :
  runs (exec (mkTri m0 m1 m2) c) (tmap2 pair (mkTri a0 a1 a2) c1) -> outcome_at c1 (mkTri (k0 a0) (k1 a1) (k2 a2)) o ->
  outcome_at c (mkTri (mbind m0 k0) (mbind m1 k1) (mbind m2 k2)) o.
Proof.
  intros Hm. destruct o as [y|]; cbn.
  - intros (r & c' & Hr & H). exists r, c'. split; [exact (exec_bind _ _ _ _ _ _ _ _ _ _ _ _ Hm Hr)|done].
  - exact (exec_bind _ _ _ _ _ _ _ _ _ _ _ _ Hm).
Qed.

Lemma mul_pair_spec a b a' b' x y x' y' : shared a x -> shared b y -> shared a' x' -> shared b' y' ->
  protocol (mkTri (mul_vec [t0 a; t0 b] [t0 a'; t0 b']) (mul_vec [t1 a; t1 b] [t1 a'; t1 b']) (mul_vec [t2 a; t2 b] [t2 a'; t2 b']))
    (fun m => shared_vec m [x * x'; y * y']).
Proof.
  intros. destruct a as [a0 a1 a2], b as [b0 b1 b2], a' as [c0 c1 c2], b' as [d0 d1 d2]. cbn [t0 t1 t2].
  apply (mul_vec_spec (mkTri [a0; b0] [a1; b1] [a2; b2]) (mkTri [c0; d0] [c1; d1] [c2; d2]) [x; y] [x'; y']);
    [by repeat constructor..|done].
Qed.

(** The end of [sqrt]: the shares of the two products are sent on and opened. *)
Lemma sqrt_finish m0 m1 m2 r s x ss c : synced c -> shared_vec (mkTri m0 m1 m2) [r * r * x; r * s] -> shared ss s ->
  let finish (mul : list FieldShare) (r_inv : FieldShare) : MPC FieldShare :=
    network (fun id => send_next_many id (map sb mul)) ;~
    c <~ network (fun id => recv_prev_many id) ;;
    sqrt_opened mul c r_inv in
  outcome_at c (mkTri (finish m0 (t0 ss)) (finish m1 (t1 ss)) (finish m2 (t2 ss))) (sqrt_of r s x).
Proof.
  intros Hc Hm Hs finish. inversion Hm as [|? ? ? ? ? ? ? ? (u0 & u1 & u2 & [= -> -> ->] & Eu) Hm']; subst.
  inversion Hm' as [|? ? ? ? ? ? ? ? (v0 & v1 & v2 & [= -> -> ->] & Ev) Hm'']; subst. inversion Hm''; subst.
  assert (Eu0 : u0 + u2 + u1 = r * r * x) by (rewrite <- Eu; ring). assert (Eu1 : u1 + u0 + u2 = r * r * x) by (rewrite <- Eu; ring).
  assert (Eu2 : u2 + u1 + u0 = r * r * x) by (rewrite <- Eu; ring). assert (Ev0 : v0 + v2 + v1 = r * s) by (rewrite <- Ev; ring).
  assert (Ev1 : v1 + v0 + v2 = r * s) by (rewrite <- Ev; ring). assert (Ev2 : v2 + v1 + v0 = r * s) by (rewrite <- Ev; ring).
  pose proof (inverse_spec (r * s)) as Hi. unfold finish, outcome_at, sqrt_of, inverse_or_zero.
  destruct (field_sqrt (r * r * x)) as [w|] eqn:Ew.
  - destruct (is_zero_fe (r * s)) eqn:Ez.
    + apply fails_exchange_many; [|done]. cbn. rewrite Eu0, Eu1, Eu2, Ev0, Ev1, Ev2, Ew, Ez. exact fails_err.
    + destruct (Hi (proj1 (Z.eqb_neq _ _) Ez)) as (i & Ei & _). rewrite Ei. apply protocol_exchange_many; [|done]. cbn.
      rewrite Eu0, Eu1, Eu2, Ev0, Ev1, Ev2, Ew, Ez, Ei. apply protocol_ret'. exact (shared_scale _ _ w (shared_scale _ _ i Hs)).
  - apply fails_exchange_many; [|done]. cbn. rewrite Eu0, Eu1, Eu2, Ew. exact fails_err.
Qed.

Lemma sqrt_at a x c : synced c -> shared a x -> exists r s, outcome_at c (tmap sqrt a) (sqrt_of r s x).
Proof.
  intros Hc Ha. destruct (rand_at c Hc) as ([r0 r1 r2] & c1 & Hr & Hc1 & Hr').
  exists (random_element c), (random_element c1). apply (outcome_run _ _ _ _ _ _ _ _ _ _ _ _ Hr).
  eapply outcome_bind; [exact (rand_at c1 Hc1)|]. intros s0 s1 s2 Hs c2 Hc2.
  eapply outcome_bind; [exact (mul_spec _ _ _ _ Hr' Hr' c2 Hc2)|]. intros q0 q1 q2 Hq c3 Hc3.
  eapply outcome_bind; [exact (mul_pair_spec _ _ _ _ _ _ _ _ Hq Hr' Ha Hs c3 Hc3)|]. intros m0 m1 m2 Hm c4 Hc4.
  exact (sqrt_finish m0 m1 m2 _ _ x _ c4 Hc4 Hm Hs).
Qed.

(** ** Multiplexers *)

Lemma cmux_spec cond a b c x y : shared cond c -> shared a x -> shared b y ->
  protocol (mkTri (cmux (t0 cond) (t0 a) (t0 b)) (cmux (t1 cond) (t1 a) (t1 b)) (cmux (t2 cond) (t2 a) (t2 b)))
    (fun r => shared r (y + c * (x - y))).
Proof.
  intros Hc Ha Hb. eapply protocol_bind; [exact (mul_spec _ _ _ _ Hc (shared_sub _ _ _ _ Ha Hb))|]. intros d0 d1 d2 Hd.
  apply protocol_ret'. exact (shared_add _ _ _ _ Hb Hd).
Qed.

Lemma cmux_local cond a b c x y : shared cond c -> shared a x -> shared b y ->
  summands (mkTri (share_mul (share_sub (t0 a) (t0 b)) (t0 cond) + sa (t0 b))
                  (share_mul (share_sub (t1 a) (t1 b)) (t1 cond) + sa (t1 b))
                  (share_mul (share_sub (t2 a) (t2 b)) (t2 cond) + sa (t2 b))) (y + c * (x - y)).
Proof. intros. open_shares. unfold summands, additive, share_mul. cbn. ring. Qed.

Lemma cmux_many_spec cond a b cs xs ys : shared_vec cond cs -> shared_vec a xs -> shared_vec b ys ->
  length cs = length xs -> length xs = length ys ->
  protocol (mkTri (cmux_many (t0 cond) (t0 a) (t0 b)) (cmux_many (t1 cond) (t1 a) (t1 b)) (cmux_many (t2 cond) (t2 a) (t2 b)))
    (fun r => shared_vec r (map (fun p => let '((x, y), c) := p in y + c * (x - y)) (zip (zip xs ys) cs))).
Proof.
  intros Hc Ha Hb Ec Ex. destruct cond as [c0 c1 c2]. apply (protocol_lengths a b xs ys _ _ _ _ Ha Hb Ex). eapply protocol_bind.
  - assert (El : length (zip xs ys) = length cs) by (rewrite length_zip; lia).
    pose proof (tri_forall_zip shared _ _ _ _ _ _ _ _ _ (shared_zip a b xs ys Ha Hb Ex) Hc El) as H.
    refine (protocol_mmap _ summands (fun p => let '((x, y), c) := p in y + c * (x - y)) _ _ _ _ _ _ H). intros [[[]] [[]] [[]]] [[x y] c] [[H1 H2] H3]. cbn in *.
    eapply protocol_bind; [apply masking_spec|]. intros m0 m1 m2 Hm. apply protocol_ret'.
    exact (summands_masked _ _ _ (cmux_local _ _ _ _ _ _ H3 H1 H2) Hm).
  - intros. by apply reshare_vec_spec.
Qed.

Lemma cmux_vec_spec cond a b c xs ys : shared cond c -> shared_vec a xs -> shared_vec b ys -> length xs = length ys ->
  protocol (mkTri (cmux_vec (t0 cond) (t0 a) (t0 b)) (cmux_vec (t1 cond) (t1 a) (t1 b)) (cmux_vec (t2 cond) (t2 a) (t2 b)))
    (fun r => shared_vec r (map (fun p => snd p + c * (fst p - snd p)) (zip xs ys))).
Proof.
  intros Hc Ha Hb Ex. apply (protocol_lengths a b xs ys _ _ _ _ Ha Hb Ex). eapply protocol_bind.
  - refine (protocol_mmap _ summands (fun p => snd p + c * (fst p - snd p)) _ _ _ _ _ _ (shared_zip a b xs ys Ha Hb Ex)).
    intros [[] [] []] [x y] [H1 H2]. cbn in *.
    eapply protocol_bind; [apply masking_spec|]. intros m0 m1 m2 Hm. apply protocol_ret'.
    exact (summands_masked _ _ _ (cmux_local _ _ _ _ _ _ Hc H1 H2) Hm).
  - intros. by apply reshare_vec_spec.
Qed.

(** ** Powers and products *)

Fixpoint fpow (x : F) (n : nat) : F := match n with O => 1 | S n => x * fpow x n end.
Definition fprod (l : list F) : F := fold_right fmul 1 l.

Lemma fpow_add x n m : fpow x (n + m) = fpow x n * fpow x m.
Proof. induction n as [|n IH]; cbn; [ring|]. rewrite IH. ring. Qed.
Lemma fpow_square x n : fpow (x * x) n = fpow x (2 * n).
Proof. induction n as [|n IH]; [done|]. replace (2 * S n)%nat with (S (S (2 * n))) by lia. cbn [fpow]. rewrite IH. ring. Qed.

(** The loop over the bits of the exponent leaves the square after the last one. *)
Lemma pow_loop_spec e res a z x : shared res z -> shared a x ->
  protocol (tmap2 (pow_loop e) res a)
    (fun r => shared (tmap fst r) (z * fpow x (Pos.to_nat e)) /\ shared (tmap snd r) (fpow x (2 ^ Pos.size_nat e))).
Proof.
  revert res a z x. induction e as [e IH|e IH|]; intros res a z x Hr Ha; cbn [pow_loop].
  - eapply protocol_bind; [exact (mul_spec _ _ _ _ Hr Ha)|]. intros r0 r1 r2 Hr'.
    eapply protocol_bind; [exact (mul_spec _ _ _ _ Ha Ha)|]. intros s0 s1 s2 Hs.
    eapply protocol_weaken; [exact (IH _ _ _ _ Hr' Hs)|]. intros r [H1 H2]. rewrite !fpow_square in *.
    rewrite Pos2Nat.inj_xI. cbn [Pos.size_nat Nat.pow fpow]. split; [|done]. by replace (z * (x * fpow x (2 * Pos.to_nat e))) with (z * x * fpow x (2 * Pos.to_nat e)) by ring.
  - eapply protocol_bind; [exact (mul_spec _ _ _ _ Ha Ha)|]. intros s0 s1 s2 Hs.
    eapply protocol_weaken; [exact (IH _ _ _ _ Hr Hs)|]. intros r [H1 H2]. rewrite !fpow_square in *.
    rewrite Pos2Nat.inj_xO. by cbn [Pos.size_nat Nat.pow].
  - eapply protocol_bind; [exact (mul_spec _ _ _ _ Hr Ha)|]. intros r0 r1 r2 Hr'.
    eapply protocol_bind; [exact (mul_spec _ _ _ _ Ha Ha)|]. intros s0 s1 s2 Hs. apply protocol_ret'.
    change (Pos.to_nat 1) with 1%nat. cbn [fpow Pos.size_nat Nat.pow Nat.mul Nat.add].
    split; [replace (x * 1) with x by ring; exact Hr'|]. replace (x * (x * 1)) with (x * x) by ring. exact Hs.
Qed.

Definition bit_length (e : Z) : nat := match e with Zpos p => Pos.size_nat p | _ => 0%nat end.

Lemma pow_public_result a x e : shared a x ->
  protocol (tmap (fun s => pow_public s e) a)
    (fun r => shared r (fpow x (Z.to_nat (into_biguint e) + 2 ^ bit_length (into_biguint e)))).
Proof.
  intros Ha. pose proof (into_biguint_range e) as He. unfold pow_public. apply protocol_id. pose proof (shared_public 1) as H1. eapply protocol_bind.
  - instantiate (1 := fun r => shared (tmap fst r) (fpow x (Z.to_nat (into_biguint e))) /\ shared (tmap snd r) (fpow x (2 ^ bit_length (into_biguint e)))).
    destruct (into_biguint e) as [|p|p]; [| |lia].
    + apply protocol_ret'. cbn. split; [exact H1|]. replace (x * 1) with x by ring. by destruct a.
    + eapply protocol_weaken; [exact (pow_loop_spec p _ a _ _ H1 Ha)|]. intros r [H2 H3]. split; [|done].
      rewrite Z2Nat.inj_pos. by replace (fpow x (Pos.to_nat p)) with (1 * fpow x (Pos.to_nat p)) by ring.
  - intros p0 p1 p2 [H2 H3]. rewrite fpow_add. exact (mul_spec _ _ _ _ H2 H3).
Qed.

Lemma product_loop_spec acc l z xs : shared acc z -> shared_vec l xs ->
  protocol (tmap2 product_loop acc l) (fun r => shared r (fold_left fmul xs z)).
Proof.
  intros Hz Hl. revert acc z Hz. induction Hl as [|a0 a1 a2 v l0 l1 l2 vs Hp Hl IH]; intros acc z Hz.
  - destruct acc. by apply protocol_ret'.
  - eapply protocol_bind; [exact (mul_spec acc _ _ _ Hz Hp)|]. intros r0 r1 r2 Hr. exact (IH (mkTri r0 r1 r2) _ Hr).
Qed.

Lemma product_spec l x xs : shared_vec l (x :: xs) -> protocol (tmap product l) (fun r => shared r (fold_left fmul xs x)).
Proof. intros Hl. inversion Hl as [|a0 a1 a2 v l0 l1 l2 vs Hp Hl' E1 E2]; subst. exact (product_loop_spec _ _ _ _ Hp Hl'). Qed.

Lemma shared_vec_scale l xs e : shared_vec l xs ->
  shared_vec (tmap (map (fun s => share_scale s e)) l) (map (fun x => x * e) xs).
Proof. apply tri_forall_map. intros a v Ha. exact (shared_scale a v e Ha). Qed.

Lemma product_into_additive_long s m l extra : (1 <= length m)%nat ->
  product_into_additive (s :: m ++ [l]) extra =
  mbind (product_loop (share_scale s match extra with Some e => e | None => 1 end) m) (fun p => mret (share_mul p l)).
Proof.
  intros Hm. destruct m as [|y m]; [cbn in Hm; lia|]. cbn [app].
  transitivity (match last (y :: m ++ [l]) with
    | None => crash
    | Some l' => mbind (product_loop (share_scale s match extra with Some e => e | None => 1 end)
        (take (length (s :: y :: m ++ [l]) - 2) (y :: m ++ [l]))) (fun p => mret (share_mul p l')) end).
  { by destruct m. }
  rewrite (last_snoc l (y :: m) : last (y :: m ++ [l]) = Some l). replace (length (s :: y :: m ++ [l]) - 2)%nat with (length (y :: m)).
  - by rewrite (take_app_length (y :: m) [l] : take _ (y :: m ++ [l]) = _).
  - cbn. rewrite length_app. cbn. lia.
Qed.

Lemma fold_left_scale xs x e : fold_left fmul xs (x * e) = fold_left fmul xs x * e.
Proof.
  revert x. induction xs as [|y xs IH]; intros x; [done|]. cbn. replace (x * e * y) with (x * y * e) by ring. apply IH.
Qed.

Lemma product_into_additive_spec l x xs extra : shared_vec l (x :: xs) ->
  protocol (tmap (fun s => product_into_additive s extra) l)
    (fun r => summands r (fold_left fmul xs x * match extra with Some e => e | None => 1 end)).
Proof.
  intros Hl. inversion Hl as [|a0 a1 a2 v l0 l1 l2 vs Hp Hl' E1 E2]; subst. unfold tmap. cbn [t0 t1 t2].
  set (e := match extra with Some e => e | None => 1 end). pose proof (shared_scale _ _ e Hp) as Hs.
  destruct (tri_forall_length _ _ _ Hl') as (L0 & L1 & L2). cbn [t0 t1 t2] in L0, L1, L2.
  destruct xs as [|y [|z xs]].
  - destruct l0, l1, l2; try done. apply protocol_ret'. exact (into_additive_summands _ _ Hs).
  - inversion Hl' as [|b0 b1 b2 v m0 m1 m2 vs Hq Hm]; subst. inversion Hm; subst. apply protocol_ret'.
    cbn [fold_left]. replace (x * y * e) with (x * (y * e)) by ring. exact (share_mul_local _ _ _ _ Hp (shared_scale _ _ e Hq)).
  - destruct (exists_last (l := y :: z :: xs)) as (ws & w & Ew); [done|]. rewrite Ew in *.
    destruct (tri_forall_snoc _ _ _ _ Hl') as (m0 & m1 & m2 & b0 & b1 & b2 & [= -> -> ->] & Hm & Hb).
    assert (1 <= length ws)%nat by (apply (f_equal length) in Ew; rewrite length_app in Ew; cbn in Ew; lia).
    rewrite !length_app in L0, L1, L2. cbn [length] in L0, L1, L2.
    rewrite !product_into_additive_long by (cbn; lia). fold e. eapply protocol_bind.
    + exact (product_loop_spec _ _ _ _ Hs Hm).
    + intros p0 p1 p2 Hprod. apply protocol_ret'. rewrite fold_left_app. cbn [fold_left].
      replace (fold_left fmul ws x * w * e) with (fold_left fmul ws (x * e) * w)
        by (rewrite fold_left_scale; ring). exact (share_mul_local _ _ _ _ Hprod Hb).
Qed.

Lemma reshare_additive_spec l0 l1 l2 x : summands (mkTri l0 l1 l2) x ->
  protocol (mkTri (reshare_additive l0) (reshare_additive l1) (reshare_additive l2)) (fun r => shared r x).
Proof. apply reshared_spec. Qed.

Lemma reshare_additive_many_spec l0 l1 l2 xs : tri_forall summands (mkTri l0 l1 l2) xs ->
  protocol (mkTri (reshare_additive_many l0) (reshare_additive_many l1) (reshare_additive_many l2)) (fun r => shared_vec r xs).
Proof.
  intros H. unfold reshare_additive_many. eapply protocol_bind; [apply protocol_reshare_many|]. intros a0 a1 a2 [= -> -> ->].
  apply protocol_ret'. by apply zip_shares_shared.
Qed.

Lemma xor_local_summands a b x y m0 m1 m2 : shared a x -> shared b y -> summands (mkTri m0 m1 m2) 0 ->
  summands (mkTri (xor_local (t0 a) (t0 b) m0) (xor_local (t1 a) (t1 b) m1) (xor_local (t2 a) (t2 b) m2)) (x + y - (x * y + x * y)).
Proof.
  intros Ha Hb Hm. pose proof (summands_masked _ _ _ (share_mul_local a b x y Ha Hb) Hm) as E. rewrite <- E. clear E Hm.
  open_shares. unfold summands, additive, xor_local. cbn. ring.
Qed.

Lemma arithmetic_xor_spec a b x y : shared a x -> shared b y ->
  protocol (tmap2 arithmetic_xor a b) (fun r => shared r (x + y - (x * y + x * y))).
Proof.
  intros Ha Hb. eapply protocol_bind; [apply masking_spec|]. intros m0 m1 m2 Hm.
  apply reshared_spec. by apply xor_local_summands.
Qed.

Lemma arithmetic_xor_many_spec a b xs ys : shared_vec a xs -> shared_vec b ys -> length xs = length ys ->
  protocol (tmap2 arithmetic_xor_many a b)
    (fun r => shared_vec r (map (fun p => fst p + snd p - (fst p * snd p + fst p * snd p)) (zip xs ys))).
Proof.
  intros Ha Hb E. apply (protocol_lengths a b xs ys _ _ _ _ Ha Hb E). eapply protocol_bind.
  - refine (protocol_mmap _ summands (fun p => fst p + snd p - (fst p * snd p + fst p * snd p)) _ _ _ _ _ _ (shared_zip a b xs ys Ha Hb E)).
    intros p v [H1 H2]. eapply protocol_bind; [apply masking_spec|]. intros m0 m1 m2 Hm. apply protocol_ret'.
    exact (xor_local_summands _ _ _ _ _ _ _ H1 H2 Hm).
  - intros. by apply reshare_additive_many_spec.
Qed.

End Correct.
