(* ===== verification/Rep3Sample.v ===== *)
(** * A small instance of the parameters

    The integers modulo 101 with inverses and roots by search, and a linear
    congruential generator: concrete values for the classes [PrimeField] and
    [RngOps], on which the protocols are evaluated. *)

From Stdlib Require Import ZArith Lia List Bool Zmod.
From stdpp Require Import base list.
From S2P Require Import Prelude Field MpcNet Rep3Ctx Rep3Rules Rep3Share.
Import ListNotations.
Local Open Scope Z_scope.

Definition F101 := Zmod 101.

#[export, refine] Instance F101_field : JoltField F101 := {
  fzero := Zmod.zero; fone := Zmod.one; fadd := Zmod.add; fmul := Zmod.mul; fsub := Zmod.sub;
  fopp := Zmod.opp; of_Z := Zmod.of_Z 101
}.
Proof.
  - apply Zmod.ring_theory.
  - reflexivity.
  - apply Zmod.of_Z_add.
  - apply Zmod.of_Z_mul.
Defined.

Definition range101 : list Z := map Z.of_nat (List.seq 0 101).

Definition find101 (p : Z -> bool) : option F101 := option_map (Zmod.of_Z 101) (List.find p range101).

Definition inverse101 (x : F101) : option F101 := find101 (fun z => (Zmod.unsigned x * z) mod 101 =? 1).
Definition sqrt101 (x : F101) : option F101 := find101 (fun z => (z * z) mod 101 =? Zmod.unsigned x).

Lemma unsigned101 (x : F101) : In (Zmod.unsigned x) range101.
Proof.
  apply in_map_iff. exists (Z.to_nat (Zmod.unsigned x)). pose proof (Zmod.unsigned_pos_bound x eq_refl) as H.
  split; [lia|]. apply in_seq. lia.
Qed.

Lemma find101_spec p y : find101 p = Some y -> exists z, y = Zmod.of_Z 101 z /\ p z = true.
Proof.
  unfold find101. destruct (List.find p range101) as [z|] eqn:E; [|done]. intros [= <-]. apply List.find_some in E as [_ E]. eauto.
Qed.

Lemma mul101 (x : F101) z : fmul x (of_Z z) = of_Z (Zmod.unsigned x * z).
Proof. cbn. rewrite Zmod.of_Z_mul, Zmod.of_Z_to_Z. done. Qed.

#[export, refine] Instance F101_prime : PrimeField F101 := {
  MODULUS := 101; MODULUS_BIT_SIZE := 7; into_biguint := Zmod.unsigned;
  inverse := inverse101; field_sqrt := sqrt101; TWO_INV := Zmod.of_Z 101 51
}.
Proof.
  - lia.
  - intros z. apply Zmod.to_Z_of_Z.
  - intros x. apply Zmod.of_Z_to_Z.
  - intros x Hx. unfold inverse101.
    assert (H : forallb (fun a => (a =? 0) || match find101 (fun z => (a * z) mod 101 =? 1) with Some _ => true | None => false end) range101 = true)
      by (vm_compute; reflexivity).
    pose proof (proj1 (forallb_forall _ _) H _ (unsigned101 x)) as E. clear H.
    apply orb_true_iff in E as [E|E]; [apply Z.eqb_eq in E; lia|].
    destruct (find101 _) as [y|] eqn:Ey; [|done]. exists y. split; [done|].
    destruct (find101_spec _ _ Ey) as (z & -> & Hz%Z.eqb_eq). rewrite (mul101 x z : fmul x (Zmod.of_Z 101 z) = _).
    apply Zmod.to_Z_inj. exact (eq_trans (Zmod.to_Z_of_Z _) Hz).
  - intros x y. unfold sqrt101. intros (z & -> & Hz%Z.eqb_eq)%find101_spec. cbn. rewrite <- Zmod.of_Z_mul.
    apply Zmod.to_Z_inj. exact (eq_trans (Zmod.to_Z_of_Z _) Hz).
  - reflexivity.
Defined.

Definition lcg (s : Z) : Z := (1103515245 * s + 12345) mod 2 ^ 61.

#[export, refine] Instance F101_rng : RngOps F101 := {
  Rng := Z; Seed := Z; from_seed s := lcg s; gen_seed r := (r mod 2 ^ 32, lcg r);
  gen_fe r := (Zmod.of_Z 101 (r / 2 ^ 8), lcg r); gen_bits w r := ((r / 2 ^ 8) mod 2 ^ w, lcg r)
}.
Proof. intros w r Hw. cbn. apply Z.mod_pos_bound. lia. Defined.

(** Contexts in step. *)
Definition sample_context (id : PartyID) (r1 r2 : Z) (b1 b2 : Rep3RandBitComp) : IoContext :=
  mkIo id (mkCorrelated (mkRand r1 r2) b1 b2) 0 Online.
Definition sample_contexts : Tri IoContext :=
  mkTri (sample_context ID0 5001 7003 (mkBitComp 1000 2000 (Some 3000)) (mkBitComp 4000 5000 (Some 6000)))
        (sample_context ID1 6002 5001 (mkBitComp 7000 8000 (Some 9000)) (mkBitComp 1100 1200 None))
        (sample_context ID2 7003 6002 (mkBitComp 8000 9000 (Some 7000)) (mkBitComp 6000 4000 (Some 5000))).

Lemma sample_synced : synced sample_contexts.
Proof. split; try reflexivity; [by exists 7000, 8000, 9000|by exists 4000, 5000, 6000|by split]. Qed.

(** Shares of [x]. *)
Definition sample_shares (x : Z) : Tri (Share F101) := shares_of (of_Z (x - 30)) (of_Z 10) (of_Z 20).

Lemma sample_shares_spec x : sharing fadd (sample_shares x) (of_Z x).
Proof.
  exists (of_Z (x - 30)), (of_Z 10), (of_Z 20). split; [done|]. rewrite <- !of_Z_add. f_equal. lia.
Qed.
