(* ===== verification/Rep3Theorems.v ===== *)
(** * What the arithmetic protocols promise

    The theorems on [Rep3Arith] as a caller sees them: for every schedule of the
    three parties and every randomness. *)

From Stdlib Require Import ZArith Lia List Bool Ring.
From stdpp Require Import base list.
From S2P Require Import Prelude Words Field MpcNet Rep3Ctx Rep3Rules Rep3Share Rep3Arith Rep3Correct Rep3Sample.
Import ListNotations.
Local Open Scope Z_scope.
Local Open Scope mpc_scope.

Section Theorems.
Context {F : Type} `{JF : JoltField F} `{PF : !PrimeField F} `{RO : !RngOps F} `{B : Build}.
Local Open Scope jolt_scope.

Add Ring F_ring_theorems : F_ring.

(** ** Sessions *)

(** A party connects, sets up its context and runs its program. *)
Definition session {A} (rng : Rng) (id : PartyID) (m : MPC A) : Proc Wired (A * IoContext) :=
  net_bind (IoContext_init rng id) m.
Definition sessions {A} (r0 r1 r2 : Rng) (ms : Tri (MPC A)) : Tri (Proc Wired (A * IoContext)) :=
  mkTri (session r0 ID0 (t0 ms)) (session r1 ID1 (t1 ms)) (session r2 ID2 (t2 ms)).

(** ** Circuits: programs of protocol calls *)

Inductive Circuit :=
| CInput (i : nat)
| CPublic (x : F)
| CAdd (a b : Circuit)
| CSub (a b : Circuit)
| CNeg (a : Circuit)
| CAddPublic (a : Circuit) (x : F)
| CSubFromPublic (x : F) (a : Circuit)
| CMulPublic (a : Circuit) (x : F)
| CMul (a b : Circuit)
| CAddMul (a b c : Circuit)
| CCmux (cond a b : Circuit)
| CXor (a b : Circuit).

(** On clear values. *)
Fixpoint evaluate (ins : list F) (e : Circuit) : F :=
  match e with
  | CInput i => List.nth i ins 0
  | CPublic x => x
  | CAdd a b => evaluate ins a + evaluate ins b
  | CSub a b => evaluate ins a - evaluate ins b
  | CNeg a => - evaluate ins a
  | CAddPublic a x => evaluate ins a + x
  | CSubFromPublic x a => x - evaluate ins a
  | CMulPublic a x => evaluate ins a * x
  | CMul a b => evaluate ins a * evaluate ins b
  | CAddMul a b c => evaluate ins a + evaluate ins c * evaluate ins b
  | CCmux cond a b => evaluate ins b + evaluate ins cond * (evaluate ins a - evaluate ins b)
  | CXor a b => evaluate ins a + evaluate ins b - (evaluate ins a * evaluate ins b + evaluate ins a * evaluate ins b)
  end.

(** On shares, as one party runs it. *)
Fixpoint run_gates (ins : list FieldShare) (e : Circuit) : MPC FieldShare :=
  match e with
  | CInput i => mret (List.nth i ins zero_share)
  | CPublic x => id <~ get_id ;; mret (promote_to_trivial_share id x)
  | CAdd a b => u <~ run_gates ins a ;; v <~ run_gates ins b ;; mret (share_add u v)
  | CSub a b => u <~ run_gates ins a ;; v <~ run_gates ins b ;; mret (share_sub u v)
  | CNeg a => u <~ run_gates ins a ;; mret (neg u)
  | CAddPublic a x => u <~ run_gates ins a ;; id <~ get_id ;; mret (add_public u x id)
  | CSubFromPublic x a => u <~ run_gates ins a ;; id <~ get_id ;; mret (sub_public_by_shared x u id)
  | CMulPublic a x => u <~ run_gates ins a ;; mret (mul_public u x)
  | CMul a b => u <~ run_gates ins a ;; v <~ run_gates ins b ;; mul u v
  | CAddMul a b c => u <~ run_gates ins a ;; v <~ run_gates ins b ;; w <~ run_gates ins c ;; add_mul u v w
  | CCmux cond a b => c <~ run_gates ins cond ;; u <~ run_gates ins a ;; v <~ run_gates ins b ;; cmux c u v
  | CXor a b => u <~ run_gates ins a ;; v <~ run_gates ins b ;; arithmetic_xor u v
  end.

Definition run_and_open (e : Circuit) (ins : list FieldShare) : MPC F := r <~ run_gates ins e ;; open r.

(** ** Lemmas *)

Lemma shared_nth ins xs i : shared_vec ins xs -> shared (tmap (fun l => List.nth i l zero_share) ins) (List.nth i xs 0).
Proof.
  intros H. revert i. induction H as [|a0 a1 a2 v l0 l1 l2 vs Hp Hl IH]; intros [|i]; cbn; [| |done|apply IH];
    exists 0, 0, 0; (split; [done|ring]).
Qed.

(** The steps of the execution of subcircuits. *)
Ltac run_sub := match goal with
  | IH : protocol (tmap (fun l => run_gates l ?e) _) _ |- protocol (mkTri (mbind (run_gates _ ?e) _) _ _) _ =>
      eapply protocol_bind; [exact IH|]; intros ? ? ? ?
  | |- protocol (mkTri (mbind get_id _) _ _) _ => apply protocol_id
  end.

Lemma run_gates_spec e ins xs : shared_vec ins xs -> protocol (tmap (fun l => run_gates l e) ins) (fun r => shared r (evaluate xs e)).
Proof.
  intros Hin. induction e; unfold tmap; cbn [run_gates evaluate]; repeat run_sub; try apply protocol_ret'.
  - exact (shared_nth ins xs i Hin).
  - apply shared_public.
  - exact (shared_add _ _ _ _ H H0).
  - exact (shared_sub _ _ _ _ H H0).
  - exact (shared_neg _ _ H).
  - exact (shared_add_public _ _ x H).
  - exact (shared_sub_public _ _ x H).
  - exact (shared_scale _ _ x H).
  - exact (mul_spec _ _ _ _ H H0).
  - eapply protocol_bind; [exact (mul_spec _ _ _ _ H1 H0)|]. intros ? ? ? Hm. apply protocol_ret'. exact (shared_add _ _ _ _ H Hm).
  - exact (cmux_spec _ _ _ _ _ _ H H0 H1).
  - exact (arithmetic_xor_spec _ _ _ _ H H0).
Qed.

Lemma session_protocol {A} s0 s1 s2 (ms : Tri (MPC A)) Q : protocol ms Q ->
  exists r c', runs (sessions s0 s1 s2 ms) (tmap2 pair r c') /\ Q r.
Proof.
  intros Hm. destruct (runs_init s0 s1 s2) as (c & Hinit & Hc & _). destruct (Hm c Hc) as (r & c' & Hr & _ & HQ).
  exists r, c'. split; [|done]. destruct c as [c0 c1 c2].
  exact (runs_bind3 _ _ _ _ _ _ _ _ _ _ Hinit Hr).
Qed.

(** [product_many_into_additive] on three rows of three factors takes the second
    row as the middle factors of all: the transpose of what it does with one or
    two factors. *)
Lemma product_many_into_additive_mixes (m : Tri (list (list FieldShare))) a0 b0 c0 a1 b1 c1 a2 b2 c2 :
  tri_forall shared_vec m [[a0; b0; c0]; [a1; b1; c1]; [a2; b2; c2]] ->
  protocol (tmap (fun m => product_many_into_additive m None) m)
    (fun r => tri_forall summands r [a0 * a1 * c0; a1 * b1 * c1; a2 * c1 * c2]).
Proof.
  intros Hm.
  inversion Hm as [|r00 r01 r02 ? ? ? ? ? H0 Hm1]; subst. inversion Hm1 as [|r10 r11 r12 ? ? ? ? ? H1 Hm2]; subst.
  inversion Hm2 as [|r20 r21 r22 ? ? ? ? ? H2 Hm3]; subst. inversion Hm3; subst. clear Hm Hm1 Hm2 Hm3.
  assert (Hrow : forall r u v w, shared_vec r [u; v; w] -> exists x y z : Tri FieldShare,
    r = mkTri [t0 x; t0 y; t0 z] [t1 x; t1 y; t1 z] [t2 x; t2 y; t2 z] /\ shared x u /\ shared y v /\ shared z w).
  { intros r u v w H. inversion H as [|x0 x1 x2 ? ? ? ? ? Hx H']; subst. inversion H' as [|y0 y1 y2 ? ? ? ? ? Hy H'']; subst.
    inversion H'' as [|z0 z1 z2 ? ? ? ? ? Hz H3]; subst. inversion H3; subst.
    by exists (mkTri x0 x1 x2), (mkTri y0 y1 y2), (mkTri z0 z1 z2). }
  destruct (Hrow _ _ _ _ H0) as (x0 & y0 & z0 & [= -> -> ->] & Hx0 & Hy0 & Hz0).
  destruct (Hrow _ _ _ _ H1) as (x1 & y1 & z1 & [= -> -> ->] & Hx1 & Hy1 & Hz1).
  destruct (Hrow _ _ _ _ H2) as (x2 & y2 & z2 & [= -> -> ->] & Hx2 & Hy2 & Hz2).
  unfold tmap, product_many_into_additive. cbn -[mul_vec].
  eapply (protocol_bind _ _ _ _ _ _ (fun r => shared_vec r [a0 * 1 * a1; a1 * 1 * b1; a2 * 1 * c1])).
  - eapply (protocol_bind _ _ _ _ _ _ (fun r => shared_vec r [a0 * 1 * a1; a1 * 1 * b1; a2 * 1 * c1])); [|intros; by apply protocol_ret'].
    apply (mul_vec_spec
      (mkTri _ _ _) (mkTri _ _ _) [a0 * 1; a1 * 1; a2 * 1] [a1; b1; c1]); [|exact H1|done].
    repeat constructor; [exact (shared_scale _ _ 1 Hx0)|exact (shared_scale _ _ 1 Hx1)|exact (shared_scale _ _ 1 Hx2)].
  - intros p0 p1 p2 Hp. destruct (Hrow _ _ _ _ Hp) as (u & v & w & [= -> -> ->] & Hu & Hv & Hw). apply protocol_ret'. cbn.
    replace (a0 * a1 * c0) with (a0 * 1 * a1 * c0) by ring. replace (a1 * b1 * c1) with (a1 * 1 * b1 * c1) by ring.
    replace (a2 * c1 * c2) with (a2 * 1 * c1 * c2) by ring.
    repeat constructor; [exact (share_mul_local _ _ _ _ Hu Hz0)|exact (share_mul_local _ _ _ _ Hv Hz1)|exact (share_mul_local _ _ _ _ Hw Hz2)].
Qed.

(** ** Theorems *)

(** C3: a circuit of protocol calls (additions, products, multiplexers, exclusive
    ors, with shared and public operands), run on shares by three parties that
    set up their contexts from any seeds and then open the result, ends under
    every schedule of messages, and all parties have the value of the circuit on
    the clear inputs. *)
Theorem circuits_reveal_evaluation e ins xs s0 s1 s2 : shared_vec ins xs ->
  exists c', computes (sessions s0 s1 s2 (tmap (run_and_open e) ins)) (tmap2 pair (tpure (evaluate xs e)) c').
Proof.
  intros Hin. destruct (session_protocol s0 s1 s2 (tmap (run_and_open e) ins) (fun r => revealed r (evaluate xs e)))
    as (r & c' & Hr & ->).
  - eapply protocol_bind; [exact (run_gates_spec e ins xs Hin)|]. intros r0 r1 r2 Hr. exact (open_spec _ _ Hr).
  - exists c'. by apply runs_computes.
Qed.

(** The protocols on vectors compute elementwise, whatever the schedule:
    [mul_vec] and [mul_vec_par] the products, [arithmetic_xor_many] the exclusive
    ors of bits, [cmux_many] the choices, [open_vec] the values themselves. *)
Theorem vector_protocols_correct a b c xs ys cs : shared_vec a xs -> shared_vec b ys -> shared_vec c cs ->
  length xs = length ys -> length cs = length xs ->
  delivers (tmap2 mul_vec a b) (fun r => shared_vec r (zip_with fmul xs ys)) /\
  delivers (tmap2 mul_vec_par a b) (fun r => shared_vec r (zip_with fmul xs ys)) /\
  delivers (tmap2 arithmetic_xor_many a b) (fun r => shared_vec r (zip_with (fun x y => x + y - (x * y + x * y)) xs ys)) /\
  delivers (mkTri (cmux_many (t0 c) (t0 a) (t0 b)) (cmux_many (t1 c) (t1 a) (t1 b)) (cmux_many (t2 c) (t2 a) (t2 b)))
    (fun r => shared_vec r (zip_with (fun p c => snd p + c * (fst p - snd p)) (zip xs ys) cs)) /\
  delivers (tmap open_vec a) (fun r => revealed r xs).
Proof.
  intros Ha Hb Hc E Ec.
  assert (Ez : forall {A1 A2 R} (f : A1 -> A2 -> R) us vs, map (fun p => f (fst p) (snd p)) (zip us vs) = zip_with f us vs).
  { intros A1 A2 R f us. induction us as [|u us IH]; intros [|v vs]; cbn; [done..|]. by rewrite IH. }
  split_and!; apply protocol_delivers.
  - eapply protocol_weaken; [exact (mul_vec_spec a b xs ys Ha Hb E)|]. intros r. by rewrite (Ez _ _ _ fmul).
  - eapply protocol_weaken; [exact (mul_vec_par_spec a b xs ys Ha Hb E)|]. intros r. by rewrite (Ez _ _ _ fmul).
  - eapply protocol_weaken; [exact (arithmetic_xor_many_spec a b xs ys Ha Hb E)|]. intros r.
    by rewrite (Ez _ _ _ (fun x y => x + y - (x * y + x * y))).
  - eapply protocol_weaken; [exact (cmux_many_spec c a b cs xs ys Hc Ha Hb Ec E)|]. intros r.
    rewrite <- (Ez _ _ _ (fun p c => snd p + c * (fst p - snd p))). erewrite map_ext; [done|]. by intros [[x y] z].
  - exact (open_vec_spec a xs Ha).
Qed.

(** [inv] and [inv_vec] either share the inverses or make all three parties
    return the error, and which of the two is decided by whether a product of an
    element with its random mask is zero. *)
Theorem inv_or_error a x l xs c : synced c -> shared a x -> shared_vec l xs ->
  (nonzero (x * random_element c) -> delivers_at c (tmap inv a) (fun r => exists y, x * y = 1 /\ shared r y)) /\
  (~ nonzero (x * random_element c) -> errs_at c (tmap inv a)) /\
  exists rs, length rs = length xs /\
    (Forall nonzero (map (fun p => fst p * snd p) (zip xs rs)) ->
       delivers_at c (tmap inv_vec l) (fun r => exists ys, Forall2 (fun x y => x * y = 1) xs ys /\ shared_vec r ys)) /\
    (~ Forall nonzero (map (fun p => fst p * snd p) (zip xs rs)) -> errs_at c (tmap inv_vec l)).
Proof.
  intros Hc Ha Hl. split; [|split].
  - intros Hn. by apply protocol_at_delivers, inv_at.
  - intros Hz. by eapply fails_at_errs, inv_fails_at.
  - destruct (inv_vec_at l xs c Hc Hl) as (rs & El & H1 & H2). exists rs. split; [done|]. split; intros H.
    + by apply protocol_at_delivers, H1.
    + by apply fails_at_errs, H2.
Qed.

(** [sqrt] either shares a square root of the value or makes all three
    parties return an error; it succeeds when the masked square has a root and the
    product of the masks is not zero. *)
Theorem sqrt_or_error a x c : synced c -> shared a x -> exists r s,
  (forall w, field_sqrt (r * r * x) = Some w -> nonzero (r * s) ->
     delivers_at c (tmap sqrt a) (fun o => exists y, y * y = x /\ shared o y)) /\
  (field_sqrt (r * r * x) = None \/ ~ nonzero (r * s) -> errs_at c (tmap sqrt a)).
Proof.
  intros Hc Ha. destruct (sqrt_at a x c Hc Ha) as (r & s & H). exists r, s.
  pose proof (sqrt_of_spec r s x) as Hs. unfold sqrt_of in *. split.
  - intros w Ew Hn. rewrite Ew, (is_zero_fe_false _ Hn) in *. specialize (Hs _ eq_refl). apply protocol_at_delivers.
    destruct H as (o & c' & ? & ? & ?). exists o, c'. eauto.
  - intros [E|Hz%is_zero_fe_true]; [rewrite E in H|destruct (field_sqrt _); [rewrite Hz in H|]]; by apply fails_at_errs.
Qed.

(** [pow_public] multiplies once too often: it shares the power of the base
    to [e + 2 ^ (bit length of e)], where its documentation promises the power to
    [e]. *)
Theorem pow_public_overshoots a x e : shared a x ->
  delivers (tmap (fun s => pow_public s e) a)
    (fun r => shared r (fpow x (Z.to_nat (into_biguint e) + 2 ^ bit_length (into_biguint e)))).
Proof. intros Ha. by apply protocol_delivers, pow_public_result. Qed.

(** [product] shares the product of a nonempty vector, and
    [product_into_additive] leaves summands of it, times the public factor. *)
Theorem products_correct l x xs extra : shared_vec l (x :: xs) ->
  delivers (tmap product l) (fun r => shared r (fold_left fmul xs x)) /\
  delivers (tmap (fun s => product_into_additive s extra) l)
    (fun r => summands r (fold_left fmul xs x * match extra with Some e => e | None => 1 end)).
Proof. intros Hl. split; apply protocol_delivers; [by apply product_spec|by apply product_into_additive_spec]. Qed.

(** C34: what is shared combines to the secrets again, and every party's pair of
    summands says nothing of them: for two secrets, a bijection of the randomness
    of the sharing gives the party the same shares. *)
Theorem sharing_round_trip_and_hiding :
  (forall vals r, let s := share_field_elements vals r in
     combine_field_elements (t0 s) (t1 s) (t2 s) = Some vals) /\
  (forall (id : PartyID) (val val' : F), exists f g : F * F -> F * F,
     (forall r, g (f r) = r) /\ (forall r, f (g r) = r) /\
     forall a b, tget (share_field_element val a b) id = tget (share_field_element val' (fst (f (a, b))) (snd (f (a, b)))) id).
Proof.
  split.
  - intros vals r. unfold combine_field_elements.
    assert (H : let s := share_field_elements vals r in length (t0 s) = length vals /\ length (t1 s) = length vals /\
      length (t2 s) = length vals /\ multizip3 combine_field_element (t0 s) (t1 s) (t2 s) = vals).
    { revert r. induction vals as [|v vals IH]; intros r; [done|]. cbn. destruct (gen_fe r) as [a r1], (gen_fe r1) as [b r2].
      destruct (IH r2) as (E0 & E1 & E2 & E3). cbn. rewrite E0, E1, E2, E3. split_and!; auto. f_equal. unfold combine_field_element. cbn. ring. }
    destruct H as (-> & -> & -> & ->). by rewrite Nat.eqb_refl.
  - intros id val val'. set (d := val' - val).
    exists (fun r => match id with ID0 => (fst r, snd r + d) | ID1 => r | ID2 => (fst r + d, snd r) end),
      (fun r => match id with ID0 => (fst r, snd r - d) | ID1 => r | ID2 => (fst r - d, snd r) end).
    split; [|split]; [intros [u v]; destruct id; cbn; try done; f_equal; ring..|].
    intros a b. unfold share_field_element, d. destruct id; cbn; try done; f_equal; ring.
Qed.

End Theorems.

(** ** Witnesses, on the integers modulo 101 *)

#[local] Existing Instance release_rv64.

Definition sample_vec (xs : list Z) : Tri (list (Share F101)) :=
  mkTri (map (fun x => t0 (sample_shares x)) xs) (map (fun x => t1 (sample_shares x)) xs) (map (fun x => t2 (sample_shares x)) xs).

Lemma sample_vec_spec xs : shared_vec (sample_vec xs) (map of_Z xs).
Proof. induction xs as [|x xs IH]; constructor; [exact (sample_shares_spec x)|exact IH]. Qed.

Definition seed101 (s : Z) : @Rng F101 _ := s.

(** (x * y xor z) + 3 * x, on 5, 7 and 0. *)
Definition sample_circuit : Circuit (F := F101) :=
  CAdd (CXor (CMul (CInput 0) (CInput 1)) (CInput 2)) (CMulPublic (CInput 0) (of_Z 3)).

Lemma circuits_reveal_evaluation_witness : exists c',
  computes (sessions (seed101 11) (seed101 22) (seed101 33) (tmap (run_and_open sample_circuit) (sample_vec [5; 7; 0])))
    (tmap2 pair (tpure (of_Z 50)) c').
Proof.
  destruct (circuits_reveal_evaluation sample_circuit (sample_vec [5; 7; 0]) (map of_Z [5; 7; 0]) (seed101 11) (seed101 22) (seed101 33) (sample_vec_spec _)) as [c' H].
  exists c'. replace (of_Z 50 : F101) with (evaluate (map of_Z [5; 7; 0]) sample_circuit) by (vm_compute; reflexivity). exact H.
Defined.

Lemma vector_protocols_correct_witness :
  delivers (tmap2 mul_vec (sample_vec [5; 7]) (sample_vec [3; 4])) (fun r => shared_vec r [of_Z 15; of_Z 28]).
Proof.
  destruct (vector_protocols_correct (sample_vec [5; 7]) (sample_vec [3; 4]) (sample_vec [0; 1]) (map of_Z [5; 7]) (map of_Z [3; 4])
    (map of_Z [0; 1]) (sample_vec_spec _) (sample_vec_spec _) (sample_vec_spec _) eq_refl eq_refl) as [H _].
  cbn [map zip_with] in H. rewrite <- !of_Z_mul in H. exact H.
Defined.

Lemma inv_or_error_witness :
  delivers_at sample_contexts (tmap inv (sample_shares 5)) (fun r => exists y, fmul (of_Z 5) y = fone /\ shared r y).
Proof.
  apply (inv_or_error (sample_shares 5) (of_Z 5) (sample_vec [3; 4]) (map of_Z [3; 4]) sample_contexts sample_synced
    (sample_shares_spec 5) (sample_vec_spec _)). vm_compute. discriminate.
Defined.

Lemma sqrt_or_error_witness : exists r s : F101,
  (forall w, field_sqrt (fmul (fmul r r) (of_Z 5)) = Some w -> nonzero (fmul r s) ->
     delivers_at sample_contexts (tmap sqrt (sample_shares 5)) (fun o => exists y, fmul y y = of_Z 5 /\ shared o y)) /\
  (field_sqrt (fmul (fmul r r) (of_Z 5)) = None \/ ~ nonzero (fmul r s) -> errs_at sample_contexts (tmap sqrt (sample_shares 5))).
Proof. exact (sqrt_or_error (sample_shares 5) (of_Z 5) sample_contexts sample_synced (sample_shares_spec 5)). Defined.

(** 2 to the power 3 comes out as 2 to the power 7, 27 modulo 101. *)
Lemma pow_public_overshoots_witness :
  delivers (tmap (fun s => pow_public s (of_Z 3)) (sample_shares 2)) (fun r => shared r (of_Z 27)) /\
  fpow (of_Z 2) 3 <> (of_Z 27 : F101).
Proof.
  split; [|vm_compute; discriminate].
  pose proof (pow_public_overshoots (sample_shares 2) (of_Z 2) (of_Z 3) (sample_shares_spec 2)) as H.
  replace (of_Z 27 : F101) with (fpow (F := F101) (of_Z 2) (Z.to_nat (into_biguint (of_Z 3)) + 2 ^ bit_length (into_biguint (of_Z 3))))
    by (vm_compute; reflexivity). exact H.
Defined.

Lemma products_correct_witness :
  delivers (tmap product (sample_vec [5; 3; 4])) (fun r => shared r (of_Z 60)).
Proof.
  destruct (products_correct (sample_vec [5; 3; 4]) (of_Z 5) (map of_Z [3; 4]) None (sample_vec_spec _)) as [H _].
  cbn [map fold_left] in H. rewrite <- !of_Z_mul in H. exact H.
Defined.

(** Setting up from three seeds. *)
Definition init_schedule : list PartyID := [ID0; ID1; ID2; ID0; ID1; ID2; ID0; ID1; ID2; ID0; ID1; ID2].
Definition sample_inits := mkTri (IoContext_init (seed101 11) ID0) (IoContext_init (seed101 22) ID1) (IoContext_init (seed101 33) ID2).
Definition returned {D A} (p : Proc D A) (d : A) : A := match p with Done a => a | _ => d end.
Definition initialized : Tri IoContext := Eval vm_compute in
  match run init_schedule (start sample_inits) with
  | Some s => tmap2 returned (procs s) sample_contexts
  | None => sample_contexts
  end.

(** [generate_shared] is not equal on all three parties. *)
Lemma generate_shared_differs : computes sample_inits initialized /\
  generate_shared (gen_bits 64) ID1 (rngs (t1 initialized)) = generate_shared (gen_bits 64) ID2 (rngs (t2 initialized)) /\
  generate_shared (gen_bits 64) ID0 (rngs (t0 initialized)) <> generate_shared (gen_bits 64) ID1 (rngs (t1 initialized)).
Proof.
  split; [|split; [|]].
  - apply runs_computes. exists init_schedule. vm_cast_no_check (eq_refl (Some (final (D := Wired (F := F101)) initialized))).
  - vm_compute. reflexivity.
  - vm_compute. discriminate.
Qed.
