(* ===== verification/Rep3Binary.v ===== *)
(** * Binary shares of big integers

    [mpc-core/src/protocols/rep3/types/binary.rs], [rep3/binary.rs], [rep3/detail.rs],
    [rep3/conversion.rs] and the comparisons of [rep3/arithmetic.rs]: operations on
    shares that combine by exclusive or, the Kogge-Stone adder and subtractor,
    conversions between the two kinds of shares, and comparisons. *)

From Stdlib Require Import ZArith Lia List Bool.
From stdpp Require Import base list.
From S2P Require Import Prelude Words Field Carry MpcNet Rep3Ctx Rep3Rules Rep3Share Rep3Arith.
Import ListNotations.
Local Open Scope Z_scope.
Local Open Scope mpc_scope.

(** [BigUint::bits] *)
Definition biguint_bits (z : Z) : Z := if z =? 0 then 0 else Z.log2 z + 1.

Definition BinaryShare := Share Z.

(** ** Operators of [Rep3BigUintShare] *)

Definition bzero_share : BinaryShare := mkShare 0 0.
Definition bxor (a b : BinaryShare) : BinaryShare := mkShare (Z.lxor (sa a) (sa b)) (Z.lxor (sb a) (sb b)).
(** [share ^ public], on both components of every party *)
Definition bxor_all (a : BinaryShare) (m : Z) : BinaryShare := mkShare (Z.lxor (sa a) m) (Z.lxor (sb a) m).
(** [share & public] *)
Definition and_with_public (a : BinaryShare) (m : Z) : BinaryShare := mkShare (Z.land (sa a) m) (Z.land (sb a) m).
(** [share & share], the local part *)
Definition band_local (a b : BinaryShare) : Z :=
  Z.lxor (Z.lxor (Z.land (sa a) (sa b)) (Z.land (sa a) (sb b))) (Z.land (sb a) (sa b)).
Definition bshl (a : BinaryShare) (n : Z) : BinaryShare := mkShare (Z.shiftl (sa a) n) (Z.shiftl (sb a) n).
Definition bshr (a : BinaryShare) (n : Z) : BinaryShare := mkShare (Z.shiftr (sa a) n) (Z.shiftr (sb a) n).

(** ** Local operations *)

Definition xor_public (shared : BinaryShare) (public : Z) (id : PartyID) : BinaryShare :=
  match id with
  | ID0 => mkShare (Z.lxor (sa shared) public) (sb shared)
  | ID1 => mkShare (sa shared) (Z.lxor (sb shared) public)
  | ID2 => shared
  end.
Definition xor_public_vec (shared : list BinaryShare) (public : list Z) (id : PartyID) : list BinaryShare :=
  map (fun p => xor_public (fst p) (snd p) id) (zip shared public).
Definition or_public (shared : BinaryShare) (public : Z) (id : PartyID) : BinaryShare :=
  let tmp := and_with_public shared public in
  let xor := xor_public shared public id in
  bxor xor tmp.
Definition bpromote_to_trivial_share (id : PartyID) (public_value : Z) : BinaryShare :=
  match id with
  | ID0 => mkShare public_value 0
  | ID1 => mkShare 0 public_value
  | ID2 => bzero_share
  end.
(** [from_le_bits] *)
Definition from_le_bits (bits : list BinaryShare) : BinaryShare :=
  fold_left (fun int bit => bxor (bshl int 1) bit) (rev bits) bzero_share.

(** [share_rep3_binary], on its two random words *)
Definition share_rep3_binary (secret a1 a2 : Z) : Tri BinaryShare :=
  let a3 := Z.lxor (Z.lxor secret a1) a2 in
  mkTri (mkShare a1 a2) (mkShare a2 a3) (mkShare a3 a1).
(** [combine_binary_element], before the reduction into the field *)
Definition combine_binary_element (share1 share2 share3 : BinaryShare) : Z :=
  Z.lxor (Z.lxor (sa share1) (sa share2)) (sa share3).

Section Binary.
Context {F : Type} `{JF : JoltField F} `{PF : !PrimeField F} `{RO : !RngOps F} `{B : Build}.

(** [shift_r_public], [shift_l_public]: [None] is the failed cast to [usize] *)
Definition shift_r_public (shared : BinaryShare) (public : F) : option BinaryShare :=
  if is_zero_fe public then Some shared
  else let shift := into_biguint public in if shift <? 2 ^ 64 then Some (bshr shared shift) else None.
Definition shift_l_public (shared : BinaryShare) (public : F) : option BinaryShare :=
  if is_zero_fe public then Some shared
  else let shift := into_biguint public in if shift <? 2 ^ 64 then Some (bshl shared shift) else None.

(** [random_biguint], its two elements combined: the masks of the parties cancel *)
Definition xor_mask (bitlen : Z) : MPC Z :=
  p <~ with_rand (random_biguint bitlen) ;; mret (Z.lxor (fst p) (snd p)).

(** ** Interactive operations *)

Definition and (a b : BinaryShare) : MPC BinaryShare :=
  mdebug_assert (biguint_bits (sa a) <=? MODULUS_BIT_SIZE) ;~
  mdebug_assert (biguint_bits (sa b) <=? MODULUS_BIT_SIZE) ;~
  mask <~ xor_mask MODULUS_BIT_SIZE ;;
  let local_a := Z.lxor (band_local a b) mask in
  local_b <~ network (fun id => reshare id local_a) ;;
  mret (mkShare local_a local_b).

Definition zip_bshares (local_a local_b : list Z) : list BinaryShare := map (fun p => mkShare (fst p) (snd p)) (zip local_a local_b).

(** The vector is reshared as one value. *)
Definition and_vec (a b : list BinaryShare) : MPC (list BinaryShare) :=
  local_a <~ mmap (fun p => mask <~ xor_mask MODULUS_BIT_SIZE ;; mret (Z.lxor (band_local (fst p) (snd p)) mask)) (zip a b) ;;
  local_b <~ network (fun id => reshare id local_a) ;;
  mret (zip_bshares local_a local_b).

Definition or (a b : BinaryShare) : MPC BinaryShare :=
  let xor := bxor a b in
  and <~ and a b ;; mret (bxor xor and).

Definition or_vec (a b : list BinaryShare) : MPC (list BinaryShare) :=
  let xor := map (fun p => bxor (fst p) (snd p)) (zip a b) in
  and <~ and_vec a b ;; mret (map (fun p => bxor (fst p) (snd p)) (zip xor and)).

Definition bcmux (c x_t x_f : BinaryShare) : MPC BinaryShare :=
  let xor := bxor x_f x_t in
  and <~ and c xor ;; mret (bxor and x_f).

Definition bcmux_many (c x_t x_f : list BinaryShare) : MPC (list BinaryShare) :=
  massert (Nat.eqb (length c) (length x_t)) ;~
  massert (Nat.eqb (length c) (length x_f)) ;~
  let xor := map (fun p => bxor (fst p) (snd p)) (zip x_f x_t) in
  and <~ and_vec c xor ;; mret (map (fun p => bxor (fst p) (snd p)) (zip and x_f)).

Definition bopen (a : BinaryShare) : MPC Z :=
  c <~ network (fun id => reshare id (sb a)) ;; mret (Z.lxor (Z.lxor (sa a) (sb a)) c).

(** [open_vec] without the conversion of the values *)
Definition bopen_vec (a : list BinaryShare) : MPC (list Z) :=
  c <~ network (fun id => reshare_many id (map sb a)) ;;
  mret (map (fun p => Z.lxor (Z.lxor (sa (fst p)) (sb (fst p))) (snd p)) (zip a c)).

(** [while num > 1], at most [fuel] rounds *)
Fixpoint or_tree_loop (fuel : nat) (inputs : list BinaryShare) : MPC (list BinaryShare) :=
  let num := length inputs in
  if Nat.leb num 1 then mret inputs
  else match fuel with
  | O => crash
  | S fuel =>
      let num := Nat.div2 num in
      let a_vec := take num inputs in
      let tmp := drop num inputs in
      let b_vec := take num tmp in
      let leftover := drop num tmp in
      res <~ mmap (fun p => or (fst p) (snd p)) (zip a_vec b_vec) ;;
      or_tree_loop fuel (res ++ leftover)
  end.
Definition or_tree (inputs : list BinaryShare) : MPC BinaryShare :=
  res <~ or_tree_loop (length inputs) inputs ;;
  match res with [] => crash | r :: _ => mret r end.

Definition set_bit (a : BinaryShare) (i : Z) : BinaryShare := mkShare (Z.setbit (sa a) i) (Z.setbit (sb a) i).

(** [while len > 1], at most [fuel] rounds *)
Fixpoint is_zero_loop (fuel : nat) (len : Z) (x : BinaryShare) : MPC BinaryShare :=
  if len <=? 1 then mret x
  else match fuel with
  | O => crash
  | S fuel =>
      let x := if len mod 2 =? 1 then set_bit x len else x in
      let len := if len mod 2 =? 1 then len + 1 else len in
      let len := len / 2 in
      let mask := Z.shiftl 1 len - 1 in
      let y := bshr x len in
      x <~ and (and_with_public x mask) (and_with_public y mask) ;;
      is_zero_loop fuel len x
  end.

Definition bis_zero (x : BinaryShare) : MPC BinaryShare :=
  let mask := Z.shiftl 1 MODULUS_BIT_SIZE - 1 in
  let x := bxor_all x mask in
  x <~ is_zero_loop (Z.to_nat MODULUS_BIT_SIZE) MODULUS_BIT_SIZE x ;;
  mret (and_with_public x 1).

Fixpoint is_zero_many_loop (fuel : nat) (len : Z) (x : list BinaryShare) : MPC (list BinaryShare) :=
  if len <=? 1 then mret x
  else match fuel with
  | O => crash
  | S fuel =>
      let x := if len mod 2 =? 1 then map (fun x => set_bit x len) x else x in
      let len := if len mod 2 =? 1 then len + 1 else len in
      let len := len / 2 in
      let mask := Z.shiftl 1 len - 1 in
      let y := map (fun x => and_with_public (bshr x len) mask) x in
      let x := map (fun x => and_with_public x mask) x in
      x <~ and_vec x y ;;
      is_zero_many_loop fuel len x
  end.

Definition bis_zero_many (x : list BinaryShare) : MPC (list BinaryShare) :=
  let mask := Z.shiftl 1 MODULUS_BIT_SIZE - 1 in
  let x := map (fun x => and_with_public (bxor_all x mask) mask) x in
  x <~ is_zero_many_loop (Z.to_nat MODULUS_BIT_SIZE) MODULUS_BIT_SIZE x ;;
  mret (map (fun x => and_with_public x 1) x).

(** ** The adder ([detail.rs]) *)

Definition and_twice (a b1 b2 : BinaryShare) (bitlen : Z) : MPC (BinaryShare * BinaryShare) :=
  mdebug_assert (biguint_bits (sa a) <=? bitlen) ;~
  mdebug_assert (biguint_bits (sa b1) <=? bitlen) ;~
  mdebug_assert (biguint_bits (sa b2) <=? bitlen) ;~
  mask1 <~ xor_mask bitlen ;;
  mask2 <~ xor_mask bitlen ;;
  let local_a1 := Z.lxor (band_local b1 a) mask1 in
  let local_a2 := Z.lxor (band_local a b2) mask2 in
  network (fun id => send_next id (local_a1, local_a2)) ;~
  local_b <~ network (fun id => recv_prev (T := Z * Z) id) ;;
  mret (mkShare local_a1 (fst local_b), mkShare local_a2 (snd local_b)).

Fixpoint kogge_stone_loop (d : nat) (i bitlen : Z) (p g : BinaryShare) : MPC BinaryShare :=
  match d with
  | O => mret g
  | S d =>
      let shift := Z.shiftl 1 i in
      let mask := Z.shiftl 1 (bitlen - shift) - 1 in
      let p_ := and_with_public p mask in
      let g_ := and_with_public g mask in
      let p_shift := bshr p shift in
      r <~ and_twice p_shift g_ p_ (bitlen - shift) ;;
      let p := bshl (snd r) shift in
      let g := bxor g (bshl (fst r) shift) in
      kogge_stone_loop d (i + 1) bitlen p g
  end.

Definition kogge_stone_inner (p g : BinaryShare) (bitlen : Z) : MPC BinaryShare :=
  let d := ceil_log2 bitlen in
  let s_ := p in
  g <~ kogge_stone_loop d 0 bitlen p g ;;
  mret (bxor (bshl g 1) s_).

(** The local results are shifted before they are sent. *)
Definition and_twice_many_iter (l : list (BinaryShare * BinaryShare * BinaryShare)) (bitlen shift : Z)
  : MPC (list BinaryShare * list BinaryShare) :=
  local_a <~ mmap (fun t => let '(a, b1, b2) := t in
               mask1 <~ xor_mask bitlen ;;
               mask2 <~ xor_mask bitlen ;;
               mret (Z.shiftl (Z.lxor (band_local b1 a) mask1) shift, Z.shiftl (Z.lxor (band_local a b2) mask2) shift)) l ;;
  let local_a1 := map fst local_a in
  let local_a2 := map snd local_a in
  network (fun id => send_next id (local_a1, local_a2)) ;~
  local_b <~ network (fun id => recv_prev (T := list Z * list Z) id) ;;
  mret (zip_bshares local_a1 (fst local_b), zip_bshares local_a2 (snd local_b)).

Fixpoint kogge_stone_many_loop (d : nat) (i bitlen : Z) (p g : list BinaryShare) : MPC (list BinaryShare) :=
  match d with
  | O => mret g
  | S d =>
      let shift := Z.shiftl 1 i in
      let mask := Z.shiftl 1 (bitlen - shift) - 1 in
      let p_ := map (fun p => and_with_public p mask) p in
      let g_ := map (fun g => and_with_public g mask) g in
      let p_shift := map (fun p => bshr p shift) p in
      r <~ and_twice_many_iter (zip (zip p_shift g_) p_) (bitlen - shift) shift ;;
      let p := snd r in
      let g := map (fun t => bxor (fst t) (snd t)) (zip g (fst r)) in
      kogge_stone_many_loop d (i + 1) bitlen p g
  end.

Definition kogge_stone_inner_many (p g : list BinaryShare) (bitlen : Z) : MPC (list BinaryShare) :=
  let d := ceil_log2 bitlen in
  let s_ := p in
  g <~ kogge_stone_many_loop d 0 bitlen p g ;;
  mret (map (fun t => bxor (bshl (fst t) 1) (snd t)) (zip g s_)).

Definition low_depth_binary_add (x1 x2 : BinaryShare) (bitlen : Z) : MPC BinaryShare :=
  let p := bxor x1 x2 in
  g <~ and x1 x2 ;;
  kogge_stone_inner p g bitlen.

Definition low_depth_binary_add_many (x1 x2 : list BinaryShare) (bitlen : Z) : MPC (list BinaryShare) :=
  let p := map (fun t => bxor (fst t) (snd t)) (zip x1 x2) in
  g <~ and_vec x1 x2 ;;
  kogge_stone_inner_many p g bitlen.

Definition low_depth_binary_sub_p (x : BinaryShare) (bitlen : Z) : MPC BinaryShare :=
  id <~ get_id ;;
  let p_ := Z.shiftl 1 bitlen - MODULUS in
  let g := and_with_public x p_ in
  let p := xor_public x p_ id in
  kogge_stone_inner p g bitlen.

Definition low_depth_binary_sub_p_many (x : list BinaryShare) (bitlen : Z) : MPC (list BinaryShare) :=
  id <~ get_id ;;
  let p_ := Z.shiftl 1 bitlen - MODULUS in
  let g := map (fun x => and_with_public x p_) x in
  let p := map (fun x => xor_public x p_ id) x in
  kogge_stone_inner_many p g bitlen.

(** The overflow bit spread over a mask. *)
Definition spread (y_msb mask : Z) : Z := if Z.land (y_msb mod 2 ^ 64) 1 =? 1 then mask else 0.

Definition low_depth_sub_p_cmux (x : BinaryShare) (bitlen : Z) : MPC BinaryShare :=
  let original_bitlen := bitlen - 1 in
  let mask := Z.shiftl 1 original_bitlen - 1 in
  y <~ low_depth_binary_sub_p x bitlen ;;
  let x := and_with_public x mask in
  let y_msb := bshr y bitlen in
  let y := and_with_public y mask in
  let ov := mkShare (spread (sa y_msb) mask) (spread (sb y_msb) mask) in
  bcmux ov y x.

Definition low_depth_sub_p_cmux_many (x : list BinaryShare) (bitlen : Z) : MPC (list BinaryShare) :=
  let original_bitlen := bitlen - 1 in
  let mask := Z.shiftl 1 original_bitlen - 1 in
  y <~ low_depth_binary_sub_p_many x bitlen ;;
  let x := map (fun x => and_with_public x mask) x in
  let y_msb := map (fun y => bshr y bitlen) y in
  let y := map (fun y => and_with_public y mask) y in
  let ov := map (fun y_msb => mkShare (spread (sa y_msb) mask) (spread (sb y_msb) mask)) y_msb in
  bcmux_many ov y x.

Definition low_depth_binary_add_mod_p (x1 x2 : BinaryShare) (bitlen : Z) : MPC BinaryShare :=
  x <~ low_depth_binary_add x1 x2 bitlen ;; low_depth_sub_p_cmux x (bitlen + 1).
Definition low_depth_binary_add_mod_p_many (x1 x2 : list BinaryShare) (bitlen : Z) : MPC (list BinaryShare) :=
  x <~ low_depth_binary_add_many x1 x2 bitlen ;; low_depth_sub_p_cmux_many x (bitlen + 1).

Definition low_depth_binary_sub (x1 x2 : BinaryShare) (bitlen : Z) : MPC BinaryShare :=
  id <~ get_id ;;
  let mask := Z.shiftl 1 bitlen - 1 in
  let x2 := xor_public x2 mask id in
  let p := bxor x1 x2 in
  g <~ and x1 x2 ;;
  let g := bxor g (and_with_public p 1) in
  res <~ kogge_stone_inner p g bitlen ;;
  mret (xor_public res 1 id).

Definition low_depth_binary_sub_many (x1 x2 : list BinaryShare) (bitlen : Z) : MPC (list BinaryShare) :=
  id <~ get_id ;;
  let mask := Z.shiftl 1 bitlen - 1 in
  let x2 := map (fun x => xor_public x mask id) x2 in
  let p := map (fun t => bxor (fst t) (snd t)) (zip x1 x2) in
  g <~ and_vec x1 x2 ;;
  let g := map (fun t => bxor (fst t) (and_with_public (snd t) 1)) (zip g p) in
  res <~ kogge_stone_inner_many p g bitlen ;;
  mret (map (fun r => xor_public r 1 id) res).

Definition low_depth_binary_sub_by_const (x1 : BinaryShare) (x2 : Z) : MPC BinaryShare :=
  id <~ get_id ;;
  let x2_ := Z.shiftl 1 MODULUS_BIT_SIZE - x2 in
  let p := xor_public x1 x2_ id in
  let g := and_with_public x1 x2_ in
  kogge_stone_inner p g MODULUS_BIT_SIZE.

Definition low_depth_binary_sub_from_const (x1 : Z) (x2 : BinaryShare) : MPC BinaryShare :=
  id <~ get_id ;;
  let mask := Z.shiftl 1 MODULUS_BIT_SIZE - 1 in
  let x2 := xor_public x2 mask id in
  let p := xor_public x2 x1 id in
  let g := and_with_public x2 x1 in
  let g := bxor g (and_with_public p 1) in
  res <~ kogge_stone_inner p g MODULUS_BIT_SIZE ;;
  mret (xor_public res 1 id).

(** ** Conversions ([conversion.rs]) *)

Definition a2b (x : Share F) : MPC BinaryShare :=
  r <~ xor_mask MODULUS_BIT_SIZE ;;
  id <~ get_id ;;
  let x01_a := match id with ID0 | ID2 => r | ID1 => Z.lxor (into_biguint (fadd (sa x) (sb x))) r end in
  let x2 := match id with
    | ID0 => mkShare 0 (into_biguint (sb x)) | ID1 => bzero_share | ID2 => mkShare (into_biguint (sa x)) 0 end in
  network (fun id => send_next id x01_a) ;~
  local_b <~ network (fun id => recv_prev id) ;;
  low_depth_binary_add_mod_p (mkShare x01_a local_b) x2 MODULUS_BIT_SIZE.

Definition a2b_many (x : list (Share F)) : MPC (list BinaryShare) :=
  r_vec <~ mmap (fun _ => xor_mask MODULUS_BIT_SIZE) x ;;
  id <~ get_id ;;
  let x2 := map (fun x => match id with
    | ID0 => mkShare 0 (into_biguint (sb x)) | ID1 => bzero_share | ID2 => mkShare (into_biguint (sa x)) 0 end) x in
  let x01_a := match id with
    | ID0 | ID2 => r_vec
    | ID1 => map (fun t => Z.lxor (into_biguint (fadd (sa (fst t)) (sb (fst t)))) (snd t)) (zip x r_vec) end in
  x01_b <~ network (fun id => reshare_many id x01_a) ;;
  low_depth_binary_add_mod_p_many (zip_bshares x01_a x01_b) x2 MODULUS_BIT_SIZE.

Definition sum3 (k : F * F * F) : F := let '(k0, k1, k2) := k in fadd (fadd k0 k1) k2.

(** What [b2a] draws: the share [res] so far and the mask value. *)
Definition b2a_keys : MPC (Share F * option F) :=
  id <~ get_id ;;
  match id with
  | ID0 => k3 <~ with_bitcomp2 (draw3 gen_fe) ;; mret (mkShare fzero (fopp (sum3 k3)), None)
  | ID1 => k2 <~ with_bitcomp1 (draw3 gen_fe) ;; mret (mkShare (fopp (sum3 k2)) fzero, None)
  | ID2 =>
      k2 <~ with_bitcomp1 (draw3 gen_fe) ;;
      k3 <~ with_bitcomp2 (draw3 gen_fe) ;;
      mret (mkShare (fopp (sum3 k3)) (fopp (sum3 k2)), Some (fadd (sum3 k2) (sum3 k3)))
  end.

(** [val ^ r] at party 2, [r] elsewhere. *)
Definition b2a_masked (r : Z) (val : option F) : Z :=
  match val with Some val => Z.lxor (into_biguint val) r | None => r end.

(** The masked sum is opened to parties 0 and 1. *)
Definition b2a_open (z : BinaryShare) (res : Share F) : MPC (Share F) :=
  id <~ get_id ;;
  match id with
  | ID0 =>
      network (fun id => send_next id (sb z)) ;~
      rcv <~ network (fun id => recv_prev id) ;;
      mret (mkShare (of_Z (Z.lxor (Z.lxor (sa z) (sb z)) rcv)) (sb res))
  | ID1 =>
      rcv <~ network (fun id => recv_prev id) ;;
      mret (mkShare (sa res) (of_Z (Z.lxor (Z.lxor (sa z) (sb z)) rcv)))
  | ID2 => network (fun id => send_next id (sb z)) ;~ mret res
  end.

Definition b2a (x : BinaryShare) : MPC (Share F) :=
  r <~ xor_mask MODULUS_BIT_SIZE ;;
  k <~ b2a_keys ;;
  let y_a := b2a_masked r (snd k) in
  network (fun id => send_next id y_a) ;~
  local_b <~ network (fun id => recv_prev id) ;;
  z <~ low_depth_binary_add_mod_p x (mkShare y_a local_b) MODULUS_BIT_SIZE ;;
  b2a_open z (fst k).

(** The masked sums are opened to parties 0 and 1. *)
Definition b2a_open_many (z : list BinaryShare) (res : list (Share F)) : MPC (list (Share F)) :=
  id <~ get_id ;;
  match id with
  | ID0 =>
      rcv <~ network (fun id => reshare_many id (map sb z)) ;;
      mret (map (fun t => let '(res, rcv, z) := t in mkShare (of_Z (Z.lxor (Z.lxor (sa z) (sb z)) rcv)) (sb res)) (zip (zip res rcv) z))
  | ID1 =>
      rcv <~ network (fun id => recv_many (prev_id id)) ;;
      mret (map (fun t => let '(res, rcv, z) := t in mkShare (sa res) (of_Z (Z.lxor (Z.lxor (sa z) (sb z)) rcv))) (zip (zip res rcv) z))
  | ID2 => network (fun id => send_many (next_id id) (map sb z)) ;~ mret res
  end.

Definition b2a_many (x : list BinaryShare) : MPC (list (Share F)) :=
  r_vec <~ mmap (fun _ => xor_mask MODULUS_BIT_SIZE) x ;;
  k <~ mmap (fun _ => b2a_keys) x ;;
  let y_a := map (fun t => b2a_masked (fst t) (snd (snd t))) (zip r_vec k) in
  y_b <~ network (fun id => reshare_many id y_a) ;;
  z <~ low_depth_binary_add_mod_p_many x (zip_bshares y_a y_b) MODULUS_BIT_SIZE ;;
  b2a_open_many z (map fst k).

(** The bit's summands as three shared values. *)
Definition split_bit (id : PartyID) (x : BinaryShare) : Share F * Share F * Share F :=
  let a := of_Z (sa x) in
  let b := of_Z (sb x) in
  match id with
  | ID0 => (mkShare a fzero, zero_share, mkShare fzero b)
  | ID1 => (mkShare fzero b, mkShare a fzero, zero_share)
  | ID2 => (zero_share, mkShare fzero b, mkShare a fzero)
  end.

Definition bit_inject (x : BinaryShare) : MPC (Share F) :=
  massert (biguint_bits (sa x) <=? 1) ;~
  id <~ get_id ;;
  let '(b0, b1, b2) := split_bit id x in
  d <~ arithmetic_xor b0 b1 ;;
  arithmetic_xor d b2.

Definition bit_inject_many (x : list BinaryShare) : MPC (list (Share F)) :=
  massert (forallb (fun x => biguint_bits (sa x) <=? 1) x) ;~
  id <~ get_id ;;
  let b0 := map (fun x => fst (fst (split_bit id x))) x in
  let b1 := map (fun x => snd (fst (split_bit id x))) x in
  let b2 := map (fun x => snd (split_bit id x)) x in
  d <~ arithmetic_xor_many b0 b1 ;;
  arithmetic_xor_many d b2.

(** ** Comparisons *)

Definition overflow_bit (diff : BinaryShare) : BinaryShare := and_with_public (bshr diff MODULUS_BIT_SIZE) 1.

Definition unsigned_ge (x y : Share F) : MPC BinaryShare :=
  a_bits <~ a2b x ;;
  b_bits <~ a2b y ;;
  diff <~ low_depth_binary_sub a_bits b_bits MODULUS_BIT_SIZE ;;
  mret (overflow_bit diff).
Definition unsigned_ge_many (x y : list BinaryShare) : MPC (list BinaryShare) :=
  diff <~ low_depth_binary_sub_many x y MODULUS_BIT_SIZE ;; mret (map overflow_bit diff).
Definition unsigned_ge_const_lhs (x : F) (y : Share F) : MPC BinaryShare :=
  b_bits <~ a2b y ;;
  diff <~ low_depth_binary_sub_from_const (into_biguint x) b_bits ;;
  mret (overflow_bit diff).
Definition unsigned_ge_const_rhs (x : Share F) (y : F) : MPC BinaryShare :=
  a_bits <~ a2b x ;;
  diff <~ low_depth_binary_sub_by_const a_bits (into_biguint y) ;;
  mret (overflow_bit diff).

Definition ge_bit (lhs rhs : Share F) : MPC BinaryShare := unsigned_ge lhs rhs.
Definition ge_bit_many (lhs rhs : list BinaryShare) : MPC (list BinaryShare) := unsigned_ge_many lhs rhs.
Definition ge_public_bit (lhs : Share F) (rhs : F) : MPC BinaryShare := unsigned_ge_const_rhs lhs rhs.
Definition le_public_bit (lhs : Share F) (rhs : F) : MPC BinaryShare := unsigned_ge_const_lhs rhs lhs.

Definition ge (lhs rhs : Share F) : MPC (Share F) := res <~ ge_bit lhs rhs ;; bit_inject res.
Definition ge_many (lhs rhs : list BinaryShare) : MPC (list (Share F)) := res <~ ge_bit_many lhs rhs ;; bit_inject_many res.
Definition ge_public (lhs : Share F) (rhs : F) : MPC (Share F) := res <~ ge_public_bit lhs rhs ;; bit_inject res.
Definition le_public (lhs : Share F) (rhs : F) : MPC (Share F) := res <~ le_public_bit lhs rhs ;; bit_inject res.

Definition one_minus (tmp : Share F) : MPC (Share F) := id <~ get_id ;; mret (sub_public_by_shared fone tmp id).
Definition lt (lhs rhs : Share F) : MPC (Share F) := tmp <~ ge lhs rhs ;; one_minus tmp.
Definition lt_many (lhs rhs : list BinaryShare) : MPC (list (Share F)) :=
  res <~ ge_many lhs rhs ;; id <~ get_id ;; mret (map (fun tmp => sub_public_by_shared fone tmp id) res).
Definition lt_public (lhs : Share F) (rhs : F) : MPC (Share F) := tmp <~ ge_public lhs rhs ;; one_minus tmp.
Definition le (lhs rhs : Share F) : MPC (Share F) := ge rhs lhs.
Definition gt (lhs rhs : Share F) : MPC (Share F) := tmp <~ le lhs rhs ;; one_minus tmp.
Definition gt_public (lhs : Share F) (rhs : F) : MPC (Share F) := tmp <~ le_public lhs rhs ;; one_minus tmp.

Definition eq_bit (a b : Share F) : MPC BinaryShare :=
  let diff := share_sub a b in
  bits <~ a2b diff ;; bis_zero bits.
Definition eq_bit_many (a b : list (Share F)) : MPC (list BinaryShare) :=
  if negb (Nat.eqb (length a) (length b)) then io_err
  else
    let diff := map (fun t => share_sub (fst t) (snd t)) (zip a b) in
    bits <~ a2b_many diff ;; bis_zero_many bits.
Definition eq (a b : Share F) : MPC (Share F) := is_zero <~ eq_bit a b ;; bit_inject is_zero.
Definition eq_many (a b : list (Share F)) : MPC (list (Share F)) :=
  if negb (Nat.eqb (length a) (length b)) then io_err
  else is_zero <~ eq_bit_many a b ;; bit_inject_many is_zero.
Definition eq_bit_public (shared : Share F) (public : F) : MPC BinaryShare :=
  id <~ get_id ;; eq_bit shared (promote_to_trivial_share id public).
Definition eq_public (shared : Share F) (public : F) : MPC (Share F) := is_zero <~ eq_bit_public shared public ;; bit_inject is_zero.
Definition neq (a b : Share F) : MPC (Share F) := eq <~ eq a b ;; one_minus eq.
Definition neq_public (shared : Share F) (public : F) : MPC (Share F) :=
  id <~ get_id ;; neq shared (promote_to_trivial_share id public).
Definition is_zero (a : Share F) : MPC bool :=
  res <~ eq_bit zero_share a ;; x <~ open_bit res ;; mret (x =? 1).

(** [pow_2_public]: [None] is a panic *)
Definition pow_2_public (shared : Share F) (public : F) : option (Share F) :=
  if is_zero_fe public then Some shared
  else let shift := into_biguint public in
    if 2 ^ 32 <=? shift then None
    else if MODULUS_BIT_SIZE <=? shift then None
    else Some (mul_public shared (of_Z (2 ^ shift))).

End Binary.
