(* ===== verification/Rep3BinCorrect.v ===== *)
(** * Correctness of the binary protocols

    The operations of [Rep3Binary] take shares of their arguments to shares of
    their results, and keep every share within the widths the assertions of the
    code ask for. *)

From Stdlib Require Import ZArith Lia List Bool Ring Btauto.
From stdpp Require Import base list.
From S2P Require Import Prelude Words Field Carry MpcNet Rep3Ctx Rep3Rules Rep3Share Rep3Arith Rep3Correct Rep3Binary.
Import ListNotations.
Local Open Scope Z_scope.
Local Open Scope mpc_scope.

(** ** Binary sharings with shares of [w] bits *)

Definition bshared (w : Z) (s : Tri BinaryShare) (x : Z) : Prop :=
  exists a0 a1 a2, word w a0 /\ word w a1 /\ word w a2 /\ s = shares_of a0 a1 a2 /\ Z.lxor (Z.lxor a0 a1) a2 = x.
Definition bsummands (w : Z) (s : Tri Z) (x : Z) : Prop :=
  word w (t0 s) /\ word w (t1 s) /\ word w (t2 s) /\ Z.lxor (Z.lxor (t0 s) (t1 s)) (t2 s) = x.

(** Identities of bits. *)
Ltac bits := apply Z.bits_inj'; intros ? ?; rewrite ?Z.lxor_spec, ?Z.land_spec, ?Z.lxor_spec, ?Z.land_spec, ?Z.bits_0; btauto.

Ltac open_bshares := repeat match goal with H : bshared _ _ _ |- _ => destruct H as (? & ? & ? & ? & ? & ? & -> & <-) end.


Section Local.
Context (w : Z).
Hypothesis Hw : 0 <= w.

Lemma bshared_word s x : bshared w s x -> word w x.
Proof. intros. open_bshares. auto using bword_lxor. Qed.

Lemma bshared_xor a b x y : bshared w a x -> bshared w b y -> bshared w (tmap2 bxor a b) (Z.lxor x y).
Proof.
  intros. open_bshares. cbn. eexists _, _, _. split_and!; [..|reflexivity|cbn; bits]; cbn; by apply bword_lxor.
Qed.

Lemma bshared_public m : word w m -> bshared w (with_ids (fun _ id => bpromote_to_trivial_share id m) (tpure tt)) m.
Proof.
  intros. exists m, 0, 0. assert (word w 0) by (unfold word; lia). split_and!; [done..|reflexivity|]. by rewrite !Z.lxor_0_r.
Qed.

Lemma bshared_xor_public a x m : bshared w a x -> word w m -> bshared w (with_ids (fun s => xor_public s m) a) (Z.lxor x m).
Proof. intros. open_bshares. cbn. eexists _, _, _. split_and!; [..|reflexivity|cbn; bits]; cbn; auto using bword_lxor. Qed.

Lemma bshared_xor_all a x m : bshared w a x -> word w m -> bshared w (tmap (fun s => bxor_all s m) a) (Z.lxor x m).
Proof. intros. open_bshares. cbn. eexists _, _, _. split_and!; [..|reflexivity|cbn; bits]; cbn; auto using bword_lxor. Qed.

Lemma bshared_land a x m : bshared w a x -> 0 <= m -> bshared w (tmap (fun s => and_with_public s m) a) (Z.land x m).
Proof. intros. open_bshares. cbn. eexists _, _, _. split_and!; [..|reflexivity|cbn; bits]; cbn; auto using bword_land. Qed.

Lemma bshared_shr a x n : 0 <= n <= w -> bshared w a x -> bshared (w - n) (tmap (fun s => bshr s n) a) (Z.shiftr x n).
Proof.
  intros. open_bshares. cbn. eexists _, _, _. split_and!; [..|reflexivity|cbn; by rewrite !Z.shiftr_lxor]; cbn; auto using word_shiftr.
Qed.

Lemma bshared_shl a x n : 0 <= n -> bshared w a x -> bshared (w + n) (tmap (fun s => bshl s n) a) (Z.shiftl x n).
Proof.
  intros. open_bshares. cbn. eexists _, _, _. split_and!; [..|reflexivity|cbn; by rewrite !Z.shiftl_lxor]; cbn; auto using word_shiftl.
Qed.

Lemma bshared_weaken w' a x : w <= w' -> bshared w a x -> bshared w' a x.
Proof. intros. open_bshares. eexists _, _, _. split_and!; [..|reflexivity|done]; eauto using word_weaken. Qed.

(** The local product. *)
Lemma band_local_summands w' a b x y : bshared w a x -> bshared w' b y -> bsummands w (tmap2 band_local a b) (Z.land x y).
Proof.
  intros. open_bshares. unfold bsummands, band_local. cbn. split_and!; [eauto 10 with words..|bits].
Qed.

Lemma bsummands_masked s m x : bsummands w s x -> bsummands w m 0 -> bsummands w (tmap2 Z.lxor s m) x.
Proof.
  intros (S0 & S1 & S2 & <-) (M0 & M1 & M2 & E). unfold bsummands. cbn. split_and!; [by apply bword_lxor..|].
  transitivity (Z.lxor (Z.lxor (Z.lxor (t0 s) (t1 s)) (t2 s)) (Z.lxor (Z.lxor (t0 m) (t1 m)) (t2 m))); [bits|]. by rewrite E, Z.lxor_0_r.
Qed.

Lemma masked_and w' a b m x y : bshared w a x -> bshared w' b y -> bsummands w m 0 ->
  bsummands w (mkTri (Z.lxor (band_local (t0 a) (t0 b)) (t0 m)) (Z.lxor (band_local (t1 a) (t1 b)) (t1 m))
                     (Z.lxor (band_local (t2 a) (t2 b)) (t2 m))) (Z.land x y).
Proof. intros Ha Hb Hm. exact (bsummands_masked _ _ _ (band_local_summands w' a b x y Ha Hb) Hm). Qed.

End Local.

Lemma bshared_mask w k a x : 0 <= w -> 0 <= k -> bshared w a x ->
  bshared k (tmap (fun s => and_with_public s (Z.shiftl 1 k - 1)) a) (Z.land x (Z.shiftl 1 k - 1)).
Proof.
  intros Hw Hk H. open_bshares. cbn. eexists _, _, _.
  split_and!; [..|reflexivity|cbn; bits]; cbn; eauto with words.
Qed.

Lemma biguint_bits_word w z : 0 <= w -> word w z -> biguint_bits z <= w.
Proof.
  intros Hw [H0 H1]. unfold biguint_bits. destruct (Z.eqb_spec z 0); [done|]. apply Z.log2_lt_pow2 in H1; lia.
Qed.

(** ** Protocols *)

Section Protocols.
Context {F : Type} `{JF : JoltField F} `{PF : !PrimeField F} `{RO : !RngOps F} `{B : Build}.

Lemma xor_mask_spec w : 0 <= w -> protocol (tpure (xor_mask w)) (fun r => bsummands w r 0).
Proof.
  intros Hw. unfold xor_mask. eapply protocol_bind.
  - apply (protocol_draw (gen_biguint w) (word w)). intros r. by apply gen_biguint_range.
  - intros p0 p1 p2 (a & b & d & Ha & Hb & Hd & [= -> -> ->]). apply protocol_ret'. unfold bsummands. cbn.
    split_and!; [by apply bword_lxor..|bits].
Qed.

Lemma bshared_reshared w l0 l1 l2 x : bsummands w (mkTri l0 l1 l2) x -> bshared w (shares_of l0 l1 l2) x.
Proof. intros (H0 & H1 & H2 & H). by exists l0, l1, l2. Qed.

Lemma size_ok w n a x : 0 <= w <= n -> bshared w a x ->
  (biguint_bits (sa (t0 a)) <=? n) = true /\ (biguint_bits (sa (t1 a)) <=? n) = true /\ (biguint_bits (sa (t2 a)) <=? n) = true.
Proof.
  intros Hw H. open_bshares. cbn. split_and!; apply Z.leb_le; (eapply Z.le_trans; [apply (biguint_bits_word w); [lia|eassumption]|lia]).
Qed.

(** The assertion on the size of a share holds, or is not compiled in. *)
Lemma protocol_size {T} w n a x (m0 m1 m2 : MPC T) Q : 0 <= w -> w <= n \/ debug_assertions = false -> bshared w a x ->
  protocol (mkTri m0 m1 m2) Q ->
  protocol (mkTri (mdebug_assert (biguint_bits (sa (t0 a)) <=? n) ;~ m0)
                  (mdebug_assert (biguint_bits (sa (t1 a)) <=? n) ;~ m1)
                  (mdebug_assert (biguint_bits (sa (t2 a)) <=? n) ;~ m2)) Q.
Proof.
  intros Hw [Hn|Hd] H Hm.
  - destruct (size_ok w n a x (conj Hw Hn) H) as (H0 & H1 & H2). by apply protocol_assert.
  - unfold mdebug_assert. rewrite Hd. eapply protocol_bind; [|intros ? ? ? _; exact Hm]. by apply (protocol_ret' tt tt tt (fun _ => True)).
Qed.

Abbreviation n := (@MODULUS_BIT_SIZE F JF PF).

Lemma n_pos : 1 < n.
Proof. apply MODULUS_range. Qed.

Lemma n_nonneg : 0 <= n.
Proof. pose proof n_pos. lia. Qed.

Lemma and_spec w a b x y : 0 <= w <= n -> bshared w a x -> bshared w b y ->
  protocol (tmap2 and a b) (fun r => bshared n r (Z.land x y)).
Proof.
  intros Hw Ha Hb. pose proof n_pos. unfold tmap2, and. apply (protocol_size w n a x); [lia|left; lia|done|].
  apply (protocol_size w n b y); [lia|left; lia|done|].
  eapply protocol_bind; [apply (xor_mask_spec n); lia|]. intros m0 m1 m2 Hm.
  eapply protocol_bind; [apply protocol_reshare|]. intros b0 b1 b2 [= -> -> ->]. apply protocol_ret', bshared_reshared.
  exact (masked_and n n_nonneg w a b _ x y (bshared_weaken w _ _ _ (proj2 Hw) Ha) Hb Hm).
Qed.

Lemma or_spec w a b x y : 0 <= w <= n -> bshared w a x -> bshared w b y ->
  protocol (tmap2 or a b) (fun r => bshared n r (Z.lor x y)).
Proof.
  intros Hw Ha Hb. pose proof n_pos. eapply protocol_bind; [exact (and_spec w a b x y Hw Ha Hb)|]. intros r0 r1 r2 Hr. apply protocol_ret'.
  replace (Z.lor x y) with (Z.lxor (Z.lxor x y) (Z.land x y)) by (apply Z.bits_inj'; intros ? ?; rewrite Z.lor_spec, !Z.lxor_spec, Z.land_spec; btauto).
  apply (bshared_xor n n_nonneg (tmap2 bxor a b) (mkTri r0 r1 r2)); [|done]. apply (bshared_weaken w); [lia|]. by apply bshared_xor; [lia|..].
Qed.

Lemma bcmux_spec w c a b z x y : 0 <= w <= n -> bshared w c z -> bshared w a x -> bshared w b y ->
  protocol (mkTri (bcmux (t0 c) (t0 a) (t0 b)) (bcmux (t1 c) (t1 a) (t1 b)) (bcmux (t2 c) (t2 a) (t2 b)))
    (fun r => bshared n r (Z.lxor (Z.land z (Z.lxor y x)) y)).
Proof.
  intros Hw Hc Ha Hb. pose proof n_pos. eapply protocol_bind.
  - exact (and_spec w c (tmap2 bxor b a) z (Z.lxor y x) Hw Hc (bshared_xor w ltac:(lia) _ _ _ _ Hb Ha)).
  - intros r0 r1 r2 Hr. apply protocol_ret'. apply (bshared_xor n n_nonneg (mkTri r0 r1 r2) b); [done|].
    apply (bshared_weaken w); [lia|done].
Qed.

Lemma bopen_spec w a x : bshared w a x -> protocol (tmap bopen a) (fun r => revealed r x).
Proof.
  intros. open_bshares. eapply protocol_bind; [apply protocol_reshare|]. intros c0 c1 c2 [= -> -> ->]. cbn [t0 t1 t2].
  apply protocol_ret'. unfold revealed, tpure. cbn. f_equal; bits.
Qed.

(** ** The adder *)

Lemma band_local_comm a b : band_local a b = band_local b a.
Proof. unfold band_local. bits. Qed.

(** The first argument may be wider, where its assertion is not compiled in. *)
Lemma and_twice_spec wa w a b1 b2 x y1 y2 : 0 <= w -> 0 <= wa -> wa <= w \/ debug_assertions = false ->
  bshared wa a x -> bshared w b1 y1 -> bshared w b2 y2 ->
  protocol (mkTri (and_twice (t0 a) (t0 b1) (t0 b2) w) (and_twice (t1 a) (t1 b1) (t1 b2) w) (and_twice (t2 a) (t2 b1) (t2 b2) w))
    (fun r => bshared w (tmap fst r) (Z.land y1 x) /\ bshared w (tmap snd r) (Z.land x y2)).
Proof.
  intros Hw Hwa Hd Ha H1 H2. unfold and_twice. apply (protocol_size wa w a x); [done..|].
  apply (protocol_size w w b1 y1); [lia..|done|]. apply (protocol_size w w b2 y2); [lia..|done|].
  eapply protocol_bind; [apply (xor_mask_spec w); lia|]. intros m0 m1 m2 Hm.
  eapply protocol_bind; [apply (xor_mask_spec w); lia|]. intros k0 k1 k2 Hk.
  apply protocol_exchange. apply protocol_ret'. split; apply bshared_reshared.
  - exact (masked_and w Hw wa b1 a _ y1 x H1 Ha Hm).
  - rewrite (band_local_comm (t0 a)), (band_local_comm (t1 a)), (band_local_comm (t2 a)), Z.land_comm. exact (masked_and w Hw wa b2 a _ y2 x H2 Ha Hk).
Qed.

Lemma kogge_stone_loop_spec d : forall wp i bitlen p g x y, 0 <= i -> (forall k, i <= k < i + Z.of_nat d -> 2 ^ k < bitlen) ->
  bitlen <= wp -> wp <= bitlen \/ debug_assertions = false -> bshared wp p x -> bshared bitlen g y ->
  protocol (tmap2 (kogge_stone_loop d i bitlen) p g) (fun r => bshared bitlen r (ks_loop d i bitlen x y)).
Proof.
  induction d as [|d IH]; intros wp i bitlen p g x y Hi Hk Hle Hd Hp Hg.
  - destruct g. by apply protocol_ret'.
  - cbn [kogge_stone_loop ks_loop tmap2]. rewrite Z.shiftl_1_l. set (s := 2 ^ i). fold (ks_mask bitlen s).
    assert (Hs : 0 < s < bitlen) by (specialize (Hk i ltac:(lia)); lia).
    eapply protocol_bind.
    + refine (and_twice_spec (wp - s) (bitlen - s) (tmap (fun p => bshr p s) p) (tmap (fun g => and_with_public g (ks_mask bitlen s)) g)
        (tmap (fun p => and_with_public p (ks_mask bitlen s)) p) _ _ _ _ _ _ (bshared_shr wp _ _ s _ Hp) (bshared_mask bitlen _ _ _ _ _ Hg)
        (bshared_mask wp _ _ _ _ _ Hp)); try lia. destruct Hd; [left; lia|by right].
    + intros r0 r1 r2 [H1 H2]. apply (IH bitlen (i + 1) bitlen (tmap (fun r => bshl (snd r) s) (mkTri r0 r1 r2))
        (tmap2 bxor g (tmap (fun r => bshl (fst r) s) (mkTri r0 r1 r2)))); [lia|intros k ?; apply Hk; lia|lia|left; lia|..].
      * replace bitlen with (bitlen - s + s) at 1 by lia. exact (bshared_shl (bitlen - s) ltac:(lia) _ _ s ltac:(lia) H2).
      * apply bshared_xor; [lia|done|]. replace bitlen with (bitlen - s + s) at 1 by lia.
        exact (bshared_shl (bitlen - s) ltac:(lia) _ _ s ltac:(lia) H1).
Qed.

Lemma kogge_stone_inner_wide bitlen wp p g x y : 0 < bitlen -> bitlen <= wp <= bitlen + 1 -> wp <= bitlen \/ debug_assertions = false ->
  bshared wp p x -> bshared bitlen g y ->
  protocol (tmap2 (fun p g => kogge_stone_inner p g bitlen) p g) (fun r => bshared (bitlen + 1) r (ks_sum bitlen x y)).
Proof.
  intros Hb Hle Hd Hp Hg. eapply protocol_bind.
  - apply (kogge_stone_loop_spec (ceil_log2 bitlen) wp 0 bitlen p g x y); [lia| |lia|done..]. intros k Hk. apply ceil_log2_lower. lia.
  - intros g0 g1 g2 Hr. apply protocol_ret'.
    apply (bshared_xor (bitlen + 1) ltac:(lia) (tmap (fun g => bshl g 1) (mkTri g0 g1 g2)) p).
    + by apply bshared_shl; [lia..|].
    + by apply (bshared_weaken wp); [lia|].
Qed.

Lemma kogge_stone_inner_spec bitlen p g x y : 0 < bitlen -> bshared bitlen p x -> bshared bitlen g y ->
  protocol (tmap2 (fun p g => kogge_stone_inner p g bitlen) p g) (fun r => bshared (bitlen + 1) r (ks_sum bitlen x y)).
Proof. intros Hb. apply kogge_stone_inner_wide; lia. Qed.

Lemma low_depth_binary_add_spec a b x y : bshared n a x -> bshared n b y ->
  protocol (tmap2 (fun a b => low_depth_binary_add a b n) a b) (fun r => bshared (n + 1) r (x + y)).
Proof.
  intros Ha Hb. pose proof n_pos. pose proof (bshared_word n n_nonneg _ _ Ha). pose proof (bshared_word n n_nonneg _ _ Hb).
  eapply protocol_bind; [exact (and_spec n a b x y ltac:(lia) Ha Hb)|]. intros g0 g1 g2 Hg.
  eapply protocol_weaken; [exact (kogge_stone_inner_spec n (tmap2 bxor a b) _ _ _ ltac:(lia) (bshared_xor n n_nonneg _ _ _ _ Ha Hb) Hg)|].
  intros r Hr. replace (x + y) with (ks_sum n (Z.lxor x y) (Z.land x y)); [done|].
  pose proof (ks_sum_add n x y false) as E. cbn [Z.b2z] in E. rewrite !Z.lxor_0_r, Z.add_0_r in E. apply E; [lia|done..].
Qed.

(** Subtraction by the complement. *)
Lemma lxor_mask w x : 0 <= w -> word w x -> Z.lxor x (Z.shiftl 1 w - 1) = 2 ^ w - 1 - x.
Proof.
  intros Hw Hx. assert (E : x + Z.lxor x (Z.shiftl 1 w - 1) = Z.shiftl 1 w - 1).
  { rewrite Z.add_nocarry_lxor.
    - bits.
    - apply Z.bits_inj'. intros m Hm. rewrite Z.land_spec, Z.lxor_spec, tb_mask, Z.bits_0 by done.
      destruct (Z.ltb_spec m w); [|by rewrite (bword_high w x m)]. rewrite (proj2 (Z.leb_le 0 m)) by done. btauto. }
  rewrite Z.shiftl_1_l in *. lia.
Qed.

Lemma ks_sum_sub w x y : 0 < w -> word w x -> word w y ->
  let y' := Z.lxor y (Z.shiftl 1 w - 1) in
  Z.lxor (ks_sum w (Z.lxor x y') (Z.lxor (Z.land x y') (Z.land (Z.lxor x y') 1))) 1 = 2 ^ w + x - y.
Proof.
  intros Hw Hx Hy y'. assert (Hy' : word w y') by (apply bword_lxor; [lia|done|apply word_mask; lia]).
  pose proof (ks_sum_add w x y' true Hw Hx Hy') as E. cbn [Z.b2z] in E. rewrite E. unfold y'. rewrite lxor_mask by (done || lia). lia.
Qed.

Lemma with_ids_shared w a x m : 0 <= w -> word w m -> bshared w a x ->
  bshared w (mkTri (xor_public (t0 a) m ID0) (xor_public (t1 a) m ID1) (xor_public (t2 a) m ID2)) (Z.lxor x m).
Proof. intros. by apply (bshared_xor_public w). Qed.

Lemma low_depth_binary_sub_spec a b x y : bshared n a x -> bshared n b y ->
  protocol (tmap2 (fun a b => low_depth_binary_sub a b n) a b) (fun r => bshared (n + 1) r (2 ^ n + x - y)).
Proof.
  intros Ha Hb. pose proof n_pos. pose proof (bshared_word n n_nonneg _ _ Ha). pose proof (bshared_word n n_nonneg _ _ Hb).
  apply protocol_id. pose proof (with_ids_shared n b y _ n_nonneg (word_mask n n_nonneg) Hb) as Hb'.
  set (y' := Z.lxor y (Z.shiftl 1 n - 1)) in *.
  eapply protocol_bind; [exact (and_spec n a _ x y' ltac:(lia) Ha Hb')|]. intros g0 g1 g2 Hg.
  pose proof (bshared_xor n n_nonneg _ _ _ _ Ha Hb') as Hp.
  pose proof (bshared_xor n n_nonneg _ _ _ _ Hg (bshared_land n n_nonneg _ _ 1 Hp ltac:(lia))) as Hg'.
  eapply protocol_bind; [exact (kogge_stone_inner_spec n _ _ _ _ ltac:(lia) Hp Hg')|]. intros r0 r1 r2 Hr. apply protocol_ret'.
  rewrite <- (ks_sum_sub n x y) by (done || lia). apply (with_ids_shared (n + 1) (mkTri r0 r1 r2)); [lia| |done]. unfold word. pose proof (Z.pow_gt_1 2 (n + 1)). lia.
Qed.

Abbreviation p := (@MODULUS F JF PF).

Lemma low_depth_binary_sub_p_spec a x : bshared (n + 1) a x ->
  protocol (tmap (fun a => low_depth_binary_sub_p a (n + 1)) a) (fun r => bshared (n + 2) r (x + 2 ^ (n + 1) - p)).
Proof.
  intros Ha. pose proof n_pos. pose proof (MODULUS_range (F := F)). pose proof (bshared_word (n + 1) ltac:(lia) _ _ Ha) as Hx.
  apply protocol_id. rewrite Z.shiftl_1_l. set (p_ := 2 ^ (n + 1) - p).
  assert (Hp_ : word (n + 1) p_) by (unfold p_, word; rewrite Z.pow_add_r by lia; lia).
  eapply protocol_weaken.
  - exact (kogge_stone_inner_spec (n + 1) _ _ _ _ ltac:(lia) (with_ids_shared (n + 1) a x p_ ltac:(lia) Hp_ Ha)
      (bshared_land (n + 1) ltac:(lia) a x p_ Ha (proj1 Hp_))).
  - intros r Hr. replace (n + 2) with (n + 1 + 1) by lia. replace (x + 2 ^ (n + 1) - p) with (x + p_) by (unfold p_; lia).
    pose proof (ks_sum_add (n + 1) x p_ false ltac:(lia) Hx Hp_) as E. cbn [Z.b2z] in E. rewrite !Z.lxor_0_r, Z.add_0_r in E. by rewrite <- E.
Qed.

(** One bit shared, spread over [n] bits. *)
Lemma spread_one v mask : word 1 v -> spread v mask = if v =? 1 then mask else 0.
Proof. unfold word, spread. intros Hv. assert (v = 0 \/ v = 1) as [-> | ->] by lia; done. Qed.

Lemma bshared_spread a b mask : bshared 1 a b -> word n mask ->
  bshared n (tmap (fun s => mkShare (spread (sa s) mask) (spread (sb s) mask)) a) (if b =? 1 then mask else 0).
Proof.
  intros (a0 & a1 & a2 & H0 & H1 & H2 & -> & <-) Hm.
  assert (Hw : forall v, word 1 v -> word n (spread v mask)).
  { intros v Hv. rewrite spread_one by done. destruct (v =? 1); [done|]. pose proof n_pos. unfold word. lia. }
  exists (spread a0 mask), (spread a1 mask), (spread a2 mask). split_and!; [by apply Hw..|reflexivity|]. rewrite !spread_one by done. unfold word in *.
  repeat match goal with H : 0 <= ?v < 2 ^ 1 |- _ => assert (v = 0 \/ v = 1) as [-> | ->] by lia; clear H end; cbn;
    rewrite ?Z.lxor_0_r, ?Z.lxor_nilpotent, ?Z.lxor_0_l; done.
Qed.

(** The choice between [x] and [x - p]. *)
Lemma sub_p_select x : word (n + 1) x -> x < 2 * p ->
  let m := Z.shiftl 1 n - 1 in let y := x + 2 ^ (n + 1) - p in
  Z.lxor (Z.land (if Z.shiftr y (n + 1) =? 1 then m else 0) (Z.lxor (Z.land x m) (Z.land y m))) (Z.land x m) = x mod p.
Proof.
  intros Hx Hlt m y. pose proof n_pos. pose proof (MODULUS_range (F := F)) as [_ Hp]. unfold word in Hx.
  assert (E2 : 2 ^ (n + 1) = 2 * 2 ^ n) by (rewrite Z.pow_add_r by lia; lia).
  assert (Em : forall z, Z.land z m = z mod 2 ^ n) by (intros z; unfold m; rewrite Z.shiftl_1_l, Z.sub_1_r, <- Z.ones_equiv, Z.land_ones; lia).
  rewrite Z.shiftr_div_pow2 by lia. destruct (Z.le_gt_cases p x) as [Hge|Hge].
  - replace (y / 2 ^ (n + 1) =? 1) with true by (symmetry; apply Z.eqb_eq; symmetry; unfold y; apply Z.div_unique with (r := x - p); lia).
    replace (Z.lxor (Z.land m (Z.lxor (Z.land x m) (Z.land y m))) (Z.land x m)) with (Z.land y m) by bits.
    rewrite Em. replace (x mod p) with (x - p) by (apply Z.mod_unique with (q := 1); lia).
    symmetry. apply Z.mod_unique with (q := 2); unfold y; lia.
  - replace (y / 2 ^ (n + 1) =? 1) with false by (symmetry; apply Z.eqb_neq; unfold y; rewrite Z.div_small; lia).
    rewrite Z.land_0_l, Z.lxor_0_l, Em, !Z.mod_small; lia.
Qed.

Lemma low_depth_sub_p_cmux_spec a x : bshared (n + 1) a x -> x < 2 * p ->
  protocol (tmap (fun a => low_depth_sub_p_cmux a (n + 1)) a) (fun r => bshared n r (x mod p)).
Proof.
  intros Ha Hlt. pose proof n_pos. pose proof (bshared_word (n + 1) ltac:(lia) _ _ Ha) as Hx.
  eapply protocol_bind; [exact (low_depth_binary_sub_p_spec a x Ha)|]. intros y0 y1 y2 Hy.
  replace (n + 1 - 1) with n by lia.
  pose proof (bshared_shr (n + 2) _ _ (n + 1) ltac:(lia) Hy) as Hmsb. replace (n + 2 - (n + 1)) with 1 in Hmsb by lia.
  pose proof (bshared_spread _ _ _ Hmsb (word_mask n n_nonneg)) as Hov. rewrite <- (sub_p_select x Hx Hlt).
  exact (bcmux_spec n _ _ _ _ _ _ ltac:(lia) Hov (bshared_mask (n + 2) n _ _ ltac:(lia) n_nonneg Hy) (bshared_mask (n + 1) n _ _ ltac:(lia) n_nonneg Ha)).
Qed.

Lemma add_mod_p_spec a b x y : bshared n a x -> bshared n b y -> x < p -> y < p ->
  protocol (tmap2 (fun a b => low_depth_binary_add_mod_p a b n) a b) (fun r => bshared n r ((x + y) mod p)).
Proof.
  intros Ha Hb Hx Hy. eapply protocol_bind; [exact (low_depth_binary_add_spec a b x y Ha Hb)|]. intros s0 s1 s2 Hs.
  apply (low_depth_sub_p_cmux_spec (mkTri s0 s1 s2)); [done|lia].
Qed.

(** ** Conversions *)

Add Ring F_ring_bin : F_ring.

Lemma into_biguint_add (x y : F) : into_biguint (fadd x y) = (into_biguint x + into_biguint y) mod p.
Proof. rewrite <- (of_Z_into_biguint x), <- (of_Z_into_biguint y) at 1. by rewrite <- of_Z_add, into_biguint_of_Z. Qed.

Lemma into_biguint_word (x : F) : word n (into_biguint x).
Proof. pose proof (into_biguint_range x). pose proof (MODULUS_range (F := F)). unfold word. lia. Qed.

Lemma of_Z_mod z : of_Z (z mod p) = (of_Z z : F).
Proof. by rewrite <- (of_Z_into_biguint (of_Z z)), into_biguint_of_Z. Qed.

Lemma word_0 w : 0 <= w -> word w 0.
Proof. unfold word. lia. Qed.

Lemma bsummands_put w m0 m1 m2 v : 0 <= w -> bsummands w (mkTri m0 m1 m2) 0 -> word w v ->
  bshared w (shares_of m0 (Z.lxor v m1) m2) v /\ bshared w (shares_of m0 m1 (Z.lxor v m2)) v.
Proof.
  intros Hw (H0 & H1 & H2 & E) Hv. cbn in *. split; eexists _, _, _; (split_and!; [..|reflexivity|]; [eauto using bword_lxor..|]).
  - transitivity (Z.lxor v (Z.lxor (Z.lxor m0 m1) m2)); [bits|]. by rewrite E, Z.lxor_0_r.
  - transitivity (Z.lxor v (Z.lxor (Z.lxor m0 m1) m2)); [bits|]. by rewrite E, Z.lxor_0_r.
Qed.

Lemma a2b_spec a x : shared a x -> protocol (tmap a2b a) (fun r => bshared n r (into_biguint x)).
Proof.
  intros (a0 & a1 & a2 & -> & <-). unfold tmap, a2b. cbn [shares_of t0 t1 t2 sa sb].
  eapply protocol_bind; [exact (xor_mask_spec n n_nonneg)|]. intros m0 m1 m2 Hm. apply protocol_id, protocol_exchange.
  replace (fadd a0 a1) with (fadd a1 a0) by ring. rewrite (into_biguint_add (fadd a1 a0) a2).
  destruct (bsummands_put n m0 m1 m2 _ n_nonneg Hm (into_biguint_word (fadd a1 a0))) as [H01 _].
  assert (H2 : bshared n (shares_of 0 0 (into_biguint a2)) (into_biguint a2)).
  { exists 0, 0, (into_biguint a2). split_and!; [by apply word_0, n_nonneg..|apply into_biguint_word|done|done]. }
  exact (add_mod_p_spec _ _ _ _ H01 H2 (proj2 (into_biguint_range _)) (proj2 (into_biguint_range _))).
Qed.

(** The keys of two parties draw the same elements. *)
Lemma b2a_keys_spec : protocol (tpure b2a_keys) (fun r => exists k2 k3 : F,
  r = mkTri (mkShare fzero (fopp k3), None) (mkShare (fopp k2) fzero, None) (mkShare (fopp k3) (fopp k2), Some (fadd k2 k3))).
Proof.
  intros c [H0 H1 H2 R0 R1 R2 (a & b & d & B1 & B2) (a' & b' & d' & C1 & C2) T].
  destruct c as [[i0 [q0 p0 p0'] s0 e0] [i1 [q1 p1 p1'] s1 e1] [i2 [q2 p2 p2'] s2 e2]]. cbn in *. subst.
  unfold protocol_at, exec, b2a_keys, mbind, mret, get_id, with_bitcomp1, with_bitcomp2, draw3. cbn.
  destruct (gen_fe a) as [u1 a1], (gen_fe b) as [u2 b1], (gen_fe d) as [u3 d1], (gen_fe a') as [v1 a1'] eqn:Ea,
    (gen_fe b') as [v2 b1'] eqn:Eb, (gen_fe d') as [v3 d1'] eqn:Ed.
  set (k2 := fadd (fadd u1 u2) u3). set (k3 := fadd (fadd v1 v2) v3).
  exists (mkTri (mkShare fzero (fopp k3), None) (mkShare (fopp k2) fzero, None) (mkShare (fopp k3) (fopp k2), Some (fadd k2 k3))),
    (mkTri (mkIo ID0 (mkCorrelated q0 p0 (mkBitComp a1' b1' (Some d1'))) s0 e0) (mkIo ID1 (mkCorrelated q1 (mkBitComp a1 b1 (Some d1)) p1') s1 e1)
           (mkIo ID2 (mkCorrelated q2 (mkBitComp b1 d1 (Some a1)) (mkBitComp d1' a1' (Some b1'))) s2 e2)).
  split; [|split; [|by exists k2, k3]].
  - exists []. cbn. assert (E2 : fadd (fadd u2 u3) u1 = k2) by (unfold k2; ring).
    assert (E3 : fadd (fadd v3 v1) v2 = k3) by (unfold k3; ring). rewrite Ea, Eb, Ed. cbn. by rewrite E2, E3.
  - split; try done; [by exists a1, b1, d1|by exists a1', b1', d1'].
Qed.

Lemma b2a_open_spec z v r0 r1 r2 : bshared n z v ->
  protocol (mkTri (b2a_open (t0 z) r0) (b2a_open (t1 z) r1) (b2a_open (t2 z) r2))
    (fun r => r = mkTri (mkShare (of_Z v) (sb r0)) (mkShare (sa r1) (of_Z v)) r2).
Proof.
  intros (z0 & z1 & z2 & _ & _ & _ & -> & <-) c Hc. eexists _, c. split; [|split; [done|reflexivity]].
  pose proof (sy_id0 _ Hc) as I0. pose proof (sy_id1 _ Hc) as I1. pose proof (sy_id2 _ Hc) as I2. clear Hc.
  destruct c as [[i0 q0 s0 e0] [i1 q1 s1 e1] [i2 q2 s2 e2]]. cbn in I0, I1, I2. subst.
  unfold exec, b2a_open, mbind, get_id, network. exists [ID0; ID2; ID0; ID1].
  do 4 (cbn -[serialize deserialize]; rewrite ?deserialize_serialize). unfold final, tmap2, mret. cbn.
  replace (Z.lxor (Z.lxor z0 z2) z1) with (Z.lxor (Z.lxor z0 z1) z2) by bits.
  by replace (Z.lxor (Z.lxor z1 z0) z2) with (Z.lxor (Z.lxor z0 z1) z2) by bits.
Qed.

Lemma b2a_spec a x : bshared n a x -> x < p -> protocol (tmap b2a a) (fun r => shared r (of_Z x)).
Proof.
  intros Ha Hx. unfold tmap, b2a. eapply protocol_bind; [exact (xor_mask_spec n n_nonneg)|]. intros m0 m1 m2 Hm.
  eapply protocol_bind; [exact b2a_keys_spec|]. intros ? ? ? (k2 & k3 & [= -> -> ->]). cbn [fst snd b2a_masked]. apply protocol_exchange.
  destruct (bsummands_put n m0 m1 m2 _ n_nonneg Hm (into_biguint_word (fadd k2 k3))) as [_ Hy].
  eapply protocol_bind; [exact (add_mod_p_spec a _ _ _ Ha Hy Hx (proj2 (into_biguint_range _)))|]. intros z0 z1 z2 Hz.
  eapply protocol_weaken; [exact (b2a_open_spec (mkTri z0 z1 z2) _ _ _ _ Hz)|]. intros r ->. cbn.
  rewrite of_Z_mod, of_Z_add, of_Z_into_biguint. eexists _, _, _. split; [reflexivity|]. cbn. ring.
Qed.

Lemma bit_cases v : word 1 v -> v = 0 \/ v = 1.
Proof. unfold word. lia. Qed.

Lemma of_Z_xor u v : word 1 u -> word 1 v ->
  fsub (fadd (of_Z u) (of_Z v)) (fadd (fmul (of_Z u) (of_Z v)) (fmul (of_Z u) (of_Z v))) = (of_Z (Z.lxor u v) : F).
Proof.
  intros Hu Hv. destruct (bit_cases u Hu) as [-> | ->], (bit_cases v Hv) as [-> | ->]; cbn; rewrite ?of_Z_0, ?of_Z_1; ring.
Qed.

(** The three summands, each shared. *)
Lemma split_bit_shared a0 a1 a2 :
  let s := mkTri (split_bit ID0 (mkShare a0 a2)) (split_bit ID1 (mkShare a1 a0)) (split_bit ID2 (mkShare a2 a1)) in
  shared (tmap (fun t => fst (fst t)) s) (of_Z a0 : F) /\ shared (tmap (fun t => snd (fst t)) s) (of_Z a1) /\ shared (tmap snd s) (of_Z a2).
Proof. cbn. split_and!; eexists _, _, _; (split; [reflexivity|]); ring. Qed.

Lemma bit_inject_spec a x : bshared 1 a x -> protocol (tmap bit_inject a) (fun r => shared r (of_Z x : F)).
Proof.
  intros H. pose proof (size_ok 1 1 a x ltac:(lia) H) as (S0 & S1 & S2). destruct H as (a0 & a1 & a2 & H0 & H1 & H2 & -> & <-).
  unfold tmap, bit_inject, massert. rewrite S0, S1, S2. cbn [shares_of t0 t1 t2].
  eapply protocol_bind; [by apply (protocol_ret' tt tt tt (fun _ => True))|]. intros ? ? ? _. apply protocol_id.
  destruct (split_bit_shared a0 a1 a2) as (B0 & B1 & B2). cbn [split_bit].
  eapply protocol_bind; [exact (arithmetic_xor_spec _ _ _ _ B0 B1)|]. intros d0 d1 d2 Hd. rewrite of_Z_xor in Hd by done.
  eapply protocol_weaken; [exact (arithmetic_xor_spec _ _ _ _ Hd B2)|]. intros r. rewrite of_Z_xor; [done| |done]. apply bword_lxor; [lia|done..].
Qed.

(** ** Comparisons *)

Lemma overflow_bit_spec a x y : bshared (n + 1) a (2 ^ n + x - y) -> word n x -> word n y ->
  bshared 1 (tmap overflow_bit a) (Z.b2z (y <=? x)).
Proof.
  intros Ha Hx Hy. pose proof n_pos. pose proof (bshared_shr (n + 1) _ _ n ltac:(lia) Ha) as H1. replace (n + 1 - n) with 1 in H1 by lia.
  pose proof (bshared_land 1 ltac:(lia) _ _ 1 H1 ltac:(lia)) as H2. unfold word in *.
  replace (Z.b2z (y <=? x)) with (Z.land (Z.shiftr (2 ^ n + x - y) n) 1); [exact H2|].
  rewrite Z.shiftr_div_pow2 by lia. destruct (Z.leb_spec y x).
  - replace ((2 ^ n + x - y) / 2 ^ n) with 1; [done|]. apply Z.div_unique with (r := x - y); lia.
  - rewrite Z.div_small by lia. done.
Qed.

Lemma unsigned_ge_spec a b x y : shared a x -> shared b y ->
  protocol (tmap2 unsigned_ge a b) (fun r => bshared 1 r (Z.b2z (into_biguint y <=? into_biguint x))).
Proof.
  intros Ha Hb. eapply protocol_bind; [exact (a2b_spec a x Ha)|]. intros u0 u1 u2 Hu.
  eapply protocol_bind; [exact (a2b_spec b y Hb)|]. intros v0 v1 v2 Hv.
  eapply protocol_bind; [exact (low_depth_binary_sub_spec _ _ _ _ Hu Hv)|]. intros d0 d1 d2 Hd. apply protocol_ret'.
  exact (overflow_bit_spec _ _ _ Hd (into_biguint_word x) (into_biguint_word y)).
Qed.

Lemma ge_spec a b x y : shared a x -> shared b y ->
  protocol (tmap2 ge a b) (fun r => shared r (of_Z (Z.b2z (into_biguint y <=? into_biguint x)) : F)).
Proof.
  intros Ha Hb. eapply protocol_bind; [exact (unsigned_ge_spec a b x y Ha Hb)|]. intros r0 r1 r2 Hr. exact (bit_inject_spec _ _ Hr).
Qed.

Lemma one_minus_spec a b : shared a (of_Z (Z.b2z b)) -> protocol (tmap one_minus a) (fun r => shared r (of_Z (Z.b2z (negb b)) : F)).
Proof.
  intros Ha. unfold tmap, one_minus. apply protocol_id. apply protocol_ret'.
  replace (of_Z (Z.b2z (negb b)) : F) with (fsub fone (of_Z (Z.b2z b))) by (destruct b; cbn; rewrite ?of_Z_0, ?of_Z_1; ring).
  exact (shared_sub_public a _ fone Ha).
Qed.

Lemma lt_spec a b x y : shared a x -> shared b y ->
  protocol (tmap2 lt a b) (fun r => shared r (of_Z (Z.b2z (into_biguint x <? into_biguint y)) : F)).
Proof.
  intros Ha Hb. eapply protocol_bind; [exact (ge_spec a b x y Ha Hb)|]. intros r0 r1 r2 Hr. rewrite Z.ltb_antisym. exact (one_minus_spec _ _ Hr).
Qed.

Lemma gt_spec a b x y : shared a x -> shared b y ->
  protocol (tmap2 gt a b) (fun r => shared r (of_Z (Z.b2z (into_biguint y <? into_biguint x)) : F)).
Proof.
  intros Ha Hb. eapply protocol_bind; [exact (ge_spec b a y x Hb Ha)|]. intros r0 r1 r2 Hr. rewrite Z.ltb_antisym. exact (one_minus_spec _ _ Hr).
Qed.

(** Against public values. *)

Lemma sub_from_const_spec (x : F) b y : bshared n b (into_biguint y) ->
  protocol (tmap (low_depth_binary_sub_from_const (into_biguint x)) b)
    (fun r => bshared (n + 1) r (2 ^ n + into_biguint x - into_biguint (y : F))).
Proof.
  intros Hb. pose proof n_pos. pose proof (into_biguint_word x) as Hx. apply protocol_id.
  pose proof (with_ids_shared n b _ _ n_nonneg (word_mask n n_nonneg) Hb) as Hb'. set (y' := Z.lxor (into_biguint y) (Z.shiftl 1 n - 1)) in *.
  pose proof (with_ids_shared n _ _ _ n_nonneg Hx Hb') as Hp. pose proof (bshared_land n n_nonneg _ _ _ Hb' (proj1 Hx)) as Hg.
  pose proof (bshared_xor n n_nonneg _ _ _ _ Hg (bshared_land n n_nonneg _ _ 1 Hp ltac:(lia))) as Hg'.
  eapply protocol_bind; [exact (kogge_stone_inner_spec n _ _ _ _ ltac:(lia) Hp Hg')|]. intros r0 r1 r2 Hr. apply protocol_ret'.
  rewrite <- (ks_sum_sub n _ _ ltac:(lia) Hx (into_biguint_word y)). fold y'. rewrite (Z.lxor_comm _ y'), (Z.land_comm _ y').
  apply (with_ids_shared (n + 1) (mkTri r0 r1 r2)); [lia| |done]. unfold word. pose proof (Z.pow_gt_1 2 (n + 1)). lia.
Qed.

(** The two's complement of 0 is one bit too wide: the assertion of [and_twice] fails. *)
Lemma sub_by_const_spec a x (y : F) : bshared n a (into_biguint (x : F)) -> nonzero y \/ debug_assertions = false ->
  protocol (tmap (fun a => low_depth_binary_sub_by_const a (into_biguint y)) a)
    (fun r => bshared (n + 1) r (2 ^ n + into_biguint x - into_biguint y)).
Proof.
  intros Ha Hy. pose proof n_pos. pose proof (into_biguint_word x) as Hx. pose proof (into_biguint_word y) as Hy'.
  apply protocol_id. rewrite Z.shiftl_1_l. set (y_ := 2 ^ n - into_biguint y).
  assert (E : ks_sum n (Z.lxor (into_biguint x) y_) (Z.land (into_biguint x) y_) = 2 ^ n + into_biguint x - into_biguint y).
  { destruct (Z.eq_dec (into_biguint y) 0) as [E0|E0].
    - assert (E1 : Z.land (into_biguint x) y_ = 0).
      { unfold y_. rewrite E0, Z.sub_0_r. apply Z.bits_inj'. intros m Hm. rewrite Z.land_spec, Z.bits_0, Z.pow2_bits_eqb by lia.
        destruct (Z.eqb_spec n m) as [<-|]; [|apply andb_false_r]. by rewrite (bword_high n _ n n_nonneg Hx ltac:(lia)). }
      rewrite E1, E0, Z.sub_0_r. transitivity (Z.lxor (into_biguint x) y_); [|unfold y_; rewrite E0, Z.sub_0_r, <- Z.add_nocarry_lxor; [lia|]; rewrite <- E1; unfold y_; by rewrite E0, Z.sub_0_r].
      assert (Hnn : 0 <= Z.lxor (into_biguint x) y_) by (apply Z.lxor_nonneg; unfold y_, word in *; lia).
      apply Z.bits_inj'. intros m Hm. rewrite (ks_sum_bits n _ 0); [|lia|done|by apply word_0, n_nonneg|done].
      assert (EG : forall k j, Gw (Z.lxor (into_biguint x) y_) 0 k j = false)
        by (induction k as [|k IH]; intros j; cbn; [done|]; rewrite Z.bits_0, IH; apply andb_false_r).
      by rewrite EG, andb_false_r, xorb_false_r.
    - assert (Hy_ : word n y_) by (unfold y_, word in *; lia).
      pose proof (ks_sum_add n _ y_ false ltac:(lia) Hx Hy_) as E. cbn [Z.b2z] in E. rewrite !Z.lxor_0_r, Z.add_0_r in E. rewrite E. unfold y_. lia. }
  rewrite <- E.
  assert (Hg : bshared n (tmap (fun s => and_with_public s y_) a) (Z.land (into_biguint x) y_))
    by (apply bshared_land; [exact n_nonneg|done|unfold y_, word in *; lia]).
  destruct (Z.eq_dec (into_biguint y) 0) as [E0|E0].
  - assert (Hd : debug_assertions = false) by (by destruct Hy).
    assert (Hy_ : word (n + 1) y_) by (unfold y_, word; rewrite Z.pow_add_r by lia; lia).
    refine (kogge_stone_inner_wide n (n + 1) (mkTri (xor_public (t0 a) y_ ID0) (xor_public (t1 a) y_ ID1) (xor_public (t2 a) y_ ID2)) _ _ _ _ _ (or_intror Hd) _ Hg);
      [lia..|]. apply with_ids_shared; [lia|done|]. by apply (bshared_weaken n); [lia|].
  - assert (Hy_ : word n y_) by (unfold y_, word in *; lia).
    exact (kogge_stone_inner_spec n _ _ _ _ ltac:(lia) (with_ids_shared n a _ y_ n_nonneg Hy_ Ha) Hg).
Qed.

Lemma ge_public_spec a x (y : F) : shared a x -> nonzero y \/ debug_assertions = false ->
  protocol (tmap (fun a => ge_public a y) a) (fun r => shared r (of_Z (Z.b2z (into_biguint y <=? into_biguint x)) : F)).
Proof.
  intros Ha Hy. eapply protocol_bind.
  - eapply protocol_bind; [exact (a2b_spec a x Ha)|]. intros u0 u1 u2 Hu.
    eapply protocol_bind; [exact (sub_by_const_spec (mkTri u0 u1 u2) x y Hu Hy)|]. intros d0 d1 d2 Hd.
    apply (protocol_ret' _ _ _ (fun r => bshared 1 r (Z.b2z (into_biguint y <=? into_biguint x)))).
    exact (overflow_bit_spec _ _ _ Hd (into_biguint_word x) (into_biguint_word y)).
  - intros r0 r1 r2 Hr. exact (bit_inject_spec _ _ Hr).
Qed.

Lemma le_public_spec a x (y : F) : shared a x ->
  protocol (tmap (fun a => le_public a y) a) (fun r => shared r (of_Z (Z.b2z (into_biguint x <=? into_biguint y)) : F)).
Proof.
  intros Ha. eapply protocol_bind.
  - eapply protocol_bind; [exact (a2b_spec a x Ha)|]. intros u0 u1 u2 Hu.
    eapply protocol_bind; [exact (sub_from_const_spec y (mkTri u0 u1 u2) x Hu)|]. intros d0 d1 d2 Hd.
    apply (protocol_ret' _ _ _ (fun r => bshared 1 r (Z.b2z (into_biguint x <=? into_biguint y)))).
    exact (overflow_bit_spec _ _ _ Hd (into_biguint_word y) (into_biguint_word x)).
  - intros r0 r1 r2 Hr. exact (bit_inject_spec _ _ Hr).
Qed.

Lemma lt_public_spec a x (y : F) : shared a x -> nonzero y \/ debug_assertions = false ->
  protocol (tmap (fun a => lt_public a y) a) (fun r => shared r (of_Z (Z.b2z (into_biguint x <? into_biguint y)) : F)).
Proof.
  intros Ha Hy. eapply protocol_bind; [exact (ge_public_spec a x y Ha Hy)|]. intros r0 r1 r2 Hr.
  rewrite Z.ltb_antisym. exact (one_minus_spec _ _ Hr).
Qed.

Lemma gt_public_spec a x (y : F) : shared a x ->
  protocol (tmap (fun a => gt_public a y) a) (fun r => shared r (of_Z (Z.b2z (into_biguint y <? into_biguint x)) : F)).
Proof.
  intros Ha. eapply protocol_bind; [exact (le_public_spec a x y Ha)|]. intros r0 r1 r2 Hr.
  rewrite Z.ltb_antisym. exact (one_minus_spec _ _ Hr).
Qed.

Lemma sub_by_zero_crashes a x c : synced c -> bshared n a (into_biguint (x : F)) -> debug_assertions = true ->
  crashes_at c (tmap (fun a => low_depth_binary_sub_by_const a 0) a) ID0.
Proof.
  intros Hc (a0 & a1 & a2 & H0 & _ & _ & -> & _) Hd. pose proof n_pos.
  unfold crashes_at. eexists [], _. split; [reflexivity|]. unfold exec, tmap, low_depth_binary_sub_by_const, get_id, mbind. cbn [t0 start procs tget proc_bind fst snd].
  rewrite (sy_id0 _ Hc). cbn [xor_public shares_of t0 sa sb]. rewrite Z.shiftl_1_l, Z.sub_0_r. unfold kogge_stone_inner.
  assert (Ed : exists d, ceil_log2 n = S d).
  { destruct (ceil_log2 n) as [|d] eqn:E; [|by exists d]. pose proof (ceil_log2_upper n) as Hu. rewrite E in Hu. cbn in Hu. lia. }
  destruct Ed as [d ->]. cbn [kogge_stone_loop]. unfold and_twice, mbind, mdebug_assert. rewrite Hd. cbn [bshr sa sb].
  replace (biguint_bits (Z.shiftr (Z.lxor a0 (2 ^ n)) (Z.shiftl 1 0)) <=? n - Z.shiftl 1 0) with false; [done|].
  symmetry. apply Z.leb_gt. change (Z.shiftl 1 0) with 1. unfold biguint_bits.
  assert (E : Z.testbit (Z.shiftr (Z.lxor a0 (2 ^ n)) 1) (n - 1) = true).
  { rewrite Z.shiftr_spec, Z.lxor_spec by lia. replace (n - 1 + 1) with n by lia.
    by rewrite (bword_high n a0 n n_nonneg H0 ltac:(lia)), Z.pow2_bits_true by lia. }
  destruct (Z.eqb_spec (Z.shiftr (Z.lxor a0 (2 ^ n)) 1) 0) as [E0|E0]; [by rewrite E0, Z.bits_0 in E|].
  destruct (Z.lt_ge_cases (Z.log2 (Z.shiftr (Z.lxor a0 (2 ^ n)) 1)) (n - 1)) as [Hlt|]; [|lia].
  rewrite Z.bits_above_log2 in E; [done| |done]. apply Z.shiftr_nonneg, Z.lxor_nonneg. unfold word in H0. lia.
Qed.

Lemma ge_public_zero_crashes a x c : synced c -> shared a x -> debug_assertions = true ->
  crashes_at c (tmap (fun a => ge_public a (fzero : F)) a) ID0.
Proof.
  intros Hc Ha Hd. assert (E0 : into_biguint (fzero : F) = 0).
  { rewrite <- of_Z_0, into_biguint_of_Z. apply Z.mod_0_l. pose proof (MODULUS_range (F := F)). lia. }
  unfold tmap, ge_public, ge_public_bit, unsigned_ge_const_rhs. rewrite E0.
  apply crashes_left. eapply crashes_bind; [exact (a2b_spec a x Ha c Hc)|]. intros u0 u1 u2 c1 Hu Hc1.
  apply crashes_left. exact (sub_by_zero_crashes (mkTri u0 u1 u2) x c1 Hc1 Hu Hd).
Qed.

(** ** Zero tests *)

(** The lowest [len] bits are all set. *)
Definition all_ones (len x : Z) : Prop := forall m, 0 <= m < len -> Z.testbit x m = true.

Lemma all_ones_land l x : 0 <= l ->
  all_ones l (Z.land (Z.land x (Z.shiftl 1 l - 1)) (Z.land (Z.shiftr x l) (Z.shiftl 1 l - 1))) <-> all_ones (2 * l) x.
Proof.
  intros Hl. assert (Hm : forall m, 0 <= m < l -> Z.testbit (Z.shiftl 1 l - 1) m = true).
  { intros m Hm. rewrite tb_mask by done. apply andb_true_iff. split; [apply Z.leb_le|apply Z.ltb_lt]; lia. }
  split; intros H m Hm'.
  - destruct (Z.lt_ge_cases m l) as [Hlt|Hge].
    + specialize (H m ltac:(lia)). rewrite !Z.land_spec in H. by destruct (Z.testbit x m).
    + specialize (H (m - l) ltac:(lia)). rewrite !Z.land_spec, Z.shiftr_spec in H by lia. replace (m - l + l) with m in H by lia.
      destruct (Z.testbit x m); [done|]. by rewrite andb_false_r in H.
  - rewrite !Z.land_spec, Z.shiftr_spec, Hm, (H m), (H (m + l)) by lia. done.
Qed.

Lemma bshared_set_bit w a x i : 0 <= i -> bshared w a x ->
  bshared (Z.max w (i + 1)) (tmap (fun s => set_bit s i) a) (Z.setbit x i).
Proof.
  intros Hi (a0 & a1 & a2 & H0 & H1 & H2 & -> & <-).
  assert (Hs : forall v, word w v -> word (Z.max w (i + 1)) (Z.setbit v i)).
  { intros v Hv. destruct (Z.lt_ge_cases w 0) as [Hw|Hw]; [unfold word in Hv; rewrite Z.pow_neg_r in Hv by done; lia|].
    apply bword_bits; [lia|]. split; [apply Z.lor_nonneg; split; [apply Hv|apply Z.shiftl_nonneg; lia]|]. intros m Hm.
    rewrite Z.setbit_eqb by lia. rewrite (bword_high w v m Hw Hv) by lia. by rewrite (proj2 (Z.eqb_neq i m)) by lia. }
  exists (Z.setbit a0 i), (Z.setbit a1 i), (Z.setbit a2 i). split_and!; [by apply Hs..|reflexivity|].
  apply Z.bits_inj'. intros m Hm. rewrite !Z.lxor_spec, !Z.setbit_eqb, !Z.lxor_spec by lia. destruct (i =? m); cbn; [done|]. done.
Qed.

Lemma is_zero_loop_spec fuel : forall len a x, 1 <= len <= n -> len <= Z.of_nat fuel + 1 -> bshared n a x ->
  protocol (tmap (is_zero_loop fuel len) a) (fun r => exists y, bshared n r y /\ (Z.testbit y 0 = true <-> all_ones len x)).
Proof.
  induction fuel as [|fuel IH]; intros len a x Hlen Hf Ha; unfold tmap; cbn [is_zero_loop].
  - rewrite (proj2 (Z.leb_le len 1)) by lia. destruct a. apply protocol_ret'. exists x. split; [done|].
    replace len with 1 by lia. split; [intros H m Hm; by replace m with 0 by lia|intros H; apply H; lia].
  - destruct (Z.leb_spec len 1) as [H1|H1].
    { destruct a. apply protocol_ret'. exists x. split; [done|]. replace len with 1 by lia.
      split; [intros H m Hm; by replace m with 0 by lia|intros H; apply H; lia]. }
    set (a' := if len mod 2 =? 1 then tmap (fun s => set_bit s len) a else a).
    set (x' := if len mod 2 =? 1 then Z.setbit x len else x).
    set (len' := if len mod 2 =? 1 then len + 1 else len).
    assert (Ha' : bshared (n + 1) a' x').
    { unfold a', x'. destruct (_ =? _); [|by apply (bshared_weaken n); [lia|]].
      apply (bshared_weaken (Z.max n (len + 1))); [lia|]. by apply bshared_set_bit; [lia|]. }
    assert (Hl : len' = 2 * (len' / 2) /\ 1 <= len' / 2 < len).
    { unfold len'. destruct (Z.eqb_spec (len mod 2) 1); lia. }
    assert (Hx' : all_ones len' x' <-> all_ones len x).
    { unfold len', x'. destruct (_ =? _); [|done]. split; intros H m Hm.
      - specialize (H m ltac:(lia)). rewrite Z.setbit_eqb in H by lia. by rewrite (proj2 (Z.eqb_neq len m)) in H by lia.
      - rewrite Z.setbit_eqb by lia. destruct (Z.eqb_spec len m); [done|]. apply H. lia. }
    set (l := len' / 2) in *.
    eapply protocol_bind.
    + assert (E : forall f : Tri BinaryShare -> BinaryShare, f = t0 \/ f = t1 \/ f = t2 ->
        (if len mod 2 =? 1 then set_bit (f a) len else f a) = f a').
      { intros f [-> | [-> | ->]]; unfold a'; by destruct (_ =? _). }
      rewrite (E t0), (E t1), (E t2) by auto.
      refine (and_spec l (tmap (fun s => and_with_public s (Z.shiftl 1 l - 1)) a')
        (tmap (fun s => and_with_public s (Z.shiftl 1 l - 1)) (tmap (fun s => bshr s l) a')) _ _ _
        (bshared_mask (n + 1) _ _ _ _ _ Ha') (bshared_mask (n + 1 - l) _ _ _ _ _ (bshared_shr (n + 1) _ _ l _ Ha'))); lia.
    + intros r0 r1 r2 Hr. eapply protocol_weaken; [apply (IH l (mkTri r0 r1 r2)); [lia..|exact Hr]|].
      intros r (y & Hy & Hiff). exists y. split; [done|]. rewrite Hiff, all_ones_land, <- (proj1 Hl) by lia. done.
Qed.

(** The last bit after the rounds. *)
Lemma zero_bit x y : word n x -> (Z.testbit y 0 = true <-> all_ones n (Z.land (Z.lxor x (Z.shiftl 1 n - 1)) (Z.shiftl 1 n - 1))) ->
  Z.land y (Z.shiftl 1 1 - 1) = Z.b2z (x =? 0).
Proof.
  intros Hx Hiff. pose proof n_pos. change (Z.shiftl 1 1 - 1) with (Z.ones 1).
  rewrite Z.land_ones, Z.pow_1_r, <- Z.bit0_mod by lia. f_equal. apply eq_true_iff_eq. rewrite Hiff, Z.eqb_eq. clear Hiff. split.
  - intros H0. apply Z.bits_inj'. intros m Hm. rewrite Z.bits_0. destruct (Z.lt_ge_cases m n) as [Hlt|]; [|by apply (bword_high n); [exact n_nonneg|..]].
    specialize (H0 m ltac:(lia)). rewrite Z.land_spec, Z.lxor_spec, tb_mask in H0 by lia.
    rewrite (proj2 (Z.leb_le 0 m)), (proj2 (Z.ltb_lt m n)) in H0 by lia. by destruct (Z.testbit x m).
  - intros -> m Hm. rewrite Z.land_spec, Z.lxor_0_l, tb_mask by lia. rewrite (proj2 (Z.leb_le 0 m)), (proj2 (Z.ltb_lt m n)) by lia. done.
Qed.

Lemma bis_zero_spec a x : bshared n a x -> protocol (tmap bis_zero a) (fun r => bshared 1 r (Z.b2z (x =? 0))).
Proof.
  intros Ha. pose proof n_pos. pose proof (bshared_word n n_nonneg a x Ha) as Hx. unfold tmap, bis_zero.
  eapply protocol_bind.
  - exact (is_zero_loop_spec (Z.to_nat n) n _ _ ltac:(lia) ltac:(lia) (bshared_xor_all n n_nonneg a x _ Ha (word_mask n n_nonneg))).
  - intros r0 r1 r2 (y & Hy & Hiff). apply protocol_ret'. pose proof (bshared_mask n 1 _ _ n_nonneg ltac:(lia) Hy) as H1.
    rewrite <- (zero_bit x y Hx); [exact H1|]. rewrite Hiff. pose proof (word_mask n n_nonneg) as Hm.
    assert (E : Z.land (Z.lxor x (Z.shiftl 1 n - 1)) (Z.shiftl 1 n - 1) = Z.lxor x (Z.shiftl 1 n - 1)); [|by rewrite E].
    rewrite Z.shiftl_1_l, Z.sub_1_r, <- Z.ones_equiv, Z.land_ones in * by lia. apply Z.mod_small.
    apply (bword_lxor n); [exact n_nonneg|done|]. by rewrite Z.ones_equiv, <- Z.sub_1_r, <- Z.shiftl_1_l in *.
Qed.

Lemma into_biguint_zero (x : F) : into_biguint x = 0 <-> x = fzero.
Proof.
  split; intros H.
  - by rewrite <- (of_Z_into_biguint x), H, of_Z_0.
  - rewrite H, <- of_Z_0, into_biguint_of_Z. apply Z.mod_0_l. pose proof (MODULUS_range (F := F)). lia.
Qed.

Lemma eq_bit_spec a b x y : shared a x -> shared b y ->
  protocol (tmap2 eq_bit a b) (fun r => bshared 1 r (Z.b2z (into_biguint (fsub x y) =? 0))).
Proof.
  intros Ha Hb. eapply protocol_bind; [exact (a2b_spec _ _ (shared_sub a b x y Ha Hb))|]. intros r0 r1 r2 Hr. exact (bis_zero_spec _ _ Hr).
Qed.

Lemma eq_spec a b x y : shared a x -> shared b y ->
  protocol (tmap2 Rep3Binary.eq a b) (fun r => shared r (of_Z (Z.b2z (into_biguint (fsub x y) =? 0)) : F)).
Proof.
  intros Ha Hb. eapply protocol_bind; [exact (eq_bit_spec a b x y Ha Hb)|]. intros r0 r1 r2 Hr. exact (bit_inject_spec _ _ Hr).
Qed.

End Protocols.
