(* ===== verification/Rep3BinMany.v ===== *)
(** * The batched binary protocols

    The [_many] and [_vec] versions of [Rep3Binary] do elementwise what the single
    ones do. *)

From Stdlib Require Import ZArith Lia List Bool Ring.
From stdpp Require Import base list.
From S2P Require Import Prelude Words Field Carry MpcNet Rep3Ctx Rep3Rules Rep3Share Rep3Arith Rep3Correct Rep3Binary Rep3BinCorrect.
Import ListNotations.
Local Open Scope Z_scope.
Local Open Scope mpc_scope.

Definition bshared_vec (w : Z) : Tri (list BinaryShare) -> list Z -> Prop := tri_forall (bshared w).

(** ** Elementwise local operations *)

Section Elementwise.
Context {A V : Type}.

Lemma tri_forall_map1 {B W} (P : Tri A -> V -> Prop) (Q : Tri B -> W -> Prop) (f : A -> B) (g : V -> W) l vs :
  (forall a v, P a v -> Q (tmap f a) (g v)) -> tri_forall P l vs -> tri_forall Q (tmap (map f) l) (map g vs).
Proof. intros H. apply tri_forall_map. intros a v Ha. exact (H a v Ha). Qed.

Lemma tri_forall_map2 {A' V' B W} (P : Tri A -> V -> Prop) (P' : Tri A' -> V' -> Prop) (Q : Tri B -> W -> Prop)
  (f : A -> A' -> B) (g : V -> V' -> W) l vs l' vs' :
  (forall a v a' v', P a v -> P' a' v' -> Q (tmap2 f a a') (g v v')) -> length vs = length vs' ->
  tri_forall P l vs -> tri_forall P' l' vs' ->
  tri_forall Q (tmap2 (fun l l' => map (fun t => f (fst t) (snd t)) (zip l l')) l l') (zip_with g vs vs').
Proof.
  intros H El Hl. revert l' vs' El. induction Hl as [|a0 a1 a2 v l0 l1 l2 vs Hp Hl IH]; intros l' vs' El Hl'.
  - destruct vs'; [|done]. inversion Hl'; subst. constructor.
  - destruct Hl' as [|b0 b1 b2 v' m0 m1 m2 vs' Hp' Hl']; [done|]. cbn. constructor; [exact (H _ _ _ _ Hp Hp')|].
    apply (IH (mkTri m0 m1 m2) vs'); [by injection El|done].
Qed.

End Elementwise.

Lemma bshared_vec_weaken w w' l xs : w <= w' -> bshared_vec w l xs -> bshared_vec w' l xs.
Proof. intros Hw H. rewrite <- (List.map_id xs). eapply tri_forall_impl; [|exact H]. intros a v. by apply bshared_weaken. Qed.

Lemma bshared_vec_xor w a b xs ys : 0 <= w -> bshared_vec w a xs -> bshared_vec w b ys -> length xs = length ys ->
  bshared_vec w (tmap2 (fun l l' => map (fun t => bxor (fst t) (snd t)) (zip l l')) a b) (zip_with Z.lxor xs ys).
Proof. intros Hw Ha Hb El. refine (tri_forall_map2 _ _ _ _ _ _ _ _ _ _ El Ha Hb). intros. by apply bshared_xor. Qed.

Lemma bshared_vec_xor_lsb w a b xs ys : 0 <= w -> bshared_vec w a xs -> bshared_vec w b ys -> length xs = length ys ->
  bshared_vec w (tmap2 (fun l l' => map (fun t => bxor (fst t) (and_with_public (snd t) 1)) (zip l l')) a b)
    (zip_with (fun g p => Z.lxor g (Z.land p 1)) xs ys).
Proof.
  intros Hw Ha Hb El. refine (tri_forall_map2 _ _ _ (fun g p => bxor g (and_with_public p 1)) _ _ _ _ _ _ El Ha Hb).
  intros t v t' v' Ht Ht'. apply (bshared_xor w Hw t (tmap (fun s => and_with_public s 1) t')); [done|]. by apply bshared_land; [done..|lia].
Qed.

Lemma zip_bshares_shared w l0 l1 l2 xs : tri_forall (bsummands w) (mkTri l0 l1 l2) xs ->
  bshared_vec w (mkTri (zip_bshares l0 l2) (zip_bshares l1 l0) (zip_bshares l2 l1)) xs.
Proof.
  intros H. remember (mkTri l0 l1 l2) as l eqn:El. revert l0 l1 l2 El.
  induction H as [|a0 a1 a2 v l0' l1' l2' vs Hp H IH]; intros ? ? ? [= <- <- <-]; [constructor|].
  unfold zip_bshares in *. cbn. constructor; [exact (bshared_reshared _ _ _ _ _ Hp)|by apply IH].
Qed.

Lemma tri_forall_impl' {A V} (P Q : Tri A -> V -> Prop) l vs : (forall a v, P a v -> Q a v) -> tri_forall P l vs -> tri_forall Q l vs.
Proof. intros H. induction 1; constructor; auto. Qed.

Lemma ks_loop_zip w d i bitlen xs ys (r : Tri (list BinaryShare)) : length xs = length ys ->
  let s := 2 ^ i in let m := ks_mask bitlen s in
  let vs := zip (zip (map (fun x => Z.shiftr x s) xs) (map (fun y => Z.land y m) ys)) (map (fun x => Z.land x m) xs) in
  bshared_vec w r (zip_with (ks_loop d (i + 1) bitlen) (map (fun v => Z.shiftl (Z.land (fst (fst v)) (snd v)) s) vs)
     (zip_with Z.lxor ys (map (fun v => Z.shiftl (Z.land (snd (fst v)) (fst (fst v))) s) vs))) ->
  bshared_vec w r (zip_with (ks_loop (S d) i bitlen) xs ys).
Proof.
  intros El s m vs. match goal with |- bshared_vec _ _ ?u -> bshared_vec _ _ ?v => replace v with u; [done|] end.
  unfold vs. clear vs r. revert ys El. induction xs as [|x xs IH]; intros [|y ys]; cbn [length map zip_with]; intros [=]; [done|].
  f_equal; [|by apply IH]. cbn [ks_loop fst snd]. by rewrite Z.shiftl_1_l.
Qed.

Section Many.
Context {F : Type} `{JF : JoltField F} `{PF : !PrimeField F} `{RO : !RngOps F} `{B : Build}.
Abbreviation n := (@MODULUS_BIT_SIZE F JF PF).
Abbreviation p := (@MODULUS F JF PF).

Add Ring F_ring_many : F_ring.

Lemma and_vec_spec a b xs ys : bshared_vec n a xs -> bshared_vec n b ys -> length xs = length ys ->
  protocol (tmap2 and_vec a b) (fun r => bshared_vec n r (zip_with Z.land xs ys)).
Proof.
  intros Ha Hb El. unfold tmap2, and_vec. destruct a as [a0 a1 a2], b as [b0 b1 b2].
  eapply protocol_bind.
  - refine (protocol_mmap _ (bsummands n) (fun v => Z.land (fst v) (snd v)) _ _ _ _ _ _ (tri_forall_zip _ _ _ _ _ _ _ _ _ _ Ha Hb El)).
    intros t v [H1 H2]. eapply protocol_bind; [exact (xor_mask_spec n n_nonneg)|]. intros m0 m1 m2 Hm. apply protocol_ret'.
    exact (masked_and n n_nonneg n _ _ _ _ _ H1 H2 Hm).
  - intros l0 l1 l2 Hl. eapply protocol_bind; [apply protocol_reshare|]. intros ? ? ? [= -> -> ->]. apply protocol_ret'.
    replace (zip_with Z.land xs ys) with (map (fun v => Z.land (fst v) (snd v)) (zip xs ys)); [by apply zip_bshares_shared|].
    clear. revert ys. induction xs as [|x xs IH]; intros [|y ys]; cbn; [done..|]. by rewrite IH.
Qed.

Lemma bcmux_many_spec c a b zs xs ys : bshared_vec n c zs -> bshared_vec n a xs -> bshared_vec n b ys ->
  length zs = length xs -> length xs = length ys ->
  protocol (mkTri (bcmux_many (t0 c) (t0 a) (t0 b)) (bcmux_many (t1 c) (t1 a) (t1 b)) (bcmux_many (t2 c) (t2 a) (t2 b)))
    (fun r => bshared_vec n r (zip_with Z.lxor (zip_with Z.land zs (zip_with Z.lxor ys xs)) ys)).
Proof.
  intros Hc Ha Hb E1 E2. unfold bcmux_many, massert.
  destruct (tri_forall_length _ _ _ Hc) as (C0 & C1 & C2), (tri_forall_length _ _ _ Ha) as (A0 & A1 & A2), (tri_forall_length _ _ _ Hb) as (B0 & B1 & B2).
  rewrite C0, C1, C2, A0, A1, A2, B0, B1, B2, E1, E2, Nat.eqb_refl.
  eapply protocol_bind; [by apply (protocol_ret' tt tt tt (fun _ => True))|]. intros ? ? ? _.
  eapply protocol_bind; [by apply (protocol_ret' tt tt tt (fun _ => True))|]. intros ? ? ? _.
  eapply protocol_bind.
  - refine (and_vec_spec c _ zs _ Hc (tri_forall_map2 _ _ (bshared n) bxor Z.lxor b ys a xs _ (eq_sym E2) Hb Ha) _).
    + intros. by apply bshared_xor; [exact n_nonneg|..].
    + rewrite length_zip_with. lia.
  - intros r0 r1 r2 Hr. apply protocol_ret'.
    refine (tri_forall_map2 _ _ (bshared n) bxor Z.lxor (mkTri r0 r1 r2) _ b ys _ _ Hr Hb).
    + intros. by apply bshared_xor; [exact n_nonneg|..].
    + rewrite !length_zip_with. lia.
Qed.

(** ** The adder *)

Lemma and_twice_many_spec w s l vs : 0 <= w -> 0 <= s ->
  tri_forall (fun t v => bshared w (tmap (fun t => fst (fst t)) t) (fst (fst v)) /\ bshared w (tmap (fun t => snd (fst t)) t) (snd (fst v)) /\
    bshared w (tmap snd t) (snd v)) l vs ->
  protocol (tmap (fun l => and_twice_many_iter l w s) l)
    (fun r => bshared_vec (w + s) (tmap fst r) (map (fun v => Z.shiftl (Z.land (snd (fst v)) (fst (fst v))) s) vs) /\
              bshared_vec (w + s) (tmap snd r) (map (fun v => Z.shiftl (Z.land (fst (fst v)) (snd v)) s) vs)).
Proof.
  intros Hw Hs Hl. unfold tmap at 1, and_twice_many_iter. eapply protocol_bind.
  - refine (protocol_mmap _ (fun r v => bsummands (w + s) (tmap fst r) (fst v) /\ bsummands (w + s) (tmap snd r) (snd v))
      (fun v => (Z.shiftl (Z.land (snd (fst v)) (fst (fst v))) s, Z.shiftl (Z.land (fst (fst v)) (snd v)) s)) _ _ _ _ _ _ Hl).
    intros [[[a0 b0] c0] [[a1 b1] c1] [[a2 b2] c2]] [[x y] z] (H1 & H2 & H3). cbn [t0 t1 t2 tmap fst snd] in *.
    eapply protocol_bind; [exact (xor_mask_spec w Hw)|]. intros m0 m1 m2 Hm.
    eapply protocol_bind; [exact (xor_mask_spec w Hw)|]. intros k0 k1 k2 Hk. apply protocol_ret'. cbn [tmap t0 t1 t2 fst snd].
    assert (Hsh : forall u v, bsummands w u v -> bsummands (w + s) (tmap (fun z => Z.shiftl z s) u) (Z.shiftl v s)).
    { intros u v (U0 & U1 & U2 & <-). unfold bsummands. cbn. split_and!; [by apply word_shiftl..|]. by rewrite !Z.shiftl_lxor. }
    split.
    + exact (Hsh _ _ (masked_and w Hw w (mkTri b0 b1 b2) (mkTri a0 a1 a2) _ _ _ H2 H1 Hm)).
    + exact (Hsh _ _ (masked_and w Hw w (mkTri a0 a1 a2) (mkTri c0 c1 c2) _ _ _ H1 H3 Hk)).
  - intros l0 l1 l2 Hll. apply protocol_exchange. apply protocol_ret'.
    assert (Hsplit : tri_forall (bsummands (w + s)) (mkTri (map fst l0) (map fst l1) (map fst l2)) (map (fun v => Z.shiftl (Z.land (snd (fst v)) (fst (fst v))) s) vs) /\
      tri_forall (bsummands (w + s)) (mkTri (map snd l0) (map snd l1) (map snd l2)) (map (fun v => Z.shiftl (Z.land (fst (fst v)) (snd v)) s) vs)).
    { set (ws := map _ vs) in Hll. rewrite <- (List.map_map (fun v => (Z.shiftl (Z.land (snd (fst v)) (fst (fst v))) s, Z.shiftl (Z.land (fst (fst v)) (snd v)) s)) fst),
        <- (List.map_map (fun v => (Z.shiftl (Z.land (snd (fst v)) (fst (fst v))) s, Z.shiftl (Z.land (fst (fst v)) (snd v)) s)) snd). fold ws.
      split; (eapply (tri_forall_map1 _ _ _ _ (mkTri l0 l1 l2)); [|exact Hll]); by intros ? ? []. }
    destruct Hsplit as [S1 S2]. split; by apply zip_bshares_shared.
Qed.

Lemma kogge_stone_many_loop_spec d : forall i bitlen ps gs xs ys, 0 <= i -> (forall k, i <= k < i + Z.of_nat d -> 2 ^ k < bitlen) ->
  bshared_vec bitlen ps xs -> bshared_vec bitlen gs ys -> length xs = length ys ->
  protocol (tmap2 (kogge_stone_many_loop d i bitlen) ps gs) (fun r => bshared_vec bitlen r (zip_with (ks_loop d i bitlen) xs ys)).
Proof.
  induction d as [|d IH]; intros i bitlen ps gs xs ys Hi Hk Hp Hg El.
  - destruct gs. apply protocol_ret'. replace (zip_with (ks_loop 0 i bitlen) xs ys) with ys; [done|].
    clear -El. revert xs El. induction ys as [|y ys IH]; intros [|x xs]; cbn; intros [=]; [done|]. by rewrite <- IH.
  - cbn [kogge_stone_many_loop tmap2]. rewrite Z.shiftl_1_l. set (s := 2 ^ i). fold (ks_mask bitlen s).
    assert (Hs : 0 < s < bitlen) by (specialize (Hk i ltac:(lia)); lia). set (m := ks_mask bitlen s).
    assert (Hsh : bshared_vec (bitlen - s) (tmap (map (fun p => bshr p s)) ps) (map (fun x => Z.shiftr x s) xs))
      by (refine (tri_forall_map1 _ _ _ _ _ _ _ Hp); intros; by apply bshared_shr; [lia|]).
    assert (Hgm : bshared_vec (bitlen - s) (tmap (map (fun g => and_with_public g m)) gs) (map (fun y => Z.land y m) ys))
      by (refine (tri_forall_map1 _ _ _ _ _ _ _ Hg); intros; apply (bshared_mask bitlen); [lia..|done]).
    assert (Hpm : bshared_vec (bitlen - s) (tmap (map (fun p => and_with_public p m)) ps) (map (fun x => Z.land x m) xs))
      by (refine (tri_forall_map1 _ _ _ _ _ _ _ Hp); intros; apply (bshared_mask bitlen); [lia..|done]).
    eapply protocol_bind.
    + refine (and_twice_many_spec (bitlen - s) s (mkTri _ _ _) _ _ _ _); [lia..|].
      eapply tri_forall_impl'; [|refine (tri_forall_zip _ _ _ _ _ _ _ _ _ _ (tri_forall_zip _ _ _ _ _ _ _ _ _ _ Hsh Hgm _) Hpm _)].
      * intros t v [[H1 H2] H3]. exact (conj H1 (conj H2 H3)).
      * by rewrite !length_map.
      * rewrite length_zip, !length_map. lia.
    + intros r0 r1 r2 [H1 H2]. replace (bitlen - s + s) with bitlen in H1, H2 by lia.
      eapply protocol_weaken.
      * refine (IH (i + 1) bitlen (tmap snd (mkTri r0 r1 r2)) _ _ _ _ _ H2 (tri_forall_map2 _ _ (bshared bitlen) bxor Z.lxor gs ys _ _ _ _ Hg H1) _);
          [lia|intros k ?; apply Hk; lia|intros; apply bshared_xor; [lia|done..]|..].
        -- rewrite !length_map, !length_zip, !length_map. lia.
        -- rewrite length_zip_with, !length_map, !length_zip, !length_map. lia.
      * intros r. apply ks_loop_zip. done.
Qed.

Lemma kogge_stone_inner_many_spec bitlen ps gs xs ys : 0 < bitlen -> bshared_vec bitlen ps xs -> bshared_vec bitlen gs ys -> length xs = length ys ->
  protocol (tmap2 (fun p g => kogge_stone_inner_many p g bitlen) ps gs) (fun r => bshared_vec (bitlen + 1) r (zip_with (ks_sum bitlen) xs ys)).
Proof.
  intros Hb Hp Hg El. eapply protocol_bind.
  - apply (kogge_stone_many_loop_spec (ceil_log2 bitlen) 0 bitlen ps gs xs ys); [lia| |done..]. intros k Hk. apply ceil_log2_lower. lia.
  - intros g0 g1 g2 Hr. apply protocol_ret'.
    replace (zip_with (ks_sum bitlen) xs ys) with (zip_with (fun g x => Z.lxor (Z.shiftl g 1) x) (zip_with (ks_loop (ceil_log2 bitlen) 0 bitlen) xs ys) xs).
    + refine (tri_forall_map2 _ _ _ (fun g s => bxor (bshl g 1) s) _ (mkTri g0 g1 g2) _ ps xs _ _ Hr Hp).
      * intros a v a' v' Ha Ha'. apply (bshared_xor (bitlen + 1) ltac:(lia) (tmap (fun s => bshl s 1) a)).
        -- by apply bshared_shl; [lia..|].
        -- by apply (bshared_weaken bitlen); [lia|].
      * rewrite length_zip_with. lia.
    + clear. revert ys. induction xs as [|x xs IH]; intros [|y ys]; cbn; [done..|]. by rewrite IH.
Qed.

Lemma add_many_spec a b xs ys : bshared_vec n a xs -> bshared_vec n b ys -> length xs = length ys ->
  protocol (tmap2 (fun a b => low_depth_binary_add_many a b n) a b) (fun r => bshared_vec (n + 1) r (zip_with Z.add xs ys)).
Proof.
  intros Ha Hb El. pose proof (n_pos (F := F)). eapply protocol_bind; [exact (and_vec_spec a b xs ys Ha Hb El)|]. intros g0 g1 g2 Hg.
  eapply protocol_weaken.
  - refine (kogge_stone_inner_many_spec n _ (mkTri g0 g1 g2) _ _ _ (tri_forall_map2 _ _ (bshared n) bxor Z.lxor a xs b ys _ El Ha Hb) Hg _);
      [lia|intros; by apply bshared_xor; [exact n_nonneg|..]|]. rewrite !length_zip_with. lia.
  - intros r Hr. assert (Hw : Forall2 (fun x y => word n x /\ word n y) xs ys).
    { clear -Ha Hb El. revert b ys El Hb. induction Ha as [|a0 a1 a2 x l0 l1 l2 xs Hp Hl IH]; intros b ys El Hb.
      - destruct ys; [constructor|done].
      - destruct Hb as [|b0 b1 b2 y m0 m1 m2 ys Hp' Hm]; [done|]. constructor; [|by apply (IH (mkTri m0 m1 m2)); [injection El|]].
        split; by eapply (bshared_word n n_nonneg). }
    cbv beta in Hr. match type of Hr with bshared_vec _ _ ?u => replace (zip_with Z.add xs ys) with u; [done|] end.
    clear -Hw H. induction Hw as [|x y xs ys [Hx Hy] Hw IH]; [done|]. cbn [zip_with]. f_equal; [|exact IH].
    pose proof (ks_sum_add n x y false) as E. cbn [Z.b2z] in E. rewrite !Z.lxor_0_r, Z.add_0_r in E. apply E; [lia|done..].
Qed.

Lemma tri_forall_words w l xs : 0 <= w -> bshared_vec w l xs -> Forall (word w) xs.
Proof. intros Hw. induction 1; constructor; [|done]. by eapply (bshared_word w Hw). Qed.

(** A map that uses the identity of the party. *)
Lemma tri_forall_ids {A V A' V'} (P : Tri A -> V -> Prop) (Q : Tri A' -> V' -> Prop) (f : PartyID -> A -> A') (g : V -> V') l vs :
  (forall a v, P a v -> Q (with_ids (fun a id => f id a) a) (g v)) -> tri_forall P l vs ->
  tri_forall Q (mkTri (map (f ID0) (t0 l)) (map (f ID1) (t1 l)) (map (f ID2) (t2 l))) (map g vs).
Proof. intros H. apply tri_forall_map. intros a v Ha. exact (H a v Ha). Qed.

Lemma low_depth_binary_sub_p_many_spec a xs : bshared_vec (n + 1) a xs ->
  protocol (tmap (fun a => low_depth_binary_sub_p_many a (n + 1)) a) (fun r => bshared_vec (n + 2) r (map (fun x => x + 2 ^ (n + 1) - p) xs)).
Proof.
  intros Ha. pose proof (n_pos (F := F)). pose proof (MODULUS_range (F := F)). pose proof (tri_forall_words (n + 1) _ _ ltac:(lia) Ha) as Hx.
  unfold tmap, low_depth_binary_sub_p_many. apply protocol_id. rewrite Z.shiftl_1_l. set (p_ := 2 ^ (n + 1) - p).
  assert (Hp_ : word (n + 1) p_) by (unfold p_, word; rewrite Z.pow_add_r by lia; lia).
  eapply protocol_weaken.
  - refine (kogge_stone_inner_many_spec (n + 1) _ _ _ _ _
      (tri_forall_ids _ (bshared (n + 1)) (fun id x => xor_public x p_ id) (fun x => Z.lxor x p_) _ _ _ Ha)
      (tri_forall_map1 _ (bshared (n + 1)) (fun x => and_with_public x p_) (fun x => Z.land x p_) _ _ _ Ha) _); [lia|..].
    + intros t v Ht. by apply bshared_xor_public; [lia|..].
    + intros t v Ht. apply bshared_land; [lia|done|apply Hp_].
    + by rewrite !length_map.
  - intros r Hr. replace (n + 2) with (n + 1 + 1) by lia.
    cbv beta in Hr. match type of Hr with bshared_vec _ _ ?u => replace (map (fun x => x + 2 ^ (n + 1) - p) xs) with u; [done|] end.
    clear -Hx Hp_ H. induction Hx as [|x xs Hx Hxs IH]; [done|]. cbn [map zip_with]. f_equal; [|exact IH].
    pose proof (ks_sum_add (n + 1) x p_ false ltac:(lia) Hx Hp_) as E. cbn [Z.b2z] in E. rewrite !Z.lxor_0_r, Z.add_0_r in E. rewrite E. unfold p_. lia.
Qed.

Lemma low_depth_sub_p_cmux_many_spec a xs : bshared_vec (n + 1) a xs -> Forall (fun x => x < 2 * p) xs ->
  protocol (tmap (fun a => low_depth_sub_p_cmux_many a (n + 1)) a) (fun r => bshared_vec n r (map (fun x => x mod p) xs)).
Proof.
  intros Ha Hlt. pose proof (n_pos (F := F)). pose proof (tri_forall_words (n + 1) _ _ ltac:(lia) Ha) as Hx.
  unfold tmap, low_depth_sub_p_cmux_many. eapply protocol_bind; [exact (low_depth_binary_sub_p_many_spec a xs Ha)|]. intros y0 y1 y2 Hy.
  replace (n + 1 - 1) with n by lia. set (m := Z.shiftl 1 n - 1). set (ys := map (fun x => x + 2 ^ (n + 1) - p) xs) in *.
  assert (Hov : bshared_vec n (tmap (fun y => map (fun y_msb => mkShare (spread (sa y_msb) m) (spread (sb y_msb) m)) (map (fun y => bshr y (n + 1)) y)) (mkTri y0 y1 y2))
    (map (fun y => if Z.shiftr y (n + 1) =? 1 then m else 0) ys)).
  { rewrite <- (List.map_map (fun y => Z.shiftr y (n + 1)) (fun b => if b =? 1 then m else 0)).
    refine (tri_forall_map1 (bshared 1) _ (fun s => mkShare (spread (sa s) m) (spread (sb s) m)) (fun b => if b =? 1 then m else 0)
      (tmap (map (fun y => bshr y (n + 1))) (mkTri y0 y1 y2)) _ _ _).
    - intros t b Ht. apply bshared_spread; [done|apply word_mask, n_nonneg].
    - refine (tri_forall_map1 (bshared (n + 2)) _ _ _ _ _ _ Hy). intros t v Ht.
      pose proof (bshared_shr (n + 2) t v (n + 1) ltac:(lia) Ht) as H1. by replace (n + 2 - (n + 1)) with 1 in H1 by lia. }
  eapply protocol_weaken.
  - refine (bcmux_many_spec _ _ _ _ _ _ Hov
      (tri_forall_map1 (bshared (n + 2)) (bshared n) (fun y => and_with_public y m) (fun y => Z.land y m) (mkTri y0 y1 y2) ys _ Hy)
      (tri_forall_map1 (bshared (n + 1)) (bshared n) (fun x => and_with_public x m) (fun x => Z.land x m) a xs _ Ha) _ _).
    + intros t v Ht. apply (bshared_mask (n + 2)); [lia|exact n_nonneg|done].
    + intros t v Ht. apply (bshared_mask (n + 1)); [lia|exact n_nonneg|done].
    + by rewrite !length_map.
    + unfold ys. by rewrite !length_map.
  - intros r Hr. cbv beta in Hr. match type of Hr with bshared_vec _ _ ?u => replace (map (fun x => x mod p) xs) with u; [done|] end.
    unfold ys, m. clear -Hx Hlt. induction Hx as [|x xs Hx Hxs IH]; [done|]. apply Forall_cons in Hlt as [Hx' Hlt]. cbn [map zip_with].
    f_equal; [exact (sub_p_select x Hx Hx')|by apply IH].
Qed.

Lemma add_mod_p_many_spec a b xs ys : bshared_vec n a xs -> bshared_vec n b ys -> length xs = length ys ->
  Forall (fun x => x < p) xs -> Forall (fun y => y < p) ys ->
  protocol (tmap2 (fun a b => low_depth_binary_add_mod_p_many a b n) a b) (fun r => bshared_vec n r (zip_with (fun x y => (x + y) mod p) xs ys)).
Proof.
  intros Ha Hb El Hx Hy. eapply protocol_bind; [exact (add_many_spec a b xs ys Ha Hb El)|]. intros s0 s1 s2 Hs.
  eapply protocol_weaken; [apply (low_depth_sub_p_cmux_many_spec (mkTri s0 s1 s2)); [exact Hs|]|].
  - clear -Hx Hy El. revert ys El Hy. induction Hx as [|x xs Hx Hxs IH]; intros [|y ys] [=] Hy; [constructor|].
    apply Forall_cons in Hy as [Hy Hys]. cbn. constructor; [lia|by apply IH].
  - intros r Hr. cbv beta in Hr. match type of Hr with bshared_vec _ _ ?u => replace (zip_with _ xs ys) with u; [done|] end.
    clear. revert ys. induction xs as [|x xs IH]; intros [|y ys]; cbn; [done..|]. by rewrite IH.
Qed.

(** ** Conversions and comparisons *)

Lemma xor_mask_loop {A V} (P : Tri A -> V -> Prop) l vs : tri_forall P l vs ->
  protocol (tmap (mmap (fun _ => xor_mask n)) l) (fun r => tri_forall (bsummands n) r (map (fun _ => 0) vs)).
Proof. intros Hl. apply (protocol_mmap P (bsummands n) (fun _ => 0)); [|done]. intros a v _. exact (xor_mask_spec n n_nonneg). Qed.

Lemma a2b_many_spec a xs : shared_vec a xs -> protocol (tmap a2b_many a) (fun r => bshared_vec n r (map into_biguint xs)).
Proof.
  intros Ha. unfold tmap, a2b_many. eapply protocol_bind; [exact (xor_mask_loop shared a xs Ha)|]. intros m0 m1 m2 Hm. apply protocol_id.
  eapply protocol_bind; [apply protocol_reshare_many|]. intros ? ? ? [= -> -> ->].
  assert (H : exists us vs, length us = length vs /\ Forall (fun x => x < p) us /\ Forall (fun x => x < p) vs /\
    zip_with (fun u v => (u + v) mod p) us vs = map into_biguint xs /\
    tri_forall (bsummands n) (mkTri m0 (map (fun t => Z.lxor (into_biguint (fadd (sa (fst t)) (sb (fst t)))) (snd t)) (zip (t1 a) m1)) m2) us /\
    bshared_vec n (mkTri (map (fun x => mkShare 0 (into_biguint (sb x))) (t0 a)) (map (fun _ => bzero_share) (t1 a))
      (map (fun x => mkShare (into_biguint (sa x)) 0) (t2 a))) vs).
  { clear -Ha Hm. revert m0 m1 m2 Hm. induction Ha as [|b0 b1 b2 x l0 l1 l2 xs Hp Ha IH]; intros m0 m1 m2 Hm.
    - inversion Hm; subst. exists [], []. split_and!; constructor.
    - inversion Hm as [|k0 k1 k2 ? m0' m1' m2' ? Hk Hm']; subst. destruct (IH _ _ _ Hm') as (us & vs & El & Hu & Hv & E & H1 & H2).
      destruct Hp as (a0 & a1 & a2 & [= -> -> ->] & <-). cbn in *.
      exists (into_biguint (fadd a1 a0) :: us), (into_biguint a2 :: vs). split_and!.
      + cbn. by rewrite El.
      + constructor; [apply into_biguint_range|done].
      + constructor; [apply into_biguint_range|done].
      + cbn. rewrite E. f_equal. rewrite <- into_biguint_add. f_equal. ring.
      + constructor; [|exact H1]. destruct Hk as (K0 & K1 & K2 & K). unfold bsummands. cbn in *.
        split_and!; [done|apply bword_lxor; [exact n_nonneg|apply into_biguint_word|done]|done|].
        transitivity (Z.lxor (into_biguint (fadd a1 a0)) (Z.lxor (Z.lxor k0 k1) k2)); [bits|]. by rewrite K, Z.lxor_0_r.
      + constructor; [|exact H2]. exists 0, 0, (into_biguint a2). split_and!; [by apply word_0, n_nonneg..|apply into_biguint_word|done|done]. }
  destruct H as (us & vs & El & Hu & Hv & <- & H1 & H2).
  exact (add_mod_p_many_spec _ _ us vs (zip_bshares_shared n _ _ _ _ H1) H2 El Hu Hv).
Qed.

Lemma bit_inject_many_spec a xs : bshared_vec 1 a xs -> protocol (tmap bit_inject_many a) (fun r => shared_vec r (map of_Z xs : list F)).
Proof.
  intros Ha. unfold tmap, bit_inject_many, massert.
  assert (Hs : forallb (fun x => biguint_bits (sa x) <=? 1) (t0 a) = true /\ forallb (fun x => biguint_bits (sa x) <=? 1) (t1 a) = true /\
    forallb (fun x => biguint_bits (sa x) <=? 1) (t2 a) = true).
  { clear -Ha. induction Ha as [|a0 a1 a2 x l0 l1 l2 xs Hp Ha (IH0 & IH1 & IH2)]; [done|].
    destruct (size_ok 1 1 _ _ ltac:(lia) Hp) as (H0 & H1 & H2). cbn in *. by rewrite H0, H1, H2, IH0, IH1, IH2. }
  destruct Hs as (-> & -> & ->). eapply protocol_bind; [by apply (protocol_ret' tt tt tt (fun _ => True))|]. intros ? ? ? _. apply protocol_id.
  assert (H : exists us vs ws, length us = length vs /\ length vs = length ws /\ Forall (word 1) us /\ Forall (word 1) vs /\ Forall (word 1) ws /\
    xs = zip_with Z.lxor (zip_with Z.lxor us vs) ws /\
    shared_vec (mkTri (map (fun x => fst (fst (split_bit ID0 x))) (t0 a)) (map (fun x => fst (fst (split_bit ID1 x))) (t1 a)) (map (fun x => fst (fst (split_bit ID2 x))) (t2 a))) (map of_Z us : list F) /\
    shared_vec (mkTri (map (fun x => snd (fst (split_bit ID0 x))) (t0 a)) (map (fun x => snd (fst (split_bit ID1 x))) (t1 a)) (map (fun x => snd (fst (split_bit ID2 x))) (t2 a))) (map of_Z vs : list F) /\
    shared_vec (mkTri (map (fun x => snd (split_bit ID0 x)) (t0 a)) (map (fun x => snd (split_bit ID1 x)) (t1 a)) (map (fun x => snd (split_bit ID2 x)) (t2 a))) (map of_Z ws : list F)).
  { clear -Ha. induction Ha as [|b0 b1 b2 x l0 l1 l2 xs Hp Ha (us & vs & ws & E1 & E2 & U & V & W & -> & H1 & H2 & H3)].
    - exists [], [], []. split_and!; constructor.
    - destruct Hp as (a0 & a1 & a2 & W0 & W1 & W2 & [= -> -> ->] & <-). destruct (split_bit_shared (F := F) a0 a1 a2) as (B0 & B1 & B2).
      exists (a0 :: us), (a1 :: vs), (a2 :: ws). cbn [length map zip_with t0 t1 t2] in *.
      split_and!; [by rewrite E1|by rewrite E2|by constructor..|done| | |]; (constructor; [done|done]). }
  destruct H as (us & vs & ws & E1 & E2 & U & V & W & -> & H1 & H2 & H3).
  assert (Hx : forall us vs, length us = length vs -> Forall (word 1) us -> Forall (word 1) vs ->
    map (fun p => fsub (fadd (fst p) (snd p)) (fadd (fmul (fst p) (snd p)) (fmul (fst p) (snd p)))) (zip (map of_Z us) (map of_Z vs)) = (map of_Z (zip_with Z.lxor us vs) : list F)).
  { clear. intros us vs E U. revert vs E. induction U as [|u us Hu U IH]; intros [|v vs] [=] V; [done|]. apply Forall_cons in V as [Hv V].
    cbn. rewrite IH by done. f_equal. by apply of_Z_xor. }
  eapply protocol_bind; [refine (arithmetic_xor_many_spec _ _ _ _ H1 H2 _); by rewrite !length_map|]. intros d0 d1 d2 Hd.
  rewrite Hx in Hd by done. eapply protocol_weaken; [refine (arithmetic_xor_many_spec _ _ _ _ Hd H3 _); rewrite !length_map, length_zip_with; lia|].
  intros r. rewrite Hx; [done|rewrite length_zip_with; lia| |done].
  clear -U V. revert vs V. induction U as [|u us Hu U IH]; intros vs V; [constructor|]. destruct V as [|v vs Hv V]; [constructor|]. cbn.
  constructor; [apply bword_lxor; [lia|done..]|by apply IH].
Qed.

Lemma low_depth_binary_sub_many_spec a b xs ys : bshared_vec n a xs -> bshared_vec n b ys -> length xs = length ys ->
  protocol (tmap2 (fun a b => low_depth_binary_sub_many a b n) a b) (fun r => bshared_vec (n + 1) r (zip_with (fun x y => 2 ^ n + x - y) xs ys)).
Proof.
  intros Ha Hb El. pose proof (n_pos (F := F)). pose proof (tri_forall_words n _ _ n_nonneg Ha) as Hx. pose proof (tri_forall_words n _ _ n_nonneg Hb) as Hy.
  unfold tmap2, low_depth_binary_sub_many. apply protocol_id. set (m := Z.shiftl 1 n - 1).
  assert (Hb' : bshared_vec n (mkTri (map (fun x => xor_public x m ID0) (t0 b)) (map (fun x => xor_public x m ID1) (t1 b)) (map (fun x => xor_public x m ID2) (t2 b)))
    (map (fun y => Z.lxor y m) ys)).
  { refine (tri_forall_ids _ (bshared n) (fun id x => xor_public x m id) (fun y => Z.lxor y m) _ _ _ Hb).
    intros t v Ht. apply bshared_xor_public; [exact n_nonneg|done|apply word_mask, n_nonneg]. }
  assert (El' : length xs = length (map (fun y => Z.lxor y m) ys)) by (by rewrite length_map).
  eapply protocol_bind; [exact (and_vec_spec a _ xs _ Ha Hb' El')|]. intros g0 g1 g2 Hg.
  pose proof (bshared_vec_xor n a _ xs _ n_nonneg Ha Hb' El') as Hp.
  pose proof (bshared_vec_xor_lsb n _ _ _ _ n_nonneg Hg Hp ltac:(by rewrite !length_zip_with)) as Hg'.
  eapply protocol_bind; [refine (kogge_stone_inner_many_spec n _ _ _ _ _ Hp Hg' _); [lia|rewrite !length_zip_with; lia]|]. intros r0 r1 r2 Hr.
  apply protocol_ret'.
  assert (Hone : word (n + 1) 1) by (unfold word; pose proof (Z.pow_gt_1 2 (n + 1)); lia).
  pose proof (tri_forall_ids _ (bshared (n + 1)) (fun id r => xor_public r 1 id) (fun y => Z.lxor y 1) _ _
    (fun t v Ht => bshared_xor_public (n + 1) ltac:(lia) t v 1 Ht Hone) Hr) as Hres.
  match type of Hres with tri_forall _ _ ?u => replace (zip_with (fun x y => 2 ^ n + x - y) xs ys) with u; [exact Hres|] end.
  unfold m. clear -Hx Hy El H. revert ys El Hy. induction Hx as [|x xs Hx Hxs IH]; intros [|y ys] [=] Hy; [done|]. apply Forall_cons in Hy as [Hy Hys].
  cbn [map zip_with]. f_equal; [exact (ks_sum_sub n x y ltac:(lia) Hx Hy)|by apply IH].
Qed.

Lemma ge_many_spec a b xs ys : bshared_vec n a xs -> bshared_vec n b ys -> length xs = length ys ->
  protocol (tmap2 ge_many a b) (fun r => shared_vec r (zip_with (fun x y => of_Z (Z.b2z (y <=? x))) xs ys : list F)).
Proof.
  intros Ha Hb El. pose proof (tri_forall_words n _ _ n_nonneg Ha) as Hx. pose proof (tri_forall_words n _ _ n_nonneg Hb) as Hy.
  eapply protocol_bind.
  - eapply protocol_bind; [exact (low_depth_binary_sub_many_spec a b xs ys Ha Hb El)|]. intros d0 d1 d2 Hd.
    apply (protocol_ret' _ _ _ (fun r => bshared_vec 1 r (zip_with (fun x y => Z.b2z (y <=? x)) xs ys))).
    clear -Hd Hx Hy El. revert d0 d1 d2 ys El Hy Hd. induction Hx as [|x xs Hx Hxs IH]; intros d0 d1 d2 [|y ys] [=] Hy Hd.
    + inversion Hd; subst. constructor.
    + apply Forall_cons in Hy as [Hy Hys]. inversion Hd as [|e0 e1 e2 ? d0' d1' d2' ? He Hd']; subst. cbn. constructor; [exact (overflow_bit_spec _ _ _ He Hx Hy)|].
      by apply IH.
  - intros r0 r1 r2 Hr. eapply protocol_weaken; [exact (bit_inject_many_spec _ _ Hr)|]. intros r Hr'. cbv beta in Hr'.
    match type of Hr' with shared_vec _ ?u => replace (zip_with _ xs ys) with u; [done|] end.
    clear. revert ys. induction xs as [|x xs IH]; intros [|y ys]; cbn; [done..|]. by rewrite IH.
Qed.

Lemma lt_many_spec a b xs ys : bshared_vec n a xs -> bshared_vec n b ys -> length xs = length ys ->
  protocol (tmap2 lt_many a b) (fun r => shared_vec r (zip_with (fun x y => of_Z (Z.b2z (x <? y))) xs ys : list F)).
Proof.
  intros Ha Hb El. eapply protocol_bind; [exact (ge_many_spec a b xs ys Ha Hb El)|]. intros r0 r1 r2 Hr. apply protocol_id. apply protocol_ret'.
  pose proof (tri_forall_ids _ shared (fun id tmp => sub_public_by_shared fone tmp id) (fun v => fsub fone v) _ _
    (fun t v Ht => shared_sub_public t v fone Ht) Hr) as Hs.
  match type of Hs with tri_forall _ _ ?u => replace (zip_with _ xs ys) with u; [exact Hs|] end.
  clear. revert ys. induction xs as [|x xs IH]; intros [|y ys]; cbn; [done..|]. rewrite IH. f_equal. rewrite Z.ltb_antisym.
  destruct (y <=? x); cbn; rewrite ?of_Z_0, ?of_Z_1; ring.
Qed.

(** ** Zero tests *)

(** The first step of a round: pad to an even length. *)
Definition padded (len x : Z) : Z := if len mod 2 =? 1 then Z.setbit x len else x.

Lemma padded_all_ones len x : 1 < len ->
  let len' := if len mod 2 =? 1 then len + 1 else len in all_ones len' (padded len x) <-> all_ones len x.
Proof.
  intros Hlen. unfold padded. destruct (_ =? _); [|done]. split; intros H m Hm.
  - specialize (H m ltac:(lia)). rewrite Z.setbit_eqb in H by lia. by rewrite (proj2 (Z.eqb_neq len m)) in H by lia.
  - rewrite Z.setbit_eqb by lia. destruct (Z.eqb_spec len m); [done|]. apply H. lia.
Qed.

Lemma all_ones_1 x : Z.testbit x 0 = true <-> all_ones 1 x.
Proof. split; [intros H m Hm; by replace m with 0 by lia|intros H; apply H; lia]. Qed.

Lemma is_zero_many_loop_spec fuel : forall len a xs, 1 <= len <= n -> len <= Z.of_nat fuel + 1 -> bshared_vec n a xs ->
  protocol (tmap (is_zero_many_loop fuel len) a)
    (fun r => exists ys, bshared_vec n r ys /\ Forall2 (fun x y => Z.testbit y 0 = true <-> all_ones len x) xs ys).
Proof.
  induction fuel as [|fuel IH]; intros len a xs Hlen Hf Ha; unfold tmap; cbn [is_zero_many_loop].
  - rewrite (proj2 (Z.leb_le len 1)) by lia. destruct a. apply protocol_ret'. exists xs. split; [done|].
    replace len with 1 by lia. clear. induction xs; constructor; [apply all_ones_1|done].
  - destruct (Z.leb_spec len 1) as [H1|H1].
    { destruct a. apply protocol_ret'. exists xs. split; [done|]. replace len with 1 by lia. clear. induction xs; constructor; [apply all_ones_1|done]. }
    set (len' := if len mod 2 =? 1 then len + 1 else len). set (l := len' / 2).
    set (pad := fun l : list BinaryShare => if len mod 2 =? 1 then map (fun x => set_bit x len) l else l).
    assert (Hl : len' = 2 * l /\ 1 <= l < len) by (unfold l, len'; destruct (Z.eqb_spec (len mod 2) 1); lia).
    assert (Ha' : bshared_vec (n + 1) (tmap pad a) (map (padded len) xs)).
    { unfold pad, padded, bshared_vec. destruct (_ =? _).
      - refine (tri_forall_map1 (bshared n) _ _ _ _ _ _ Ha). intros t v Ht.
        apply (bshared_weaken (Z.max n (len + 1))); [lia|]. by apply bshared_set_bit; [lia|].
      - rewrite List.map_id. destruct a. apply (bshared_vec_weaken n); [lia|exact Ha]. }
    set (m := Z.shiftl 1 l - 1). eapply protocol_bind.
    + refine (and_vec_spec (tmap (map (fun x => and_with_public x m)) (tmap pad a))
        (tmap (map (fun x => and_with_public (bshr x l) m)) (tmap pad a))
        (map (fun x => Z.land x m) (map (padded len) xs)) (map (fun x => Z.land (Z.shiftr x l) m) (map (padded len) xs)) _ _ _).
      * apply (bshared_vec_weaken l); [lia|]. refine (tri_forall_map1 (bshared (n + 1)) _ _ _ _ _ _ Ha'). intros t v Ht. by apply (bshared_mask (n + 1)); [lia..|].
      * apply (bshared_vec_weaken l); [lia|]. refine (tri_forall_map1 (bshared (n + 1)) _ _ _ _ _ _ Ha'). intros t v Ht.
        apply (bshared_mask (n + 1 - l) l (tmap (fun s => bshr s l) t)); [lia..|]. by apply bshared_shr; [lia|].
      * by rewrite !length_map.
    + intros r0 r1 r2 Hr. eapply protocol_weaken; [apply (IH l (mkTri r0 r1 r2)); [lia..|exact Hr]|].
      intros r (ys & Hy & Hiff). exists ys. split; [done|]. unfold m in Hiff. revert ys Hiff Hy. clear -Hl H1. intros ys Hiff _. revert ys Hiff.
      induction xs as [|x xs IHx]; intros ys Hiff; [by inversion Hiff|]. cbn [map zip_with] in Hiff. inversion Hiff as [|? y ? ys' Hxy Hr]; subst.
      constructor; [|by apply IHx]. rewrite Hxy, all_ones_land, <- (proj1 Hl) by lia. exact (padded_all_ones len x H1).
Qed.

Lemma bis_zero_many_spec a xs : bshared_vec n a xs -> protocol (tmap bis_zero_many a) (fun r => bshared_vec 1 r (map (fun x => Z.b2z (x =? 0)) xs)).
Proof.
  intros Ha. pose proof (n_pos (F := F)). pose proof (tri_forall_words n _ _ n_nonneg Ha) as Hx. unfold tmap, bis_zero_many. set (m := Z.shiftl 1 n - 1).
  assert (Hm : word n m) by apply word_mask, n_nonneg.
  eapply protocol_bind.
  - refine (is_zero_many_loop_spec (Z.to_nat n) n (tmap (map (fun x => and_with_public (bxor_all x m) m)) a) (map (fun x => Z.land (Z.lxor x m) m) xs) _ _ _); [lia..|].
    refine (tri_forall_map1 (bshared n) _ _ _ _ _ _ Ha). intros t v Ht.
    apply (bshared_land n n_nonneg (tmap (fun s => bxor_all s m) t)); [|apply Hm]. by apply bshared_xor_all; [exact n_nonneg|..].
  - intros r0 r1 r2 (ys & Hy & Hiff). apply protocol_ret'.
    pose proof (tri_forall_map1 (bshared n) (bshared 1) (fun x => and_with_public x 1) (fun y => Z.land y (Z.shiftl 1 1 - 1)) _ _
      (fun t v Ht => bshared_mask n 1 t v n_nonneg ltac:(lia) Ht) Hy) as H1.
    match type of H1 with tri_forall _ _ ?u => replace (map _ xs) with u; [exact H1|] end.
    clear -Hx Hiff H. revert ys Hiff. induction Hx as [|x xs Hx Hxs IH]; intros ys Hiff; inversion Hiff as [|? y ? ys' Hxy Hr]; subst; [done|].
    cbn [map]. rewrite (IH _ Hr). f_equal. apply (zero_bit x y Hx Hxy).
Qed.

Lemma eq_many_spec a b xs ys : shared_vec a xs -> shared_vec b ys -> length xs = length ys ->
  protocol (tmap2 eq_many a b) (fun r => shared_vec r (zip_with (fun x y => of_Z (Z.b2z (into_biguint (fsub x y) =? 0))) xs ys : list F)).
Proof.
  intros Ha Hb El. unfold tmap2, eq_many, eq_bit_many.
  destruct (tri_forall_length _ _ _ Ha) as (A0 & A1 & A2), (tri_forall_length _ _ _ Hb) as (B0 & B1 & B2). unfold FieldShare in *.
  rewrite A0, A1, A2, B0, B1, B2, El, Nat.eqb_refl. cbn [negb].
  eapply protocol_bind.
  - eapply protocol_bind.
    + refine (a2b_many_spec _ _ (tri_forall_map2 _ _ shared share_sub fsub a xs b ys _ El Ha Hb)). intros. by apply shared_sub.
    + intros r0 r1 r2 Hr. exact (bis_zero_many_spec _ _ Hr).
  - intros r0 r1 r2 Hr. eapply protocol_weaken; [exact (bit_inject_many_spec _ _ Hr)|]. intros r Hr'. cbv beta in Hr'.
    match type of Hr' with shared_vec _ ?u => replace (zip_with _ xs ys) with u; [done|] end.
    clear. revert ys. induction xs as [|x xs IH]; intros [|y ys]; cbn; [done..|]. by rewrite IH.
Qed.

(** ** Binary to arithmetic *)

Definition b2a_result (t : Share F * Z * BinaryShare) (f : Share F -> F -> Share F) : Share F :=
  let '(res, rcv, z) := t in f res (of_Z (Z.lxor (Z.lxor (sa z) (sb z)) rcv)).

Lemma b2a_open_many_runs z r0 r1 r2 : protocol
  (mkTri (b2a_open_many (t0 z) r0) (b2a_open_many (t1 z) r1) (b2a_open_many (t2 z) r2))
  (fun r => r = mkTri (map (fun t => b2a_result t (fun res v => mkShare v (sb res))) (zip (zip r0 (map sb (t2 z))) (t0 z)))
                      (map (fun t => b2a_result t (fun res v => mkShare (sa res) v)) (zip (zip r1 (map sb (t0 z))) (t1 z))) r2).
Proof.
  destruct z as [z0 z1 z2]. intros c Hc. eexists _, c. split; [|split; [done|reflexivity]].
  pose proof (sy_id0 _ Hc) as I0. pose proof (sy_id1 _ Hc) as I1. pose proof (sy_id2 _ Hc) as I2. clear Hc.
  destruct c as [[i0 q0 s0 e0] [i1 q1 s1 e1] [i2 q2 s2 e2]]. cbn in I0, I1, I2. subst.
  unfold exec, b2a_open_many, mbind, get_id, network. exists [ID0; ID2; ID0; ID1].
  do 4 (cbn -[serialize deserialize]; rewrite ?deserialize_serialize). done.
Qed.

(** The keys of all elements. *)
Definition b2a_key (r : Tri (Share F * option F)) (k : F * F) : Prop :=
  r = mkTri (mkShare fzero (fopp (snd k)), None) (mkShare (fopp (fst k)) fzero, None)
            (mkShare (fopp (snd k)) (fopp (fst k)), Some (fadd (fst k) (snd k))).

Lemma b2a_keys_loop {A V} (P : Tri A -> V -> Prop) l vs : tri_forall P l vs ->
  protocol (tmap (mmap (fun _ => b2a_keys)) l) (fun r => exists ks, length ks = length vs /\ tri_forall b2a_key r ks).
Proof.
  induction 1 as [|a0 a1 a2 v l0 l1 l2 vs Hp Hl IH]; unfold tmap in *; cbn [mmap t0 t1 t2] in *.
  - apply protocol_ret'. exists []. split; [done|constructor].
  - eapply protocol_bind; [exact b2a_keys_spec|]. intros ? ? ? (k2 & k3 & [= -> -> ->]). eapply protocol_bind; [exact IH|].
    intros r0 r1 r2 (ks & El & Hk). apply protocol_ret'. exists ((k2, k3) :: ks). split; [cbn; by rewrite El|]. by constructor.
Qed.

Lemma b2a_many_spec a xs : bshared_vec n a xs -> Forall (fun x => x < p) xs ->
  protocol (tmap b2a_many a) (fun r => shared_vec r (map of_Z xs : list F)).
Proof.
  intros Ha Hx. unfold tmap, b2a_many. eapply protocol_bind; [exact (xor_mask_loop _ a xs Ha)|]. intros m0 m1 m2 Hm.
  eapply protocol_bind; [exact (b2a_keys_loop _ a xs Ha)|]. intros k0 k1 k2 (ks & El & Hk).
  eapply protocol_bind; [apply protocol_reshare_many|]. intros ? ? ? [= -> -> ->].
  set (ya := fun (m : list Z) (k : list (Share F * option F)) => map (fun t => b2a_masked (F := F) (fst t) (snd (snd t))) (zip m k)).
  set (us := map (fun k => into_biguint (fadd (fst k) (snd k))) ks).
  assert (Hy : tri_forall (bsummands n) (mkTri (ya m0 k0) (ya m1 k1) (ya m2 k2)) us).
  { clear Ha Hx. revert m0 m1 m2 Hm ks El k0 k1 k2 Hk us. induction xs as [|x xs IH]; intros m0 m1 m2 Hm [|k ks] [=] k0 k1 k2 Hk us.
    - inversion Hk; subst. inversion Hm; subst. constructor.
    - inversion Hk as [|? ? ? ? k0' k1' k2' ? Hk1 Hk']; subst. injection Hk1 as -> -> ->.
      inversion Hm as [|u0 u1 u2 ? m0' m1' m2' ? Hu Hm']; subst. unfold ya, us. cbn [zip_with map]. constructor; [|by apply IH].
      destruct Hu as (K0 & K1 & K2 & K). unfold bsummands. cbn in *.
      split_and!; [done..|apply bword_lxor; [exact n_nonneg|apply into_biguint_word|done]|].
      transitivity (Z.lxor (into_biguint (fadd (fst k) (snd k))) (Z.lxor (Z.lxor u0 u1) u2)); [bits|]. by rewrite K, Z.lxor_0_r. }
  assert (Eu : length xs = length us) by (unfold us; by rewrite length_map).
  eapply protocol_bind.
  - refine (add_mod_p_many_spec a _ xs us Ha (zip_bshares_shared n _ _ _ _ Hy) Eu Hx _).
    unfold us. clear. induction ks; constructor; [apply into_biguint_range|done].
  - intros z0 z1 z2 Hz. eapply protocol_weaken; [exact (b2a_open_many_runs (mkTri z0 z1 z2) _ _ _)|]. intros r ->. cbn [t0 t1 t2].
    clear -El Hk Hz. unfold us in Hz. clear us. revert ks El k0 k1 k2 Hk z0 z1 z2 Hz. induction xs as [|x xs IH]; intros [|k ks] [=] k0 k1 k2 Hk z0 z1 z2 Hz.
    + inversion Hk; subst. inversion Hz; subst. constructor.
    + inversion Hk as [|? ? ? ? k0' k1' k2' ? Hk1 Hk']; subst. injection Hk1 as -> -> ->.
      inversion Hz as [|? ? ? ? z0' z1' z2' ? (v0 & v1 & v2 & _ & _ & _ & [= -> -> ->] & Ev) Hz']; subst. cbn [map zip_with].
      constructor; [|by apply (IH ks)]. cbn in *.
      assert (E0 : Z.lxor (Z.lxor v0 v2) v1 = (x + into_biguint (fadd (fst k) (snd k))) mod p) by (rewrite <- Ev; bits).
      assert (E1 : Z.lxor (Z.lxor v1 v0) v2 = (x + into_biguint (fadd (fst k) (snd k))) mod p) by (rewrite <- Ev; bits).
      rewrite E0, E1, of_Z_mod, of_Z_add, of_Z_into_biguint. eexists _, _, _. split; [reflexivity|]. cbn. ring.
Qed.

End Many.
