(* ===== verification/Rep3BinTheorems.v ===== *)
(** * What the binary protocols promise

    Adders, conversions between the kinds of shares and comparisons, for every
    schedule of the three parties and every randomness. *)

From Stdlib Require Import ZArith Lia List Bool Ring.
From stdpp Require Import base list.
From S2P Require Import Prelude Words Field Carry MpcNet Rep3Ctx Rep3Rules Rep3Share Rep3Arith Rep3Correct Rep3Sample.
From S2P Require Import Rep3Binary Rep3BinCorrect Rep3BinMany.
Import ListNotations.
Local Open Scope Z_scope.
Local Open Scope mpc_scope.

Section Theorems.
Context {F : Type} `{JF : JoltField F} `{PF : !PrimeField F} `{RO : !RngOps F} `{B : Build}.
Abbreviation n := (@MODULUS_BIT_SIZE F JF PF).
Abbreviation p := (@MODULUS F JF PF).

Add Ring F_ring_bin_theorems : F_ring.

(** The indicator of a comparison, in the field. *)
Definition indicator (b : bool) : F := of_Z (Z.b2z b).
(** The order and equality of the representatives. *)
Definition fge (x y : F) : bool := into_biguint y <=? into_biguint x.
Definition feq (x y : F) : bool := into_biguint x =? into_biguint y.

Lemma feq_sub x y : (into_biguint (fsub x y) =? 0) = feq x y.
Proof.
  unfold feq. apply eq_true_iff_eq. rewrite !Z.eqb_eq, into_biguint_zero. split; intros H.
  - f_equal. transitivity (fadd (fsub x y) y); [ring|]. rewrite H. ring.
  - rewrite <- (of_Z_into_biguint x), <- (of_Z_into_biguint y), H. ring.
Qed.

Lemma neq_spec a b x y : shared a x -> shared b y -> protocol (tmap2 neq a b) (fun r => shared r (indicator (negb (feq x y)))).
Proof.
  intros Ha Hb. rewrite <- feq_sub. eapply protocol_bind; [exact (eq_spec a b x y Ha Hb)|]. intros r0 r1 r2 Hr. exact (one_minus_spec _ _ Hr).
Qed.

Lemma eq_public_spec a x y : shared a x -> protocol (tmap (fun a => eq_public a y) a) (fun r => shared r (indicator (feq x y))).
Proof.
  intros Ha. rewrite <- feq_sub. unfold tmap, eq_public. eapply protocol_bind.
  - apply protocol_id. exact (eq_bit_spec a _ x y Ha (shared_public y)).
  - intros r0 r1 r2 Hr. exact (bit_inject_spec _ _ Hr).
Qed.

Lemma is_zero_spec a x : shared a x -> protocol (tmap is_zero a) (fun r => revealed r (into_biguint x =? 0)).
Proof.
  intros Ha. unfold tmap, is_zero. assert (H0 : shared (tpure zero_share) (fzero : F)) by (exists fzero, fzero, fzero; split; [done|ring]).
  eapply protocol_bind; [exact (eq_bit_spec _ _ _ _ H0 Ha)|]. intros r0 r1 r2 Hr.
  eapply protocol_bind; [exact (bopen_spec 1 _ _ Hr)|]. intros ? ? ? [= -> -> ->]. apply protocol_ret'. unfold revealed, tpure.
  replace (Z.b2z (into_biguint (fsub fzero x) =? 0) =? 1) with (into_biguint x =? 0); [done|].
  rewrite feq_sub. unfold feq. replace (into_biguint (fzero : F)) with 0 by (symmetry; by apply into_biguint_zero).
  rewrite (Z.eqb_sym 0). by destruct (into_biguint x =? 0).
Qed.

(** ** Theorems *)

(** The Kogge-Stone adder of [detail.rs] adds, subtracts and adds modulo the
    field's prime on shared bits, for every schedule, with every share within the
    width its assertions ask for; the batched adder does so elementwise. *)
Theorem adders_correct a b x y l m xs ys : bshared n a x -> bshared n b y ->
  bshared_vec n l xs -> bshared_vec n m ys -> length xs = length ys -> Forall (fun x => x < p) xs -> Forall (fun y => y < p) ys ->
  delivers (tmap2 (fun a b => low_depth_binary_add a b n) a b) (fun r => bshared (n + 1) r (x + y)) /\
  delivers (tmap2 (fun a b => low_depth_binary_sub a b n) a b) (fun r => bshared (n + 1) r (2 ^ n + x - y)) /\
  (x < p -> y < p -> delivers (tmap2 (fun a b => low_depth_binary_add_mod_p a b n) a b) (fun r => bshared n r ((x + y) mod p))) /\
  delivers (tmap2 (fun a b => low_depth_binary_add_mod_p_many a b n) l m) (fun r => bshared_vec n r (zip_with (fun x y => (x + y) mod p) xs ys)).
Proof.
  intros Ha Hb Hl Hm El Hx Hy. split_and!; [| |intros Hx' Hy'|]; apply protocol_delivers.
  - by apply low_depth_binary_add_spec.
  - by apply low_depth_binary_sub_spec.
  - by apply add_mod_p_spec.
  - by apply add_mod_p_many_spec.
Qed.

(** C11: [a2b] shares the bits of the field element, [b2a] the element of the
    bits, so that one after the other gives shares of the same element; also
    batched; and [bit_inject] takes a shared bit into the field. *)
Theorem conversions_round_trip a x l xs c b : shared a x -> shared_vec l xs -> bshared 1 c b ->
  delivers (tmap a2b a) (fun r => bshared n r (into_biguint x)) /\
  delivers (tmap (fun a => bits <~ a2b a ;; b2a bits) a) (fun r => shared r x) /\
  delivers (tmap (fun l => bits <~ a2b_many l ;; b2a_many bits) l) (fun r => shared_vec r xs) /\
  delivers (tmap bit_inject c) (fun r => shared r (of_Z b : F)).
Proof.
  intros Ha Hl Hc. split_and!; apply protocol_delivers.
  - by apply a2b_spec.
  - eapply protocol_bind; [exact (a2b_spec a x Ha)|]. intros r0 r1 r2 Hr.
    rewrite <- (of_Z_into_biguint x). apply (b2a_spec (mkTri r0 r1 r2)); [done|]. apply into_biguint_range.
  - eapply protocol_bind; [exact (a2b_many_spec l xs Hl)|]. intros r0 r1 r2 Hr.
    eapply protocol_weaken; [apply (b2a_many_spec (mkTri r0 r1 r2) _ Hr)|].
    + clear. induction xs; constructor; [apply into_biguint_range|done].
    + intros r. rewrite List.map_map. rewrite (List.map_ext _ (fun x => x)) by apply of_Z_into_biguint. by rewrite List.map_id.
  - by apply bit_inject_spec.
Qed.


(** The batched comparisons of shared bits, and the batched equality of
    shared elements, are elementwise. *)
Theorem batched_comparisons_correct a b xs ys l m us vs :
  bshared_vec n a xs -> bshared_vec n b ys -> length xs = length ys ->
  shared_vec l us -> shared_vec m vs -> length us = length vs ->
  delivers (tmap2 ge_many a b) (fun r => shared_vec r (zip_with (fun x y => indicator (y <=? x)) xs ys)) /\
  delivers (tmap2 lt_many a b) (fun r => shared_vec r (zip_with (fun x y => indicator (x <? y)) xs ys)) /\
  delivers (tmap2 eq_many l m) (fun r => shared_vec r (zip_with (fun u v => indicator (feq u v)) us vs)).
Proof.
  intros Ha Hb El Hl Hm El'. split_and!; apply protocol_delivers.
  - by apply ge_many_spec.
  - by apply lt_many_spec.
  - eapply protocol_weaken; [exact (eq_many_spec l m us vs Hl Hm El')|]. intros r.
    cbv beta. match goal with |- shared_vec _ ?u -> shared_vec _ ?v => replace v with u; [done|] end.
    clear. revert vs. induction us as [|u us IH]; intros [|v vs]; cbn; [done..|]. rewrite IH. f_equal. by rewrite feq_sub.
Qed.

(** [ge_public] and [lt_public] against the constant 0 trip an assertion:
    with debug assertions party 0 panics, so that no schedule gives results;
    without them, and for other constants, the result is right. *)
Theorem ge_public_zero_panics a x y c : synced c -> shared a x ->
  (debug_assertions = true -> forall r, ~ runs (exec (tmap (fun a => ge_public a (fzero : F)) a) c) r) /\
  (nonzero y \/ debug_assertions = false ->
     delivers (tmap (fun a => ge_public a y) a) (fun r => shared r (indicator (fge x y))) /\
     delivers (tmap (fun a => lt_public a y) a) (fun r => shared r (indicator (negb (fge x y))))).
Proof.
  intros Hc Ha. split.
  - intros Hd r. exact (crashes_no_result c _ ID0 r (ge_public_zero_crashes a x c Hc Ha Hd)).
  - intros Hy. split; apply protocol_delivers; [by apply ge_public_spec|]. unfold indicator, fge. rewrite <- Z.ltb_antisym. by apply lt_public_spec.
Qed.

End Theorems.

(** [share_rep3_binary] gives each party the share of the next one, where the
    protocols expect that of the previous one: it combines, but does not open. *)
Lemma share_rep3_binary_combines secret a1 a2 : let s := share_rep3_binary secret a1 a2 in
  combine_binary_element (t0 s) (t1 s) (t2 s) = secret.
Proof. unfold combine_binary_element. cbn. bits. Qed.

Lemma share_rep3_binary_opens_shares {F : Type} `{JF : JoltField F} `{PF : !PrimeField F} `{RO : !RngOps F} secret a1 a2 :
  protocol (tmap (bopen (F := F)) (share_rep3_binary secret a1 a2)) (fun r => r = mkTri a2 (Z.lxor (Z.lxor secret a1) a2) a1).
Proof.
  eapply protocol_bind; [apply protocol_reshare|]. intros c0 c1 c2 [= -> -> ->]. apply protocol_ret'. cbn. f_equal; bits.
Qed.

(** ** Witnesses, on the integers modulo 101 *)

#[local] Existing Instance test_rv64.

Definition sample_bits (x : Z) : Tri BinaryShare := shares_of (Z.lxor x 96) 64 32.

Lemma sample_bits_spec w x : 7 <= w -> 0 <= x < 128 -> bshared w (sample_bits x) x.
Proof.
  intros Hw Hx. apply (bshared_weaken 7); [done|]. exists (Z.lxor x 96), 64, 32. split_and!; [|unfold word; lia..|done|].
  - apply bword_lxor; unfold word; lia.
  - by rewrite !Z.lxor_assoc, Z.lxor_nilpotent, Z.lxor_0_r.
Qed.

Lemma sample_vec_shared xs : shared_vec (mkTri (map (fun x => t0 (sample_shares x)) xs) (map (fun x => t1 (sample_shares x)) xs)
  (map (fun x => t2 (sample_shares x)) xs)) (map of_Z xs).
Proof. induction xs as [|x xs IH]; constructor; [exact (sample_shares_spec x)|exact IH]. Qed.

Lemma adders_correct_witness :
  delivers (tmap2 (fun a b => low_depth_binary_add_mod_p (F := F101) a b 7) (sample_bits 99) (sample_bits 5)) (fun r => bshared 7 r 3).
Proof.
  apply (@adders_correct F101 F101_field F101_prime F101_rng test_rv64 (sample_bits 99) (sample_bits 5) 99 5 (mkTri [] [] []) (mkTri [] [] []) [] []
    (sample_bits_spec 7 99 ltac:(lia) ltac:(lia)) (sample_bits_spec 7 5 ltac:(lia) ltac:(lia)) (tri_nil _) (tri_nil _) eq_refl); [constructor..| |]; cbn; lia.
Defined.

Lemma conversions_round_trip_witness :
  delivers (tmap (fun a => mbind (a2b a) (fun bits => b2a bits)) (sample_shares 42)) (fun r => shared r (of_Z 42 : F101)).
Proof.
  apply (conversions_round_trip (sample_shares 42) (of_Z 42) (mkTri [] [] []) [] (tpure bzero_share) 0
    (sample_shares_spec 42) (tri_nil _)). exists 0, 0, 0. unfold word. split_and!; (done || lia).
Defined.


Lemma batched_comparisons_correct_witness :
  delivers (tmap2 lt_many (mkTri [t0 (sample_bits 3)] [t1 (sample_bits 3)] [t2 (sample_bits 3)]) (mkTri [t0 (sample_bits 4)] [t1 (sample_bits 4)] [t2 (sample_bits 4)]))
    (fun r => shared_vec r [indicator true : F101]).
Proof.
  apply (@batched_comparisons_correct F101 F101_field F101_prime F101_rng test_rv64
    (mkTri [t0 (sample_bits 3)] [t1 (sample_bits 3)] [t2 (sample_bits 3)]) (mkTri [t0 (sample_bits 4)] [t1 (sample_bits 4)] [t2 (sample_bits 4)]) [3] [4]
    (mkTri [] [] []) (mkTri [] [] []) [] []); [..|done|constructor|constructor|done]; (constructor; [apply sample_bits_spec; cbn; lia|constructor]).
Defined.

Lemma ge_public_zero_panics_witness :
  ~ runs (exec (tmap (fun a => ge_public a (fzero : F101)) (sample_shares 42)) sample_contexts) (tmap2 pair (sample_shares 1) sample_contexts).
Proof. apply (ge_public_zero_panics (sample_shares 42) (of_Z 42) fzero sample_contexts sample_synced (sample_shares_spec 42)). done. Defined.
