(* ===== verification/Rep3Ring.v ===== *)
(** * Protocols over rings

    [mpc-core/src/protocols/rep3_ring]: shares of integers modulo [2 ^ K], with
    addition or exclusive or as the combining operation, their arithmetic and
    binary protocols, the adders of [detail.rs], the conversions of
    [conversion.rs], the comparisons of [arithmetic.rs] and the casts of
    [casts.rs].  [T] is the type of the ring's elements.  Operations that have the
    name of one of the field protocols are used with the name of this file. *)

From Stdlib Require Import ZArith Lia List Bool.
From stdpp Require Import base list.
From S2P Require Import Prelude Words Field Carry Ring2k RingCarry MpcNet Rep3Ctx Rep3Rules Rep3Share Rep3Arith Rep3Binary.
Import ListNotations.
Local Open Scope Z_scope.
Local Open Scope mpc_scope.

(** [Rep3RingShare<T>]; [Rep3RingSignedShare<T>] *)
Definition RingShare := Share Z.
Record SignedShare := mkSigned { sh_abs : RingShare; sh_sign : RingShare }.

(** ** Operators of [Rep3RingShare] ([types.rs]) *)

Definition rzero_share : RingShare := mkShare 0 0.
Definition rs_add (T : RingType) (x y : RingShare) : RingShare := mkShare (ring_add T (sa x) (sa y)) (ring_add T (sb x) (sb y)).
Definition rs_sub (T : RingType) (x y : RingShare) : RingShare := mkShare (ring_sub T (sa x) (sa y)) (ring_sub T (sb x) (sb y)).
Definition rs_neg (T : RingType) (x : RingShare) : RingShare := mkShare (ring_neg T (sa x)) (ring_neg T (sb x)).
Definition rs_scale (T : RingType) (x : RingShare) (c : Z) : RingShare := mkShare (ring_mul T (sa x) c) (ring_mul T (sb x) c).
(** the local part of a product *)
Definition rs_mul (T : RingType) (x y : RingShare) : Z :=
  ring_add T (ring_add T (ring_mul T (sa x) (sa y)) (ring_mul T (sa x) (sb y))) (ring_mul T (sb x) (sa y)).
Definition rs_xor (T : RingType) (x y : RingShare) : RingShare := mkShare (ring_xor T (sa x) (sa y)) (ring_xor T (sb x) (sb y)).
Definition rs_and_public (T : RingType) (x : RingShare) (m : Z) : RingShare := mkShare (ring_and T (sa x) m) (ring_and T (sb x) m).
(** the local part of a conjunction *)
Definition rs_and (T : RingType) (x y : RingShare) : Z :=
  ring_xor T (ring_xor T (ring_and T (sa x) (sa y)) (ring_and T (sa x) (sb y))) (ring_and T (sb x) (sa y)).
Definition rs_shl (T : RingType) (x : RingShare) (n : Z) : RingShare := mkShare (ring_shl T (sa x) n) (ring_shl T (sb x) n).
Definition rs_shr (T : RingType) (x : RingShare) (n : Z) : RingShare := mkShare (ring_shr T (sa x) n) (ring_shr T (sb x) n).
Definition rs_not (T : RingType) (x : RingShare) : RingShare := mkShare (ring_not T (sa x)) (ring_not T (sb x)).
(** a share of a bit *)
Definition share_get_bit (T : RingType) (x : RingShare) (index : Z) : RingShare :=
  mkShare (if get_bit T (sa x) index =? 1 then 1 else 0) (if get_bit T (sb x) index =? 1 then 1 else 0).
Definition is_even (T : RingType) (x : RingShare) : RingShare := rs_not Bit (share_get_bit T x 0).

(** ** Sharing ([rep3_ring.rs]) *)

Definition share_ring_element (T : RingType) (val a b : Z) : Tri RingShare :=
  let c := ring_sub T (ring_sub T val a) b in mkTri (mkShare a c) (mkShare b a) (mkShare c b).
Definition share_ring_element_binary (T : RingType) (val a b : Z) : Tri RingShare :=
  let c := ring_xor T (ring_xor T val a) b in mkTri (mkShare a c) (mkShare b a) (mkShare c b).
Definition combine_ring_element (T : RingType) (share1 share2 share3 : RingShare) : Z :=
  ring_add T (ring_add T (sa share1) (sa share2)) (sa share3).
Definition combine_ring_element_binary (T : RingType) (share1 share2 share3 : RingShare) : Z :=
  ring_xor T (ring_xor T (sa share1) (sa share2)) (sa share3).

(** ** Local operations ([arithmetic.rs], [binary.rs]) *)

Definition add_public (T : RingType) (shared : RingShare) (public : Z) (id : PartyID) : RingShare :=
  match id with
  | ID0 => mkShare (ring_add T (sa shared) public) (sb shared)
  | ID1 => mkShare (sa shared) (ring_add T (sb shared) public)
  | ID2 => shared
  end.
Definition sub_shared_by_public (T : RingType) (shared : RingShare) (public : Z) (id : PartyID) : RingShare :=
  add_public T shared (ring_neg T public) id.
Definition sub_public_by_shared (T : RingType) (public : Z) (shared : RingShare) (id : PartyID) : RingShare :=
  add_public T (rs_neg T shared) public id.
Definition mul_public (T : RingType) (shared : RingShare) (public : Z) : RingShare := rs_scale T shared public.
Definition add_mul_public (T : RingType) (a b : RingShare) (c : Z) : RingShare := rs_add T a (mul_public T b c).
Definition promote_to_trivial_share (id : PartyID) (public_value : Z) : RingShare :=
  match id with ID0 => mkShare public_value 0 | ID1 => mkShare 0 public_value | ID2 => rzero_share end.

Definition xor_public (T : RingType) (shared : RingShare) (public : Z) (id : PartyID) : RingShare :=
  match id with
  | ID0 => mkShare (ring_xor T (sa shared) public) (sb shared)
  | ID1 => mkShare (sa shared) (ring_xor T (sb shared) public)
  | ID2 => shared
  end.
Definition or_public (T : RingType) (shared : RingShare) (public : Z) (id : PartyID) : RingShare :=
  let tmp := rs_and_public T shared public in
  let xor := xor_public T shared public id in
  rs_xor T xor tmp.

(** [public.0.try_into()] to [usize]: [None] is the panic of the failed cast *)
Definition try_usize (z : Z) : option Z := if z <? 2 ^ 64 then Some z else None.
Definition shift_r_public (T : RingType) (shared : RingShare) (public : Z) : option RingShare :=
  if public =? 0 then Some shared
  else match try_usize public with Some shift => Some (rs_shr T shared shift) | None => None end.
Definition shift_l_public (T : RingType) (shared : RingShare) (public : Z) : option RingShare :=
  if public =? 0 then Some shared
  else match try_usize public with Some shift => Some (rs_shl T shared shift) | None => None end.
Definition pow_2_public (T : RingType) (shared : RingShare) (public : Z) : option RingShare :=
  if public =? 0 then Some shared
  else match try_usize public with
       | None => None
       | Some shift => if K T <=? shift then None else Some (mul_public T shared (ring_shl T 1 shift))
       end.

(** [pack_bits], [unpack_bits] *)
Definition pack_bits (T : RingType) (input : list RingShare) : RingShare :=
  fold_left (fun acc p => let '(i, bit) := p in
      mkShare (ring_or T (sa acc) (ring_shl T (sa bit) i)) (ring_or T (sb acc) (ring_shl T (sb bit) i)))
    (imap (fun i bit => (Z.of_nat i, bit)) input) rzero_share.
Definition unpack_bits (T : RingType) (input : RingShare) (len : nat) : list RingShare :=
  map (fun i => share_get_bit T input (Z.of_nat i)) (seq 0 len).

(** [downcast]: [None] is the failed assertion *)
Definition downcast (T U : RingType) (share : RingShare) : option RingShare :=
  if K U <=? K T then Some (mkShare (as_ T U (sa share)) (as_ T U (sb share))) else None.

Section Ring.
Context {F : Type} `{JF : JoltField F} `{PF : !PrimeField F} `{RO : !RngOps F} `{B : Build}.

(** ** Randomness *)

(** [Standard: Distribution<T>]; [U34] and [U66] mask a machine integer *)
Definition gen_ring (T : RingType) (r : Rng) : Z * Rng :=
  match T with
  | U34 => let (z, r) := gen_bits 64 r in (Z.land z MASK34, r)
  | U66 => let (z, r) := gen_bits 128 r in (Z.land z MASK66, r)
  | _ => gen_bits (K T) r
  end.
Definition random_ring (T : RingType) : MPC (Z * Z) := with_rand (draw2 (gen_ring T)).
(** [masking_element] *)
Definition ring_masking (T : RingType) : MPC Z := p <~ random_ring T ;; mret (ring_sub T (fst p) (snd p)).
(** [mask ^= mask_b] *)
Definition ring_xor_mask (T : RingType) : MPC Z := p <~ random_ring T ;; mret (ring_xor T (fst p) (snd p)).

Definition zip_rshares (local_a local_b : list Z) : list RingShare := map (fun p => mkShare (fst p) (snd p)) (zip local_a local_b).

(** ** Arithmetic protocols *)

Definition mul (T : RingType) (a b : RingShare) : MPC RingShare :=
  m <~ ring_masking T ;;
  let local_a := ring_add T (rs_mul T a b) m in
  local_b <~ network (fun id => reshare id local_a) ;;
  mret (mkShare local_a local_b).

Definition reshare_vec (local_a : list Z) : MPC (list RingShare) :=
  local_b <~ network (fun id => reshare_many id local_a) ;;
  if Nat.eqb (length local_b) (length local_a) then mret (zip_rshares local_a local_b) else io_err.

Definition mul_vec (T : RingType) (lhs rhs : list RingShare) : MPC (list RingShare) :=
  mdebug_assert (Nat.eqb (length lhs) (length rhs)) ;~
  local_a <~ mmap (fun p => m <~ ring_masking T ;; mret (ring_add T (rs_mul T (fst p) (snd p)) m)) (zip lhs rhs) ;;
  reshare_vec local_a.

(** [local_mul_vec]: the masks are drawn first, and nothing is reshared *)
Definition local_mul_vec (T : RingType) (lhs rhs : list RingShare) : MPC (list Z) :=
  maskings <~ mmap (fun _ => ring_masking T) lhs ;;
  mret (map (fun t => let '(l, r, m) := t in ring_add T (rs_mul T l r) m) (zip (zip lhs rhs) maskings)).

Definition open (T : RingType) (a : RingShare) : MPC Z :=
  c <~ network (fun id => reshare id (sb a)) ;; mret (ring_add T (ring_add T (sa a) (sb a)) c).
Definition open_vec (T : RingType) (a : list RingShare) : MPC (list Z) :=
  c <~ network (fun id => reshare_many id (map sb a)) ;;
  mret (map (fun p => ring_add T (ring_add T (sa (fst p)) (sb (fst p))) (snd p)) (zip a c)).
(** [open_bit], and [binary::open] *)
Definition bopen (T : RingType) (a : RingShare) : MPC Z :=
  c <~ network (fun id => reshare id (sb a)) ;; mret (ring_xor T (ring_xor T (sa a) (sb a)) c).
Definition bopen_vec (T : RingType) (a : list RingShare) : MPC (list Z) :=
  c <~ network (fun id => reshare_many id (map sb a)) ;;
  mret (map (fun p => ring_xor T (ring_xor T (sa (fst p)) (sb (fst p))) (snd p)) (zip a c)).

Definition cmux (T : RingType) (cond truthy falsy : RingShare) : MPC RingShare :=
  let b_min_a := rs_sub T truthy falsy in
  d <~ mul T cond b_min_a ;; mret (rs_add T falsy d).
Definition cmux_many (T : RingType) (cond truthy falsy : list RingShare) : MPC (list RingShare) :=
  let b_min_a := map (fun p => rs_sub T (fst p) (snd p)) (zip truthy falsy) in
  d <~ mul_vec T cond b_min_a ;; mret (map (fun p => rs_add T (fst p) (snd p)) (zip falsy d)).
Definition add_mul (T : RingType) (a b c : RingShare) : MPC RingShare := m <~ mul T c b ;; mret (rs_add T a m).

Definition mul_open (T : RingType) (a b : RingShare) : MPC Z :=
  m <~ ring_masking T ;;
  let a := ring_add T (rs_mul T a b) m in
  bc <~ network (fun id => broadcast id a) ;;
  mret (ring_add T (ring_add T a (fst bc)) (snd bc)).
Definition mul_open_vec (T : RingType) (a b : list RingShare) : MPC (list Z) :=
  a <~ mmap (fun p => m <~ ring_masking T ;; mret (ring_add T (rs_mul T (fst p) (snd p)) m)) (zip a b) ;;
  bc <~ network (fun id => broadcast_many id a) ;;
  mret (map (fun p => ring_add T (fst (fst p)) (ring_add T (snd (fst p)) (snd p))) (zip (zip a (fst bc)) (snd bc))).
Definition rand (T : RingType) : MPC RingShare := p <~ random_ring T ;; mret (mkShare (fst p) (snd p)).

(** [while !public.is_zero()] over the bits of the exponent *)
Fixpoint pow_loop (T : RingType) (public : positive) (res shared : RingShare) : MPC (RingShare * RingShare) :=
  match public with
  | xH => res <~ mul T res shared ;; shared <~ mul T shared shared ;; mret (res, shared)
  | xO e => shared <~ mul T shared shared ;; pow_loop T e res shared
  | xI e => res <~ mul T res shared ;; shared <~ mul T shared shared ;; pow_loop T e res shared
  end.
Definition pow_public (T : RingType) (shared : RingShare) (public : Z) : MPC RingShare :=
  id <~ get_id ;;
  let res := promote_to_trivial_share id 1 in
  p <~ match public with Zpos e => pow_loop T e res shared | _ => mret (res, shared) end ;;
  mul T (fst p) (snd p).

Definition ring_xor_local (T : RingType) (x y : RingShare) (m : Z) : Z :=
  let d := ring_shl T (ring_add T (rs_mul T x y) m) 1 in
  let e := ring_add T (sa x) (sa y) in
  ring_sub T e d.
Definition arithmetic_xor (T : RingType) (x y : RingShare) : MPC RingShare :=
  m <~ ring_masking T ;;
  let res_a := ring_xor_local T x y m in
  res_b <~ network (fun id => reshare id res_a) ;;
  mret (mkShare res_a res_b).
Definition arithmetic_xor_many (T : RingType) (x y : list RingShare) : MPC (list RingShare) :=
  mdebug_assert (Nat.eqb (length x) (length y)) ;~
  a <~ mmap (fun p => m <~ ring_masking T ;; mret (ring_xor_local T (fst p) (snd p) m)) (zip x y) ;;
  b <~ network (fun id => reshare_many id a) ;;
  mret (zip_rshares a b).

(** ** Binary protocols *)

Definition and (T : RingType) (a b : RingShare) : MPC RingShare :=
  mask <~ ring_xor_mask T ;;
  let local_a := ring_xor T (rs_and T a b) mask in
  local_b <~ network (fun id => reshare id local_a) ;;
  mret (mkShare local_a local_b).
Definition and_many (T : RingType) (a b : list RingShare) : MPC (list RingShare) :=
  local_a <~ mmap (fun p => mask <~ ring_xor_mask T ;; mret (ring_xor T (rs_and T (fst p) (snd p)) mask)) (zip a b) ;;
  local_b <~ network (fun id => reshare_many id local_a) ;;
  mret (zip_rshares local_a local_b).
Definition or (T : RingType) (a b : RingShare) : MPC RingShare :=
  let xor := rs_xor T a b in
  and <~ and T a b ;; mret (rs_xor T xor and).
Definition or_many (T : RingType) (a b : list RingShare) : MPC (list RingShare) :=
  let xor := map (fun p => rs_xor T (fst p) (snd p)) (zip a b) in
  and <~ and_many T a b ;; mret (map (fun p => rs_xor T (fst p) (snd p)) (zip xor and)).
Definition bcmux (T : RingType) (c x_t x_f : RingShare) : MPC RingShare :=
  let xor := rs_xor T x_f x_t in
  and <~ and T c xor ;; mret (rs_xor T and x_f).
Definition bcmux_many (T : RingType) (c x_t x_f : list RingShare) : MPC (list RingShare) :=
  let xor := map (fun p => rs_xor T (fst p) (snd p)) (zip x_f x_t) in
  and <~ and_many T c xor ;; mret (map (fun p => rs_xor T (fst p) (snd p)) (zip and x_f)).

(** [while num > 1], at most [fuel] rounds *)
Fixpoint or_tree_loop (T : RingType) (fuel : nat) (inputs : list RingShare) : MPC (list RingShare) :=
  let num := length inputs in
  if Nat.leb num 1 then mret inputs
  else match fuel with
  | O => crash
  | S fuel =>
      let num := Nat.div2 num in
      let a_vec := take num inputs in
      let tmp := drop num inputs in
      let b_vec := take num tmp in
      let leftover := drop num tmp in
      res <~ mmap (fun p => or T (fst p) (snd p)) (zip a_vec b_vec) ;;
      or_tree_loop T fuel (res ++ leftover)
  end.
Definition or_tree (T : RingType) (inputs : list RingShare) : MPC RingShare :=
  res <~ or_tree_loop T (length inputs) inputs ;;
  match res with [] => crash | r :: _ => mret r end.

(** [while len > 1], at most [fuel] rounds *)
Fixpoint is_zero_loop (T : RingType) (fuel : nat) (len : Z) (x : RingShare) : MPC RingShare :=
  if len <=? 1 then mret x
  else match fuel with
  | O => crash
  | S fuel =>
      let len := Z.shiftr len 1 in
      let mask := ring_sub T (ring_shl T 1 len) 1 in
      let y := rs_shr T x len in
      x <~ and T (rs_and_public T x mask) (rs_and_public T y mask) ;;
      is_zero_loop T fuel len x
  end.
(** the lowest bit, as a share of a bit *)
Definition lsb (T : RingType) (x : RingShare) : RingShare :=
  mkShare (if ring_and T (sa x) 1 =? 1 then 1 else 0) (if ring_and T (sb x) 1 =? 1 then 1 else 0).
Definition bis_zero (T : RingType) (x : RingShare) : MPC RingShare :=
  let x := rs_not T x in
  mdebug_assert (power_of_two T) ;~
  x <~ is_zero_loop T (Z.to_nat (K T)) (K T) x ;;
  mret (lsb T x).
Fixpoint is_zero_many_loop (T : RingType) (fuel : nat) (len : Z) (x : list RingShare) : MPC (list RingShare) :=
  if len <=? 1 then mret x
  else match fuel with
  | O => crash
  | S fuel =>
      let len := Z.shiftr len 1 in
      let mask := ring_sub T (ring_shl T 1 len) 1 in
      let a := map (fun s => rs_and_public T s mask) x in
      let b := map (fun s => rs_and_public T (rs_shr T s len) mask) x in
      x <~ and_many T a b ;;
      is_zero_many_loop T fuel len x
  end.
Definition bis_zero_many (T : RingType) (x : list RingShare) : MPC (list RingShare) :=
  let x := map (rs_not T) x in
  mdebug_assert (power_of_two T) ;~
  x <~ is_zero_many_loop T (Z.to_nat (K T)) (K T) x ;;
  mret (map (lsb T) x).

(** ** Adders ([detail.rs]) *)

Definition and_twice (T : RingType) (a b1 b2 : RingShare) : MPC (RingShare * RingShare) :=
  mask1 <~ ring_xor_mask T ;;
  mask2 <~ ring_xor_mask T ;;
  let local_a1 := ring_xor T (rs_and T b1 a) mask1 in
  let local_a2 := ring_xor T (rs_and T a b2) mask2 in
  network (fun id => send_next id (local_a1, local_a2)) ;~
  local_b <~ network (fun id => recv_prev (T := Z * Z) id) ;;
  mret (mkShare local_a1 (fst local_b), mkShare local_a2 (snd local_b)).
Definition and_twice_many_iter (T : RingType) (l : list (RingShare * RingShare * RingShare)) : MPC (list RingShare * list RingShare) :=
  local_a <~ mmap (fun t => let '(a, b1, b2) := t in
               mask1 <~ ring_xor_mask T ;;
               mask2 <~ ring_xor_mask T ;;
               mret (ring_xor T (rs_and T b1 a) mask1, ring_xor T (rs_and T a b2) mask2)) l ;;
  let local_a1 := map fst local_a in
  let local_a2 := map snd local_a in
  network (fun id => send_next id (local_a1, local_a2)) ;~
  local_b <~ network (fun id => recv_prev (T := list Z * list Z) id) ;;
  mret (zip_rshares local_a1 (fst local_b), zip_rshares local_a2 (snd local_b)).

(** [for i in 0..d] *)
Fixpoint kogge_stone_steps (T : RingType) (d : nat) (i : Z) (p g : RingShare) : MPC RingShare :=
  match d with
  | O => mret g
  | S d =>
      let shift := Z.shiftl 1 i in
      let p_ := rs_shl T p shift in
      let g_ := rs_shl T g shift in
      r <~ and_twice T p g_ p_ ;;
      kogge_stone_steps T d (i + 1) (snd r) (rs_xor T g (fst r))
  end.
Definition kogge_stone_loop (T : RingType) (p g : RingShare) : MPC RingShare :=
  mdebug_assert (power_of_two T) ;~
  kogge_stone_steps T (ilog2_K T) 0 p g.
Fixpoint kogge_stone_steps_many (T : RingType) (d : nat) (i : Z) (p g : list RingShare) : MPC (list RingShare) :=
  match d with
  | O => mret g
  | S d =>
      let shift := Z.shiftl 1 i in
      let p_ := map (fun x => rs_shl T x shift) p in
      let g_ := map (fun x => rs_shl T x shift) g in
      r <~ and_twice_many_iter T (zip (zip p g_) p_) ;;
      kogge_stone_steps_many T d (i + 1) (snd r) (map (fun t => rs_xor T (fst t) (snd t)) (zip g (fst r)))
  end.
Definition kogge_stone_loop_many (T : RingType) (p g : list RingShare) : MPC (list RingShare) :=
  mdebug_assert (power_of_two T) ;~
  kogge_stone_steps_many T (ilog2_K T) 0 p g.

Definition kogge_stone_inner (T : RingType) (p g : RingShare) : MPC RingShare :=
  g <~ kogge_stone_loop T p g ;; mret (rs_xor T (rs_shl T g 1) p).
Definition kogge_stone_inner_many (T : RingType) (p g : list RingShare) : MPC (list RingShare) :=
  g <~ kogge_stone_loop_many T p g ;; mret (map (fun t => rs_xor T (rs_shl T (fst t) 1) (snd t)) (zip g p)).
Definition kogge_stone_inner_with_carry (T : RingType) (p g : RingShare) : MPC (RingShare * RingShare) :=
  g <~ kogge_stone_loop T p g ;;
  let c := share_get_bit T g (K T - 1) in
  mret (rs_xor T (rs_shl T g 1) p, c).
Definition kogge_stone_inner_with_carry_many (T : RingType) (p g : list RingShare) : MPC (list RingShare * list RingShare) :=
  g <~ kogge_stone_loop_many T p g ;;
  let c := map (fun g => share_get_bit T g (K T - 1)) g in
  mret (map (fun t => rs_xor T (rs_shl T (fst t) 1) (snd t)) (zip g p), c).

Definition low_depth_binary_add (T : RingType) (x1 x2 : RingShare) : MPC RingShare :=
  let p := rs_xor T x1 x2 in
  g <~ and T x1 x2 ;;
  kogge_stone_inner T p g.
Definition low_depth_binary_add_many (T : RingType) (x1 x2 : list RingShare) : MPC (list RingShare) :=
  let p := map (fun t => rs_xor T (fst t) (snd t)) (zip x1 x2) in
  g <~ and_many T x1 x2 ;;
  kogge_stone_inner_many T p g.

Definition low_depth_binary_sub_with_carry (T : RingType) (x1 x2 : RingShare) : MPC (RingShare * RingShare) :=
  let x2 := rs_not T x2 in
  let p := rs_xor T x1 x2 in
  g <~ and T x1 x2 ;;
  let g := rs_xor T g (rs_and_public T p 1) in
  r <~ kogge_stone_inner_with_carry T p g ;;
  id <~ get_id ;;
  mret (xor_public T (fst r) 1 id, snd r).
Definition low_depth_binary_sub_with_carry_many (T : RingType) (x1 x2 : list RingShare) : MPC (list RingShare * list RingShare) :=
  let x2 := map (rs_not T) x2 in
  let p := map (fun t => rs_xor T (fst t) (snd t)) (zip x1 x2) in
  g <~ and_many T x1 x2 ;;
  let g := map (fun t => rs_xor T (fst t) (rs_and_public T (snd t) 1)) (zip g p) in
  r <~ kogge_stone_inner_with_carry_many T p g ;;
  id <~ get_id ;;
  mret (map (fun r => xor_public T r 1 id) (fst r), snd r).
Definition low_depth_binary_sub_by_const_with_carry (T : RingType) (x1 : RingShare) (x2 : Z) : MPC (RingShare * RingShare) :=
  let x2_ := ring_add T (ring_not T x2) 1 in
  id <~ get_id ;;
  let p := xor_public T x1 x2_ id in
  let g := rs_and_public T x1 x2_ in
  r <~ kogge_stone_inner_with_carry T p g ;;
  mret (fst r, if x2 =? 0 then rs_not Bit (snd r) else snd r).
Definition low_depth_binary_sub_from_const_with_carry (T : RingType) (x1 : Z) (x2 : RingShare) : MPC (RingShare * RingShare) :=
  let x2 := rs_not T x2 in
  id <~ get_id ;;
  let p := xor_public T x2 x1 id in
  let g := rs_and_public T x2 x1 in
  let g := rs_xor T g (rs_and_public T p 1) in
  r <~ kogge_stone_inner_with_carry T p g ;;
  mret (xor_public T (fst r) 1 id, snd r).

(** ** Conversions ([conversion.rs]) *)

Definition a2b (T : RingType) (x : RingShare) : MPC RingShare :=
  r <~ ring_xor_mask T ;;
  id <~ get_id ;;
  let x01_a := match id with ID0 | ID2 => r | ID1 => ring_xor T (ring_add T (sa x) (sb x)) r end in
  let x2 := match id with ID0 => mkShare 0 (sb x) | ID1 => rzero_share | ID2 => mkShare (sa x) 0 end in
  network (fun id => send_next id x01_a) ;~
  local_b <~ network (fun id => recv_prev id) ;;
  low_depth_binary_add T (mkShare x01_a local_b) x2.
Definition a2b_many (T : RingType) (x : list RingShare) : MPC (list RingShare) :=
  r_vec <~ mmap (fun _ => ring_xor_mask T) x ;;
  id <~ get_id ;;
  let x2 := map (fun x => match id with ID0 => mkShare 0 (sb x) | ID1 => rzero_share | ID2 => mkShare (sa x) 0 end) x in
  let x01_a := match id with
    | ID0 | ID2 => r_vec
    | ID1 => map (fun t => ring_xor T (ring_add T (sa (fst t)) (sb (fst t))) (snd t)) (zip x r_vec) end in
  x01_b <~ network (fun id => reshare_many id x01_a) ;;
  low_depth_binary_add_many T (zip_rshares x01_a x01_b) x2.

Definition ring_sum3 (T : RingType) (k : Z * Z * Z) : Z := let '(k0, k1, k2) := k in ring_add T (ring_add T k0 k1) k2.

(** What [b2a] draws: the share [res] so far and the mask value. *)
Definition b2a_keys (T : RingType) : MPC (RingShare * option Z) :=
  id <~ get_id ;;
  match id with
  | ID0 => k3 <~ with_bitcomp2 (draw3 (gen_ring T)) ;; mret (mkShare 0 (ring_neg T (ring_sum3 T k3)), None)
  | ID1 => k2 <~ with_bitcomp1 (draw3 (gen_ring T)) ;; mret (mkShare (ring_neg T (ring_sum3 T k2)) 0, None)
  | ID2 =>
      k2 <~ with_bitcomp1 (draw3 (gen_ring T)) ;;
      k3 <~ with_bitcomp2 (draw3 (gen_ring T)) ;;
      mret (mkShare (ring_neg T (ring_sum3 T k3)) (ring_neg T (ring_sum3 T k2)), Some (ring_add T (ring_sum3 T k2) (ring_sum3 T k3)))
  end.
Definition b2a_masked (T : RingType) (r : Z) (val : option Z) : Z := match val with Some val => ring_xor T val r | None => r end.

(** The masked sum is opened to parties 0 and 1. *)
Definition b2a_open (T : RingType) (z res : RingShare) : MPC RingShare :=
  id <~ get_id ;;
  match id with
  | ID0 =>
      network (fun id => send_next id (sb z)) ;~
      rcv <~ network (fun id => recv_prev id) ;;
      mret (mkShare (ring_xor T (ring_xor T (sa z) (sb z)) rcv) (sb res))
  | ID1 =>
      rcv <~ network (fun id => recv_prev id) ;;
      mret (mkShare (sa res) (ring_xor T (ring_xor T (sa z) (sb z)) rcv))
  | ID2 => network (fun id => send_next id (sb z)) ;~ mret res
  end.
Definition b2a (T : RingType) (x : RingShare) : MPC RingShare :=
  r <~ ring_xor_mask T ;;
  k <~ b2a_keys T ;;
  let y_a := b2a_masked T r (snd k) in
  network (fun id => send_next id y_a) ;~
  local_b <~ network (fun id => recv_prev id) ;;
  z <~ low_depth_binary_add T x (mkShare y_a local_b) ;;
  b2a_open T z (fst k).
Definition b2a_open_many (T : RingType) (z res : list RingShare) : MPC (list RingShare) :=
  id <~ get_id ;;
  match id with
  | ID0 =>
      rcv <~ network (fun id => reshare_many id (map sb z)) ;;
      mret (map (fun t => let '(res, rcv, z) := t in mkShare (ring_xor T (ring_xor T (sa z) (sb z)) rcv) (sb res)) (zip (zip res rcv) z))
  | ID1 =>
      rcv <~ network (fun id => recv_many (prev_id id)) ;;
      mret (map (fun t => let '(res, rcv, z) := t in mkShare (sa res) (ring_xor T (ring_xor T (sa z) (sb z)) rcv)) (zip (zip res rcv) z))
  | ID2 => network (fun id => send_many (next_id id) (map sb z)) ;~ mret res
  end.
Definition b2a_many (T : RingType) (x : list RingShare) : MPC (list RingShare) :=
  r_vec <~ mmap (fun _ => ring_xor_mask T) x ;;
  k <~ mmap (fun _ => b2a_keys T) x ;;
  let y_a := map (fun t => b2a_masked T (fst t) (snd (snd t))) (zip r_vec k) in
  y_b <~ network (fun id => reshare_many id y_a) ;;
  z <~ low_depth_binary_add_many T x (zip_rshares y_a y_b) ;;
  b2a_open_many T z (map fst k).

(** The summands of a bit as three shared values. *)
Definition rsplit_bit (id : PartyID) (x : RingShare) : RingShare * RingShare * RingShare :=
  match id with
  | ID0 => (mkShare (sa x) 0, rzero_share, mkShare 0 (sb x))
  | ID1 => (mkShare 0 (sb x), mkShare (sa x) 0, rzero_share)
  | ID2 => (rzero_share, mkShare 0 (sb x), mkShare (sa x) 0)
  end.
Definition inject (T : RingType) (x : RingShare) : MPC RingShare :=
  id <~ get_id ;;
  let '(b0, b1, b2) := rsplit_bit id x in
  d <~ arithmetic_xor T b0 b1 ;;
  arithmetic_xor T d b2.
Definition inject_many (T : RingType) (x : list RingShare) : MPC (list RingShare) :=
  id <~ get_id ;;
  let b0 := map (fun x => fst (fst (rsplit_bit id x))) x in
  let b1 := map (fun x => snd (fst (rsplit_bit id x))) x in
  let b2 := map (fun x => snd (rsplit_bit id x)) x in
  d <~ arithmetic_xor_many T b0 b1 ;;
  arithmetic_xor_many T d b2.
Definition bit_inject (T : RingType) (x : RingShare) : MPC RingShare :=
  massert (ring_bits T (sa x) <=? 1) ;~ inject T x.
Definition bit_inject_many (T : RingType) (x : list RingShare) : MPC (list RingShare) :=
  massert (forallb (fun x => ring_bits T (sa x) <=? 1) x) ;~ inject_many T x.
(** From shares of a [Bit]; [T::from(bool)] is 0 or 1. *)
Definition bit_inject_from_bit (T : RingType) (x : RingShare) : MPC RingShare := inject T x.
Definition bit_inject_from_bits_many (T : RingType) (x : list RingShare) : MPC (list RingShare) := inject_many T x.
Definition bit_inject_from_bits_to_field_many (x : list RingShare) : MPC (list (Share F)) :=
  id <~ get_id ;;
  let b0 := map (fun x => fst (fst (split_bit id x))) x in
  let b1 := map (fun x => snd (fst (split_bit id x))) x in
  let b2 := map (fun x => snd (split_bit id x)) x in
  d <~ Rep3Arith.arithmetic_xor_many b0 b1 ;;
  Rep3Arith.arithmetic_xor_many d b2.

(** ** Comparisons *)

Definition unsigned_ge (T : RingType) (x y : RingShare) : MPC RingShare :=
  a_bits <~ a2b T x ;;
  b_bits <~ a2b T y ;;
  r <~ low_depth_binary_sub_with_carry T a_bits b_bits ;;
  mret (snd r).
Definition unsigned_ge_many (T : RingType) (x_bits y_bits : list RingShare) : MPC (list RingShare) :=
  r <~ low_depth_binary_sub_with_carry_many T x_bits y_bits ;; mret (snd r).
Definition unsigned_ge_const_lhs (T : RingType) (x : Z) (y : RingShare) : MPC RingShare :=
  b_bits <~ a2b T y ;;
  r <~ low_depth_binary_sub_from_const_with_carry T x b_bits ;;
  mret (snd r).
Definition unsigned_ge_const_rhs (T : RingType) (x : RingShare) (y : Z) : MPC RingShare :=
  a_bits <~ a2b T x ;;
  r <~ low_depth_binary_sub_by_const_with_carry T a_bits y ;;
  mret (snd r).
Definition kogge_stone_carries_many (T : RingType) (p g : list RingShare) : MPC (list RingShare) :=
  r <~ kogge_stone_inner_with_carry_many T p g ;; mret (snd r).
Definition unsigned_ge_const_rhs_many (T : RingType) (x_bits : list RingShare) (y_consts : list Z) : MPC (list RingShare) :=
  mdebug_assert (Nat.eqb (length x_bits) (length y_consts)) ;~
  let neg_ys := map (fun y => ring_add T (ring_not T y) 1) y_consts in
  let g := map (fun t => rs_and_public T (fst t) (snd t)) (zip x_bits neg_ys) in
  id <~ get_id ;;
  let p := map (fun t => xor_public T (fst t) (snd t) id) (zip x_bits neg_ys) in
  r <~ kogge_stone_inner_with_carry_many T p g ;;
  mret (map (fun t => if snd t =? 0 then rs_not Bit (fst t) else fst t) (zip (snd r) y_consts)).
Definition unsigned_ge_const_lhs_many (T : RingType) (x_consts : list Z) (y_bits : list RingShare) : MPC (list RingShare) :=
  mdebug_assert (Nat.eqb (length x_consts) (length y_bits)) ;~
  let y_neg := map (rs_not T) y_bits in
  id <~ get_id ;;
  let p := map (fun t => xor_public T (fst t) (snd t) id) (zip y_neg x_consts) in
  let g := map (fun t => rs_and_public T (fst t) (snd t)) (zip y_neg x_consts) in
  let g := map (fun t => rs_xor T (fst t) (rs_and_public T (snd t) 1)) (zip g p) in
  r <~ kogge_stone_inner_with_carry_many T p g ;;
  mret (snd r).

Definition ge (T : RingType) (lhs rhs : RingShare) : MPC RingShare := unsigned_ge T lhs rhs.
Definition ge_many (T : RingType) (lhs rhs : list RingShare) : MPC (list RingShare) := unsigned_ge_many T lhs rhs.
Definition ge_public (T : RingType) (lhs : RingShare) (rhs : Z) : MPC RingShare := unsigned_ge_const_rhs T lhs rhs.
Definition lt (T : RingType) (lhs rhs : RingShare) : MPC RingShare :=
  tmp <~ ge T lhs rhs ;; id <~ get_id ;; mret (sub_public_by_shared Bit 1 tmp id).
Definition lt_many (T : RingType) (lhs rhs : list RingShare) : MPC (list RingShare) :=
  tmp <~ ge_many T lhs rhs ;; mret (map (rs_not Bit) tmp).
Definition lt_public (T : RingType) (lhs : RingShare) (rhs : Z) : MPC RingShare := tmp <~ ge_public T lhs rhs ;; mret (rs_not Bit tmp).
Definition le (T : RingType) (lhs rhs : RingShare) : MPC RingShare := ge T rhs lhs.
Definition le_public (T : RingType) (lhs : RingShare) (rhs : Z) : MPC RingShare := unsigned_ge_const_lhs T rhs lhs.
Definition gt (T : RingType) (lhs rhs : RingShare) : MPC RingShare := tmp <~ le T lhs rhs ;; mret (rs_not Bit tmp).
Definition gt_public (T : RingType) (lhs : RingShare) (rhs : Z) : MPC RingShare := tmp <~ le_public T lhs rhs ;; mret (rs_not Bit tmp).
Definition eq (T : RingType) (a b : RingShare) : MPC RingShare :=
  let diff := rs_sub T a b in
  bits <~ a2b T diff ;; bis_zero T bits.
Definition eq_public (T : RingType) (shared : RingShare) (public : Z) : MPC RingShare :=
  id <~ get_id ;; eq T shared (promote_to_trivial_share id public).
Definition eq_many (T : RingType) (a b : list RingShare) : MPC (list RingShare) :=
  let diff := map (fun t => rs_sub T (fst t) (snd t)) (zip a b) in
  bits <~ a2b_many T diff ;; bis_zero_many T bits.
Definition neq (T : RingType) (a b : RingShare) : MPC RingShare := eq <~ eq T a b ;; mret (rs_not Bit eq).
Definition neq_many (T : RingType) (a b : list RingShare) : MPC (list RingShare) := eq <~ eq_many T a b ;; mret (map (rs_not Bit) eq).
Definition neq_public (T : RingType) (shared : RingShare) (public : Z) : MPC RingShare :=
  id <~ get_id ;; neq T shared (promote_to_trivial_share id public).
Definition is_zero (T : RingType) (a : RingShare) : MPC bool :=
  res <~ eq T rzero_share a ;;
  x <~ bopen Bit res ;;
  mret (x =? 1).

(** ** Casts ([casts.rs]) *)

Definition upcast_a2b (T U : RingType) (share : RingShare) : MPC RingShare :=
  massert (K T <? K U) ;~
  match T with
  | Bit => bit_inject_from_bit U share
  | _ =>
      binary <~ a2b T share ;;
      b2a U (mkShare (as_ T U (sa binary)) (as_ T U (sb binary)))
  end.
Definition upcast_many_from_binary (T U : RingType) (binary : list RingShare) : MPC (list RingShare) :=
  massert (K T <? K U) ;~
  match T with
  | Bit => crash
  | _ => b2a_many U (map (fun s => mkShare (as_ T U (sa s)) (as_ T U (sb s))) binary)
  end.
Definition cast_a2b (T U : RingType) (share : RingShare) : MPC RingShare :=
  if K U <=? K T then match downcast T U share with Some s => mret s | None => crash end else upcast_a2b T U share.
Definition field_to_ring_a2b (T : RingType) (share : Share F) : MPC RingShare :=
  binary <~ Rep3Binary.a2b share ;;
  b2a T (mkShare (cast_from_biguint T (sa binary)) (cast_from_biguint T (sb binary))).
Definition ring_to_field_a2b (T : RingType) (share : RingShare) : MPC (Share F) :=
  match T with
  | Bit => Rep3Binary.bit_inject share
  | _ => binary <~ a2b T share ;; Rep3Binary.b2a binary
  end.
Definition r2f_many (T : RingType) (shares : list RingShare) : MPC (list (Share F)) :=
  match T with
  | Bit => Rep3Binary.bit_inject_many shares
  | _ => binary <~ a2b_many T shares ;; Rep3Binary.b2a_many binary
  end.
Definition r2f_b2a_many (T : RingType) (binary : list RingShare) : MPC (list (Share F)) :=
  match T with
  | Bit => Rep3Binary.bit_inject_many binary
  | _ => Rep3Binary.b2a_many binary
  end.
Definition signed_binary_ring_to_field_many (T : RingType) (singed : list SignedShare) : MPC (list (Share F)) :=
  positive <~ r2f_b2a_many T (map sh_abs singed) ;;
  let negative := map Rep3Arith.neg positive in
  signs <~ bit_inject_from_bits_to_field_many (map sh_sign singed) ;;
  Rep3Arith.cmux_many signs positive negative.

End Ring.
