(* ===== verification/Rep3RingCorrect.v ===== *)
(** * Correctness of the ring protocols

    Every protocol of [Rep3Ring] takes shares of its arguments to shares of its
    result: arithmetic modulo [2 ^ K], bitwise operations, adders, conversions,
    comparisons. *)

From Stdlib Require Import ZArith Lia List Bool Setoid Morphisms Btauto.
From stdpp Require Import base list.
From S2P Require Import Prelude Words Field Carry Ring2k RingCarry MpcNet Rep3Ctx Rep3Rules Rep3Share Rep3Arith Rep3Correct Rep3Binary Rep3BinCorrect Rep3BinMany Rep3Ring.
Import ListNotations.
Local Open Scope Z_scope.
Local Open Scope mpc_scope.
Local Open Scope ring2k_scope.

(** The element of the ring an integer stands for. *)
Definition rmod (T : RingType) (z : Z) : Z := z mod 2 ^ K T.

(** Shares of an element of the ring, of a vector. *)
Definition rshared (T : RingType) (s : Tri RingShare) (x : Z) : Prop :=
  exists a0 a1 a2, word (K T) a0 /\ word (K T) a1 /\ word (K T) a2 /\ s = shares_of a0 a1 a2 /\ x = rmod T (a0 + a1 + a2).
Definition rshared_vec (T : RingType) : Tri (list RingShare) -> list Z -> Prop := tri_forall (rshared T).
Definition rsummands (T : RingType) (s : Tri Z) (x : Z) : Prop :=
  word (K T) (t0 s) /\ word (K T) (t1 s) /\ word (K T) (t2 s) /\ x = rmod T (t0 s + t1 s + t2 s).

Lemma rmod_word T z : word (K T) (rmod T z).
Proof. apply word_mod, K_nonneg. Qed.
Lemma rmod_small T z : word (K T) z -> rmod T z = z.
Proof. apply Z.mod_small. Qed.
Lemma rmod_eqm T z : rmod T z =[T]= z.
Proof. apply eqm_mod. Qed.
Lemma rmod_of_eqm T a b : a =[T]= b -> rmod T a = rmod T b.
Proof. done. Qed.

Create HintDb ring_words.
#[export] Hint Resolve ring_add_word ring_sub_word ring_mul_word ring_neg_word rmod_word : ring_words.

(** Equations between elements of the ring. *)
Ltac ring_mod :=
  apply rmod_of_eqm; cbn [shares_of t0 t1 t2 sa sb]; rewrite ?rmod_eqm, ?ring_sub_eqm, ?ring_add_eqm, ?ring_mul_eqm, ?ring_neg_eqm;
  rewrite ?rmod_eqm, ?ring_sub_eqm, ?ring_add_eqm, ?ring_mul_eqm, ?ring_neg_eqm;
  apply eqm_eq; ring.
Ltac open_rshares := repeat match goal with H : rshared _ _ _ |- _ => destruct H as (? & ? & ? & ? & ? & ? & -> & ->) end.
Ltac close_rshares := cbn [shares_of tmap tmap2 with_ids t0 t1 t2 sa sb];
  eexists _, _, _; split_and!; [..|reflexivity|]; [eauto with ring_words..|ring_mod].

Section Local.
Context (T : RingType).

Lemma rshared_word s x : rshared T s x -> word (K T) x.
Proof. intros. open_rshares. apply rmod_word. Qed.
Lemma word_0_K : word (K T) 0.
Proof. apply word_0, K_nonneg. Qed.
Hint Resolve word_0_K : ring_words.

Lemma rshared_add a b x y : rshared T a x -> rshared T b y -> rshared T (tmap2 (rs_add T) a b) (rmod T (x + y)).
Proof. intros. open_rshares. unfold rs_add. close_rshares. Qed.
Lemma rshared_sub a b x y : rshared T a x -> rshared T b y -> rshared T (tmap2 (rs_sub T) a b) (rmod T (x - y)).
Proof. intros. open_rshares. unfold rs_sub. close_rshares. Qed.
Lemma rshared_neg a x : rshared T a x -> rshared T (tmap (rs_neg T) a) (rmod T (- x)).
Proof. intros. open_rshares. unfold rs_neg. close_rshares. Qed.
Lemma rshared_scale a x c : word (K T) c -> rshared T a x -> rshared T (tmap (fun s => rs_scale T s c) a) (rmod T (x * c)).
Proof. intros. open_rshares. unfold rs_scale. close_rshares. Qed.
Lemma rshared_add_public a x c : word (K T) c -> rshared T a x -> rshared T (with_ids (fun s => add_public T s c) a) (rmod T (x + c)).
Proof. intros. open_rshares. unfold with_ids, add_public. close_rshares. Qed.
Lemma rshared_sub_public a x c : word (K T) c -> rshared T a x -> rshared T (with_ids (fun s => sub_public_by_shared T c s) a) (rmod T (c - x)).
Proof. intros. open_rshares. unfold with_ids, sub_public_by_shared, add_public, rs_neg. close_rshares. Qed.
Lemma rshared_public c : word (K T) c -> rshared T (with_ids (fun _ id => promote_to_trivial_share id c) (tpure tt)) c.
Proof.
  intros. exists c, 0, 0. split_and!; [done|apply word_0_K..|reflexivity|]. by rewrite !Z.add_0_r, rmod_small.
Qed.

Lemma rs_mul_word x y : word (K T) (sa x) -> word (K T) (sb x) -> word (K T) (sa y) -> word (K T) (sb y) -> word (K T) (rs_mul T x y).
Proof. intros. unfold rs_mul. auto with ring_words. Qed.
Hint Resolve rs_mul_word : ring_words.

Lemma rs_mul_local a b x y : rshared T a x -> rshared T b y -> rsummands T (tmap2 (rs_mul T) a b) (rmod T (x * y)).
Proof.
  intros. open_rshares. unfold rsummands, rs_mul. cbn [shares_of tmap2 t0 t1 t2 sa sb]. split_and!; [auto with ring_words..|ring_mod].
Qed.

Lemma rsummands_masked s m x : rsummands T s x -> rsummands T m 0 -> rsummands T (tmap2 (ring_add T) s m) x.
Proof.
  intros (S0 & S1 & S2 & ->) (M0 & M1 & M2 & E). unfold rsummands. cbn [tmap2 t0 t1 t2]. split_and!; [auto with ring_words..|].
  apply rmod_of_eqm. rewrite !ring_add_eqm. transitivity (t0 s + t1 s + t2 s + rmod T (t0 m + t1 m + t2 m)).
  - by rewrite <- E, Z.add_0_r.
  - rewrite rmod_eqm. apply eqm_eq; ring.
Qed.

Lemma rsummands_shared l0 l1 l2 x : rsummands T (mkTri l0 l1 l2) x -> rshared T (shares_of l0 l1 l2) x.
Proof. intros (H0 & H1 & H2 & H). by exists l0, l1, l2. Qed.

(** What is shared is found again. *)
Lemma share_ring_element_shared v a b : word (K T) v -> word (K T) a -> word (K T) b -> rshared T (share_ring_element T v a b) v.
Proof.
  intros. unfold share_ring_element. exists a, b, (ring_sub T (ring_sub T v a) b). split_and!; [auto with ring_words..|reflexivity|].
  rewrite <- (rmod_small T v) at 1 by done. ring_mod.
Qed.
Lemma combine_shared s x : rshared T s x -> combine_ring_element T (t0 s) (t1 s) (t2 s) = x.
Proof.
  intros. open_rshares. cbn [shares_of t0 t1 t2]. unfold combine_ring_element. cbn [sa].
  rewrite <- (rmod_small T (ring_add T _ _)) by auto with ring_words. ring_mod.
Qed.

End Local.
#[export] Hint Resolve word_0_K rs_mul_word : ring_words.

(** Vectors of summands, zipped with what the previous party sent. *)
Lemma zip_rshares_shared T l0 l1 l2 xs : tri_forall (rsummands T) (mkTri l0 l1 l2) xs ->
  rshared_vec T (mkTri (zip_rshares l0 l2) (zip_rshares l1 l0) (zip_rshares l2 l1)) xs.
Proof.
  intros H. remember (mkTri l0 l1 l2) as l eqn:El. revert l0 l1 l2 El.
  induction H as [|a0 a1 a2 v l0' l1' l2' vs Hp H IH]; intros ? ? ? [= <- <- <-]; [constructor|].
  unfold zip_rshares in *. cbn. constructor; [exact (rsummands_shared _ _ _ _ _ Hp)|by apply IH].
Qed.

Lemma map_zip {A A' R} (f : A -> A' -> R) us vs : map (fun p => f (fst p) (snd p)) (zip us vs) = zip_with f us vs.
Proof. revert vs. induction us as [|u us IH]; intros [|v vs]; cbn; [done..|]. by rewrite IH. Qed.

Section Arithmetic.
Context {F : Type} `{JF : JoltField F} `{PF : !PrimeField F} `{RO : !RngOps F} `{B : Build}.
Context (T : RingType).

Lemma gen_ring_word r : word (K T) (fst (gen_ring T r)).
Proof.
  unfold gen_ring. destruct T; try (apply gen_bits_range; cbn; lia).
  - pose proof (gen_bits_range 64 r ltac:(lia)) as H. destruct (gen_bits 64 r) as [z r']. cbn [fst]. unfold MASK34. rewrite land_mask by lia. apply word_mod. lia.
  - pose proof (gen_bits_range 128 r ltac:(lia)) as H. destruct (gen_bits 128 r) as [z r']. cbn [fst]. unfold MASK66. rewrite land_mask by lia. apply word_mod. lia.
Qed.

Lemma random_ring_spec : protocol (tpure (random_ring T))
  (fun r => exists a b d, word (K T) a /\ word (K T) b /\ word (K T) d /\ r = mkTri (a, d) (b, a) (d, b)).
Proof. exact (protocol_draw (gen_ring T) (word (K T)) gen_ring_word). Qed.

Lemma ring_masking_spec : protocol (tpure (ring_masking T)) (fun r => rsummands T r 0).
Proof.
  eapply protocol_bind; [exact random_ring_spec|]. intros p0 p1 p2 (a & b & d & Ha & Hb & Hd & [= -> -> ->]). apply protocol_ret'.
  unfold rsummands. cbn [t0 t1 t2 fst snd]. split_and!; [auto with ring_words..|].
  rewrite <- (rmod_small T 0) by apply word_0_K. ring_mod.
Qed.

Lemma ring_rand_spec : protocol (tpure (rand T)) (fun r => exists x, rshared T r x).
Proof.
  eapply protocol_bind; [exact random_ring_spec|]. intros p0 p1 p2 (a & b & d & Ha & Hb & Hd & [= -> -> ->]). apply protocol_ret'.
  exists (rmod T (a + b + d)). by exists a, b, d.
Qed.

(** A masked local result that is reshared. *)
Lemma masked_ring_reshare (f0 f1 f2 : Z -> Z) x :
  (forall m0 m1 m2, rsummands T (mkTri m0 m1 m2) 0 -> rsummands T (mkTri (f0 m0) (f1 m1) (f2 m2)) x) ->
  let reshared l := b <~ network (fun id => reshare id l) ;; mret (mkShare l b) in
  protocol (mkTri (m <~ ring_masking T ;; reshared (f0 m)) (m <~ ring_masking T ;; reshared (f1 m)) (m <~ ring_masking T ;; reshared (f2 m)))
    (fun r => rshared T r x).
Proof.
  intros Hf reshared. eapply protocol_bind; [exact ring_masking_spec|]. intros m0 m1 m2 Hm. unfold reshared.
  eapply protocol_bind; [apply protocol_reshare|]. intros b0 b1 b2 [= -> -> ->]. apply protocol_ret'. by apply rsummands_shared, Hf.
Qed.

Lemma ring_mul_spec a b x y : rshared T a x -> rshared T b y -> protocol (tmap2 (mul T) a b) (fun r => rshared T r (rmod T (x * y))).
Proof.
  intros Ha Hb. apply (masked_ring_reshare (fun m => ring_add T (rs_mul T (t0 a) (t0 b)) m) (fun m => ring_add T (rs_mul T (t1 a) (t1 b)) m)
    (fun m => ring_add T (rs_mul T (t2 a) (t2 b)) m)). intros m0 m1 m2 Hm.
  exact (rsummands_masked T _ (mkTri m0 m1 m2) _ (rs_mul_local T a b x y Ha Hb) Hm).
Qed.

Lemma ring_cmux_spec c a b z x y : rshared T c z -> rshared T a x -> rshared T b y ->
  protocol (mkTri (cmux T (t0 c) (t0 a) (t0 b)) (cmux T (t1 c) (t1 a) (t1 b)) (cmux T (t2 c) (t2 a) (t2 b)))
    (fun r => rshared T r (rmod T (y + z * (x - y)))).
Proof.
  intros Hc Ha Hb. eapply protocol_bind; [exact (ring_mul_spec c _ _ _ Hc (rshared_sub T a b x y Ha Hb))|]. intros d0 d1 d2 Hd. apply protocol_ret'.
  replace (rmod T (y + z * (x - y))) with (rmod T (y + rmod T (z * rmod T (x - y)))) by ring_mod. exact (rshared_add T b (mkTri d0 d1 d2) _ _ Hb Hd).
Qed.

Lemma ring_open_spec a x : rshared T a x -> protocol (tmap (open T) a) (fun r => revealed r x).
Proof.
  intros. open_rshares. eapply protocol_bind; [apply protocol_reshare|]. intros c0 c1 c2 [= -> -> ->]. cbn [shares_of t0 t1 t2 sa sb].
  apply protocol_ret'. unfold revealed, tpure. f_equal; (rewrite <- (rmod_small T (ring_add T _ _)) by auto with ring_words; ring_mod).
Qed.

Lemma ring_open_vec_spec a xs : rshared_vec T a xs -> protocol (tmap (open_vec T) a) (fun r => revealed r xs).
Proof.
  intros Ha. eapply protocol_bind; [apply protocol_reshare_many|]. intros c0 c1 c2 [= -> -> ->]. apply protocol_ret'.
  unfold revealed, tpure. induction Ha as [|a0 a1 a2 v l0 l1 l2 vs Hp Hl IH]; [done|]. cbn [t0 t1 t2 map zip_with fst snd] in *.
  destruct Hp as (u0 & u1 & u2 & U0 & U1 & U2 & [= -> -> ->] & ->). injection IH as E0 E1 E2. rewrite E0, E1, E2. cbn [sa sb].
  f_equal; f_equal; (rewrite <- (rmod_small T (ring_add T _ _)) by auto with ring_words; ring_mod).
Qed.

Lemma ring_mul_open_spec a b x y : rshared T a x -> rshared T b y -> protocol (tmap2 (mul_open T) a b) (fun r => revealed r (rmod T (x * y))).
Proof.
  intros Ha Hb. eapply protocol_bind; [exact ring_masking_spec|]. intros m0 m1 m2 Hm.
  eapply protocol_bind; [apply protocol_broadcast|]. intros p0 p1 p2 [= -> -> ->]. apply protocol_ret'.
  pose proof (rsummands_masked T _ _ _ (rs_mul_local T a b x y Ha Hb) Hm) as (W0 & W1 & W2 & ->). cbn [tmap2 t0 t1 t2 fst snd] in *.
  unfold revealed, tpure. f_equal; (rewrite <- (rmod_small T (ring_add T (ring_add T (ring_add T _ _) _) _)) by auto with ring_words; ring_mod).
Qed.

(** ** Vectors *)

Lemma rshared_zip a b xs ys : rshared_vec T a xs -> rshared_vec T b ys -> length xs = length ys ->
  tri_forall (fun ab v => rshared T (tmap fst ab) (fst v) /\ rshared T (tmap snd ab) (snd v)) (tmap2 zip a b) (zip xs ys).
Proof. destruct a, b. apply tri_forall_zip. Qed.

(** A loop of masked local results. *)
Lemma masked_ring_loop {A V} (P : Tri A -> V -> Prop) (f : A -> Z) (g : V -> Z) l vs :
  (forall a v, P a v -> rsummands T (tmap f a) (g v)) -> tri_forall P l vs ->
  protocol (tmap (mmap (fun a => m <~ ring_masking T ;; mret (ring_add T (f a) m))) l) (fun r => tri_forall (rsummands T) r (map g vs)).
Proof.
  intros Hf Hl. apply (protocol_mmap P (rsummands T) g); [|done]. intros a v Ha.
  eapply protocol_bind; [exact ring_masking_spec|]. intros m0 m1 m2 Hm. apply protocol_ret'.
  exact (rsummands_masked T (tmap f a) (mkTri m0 m1 m2) _ (Hf a v Ha) Hm).
Qed.

Lemma ring_reshare_vec_spec l0 l1 l2 xs : tri_forall (rsummands T) (mkTri l0 l1 l2) xs ->
  protocol (mkTri (reshare_vec l0) (reshare_vec l1) (reshare_vec l2)) (fun r => rshared_vec T r xs).
Proof.
  intros H. destruct (tri_forall_length _ _ _ H) as (E0 & E1 & E2). cbn in E0, E1, E2.
  unfold reshare_vec. eapply protocol_bind; [apply protocol_reshare_many|]. intros a0 a1 a2 [= -> -> ->].
  rewrite E0, E1, E2, Nat.eqb_refl. apply protocol_ret'. by apply zip_rshares_shared.
Qed.

Lemma ring_mul_vec_spec a b xs ys : rshared_vec T a xs -> rshared_vec T b ys -> length xs = length ys ->
  protocol (tmap2 (mul_vec T) a b) (fun r => rshared_vec T r (zip_with (fun x y => rmod T (x * y)) xs ys)).
Proof.
  intros Ha Hb E. apply (protocol_lengths a b xs ys _ _ _ _ Ha Hb E). rewrite <- (map_zip (fun x y => rmod T (x * y)) xs ys).
  eapply protocol_bind.
  - apply (masked_ring_loop _ (fun p => rs_mul T (fst p) (snd p)) (fun p => rmod T (fst p * snd p)) (tmap2 zip a b) _) with (2 := rshared_zip a b xs ys Ha Hb E).
    intros p v [H1 H2]. exact (rs_mul_local T _ _ _ _ H1 H2).
  - intros l0 l1 l2. exact (ring_reshare_vec_spec l0 l1 l2 _).
Qed.

Lemma ring_cmux_many_spec c a b zs xs ys : rshared_vec T c zs -> rshared_vec T a xs -> rshared_vec T b ys ->
  length zs = length xs -> length xs = length ys ->
  protocol (mkTri (cmux_many T (t0 c) (t0 a) (t0 b)) (cmux_many T (t1 c) (t1 a) (t1 b)) (cmux_many T (t2 c) (t2 a) (t2 b)))
    (fun r => rshared_vec T r (zip_with (fun z p => rmod T (snd p + z * (fst p - snd p))) zs (zip xs ys))).
Proof.
  intros Hc Ha Hb E1 E2. eapply protocol_bind.
  - refine (ring_mul_vec_spec c _ zs _ Hc (tri_forall_map2 _ _ (rshared T) (rs_sub T) (fun x y => rmod T (x - y)) a xs b ys _ E2 Ha Hb) _).
    + intros. by apply rshared_sub.
    + rewrite length_zip_with. lia.
  - intros d0 d1 d2 Hd. apply protocol_ret'. eassert (Hr : rshared_vec T _ _).
    { refine (tri_forall_map2 _ _ (rshared T) (rs_add T) (fun y d => rmod T (y + d)) b ys (mkTri d0 d1 d2) _ _ _ Hb Hd).
      - intros. by apply rshared_add.
      - rewrite !length_zip_with. lia. }
    match type of Hr with rshared_vec _ _ ?u => match goal with |- rshared_vec _ _ ?v => replace v with u; [exact Hr|] end end.
    clear -E1 E2. revert xs ys E1 E2. induction zs as [|z zs IH]; intros [|x xs] [|y ys] [=] [=]; [done|]. cbn. rewrite IH by done. f_equal. ring_mod.
Qed.

(** ** Exclusive or of bits *)

Lemma ring_shl_1_eqm a : word (K T) a -> ring_shl T a 1 =[T]= 2 * a.
Proof. intros Ha. rewrite ring_shl_mod by (done || lia). rewrite eqm_mod, Z.shiftl_mul_pow2 by lia. apply eqm_eq. ring. Qed.
Lemma ring_shl_word' a n : 0 <= n -> word (K T) a -> word (K T) (ring_shl T a n).
Proof. apply ring_shl_word. Qed.

Lemma ring_xor_local_summands a b x y m0 m1 m2 : rshared T a x -> rshared T b y -> rsummands T (mkTri m0 m1 m2) 0 ->
  rsummands T (mkTri (ring_xor_local T (t0 a) (t0 b) m0) (ring_xor_local T (t1 a) (t1 b) m1) (ring_xor_local T (t2 a) (t2 b) m2))
    (rmod T (x + y - 2 * (x * y))).
Proof.
  intros Ha Hb Hm. pose proof (rsummands_masked T _ _ _ (rs_mul_local T a b x y Ha Hb) Hm) as (D0 & D1 & D2 & E).
  cbn [tmap2 t0 t1 t2] in D0, D1, D2, E. unfold ring_xor_local, rsummands. cbn [t0 t1 t2].
  set (d0 := ring_add T (rs_mul T (t0 a) (t0 b)) m0) in *. set (d1 := ring_add T (rs_mul T (t1 a) (t1 b)) m1) in *.
  set (d2 := ring_add T (rs_mul T (t2 a) (t2 b)) m2) in *. clearbody d0 d1 d2.
  pose proof (ring_shl_word T _ 1 ltac:(lia) D0) as S0. pose proof (ring_shl_word T _ 1 ltac:(lia) D1) as S1. pose proof (ring_shl_word T _ 1 ltac:(lia) D2) as S2.
  open_rshares. cbn [shares_of t0 t1 t2 sa sb] in *. split_and!; [auto with ring_words..|]. apply rmod_of_eqm.
  rewrite !ring_sub_eqm, !ring_add_eqm. rewrite !ring_shl_1_eqm by done.
  match goal with |- ?x + ?y - 2 * _ =[T]= _ => transitivity (x + y - 2 * rmod T (d0 + d1 + d2)) end.
  - rewrite <- E. by rewrite (rmod_eqm T (_ * _)).
  - rewrite !rmod_eqm. apply eqm_eq. ring.
Qed.

Lemma ring_arithmetic_xor_spec a b x y : rshared T a x -> rshared T b y ->
  protocol (tmap2 (arithmetic_xor T) a b) (fun r => rshared T r (rmod T (x + y - 2 * (x * y)))).
Proof.
  intros Ha Hb. apply (masked_ring_reshare (ring_xor_local T (t0 a) (t0 b)) (ring_xor_local T (t1 a) (t1 b)) (ring_xor_local T (t2 a) (t2 b))).
  intros m0 m1 m2 Hm. by apply ring_xor_local_summands.
Qed.

Lemma ring_arithmetic_xor_many_spec a b xs ys : rshared_vec T a xs -> rshared_vec T b ys -> length xs = length ys ->
  protocol (tmap2 (arithmetic_xor_many T) a b) (fun r => rshared_vec T r (zip_with (fun x y => rmod T (x + y - 2 * (x * y))) xs ys)).
Proof.
  intros Ha Hb E. apply (protocol_lengths a b xs ys _ _ _ _ Ha Hb E). rewrite <- (map_zip (fun x y => rmod T (x + y - 2 * (x * y))) xs ys). eapply protocol_bind.
  - apply (protocol_mmap _ (rsummands T) (fun p => rmod T (fst p + snd p - 2 * (fst p * snd p)))) with (2 := rshared_zip a b xs ys Ha Hb E).
    intros p v [H1 H2]. eapply protocol_bind; [exact ring_masking_spec|]. intros m0 m1 m2 Hm. apply protocol_ret'.
    exact (ring_xor_local_summands _ _ _ _ m0 m1 m2 H1 H2 Hm).
  - intros l0 l1 l2 Hl. eapply protocol_bind; [apply protocol_reshare_many|]. intros ? ? ? [= -> -> ->]. apply protocol_ret'. by apply zip_rshares_shared.
Qed.

(** ** Powers *)

Fixpoint rpow (x : Z) (n : nat) : Z := match n with O => 1 | S n => x * rpow x n end.

Lemma rpow_pow x n : rpow x n = x ^ Z.of_nat n.
Proof. induction n as [|n IH]; [done|]. cbn [rpow]. rewrite IH, Nat2Z.inj_succ, Z.pow_succ_r by lia. done. Qed.
Lemma rpow_add x n m : rpow x (n + m) = rpow x n * rpow x m.
Proof. rewrite !rpow_pow, Nat2Z.inj_add, Z.pow_add_r by lia. done. Qed.
Lemma rpow_square x n : rpow (x * x) n = rpow x (2 * n).
Proof. rewrite !rpow_pow, Nat2Z.inj_mul, Z.pow_mul_l, (Z.pow_mul_r x 2) by lia. f_equal. rewrite <- Z.pow_mul_l. f_equal. change (Z.of_nat 2) with 2. lia. Qed.
#[local] Instance rpow_eqm : Proper (eqm T ==> Logic.eq ==> eqm T) rpow.
Proof. intros x y H n ? <-. induction n as [|n IH]; [done|]. cbn [rpow]. by apply eqm_mul. Qed.

Lemma ring_pow_loop_spec e : forall res a z x, rshared T res z -> rshared T a x ->
  protocol (tmap2 (pow_loop T e) res a)
    (fun r => rshared T (tmap fst r) (rmod T (z * rpow x (Pos.to_nat e))) /\ rshared T (tmap snd r) (rmod T (rpow x (2 ^ bit_length (Zpos e))))).
Proof.
  induction e as [e IH|e IH|]; intros res a z x Hr Ha; unfold tmap2; cbn [pow_loop].
  - eapply protocol_bind; [exact (ring_mul_spec res a z x Hr Ha)|]. intros r0 r1 r2 Hr'.
    eapply protocol_bind; [exact (ring_mul_spec a a x x Ha Ha)|]. intros s0 s1 s2 Hs.
    eapply protocol_weaken; [exact (IH (mkTri r0 r1 r2) (mkTri s0 s1 s2) _ _ Hr' Hs)|]. intros r [H1 H2]. split.
    + replace (rmod T (z * rpow x (Pos.to_nat e~1))) with (rmod T (rmod T (z * x) * rpow (rmod T (x * x)) (Pos.to_nat e))); [done|].
      apply rmod_of_eqm. rewrite !rmod_eqm, rpow_square. replace (Pos.to_nat e~1) with (S (2 * Pos.to_nat e)) by lia. cbn [rpow]. apply eqm_eq. ring.
    + replace (rmod T (rpow x (2 ^ bit_length (Zpos e~1)))) with (rmod T (rpow (rmod T (x * x)) (2 ^ bit_length (Zpos e)))); [done|].
      apply rmod_of_eqm. by rewrite rmod_eqm, rpow_square.
  - eapply protocol_bind; [exact (ring_mul_spec a a x x Ha Ha)|]. intros s0 s1 s2 Hs.
    eapply protocol_weaken; [exact (IH res (mkTri s0 s1 s2) _ _ Hr Hs)|]. intros r [H1 H2]. split.
    + replace (rmod T (z * rpow x (Pos.to_nat e~0))) with (rmod T (z * rpow (rmod T (x * x)) (Pos.to_nat e))); [done|].
      apply rmod_of_eqm. rewrite !rmod_eqm, rpow_square. replace (Pos.to_nat e~0) with (2 * Pos.to_nat e)%nat by lia. done.
    + replace (rmod T (rpow x (2 ^ bit_length (Zpos e~0)))) with (rmod T (rpow (rmod T (x * x)) (2 ^ bit_length (Zpos e)))); [done|].
      apply rmod_of_eqm. by rewrite rmod_eqm, rpow_square.
  - eapply protocol_bind; [exact (ring_mul_spec res a z x Hr Ha)|]. intros r0 r1 r2 Hr'.
    eapply protocol_bind; [exact (ring_mul_spec a a x x Ha Ha)|]. intros s0 s1 s2 Hs. apply protocol_ret'. split.
    + cbn [tmap t0 t1 t2 fst]. replace (rmod T (z * rpow x (Pos.to_nat 1))) with (rmod T (z * x)) by (change (Pos.to_nat 1) with 1%nat; cbn [rpow]; apply rmod_of_eqm, eqm_eq; ring). done.
    + cbn [tmap t0 t1 t2 snd]. replace (rmod T (rpow x (2 ^ bit_length 1))) with (rmod T (x * x)) by (change (2 ^ bit_length 1)%nat with 2%nat; cbn [rpow]; apply rmod_of_eqm, eqm_eq; ring). done.
Qed.

(** [pow_public] multiplies once too often, as the one of the field does. *)
Lemma ring_pow_public_result a x e : word (K T) e -> rshared T a x ->
  protocol (tmap (fun s => pow_public T s e) a) (fun r => rshared T r (rmod T (rpow x (Z.to_nat e + 2 ^ bit_length e)))).
Proof.
  intros [He _] Ha. unfold pow_public. apply protocol_id.
  assert (W1 : word (K T) 1) by (split; [lia|]; apply Z.pow_gt_1; [lia|apply K_pos]). pose proof (rshared_public T 1 W1) as H1. eapply protocol_bind.
  - instantiate (1 := fun r => rshared T (tmap fst r) (rmod T (rpow x (Z.to_nat e))) /\ rshared T (tmap snd r) (rmod T (rpow x (2 ^ bit_length e)))).
    destruct e as [|p|p]; [| |lia].
    + apply protocol_ret'. cbn [tmap t0 t1 t2 fst snd]. split.
      * rewrite rmod_small by done. exact H1.
      * change (2 ^ bit_length 0)%nat with 1%nat. cbn [rpow]. rewrite Z.mul_1_r, rmod_small by (by eapply rshared_word). by destruct a.
    + eapply protocol_weaken; [exact (ring_pow_loop_spec p _ a _ _ H1 Ha)|]. intros r [H2 H3]. split; [|done].
      rewrite Z2Nat.inj_pos. by rewrite Z.mul_1_l in H2.
  - intros p0 p1 p2 [H2 H3]. rewrite rpow_add.
    replace (rmod T (rpow x (Z.to_nat e) * rpow x (2 ^ bit_length e))) with (rmod T (rmod T (rpow x (Z.to_nat e)) * rmod T (rpow x (2 ^ bit_length e)))) by ring_mod.
    exact (ring_mul_spec _ _ _ _ H2 H3).
Qed.

End Arithmetic.
