(* ===== verification/Rep3RingBin.v ===== *)
(** * Correctness of the binary ring protocols

    Gates, trees, zero tests, adders, conversions and comparisons on shares of the
    bits of a ring element. *)

From Stdlib Require Import ZArith Lia List Bool Setoid Morphisms Btauto.
From stdpp Require Import base list.
From S2P Require Import Prelude Words Field Carry Ring2k RingCarry MpcNet Rep3Ctx Rep3Rules Rep3Share Rep3Arith Rep3Correct Rep3Binary Rep3BinCorrect Rep3BinMany Rep3Ring Rep3RingCorrect.
Import ListNotations.
Local Open Scope Z_scope.
Local Open Scope mpc_scope.
Local Open Scope ring2k_scope.

Lemma bword_shiftr w x n : 0 <= n -> word w x -> word w (Z.shiftr x n).
Proof.
  intros Hn [H0 H1]. rewrite Z.shiftr_div_pow2 by done. assert (0 < 2 ^ n) by (apply Z.pow_pos_nonneg; lia).
  split; [apply Z.div_pos; lia|]. apply Z.le_lt_trans with x; [|done]. apply Z.div_le_upper_bound; nia.
Qed.

Lemma word_1_K T : word (K T) 1.
Proof. destruct T; unfold word; cbn; lia. Qed.

Section Local.
Context (T : RingType).
Abbreviation k := (K T).
Let Hk : 0 <= k := K_nonneg T.

(** The operators of a ring share are those of binary shares on words. *)
Lemma rs_xor_shared a b x y : bshared k a x -> bshared k b y -> bshared k (tmap2 (rs_xor T) a b) (Z.lxor x y).
Proof.
  intros. open_bshares. unfold rs_xor, shares_of, tmap2. cbn [t0 t1 t2 sa sb]. rewrite !ring_xor_word by done.
  eexists _, _, _. split_and!; [..|reflexivity|bits]; by apply bword_lxor.
Qed.
Lemma rs_and_public_shared a x m : bshared k a x -> 0 <= m -> bshared k (tmap (fun s => rs_and_public T s m) a) (Z.land x m).
Proof. exact (bshared_land k Hk a x m). Qed.
Lemma rs_not_shared a x : bshared k a x -> bshared k (tmap (rs_not T) a) (Z.lxor x (Z.shiftl 1 k - 1)).
Proof.
  intros. open_bshares. unfold rs_not, shares_of, tmap. cbn [t0 t1 t2 sa sb]. rewrite !ring_not_word by done.
  eexists _, _, _. split_and!; [..|reflexivity|bits]; apply bword_lxor; auto using word_mask.
Qed.
Lemma rs_shl_shared a x n : 0 <= n -> bshared k a x -> bshared k (tmap (fun s => rs_shl T s n) a) (ring_shl T x n).
Proof.
  intros Hn Ha. pose proof (bshared_word k Hk _ _ Ha) as Hx. open_bshares. unfold rs_shl, shares_of, tmap. cbn [t0 t1 t2 sa sb].
  eexists _, _, _. split_and!; [..|reflexivity|]; [by apply ring_shl_word..|]. rewrite !ring_shl_mod by done.
  apply Z.bits_inj'. intros m Hm. rewrite !Z.lxor_spec, !Z.testbit_mod_pow2, !Z.shiftl_spec, !Z.lxor_spec by done. btauto.
Qed.
Lemma rs_shr_shared a x n : 0 <= n -> bshared k a x -> bshared k (tmap (fun s => rs_shr T s n) a) (Z.shiftr x n).
Proof.
  intros Hn Ha. open_bshares. unfold rs_shr, shares_of, tmap. cbn [t0 t1 t2 sa sb]. rewrite !ring_shr_word by done.
  eexists _, _, _. split_and!; [..|reflexivity|by rewrite !Z.shiftr_lxor].
  all: by apply bword_shiftr.
Qed.
Lemma xor_public_shared a x m : bshared k a x -> word k m -> bshared k (with_ids (fun s => xor_public T s m) a) (Z.lxor x m).
Proof.
  intros. open_bshares. unfold with_ids, xor_public, shares_of. cbn [t0 t1 t2 sa sb]. rewrite !ring_xor_word by done.
  eexists _, _, _. split_and!; [..|reflexivity|bits]; auto using bword_lxor.
Qed.
Lemma rs_and_local a b x y : bshared k a x -> bshared k b y -> bsummands k (tmap2 (rs_and T) a b) (Z.land x y).
Proof.
  intros Ha Hb. pose proof (band_local_summands k Hk k a b x y Ha Hb) as H. open_bshares. revert H.
  unfold rs_and, band_local, ring_and, shares_of, tmap2. cbn [t0 t1 t2 sa sb].
  rewrite !(ring_xor_word T (Z.land _ _) (Z.land _ _)) by (apply bword_land; [done..|by eapply word_nonneg]).
  by rewrite !ring_xor_word by (repeat (apply bword_lxor || apply bword_land); try done; by eapply word_nonneg).
Qed.
Lemma ring_masked s m x : bsummands k s x -> bsummands k m 0 -> bsummands k (tmap2 (ring_xor T) s m) x.
Proof.
  intros Hs Hm. pose proof (bsummands_masked k Hk s m x Hs Hm) as H. destruct Hs as (S0 & S1 & S2 & _), Hm as (M0 & M1 & M2 & _).
  unfold bsummands in *. cbn [tmap2 t0 t1 t2] in *. by rewrite !ring_xor_word by done.
Qed.

(** Bits of a share. *)
Lemma get_bit_shared a x i : 0 <= i -> bshared k a x -> bshared 1 (tmap (fun s => share_get_bit T s i) a) (Z.b2z (Z.testbit x i)).
Proof.
  intros Hi Ha. open_bshares. unfold share_get_bit, get_bit, shares_of, tmap. cbn [t0 t1 t2 sa sb].
  assert (E : forall v, (if Z.land (Z.shiftr v i) 1 =? 1 then 1 else 0) = Z.b2z (Z.testbit v i)).
  { intros v. rewrite Z.testbit_odd. change 1 with (Z.ones 1) at 1. rewrite Z.land_ones by lia. change (2 ^ 1) with 2. rewrite Zmod_odd. by destruct (Z.odd _). }
  rewrite !E. eexists _, _, _. split_and!; [..|reflexivity|].
  1-3: match goal with |- word 1 (Z.b2z ?b) => destruct b end; unfold word; cbn; lia.
  rewrite !Z.lxor_spec. by destruct (Z.testbit _ _), (Z.testbit _ _), (Z.testbit _ _).
Qed.
Lemma lsb_shared a x : bshared k a x -> bshared 1 (tmap (lsb T) a) (Z.b2z (Z.testbit x 0)).
Proof.
  intros Ha. pose proof (get_bit_shared a x 0 ltac:(lia) Ha) as H. unfold share_get_bit, get_bit in H. by rewrite !Z.shiftr_0_r in H || exact H.
Qed.

End Local.

Lemma not_bit_shared a (b : bool) : bshared 1 a (Z.b2z b) -> bshared 1 (tmap (rs_not Bit) a) (Z.b2z (negb b)).
Proof. intros H. pose proof (rs_not_shared Bit a _ H) as H'. by destruct b. Qed.

Section Gates.
Context {F : Type} `{JF : JoltField F} `{PF : !PrimeField F} `{RO : !RngOps F} `{B : Build}.
Context (T : RingType).
Abbreviation k := (K T).
Let Hk : 0 <= k := K_nonneg T.

Lemma ring_xor_mask_spec : protocol (tpure (ring_xor_mask T)) (fun r => bsummands k r 0).
Proof.
  eapply protocol_bind; [exact (random_ring_spec T)|]. intros p0 p1 p2 (a & b & d & Ha & Hb & Hd & [= -> -> ->]). apply protocol_ret'.
  unfold bsummands. cbn [t0 t1 t2 fst snd]. rewrite !ring_xor_word by done. split_and!; [by apply bword_lxor..|bits].
Qed.

Lemma ring_and_spec a b x y : bshared k a x -> bshared k b y -> protocol (tmap2 (and T) a b) (fun r => bshared k r (Z.land x y)).
Proof.
  intros Ha Hb. eapply protocol_bind; [exact ring_xor_mask_spec|]. intros m0 m1 m2 Hm.
  eapply protocol_bind; [apply protocol_reshare|]. intros b0 b1 b2 [= -> -> ->]. apply protocol_ret', bshared_reshared.
  exact (ring_masked T _ _ _ (rs_and_local T a b x y Ha Hb) Hm).
Qed.

Lemma ring_or_spec a b x y : bshared k a x -> bshared k b y -> protocol (tmap2 (or T) a b) (fun r => bshared k r (Z.lor x y)).
Proof.
  intros Ha Hb. eapply protocol_bind; [exact (ring_and_spec a b x y Ha Hb)|]. intros r0 r1 r2 Hr. apply protocol_ret'.
  replace (Z.lor x y) with (Z.lxor (Z.lxor x y) (Z.land x y)) by (apply Z.bits_inj'; intros ? ?; rewrite Z.lor_spec, !Z.lxor_spec, Z.land_spec; btauto).
  apply (rs_xor_shared T (tmap2 (rs_xor T) a b) (mkTri r0 r1 r2)); [|done]. by apply rs_xor_shared.
Qed.

Lemma ring_bcmux_spec c a b z x y : bshared k c z -> bshared k a x -> bshared k b y ->
  protocol (mkTri (bcmux T (t0 c) (t0 a) (t0 b)) (bcmux T (t1 c) (t1 a) (t1 b)) (bcmux T (t2 c) (t2 a) (t2 b)))
    (fun r => bshared k r (Z.lxor (Z.land z (Z.lxor y x)) y)).
Proof.
  intros Hc Ha Hb. eapply protocol_bind; [exact (ring_and_spec c _ z _ Hc (rs_xor_shared T _ _ _ _ Hb Ha))|].
  intros r0 r1 r2 Hr. apply protocol_ret'. by apply (rs_xor_shared T (mkTri r0 r1 r2) b).
Qed.

Lemma ring_bopen_spec a x : bshared k a x -> protocol (tmap (bopen T) a) (fun r => revealed r x).
Proof.
  intros. open_bshares. eapply protocol_bind; [apply protocol_reshare|]. intros c0 c1 c2 [= -> -> ->]. cbn [shares_of t0 t1 t2 sa sb].
  apply protocol_ret'. unfold revealed, tpure. f_equal; (rewrite !ring_xor_word; [bits|auto using bword_lxor..]);
    rewrite ring_xor_word; auto using bword_lxor.
Qed.

Lemma ring_and_twice_spec a b1 b2 x y1 y2 : bshared k a x -> bshared k b1 y1 -> bshared k b2 y2 ->
  protocol (mkTri (and_twice T (t0 a) (t0 b1) (t0 b2)) (and_twice T (t1 a) (t1 b1) (t1 b2)) (and_twice T (t2 a) (t2 b1) (t2 b2)))
    (fun r => bshared k (tmap fst r) (Z.land y1 x) /\ bshared k (tmap snd r) (Z.land x y2)).
Proof.
  intros Ha H1 H2. eapply protocol_bind; [exact ring_xor_mask_spec|]. intros m0 m1 m2 Hm.
  eapply protocol_bind; [exact ring_xor_mask_spec|]. intros n0 n1 n2 Hn. apply protocol_exchange, protocol_ret'.
  split; apply bshared_reshared.
  - exact (ring_masked T _ _ _ (rs_and_local T b1 a y1 x H1 Ha) Hm).
  - exact (ring_masked T _ _ _ (rs_and_local T a b2 x y2 Ha H2) Hn).
Qed.

Lemma kogge_stone_steps_spec d : forall i p g x y, 0 <= i -> bshared k p x -> bshared k g y ->
  protocol (tmap2 (kogge_stone_steps T d i) p g) (fun r => bshared k r (rks_loop T d i x y)).
Proof.
  induction d as [|d IH]; intros i p g x y Hi Hp Hg; [destruct g; by apply protocol_ret'|].
  cbn [kogge_stone_steps rks_loop tmap2]. assert (Hs : 0 <= Z.shiftl 1 i) by (by apply Z.shiftl_nonneg).
  eapply protocol_bind.
  - exact (ring_and_twice_spec p _ _ x _ _ Hp (rs_shl_shared T g y _ Hs Hg) (rs_shl_shared T p x _ Hs Hp)).
  - intros r0 r1 r2 [Hg' Hp']. apply (IH (i + 1) (tmap snd (mkTri r0 r1 r2)) (tmap2 (rs_xor T) g (tmap fst (mkTri r0 r1 r2)))); [lia|done|].
    by apply rs_xor_shared.
Qed.

Lemma ring_kogge_stone_loop_spec p g x y : power_of_two T = true -> bshared k p x -> bshared k g y ->
  protocol (tmap2 (kogge_stone_loop T) p g) (fun r => bshared k r (rks_carries T x y)).
Proof.
  intros Hpow Hp Hg. apply protocol_assert; [done..|]. by apply (kogge_stone_steps_spec (ilog2_K T) 0 p g x y).
Qed.

Lemma ring_kogge_stone_inner_spec p g x y : power_of_two T = true -> bshared k p x -> bshared k g y ->
  protocol (tmap2 (kogge_stone_inner T) p g) (fun r => bshared k r (rks_sum T x y)).
Proof.
  intros Hpow Hp Hg. eapply protocol_bind; [exact (ring_kogge_stone_loop_spec p g x y Hpow Hp Hg)|].
  intros r0 r1 r2 Hr. apply protocol_ret'. apply (rs_xor_shared T (tmap (fun s => rs_shl T s 1) (mkTri r0 r1 r2)) p); [|done].
  by apply rs_shl_shared.
Qed.
Lemma ring_kogge_stone_carry_spec p g x y : power_of_two T = true -> bshared k p x -> bshared k g y ->
  protocol (tmap2 (kogge_stone_inner_with_carry T) p g)
    (fun r => bshared k (tmap fst r) (rks_sum T x y) /\ bshared 1 (tmap snd r) (Z.b2z (Z.testbit (rks_carries T x y) (k - 1)))).
Proof.
  intros Hpow Hp Hg. eapply protocol_bind; [exact (ring_kogge_stone_loop_spec p g x y Hpow Hp Hg)|].
  intros r0 r1 r2 Hr. apply protocol_ret'. split.
  - apply (rs_xor_shared T (tmap (fun s => rs_shl T s 1) (mkTri r0 r1 r2)) p); [|done]. by apply rs_shl_shared.
  - apply (get_bit_shared T (mkTri r0 r1 r2)); [|done]. pose proof (K_pos T). lia.
Qed.

Lemma rks_sum_plus x y : power_of_two T = true -> word k x -> word k y -> rks_sum T (Z.lxor x y) (Z.land x y) = (x + y) mod 2 ^ k.
Proof.
  intros Hpow Hx Hy. pose proof (rks_sum_add T x y false Hpow Hx Hy) as H. cbn [Z.b2z] in H. by rewrite !Z.lxor_0_r, Z.add_0_r in H.
Qed.
Lemma ring_add_protocol a b x y : power_of_two T = true -> bshared k a x -> bshared k b y ->
  protocol (tmap2 (low_depth_binary_add T) a b) (fun r => bshared k r ((x + y) mod 2 ^ k)).
Proof.
  intros Hpow Ha Hb. pose proof (bshared_word k Hk _ _ Ha) as Hx. pose proof (bshared_word k Hk _ _ Hb) as Hy.
  eapply protocol_bind; [exact (ring_and_spec a b x y Ha Hb)|]. intros r0 r1 r2 Hr. rewrite <- rks_sum_plus by done.
  exact (ring_kogge_stone_inner_spec _ (mkTri r0 r1 r2) _ _ Hpow (rs_xor_shared T a b x y Ha Hb) Hr).
Qed.

(** The sum with the complement. *)
Lemma rks_diff x y : power_of_two T = true -> word k x -> word k y ->
  let y' := Z.lxor y (Z.shiftl 1 k - 1) in let p := Z.lxor x y' in let g := Z.lxor (Z.land x y') (Z.land p 1) in
  Z.lxor (rks_sum T p g) 1 = (x - y) mod 2 ^ k /\ Z.testbit (rks_carries T p g) (k - 1) = (y <=? x).
Proof.
  intros Hpow Hx Hy y' p g. assert (Hy' : word k y') by (apply bword_lxor; auto using word_mask).
  assert (E : y' = 2 ^ k - 1 - y) by (by apply lxor_mask). split.
  - pose proof (rks_sum_add T x y' true Hpow Hx Hy') as H. cbn [Z.b2z] in H. fold p in H. fold g in H. rewrite H.
    replace (x + y' + 1) with (x - y + 1 * 2 ^ k) by lia. apply Z.mod_add. pose proof (modulus_pos T). lia.
  - pose proof (rks_carry_out T x y' true Hpow Hx Hy') as H. cbn [Z.b2z] in H. fold p in H. fold g in H. rewrite H.
    apply eq_true_iff_eq. rewrite !Z.leb_le. lia.
Qed.

Lemma ring_sub_carry_spec a b x y : power_of_two T = true -> bshared k a x -> bshared k b y ->
  protocol (tmap2 (low_depth_binary_sub_with_carry T) a b)
    (fun r => bshared k (tmap fst r) ((x - y) mod 2 ^ k) /\ bshared 1 (tmap snd r) (Z.b2z (y <=? x))).
Proof.
  intros Hpow Ha Hb. pose proof (bshared_word k Hk _ _ Ha) as Hx. pose proof (bshared_word k Hk _ _ Hb) as Hy.
  pose proof (rs_not_shared T b y Hb) as Hb'. destruct (rks_diff x y Hpow Hx Hy) as [E1 E2]. rewrite <- E1, <- E2.
  pose proof (rs_xor_shared T _ _ _ _ Ha Hb') as Hp.
  eapply protocol_bind; [exact (ring_and_spec a _ x _ Ha Hb')|]. intros g0 g1 g2 Hg.
  eapply protocol_bind.
  - refine (ring_kogge_stone_carry_spec (tmap2 (rs_xor T) a (tmap (rs_not T) b))
      (tmap2 (rs_xor T) (mkTri g0 g1 g2) (tmap (fun s => rs_and_public T s 1) (tmap2 (rs_xor T) a (tmap (rs_not T) b)))) _ _ Hpow Hp _).
    apply rs_xor_shared; [exact Hg|]. by apply rs_and_public_shared.
  - intros r0 r1 r2 [Hs Hc]. apply protocol_id, protocol_ret'. split; [|exact Hc].
    apply (xor_public_shared T (tmap fst (mkTri r0 r1 r2))); [exact Hs|]. exact (word_1_K T).
Qed.

Lemma ring_sub_from_const_spec x b y : power_of_two T = true -> word k x -> bshared k b y ->
  protocol (tmap (low_depth_binary_sub_from_const_with_carry T x) b)
    (fun r => bshared k (tmap fst r) ((x - y) mod 2 ^ k) /\ bshared 1 (tmap snd r) (Z.b2z (y <=? x))).
Proof.
  intros Hpow Hx Hb. pose proof (bshared_word k Hk _ _ Hb) as Hy.
  pose proof (rs_not_shared T b y Hb) as Hb'. destruct (rks_diff x y Hpow Hx Hy) as [E1 E2]. rewrite <- E1, <- E2.
  rewrite (Z.lxor_comm x), (Z.land_comm x). pose proof (xor_public_shared T _ _ x Hb' Hx) as Hp. apply protocol_id.
  eapply protocol_bind.
  - refine (ring_kogge_stone_carry_spec (with_ids (fun s => xor_public T s x) (tmap (rs_not T) b))
      (tmap2 (rs_xor T) (tmap (fun s => rs_and_public T s x) (tmap (rs_not T) b))
        (tmap (fun s => rs_and_public T s 1) (with_ids (fun s => xor_public T s x) (tmap (rs_not T) b)))) _ _ Hpow Hp _).
    apply rs_xor_shared; apply rs_and_public_shared; first [done|by eapply word_nonneg].
  - intros r0 r1 r2 [Hs Hc]. apply protocol_ret'. split; [|exact Hc].
    apply (xor_public_shared T (tmap fst (mkTri r0 r1 r2))); [exact Hs|]. exact (word_1_K T).
Qed.

(** The sum with the negation of a constant. *)
Lemma rks_diff_const x y : power_of_two T = true -> word k x -> word k y ->
  let y' := ring_add T (ring_not T y) 1 in let p := Z.lxor x y' in let g := Z.land x y' in
  word k y' /\ rks_sum T p g = (x - y) mod 2 ^ k /\
  (if y =? 0 then negb (Z.testbit (rks_carries T p g) (k - 1)) else Z.testbit (rks_carries T p g) (k - 1)) = (y <=? x).
Proof.
  intros Hpow Hx Hy y' p g. pose proof (modulus_pos T) as HM.
  assert (Hn : word k (ring_not T y)) by (rewrite ring_not_word by done; apply bword_lxor; auto using word_mask).
  assert (Hy' : word k y') by (apply ring_add_word; [done|apply word_1_K]).
  assert (E : y' = (- y) mod 2 ^ k).
  { apply (eqm_words T); [done|by apply word_mod|]. unfold y'. rewrite ring_add_eqm, eqm_mod, ring_not_word, lxor_mask by done.
    unfold eqm. replace (2 ^ k - 1 - y + 1) with (- y + 1 * 2 ^ k) by lia. apply Z.mod_add. lia. }
  split; [done|]. split.
  - unfold p, g. rewrite rks_sum_plus by done. rewrite E, Z.add_mod_idemp_r by lia. done.
  - pose proof (rks_carry_out T x y' false Hpow Hx Hy') as H. cbn [Z.b2z] in H. rewrite Z.lxor_0_r, Z.add_0_r in H. fold p in H. fold g in H.
    rewrite H. unfold word in *. destruct (Z.eqb_spec y 0) as [->|Hy0].
    + rewrite E. cbn [Z.opp]. rewrite Z.mod_0_l, Z.add_0_r by lia. rewrite (proj2 (Z.leb_gt _ _)), (proj2 (Z.leb_le _ _)) by lia. done.
    + rewrite E, Z.mod_opp_l_nz, (Z.mod_small y) by (rewrite ?Z.mod_small by lia; lia). apply eq_true_iff_eq. rewrite !Z.leb_le. lia.
Qed.

Lemma ring_sub_by_const_spec a x y : power_of_two T = true -> bshared k a x -> word k y ->
  protocol (tmap (fun a => low_depth_binary_sub_by_const_with_carry T a y) a)
    (fun r => bshared k (tmap fst r) ((x - y) mod 2 ^ k) /\ bshared 1 (tmap snd r) (Z.b2z (y <=? x))).
Proof.
  intros Hpow Ha Hy. pose proof (bshared_word k Hk _ _ Ha) as Hx. destruct (rks_diff_const x y Hpow Hx Hy) as (Hy' & E1 & E2).
  rewrite <- E1, <- E2. set (y' := ring_add T (ring_not T y) 1) in *. apply protocol_id. eapply protocol_bind.
  - exact (ring_kogge_stone_carry_spec (with_ids (fun s => xor_public T s y') a) (tmap (fun s => rs_and_public T s y') a) _ _ Hpow
      (xor_public_shared T a x y' Ha Hy') (rs_and_public_shared T a x y' Ha (word_nonneg _ _ Hy'))).
  - intros r0 r1 r2 [Hs Hc]. apply protocol_ret'. split; [exact Hs|]. destruct (y =? 0); [|exact Hc].
    exact (not_bit_shared (tmap snd (mkTri r0 r1 r2)) _ Hc).
Qed.

(** ** Zero tests *)

Lemma ring_half_mask l : 0 <= l < k -> ring_sub T (ring_shl T 1 l) 1 = Z.shiftl 1 l - 1.
Proof.
  intros Hl. assert (H : 0 < Z.shiftl 1 l < 2 ^ k).
  { rewrite Z.shiftl_1_l. split; [apply Z.pow_pos_nonneg; lia|apply Z.pow_lt_mono_r; lia]. }
  pose proof (word_1_K T). assert (W : word k (Z.shiftl 1 l)) by (unfold word; lia).
  rewrite ring_shl_mod, Z.mod_small by (done || lia). apply (eqm_words T); [by apply ring_sub_word|unfold word; lia|apply ring_sub_eqm].
Qed.

Lemma ring_is_zero_loop_spec j : forall fuel a x, 2 ^ Z.of_nat j <= k -> (j <= fuel)%nat -> bshared k a x ->
  protocol (tmap (is_zero_loop T fuel (2 ^ Z.of_nat j)) a)
    (fun r => exists y, bshared k r y /\ (Z.testbit y 0 = true <-> all_ones (2 ^ Z.of_nat j) x)).
Proof.
  induction j as [|j IH]; intros fuel a x Hj Hf Ha.
  - change (2 ^ Z.of_nat 0) with 1. destruct a, fuel; apply protocol_ret'; exists x; split; try done; apply all_ones_1.
  - destruct fuel as [|fuel]; [lia|]. rewrite Nat2Z.inj_succ, Z.pow_succ_r in * by lia. set (l := 2 ^ Z.of_nat j) in *.
    assert (Hl : 0 < l) by (apply Z.pow_pos_nonneg; lia). unfold tmap. cbn [is_zero_loop]. rewrite (proj2 (Z.leb_gt (2 * l) 1)) by lia.
    replace (Z.shiftr (2 * l) 1) with l by (rewrite Z.shiftr_div_pow2 by lia; lia). rewrite ring_half_mask by lia.
    assert (Hm : 0 <= Z.shiftl 1 l - 1) by (rewrite Z.shiftl_1_l; assert (0 < 2 ^ l) by (apply Z.pow_pos_nonneg; lia); lia).
    eapply protocol_bind.
    + exact (ring_and_spec _ _ _ _ (rs_and_public_shared T a x _ Ha Hm)
        (rs_and_public_shared T _ _ _ (rs_shr_shared T a x l ltac:(lia) Ha) Hm)).
    + intros r0 r1 r2 Hr. eapply protocol_weaken; [apply (IH fuel (mkTri r0 r1 r2)); [lia..|exact Hr]|].
      intros r (y & Hy & Hiff). exists y. split; [done|]. rewrite Hiff. apply all_ones_land. lia.
Qed.

(** [K] as a power of two. *)
Lemma power_of_two_log : power_of_two T = true -> exists j, k = 2 ^ Z.of_nat j /\ (j <= Z.to_nat k)%nat.
Proof.
  intros H%Z.eqb_eq. exists (Z.to_nat (Z.log2 k)). rewrite Z2Nat.id by apply Z.log2_nonneg. split; [done|].
  pose proof (K_pos T). pose proof (Z.log2_le_lin k ltac:(lia)). lia.
Qed.

Lemma ring_zero_bit x y : word k x -> (Z.testbit y 0 = true <-> all_ones k (Z.lxor x (Z.shiftl 1 k - 1))) ->
  Z.testbit y 0 = (x =? 0).
Proof.
  intros Hx Hiff. apply eq_true_iff_eq. rewrite Hiff, Z.eqb_eq. split.
  - intros H0. apply Z.bits_inj'. intros m Hm. rewrite Z.bits_0. destruct (Z.lt_ge_cases m k) as [Hlt|]; [|by apply (bword_high k)].
    specialize (H0 m ltac:(lia)). rewrite Z.lxor_spec, tb_mask in H0 by done.
    rewrite (proj2 (Z.leb_le 0 m)), (proj2 (Z.ltb_lt m k)) in H0 by lia. by destruct (Z.testbit x m).
  - intros -> m Hm. rewrite Z.lxor_0_l, tb_mask by done. by rewrite (proj2 (Z.leb_le 0 m)), (proj2 (Z.ltb_lt m k)) by lia.
Qed.

Lemma ring_bis_zero_spec a x : power_of_two T = true -> bshared k a x ->
  protocol (tmap (bis_zero T) a) (fun r => bshared 1 r (Z.b2z (x =? 0))).
Proof.
  intros Hpow Ha. destruct (power_of_two_log Hpow) as (j & Ej & Hj). pose proof (bshared_word k Hk _ _ Ha) as Hx.
  apply protocol_assert; [done..|]. eapply protocol_bind.
  - rewrite Ej at 2 4 6. exact (ring_is_zero_loop_spec j _ _ _ ltac:(lia) Hj (rs_not_shared T a x Ha)).
  - intros r0 r1 r2 (y & Hy & Hiff). apply protocol_ret'. rewrite <- Ej in Hiff. rewrite <- (ring_zero_bit x y Hx Hiff).
    exact (lsb_shared T (mkTri r0 r1 r2) y Hy).
Qed.

(** ** The tree of disjunctions *)

(** Splitting a vector at a position. *)
Lemma tri_take {A V} (P : Tri A -> V -> Prop) m : forall l vs, tri_forall P l vs -> tri_forall P (tmap (take m) l) (take m vs).
Proof. induction m as [|m IH]; intros l vs H; [destruct H; constructor|]. destruct H as [|? ? ? ? ? ? ? ? Hp Hl]; constructor; [done|exact (IH _ _ Hl)]. Qed.
Lemma tri_drop {A V} (P : Tri A -> V -> Prop) m : forall l vs, tri_forall P l vs -> tri_forall P (tmap (drop m) l) (drop m vs).
Proof. induction m as [|m IH]; intros l vs H; [destruct H; by constructor|]. destruct H as [|? ? ? ? ? ? ? ? Hp Hl]; [constructor|exact (IH _ _ Hl)]. Qed.

Fixpoint lor_all (xs : list Z) : Z := match xs with [] => 0 | x :: xs => Z.lor x (lor_all xs) end.
Lemma lor_all_app xs ys : lor_all (xs ++ ys) = Z.lor (lor_all xs) (lor_all ys).
Proof. induction xs as [|x xs IH]; [done|]. cbn. by rewrite IH, Z.lor_assoc. Qed.
Lemma lor_all_zip xs ys : length xs = length ys -> lor_all (zip_with Z.lor xs ys) = Z.lor (lor_all xs) (lor_all ys).
Proof.
  revert ys. induction xs as [|x xs IH]; intros [|y ys] [=]; [done|]. cbn. rewrite IH by done.
  apply Z.bits_inj'. intros m _. rewrite !Z.lor_spec. btauto.
Qed.

Lemma or_tree_loop_spec fuel : forall l xs, (length xs <= S fuel)%nat -> bshared_vec k l xs ->
  protocol (tmap (or_tree_loop T fuel) l) (fun r => exists ys, bshared_vec k r ys /\ lor_all ys = lor_all xs /\ length ys = Nat.min 1 (length xs)).
Proof.
  induction fuel as [|fuel IH]; intros l xs Hf Hl; destruct (tri_forall_length _ _ _ Hl) as (L0 & L1 & L2);
    unfold tmap; cbn [or_tree_loop]; unfold BinaryShare, RingShare in *; rewrite L0, L1, L2; destruct (Nat.leb_spec (length xs) 1) as [H1|H1]; try lia.
  1-2: destruct l; apply protocol_ret'; exists xs; split_and!; [done|done|lia].
  set (m := Nat.div2 (length xs)). assert (Hm : (0 < m /\ m + m <= length xs)%nat) by (unfold m; rewrite Nat.div2_div; pose proof (Nat.div_mod_eq (length xs) 2); split; [apply Nat.div_str_pos; lia|lia]).
  pose proof (tri_take _ m _ _ Hl) as Ht. pose proof (tri_drop _ m _ _ Hl) as Hd. pose proof (tri_take _ m _ _ Hd) as Hdt. pose proof (tri_drop _ m _ _ Hd) as Hdd.
  assert (El : length (take m xs) = length (take m (drop m xs))) by (rewrite !length_take, length_drop; lia).
  eapply protocol_bind.
  - refine (protocol_mmap _ (bshared k) (fun v => Z.lor (fst v) (snd v)) _ _ _ (tmap2 zip (tmap (take m) l) (tmap (take m) (tmap (drop m) l))) _ _ (tri_forall_zip _ _ _ _ _ _ _ _ _ _ Ht Hdt El)).
    intros a v [Ha Hb]. exact (ring_or_spec _ _ _ _ Ha Hb).
  - intros r0 r1 r2 Hr. rewrite map_zip in Hr. pose proof (tri_forall_app _ _ _ _ _ _ _ _ _ Hr Hdd) as Happ.
    eapply protocol_weaken; [refine (IH (mkTri _ _ _) _ _ Happ); rewrite length_app, length_zip_with, !length_take, !length_drop; lia|].
    intros r (ys & Hy & E & Ey). exists ys. split; [done|]. rewrite E, Ey, lor_all_app, lor_all_zip, <- !lor_all_app, <- app_assoc, !take_drop by done. split; [done|].
    rewrite length_app, length_zip_with, !length_take, !length_drop. lia.
Qed.
(** [or_tree] halves until one element is left; it has no result on no inputs. *)
Lemma or_tree_spec l x xs : bshared_vec k l (x :: xs) -> protocol (tmap (or_tree T) l) (fun r => bshared k r (lor_all (x :: xs))).
Proof.
  intros Hl. destruct (tri_forall_length _ _ _ Hl) as (L0 & L1 & L2). unfold tmap, or_tree, BinaryShare, RingShare in *. rewrite L0, L1, L2. eapply protocol_bind.
  - exact (or_tree_loop_spec (length (x :: xs)) l (x :: xs) ltac:(lia) Hl).
  - intros r0 r1 r2 (ys & Hy & E & Ey). destruct ys as [|y [|]]; try done. inversion Hy as [|? ? ? ? ? ? ? ? Hp Hn]; subst. inversion Hn; subst.
    apply protocol_ret'. rewrite <- E. cbn [lor_all]. by rewrite Z.lor_0_r.
Qed.
End Gates.
