(* ===== verification/Rep3RingConv.v ===== *)
(** * Correctness of the ring conversions, comparisons and casts

    Arithmetic shares modulo [2 ^ K] into shares of the bits and back, bits into
    shares of 0 or 1, comparisons on the bits, and the casts between rings and
    between a ring and the field. *)

From Stdlib Require Import ZArith Lia List Bool Setoid Morphisms Btauto.
From stdpp Require Import base list.
From S2P Require Import Prelude Words Field Carry Ring2k RingCarry MpcNet Rep3Ctx Rep3Rules Rep3Share Rep3Arith Rep3Correct Rep3Binary Rep3BinCorrect Rep3BinMany Rep3Ring Rep3RingCorrect Rep3RingBin.
Import ListNotations.
Local Open Scope Z_scope.
Local Open Scope mpc_scope.
Local Open Scope ring2k_scope.

(** [rshared] with the value known modulo [2 ^ K]. *)
Lemma rshared_eqm T a0 a1 a2 x : word (K T) a0 -> word (K T) a1 -> word (K T) a2 -> word (K T) x -> a0 + a1 + a2 =[T]= x ->
  rshared T (shares_of a0 a1 a2) x.
Proof. intros. exists a0, a1, a2. split_and!; [done..|]. rewrite <- (rmod_small T x) by done. by symmetry. Qed.
Lemma rzero_shared T : rshared T (tpure rzero_share) 0.
Proof. apply (rshared_eqm T 0 0 0); auto using word_0_K. by apply eqm_eq. Qed.

(** Modulo 2 both kinds of sharing are one. *)
Lemma rshared_bit a x : rshared Bit a x <-> bshared 1 a x.
Proof.
  assert (E : forall a0 a1 a2, word 1 a0 -> word 1 a1 -> word 1 a2 -> rmod Bit (a0 + a1 + a2) = Z.lxor (Z.lxor a0 a1) a2).
  { intros a0 a1 a2 H0 H1 H2. destruct (bit_cases _ H0) as [-> | ->], (bit_cases _ H1) as [-> | ->], (bit_cases _ H2) as [-> | ->]; done. }
  split; intros (a0 & a1 & a2 & H0 & H1 & H2 & -> & Ex); exists a0, a1, a2; split_and!; try done; subst; cbn [K] in *; [symmetry|]; auto.
  symmetry. auto.
Qed.

Section Conversions.
Context {F : Type} `{JF : JoltField F} `{PF : !PrimeField F} `{RO : !RngOps F} `{B : Build}.

Lemma protocol_massert {A} b0 b1 b2 (m0 m1 m2 : MPC A) Q : b0 = true -> b1 = true -> b2 = true ->
  protocol (mkTri m0 m1 m2) Q -> protocol (mkTri (massert b0 ;~ m0) (massert b1 ;~ m1) (massert b2 ;~ m2)) Q.
Proof.
  intros -> -> -> Hm. eapply protocol_bind; [|intros ? ? ? _; exact Hm]. by apply (protocol_ret' tt tt tt (fun _ => True)).
Qed.

Section Width.
Context (T : RingType).
Abbreviation k := (K T).
Let Hk : 0 <= k := K_nonneg T.

Section Pow2.
Hypothesis Hpow : power_of_two T = true.

Lemma ring_put m0 m1 m2 v : bsummands k (mkTri m0 m1 m2) 0 -> word k v ->
  bshared k (shares_of m0 (ring_xor T v m1) m2) v /\ bshared k (shares_of m0 m1 (ring_xor T v m2)) v.
Proof. intros Hm Hv. destruct Hm as (H0 & H1 & H2 & E). rewrite !ring_xor_word by done. by apply bsummands_put; [..|split_and!|]. Qed.

Lemma ring_a2b_spec a x : rshared T a x -> protocol (tmap (a2b T) a) (fun r => bshared k r x).
Proof.
  intros (a0 & a1 & a2 & H0 & H1 & H2 & -> & ->). eapply protocol_bind; [exact (ring_xor_mask_spec T)|]. intros m0 m1 m2 Hm.
  apply protocol_id, protocol_exchange. cbn [shares_of t0 t1 t2 sa sb].
  destruct (ring_put m0 m1 m2 (ring_add T a1 a0) Hm (ring_add_word T a1 a0 H1 H0)) as [H01 _].
  assert (Hb : bshared k (shares_of 0 0 a2) a2).
  { exists 0, 0, a2. split_and!; [by apply word_0|by apply word_0|done|done|by rewrite Z.lxor_0_l]. }
  replace (rmod T (a0 + a1 + a2)) with ((ring_add T a1 a0 + a2) mod 2 ^ k) by (fold (rmod T (ring_add T a1 a0 + a2)); ring_mod).
  exact (ring_add_protocol T _ _ _ _ Hpow H01 Hb).
Qed.

(** The keys of two parties draw the same elements. *)
Definition rb2a_key (r : Tri (RingShare * option Z)) (v : Z * Z) : Prop :=
  word k (fst v) /\ word k (snd v) /\
  r = mkTri (mkShare 0 (ring_neg T (snd v)), None) (mkShare (ring_neg T (fst v)) 0, None)
            (mkShare (ring_neg T (snd v)) (ring_neg T (fst v)), Some (ring_add T (fst v) (snd v))).

Lemma ring_sum3_rot u v w : word k u -> word k v -> word k w -> ring_sum3 T (v, w, u) = ring_sum3 T (u, v, w).
Proof. intros. apply (eqm_words T); [cbn; auto with ring_words..|]. cbn. rewrite !ring_add_eqm. apply eqm_eq. ring. Qed.

Lemma ring_b2a_keys_spec : protocol (tpure (b2a_keys T)) (fun r => exists v, rb2a_key r v).
Proof.
  intros c [H0 H1 H2 R0 R1 R2 (a & b & d & B1 & B2) (a' & b' & d' & C1 & C2) Tc].
  destruct c as [[i0 [q0 p0 p0'] s0 e0] [i1 [q1 p1 p1'] s1 e1] [i2 [q2 p2 p2'] s2 e2]]. cbn in *. subst.
  unfold protocol_at, exec, b2a_keys, mbind, mret, get_id, with_bitcomp1, with_bitcomp2, draw3. cbn -[gen_ring].
  pose proof (gen_ring_word T a) as Wa. pose proof (gen_ring_word T b) as Wb. pose proof (gen_ring_word T d) as Wd.
  pose proof (gen_ring_word T a') as Wa'. pose proof (gen_ring_word T b') as Wb'. pose proof (gen_ring_word T d') as Wd'.
  destruct (gen_ring T a) as [u1 a1], (gen_ring T b) as [u2 b1], (gen_ring T d) as [u3 d1], (gen_ring T a') as [v1 a1'] eqn:Ea,
    (gen_ring T b') as [v2 b1'] eqn:Eb, (gen_ring T d') as [v3 d1'] eqn:Ed.
  cbn [fst snd] in *.
  set (k2 := ring_sum3 T (u1, u2, u3)). set (k3 := ring_sum3 T (v1, v2, v3)).
  assert (W2 : word k k2) by (unfold k2; cbn; auto with ring_words). assert (W3 : word k k3) by (unfold k3; cbn; auto with ring_words).
  exists (mkTri (mkShare 0 (ring_neg T k3), None) (mkShare (ring_neg T k2) 0, None) (mkShare (ring_neg T k3) (ring_neg T k2), Some (ring_add T k2 k3))),
    (mkTri (mkIo ID0 (mkCorrelated q0 p0 (mkBitComp a1' b1' (Some d1'))) s0 e0) (mkIo ID1 (mkCorrelated q1 (mkBitComp a1 b1 (Some d1)) p1') s1 e1)
           (mkIo ID2 (mkCorrelated q2 (mkBitComp b1 d1 (Some a1)) (mkBitComp d1' a1' (Some b1'))) s2 e2)).
  split; [|split; [|by exists (k2, k3)]].
  - exists []. cbn -[ring_sum3]. rewrite ?Ea, ?Eb, ?Ed. cbn -[ring_sum3]. rewrite (ring_sum3_rot u1 u2 u3), <- (ring_sum3_rot v3 v1 v2) by done. fold k2. by fold k3.
  - split; try done; [by exists a1, b1, d1|by exists a1', b1', d1'].
Qed.

Lemma ring_b2a_open_spec z v r0 r1 r2 : bshared k z v ->
  protocol (mkTri (b2a_open T (t0 z) r0) (b2a_open T (t1 z) r1) (b2a_open T (t2 z) r2))
    (fun r => r = mkTri (mkShare v (sb r0)) (mkShare (sa r1) v) r2).
Proof.
  intros (z0 & z1 & z2 & W0 & W1 & W2 & -> & <-) c Hc. eexists _, c. split; [|split; [done|reflexivity]].
  pose proof (sy_id0 _ Hc) as I0. pose proof (sy_id1 _ Hc) as I1. pose proof (sy_id2 _ Hc) as I2. clear Hc.
  destruct c as [[i0 q0 s0 e0] [i1 q1 s1 e1] [i2 q2 s2 e2]]. cbn in I0, I1, I2. subst.
  unfold exec, b2a_open, mbind, get_id, network. exists [ID0; ID2; ID0; ID1].
  do 4 (cbn -[serialize deserialize ring_xor]; rewrite ?deserialize_serialize). unfold final, tmap2, mret. cbn -[ring_xor].
  rewrite !ring_xor_word by (rewrite ?ring_xor_word; auto using bword_lxor).
  replace (Z.lxor (Z.lxor z0 z2) z1) with (Z.lxor (Z.lxor z0 z1) z2) by bits.
  by replace (Z.lxor (Z.lxor z1 z0) z2) with (Z.lxor (Z.lxor z0 z1) z2) by bits.
Qed.

Lemma ring_b2a_spec a x : bshared k a x -> protocol (tmap (b2a T) a) (fun r => rshared T r x).
Proof.
  intros Ha. pose proof (bshared_word k Hk _ _ Ha) as Hx. eapply protocol_bind; [exact (ring_xor_mask_spec T)|]. intros m0 m1 m2 Hm.
  eapply protocol_bind; [exact ring_b2a_keys_spec|]. intros ? ? ? ([k2 k3] & W2 & W3 & [= -> -> ->]). cbn [fst snd b2a_masked].
  apply protocol_exchange. destruct (ring_put m0 m1 m2 (ring_add T k2 k3) Hm (ring_add_word T k2 k3 W2 W3)) as [_ Hy].
  eapply protocol_bind; [exact (ring_add_protocol T a _ _ _ Hpow Ha Hy)|]. intros z0 z1 z2 Hz.
  eapply protocol_weaken; [exact (ring_b2a_open_spec (mkTri z0 z1 z2) _ _ _ _ Hz)|]. intros r ->. cbn [sa sb fst snd] in *.
  apply rshared_eqm; [by apply word_mod|auto with ring_words..|]. rewrite eqm_mod, !ring_neg_eqm, ring_add_eqm. apply eqm_eq. ring.
Qed.
End Pow2.

(** ** Bits *)

Lemma rsplit_bit_shared a0 a1 a2 : word k a0 -> word k a1 -> word k a2 ->
  let s := mkTri (rsplit_bit ID0 (mkShare a0 a2)) (rsplit_bit ID1 (mkShare a1 a0)) (rsplit_bit ID2 (mkShare a2 a1)) in
  rshared T (tmap (fun t => fst (fst t)) s) a0 /\ rshared T (tmap (fun t => snd (fst t)) s) a1 /\ rshared T (tmap snd s) a2.
Proof.
  intros H0 H1 H2. pose proof (word_0_K T) as Z0. cbn. split_and!; [apply (rshared_eqm T a0 0 0)|apply (rshared_eqm T 0 a1 0)|apply (rshared_eqm T 0 0 a2)];
    try done; apply eqm_eq; ring.
Qed.

Lemma rmod_xor u v : word 1 u -> word 1 v -> rmod T (u + v - 2 * (u * v)) = Z.lxor u v.
Proof.
  intros Hu Hv. destruct (bit_cases u Hu) as [-> | ->], (bit_cases v Hv) as [-> | ->]; cbn; apply rmod_small; auto using word_0_K, word_1_K.
Qed.

Lemma ring_inject_spec a x : bshared 1 a x -> protocol (tmap (inject T) a) (fun r => rshared T r x).
Proof.
  intros (a0 & a1 & a2 & H0 & H1 & H2 & -> & <-). apply protocol_id. cbn [shares_of t0 t1 t2].
  assert (W : forall v, word 1 v -> word k v) by (intros v Hv; destruct (bit_cases v Hv) as [-> | ->]; auto using word_0_K, word_1_K).
  destruct (rsplit_bit_shared a0 a1 a2 (W _ H0) (W _ H1) (W _ H2)) as (B0 & B1 & B2). cbn [rsplit_bit].
  eapply protocol_bind; [exact (ring_arithmetic_xor_spec T _ _ _ _ B0 B1)|]. intros d0 d1 d2 Hd. rewrite rmod_xor in Hd by done.
  eapply protocol_weaken; [exact (ring_arithmetic_xor_spec T _ _ _ _ Hd B2)|]. intros r. rewrite rmod_xor; [done| |done]. by apply bword_lxor.
Qed.

Lemma ring_bits_bit v : word 1 v -> (ring_bits T v <=? 1) = true.
Proof. intros H. destruct (bit_cases v H) as [-> | ->]; by destruct T. Qed.
Lemma ring_bit_inject_spec a x : bshared 1 a x -> protocol (tmap (bit_inject T) a) (fun r => rshared T r x).
Proof.
  intros Ha. pose proof Ha as (a0 & a1 & a2 & H0 & H1 & H2 & -> & <-).
  apply protocol_massert; [by apply ring_bits_bit..|]. exact (ring_inject_spec _ _ Ha).
Qed.

(** ** Comparisons *)

Section Comparisons.
Hypothesis Hpow : power_of_two T = true.

Lemma ring_unsigned_ge_spec a b x y : rshared T a x -> rshared T b y ->
  protocol (tmap2 (unsigned_ge T) a b) (fun r => bshared 1 r (Z.b2z (y <=? x))).
Proof.
  intros Ha Hb. eapply protocol_bind; [exact (ring_a2b_spec Hpow a x Ha)|]. intros u0 u1 u2 Hu.
  eapply protocol_bind; [exact (ring_a2b_spec Hpow b y Hb)|]. intros v0 v1 v2 Hv.
  eapply protocol_bind; [exact (ring_sub_carry_spec T _ _ _ _ Hpow Hu Hv)|]. intros d0 d1 d2 [_ Hd]. by apply protocol_ret'.
Qed.
Lemma ring_ge_const_lhs_spec x b y : word k x -> rshared T b y ->
  protocol (tmap (unsigned_ge_const_lhs T x) b) (fun r => bshared 1 r (Z.b2z (y <=? x))).
Proof.
  intros Hx Hb. eapply protocol_bind; [exact (ring_a2b_spec Hpow b y Hb)|]. intros v0 v1 v2 Hv.
  eapply protocol_bind; [exact (ring_sub_from_const_spec T x _ _ Hpow Hx Hv)|]. intros d0 d1 d2 [_ Hd]. by apply protocol_ret'.
Qed.
Lemma ring_ge_const_rhs_spec a x y : rshared T a x -> word k y ->
  protocol (tmap (fun a => unsigned_ge_const_rhs T a y) a) (fun r => bshared 1 r (Z.b2z (y <=? x))).
Proof.
  intros Ha Hy. eapply protocol_bind; [exact (ring_a2b_spec Hpow a x Ha)|]. intros v0 v1 v2 Hv.
  eapply protocol_bind; [exact (ring_sub_by_const_spec T _ _ y Hpow Hv Hy)|]. intros d0 d1 d2 [_ Hd]. by apply protocol_ret'.
Qed.

(** A negated bit, by complement and by subtraction from one. *)
Lemma protocol_negate (m : Tri (MPC RingShare)) b : protocol m (fun r => bshared 1 r (Z.b2z b)) ->
  protocol (tmap (fun m => t <~ m ;; mret (rs_not Bit t)) m) (fun r => bshared 1 r (Z.b2z (negb b))).
Proof.
  intros Hm. destruct m. eapply protocol_bind; [exact Hm|]. intros r0 r1 r2 Hr. apply protocol_ret'. exact (not_bit_shared _ _ Hr).
Qed.
Lemma one_minus_bit_shared a b : bshared 1 a (Z.b2z b) -> bshared 1 (with_ids (sub_public_by_shared Bit 1) a) (Z.b2z (negb b)).
Proof.
  intros Ha. apply rshared_bit. apply rshared_bit in Ha.
  assert (W : word (K Bit) (Z.b2z (negb b))) by (destruct b; unfold word; cbn; lia).
  destruct Ha as (a0 & a1 & a2 & H0 & H1 & H2 & -> & E). cbn [shares_of with_ids t0 t1 t2].
  apply (rshared_eqm Bit (ring_add Bit (ring_neg Bit a0) 1) (ring_neg Bit a1) (ring_neg Bit a2)); auto using ring_add_word, ring_neg_word, word_1_K.
  rewrite ring_add_eqm, !ring_neg_eqm. transitivity (1 - rmod Bit (a0 + a1 + a2)).
  - rewrite rmod_eqm. apply eqm_eq. ring.
  - rewrite <- E. apply eqm_eq. by destruct b.
Qed.

Lemma ltb_negb x y : (x <? y) = negb (y <=? x).
Proof. apply Z.ltb_antisym. Qed.
Lemma ring_lt_spec a b x y : rshared T a x -> rshared T b y ->
  protocol (tmap2 (lt T) a b) (fun r => bshared 1 r (Z.b2z (x <? y))).
Proof.
  intros Ha Hb. eapply protocol_bind; [exact (ring_unsigned_ge_spec a b x y Ha Hb)|]. intros r0 r1 r2 Hr. apply protocol_id, protocol_ret'.
  rewrite ltb_negb. exact (one_minus_bit_shared (mkTri r0 r1 r2) _ Hr).
Qed.
Lemma ring_gt_spec a b x y : rshared T a x -> rshared T b y ->
  protocol (tmap2 (gt T) a b) (fun r => bshared 1 r (Z.b2z (y <? x))).
Proof. intros Ha Hb. rewrite ltb_negb. exact (protocol_negate (tmap2 (unsigned_ge T) b a) _ (ring_unsigned_ge_spec b a y x Hb Ha)). Qed.
Lemma ring_lt_public_spec a x y : rshared T a x -> word k y ->
  protocol (tmap (fun a => lt_public T a y) a) (fun r => bshared 1 r (Z.b2z (x <? y))).
Proof. intros Ha Hy. rewrite ltb_negb. exact (protocol_negate (tmap (fun a => unsigned_ge_const_rhs T a y) a) _ (ring_ge_const_rhs_spec a x y Ha Hy)). Qed.
Lemma ring_gt_public_spec a x y : rshared T a x -> word k y ->
  protocol (tmap (fun a => gt_public T a y) a) (fun r => bshared 1 r (Z.b2z (y <? x))).
Proof. intros Ha Hy. rewrite ltb_negb. exact (protocol_negate (tmap (unsigned_ge_const_lhs T y) a) _ (ring_ge_const_lhs_spec y a x Hy Ha)). Qed.

Lemma rsub_zero x y : word k x -> word k y -> (rmod T (x - y) =? 0) = (x =? y).
Proof.
  intros Hx Hy. apply eq_true_iff_eq. rewrite !Z.eqb_eq. split; intros E; [|subst; rewrite Z.sub_diag; apply rmod_small, word_0_K].
  apply (eqm_words T); [done..|]. transitivity (x - y + y); [apply eqm_eq; ring|]. rewrite <- (rmod_eqm T (x - y)), E. apply eqm_eq. ring.
Qed.
Lemma ring_eq_spec a b x y : rshared T a x -> rshared T b y ->
  protocol (tmap2 (Rep3Ring.eq T) a b) (fun r => bshared 1 r (Z.b2z (x =? y))).
Proof.
  intros Ha Hb. pose proof (rshared_word T _ _ Ha) as Hx. pose proof (rshared_word T _ _ Hb) as Hy.
  eapply protocol_bind; [exact (ring_a2b_spec Hpow _ _ (rshared_sub T a b x y Ha Hb))|]. intros r0 r1 r2 Hr.
  rewrite <- rsub_zero by done. exact (ring_bis_zero_spec T _ _ Hpow Hr).
Qed.
Lemma ring_eq_public_spec a x y : rshared T a x -> word k y ->
  protocol (tmap (fun a => eq_public T a y) a) (fun r => bshared 1 r (Z.b2z (x =? y))).
Proof. intros Ha Hy. apply protocol_id. exact (ring_eq_spec a _ x y Ha (rshared_public T y Hy)). Qed.
Lemma ring_neq_spec a b x y : rshared T a x -> rshared T b y ->
  protocol (tmap2 (neq T) a b) (fun r => bshared 1 r (Z.b2z (negb (x =? y)))).
Proof. intros Ha Hb. exact (protocol_negate (tmap2 (Rep3Ring.eq T) a b) _ (ring_eq_spec a b x y Ha Hb)). Qed.
Lemma ring_is_zero_spec a x : rshared T a x -> protocol (tmap (is_zero T) a) (fun r => r = tpure (x =? 0)).
Proof.
  intros Ha. eapply protocol_bind; [exact (ring_eq_spec _ a 0 x (rzero_shared T) Ha)|]. intros r0 r1 r2 Hr.
  eapply protocol_bind; [exact (ring_bopen_spec Bit (mkTri r0 r1 r2) _ Hr)|]. intros ? ? ? [= -> -> ->]. apply protocol_ret'.
  by destruct x.
Qed.
End Comparisons.
End Width.

(** ** Casts *)

Section Casts.
Context (T U : RingType).

Lemma downcast_shared a x : rshared T a x -> K U <= K T ->
  rshared U (tmap (fun s => mkShare (as_ T U (sa s)) (as_ T U (sb s))) a) (x mod 2 ^ K U).
Proof.
  intros (a0 & a1 & a2 & H0 & H1 & H2 & -> & ->) Hle. unfold tmap, shares_of. cbn [t0 t1 t2 sa sb]. rewrite !as_mod by done. pose proof (modulus_pos U).
  apply (rshared_eqm U (a0 mod 2 ^ K U) (a1 mod 2 ^ K U) (a2 mod 2 ^ K U)); [apply word_mod, K_nonneg..|].
  rewrite !eqm_mod. unfold eqm, rmod. symmetry. apply Z.mod_mod_divide. exists (2 ^ (K T - K U)).
  rewrite <- Z.pow_add_r by (pose proof (K_nonneg U); lia). f_equal. lia.
Qed.
Lemma upcast_bits_shared a x : bshared (K T) a x -> K T <= K U ->
  bshared (K U) (tmap (fun s => mkShare (as_ T U (sa s)) (as_ T U (sb s))) a) x.
Proof.
  intros (a0 & a1 & a2 & H0 & H1 & H2 & -> & <-) Hle. assert (2 ^ K T <= 2 ^ K U) by (apply Z.pow_le_mono_r; lia).
  unfold tmap, shares_of. cbn [t0 t1 t2 sa sb]. rewrite !as_mod by done. unfold word in *. rewrite !Z.mod_small by lia. exists a0, a1, a2. unfold word. split_and!; try done; lia.
Qed.

Lemma cast_a2b_spec a x : power_of_two T = true -> power_of_two U = true -> rshared T a x ->
  protocol (tmap (cast_a2b T U) a) (fun r => rshared U r (x mod 2 ^ K U)).
Proof.
  intros HT HU Ha. unfold tmap, cast_a2b, downcast. destruct (Z.leb_spec (K U) (K T)) as [Hle|Hlt].
  { apply protocol_ret'. exact (downcast_shared a x Ha Hle). }
  pose proof (rshared_word T _ _ Ha) as Hx. assert (2 ^ K T <= 2 ^ K U) by (apply Z.pow_le_mono_r; lia).
  rewrite Z.mod_small by (unfold word in Hx; lia). apply protocol_massert; [by apply Z.ltb_lt..|].
  destruct (decide (T = Bit)) as [->|HB].
  - apply rshared_bit in Ha. exact (ring_inject_spec U a x Ha).
  - assert (E : forall s, match T with Bit => bit_inject_from_bit U s | _ => binary <~ a2b T s ;; b2a U (mkShare (as_ T U (sa binary)) (as_ T U (sb binary))) end
      = (binary <~ a2b T s ;; b2a U (mkShare (as_ T U (sa binary)) (as_ T U (sb binary))))) by (by destruct T).
    rewrite !E. eapply protocol_bind; [exact (ring_a2b_spec T HT a x Ha)|]. intros r0 r1 r2 Hr.
    exact (ring_b2a_spec U HU _ _ (upcast_bits_shared (mkTri r0 r1 r2) x Hr ltac:(lia))).
Qed.
End Casts.

Section FieldCasts.
Context (T : RingType).
Abbreviation n := (@MODULUS_BIT_SIZE F JF PF).
Abbreviation p := (@MODULUS F JF PF).
Hypothesis Hpow : power_of_two T = true.

Lemma lxor_mod_pow2 w u v : 0 <= w -> Z.lxor u v mod 2 ^ w = Z.lxor (u mod 2 ^ w) (v mod 2 ^ w).
Proof. intros Hw. apply Z.bits_inj'. intros m Hm. rewrite Z.lxor_spec, !Z.testbit_mod_pow2, Z.lxor_spec by done. by destruct (m <? w). Qed.

Lemma field_to_ring_spec a (x : F) : shared a x -> protocol (tmap (field_to_ring_a2b T) a) (fun r => rshared T r (into_biguint x mod 2 ^ K T)).
Proof.
  intros Ha. eapply protocol_bind; [exact (a2b_spec a x Ha)|]. intros r0 r1 r2 (b0 & b1 & b2 & H0 & H1 & H2 & [= -> -> ->] & E).
  cbn [sa sb]. rewrite !cast_from_biguint_mod by (by eapply word_nonneg).
  apply (ring_b2a_spec T Hpow (shares_of (b0 mod 2 ^ K T) (b1 mod 2 ^ K T) (b2 mod 2 ^ K T))).
  eexists _, _, _. split_and!; [..|reflexivity|by rewrite <- E, !lxor_mod_pow2 by apply K_nonneg]; apply word_mod, K_nonneg.
Qed.

Hypothesis Hp : 2 ^ K T <= p.
Lemma ring_fits : K T <= n.
Proof.
  destruct (Z.le_gt_cases (K T) n); [done|]. assert (2 ^ n < 2 ^ K T) by (apply Z.pow_lt_mono_r; pose proof n_pos; lia).
  pose proof (@MODULUS_range F JF PF). lia.
Qed.
Lemma ring_to_field_spec a x : rshared T a x -> protocol (tmap (ring_to_field_a2b T) a) (fun r => shared r (of_Z x : F)).
Proof.
  intros Ha. pose proof (rshared_word T _ _ Ha) as [_ Hx]. pose proof ring_fits as Hn. destruct (decide (T = Bit)) as [HB|HB].
  - unfold ring_to_field_a2b. rewrite HB in *. apply rshared_bit in Ha. exact (bit_inject_spec a x Ha).
  - assert (E : forall s, ring_to_field_a2b T s = (binary <~ a2b T s ;; Rep3Binary.b2a binary)) by (by destruct T).
    unfold tmap. rewrite !E. eapply protocol_bind; [exact (ring_a2b_spec T Hpow a x Ha)|]. intros r0 r1 r2 Hr.
    apply (b2a_spec (mkTri r0 r1 r2)); [|lia]. by apply (bshared_weaken (K T)).
Qed.
End FieldCasts.
End Conversions.
