(* ===== verification/Rep3RingMany.v ===== *)
(** * Correctness of the batched ring protocols

    The protocols on vectors.  A vector of shares is indexed by a list [vs] that
    stays fixed through a protocol while the value [f v] shared at an index [v]
    changes, so that every step is a statement about one index. *)

From Stdlib Require Import ZArith Lia List Bool Setoid Morphisms Btauto.
From stdpp Require Import base list.
From S2P Require Import Prelude Words Field Carry Ring2k RingCarry MpcNet Rep3Ctx Rep3Rules Rep3Share Rep3Arith Rep3Correct Rep3Binary Rep3BinCorrect Rep3BinMany Rep3Ring Rep3RingCorrect Rep3RingBin Rep3RingConv.
Import ListNotations.
Local Open Scope Z_scope.
Local Open Scope mpc_scope.
Local Open Scope ring2k_scope.

(** ** Vectors over an index *)

Section Indexed.
Context {V : Type}.

Lemma tri_map1 {A A'} (P : Tri A -> V -> Prop) (Q : Tri A' -> V -> Prop) (f : A -> A') l vs :
  (forall a v, P a v -> Q (tmap f a) v) -> tri_forall P l vs -> tri_forall Q (tmap (map f) l) vs.
Proof. intros H. induction 1 as [|? ? ? ? ? ? ? ? Hp]; cbn; constructor; [exact (H _ _ Hp)|done]. Qed.
Lemma tri_ids {A A'} (P : Tri A -> V -> Prop) (Q : Tri A' -> V -> Prop) (f : PartyID -> A -> A') l vs :
  (forall a v, P a v -> Q (with_ids (fun a id => f id a) a) v) -> tri_forall P l vs ->
  tri_forall Q (mkTri (map (f ID0) (t0 l)) (map (f ID1) (t1 l)) (map (f ID2) (t2 l))) vs.
Proof. intros H. induction 1 as [|? ? ? ? ? ? ? ? Hp]; cbn; constructor; [exact (H _ _ Hp)|done]. Qed.
Lemma tri_zip {A A'} (P : Tri A -> V -> Prop) (P' : Tri A' -> V -> Prop) l l' vs : tri_forall P l vs -> tri_forall P' l' vs ->
  tri_forall (fun ab v => P (tmap fst ab) v /\ P' (tmap snd ab) v) (tmap2 zip l l') vs.
Proof.
  intros H. revert l'. induction H as [|? ? ? ? ? ? ? ? Hp ? IH]; intros l' H'; inversion H' as [|? ? ? ? ? ? ? ? Hp' Hl']; subst; cbn; constructor; [done|].
  exact (IH _ Hl').
Qed.
Lemma tri_map2 {A A' B} (P : Tri A -> V -> Prop) (P' : Tri A' -> V -> Prop) (Q : Tri B -> V -> Prop) (f : A -> A' -> B) l l' vs :
  (forall a a' v, P a v -> P' a' v -> Q (tmap2 f a a') v) -> tri_forall P l vs -> tri_forall P' l' vs ->
  tri_forall Q (tmap2 (fun l l' => map (fun t => f (fst t) (snd t)) (zip l l')) l l') vs.
Proof.
  intros H Hl Hl'.
  exact (tri_map1 _ Q (fun t => f (fst t) (snd t)) _ vs (fun t v Ht => H (tmap fst t) (tmap snd t) v (proj1 Ht) (proj2 Ht)) (tri_zip P P' l l' vs Hl Hl')).
Qed.
Lemma tri_and {A} (P Q : Tri A -> V -> Prop) l vs : tri_forall P l vs -> (forall a v, P a v -> Q a v) -> tri_forall Q l vs.
Proof. intros Hl H. by apply (tri_forall_impl' P). Qed.
Lemma tri_unmap {A W} (P : Tri A -> W -> Prop) (f : V -> W) l vs : tri_forall P l (map f vs) <-> tri_forall (fun a v => P a (f v)) l vs.
Proof.
  split; revert l; induction vs as [|v vs IH]; intros l H; inversion H; subst; constructor; auto.
Qed.
Lemma tri_values {A} (P Q : Tri A -> V -> Prop) l vs : tri_forall P l vs -> Forall (fun v => forall a, P a v -> Q a v) vs -> tri_forall Q l vs.
Proof. induction 1; intros E; [constructor|]. apply Forall_cons in E as [E1 E2]. constructor; auto. Qed.
End Indexed.

(** Two vectors of one length, indexed by the pairs. *)
Lemma tri_pair {A V A' V'} (P : Tri A -> V -> Prop) (P' : Tri A' -> V' -> Prop) l l' vs ws :
  tri_forall P l vs -> tri_forall P' l' ws -> length vs = length ws ->
  tri_forall (fun a v => P a (fst v)) l (zip vs ws) /\ tri_forall (fun a v => P' a (snd v)) l' (zip vs ws).
Proof.
  intros H. revert l' ws. induction H as [|? ? ? ? ? ? ? ? Hp ? IH]; intros l' ws H' E; destruct H' as [|? ? ? ? ? ? ? ? Hp' Hl']; try done; cbn.
  - split; constructor.
  - destruct (IH _ _ Hl') as [I1 I2]; [by injection E|]. split; constructor; done.
Qed.
Lemma tri_public {A} (l : list A) : tri_forall (fun t v => t = tpure v) (tpure l) l.
Proof. induction l; constructor; done. Qed.
Lemma zip_with_pairs {A B C} (f : A -> B -> C) l l' : zip_with f l l' = map (fun v => f (fst v) (snd v)) (zip l l').
Proof. revert l'. induction l as [|a l IH]; intros [|b l']; cbn; [done..|]. by rewrite IH. Qed.

Definition bvec {V} (w : Z) (f : V -> Z) : Tri (list BinaryShare) -> list V -> Prop := tri_forall (fun s v => bshared w s (f v)).
Definition rvec {V} (T : RingType) (f : V -> Z) : Tri (list RingShare) -> list V -> Prop := tri_forall (fun s v => rshared T s (f v)).

Section Many.
Context {F : Type} `{JF : JoltField F} `{PF : !PrimeField F} `{RO : !RngOps F} `{B : Build}.
Context {V : Type} (vs : list V).

Lemma tri_mmap {A A'} (P : Tri A -> V -> Prop) (Q : Tri A' -> V -> Prop) (f0 f1 f2 : A -> MPC A') l :
  (forall a v, P a v -> protocol (mkTri (f0 (t0 a)) (f1 (t1 a)) (f2 (t2 a))) (fun r => Q r v)) -> tri_forall P l vs ->
  protocol (mkTri (mmap f0 (t0 l)) (mmap f1 (t1 l)) (mmap f2 (t2 l))) (fun r => tri_forall Q r vs).
Proof.
  intros H. induction 1 as [|a0 a1 a2 v l0 l1 l2 vs Hp Hl IH]; cbn [mmap t0 t1 t2] in *.
  - apply protocol_ret'. constructor.
  - eapply protocol_bind; [exact (H _ _ Hp)|]. intros b0 b1 b2 Hb. eapply protocol_bind; [exact IH|].
    intros r0 r1 r2 Hr. apply protocol_ret'. by constructor.
Qed.

Section Width.
Context (T : RingType).
Abbreviation k := (K T).
Let Hk : 0 <= k := K_nonneg T.
Implicit Types (f g : V -> Z).

Lemma bvec_ext w f g a : (forall v, f v = g v) -> bvec w f a vs -> bvec w g a vs.
Proof. intros E Ha. apply (tri_and _ _ _ _ Ha). intros s v. by rewrite E. Qed.

(** Reshared summands. *)
Lemma tri_reshared f l0 l1 l2 : tri_forall (fun s v => bsummands k s (f v)) (mkTri l0 l1 l2) vs ->
  bvec k f (mkTri (zip_rshares l0 l2) (zip_rshares l1 l0) (zip_rshares l2 l1)) vs.
Proof.
  intros H. remember (mkTri l0 l1 l2) as l eqn:El. revert l0 l1 l2 El.
  induction H as [|a0 a1 a2 v l0 l1 l2 vs' Hp Hl IH]; intros ? ? ? [= <- <- <-]; cbn; constructor; [by apply bshared_reshared|exact (IH _ _ _ eq_refl)].
Qed.

Lemma and_many_index f g a b : bvec k f a vs -> bvec k g b vs ->
  protocol (tmap2 (and_many T) a b) (fun r => bvec k (fun v => Z.land (f v) (g v)) r vs).
Proof.
  intros Ha Hb. eapply protocol_bind.
  - refine (tri_mmap _ (fun s v => bsummands k s (Z.land (f v) (g v))) _ _ _ _ _ (tri_zip _ _ _ _ _ Ha Hb)).
    intros t v [H1 H2]. eapply protocol_bind; [exact (ring_xor_mask_spec T)|]. intros m0 m1 m2 Hm. apply protocol_ret'.
    exact (ring_masked T _ _ _ (rs_and_local T _ _ _ _ H1 H2) Hm).
  - intros l0 l1 l2 Hl. eapply protocol_bind; [apply protocol_reshare_many|]. intros ? ? ? [= -> -> ->]. apply protocol_ret'. by apply tri_reshared.
Qed.
Lemma xor_index f g a b : bvec k f a vs -> bvec k g b vs ->
  bvec k (fun v => Z.lxor (f v) (g v)) (tmap2 (fun l l' => map (fun t => rs_xor T (fst t) (snd t)) (zip l l')) a b) vs.
Proof. intros Ha Hb. refine (tri_map2 _ _ _ (rs_xor T) _ _ _ _ Ha Hb). intros. by apply rs_xor_shared. Qed.
Lemma or_many_index f g a b : bvec k f a vs -> bvec k g b vs ->
  protocol (tmap2 (or_many T) a b) (fun r => bvec k (fun v => Z.lor (f v) (g v)) r vs).
Proof.
  intros Ha Hb. eapply protocol_bind; [exact (and_many_index f g a b Ha Hb)|]. intros r0 r1 r2 Hr. apply protocol_ret'.
  eapply (bvec_ext _ (fun v => Z.lxor (Z.lxor (f v) (g v)) (Z.land (f v) (g v)))).
  - intros v. apply Z.bits_inj'; intros ? ?; rewrite Z.lor_spec, !Z.lxor_spec, Z.land_spec; btauto.
  - exact (xor_index _ _ _ (mkTri r0 r1 r2) (xor_index f g a b Ha Hb) Hr).
Qed.
Lemma bcmux_many_index h f g c a b : bvec k h c vs -> bvec k f a vs -> bvec k g b vs ->
  protocol (mkTri (bcmux_many T (t0 c) (t0 a) (t0 b)) (bcmux_many T (t1 c) (t1 a) (t1 b)) (bcmux_many T (t2 c) (t2 a) (t2 b)))
    (fun r => bvec k (fun v => Z.lxor (Z.land (h v) (Z.lxor (g v) (f v))) (g v)) r vs).
Proof.
  intros Hc Ha Hb. eapply protocol_bind; [exact (and_many_index h _ c _ Hc (xor_index g f b a Hb Ha))|]. intros r0 r1 r2 Hr. apply protocol_ret'.
  exact (xor_index _ g (mkTri r0 r1 r2) b Hr Hb).
Qed.

(** ** Adders *)

Lemma and_twice_many_index h f g a b1 b2 : bvec k h a vs -> bvec k f b1 vs -> bvec k g b2 vs ->
  protocol (mkTri (and_twice_many_iter T (zip (zip (t0 a) (t0 b1)) (t0 b2))) (and_twice_many_iter T (zip (zip (t1 a) (t1 b1)) (t1 b2)))
                  (and_twice_many_iter T (zip (zip (t2 a) (t2 b1)) (t2 b2))))
    (fun r => bvec k (fun v => Z.land (f v) (h v)) (tmap fst r) vs /\ bvec k (fun v => Z.land (h v) (g v)) (tmap snd r) vs).
Proof.
  intros Ha H1 H2. eapply protocol_bind.
  - refine (tri_mmap _ (fun s v => bsummands k (tmap fst s) (Z.land (f v) (h v)) /\ bsummands k (tmap snd s) (Z.land (h v) (g v))) _ _ _ _ _
      (tri_zip _ _ _ _ _ (tri_zip _ _ _ _ _ Ha H1) H2)).
    intros [[[a0 b0] c0] [[a1 b1'] c1] [[a2 b2'] c2]] v [[Hh Hf] Hg]. cbn [t0 t1 t2 tmap fst snd] in *.
    eapply protocol_bind; [exact (ring_xor_mask_spec T)|]. intros m0 m1 m2 Hm.
    eapply protocol_bind; [exact (ring_xor_mask_spec T)|]. intros n0 n1 n2 Hn. apply protocol_ret'. cbn [tmap t0 t1 t2 fst snd]. split.
    + exact (ring_masked T _ _ _ (rs_and_local T (mkTri b0 b1' b2') (mkTri a0 a1 a2) _ _ Hf Hh) Hm).
    + exact (ring_masked T _ _ _ (rs_and_local T (mkTri a0 a1 a2) (mkTri c0 c1 c2) _ _ Hh Hg) Hn).
  - intros l0 l1 l2 Hl. apply protocol_exchange, protocol_ret'. split; apply tri_reshared.
    + exact (tri_map1 _ _ fst (mkTri l0 l1 l2) vs (fun a v H => proj1 H) Hl).
    + exact (tri_map1 _ _ snd (mkTri l0 l1 l2) vs (fun a v H => proj2 H) Hl).
Qed.

Lemma shl_index f a n : 0 <= n -> bvec k f a vs -> bvec k (fun v => ring_shl T (f v) n) (tmap (map (fun s => rs_shl T s n)) a) vs.
Proof. intros Hn Ha. refine (tri_map1 _ _ _ _ _ _ Ha). intros. by apply rs_shl_shared. Qed.
Lemma not_index f a : bvec k f a vs -> bvec k (fun v => Z.lxor (f v) (Z.shiftl 1 k - 1)) (tmap (map (rs_not T)) a) vs.
Proof. intros Ha. refine (tri_map1 _ _ _ _ _ _ Ha). intros. by apply rs_not_shared. Qed.

Lemma kogge_stone_steps_many_index d : forall f g i p q, 0 <= i -> bvec k f p vs -> bvec k g q vs ->
  protocol (tmap2 (kogge_stone_steps_many T d i) p q) (fun r => bvec k (fun v => rks_loop T d i (f v) (g v)) r vs).
Proof.
  induction d as [|d IH]; intros f g i p q Hi Hp Hq; [destruct q; by apply protocol_ret'|].
  cbn [kogge_stone_steps_many rks_loop tmap2]. assert (Hs : 0 <= Z.shiftl 1 i) by (by apply Z.shiftl_nonneg).
  eapply protocol_bind; [exact (and_twice_many_index f _ _ p _ _ Hp (shl_index g q _ Hs Hq) (shl_index f p _ Hs Hp))|].
  intros r0 r1 r2 [Hg' Hp'].
  exact (IH _ _ (i + 1) (tmap snd (mkTri r0 r1 r2)) _ ltac:(lia) Hp' (xor_index g _ q (tmap fst (mkTri r0 r1 r2)) Hq Hg')).
Qed.

Section Pow2.
Hypothesis Hpow : power_of_two T = true.

Lemma kogge_stone_carry_many_index f g p q : bvec k f p vs -> bvec k g q vs ->
  protocol (tmap2 (kogge_stone_inner_with_carry_many T) p q)
    (fun r => bvec k (fun v => rks_sum T (f v) (g v)) (tmap fst r) vs /\
              bvec 1 (fun v => Z.b2z (Z.testbit (rks_carries T (f v) (g v)) (k - 1))) (tmap snd r) vs).
Proof.
  intros Hp Hq. eapply protocol_bind.
  - apply protocol_assert; [done..|]. exact (kogge_stone_steps_many_index (ilog2_K T) f g 0 p q ltac:(lia) Hp Hq).
  - intros r0 r1 r2 Hr. apply protocol_ret'. split.
    + refine (tri_map2 _ _ _ (fun c s => rs_xor T (rs_shl T c 1) s) (mkTri r0 r1 r2) p vs _ Hr Hp). intros s s' v Hs Hs'.
      apply (rs_xor_shared T (tmap (fun s => rs_shl T s 1) s)); [|done]. by apply rs_shl_shared.
    + refine (tri_map1 _ _ _ (mkTri r0 r1 r2) vs _ Hr). intros s v Hs. apply get_bit_shared; [|done]. pose proof (K_pos T). lia.
Qed.
Lemma kogge_stone_inner_many_index f g p q : bvec k f p vs -> bvec k g q vs ->
  protocol (tmap2 (kogge_stone_inner_many T) p q) (fun r => bvec k (fun v => rks_sum T (f v) (g v)) r vs).
Proof.
  intros Hp Hq. eapply protocol_bind.
  - apply protocol_assert; [done..|]. exact (kogge_stone_steps_many_index (ilog2_K T) f g 0 p q ltac:(lia) Hp Hq).
  - intros r0 r1 r2 Hr. apply protocol_ret'.
    refine (tri_map2 _ _ _ (fun c s => rs_xor T (rs_shl T c 1) s) (mkTri r0 r1 r2) p vs _ Hr Hp). intros s s' v Hs Hs'.
    apply (rs_xor_shared T (tmap (fun s => rs_shl T s 1) s)); [|done]. by apply rs_shl_shared.
Qed.

(** The values of words replaced by equal ones. *)
Lemma bvec_words f a : bvec k f a vs -> Forall (fun v => word k (f v)) vs.
Proof. induction 1; constructor; [|done]. by eapply (bshared_word k Hk). Qed.
Lemma bvec_value w u h r f g a b : bvec k f a vs -> bvec k g b vs -> (forall v, word k (f v) -> word k (g v) -> u v = h v) ->
  bvec w u r vs -> bvec w h r vs.
Proof.
  intros Wf%bvec_words Wg%bvec_words E Hr. apply (tri_values _ _ _ _ Hr). pose proof (conj Wf Wg) as W. apply Forall_and in W.
  apply (Forall_impl _ _ _ W). intros v [W1 W2] s. by rewrite E.
Qed.

Lemma add_many_index f g a b : bvec k f a vs -> bvec k g b vs ->
  protocol (tmap2 (low_depth_binary_add_many T) a b) (fun r => bvec k (fun v => (f v + g v) mod 2 ^ k) r vs).
Proof.
  intros Ha Hb. eapply protocol_bind; [exact (and_many_index f g a b Ha Hb)|]. intros r0 r1 r2 Hr.
  eapply protocol_weaken; [exact (kogge_stone_inner_many_index _ _ _ (mkTri r0 r1 r2) (xor_index f g a b Ha Hb) Hr)|].
  intros r. apply (bvec_value k _ _ _ f g a b Ha Hb). intros v Wf Wg. by apply rks_sum_plus.
Qed.

Lemma xor_lsb_index f g a b : bvec k f a vs -> bvec k g b vs ->
  bvec k (fun v => Z.lxor (f v) (Z.land (g v) 1)) (tmap2 (fun l l' => map (fun t => rs_xor T (fst t) (rs_and_public T (snd t) 1)) (zip l l')) a b) vs.
Proof.
  intros Ha Hb. refine (tri_map2 _ _ _ (fun u s => rs_xor T u (rs_and_public T s 1)) _ _ _ _ Ha Hb). intros u s v Hu Hs.
  apply (rs_xor_shared T u (tmap (fun s => rs_and_public T s 1) s)); [done|]. by apply rs_and_public_shared.
Qed.
Lemma sub_carry_many_index f g a b : bvec k f a vs -> bvec k g b vs ->
  protocol (tmap2 (low_depth_binary_sub_with_carry_many T) a b)
    (fun r => bvec k (fun v => (f v - g v) mod 2 ^ k) (tmap fst r) vs /\ bvec 1 (fun v => Z.b2z (g v <=? f v)) (tmap snd r) vs).
Proof.
  intros Ha Hb. pose proof (not_index g b Hb) as Hb'. pose proof (xor_index f _ a _ Ha Hb') as Hp.
  eapply protocol_bind; [exact (and_many_index f _ a _ Ha Hb')|]. intros g0 g1 g2 Hg.
  eapply protocol_bind; [exact (kogge_stone_carry_many_index _ _ _ _ Hp (xor_lsb_index _ _ (mkTri g0 g1 g2) _ Hg Hp))|].
  cbv beta.
  intros r0 r1 r2 [Hs Hc]. apply protocol_id, protocol_ret'. split.
  - apply (bvec_value k (fun v => Z.lxor (rks_sum T (Z.lxor (f v) (Z.lxor (g v) (Z.shiftl 1 k - 1))) (Z.lxor (Z.land (f v) (Z.lxor (g v) (Z.shiftl 1 k - 1)))
        (Z.land (Z.lxor (f v) (Z.lxor (g v) (Z.shiftl 1 k - 1))) 1))) 1) _ _ f g a b Ha Hb); [intros v Wf Wg; by apply rks_diff|].
      refine (tri_ids _ _ (fun id r => xor_public T r 1 id) (tmap fst (mkTri r0 r1 r2)) vs _ Hs). intros s v Hv.
      exact (xor_public_shared T s _ 1 Hv (word_1_K T)).
  - refine (bvec_value 1 _ _ _ f g a b Ha Hb _ Hc). intros v Wf Wg. f_equal. by apply rks_diff.
Qed.

Lemma and_public_index f a m : 0 <= m -> bvec k f a vs -> bvec k (fun v => Z.land (f v) m) (tmap (map (fun s => rs_and_public T s m)) a) vs.
Proof. intros Hm Ha. refine (tri_map1 _ _ _ _ _ _ Ha). intros. by apply rs_and_public_shared. Qed.

(** ** Zero tests *)

(** The halving of [is_zero_many_loop] on values. *)
Fixpoint zero_fold (j : nat) (x : Z) : Z :=
  match j with
  | O => x
  | S j => let l := 2 ^ Z.of_nat j in let m := Z.shiftl 1 l - 1 in zero_fold j (Z.land (Z.land x m) (Z.land (Z.shiftr x l) m))
  end.
Lemma zero_fold_bit j x : Z.testbit (zero_fold j x) 0 = true <-> all_ones (2 ^ Z.of_nat j) x.
Proof.
  revert x. induction j as [|j IH]; intros x; cbn [zero_fold]; [apply all_ones_1|].
  rewrite IH, Nat2Z.inj_succ, Z.pow_succ_r by lia. apply all_ones_land. assert (0 < 2 ^ Z.of_nat j) by (apply Z.pow_pos_nonneg; lia). lia.
Qed.
Lemma is_zero_many_loop_index j : forall fuel f a, 2 ^ Z.of_nat j <= k -> (j <= fuel)%nat -> bvec k f a vs ->
  protocol (tmap (is_zero_many_loop T fuel (2 ^ Z.of_nat j)) a) (fun r => bvec k (fun v => zero_fold j (f v)) r vs).
Proof.
  induction j as [|j IH]; intros fuel f a Hj Hf Ha.
  - change (2 ^ Z.of_nat 0) with 1. destruct a, fuel; by apply protocol_ret'.
  - destruct fuel as [|fuel]; [lia|]. rewrite Nat2Z.inj_succ, Z.pow_succ_r in * by lia. cbn [zero_fold]. set (l := 2 ^ Z.of_nat j) in *.
    assert (Hl : 0 < l) by (apply Z.pow_pos_nonneg; lia). unfold tmap. cbn [is_zero_many_loop]. rewrite (proj2 (Z.leb_gt (2 * l) 1)) by lia.
    replace (Z.shiftr (2 * l) 1) with l by (rewrite Z.shiftr_div_pow2 by lia; lia). rewrite ring_half_mask by lia.
    assert (Hm : 0 <= Z.shiftl 1 l - 1) by (rewrite Z.shiftl_1_l; assert (0 < 2 ^ l) by (apply Z.pow_pos_nonneg; lia); lia).
    eapply protocol_bind.
    + refine (and_many_index _ (fun v => Z.land (Z.shiftr (f v) l) (Z.shiftl 1 l - 1)) _ (tmap (map (fun s => rs_and_public T (rs_shr T s l) (Z.shiftl 1 l - 1))) a)
        (and_public_index f a _ Hm Ha) _).
      refine (tri_map1 _ _ _ _ _ _ Ha). intros s v Hs. apply (rs_and_public_shared T (tmap (fun s => rs_shr T s l) s)); [|done].
      apply rs_shr_shared; [lia|done].
    + intros r0 r1 r2 Hr. exact (IH fuel _ (mkTri r0 r1 r2) ltac:(lia) ltac:(lia) Hr).
Qed.
Lemma bis_zero_many_index f a : bvec k f a vs -> protocol (tmap (bis_zero_many T) a) (fun r => bvec 1 (fun v => Z.b2z (f v =? 0)) r vs).
Proof.
  intros Ha. destruct (power_of_two_log T Hpow) as (j & Ej & Hj). apply protocol_assert; [done..|]. eapply protocol_bind.
  - rewrite Ej at 2 4 6. exact (is_zero_many_loop_index j _ _ _ ltac:(lia) Hj (not_index f a Ha)).
  - intros r0 r1 r2 Hr. apply protocol_ret'.
    apply (bvec_value 1 (fun v => Z.b2z (Z.testbit (zero_fold j (Z.lxor (f v) (Z.shiftl 1 k - 1))) 0)) _ _ f f a a Ha Ha).
    + intros v W _. f_equal. apply (ring_zero_bit T); [done|]. rewrite zero_fold_bit, <- Ej. done.
    + refine (tri_map1 _ _ _ (mkTri r0 r1 r2) vs _ Hr). intros. by apply lsb_shared.
Qed.

(** ** Comparisons of bits with constants *)

Lemma ge_const_lhs_many_index f g (xs : list Z) b : map f vs = xs -> Forall (fun v => word k (f v)) vs -> bvec k g b vs ->
  protocol (tmap (unsigned_ge_const_lhs_many T xs) b) (fun r => bvec 1 (fun v => Z.b2z (g v <=? f v)) r vs).
Proof.
  intros <- Wf Hb. destruct (tri_forall_length _ _ _ Hb) as (L0 & L1 & L2). apply protocol_assert; [rewrite length_map; by apply Nat.eqb_eq..|].
  apply protocol_id. pose proof (not_index g b Hb) as Hb'.
  assert (Hc : tri_forall (fun t v => t = tpure (f v) /\ word k (f v)) (tpure (map f vs)) vs).
  { clear -Wf. induction Wf; constructor; auto. }
  assert (Hp : bvec k (fun v => Z.lxor (Z.lxor (g v) (Z.shiftl 1 k - 1)) (f v))
    (mkTri (map (fun t => xor_public T (fst t) (snd t) ID0) (zip (map (rs_not T) (t0 b)) (map f vs)))
           (map (fun t => xor_public T (fst t) (snd t) ID1) (zip (map (rs_not T) (t1 b)) (map f vs)))
           (map (fun t => xor_public T (fst t) (snd t) ID2) (zip (map (rs_not T) (t2 b)) (map f vs)))) vs).
  { refine (tri_ids _ _ (fun id t => xor_public T (fst t) (snd t) id) _ vs _ (tri_zip _ _ _ _ _ Hb' Hc)).
    intros [[s0 c0] [s1 c1] [s2 c2]] v (Hs & [= -> -> ->] & W). exact (xor_public_shared T _ _ _ Hs W). }
  assert (Hg : bvec k (fun v => Z.land (Z.lxor (g v) (Z.shiftl 1 k - 1)) (f v))
    (tmap2 (fun l l' => map (fun t => rs_and_public T (fst t) (snd t)) (zip l l')) (tmap (map (rs_not T)) b) (tpure (map f vs))) vs).
  { refine (tri_map2 _ _ _ (rs_and_public T) _ _ _ _ Hb' Hc). intros s t v Hs (-> & W). exact (rs_and_public_shared T s _ _ Hs (word_nonneg _ _ W)). }
  eapply protocol_bind; [exact (kogge_stone_carry_many_index _ _ _ _ Hp (xor_lsb_index _ _ _ _ Hg Hp))|]. cbv beta.
  intros r0 r1 r2 [_ Hc']. apply protocol_ret'. apply (tri_values _ _ _ _ Hc'). pose proof (conj Wf (bvec_words g b Hb)) as W. apply Forall_and in W.
  apply (Forall_impl _ _ _ W). intros v [W1 W2] s. rewrite (Z.lxor_comm _ (f v)), (Z.land_comm _ (f v)).
  by rewrite (proj2 (rks_diff T (f v) (g v) Hpow W1 W2)).
Qed.

Lemma ge_const_rhs_many_index f g (ys : list Z) a : map g vs = ys -> Forall (fun v => word k (g v)) vs -> bvec k f a vs ->
  protocol (tmap (fun a => unsigned_ge_const_rhs_many T a ys) a) (fun r => bvec 1 (fun v => Z.b2z (g v <=? f v)) r vs).
Proof.
  intros <- Wg Ha. destruct (tri_forall_length _ _ _ Ha) as (L0 & L1 & L2). apply protocol_assert; [rewrite length_map; by apply Nat.eqb_eq..|].
  apply protocol_id. rewrite List.map_map. set (neg := fun v => ring_add T (ring_not T (g v)) 1).
  pose proof (bvec_words f a Ha) as Wf. pose proof (conj Wf Wg) as W. apply Forall_and in W.
  assert (Hc : tri_forall (fun t v => t = tpure (neg v) /\ word k (neg v)) (tpure (map neg vs)) vs).
  { clear -W Hpow. induction W as [|v vs' [W1 W2] W IH]; constructor; [|exact IH]. split; [done|]. by apply (rks_diff_const T (f v) (g v)). }
  assert (Hp : bvec k (fun v => Z.lxor (f v) (neg v))
    (mkTri (map (fun t => xor_public T (fst t) (snd t) ID0) (zip (t0 a) (map neg vs))) (map (fun t => xor_public T (fst t) (snd t) ID1) (zip (t1 a) (map neg vs)))
           (map (fun t => xor_public T (fst t) (snd t) ID2) (zip (t2 a) (map neg vs)))) vs).
  { refine (tri_ids _ _ (fun id t => xor_public T (fst t) (snd t) id) _ vs _ (tri_zip _ _ _ _ _ Ha Hc)).
    intros [[s0 c0] [s1 c1] [s2 c2]] v (Hs & [= -> -> ->] & Wn). exact (xor_public_shared T _ _ _ Hs Wn). }
  assert (Hg : bvec k (fun v => Z.land (f v) (neg v)) (tmap2 (fun l l' => map (fun t => rs_and_public T (fst t) (snd t)) (zip l l')) a (tpure (map neg vs))) vs).
  { refine (tri_map2 _ _ _ (rs_and_public T) _ _ _ _ Ha Hc). intros s t v Hs (-> & Wn). exact (rs_and_public_shared T s _ _ Hs (word_nonneg _ _ Wn)). }
  eapply protocol_bind; [exact (kogge_stone_carry_many_index _ _ _ _ Hp Hg)|].
  intros r0 r1 r2 [_ Hr]. apply protocol_ret'.
  assert (Hy : tri_forall (fun t v => t = tpure (g v)) (tpure (map g vs)) vs) by (clear; induction vs; constructor; auto).
  set (carry := fun v => Z.testbit (rks_carries T (Z.lxor (f v) (neg v)) (Z.land (f v) (neg v))) (k - 1)).
  assert (Hres : bvec 1 (fun v => Z.b2z (if g v =? 0 then negb (carry v) else carry v))
    (tmap2 (fun l l' => map (fun t => if snd t =? 0 then rs_not Bit (fst t) else fst t) (zip l l')) (tmap snd (mkTri r0 r1 r2)) (tpure (map g vs))) vs).
  { refine (tri_map2 _ _ _ (fun s c => if c =? 0 then rs_not Bit s else s) _ _ vs _ Hr Hy). intros s t v Hs ->.
    unfold tmap2, tpure. cbn [t0 t1 t2]. destruct (g v =? 0); [exact (not_bit_shared s _ Hs)|by destruct s]. }
  apply (tri_values _ _ _ _ Hres). apply (Forall_impl _ _ _ W). intros v [W1 W2] s. unfold carry, neg.
  by rewrite (proj2 (proj2 (rks_diff_const T (f v) (g v) Hpow W1 W2))).
Qed.
End Pow2.
End Width.
End Many.
