(* ===== verification/Rep3RingConvMany.v ===== *)
(** * Correctness of the batched ring conversions and casts

    The conversions, equality tests and casts on vectors of shares of ring
    elements, on the indexed vectors of [Rep3RingMany]. *)

From Stdlib Require Import ZArith Lia List Bool Setoid Morphisms Btauto.
From stdpp Require Import base list.
From S2P Require Import Prelude Words Field Carry Ring2k RingCarry MpcNet Rep3Ctx Rep3Rules Rep3Share Rep3Arith Rep3Correct Rep3Binary Rep3BinCorrect Rep3BinMany Rep3Ring Rep3RingCorrect Rep3RingBin Rep3RingConv Rep3RingMany.
Import ListNotations.
Local Open Scope Z_scope.
Local Open Scope mpc_scope.
Local Open Scope ring2k_scope.

(** The summands of the shares, added to the index. *)
Lemma tri_choose {A V W} (R : Tri A -> V -> W -> Prop) l vs : tri_forall (fun a v => exists w, R a v w) l vs ->
  exists ws, map fst ws = vs /\ tri_forall (fun a p => R a (fst p) (snd p)) l ws.
Proof.
  induction 1 as [|a0 a1 a2 v l0 l1 l2 vs (w & Hw) Hl (ws & E & IH)]; [exists []; split; [done|constructor]|].
  exists ((v, w) :: ws). split; [cbn; by rewrite E|]. by constructor.
Qed.
(** Party 1 changes its entries, the others keep theirs. *)
Lemma tri_middle {A A' V} (P : Tri A -> V -> Prop) (P' Q : Tri A' -> V -> Prop) (h : A -> A' -> A') l m vs :
  (forall a b v, P a v -> P' b v -> Q (mkTri (t0 b) (h (t1 a) (t1 b)) (t2 b)) v) -> tri_forall P l vs -> tri_forall P' m vs ->
  tri_forall Q (mkTri (t0 m) (map (fun t => h (fst t) (snd t)) (zip (t1 l) (t1 m))) (t2 m)) vs.
Proof.
  intros H Hl. revert m. induction Hl as [|? ? ? ? ? ? ? ? Hp ? IH]; intros m Hm; inversion Hm as [|? ? ? ? ? ? ? ? Hp' Hm']; subst; cbn; constructor.
  - exact (H _ _ _ Hp Hp').
  - exact (IH _ Hm').
Qed.
Lemma zip_with_map_same {A B C D} (h : B -> C -> D) (f : A -> B) (g : A -> C) l : zip_with h (map f l) (map g l) = map (fun a => h (f a) (g a)) l.
Proof. induction l as [|a l IH]; cbn; [done|]. by rewrite IH. Qed.

Section Conversions.
Context {F : Type} `{JF : JoltField F} `{PF : !PrimeField F} `{RO : !RngOps F} `{B : Build}.
Context (T : RingType).
Abbreviation k := (K T).
Let Hk : 0 <= k := K_nonneg T.

Lemma mask_loop_index {V A} (P : Tri A -> V -> Prop) l vs : tri_forall P l vs ->
  protocol (tmap (mmap (fun _ => ring_xor_mask T)) l) (fun r => tri_forall (fun s _ => bsummands k s 0) r vs).
Proof. intros Hl. refine (tri_mmap vs P _ _ _ _ l _ Hl). intros a v _. exact (ring_xor_mask_spec T). Qed.

Section Pow2.
Hypothesis Hpow : power_of_two T = true.

Lemma a2b_many_index {V} (f : V -> Z) a vs : rvec T f a vs -> protocol (tmap (a2b_many T) a) (fun r => bvec k f r vs).
Proof.
  intros Ha. assert (Hc : tri_forall (fun s v => exists w : Z * Z * Z, let '(a0, a1, a2) := w in
    word k a0 /\ word k a1 /\ word k a2 /\ s = shares_of a0 a1 a2 /\ f v = rmod T (a0 + a1 + a2)) a vs).
  { apply (tri_and _ _ _ _ Ha). intros s v (a0 & a1 & a2 & H0 & H1 & H2 & -> & E). by exists (a0, a1, a2). }
  apply tri_choose in Hc as (ws & <- & Hc). clear Ha. eapply protocol_weaken with (Q := fun r => bvec k (fun w => f (fst w)) r ws); [|intros r; exact (proj2 (tri_unmap (fun s v => bshared k s (f v)) fst r ws))].
  eapply protocol_bind; [exact (mask_loop_index _ a ws Hc)|]. intros m0 m1 m2 Hm. apply protocol_id.
  eapply protocol_bind; [apply protocol_reshare_many|]. intros ? ? ? [= -> -> ->].
  assert (H01 : tri_forall (fun s w => bsummands k s (ring_add T (snd (fst (snd w))) (fst (fst (snd w)))))
    (mkTri m0 (map (fun t => ring_xor T (ring_add T (sa (fst t)) (sb (fst t))) (snd t)) (zip (t1 a) m1)) m2) ws).
  { refine (tri_middle _ _ _ (fun x r => ring_xor T (ring_add T (sa x) (sb x)) r) a (mkTri m0 m1 m2) ws _ Hc Hm).
    intros s [b0 b1 b2] [v [[a0 a1] a2]] (W0 & W1 & W2 & -> & E) Hb. cbn [t0 t1 t2 shares_of sa sb fst snd].
    destruct (ring_put T b0 b1 b2 (ring_add T a1 a0) Hb (ring_add_word T a1 a0 W1 W0)) as [(c0 & c1 & c2 & C0 & C1 & C2 & [= -> -> ->] & Ec) _]. by split_and!. }
  assert (H2 : bvec k (fun w => snd (snd w)) (mkTri (map (fun x => mkShare 0 (sb x)) (t0 a)) (map (fun _ => rzero_share) (t1 a)) (map (fun x => mkShare (sa x) 0) (t2 a))) ws).
  { refine (tri_ids _ _ (fun id x => match id with ID0 => mkShare 0 (sb x) | ID1 => rzero_share | ID2 => mkShare (sa x) 0 end) a ws _ Hc).
    intros s [v [[a0 a1] a2]] (W0 & W1 & W2 & -> & E). exists 0, 0, a2. split_and!; [by apply word_0|by apply word_0|done|done|by rewrite Z.lxor_0_l]. }
  eapply protocol_weaken; [exact (add_many_index ws T Hpow _ _ _ _ (tri_reshared ws T _ _ _ _ H01) H2)|]. intros r Hr.
  refine (tri_values _ _ _ _ Hr _). clear -Hc. induction Hc as [|? ? ? [v [[a0 a1] a2]] ? ? ? ? (W0 & W1 & W2 & _ & E)]; constructor; [|done].
  intros s. cbn [fst snd] in *. rewrite E. match goal with |- bshared _ _ ?u -> bshared _ _ ?w => replace w with u; [done|] end.
  change ((ring_add T a1 a0 + a2) mod 2 ^ k) with (rmod T (ring_add T a1 a0 + a2)). ring_mod.
Qed.

Lemma b2a_open_many_runs_ring z r0 r1 r2 : protocol
  (mkTri (b2a_open_many T (t0 z) r0) (b2a_open_many T (t1 z) r1) (b2a_open_many T (t2 z) r2))
  (fun r => r = mkTri
    (map (fun t => let '(res, rcv, z) := t in mkShare (ring_xor T (ring_xor T (sa z) (sb z)) rcv) (sb res)) (zip (zip r0 (map sb (t2 z))) (t0 z)))
    (map (fun t => let '(res, rcv, z) := t in mkShare (sa res) (ring_xor T (ring_xor T (sa z) (sb z)) rcv)) (zip (zip r1 (map sb (t0 z))) (t1 z))) r2).
Proof.
  destruct z as [z0 z1 z2]. intros c Hc. eexists _, c. split; [|split; [done|reflexivity]].
  pose proof (sy_id0 _ Hc) as I0. pose proof (sy_id1 _ Hc) as I1. pose proof (sy_id2 _ Hc) as I2. clear Hc.
  destruct c as [[i0 q0 s0 e0] [i1 q1 s1 e1] [i2 q2 s2 e2]]. cbn in I0, I1, I2. subst.
  unfold exec, b2a_open_many, mbind, get_id, network. exists [ID0; ID2; ID0; ID1].
  do 4 (cbn -[serialize deserialize ring_xor]; rewrite ?deserialize_serialize). done.
Qed.

(** The opened sums beside the negated keys. *)
Lemma b2a_assemble {W} (g : W -> Z) (key : W -> Z * Z) z r ws :
  bvec k (fun w => (g w + ring_add T (fst (key w)) (snd (key w))) mod 2 ^ k) z ws -> Forall (fun w => word k (g w)) ws ->
  tri_forall (fun s w => rb2a_key T s (key w)) r ws ->
  rvec T g (mkTri
    (map (fun t => let '(res, rcv, z) := t in mkShare (ring_xor T (ring_xor T (sa z) (sb z)) rcv) (sb res)) (zip (zip (map fst (t0 r)) (map sb (t2 z))) (t0 z)))
    (map (fun t => let '(res, rcv, z) := t in mkShare (sa res) (ring_xor T (ring_xor T (sa z) (sb z)) rcv)) (zip (zip (map fst (t1 r)) (map sb (t0 z))) (t1 z)))
    (map fst (t2 r))) ws.
Proof.
  intros Hz. revert r. induction Hz as [|? ? ? w z0 z1 z2 ws (v0 & v1 & v2 & W0 & W1 & W2 & [= -> -> ->] & Ev) Hz IH]; intros r Hg Hr;
    inversion Hr as [|? ? ? ? r0 r1 r2 ? (K2 & K3 & [= -> -> ->]) Hr']; subst; [constructor|].
  apply Forall_cons in Hg as [Hg Hgs]. cbn [t0 t1 t2 map zip_with fst sa sb]. constructor; [|exact (IH _ Hgs Hr')].
  rewrite !ring_xor_word by (rewrite ?ring_xor_word; auto using bword_lxor).
  replace (Z.lxor (Z.lxor v0 v2) v1) with (Z.lxor (Z.lxor v0 v1) v2) by bits.
  replace (Z.lxor (Z.lxor v1 v0) v2) with (Z.lxor (Z.lxor v0 v1) v2) by bits. rewrite Ev.
  apply (rshared_eqm T _ (ring_neg T (fst (key w))) (ring_neg T (snd (key w)))); [by apply word_mod|auto with ring_words..|].
  rewrite eqm_mod, !ring_neg_eqm, ring_add_eqm. apply eqm_eq. ring.
Qed.

Lemma b2a_many_index {V} (f : V -> Z) a vs : bvec k f a vs -> protocol (tmap (b2a_many T) a) (fun r => rvec T f r vs).
Proof.
  intros Ha. eapply protocol_bind; [exact (mask_loop_index _ a vs Ha)|]. intros m0 m1 m2 Hm.
  eapply protocol_bind; [refine (tri_mmap vs _ (fun s _ => exists v, rb2a_key T s v) _ _ _ a _ Ha); intros s v _; exact (ring_b2a_keys_spec T)|].
  intros k0 k1 k2 Hkeys. apply (tri_choose (fun s (_ : V) v => rb2a_key T s v)) in Hkeys as (ws & <- & Hkeys).
  apply (proj1 (tri_unmap (fun s _ => bsummands k s 0) fst _ ws)) in Hm. apply (proj1 (tri_unmap (fun s v => bshared k s (f v)) fst _ ws)) in Ha.
  eapply protocol_weaken with (Q := fun r => rvec T (fun w => f (fst w)) r ws); [|intros r; exact (proj2 (tri_unmap (fun s v => rshared T s (f v)) fst r ws))].
  eapply protocol_bind; [apply protocol_reshare_many|]. intros ? ? ? [= -> -> ->].
  assert (Hy : tri_forall (fun s w => bsummands k s (ring_add T (fst (snd w)) (snd (snd w))))
    (tmap2 (fun l l' => map (fun t => b2a_masked T (fst t) (snd (snd t))) (zip l l')) (mkTri m0 m1 m2) (mkTri k0 k1 k2)) ws).
  { refine (tri_map2 _ _ _ (fun m kk => b2a_masked T m (snd kk)) _ _ ws _ Hm Hkeys). intros [b0 b1 b2] s [v [u2 u3]] Hb (W2 & W3 & ->).
    unfold tmap2. cbn [t0 t1 t2 fst snd b2a_masked] in *.
    destruct (ring_put T b0 b1 b2 (ring_add T u2 u3) Hb (ring_add_word T u2 u3 W2 W3)) as [_ (c0 & c1 & c2 & C0 & C1 & C2 & [= -> -> ->] & Ec)]. by split_and!. }
  eapply protocol_bind; [exact (add_many_index ws T Hpow _ _ a _ Ha (tri_reshared ws T _ _ _ _ Hy))|]. intros z0 z1 z2 Hz.
  eapply protocol_weaken; [exact (b2a_open_many_runs_ring (mkTri z0 z1 z2) _ _ _)|]. intros r ->.
  refine (b2a_assemble (fun w => f (fst w)) snd (mkTri z0 z1 z2) (mkTri k0 k1 k2) ws Hz _ Hkeys).
  exact (bvec_words ws T _ _ Ha).
Qed.

Lemma eq_many_index {V} (f g : V -> Z) a b vs : rvec T f a vs -> rvec T g b vs ->
  protocol (tmap2 (eq_many T) a b) (fun r => bvec 1 (fun v => Z.b2z (f v =? g v)) r vs).
Proof.
  intros Ha Hb. eapply protocol_bind.
  - refine (a2b_many_index (fun v => rmod T (f v - g v)) _ vs (tri_map2 _ _ _ (rs_sub T) _ _ vs _ Ha Hb)). intros. by apply rshared_sub.
  - intros r0 r1 r2 Hr. eapply protocol_weaken; [exact (bis_zero_many_index vs T Hpow _ _ Hr)|]. intros r Hr'.
    refine (tri_values _ _ _ _ Hr' _). clear -Ha Hb. revert b Hb. induction Ha as [|? ? ? ? ? ? ? ? Hp ? IH]; intros b Hb;
      inversion Hb as [|? ? ? ? ? ? ? ? Hp' Hb']; subst; constructor; [|exact (IH _ Hb')].
    intros s. by rewrite (rsub_zero T) by (eauto using rshared_word).
Qed.
End Pow2.

(** ** Bits *)

(** The three summands of every bit. *)
Lemma bits_choose {V} (f : V -> Z) a vs : bvec 1 f a vs -> exists ws : list (V * (Z * Z * Z)), map fst ws = vs /\
  tri_forall (fun s w => let '(a0, a1, a2) := snd w in word 1 a0 /\ word 1 a1 /\ word 1 a2 /\ s = shares_of a0 a1 a2 /\ f (fst w) = Z.lxor (Z.lxor a0 a1) a2) a ws.
Proof.
  intros Ha. apply (tri_choose (fun s v w => let '(a0, a1, a2) := w in word 1 a0 /\ word 1 a1 /\ word 1 a2 /\ s = shares_of a0 a1 a2 /\ f v = Z.lxor (Z.lxor a0 a1) a2)).
  apply (tri_and _ _ _ _ Ha). intros s v (a0 & a1 & a2 & H0 & H1 & H2 & -> & E). by exists (a0, a1, a2).
Qed.

Lemma ring_xor_index {V} (f g : V -> Z) a b vs : rvec T f a vs -> rvec T g b vs -> Forall (fun v => word 1 (f v) /\ word 1 (g v)) vs ->
  protocol (tmap2 (arithmetic_xor_many T) a b) (fun r => rvec T (fun v => Z.lxor (f v) (g v)) r vs).
Proof.
  intros Ha Hb W. eapply protocol_weaken.
  - exact (ring_arithmetic_xor_many_spec T a b (map f vs) (map g vs) (proj2 (tri_unmap _ _ _ _) Ha) (proj2 (tri_unmap _ _ _ _) Hb) ltac:(by rewrite !length_map)).
  - intros r. rewrite zip_with_map_same. intros Hr. apply (proj1 (tri_unmap (rshared T) _ r vs)) in Hr. refine (tri_values _ _ _ _ Hr _). apply (Forall_impl _ _ _ W).
    intros v [Wf Wg] s. by rewrite rmod_xor.
Qed.

Lemma inject_many_index {V} (f : V -> Z) a vs : bvec 1 f a vs -> protocol (tmap (inject_many T) a) (fun r => rvec T f r vs).
Proof.
  intros Ha. apply bits_choose in Ha as (ws & <- & Hc).
  eapply protocol_weaken with (Q := fun r => rvec T (fun w => f (fst w)) r ws); [|intros r; exact (proj2 (tri_unmap (fun s v => rshared T s (f v)) fst r ws))].
  apply protocol_id. assert (W : forall v, word 1 v -> word k v) by (intros v Hv; destruct (bit_cases v Hv) as [-> | ->]; auto using word_0_K, word_1_K).
  assert (H : rvec T (fun w => fst (fst (snd w))) (mkTri (map (fun x => fst (fst (rsplit_bit ID0 x))) (t0 a)) (map (fun x => fst (fst (rsplit_bit ID1 x))) (t1 a)) (map (fun x => fst (fst (rsplit_bit ID2 x))) (t2 a))) ws /\
    rvec T (fun w => snd (fst (snd w))) (mkTri (map (fun x => snd (fst (rsplit_bit ID0 x))) (t0 a)) (map (fun x => snd (fst (rsplit_bit ID1 x))) (t1 a)) (map (fun x => snd (fst (rsplit_bit ID2 x))) (t2 a))) ws /\
    rvec T (fun w => snd (snd w)) (mkTri (map (fun x => snd (rsplit_bit ID0 x)) (t0 a)) (map (fun x => snd (rsplit_bit ID1 x)) (t1 a)) (map (fun x => snd (rsplit_bit ID2 x)) (t2 a))) ws).
  { split_and!; [refine (tri_ids _ _ (fun id x => fst (fst (rsplit_bit id x))) a ws _ Hc)|refine (tri_ids _ _ (fun id x => snd (fst (rsplit_bit id x))) a ws _ Hc)|
      refine (tri_ids _ _ (fun id x => snd (rsplit_bit id x)) a ws _ Hc)]; intros s [v [[a0 a1] a2]] (W0 & W1 & W2 & -> & E);
      destruct (rsplit_bit_shared T a0 a1 a2 (W _ W0) (W _ W1) (W _ W2)) as (B0 & B1 & B2); done. }
  destruct H as (H0 & H1 & H2).
  assert (Hw : Forall (fun w : V * (Z * Z * Z) => let '(a0, a1, a2) := snd w in word 1 a0 /\ word 1 a1 /\ word 1 a2 /\ f (fst w) = Z.lxor (Z.lxor a0 a1) a2) ws).
  { clear -Hc. induction Hc as [|? ? ? [v [[a0 a1] a2]] ? ? ? ? (W0 & W1 & W2 & _ & E)]; constructor; done. }
  eapply protocol_bind.
  - refine (ring_xor_index _ _ _ _ ws H0 H1 _). apply (Forall_impl _ _ _ Hw). intros [v [[a0 a1] a2]] (W0 & W1 & W2 & E). done.
  - intros d0 d1 d2 Hd. eapply protocol_weaken.
    + refine (ring_xor_index _ _ (mkTri d0 d1 d2) _ ws Hd H2 _). apply (Forall_impl _ _ _ Hw). intros [v [[a0 a1] a2]] (W0 & W1 & W2 & E).
      split; [by apply bword_lxor|done].
    + intros r Hr. refine (tri_values _ _ _ _ Hr _). apply (Forall_impl _ _ _ Hw). intros [v [[a0 a1] a2]] (W0 & W1 & W2 & E) s. cbn [fst snd] in *. by rewrite E.
Qed.
Lemma bit_inject_many_index {V} (f : V -> Z) a vs : bvec 1 f a vs -> protocol (tmap (bit_inject_many T) a) (fun r => rvec T f r vs).
Proof.
  intros Ha. assert (H : forallb (fun x => ring_bits T (sa x) <=? 1) (t0 a) = true /\ forallb (fun x => ring_bits T (sa x) <=? 1) (t1 a) = true /\
    forallb (fun x => ring_bits T (sa x) <=? 1) (t2 a) = true).
  { clear -Ha. induction Ha as [|? ? ? ? ? ? ? ? (a0 & a1 & a2 & H0 & H1 & H2 & [= -> -> ->] & _) ? (IH0 & IH1 & IH2)]; [done|].
    cbn in *. by rewrite !ring_bits_bit, IH0, IH1, IH2. }
  destruct H as (E0 & E1 & E2). apply protocol_massert; [done..|]. exact (inject_many_index f a vs Ha).
Qed.
End Conversions.

(** ** Casts *)

Section Casts.
Context {F : Type} `{JF : JoltField F} `{PF : !PrimeField F} `{RO : !RngOps F} `{B : Build}.
Abbreviation n := (@MODULUS_BIT_SIZE F JF PF).
Abbreviation p := (@MODULUS F JF PF).
Add Ring F_ring_casts : F_ring.

Lemma upcast_many_index {V} (T U : RingType) (f : V -> Z) a vs : T <> Bit -> K T < K U -> power_of_two U = true -> bvec (K T) f a vs ->
  protocol (tmap (upcast_many_from_binary T U) a) (fun r => rvec U f r vs).
Proof.
  intros HB Hlt HU Ha. assert (E : forall l, upcast_many_from_binary T U l =
    (massert (K T <? K U) ;~ b2a_many U (map (fun s => mkShare (as_ T U (sa s)) (as_ T U (sb s))) l))) by (intros; by destruct T).
  unfold tmap. rewrite !E. apply protocol_massert; [by apply Z.ltb_lt..|].
  refine (b2a_many_index U HU f (tmap (map (fun s => mkShare (as_ T U (sa s)) (as_ T U (sb s)))) a) vs (tri_map1 _ _ _ _ _ _ Ha)).
  intros s v Hs. apply upcast_bits_shared; [done|lia].
Qed.

Lemma field_bits_index (a : Tri (list RingShare)) xs : bshared_vec 1 a xs ->
  protocol (tmap bit_inject_from_bits_to_field_many a) (fun r => shared_vec r (map of_Z xs : list F)).
Proof.
  intros Ha. pose proof (bit_inject_many_spec (F := F) a xs Ha) as H. unfold tmap, Rep3Binary.bit_inject_many in H.
  assert (Hs : forallb (fun x => biguint_bits (sa x) <=? 1) (t0 a) = true /\ forallb (fun x => biguint_bits (sa x) <=? 1) (t1 a) = true /\
    forallb (fun x => biguint_bits (sa x) <=? 1) (t2 a) = true).
  { clear -Ha. induction Ha as [|a0 a1 a2 x l0 l1 l2 xs Hp Ha (IH0 & IH1 & IH2)]; [done|].
    destruct (size_ok 1 1 _ _ ltac:(lia) Hp) as (H0 & H1 & H2). cbn in *. by rewrite H0, H1, H2, IH0, IH1, IH2. }
  destruct Hs as (E0 & E1 & E2). unfold BinaryShare, RingShare in *. rewrite E0, E1, E2 in H. exact H.
Qed.

Section FromRing.
Context (T : RingType).
Hypothesis Hpow : power_of_two T = true.
Hypothesis Hp : 2 ^ K T <= p.

Lemma r2f_b2a_many_spec a xs : bshared_vec (K T) a xs -> protocol (tmap (r2f_b2a_many T) a) (fun r => shared_vec r (map of_Z xs : list F)).
Proof.
  intros Ha. pose proof (tri_forall_words (K T) _ _ (K_nonneg T) Ha) as Hx. pose proof (ring_fits T Hp) as Hn.
  destruct (decide (T = Bit)) as [HB|HB].
  - unfold r2f_b2a_many. rewrite HB in *. exact (bit_inject_many_spec a xs Ha).
  - assert (E : forall l, r2f_b2a_many T l = Rep3Binary.b2a_many l) by (by destruct T). unfold tmap. rewrite !E.
    apply (b2a_many_spec a xs); [by apply (bshared_vec_weaken (K T))|]. apply (Forall_impl _ _ _ Hx). unfold word. intros; lia.
Qed.
Lemma r2f_many_spec a xs : rshared_vec T a xs -> protocol (tmap (r2f_many T) a) (fun r => shared_vec r (map of_Z xs : list F)).
Proof.
  intros Ha. destruct (decide (T = Bit)) as [HB|HB].
  - unfold r2f_many. rewrite HB in *. apply (bit_inject_many_spec a xs). apply (tri_and _ _ _ _ Ha). intros s v. apply rshared_bit.
  - assert (E : forall l, r2f_many T l = (binary <~ a2b_many T l ;; Rep3Binary.b2a_many binary)) by (by destruct T). unfold tmap. rewrite !E.
    eapply protocol_bind; [exact (a2b_many_index T Hpow (fun x => x) a xs Ha)|]. intros r0 r1 r2 Hr.
    pose proof (r2f_b2a_many_spec (mkTri r0 r1 r2) xs Hr) as H. unfold r2f_b2a_many in H. by destruct T.
Qed.

(** The sign bit 1 keeps the absolute value, 0 negates it. *)
Lemma signed_many_spec a (vs : list (Z * bool)) :
  tri_forall (fun s v => bshared (K T) (tmap sh_abs s) (fst v) /\ bshared 1 (tmap sh_sign s) (Z.b2z (snd v))) a vs ->
  protocol (tmap (signed_binary_ring_to_field_many T) a)
    (fun r => shared_vec r (map (fun v : Z * bool => if snd v then of_Z (fst v) else fopp (of_Z (fst v))) vs : list F)).
Proof.
  intros Ha. eapply protocol_bind.
  - exact (r2f_b2a_many_spec (tmap (map sh_abs) a) (map fst vs) (proj2 (tri_unmap _ _ _ _) (tri_map1 _ _ _ _ _ (fun s v H => proj1 H) Ha))).
  - intros q0 q1 q2 Hq. eapply protocol_bind.
    + exact (field_bits_index (tmap (map sh_sign) a) (map (fun v => Z.b2z (snd v)) vs) (proj2 (tri_unmap _ _ _ _) (tri_map1 _ _ _ _ _ (fun s v H => proj2 H) Ha))).
    + intros g0 g1 g2 Hg. pose proof (tri_forall_map1 _ _ Rep3Arith.neg fopp _ _ (fun s v H => shared_neg s v H) Hq) as Hn.
      eapply protocol_weaken; [refine (cmux_many_spec (mkTri g0 g1 g2) (mkTri q0 q1 q2) _ _ _ _ Hg Hq Hn _ _); by rewrite !length_map|].
      intros r Hr. cbv beta in Hr. match type of Hr with shared_vec _ ?u => replace (map _ vs) with u; [done|] end.
      clear. induction vs as [|[x b] vs IH]; [done|]. cbn. rewrite IH. f_equal. destruct b; cbn; rewrite ?of_Z_0, ?of_Z_1; ring.
Qed.
End FromRing.
End Casts.
