(* ===== verification/Rep3RingTheorems.v ===== *)
(** * What the ring protocols promise

    Adders, conversions, comparisons and casts of [protocols/rep3_ring], for every
    schedule of the three parties and every randomness. *)

From Stdlib Require Import ZArith Lia List Bool.
From stdpp Require Import base list.
From S2P Require Import Prelude Words Field Carry Ring2k RingCarry MpcNet Rep3Ctx Rep3Rules Rep3Share Rep3Arith Rep3Correct Rep3Sample Rep3Binary Rep3BinCorrect Rep3BinMany.
From S2P Require Import Rep3Ring Rep3RingCorrect Rep3RingBin Rep3RingConv Rep3RingMany Rep3RingConvMany.
Import ListNotations.
Local Open Scope Z_scope.
Local Open Scope mpc_scope.

Section Theorems.
Context {F : Type} `{JF : JoltField F} `{PF : !PrimeField F} `{RO : !RngOps F} `{B : Build}.
Abbreviation p := (@MODULUS F JF PF).

(** A shared bit that holds a condition; shared bits of a vector of conditions. *)
Definition holds (s : Tri RingShare) (b : bool) : Prop := bshared 1 s (Z.b2z b).
Definition holds_each (s : Tri (list RingShare)) (bs : list bool) : Prop := tri_forall holds s bs.

(** A width that is no power of two stops the adder in a build with debug
    assertions: [detail.rs] asserts it. *)
Lemma adder_crashes T a b x y c : synced c -> power_of_two T = false -> debug_assertions = true ->
  bshared (K T) a x -> bshared (K T) b y -> crashes_at c (tmap2 (low_depth_binary_add T) a b) ID0.
Proof.
  intros Hc Hp Hd Ha Hb. unfold tmap2, low_depth_binary_add. eapply crashes_bind; [exact (ring_and_spec T a b x y Ha Hb c Hc)|].
  intros g0 g1 g2 c1 _ Hc1. apply crashes_left, crashes_left. unfold crashes_at. eexists [], _. split; [reflexivity|].
  unfold exec, mdebug_assert. cbn [t0 start procs tget]. by rewrite Hd, Hp.
Qed.



(** Shared bits over an index as a list of conditions. *)
Lemma bvec_holds {V} (c : V -> bool) r vs : bvec 1 (fun v => Z.b2z (c v)) r vs -> holds_each r (map c vs).
Proof. intros H. apply tri_unmap. exact H. Qed.
Lemma bvec_holds_not {V} (c : V -> bool) r vs : bvec 1 (fun v => Z.b2z (c v)) r vs -> holds_each (tmap (map (rs_not Bit)) r) (map (fun v => negb (c v)) vs).
Proof. intros H. apply tri_unmap. refine (tri_map1 _ _ _ _ _ _ H). intros. by apply not_bit_shared. Qed.

(** ** Theorems *)

(** C19: in every ring of the library the products, selections and openings of
    shared elements compute modulo [2 ^ K], alone and batched, and a product may
    be opened at once; [pow_public], whose last multiplication comes after the
    last squaring, gives the power [e + 2 ^ n] for an exponent [e] of [n] bits. *)
Theorem ring_arithmetic_correct T a b c x y z e l m xs ys : rshared T a x -> rshared T b y -> rshared T c z -> word (K T) e ->
  rshared_vec T l xs -> rshared_vec T m ys -> length xs = length ys ->
  delivers (tmap2 (mul T) a b) (fun r => rshared T r ((x * y) mod 2 ^ K T)) /\
  delivers (mkTri (cmux T (t0 c) (t0 a) (t0 b)) (cmux T (t1 c) (t1 a) (t1 b)) (cmux T (t2 c) (t2 a) (t2 b)))
    (fun r => rshared T r ((y + z * (x - y)) mod 2 ^ K T)) /\
  delivers (tmap2 (mul_open T) a b) (fun r => revealed r ((x * y) mod 2 ^ K T)) /\
  delivers (tmap2 (mul_vec T) l m) (fun r => rshared_vec T r (zip_with (fun x y => (x * y) mod 2 ^ K T) xs ys)) /\
  delivers (tmap (open_vec T) l) (fun r => revealed r xs) /\
  delivers (tmap (fun s => pow_public T s e) a) (fun r => rshared T r (x ^ (e + 2 ^ Z.of_nat (bit_length e)) mod 2 ^ K T)).
Proof.
  intros Ha Hb Hc He Hl Hm El. split_and!; apply protocol_delivers.
  - by apply ring_mul_spec.
  - by apply ring_cmux_spec.
  - by apply ring_mul_open_spec.
  - by apply ring_mul_vec_spec.
  - by apply ring_open_vec_spec.
  - eapply protocol_weaken; [exact (ring_pow_public_result T a x e He Ha)|]. intros r. rewrite rpow_pow, Nat2Z.inj_add, Z2Nat.id by (by eapply word_nonneg).
    by rewrite Nat2Z.inj_pow.
Qed.

(** C16: on shares of the bits of two ring elements the Kogge-Stone adder of
    [rep3_ring/detail.rs] adds modulo [2 ^ K], and the subtractor gives the
    difference and the bit that tells that it did not wrap, for every ring whose
    width is a power of two and every schedule; for the others ([U34], [U66]) the
    adder has no run to the end in a build with debug assertions. *)
Theorem ring_adders_correct T a b x y c : synced c -> bshared (K T) a x -> bshared (K T) b y ->
  (power_of_two T = true ->
     delivers (tmap2 (low_depth_binary_add T) a b) (fun r => bshared (K T) r ((x + y) mod 2 ^ K T)) /\
     delivers (tmap2 (low_depth_binary_sub_with_carry T) a b)
       (fun r => bshared (K T) (tmap fst r) ((x - y) mod 2 ^ K T) /\ holds (tmap snd r) (y <=? x)) /\
     delivers (tmap (fun a => low_depth_binary_sub_by_const_with_carry T a y) a)
       (fun r => bshared (K T) (tmap fst r) ((x - y) mod 2 ^ K T) /\ holds (tmap snd r) (y <=? x)) /\
     delivers (tmap (low_depth_binary_sub_from_const_with_carry T x) b)
       (fun r => bshared (K T) (tmap fst r) ((x - y) mod 2 ^ K T) /\ holds (tmap snd r) (y <=? x))) /\
  (power_of_two T = false -> debug_assertions = true -> forall r, ~ runs (exec (tmap2 (low_depth_binary_add T) a b) c) r).
Proof.
  intros Hc Ha Hb. pose proof (bshared_word _ (K_nonneg T) _ _ Ha) as Hx. pose proof (bshared_word _ (K_nonneg T) _ _ Hb) as Hy. split.
  - intros Hp. split_and!; apply protocol_delivers.
    + by apply ring_add_protocol.
    + by apply ring_sub_carry_spec.
    + by apply ring_sub_by_const_spec.
    + by apply ring_sub_from_const_spec.
  - intros Hp Hd r. exact (crashes_no_result c _ ID0 r (adder_crashes T a b x y c Hc Hp Hd Ha Hb)).
Qed.

(** C12: in a ring whose width is a power of two, [a2b] shares the bits of the
    element and [b2a] the element of the bits, alone and batched, so that one
    after the other gives shares of the same elements; [bit_inject] shares a bit
    as an element; and opening what was shared gives the element to every party. *)
Theorem ring_conversions_round_trip T a x l xs c b u v w : power_of_two T = true ->
  rshared T a x -> rshared_vec T l xs -> bshared 1 c b -> word (K T) u -> word (K T) v -> word (K T) w ->
  delivers (tmap (a2b T) a) (fun r => bshared (K T) r x) /\
  delivers (tmap (fun a => bits <~ a2b T a ;; b2a T bits) a) (fun r => rshared T r x) /\
  delivers (tmap (fun l => bits <~ a2b_many T l ;; b2a_many T bits) l) (fun r => rshared_vec T r xs) /\
  delivers (tmap (bit_inject T) c) (fun r => rshared T r b) /\
  delivers (tmap (fun s => bits <~ a2b T s ;; y <~ b2a T bits ;; open T y) (share_ring_element T u v w)) (fun r => revealed r u).
Proof.
  intros Hp Ha Hl Hc Hu Hv Hw.
  assert (Hab : forall s z, rshared T s z -> protocol (tmap (fun a => bits <~ a2b T a ;; b2a T bits) s) (fun r => rshared T r z)).
  { intros s z Hs. eapply protocol_bind; [exact (ring_a2b_spec T Hp s z Hs)|]. intros r0 r1 r2 Hr. exact (ring_b2a_spec T Hp (mkTri r0 r1 r2) z Hr). }
  split_and!; apply protocol_delivers.
  - by apply ring_a2b_spec.
  - by apply Hab.
  - eapply protocol_bind; [exact (a2b_many_index T Hp (fun x => x) l xs Hl)|]. intros r0 r1 r2 Hr. exact (b2a_many_index T Hp (fun x => x) (mkTri r0 r1 r2) xs Hr).
  - by apply ring_bit_inject_spec.
  - pose proof (share_ring_element_shared T u v w Hu Hv Hw) as Hs.
    eapply protocol_bind; [exact (ring_a2b_spec T Hp _ _ Hs)|]. intros r0 r1 r2 Hr.
    eapply protocol_bind; [exact (ring_b2a_spec T Hp (mkTri r0 r1 r2) _ Hr)|]. intros q0 q1 q2 Hq. exact (ring_open_spec T (mkTri q0 q1 q2) u Hq).
Qed.

(** C13: the comparisons of shared ring elements, and of a shared with a public
    one, share the bit of the comparison of the unsigned integers, for every
    schedule and also for the constant 0; [is_zero] reveals the test. *)
Theorem ring_comparisons_correct T a b x y : power_of_two T = true -> rshared T a x -> rshared T b y ->
  delivers (tmap2 (ge T) a b) (fun r => holds r (y <=? x)) /\
  delivers (tmap2 (lt T) a b) (fun r => holds r (x <? y)) /\
  delivers (tmap2 (le T) a b) (fun r => holds r (x <=? y)) /\
  delivers (tmap2 (gt T) a b) (fun r => holds r (y <? x)) /\
  delivers (tmap (fun a => ge_public T a y) a) (fun r => holds r (y <=? x)) /\
  delivers (tmap (fun a => lt_public T a y) a) (fun r => holds r (x <? y)) /\
  delivers (tmap (fun a => le_public T a y) a) (fun r => holds r (x <=? y)) /\
  delivers (tmap (fun a => gt_public T a y) a) (fun r => holds r (y <? x)) /\
  delivers (tmap2 (Rep3Ring.eq T) a b) (fun r => holds r (x =? y)) /\
  delivers (tmap2 (neq T) a b) (fun r => holds r (negb (x =? y))) /\
  delivers (tmap (fun a => eq_public T a y) a) (fun r => holds r (x =? y)) /\
  delivers (tmap (is_zero T) a) (fun r => revealed r (x =? 0)).
Proof.
  intros Hp Ha Hb. pose proof (rshared_word T _ _ Hb) as Hy. split_and!; apply protocol_delivers.
  - by apply ring_unsigned_ge_spec.
  - by apply ring_lt_spec.
  - exact (ring_unsigned_ge_spec T Hp b a y x Hb Ha).
  - by apply ring_gt_spec.
  - by apply ring_ge_const_rhs_spec.
  - by apply ring_lt_public_spec.
  - exact (ring_ge_const_lhs_spec T Hp y a x Hy Ha).
  - by apply ring_gt_public_spec.
  - by apply ring_eq_spec.
  - by apply ring_neq_spec.
  - by apply ring_eq_public_spec.
  - by apply ring_is_zero_spec.
Qed.

(** C18: the batched comparisons take shares of bits and compare elementwise,
    between vectors and with vectors of constants (zeros included); the batched
    equality takes shares of elements; [or_tree], which halves its inputs until
    one is left, ends with the disjunction of all of them. *)
Theorem ring_batched_correct T a b xs ys l m us vs i x0 zs : power_of_two T = true ->
  bshared_vec (K T) a xs -> bshared_vec (K T) b ys -> length xs = length ys ->
  rshared_vec T l us -> rshared_vec T m vs -> length us = length vs -> bshared_vec (K T) i (x0 :: zs) ->
  delivers (tmap2 (ge_many T) a b) (fun r => holds_each r (zip_with (fun x y => y <=? x) xs ys)) /\
  delivers (tmap2 (lt_many T) a b) (fun r => holds_each r (zip_with Z.ltb xs ys)) /\
  delivers (tmap (fun a => unsigned_ge_const_rhs_many T a ys) a) (fun r => holds_each r (zip_with (fun x y => y <=? x) xs ys)) /\
  delivers (tmap (unsigned_ge_const_lhs_many T xs) b) (fun r => holds_each r (zip_with (fun x y => y <=? x) xs ys)) /\
  delivers (tmap2 (eq_many T) l m) (fun r => holds_each r (zip_with Z.eqb us vs)) /\
  delivers (tmap2 (neq_many T) l m) (fun r => holds_each r (zip_with (fun u v => negb (u =? v)) us vs)) /\
  delivers (tmap (or_tree T) i) (fun r => bshared (K T) r (lor_all (x0 :: zs))).
Proof.
  intros Hp Ha Hb El Hl Hm El' Hi. destruct (tri_pair _ _ _ _ _ _ Ha Hb El) as [Ia Ib]. destruct (tri_pair _ _ _ _ _ _ Hl Hm El') as [Il Im].
  assert (Ex : map fst (zip xs ys) = xs) by (by apply fst_zip; lia). assert (Ey : map snd (zip xs ys) = ys) by (by apply snd_zip; lia).
  rewrite !(zip_with_pairs (fun x y => y <=? x)), (zip_with_pairs Z.ltb), (zip_with_pairs Z.eqb), (zip_with_pairs (fun u v => negb (u =? v))). split_and!; apply protocol_delivers.
  - eapply protocol_bind; [exact (sub_carry_many_index (zip xs ys) T Hp fst snd a b Ia Ib)|]. intros r0 r1 r2 [_ Hr]. apply protocol_ret'. exact (bvec_holds _ _ _ Hr).
  - eapply protocol_bind.
    + eapply protocol_bind; [exact (sub_carry_many_index (zip xs ys) T Hp fst snd a b Ia Ib)|]. intros r0 r1 r2 Hr.
      apply (protocol_ret' _ _ _ (fun r => bvec 1 (fun v => Z.b2z (snd v <=? fst v)) r (zip xs ys))). exact (proj2 Hr).
    + intros r0 r1 r2 Hr. apply protocol_ret'. pose proof (bvec_holds_not (fun v => snd v <=? fst v) _ _ Hr) as H.
      rewrite (List.map_ext (fun v => fst v <? snd v) (fun v => negb (snd v <=? fst v))); [exact H|]. intros v. apply Z.ltb_antisym.
  - eapply protocol_weaken; [exact (ge_const_rhs_many_index (zip xs ys) T Hp fst snd ys a Ey (bvec_words _ T _ _ Ib) Ia)|]. intros r. exact (bvec_holds _ r _).
  - eapply protocol_weaken; [exact (ge_const_lhs_many_index (zip xs ys) T Hp fst snd xs b Ex (bvec_words _ T _ _ Ia) Ib)|]. intros r. exact (bvec_holds _ r _).
  - eapply protocol_weaken; [exact (eq_many_index T Hp fst snd l m (zip us vs) Il Im)|]. intros r. exact (bvec_holds _ r _).
  - eapply protocol_bind; [exact (eq_many_index T Hp fst snd l m (zip us vs) Il Im)|]. intros r0 r1 r2 Hr. apply protocol_ret'.
    exact (bvec_holds_not (fun v => fst v =? snd v) _ _ Hr).
  - by apply or_tree_spec.
Qed.

End Theorems.

(** ** Concrete instances *)

#[local] Existing Instance test_rv64.

(** A sharing of [v] modulo [2 ^ K]. *)
Definition ring_sample (T : RingType) (v : Z) : Tri RingShare := share_ring_element T v 1 0.
Lemma ring_sample_spec T v : word (K T) v -> rshared T (ring_sample T v) v.
Proof. intros Hv. apply share_ring_element_shared; [done|apply word_1_K|apply word_0_K]. Qed.
Lemma byte_word v : 0 <= v < 256 -> word (K U8) v.
Proof. done. Qed.
(** A sharing of the bits of [v]. *)
Definition ring_bit_sample (v : Z) : Tri BinaryShare := shares_of (Z.lxor v 1) 1 0.
Lemma ring_bit_sample_spec w v : 0 < w -> 0 <= v < 2 ^ w -> bshared w (ring_bit_sample v) v.
Proof.
  intros Hw Hv. assert (word w 1) by (pose proof (Z.pow_gt_1 2 w); unfold word; lia). eexists _, _, _. split_and!; [..|reflexivity|bits].
  - by apply bword_lxor; [lia|..].
  - done.
  - apply word_0. lia.
Qed.

Lemma ring_arithmetic_correct_witness :
  delivers (F := F101) (tmap (fun s => pow_public U8 s 1) (ring_sample U8 3)) (fun r => rshared U8 r 27).
Proof.
  destruct (ring_arithmetic_correct (F := F101) U8 (ring_sample U8 3) (ring_sample U8 3) (ring_sample U8 3) 3 3 3 1 (mkTri [] [] []) (mkTri [] [] []) [] []
    (ring_sample_spec U8 3 (byte_word 3 ltac:(lia))) (ring_sample_spec U8 3 (byte_word 3 ltac:(lia))) (ring_sample_spec U8 3 (byte_word 3 ltac:(lia)))
    (byte_word 1 ltac:(lia)) (tri_nil _) (tri_nil _) eq_refl) as (_ & _ & _ & _ & _ & H).
  exact H.
Defined.

Lemma ring_adders_correct_witness :
  delivers (F := F101) (tmap2 (low_depth_binary_add U8) (ring_bit_sample 200) (ring_bit_sample 100)) (fun r => bshared 8 r 44) /\
  (forall r, ~ runs (exec (F := F101) (tmap2 (low_depth_binary_add U34) (ring_bit_sample 200) (ring_bit_sample 100)) sample_contexts) r).
Proof.
  split.
  - apply (ring_adders_correct (F := F101) U8 (ring_bit_sample 200) (ring_bit_sample 100) 200 100 sample_contexts sample_synced
      (ring_bit_sample_spec 8 200 ltac:(lia) ltac:(lia)) (ring_bit_sample_spec 8 100 ltac:(lia) ltac:(lia))). reflexivity.
  - apply (ring_adders_correct (F := F101) U34 (ring_bit_sample 200) (ring_bit_sample 100) 200 100 sample_contexts sample_synced
      (ring_bit_sample_spec 34 200 ltac:(lia) ltac:(lia)) (ring_bit_sample_spec 34 100 ltac:(lia) ltac:(lia))); reflexivity.
Defined.

Lemma ring_conversions_round_trip_witness :
  delivers (F := F101) (tmap (fun s => mbind (a2b U8 s) (fun bits => mbind (b2a U8 bits) (open U8))) (share_ring_element U8 200 77 13)) (fun r => revealed r 200).
Proof.
  apply (ring_conversions_round_trip (F := F101) U8 (ring_sample U8 5) 5 (mkTri [] [] []) [] (ring_bit_sample 1) 1 200 77 13 eq_refl
    (ring_sample_spec U8 5 (byte_word 5 ltac:(lia))) (tri_nil _) (ring_bit_sample_spec 1 1 ltac:(lia) ltac:(lia))); apply byte_word; lia.
Defined.

Lemma ring_comparisons_correct_witness :
  delivers (F := F101) (tmap2 (gt U8) (ring_sample U8 200) (ring_sample U8 199)) (fun r => holds r true).
Proof.
  destruct (ring_comparisons_correct (F := F101) U8 (ring_sample U8 200) (ring_sample U8 199) 200 199 eq_refl
    (ring_sample_spec U8 200 (byte_word 200 ltac:(lia))) (ring_sample_spec U8 199 (byte_word 199 ltac:(lia)))) as (_ & _ & _ & H & _).
  exact H.
Defined.

Definition single_bits (v : Z) : Tri (list BinaryShare) := mkTri [t0 (ring_bit_sample v)] [t1 (ring_bit_sample v)] [t2 (ring_bit_sample v)].
Lemma single_bits_spec w v : 0 <= v < 2 ^ w -> 0 < w -> bshared_vec w (single_bits v) [v].
Proof. intros. constructor; [by apply ring_bit_sample_spec|constructor]. Qed.

Lemma ring_batched_correct_witness :
  delivers (F := F101) (tmap (fun a => unsigned_ge_const_rhs_many U8 a [0]) (single_bits 3)) (fun r => holds_each r [true]).
Proof.
  destruct (ring_batched_correct (F := F101) U8 (single_bits 3) (single_bits 0) [3] [0] (mkTri [] [] []) (mkTri [] [] []) [] [] (single_bits 7) 7 [] eq_refl
    (single_bits_spec 8 3 ltac:(lia) ltac:(lia)) (single_bits_spec 8 0 ltac:(lia) ltac:(lia)) eq_refl (tri_nil _) (tri_nil _) eq_refl
    (single_bits_spec 8 7 ltac:(lia) ltac:(lia))) as (_ & _ & H & _).
  exact H.
Defined.

