(* ===== verification/Rep3Preproc.v ===== *)
(** * Conversions from preprocessed correlations

    [b2a_preproc_many], [bit_inject_field_preproc_many] of [rep3_ring/conversion.rs]
    and [r2f_preproc_many], [r2f_b2a_preproc_many(_into)] of [rep3_ring/casts.rs]:
    party 0 masks the bits with random bits that only it knows and broadcasts
    them, and shares of the random bits turn the masked bits into arithmetic
    shares; with the selectors between these and the online conversions. *)

From Stdlib Require Import ZArith Lia List Bool.
From stdpp Require Import base list.
From S2P Require Import Prelude Words Field Carry Ring2k RingCarry MpcNet Rep3Ctx Rep3Rules Rep3Share Rep3Arith Rep3Binary Rep3Ring.
Import ListNotations.
Local Open Scope Z_scope.
Local Open Scope mpc_scope.

Section Preproc.
Context {F : Type} `{JF : JoltField F} `{PF : !PrimeField F} `{RO : !RngOps F} `{B : Build}.

(** ** Correlations ([preprocessing/edabits.rs], [preprocessing/dabits.rs]) *)

(** [DaRing]: one integer shared in the ring and in the field *)
Record DaRing := mkDaRing { r_ring : RingShare; r_fp : Share F }.
(** [EdaBits]: the bits of [gamma], and a summand of each bit in the field *)
Record EdaBits := mkEdaBits { gamma : Z; alphas : list F }.
(** [EdaBitsBatch]: the summands of the [K] bits of element [i] start at [i * K] *)
Record EdaBitsBatch := mkEdaBatch { gammas : list Z; alphas_flat : list F }.
(** [EdaBitsRingBatch]: the summands are in the ring *)
Record EdaBitsRingBatch := mkEdaRingBatch { rb_gammas : list Z; rb_alphas_flat : list Z }.
(** [DaBitBatch] *)
Record DaBitBatch := mkDaBatch { da_gammas : list bool; da_thetas : list bool; v_shares : list (Share F) }.

(** ** Communication *)

(** Party 0 sends to parties 1 and 2, which receive. *)
Definition send_from0 {A} `{Wire Wired A} (data : list A) : MPC (list A) :=
  id <~ get_id ;;
  match id with
  | ID0 => network (fun _ => send_many ID1 data) ;~ network (fun _ => send_many ID2 data) ;~ mret data
  | _ => network (fun _ => recv_many ID0)
  end.

(** An index out of range panics. *)
Definition indexed {A} (o : option A) : MPC A := match o with Some a => mret a | None => crash end.

(** ** Binary shares to field shares ([casts.rs]) *)

(** [R2fB2aScratch] *)
Record R2fB2aScratch := mkScratch {
  sc_ms : list Z; sc_maskings : list F; sc_s_selfs : list F; sc_out : list (Share F); sc_pow2 : list F
}.
Definition scratch_default : R2fB2aScratch := mkScratch [] [] [] [] [].

(** [cur = cur + cur], [k] times *)
Fixpoint doublings (k : nat) (cur : F) : list F :=
  match k with O => [] | S k => cur :: doublings k (fadd cur cur) end.
Definition ensure_pow2 (T : RingType) (pow2 : list F) : list F :=
  if Nat.eqb (length pow2) (Z.to_nat (K T)) then pow2 else doublings (Z.to_nat (K T)) fone.

(** [for i in 0..k]: the summands with the signs of the masked bits *)
Definition v_component (T : RingType) (pow2 flat : list F) (alpha_base : nat) (beta : Z) : option F :=
  fold_left (fun v i =>
    match v, pow2 !! i, flat !! (alpha_base + i)%nat with
    | Some v, Some p, Some alpha =>
        let beta_bit := get_bit T beta (Z.of_nat i) =? 1 in
        let signed_alpha := if beta_bit then fopp alpha else alpha in
        Some (fadd v (fmul p signed_alpha))
    | _, _, _ => None
    end) (seq 0 (Z.to_nat (K T))) (Some fzero).

(** the summand of element [idx] *)
Definition s_self (T : RingType) (id : PartyID) (pow2 flat : list F) (ms : list Z) (x_binary : list RingShare) (maskings : list F)
    (idx : nat) : option F :=
  match maskings !! idx with
  | None => None
  | Some z =>
      match id with
      | ID0 => Some z
      | _ =>
          match x_binary !! idx, ms !! idx with
          | Some x, Some m =>
              let beta := ring_xor T m (match id with ID1 => sa x | _ => sb x end) in
              match v_component T pow2 flat (idx * Z.to_nat (K T)) beta with
              | Some v => Some (fadd (match id with ID1 => fadd v (of_Z beta) | _ => v end) z)
              | None => None
              end
          | _, _ => None
          end
      end
  end.

Definition r2f_b2a_preproc_many_into (T : RingType) (x_binary : list RingShare) (batch : EdaBitsBatch) (scratch : R2fB2aScratch) : MPC R2fB2aScratch :=
  let n := length x_binary in
  if Nat.eqb n 0 then mret (mkScratch (sc_ms scratch) (sc_maskings scratch) (sc_s_selfs scratch) [] (sc_pow2 scratch))
  else
    mdebug_assert (Nat.eqb (length (gammas batch)) n) ;~
    mdebug_assert (Nat.eqb (length (alphas_flat batch)) (n * Z.to_nat (K T))) ;~
    let pow2 := ensure_pow2 T (sc_pow2 scratch) in
    ms <~ send_from0 (map (fun t => ring_xor T (ring_xor T (sa (fst t)) (sb (fst t))) (snd t)) (zip x_binary (gammas batch))) ;;
    maskings <~ mmap (fun _ => with_rand masking_field_element) (seq 0 n) ;;
    party_id <~ get_id ;;
    s_selfs <~ indexed (all_some (map (s_self T party_id pow2 (alphas_flat batch) ms x_binary maskings) (seq 0 n))) ;;
    s_prevs <~ network (fun id => reshare_many id s_selfs) ;;
    mret (mkScratch ms maskings s_selfs (map (fun t => mkShare (fst t) (snd t)) (zip s_selfs s_prevs)) pow2).

Definition r2f_b2a_preproc_many (T : RingType) (x_binary : list RingShare) (batch : EdaBitsBatch) : MPC (list (Share F)) :=
  scratch <~ r2f_b2a_preproc_many_into T x_binary batch scratch_default ;; mret (sc_out scratch).
(** [out.remove(0)] panics on an empty vector. *)
Definition r2f_b2a_preproc (T : RingType) (x_binary : RingShare) (eda : EdaBits) : MPC (Share F) :=
  out <~ r2f_b2a_preproc_many T [x_binary] (mkEdaBatch [gamma eda] (alphas eda)) ;; indexed (head out).

(** ** Ring shares to field shares by a masked opening ([casts.rs]) *)

Definition r2f_preproc_many (T : RingType) (x : list RingShare) (eda : list DaRing) : MPC (list (Share F)) :=
  mdebug_assert (Nat.eqb (length x) (length eda)) ;~
  let masked := map (fun t => rs_sub T (fst t) (r_ring (snd t))) (zip x eda) in
  opened <~ Rep3Ring.open_vec T masked ;;
  id <~ get_id ;;
  mret (map (fun t => share_add (r_fp (snd t)) (Rep3Arith.promote_to_trivial_share id (of_Z (fst t)))) (zip opened eda)).

(** ** Binary shares to ring shares ([conversion.rs]) *)

Fixpoint ring_doublings (T : RingType) (k : nat) (cur : Z) : list Z :=
  match k with O => [] | S k => cur :: ring_doublings T k (ring_add T cur cur) end.
Definition ring_v_component (T : RingType) (pow2 flat : list Z) (alpha_base : nat) (beta : Z) : option Z :=
  fold_left (fun v i =>
    match v, pow2 !! i, flat !! (alpha_base + i)%nat with
    | Some v, Some p, Some alpha =>
        let beta_bit := get_bit T beta (Z.of_nat i) =? 1 in
        let signed_alpha := if beta_bit then ring_neg T alpha else alpha in
        Some (ring_add T v (ring_mul T p signed_alpha))
    | _, _, _ => None
    end) (seq 0 (Z.to_nat (K T))) (Some 0).
Definition ring_s_self (T : RingType) (id : PartyID) (pow2 flat : list Z) (t : nat * (Z * RingShare * Z)) : option Z :=
  let '(idx, (m, x, z)) := t in
  match id with
  | ID0 => Some z
  | _ =>
      let beta := ring_xor T m (match id with ID1 => sa x | _ => sb x end) in
      match ring_v_component T pow2 flat (idx * Z.to_nat (K T)) beta with
      | Some v => Some (ring_add T (match id with ID1 => ring_add T v beta | _ => v end) z)
      | None => None
      end
  end.
Definition b2a_preproc_many (T : RingType) (x_binary : list RingShare) (batch : EdaBitsRingBatch) : MPC (list RingShare) :=
  let n := length x_binary in
  if Nat.eqb n 0 then mret []
  else
    mdebug_assert (Nat.eqb (length (rb_gammas batch)) n) ;~
    mdebug_assert (Nat.eqb (length (rb_alphas_flat batch)) (n * Z.to_nat (K T))) ;~
    let pow2 := ring_doublings T (Z.to_nat (K T)) 1 in
    ms <~ send_from0 (map (fun t => ring_xor T (ring_xor T (sa (fst t)) (sb (fst t))) (snd t)) (zip x_binary (rb_gammas batch))) ;;
    maskings <~ mmap (fun _ => ring_masking T) (seq 0 n) ;;
    party_id <~ get_id ;;
    s_selfs <~ indexed (all_some (imap (fun idx t => ring_s_self T party_id pow2 (rb_alphas_flat batch) (idx, t)) (zip (zip ms x_binary) maskings))) ;;
    s_prevs <~ network (fun id => reshare_many id s_selfs) ;;
    mret (zip_rshares s_selfs s_prevs).

(** ** Bits to field shares ([conversion.rs]) *)

(** A share of a [Bit] is 0 or 1; a message is [!= 0]. *)
Definition convert (z : Z) : bool := z =? 1.
Definition nonzero_u8 (z : Z) : bool := negb (z =? 0).

Definition bit_inject_field_preproc_many (x : list RingShare) (batch : DaBitBatch) : MPC (list (Share F)) :=
  let n := length x in
  if Nat.eqb n 0 then mret []
  else
    mdebug_assert (Nat.eqb (length (da_gammas batch)) n) ;~
    mdebug_assert (Nat.eqb (length (da_thetas batch)) n) ;~
    mdebug_assert (Nat.eqb (length (v_shares batch)) n) ;~
    party_id <~ get_id ;;
    match party_id with
    | ID0 =>
        let m0s := map (fun t => Z.b2z (xorb (xorb (convert (sa (fst t))) (convert (sb (fst t)))) (snd t))) (zip x (da_gammas batch)) in
        network (fun _ => send_many ID1 m0s) ;~
        network (fun _ => send_many ID2 m0s) ;~
        m1s <~ network (fun _ => recv_many ID1) ;;
        mret (map (fun t => let '(xi, _, m1, gamma, v) := t in
            let sigma := xorb (xorb (xorb (nonzero_u8 m1) (convert (sa xi))) (convert (sb xi))) gamma in
            let neg1_sigma := if sigma then fopp fone else fone in
            mkShare (fmul (sa v) neg1_sigma) (fmul (sb v) neg1_sigma))
          (zip (zip (zip (zip x m0s) m1s) (da_gammas batch)) (v_shares batch)))
    | ID1 =>
        m0s <~ network (fun _ => recv_many ID0) ;;
        let m1s := map (fun t => Z.b2z (xorb (convert (sa (fst t))) (snd t))) (zip x (da_thetas batch)) in
        network (fun _ => send_many ID0 m1s) ;~
        mret (map (fun t => let '(m0, xi, theta, v) := t in
            let beta := xorb (nonzero_u8 m0) (convert (sa xi)) in
            let sigma := xorb beta theta in
            let neg1_sigma := if sigma then fopp fone else fone in
            mkShare (fadd (fmul (sa v) neg1_sigma) (of_Z (Z.b2z beta))) (fmul (sb v) neg1_sigma))
          (zip (zip (zip m0s x) (da_thetas batch)) (v_shares batch)))
    | ID2 =>
        m0s <~ network (fun _ => recv_many ID0) ;;
        mret (map (fun t => let '(m0, xi, theta, v) := t in
            let beta := xorb (nonzero_u8 m0) (convert (sb xi)) in
            let sigma := xorb beta theta in
            let neg1_sigma := if sigma then fopp fone else fone in
            mkShare (fmul (sa v) neg1_sigma) (fadd (fmul (sb v) neg1_sigma) (of_Z (Z.b2z beta))))
          (zip (zip (zip m0s x) (da_thetas batch)) (v_shares batch)))
    end.

(** ** Selectors on [mpc_type]; [None] is the panic of [expect] *)

Definition expect {A} (o : option A) : MPC A := indexed o.
Definition b2a_many_selector (T : RingType) (x : list RingShare) (batch : option EdaBitsRingBatch) : MPC (list RingShare) :=
  t <~ get_mpc_type ;;
  match t with Online => Rep3Ring.b2a_many T x | Preprocessed => b <~ expect batch ;; b2a_preproc_many T x b end.
Definition r2f_many_selector (T : RingType) (x : list RingShare) (eda : option (list DaRing)) : MPC (list (Share F)) :=
  t <~ get_mpc_type ;;
  match t with Online => r2f_many T x | Preprocessed => e <~ expect eda ;; r2f_preproc_many T x e end.
Definition r2f_b2a_many_selector (T : RingType) (x_binary : list RingShare) (batch : option EdaBitsBatch) : MPC (list (Share F)) :=
  t <~ get_mpc_type ;;
  match t with Online => r2f_b2a_many T x_binary | Preprocessed => b <~ expect batch ;; r2f_b2a_preproc_many T x_binary b end.

End Preproc.
Arguments DaRing F : clear implicits.
Arguments EdaBits F : clear implicits.
Arguments EdaBitsBatch F : clear implicits.
Arguments DaBitBatch F : clear implicits.
Arguments R2fB2aScratch F : clear implicits.
