(* ===== verification/Rep3PreprocCorrect.v ===== *)
(** * Correctness of the preprocessed conversions

    With correlated bits (party 0 knows [gamma], parties 1 and 2 hold summands of
    its bits) the masked value [beta = x xor gamma] is public to parties 1 and 2,
    and [x = beta + sum 2^i (if beta_i then - gamma_i else gamma_i)] is linear in
    what they hold. *)

From Stdlib Require Import ZArith Lia List Bool Setoid Morphisms Btauto Ring.
From stdpp Require Import base list.
From S2P Require Import Prelude Words Field Carry Ring2k RingCarry MpcNet Rep3Ctx Rep3Rules Rep3Share Rep3Arith Rep3Correct Rep3Binary Rep3BinCorrect Rep3BinMany Rep3Ring Rep3RingCorrect Rep3RingBin Rep3RingConv Rep3RingMany Rep3RingConvMany Rep3Preproc.
Import ListNotations.
Local Open Scope Z_scope.
Local Open Scope mpc_scope.
Local Open Scope ring2k_scope.

(** ** The sum of the signed bits *)

Fixpoint signed_sum (b g : Z) (j : nat) : Z :=
  match j with
  | O => 0
  | S j => signed_sum b g j + 2 ^ Z.of_nat j * ((if Z.testbit b (Z.of_nat j) then -1 else 1) * Z.b2z (Z.testbit g (Z.of_nat j)))
  end.

Lemma mod_pow2_bit x j : 0 <= j -> x mod 2 ^ (j + 1) = x mod 2 ^ j + 2 ^ j * Z.b2z (Z.testbit x j).
Proof.
  intros Hj. rewrite Z.testbit_spec' by done. rewrite Z.pow_add_r, Z.pow_1_r by lia.
  rewrite Z.rem_mul_r by (try apply Z.pow_nonzero; lia). done.
Qed.
Lemma signed_sum_spec b g j : signed_sum b g j = Z.lxor b g mod 2 ^ Z.of_nat j - b mod 2 ^ Z.of_nat j.
Proof.
  induction j as [|j IH]; [cbn; by rewrite !Z.mod_1_r|]. cbn [signed_sum]. rewrite IH.
  rewrite !Nat2Z.inj_succ, <- !Z.add_1_r, !mod_pow2_bit by lia. rewrite Z.lxor_spec.
  destruct (Z.testbit b _), (Z.testbit g _); cbn [xorb Z.b2z]; ring.
Qed.
Lemma signed_sum_word w b g : 0 <= w -> word w b -> word w g -> signed_sum b g (Z.to_nat w) = Z.lxor b g - b.
Proof.
  intros Hw Hb Hg. rewrite signed_sum_spec, Z2Nat.id by done.
  rewrite !Z.mod_small; [done|by apply Hb|by apply bword_lxor].
Qed.
Lemma get_bit_test T b i : 0 <= i -> (get_bit T b i =? 1) = Z.testbit b i.
Proof.
  intros Hi. unfold get_bit. change 1 with (Z.ones 1) at 1. rewrite Z.land_ones, Z.shiftr_div_pow2, <- Z.testbit_spec' by lia.
  by destruct (Z.testbit b i).
Qed.

(** ** Lists *)

Lemma all_some_map {A B} (d : B) (f : A -> option B) l : Forall (fun x => is_Some (f x)) l -> all_some (map f l) = Some (map (fun x => default d (f x)) l).
Proof. induction 1 as [|x l [y E] H IH]; cbn; [done|]. by rewrite E, IH. Qed.

(** Three vectors given by functions of an index. *)
Lemma tri_of_index {A} (P : Tri A -> nat -> Prop) (f0 f1 f2 : nat -> A) l : Forall (fun i => P (mkTri (f0 i) (f1 i) (f2 i)) i) l ->
  tri_forall P (mkTri (map f0 l) (map f1 l) (map f2 l)) l.
Proof. induction 1; cbn; by constructor. Qed.
(** An element of three vectors. *)
Lemma tri_lookup {A V} (P : Tri A -> V -> Prop) l vs i v : tri_forall P l vs -> vs !! i = Some v ->
  exists a0 a1 a2, t0 l !! i = Some a0 /\ t1 l !! i = Some a1 /\ t2 l !! i = Some a2 /\ P (mkTri a0 a1 a2) v.
Proof.
  intros H. revert i. induction H as [|a0 a1 a2 w l0 l1 l2 ws Hp Hl IH]; intros [|i] E; try done; cbn in *.
  - injection E as ->. by exists a0, a1, a2.
  - exact (IH i E).
Qed.
Lemma summands_default {A V} (P : Tri A -> V -> Prop) d o0 o1 o2 a0 a1 a2 v : o0 = Some a0 -> o1 = Some a1 -> o2 = Some a2 -> P (mkTri a0 a1 a2) v ->
  P (mkTri (default d o0) (default d o1) (default d o2)) v.
Proof. by intros -> -> ->. Qed.
Lemma zip3_lookup {A A' A''} (l : list A) (m : list A') (n : list A'') i a b c : l !! i = Some a -> m !! i = Some b -> n !! i = Some c ->
  zip (zip l m) n !! i = Some (a, b, c).
Proof. intros El Em En. by rewrite !lookup_zip_with, El, Em, En. Qed.
Lemma tri_cons_inv {A V} (P : Tri A -> V -> Prop) l v vs : tri_forall P l (v :: vs) -> exists a0 a1 a2 l0 l1 l2,
  l = mkTri (a0 :: l0) (a1 :: l1) (a2 :: l2) /\ P (mkTri a0 a1 a2) v /\ tri_forall P (mkTri l0 l1 l2) vs.
Proof. inversion 1; subst. by eexists _, _, _, _, _, _. Qed.
Lemma map_seq_lookup {A} (d : A) (l : list A) : map (fun i => default d (l !! i)) (seq 0 (length l)) = l.
Proof.
  apply list_eq. intros i. rewrite list_lookup_fmap. destruct (decide (i < length l)%nat) as [H|H].
  - rewrite lookup_seq_lt by done. cbn. destruct (lookup_lt_is_Some_2 l i H) as [x E]. by rewrite E.
  - rewrite lookup_seq_ge by lia. cbn. symmetry. apply lookup_ge_None. lia.
Qed.

Section Preproc.
Context {F : Type} `{JF : JoltField F} `{PF : !PrimeField F} `{RO : !RngOps F} `{B : Build}.
Add Ring F_ring_preproc : F_ring.

(** ** Broadcast of party 0 *)

Lemma send_from0_spec {A} `{Wire Wired A} (l0 l1 l2 : list A) :
  protocol (mkTri (send_from0 l0) (send_from0 l1) (send_from0 l2)) (fun r => r = tpure l0).
Proof.
  intros c Hc. exists (tpure l0), c. split; [|done].
  pose proof (sy_id0 _ Hc) as I0. pose proof (sy_id1 _ Hc) as I1. pose proof (sy_id2 _ Hc) as I2. clear Hc.
  destruct c as [[i0 q0 s0 e0] [i1 q1 s1 e1] [i2 q2 s2 e2]]. cbn in I0, I1, I2. subst.
  unfold exec, send_from0, mbind, get_id, network. exists [ID0; ID0; ID1; ID2].
  do 4 (cbn -[serialize deserialize]; rewrite ?deserialize_serialize). done.
Qed.

Lemma protocol_indexed {A R} (o0 o1 o2 : option A) a0 a1 a2 (k0 k1 k2 : A -> MPC R) Q : o0 = Some a0 -> o1 = Some a1 -> o2 = Some a2 ->
  protocol (mkTri (k0 a0) (k1 a1) (k2 a2)) Q ->
  protocol (mkTri (x <~ indexed o0 ;; k0 x) (x <~ indexed o1 ;; k1 x) (x <~ indexed o2 ;; k2 x)) Q.
Proof. intros -> -> -> Hk. eapply protocol_bind; [by apply (protocol_ret' a0 a1 a2 (fun r => r = mkTri a0 a1 a2))|]. by intros ? ? ? [= -> -> ->]. Qed.

Section Width.
Context (T : RingType).
Abbreviation k := (K T).
Let Hk : 0 <= k := K_nonneg T.

(** Party 1 and party 2 hold summands of the bits of [g] from position [base] on. *)
Definition bit_summands {A} (R : A -> A -> Z -> Prop) (f1 f2 : list A) (base : nat) (g : Z) : Prop :=
  forall i, (i < Z.to_nat k)%nat -> exists a1 a2, f1 !! (base + i)%nat = Some a1 /\ f2 !! (base + i)%nat = Some a2 /\
    R a1 a2 (Z.b2z (Z.testbit g (Z.of_nat i))).

Lemma doublings_lookup n : forall cur i, (i < n)%nat -> doublings n cur !! i = Some (fmul (of_Z (2 ^ Z.of_nat i)) cur : F).
Proof.
  induction n as [|n IH]; intros cur [|i] Hi; try lia; cbn [doublings lookup list_lookup].
  - f_equal. rewrite Z.pow_0_r, of_Z_1. ring.
  - change (doublings n (fadd cur cur) !! i = Some (fmul (of_Z (2 ^ Z.of_nat (S i))) cur)). rewrite IH by lia. f_equal.
    rewrite Nat2Z.inj_succ, Z.pow_succ_r by lia. replace (2 * 2 ^ Z.of_nat i) with ((1 + 1) * 2 ^ Z.of_nat i) by lia.
    rewrite of_Z_mul, of_Z_add, of_Z_1. ring.
Qed.

Definition field_bits := bit_summands (A := F) (fun a1 a2 z => fadd a1 a2 = of_Z z).

Lemma v_component_sum f1 f2 base b g : field_bits f1 f2 base g -> word k b -> word k g -> exists v1 v2,
  v_component T (doublings (Z.to_nat k) fone) f1 base b = Some v1 /\ v_component T (doublings (Z.to_nat k) fone) f2 base b = Some v2 /\
  fadd v1 v2 = of_Z (Z.lxor b g - b).
Proof.
  intros Hf Hb Hg. rewrite <- (signed_sum_word k b g Hk Hb Hg). unfold v_component.
  set (n := Z.to_nat k) at 2 4 5. assert (Hn : (n <= Z.to_nat k)%nat) by (unfold n; lia). clearbody n.
  induction n as [|j IH]; [exists fzero, fzero; cbn; rewrite of_Z_0; split_and!; [done..|ring]|].
  destruct IH as (v1 & v2 & E1 & E2 & Ev); [lia|]. destruct (Hf j ltac:(lia)) as (a1 & a2 & L1 & L2 & Ea).
  rewrite !seq_S, !fold_left_app. rewrite E1, E2. cbn [fold_left Nat.add signed_sum]. rewrite L1, L2, doublings_lookup by lia.
  rewrite get_bit_test by lia. eexists _, _. split_and!; [done..|]. rewrite of_Z_add, !of_Z_mul, <- Ev, <- Ea.
  destruct (Z.testbit b (Z.of_nat j)); [rewrite (of_Z_opp 1)|]; rewrite of_Z_1; ring.
Qed.

(** The correlation of a batch: party 0 has the [gs], parties 1 and 2 summands of
    their bits. *)
Record edabits (b : Tri (EdaBitsBatch F)) (gs : list Z) : Prop := {
  eda_gammas : gammas (t0 b) = gs;
  eda_words : Forall (word k) gs;
  eda_lengths : length (gammas (t1 b)) = length gs /\ length (gammas (t2 b)) = length gs;
  eda_flat : length (alphas_flat (t0 b)) = (length gs * Z.to_nat k)%nat /\ length (alphas_flat (t1 b)) = (length gs * Z.to_nat k)%nat /\
    length (alphas_flat (t2 b)) = (length gs * Z.to_nat k)%nat;
  eda_bits idx g : gs !! idx = Some g -> field_bits (alphas_flat (t1 b)) (alphas_flat (t2 b)) (idx * Z.to_nat k) g
}.

(** The cached powers of a scratch. *)
Definition scratch_ok (s : R2fB2aScratch F) : Prop :=
  length (sc_pow2 s) = Z.to_nat k -> sc_pow2 s = doublings (Z.to_nat k) fone.
Lemma ensure_pow2_ok s : scratch_ok s -> ensure_pow2 T (sc_pow2 s) = doublings (Z.to_nat k) fone.
Proof. intros Hs. unfold ensure_pow2. destruct (Nat.eqb_spec (length (sc_pow2 s)) (Z.to_nat k)); auto. Qed.

Definition masked_values (a : list RingShare) (gs : list Z) : list Z :=
  map (fun t => ring_xor T (ring_xor T (sa (fst t)) (sb (fst t))) (snd t)) (zip a gs).

Lemma masked_value_lookup a gs idx a0 a2 g : a !! idx = Some (mkShare a0 a2) -> gs !! idx = Some g -> word k a0 -> word k a2 -> word k g ->
  masked_values a gs !! idx = Some (Z.lxor (Z.lxor a0 a2) g).
Proof.
  intros La Lg W0 W2 Wg. unfold masked_values, RingShare in *. rewrite list_lookup_fmap, lookup_zip_with, La, Lg. cbn.
  by rewrite !ring_xor_word by (rewrite ?ring_xor_word; auto using bword_lxor).
Qed.
(** One element: the summands of the parties. *)
Lemma s_self_sum a xs b gs z idx x : bshared_vec k a xs -> edabits b gs -> length gs = length xs -> xs !! idx = Some x ->
  tri_forall summands z (map (fun _ => fzero) (seq 0 (length xs))) ->
  let self id a b z := s_self T id (doublings (Z.to_nat k) fone) (alphas_flat b) (masked_values (t0 a) gs) (tget a id) z idx in
  exists s0 s1 s2, self ID0 a (t0 b) (t0 z) = Some s0 /\ self ID1 a (t1 b) (t1 z) = Some s1 /\ self ID2 a (t2 b) (t2 z) = Some s2 /\
    summands (mkTri s0 s1 s2) (of_Z x).
Proof.
  intros Ha Hb El Hx Hz self. destruct (lookup_lt_is_Some_2 gs idx) as [g Hg]; [rewrite El; by eapply lookup_lt_Some|].
  assert (Wg : word k g) by exact (Forall_lookup_1 _ _ _ _ (eda_words _ _ Hb) Hg).
  destruct (tri_lookup _ _ _ _ _ Ha Hx) as (p0 & p1 & p2 & L0 & L1 & L2 & a0 & a1 & a2 & W0 & W1 & W2 & [= -> -> ->] & <-).
  unfold BinaryShare, RingShare in *. destruct (tri_lookup _ _ _ idx fzero Hz) as (z0 & z1 & z2 & Z0 & Z1 & Z2 & Ez).
  { rewrite list_lookup_fmap, lookup_seq_lt; [done|]. by eapply lookup_lt_Some. }
  assert (Em : masked_values (t0 a) gs !! idx = Some (Z.lxor (Z.lxor a0 a2) g)) by exact (masked_value_lookup _ _ _ _ _ _ L0 Hg W0 W2 Wg).
  set (beta := Z.lxor (Z.lxor (Z.lxor a0 a1) a2) g). assert (Wb : word k beta) by (unfold beta; auto using bword_lxor).
  destruct (v_component_sum _ _ _ beta g (eda_bits _ _ Hb idx g Hg) Wb Wg) as (v1 & v2 & E1 & E2 & Ev).
  assert (B1 : ring_xor T (Z.lxor (Z.lxor a0 a2) g) a1 = beta) by (rewrite ring_xor_word by auto using bword_lxor; unfold beta; bits).
  exists z0, (fadd (fadd v1 (of_Z beta)) z1), (fadd v2 z2). unfold self, s_self, RingShare. cbn [tget]. rewrite Z0, Z1, Z2, L1, L2, Em. cbn [sa sb].
  rewrite B1, E1, E2. split_and!; [done..|]. unfold summands, additive in *. cbn [t0 t1 t2] in *.
  transitivity (fadd (fadd (fadd v1 v2) (of_Z beta)) (fadd (fadd z0 z1) z2)); [ring|]. rewrite Ez, Ev, <- of_Z_add.
  replace (Z.lxor beta g - beta + beta) with (Z.lxor (Z.lxor a0 a1) a2) by (unfold beta; rewrite (Z.lxor_assoc _ g g), Z.lxor_nilpotent, Z.lxor_0_r; lia). ring.
Qed.

Lemma ring_masking_loop {A V} (P : Tri A -> V -> Prop) l vs : tri_forall P l vs ->
  protocol (tmap (mmap (fun _ => ring_masking T)) l) (fun r => tri_forall (rsummands T) r (map (fun _ => 0) vs)).
Proof. intros Hl. apply (protocol_mmap P (rsummands T) (fun _ => 0)); [|done]. intros a v _. exact (ring_masking_spec T). Qed.

Lemma r2f_b2a_into_spec a xs b gs s : bshared_vec k a xs -> edabits b gs -> length gs = length xs -> scratch_ok (t0 s) -> scratch_ok (t1 s) -> scratch_ok (t2 s) ->
  protocol (mkTri (r2f_b2a_preproc_many_into T (t0 a) (t0 b) (t0 s)) (r2f_b2a_preproc_many_into T (t1 a) (t1 b) (t1 s)) (r2f_b2a_preproc_many_into T (t2 a) (t2 b) (t2 s)))
    (fun r => shared_vec (tmap sc_out r) (map of_Z xs) /\ scratch_ok (t0 r) /\ scratch_ok (t1 r) /\ scratch_ok (t2 r)).
Proof.
  intros Ha Hb El S0 S1 S2. destruct (tri_forall_length _ _ _ Ha) as (N0 & N1 & N2). unfold BinaryShare, RingShare in *.
  unfold r2f_b2a_preproc_many_into, RingShare. rewrite N0, N1, N2. destruct (Nat.eqb_spec (length xs) 0) as [E|E].
  { apply protocol_ret'. destruct xs; [|done]. split; [constructor|done]. }
  destruct (eda_lengths _ _ Hb) as [G1 G2], (eda_flat _ _ Hb) as (F0 & F1 & F2).
  apply protocol_assert; [apply Nat.eqb_eq; rewrite ?(eda_gammas _ _ Hb); congruence..|].
  apply protocol_assert; [apply Nat.eqb_eq; congruence..|]. rewrite !ensure_pow2_ok by done.
  eapply protocol_bind; [apply send_from0_spec|]. intros ? ? ? [= -> -> ->]. rewrite (eda_gammas _ _ Hb).
  eapply protocol_bind; [exact (masking_loop _ _ _ (tri_public (seq 0 (length xs))))|]. intros z0 z1 z2 Hz. apply protocol_id.
  pose proof (fun idx x Hx => s_self_sum a xs b gs (mkTri z0 z1 z2) idx x Ha Hb El Hx Hz) as Hs. cbn [tget t0 t1 t2] in Hs.
  assert (Hi : Forall (fun idx => exists x, xs !! idx = Some x) (seq 0 (length xs))).
  { apply Forall_seq. intros j Hj. apply lookup_lt_is_Some_2. lia. }
  eapply protocol_indexed; [apply (all_some_map fzero), (Forall_impl _ _ _ Hi); intros j (x & Hx); destruct (Hs j x Hx) as (s0 & s1 & s2 & E0 & E1 & E2 & _); by eexists..|].
  eapply protocol_bind; [apply protocol_reshare_many|]. intros ? ? ? [= -> -> ->]. apply protocol_ret'. cbn [tmap t0 t1 t2 sc_out].
  split; [|done]. apply zip_shares_shared.
  replace (map of_Z xs) with (map (fun j => of_Z (default 0 (xs !! j)) : F) (seq 0 (length xs))) by (by rewrite <- (map_map (fun j => default 0 (xs !! j))), map_seq_lookup).
  apply tri_unmap, tri_of_index, (Forall_impl _ _ _ Hi). intros j (x & Hx). destruct (Hs j x Hx) as (s0 & s1 & s2 & E0 & E1 & E2 & E3).
  rewrite Hx. exact (summands_default summands fzero _ _ _ _ _ _ _ E0 E1 E2 E3).
Qed.

(** ** Into the ring *)

Lemma ring_doublings_lookup n : forall cur i, word k cur -> (i < n)%nat -> exists p, ring_doublings T n cur !! i = Some p /\ word k p /\ p =[T]= 2 ^ Z.of_nat i * cur.
Proof.
  induction n as [|n IH]; intros cur [|i] Hc Hi; try lia; cbn [ring_doublings lookup list_lookup].
  - exists cur. split_and!; [done..|]. rewrite Z.pow_0_r. apply eqm_eq. ring.
  - destruct (IH (ring_add T cur cur) i) as (p & E & W & Hp); [auto with ring_words|lia|]. exists p. split_and!; [done..|].
    rewrite Hp, ring_add_eqm, Nat2Z.inj_succ, Z.pow_succ_r by lia. apply eqm_eq. ring.
Qed.

Definition ring_bits_shared := bit_summands (fun a1 a2 z => word k a1 /\ word k a2 /\ a1 + a2 =[T]= z).

Lemma ring_v_component_sum f1 f2 base b g : ring_bits_shared f1 f2 base g -> word k b -> word k g -> exists v1 v2,
  ring_v_component T (ring_doublings T (Z.to_nat k) 1) f1 base b = Some v1 /\ ring_v_component T (ring_doublings T (Z.to_nat k) 1) f2 base b = Some v2 /\
  word k v1 /\ word k v2 /\ v1 + v2 =[T]= Z.lxor b g - b.
Proof.
  intros Hf Hb Hg. rewrite <- (signed_sum_word k b g Hk Hb Hg). unfold ring_v_component.
  set (n := Z.to_nat k) at 2 4 5. assert (Hn : (n <= Z.to_nat k)%nat) by (unfold n; lia). clearbody n.
  induction n as [|j IH]; [exists 0, 0; cbn; split_and!; [done..|apply word_0_K|apply word_0_K|done]|].
  destruct IH as (v1 & v2 & E1 & E2 & W1 & W2 & Ev); [lia|]. destruct (Hf j ltac:(lia)) as (a1 & a2 & L1 & L2 & A1 & A2 & Ea).
  destruct (ring_doublings_lookup (Z.to_nat k) 1 j (word_1_K T) ltac:(lia)) as (p & Lp & Wp & Ep).
  rewrite !seq_S, !fold_left_app. rewrite E1, E2. cbn [fold_left Nat.add signed_sum]. rewrite L1, L2, Lp.
  rewrite get_bit_test by lia. eexists _, _. split_and!; [done|done|destruct (Z.testbit b _); auto with ring_words..|].
  rewrite !ring_add_eqm, !ring_mul_eqm, <- Ev, <- Ea, Ep.
  destruct (Z.testbit b (Z.of_nat j)); rewrite ?ring_neg_eqm; apply eqm_eq; ring.
Qed.

(** The correlation of a batch in the ring. *)
Record ring_edabits (b : Tri EdaBitsRingBatch) (gs : list Z) : Prop := {
  rda_gammas : rb_gammas (t0 b) = gs;
  rda_words : Forall (word k) gs;
  rda_lengths : length (rb_gammas (t1 b)) = length gs /\ length (rb_gammas (t2 b)) = length gs;
  rda_flat : length (rb_alphas_flat (t0 b)) = (length gs * Z.to_nat k)%nat /\ length (rb_alphas_flat (t1 b)) = (length gs * Z.to_nat k)%nat /\
    length (rb_alphas_flat (t2 b)) = (length gs * Z.to_nat k)%nat;
  rda_bits idx g : gs !! idx = Some g -> ring_bits_shared (rb_alphas_flat (t1 b)) (rb_alphas_flat (t2 b)) (idx * Z.to_nat k) g
}.

Lemma imap_seq {A R} (f : nat -> A -> option R) l :
  imap f l = map (fun i => match l !! i with Some x => f i x | None => None end) (seq 0 (length l)).
Proof.
  apply list_eq. intros i. rewrite list_lookup_imap, list_lookup_fmap. destruct (decide (i < length l)%nat) as [H|H].
  - rewrite lookup_seq_lt by done. destruct (lookup_lt_is_Some_2 l i H) as [x E]. cbn. by rewrite E.
  - rewrite lookup_seq_ge by lia. by rewrite lookup_ge_None_2 by lia.
Qed.

Lemma ring_s_self_sum a xs b gs z idx x : bshared_vec k a xs -> ring_edabits b gs -> length gs = length xs -> xs !! idx = Some x ->
  tri_forall (rsummands T) z (map (fun _ => 0) (seq 0 (length xs))) ->
  let self id (b : EdaBitsRingBatch) z := match zip (zip (masked_values (t0 a) gs) (tget a id)) z !! idx with
    | Some t => ring_s_self T id (ring_doublings T (Z.to_nat k) 1) (rb_alphas_flat b) (idx, t) | None => None end in
  exists s0 s1 s2, self ID0 (t0 b) (t0 z) = Some s0 /\ self ID1 (t1 b) (t1 z) = Some s1 /\ self ID2 (t2 b) (t2 z) = Some s2 /\
    rsummands T (mkTri s0 s1 s2) x.
Proof.
  intros Ha Hb El Hx Hz self. destruct (lookup_lt_is_Some_2 gs idx) as [g Hg]; [rewrite El; by eapply lookup_lt_Some|].
  assert (Wg : word k g) by exact (Forall_lookup_1 _ _ _ _ (rda_words _ _ Hb) Hg).
  destruct (tri_lookup _ _ _ _ _ Ha Hx) as (p0 & p1 & p2 & L0 & L1 & L2 & a0 & a1 & a2 & W0 & W1 & W2 & [= -> -> ->] & <-).
  unfold BinaryShare, RingShare in *. destruct (tri_lookup _ _ _ idx 0 Hz) as (z0 & z1 & z2 & Z0 & Z1 & Z2 & Y0 & Y1 & Y2 & Ez).
  { rewrite list_lookup_fmap, lookup_seq_lt; [done|]. by eapply lookup_lt_Some. }
  assert (Em : masked_values (t0 a) gs !! idx = Some (Z.lxor (Z.lxor a0 a2) g)) by exact (masked_value_lookup _ _ _ _ _ _ L0 Hg W0 W2 Wg).
  set (beta := Z.lxor (Z.lxor (Z.lxor a0 a1) a2) g). assert (Wb : word k beta) by (unfold beta; auto using bword_lxor).
  destruct (ring_v_component_sum _ _ _ beta g (rda_bits _ _ Hb idx g Hg) Wb Wg) as (v1 & v2 & E1 & E2 & V1 & V2 & Ev).
  assert (B1 : ring_xor T (Z.lxor (Z.lxor a0 a2) g) a1 = beta) by (rewrite ring_xor_word by auto using bword_lxor; unfold beta; bits).
  exists z0, (ring_add T (ring_add T v1 beta) z1), (ring_add T v2 z2). unfold self, ring_s_self, RingShare. cbn [tget].
  rewrite (zip3_lookup _ _ _ _ _ _ _ Em L0 Z0), (zip3_lookup _ _ _ _ _ _ _ Em L1 Z1), (zip3_lookup _ _ _ _ _ _ _ Em L2 Z2). cbn [sa sb].
  rewrite B1, E1, E2. split_and!; [done..|]. cbn [t0 t1 t2] in *. unfold rsummands. cbn [t0 t1 t2]. split_and!; [auto with ring_words..|].
  rewrite <- (rmod_small T (Z.lxor _ _)) at 1 by auto using bword_lxor. apply rmod_of_eqm. rewrite !ring_add_eqm.
  transitivity (v1 + v2 + beta + (z0 + z1 + z2)); [|apply eqm_eq; ring].
  rewrite Ev, <- (rmod_eqm T (z0 + z1 + z2)), <- Ez. apply eqm_eq. unfold beta. rewrite (Z.lxor_assoc _ g g), Z.lxor_nilpotent, Z.lxor_0_r. ring.
Qed.

Lemma b2a_preproc_spec a xs b gs : bshared_vec k a xs -> ring_edabits b gs -> length gs = length xs ->
  protocol (tmap2 (b2a_preproc_many T) a b) (fun r => rshared_vec T r xs).
Proof.
  intros Ha Hb El. destruct (tri_forall_length _ _ _ Ha) as (N0 & N1 & N2). unfold BinaryShare, RingShare in *.
  unfold tmap2, b2a_preproc_many, RingShare. rewrite N0, N1, N2. destruct (Nat.eqb_spec (length xs) 0) as [E|E].
  { apply protocol_ret'. destruct xs; [|done]. constructor. }
  destruct (rda_lengths _ _ Hb) as [G1 G2], (rda_flat _ _ Hb) as (F0 & F1 & F2).
  apply protocol_assert; [apply Nat.eqb_eq; rewrite ?(rda_gammas _ _ Hb); congruence..|].
  apply protocol_assert; [apply Nat.eqb_eq; congruence..|].
  eapply protocol_bind; [apply send_from0_spec|]. intros ? ? ? [= -> -> ->]. rewrite (rda_gammas _ _ Hb).
  eapply protocol_bind; [exact (ring_masking_loop _ _ _ (tri_public (seq 0 (length xs))))|]. intros z0 z1 z2 Hz. apply protocol_id.
  pose proof (fun idx x Hx => ring_s_self_sum a xs b gs (mkTri z0 z1 z2) idx x Ha Hb El Hx Hz) as Hs. cbn [tget t0 t1 t2] in Hs.
  assert (Hi : Forall (fun idx => exists x, xs !! idx = Some x) (seq 0 (length xs))).
  { apply Forall_seq. intros j Hj. apply lookup_lt_is_Some_2. lia. }
  assert (Ln : forall (l : list (Share Z)) (z : list Z), length l = length xs -> length z = length xs -> length (zip (zip (masked_values (t0 a) gs) l) z) = length xs).
  { intros l z Hl Hz'. unfold masked_values, RingShare. rewrite !length_zip_with, length_map, length_zip_with. lia. }
  destruct (tri_forall_length _ _ _ Hz) as (M0 & M1 & M2). rewrite length_map, length_seq in M0, M1, M2; cbn [t0 t1 t2] in M0, M1, M2.
  rewrite !imap_seq. unfold masked_values, RingShare in *. rewrite !Ln by done.
  eapply protocol_indexed; [apply (all_some_map 0), (Forall_impl _ _ _ Hi); intros j (x & Hx); destruct (Hs j x Hx) as (s0 & s1 & s2 & E0 & E1 & E2 & _); by eexists..|].
  eapply protocol_bind; [apply protocol_reshare_many|]. intros ? ? ? [= -> -> ->]. apply protocol_ret'.
  apply zip_rshares_shared. match goal with |- tri_forall ?P ?l _ => enough (tri_forall P l (map (fun j => default 0 (xs !! j)) (seq 0 (length xs)))) as Q by (by rewrite map_seq_lookup in Q) end.
  apply tri_unmap, tri_of_index, (Forall_impl _ _ _ Hi). intros j (x & Hx). destruct (Hs j x Hx) as (s0 & s1 & s2 & E0 & E1 & E2 & E3).
  rewrite Hx. exact (summands_default (rsummands T) 0 _ _ _ _ _ _ _ E0 E1 E2 E3).
Qed.

End Width.
(** ** By a masked opening *)

(** One integer shared in the ring and in the field. *)
Definition daring (T : RingType) : Tri (list (DaRing F)) -> list Z -> Prop :=
  tri_forall (fun e r => rshared T (tmap r_ring e) r /\ shared (tmap r_fp e) (of_Z r)).

Lemma r2f_preproc_spec T a xs e rs : rshared_vec T a xs -> daring T e rs -> length xs = length rs ->
  protocol (tmap2 (r2f_preproc_many T) a e) (fun r => shared_vec r (zip_with (fun x r => fadd (of_Z r) (of_Z (rmod T (x - r)))) xs rs)).
Proof.
  intros Ha He El. apply (protocol_lengths a e xs rs _ _ _ _ Ha He El). destruct (tri_pair _ _ _ _ _ _ Ha He El) as [Hx Hr].
  set (vs := zip xs rs) in *. eapply protocol_bind.
  - apply (ring_open_vec_spec T (tmap2 (fun l l' => map (fun t => rs_sub T (fst t) (r_ring (snd t))) (zip l l')) a e) (map (fun v => rmod T (fst v - snd v)) vs)).
    apply tri_unmap. refine (tri_map2 _ _ _ (fun x e => rs_sub T x (r_ring e)) a e vs _ Hx Hr). intros s t v Hs [Ht _]. exact (rshared_sub T _ _ _ _ Hs Ht).
  - intros ? ? ? [= -> -> ->]. apply protocol_id, protocol_ret'. rewrite (zip_with_pairs (fun x r => fadd (of_Z r) (of_Z (rmod T (x - r))))).
    fold vs. apply (tri_unmap shared). clear Hx. revert Hr. generalize vs. intros l Hr. clear -Hr.
    induction Hr as [|e0 e1 e2 v l0 l1 l2 vs [_ Hp] Hl IH]; cbn; constructor; [|exact IH].
    exact (shared_add (mkTri (r_fp e0) (r_fp e1) (r_fp e2)) _ _ _ Hp (shared_public _)).
Qed.

(** What it shares is the integer when the mask is not larger, and [2 ^ K] more when it is. *)
Lemma masked_opening T x r : word (K T) x -> word (K T) r ->
  fadd (of_Z r) (of_Z (rmod T (x - r))) = (of_Z (if r <=? x then x else x + 2 ^ K T) : F).
Proof.
  intros Hx Hr. unfold rmod, word in *. rewrite <- of_Z_add. f_equal. destruct (Z.leb_spec r x).
  - rewrite Z.mod_small; lia.
  - replace (x - r) with (x - r + 2 ^ K T + (-1) * 2 ^ K T) by ring. rewrite Z.mod_add by lia. rewrite Z.mod_small; lia.
Qed.

(** ** Bits *)

Definition sign (b : bool) : F := if b then fopp fone else fone.
Definition bit (b : bool) : F := of_Z (Z.b2z b).

(** Party 0 knows the [gamma]s, parties 1 and 2 the [theta]s, and the three share
    [(-1)^theta gamma]. *)
Record dabits (b : Tri (DaBitBatch F)) (vs : list (bool * bool)) : Prop := {
  dab_gammas : da_gammas (t0 b) = map fst vs;
  dab_thetas : da_thetas (t1 b) = map snd vs /\ da_thetas (t2 b) = map snd vs;
  dab_lengths : length (da_gammas (t1 b)) = length vs /\ length (da_gammas (t2 b)) = length vs /\ length (da_thetas (t0 b)) = length vs;
  dab_shares : shared_vec (tmap v_shares b) (map (fun v => fmul (sign (snd v)) (bit (fst v))) vs)
}.

Lemma bit_messages {R} (m0 m1 : list Z) (k0 k1 k2 : list Z -> R) :
  protocol (mkTri (network (fun _ => send_many ID1 m0) ;~ network (fun _ => send_many ID2 m0) ;~ m1s <~ network (fun _ => recv_many ID1) ;; mret (k0 m1s))
    (m0s <~ network (fun _ => recv_many ID0) ;; network (fun _ => send_many ID0 m1) ;~ mret (k1 m0s))
    (m0s <~ network (fun _ => recv_many ID0) ;; mret (k2 m0s))) (fun r => r = mkTri (k0 m1) (k1 m0) (k2 m0)).
Proof.
  intros c Hc. eexists _, c. split; [|split; [done|reflexivity]]. clear Hc. destruct c as [c0 c1 c2].
  unfold exec, mbind, network. exists [ID0; ID0; ID1; ID1; ID0; ID2].
  do 6 (cbn -[serialize deserialize]; rewrite ?deserialize_serialize). done.
Qed.

Lemma convert_b2z b : convert (Z.b2z b) = b.
Proof. by destruct b. Qed.
Lemma nonzero_b2z b : nonzero_u8 (Z.b2z b) = b.
Proof. by destruct b. Qed.
Lemma bit_is_b2z z : word 1 z -> exists b, z = Z.b2z b.
Proof. intros H. destruct (bit_cases z H) as [-> | ->]; [by exists false|by exists true]. Qed.

(** The sharing of one bit. *)
Lemma dabit_shared (x0 x1 x2 g t : bool) (v : Tri (Share F)) : shared v (fmul (sign t) (bit g)) ->
  let beta := xorb (xorb (xorb x0 x2) g) x1 in let s := sign (xorb beta t) in
  shared (mkTri (mkShare (fmul (sa (t0 v)) s) (fmul (sb (t0 v)) s)) (mkShare (fadd (fmul (sa (t1 v)) s) (bit beta)) (fmul (sb (t1 v)) s))
                (mkShare (fmul (sa (t2 v)) s) (fadd (fmul (sb (t2 v)) s) (bit beta)))) (of_Z (Z.lxor (Z.lxor (Z.b2z x0) (Z.b2z x1)) (Z.b2z x2))).
Proof.
  intros (v0 & v1 & v2 & -> & Ev) beta s. unfold shares_of. cbn [t0 t1 t2 sa sb]. exists (fmul v0 s), (fadd (fmul v1 s) (bit beta)), (fmul v2 s).
  split; [done|]. transitivity (fadd (fmul (fadd (fadd v0 v1) v2) s) (bit beta)); [ring|]. rewrite Ev. unfold s, beta, sign, bit.
  destruct x0, x1, x2, g, t; cbn; rewrite ?of_Z_0, ?of_Z_1; ring.
Qed.

Lemma bit_inject_preproc_spec a xs b vs : bshared_vec 1 a xs -> dabits b vs -> length vs = length xs ->
  protocol (tmap2 bit_inject_field_preproc_many a b) (fun r => shared_vec r (map of_Z xs : list F)).
Proof.
  intros Ha [Eg [Et1 Et2] (G1 & G2 & T0) Hv] El. destruct (tri_forall_length _ _ _ Ha) as (N0 & N1 & N2).
  destruct (tri_forall_length _ _ _ Hv) as (V0 & V1 & V2). rewrite length_map in V0, V1, V2. cbn [tmap t0 t1 t2] in V0, V1, V2.
  unfold tmap2, bit_inject_field_preproc_many. unfold BinaryShare, RingShare, FieldShare in *. rewrite N0, N1, N2.
  destruct (Nat.eqb_spec (length xs) 0) as [E|E].
  { apply protocol_ret'. destruct xs; [|done]. constructor. }
  do 3 (apply protocol_assert; [apply Nat.eqb_eq; rewrite ?Eg, ?Et1, ?Et2, ?length_map; congruence..|]). apply protocol_id. cbv beta iota.
  rewrite Eg, Et1, Et2. eapply protocol_weaken; [apply bit_messages|]. intros r ->. unfold tmap in Hv. clear E N0 N1 N2 V0 V1 V2 Eg Et1 Et2 G1 G2 T0.
  revert vs El Hv. generalize (v_shares (t0 b)), (v_shares (t1 b)), (v_shares (t2 b)). intros w0 w1 w2 vs El Hv. revert w0 w1 w2 vs El Hv.
  induction Ha as [|p0 p1 p2 x l0 l1 l2 xs Hp Hl IH]; intros w0 w1 w2 [|[g t] vs] El Hv; try done; [constructor|].
  destruct (tri_cons_inv _ _ _ _ Hv) as (v0 & v1 & v2 & m0 & m1 & m2 & [= -> -> ->] & Hs & Hv'). cbn [t0 t1 t2 map fst snd]. destruct Hp as (a0 & a1 & a2 & U0 & U1 & U2 & [= -> -> ->] & <-).
  destruct (bit_is_b2z _ U0) as [x0 ->], (bit_is_b2z _ U1) as [x1 ->], (bit_is_b2z _ U2) as [x2 ->].
  cbn [sa sb zip zip_with map fst snd]. rewrite !convert_b2z, !nonzero_b2z. constructor; [|apply IH; [by injection El|done]].
  pose proof (dabit_shared x0 x1 x2 g t _ Hs) as Q. cbn [t0 t1 t2] in Q.
  replace (xorb (xorb (xorb (xorb x1 t) x0) x2) g) with (xorb (xorb (xorb (xorb x0 x2) g) x1) t) by btauto. exact Q.
Qed.

End Preproc.
