(* ===== verification/BackingStore.v ===== *)
(** * The backing store of preprocessed data

    [mpc-core/src/preprocessing/backing_store.rs]: a sequence of elements in memory
    or in a file, read by ranges and appended to.  A file is the sequence of its
    elements, positions in it count elements, [zero] is the element whose bytes
    are zero.  [None] is an [Err]; reads and writes of the operating system within
    the file succeed.

    Then the layout of [write_meta], [read_meta] and [update_cursor] of the same file and
    of [write_precache_meta], [read_precache_meta] of [edabits.rs]: a file is the list
    of its bytes, [None] is the error of a file that is too short. *)

From Stdlib Require Import ZArith Lia List Bool.
From stdpp Require Import base list.
From S2P Require Import Prelude Ring2k MpcNet.
Import ListNotations.
Local Open Scope nat_scope.

Section Store.
Context {A : Type} (zero : A).

Inductive BackingStore :=
| InMemory (v : list A)
| FileBacked (file : list A) (len append_offset : nat)
| Empty.

(** ** Files *)

Definition slice {B} (l : list B) (start end_ : nat) : list B := take (end_ - start) (drop start l).

(** [set_len]: cut, or fill with zeros. *)
Definition set_len (file : list A) (n : nat) : list A := take n file ++ replicate (n - length file) zero.
(** [read_exact_at]: an error past the end. *)
Definition file_read_exact_at (file : list A) (start end_ : nat) : option (list A) :=
  if Nat.leb end_ (length file) then Some (slice file start end_) else None.
(** [write_all_at]: the file grows when written past its end. *)
Definition file_write_all_at (file : list A) (offset : nat) (data : list A) : list A :=
  take offset (set_len file (Nat.max (length file) offset)) ++ data ++ drop (offset + length data) file.

(** ** Reading *)

Definition store_len (s : BackingStore) : nat :=
  match s with InMemory v => length v | FileBacked _ len _ => len | Empty => 0 end.
Definition is_empty (s : BackingStore) : bool := Nat.eqb (store_len s) 0.
Definition validate_range (s : BackingStore) (start end_ : nat) : option unit :=
  if Nat.ltb end_ start then None else if Nat.ltb (store_len s) end_ then None else Some tt.

Definition read_file_backed_range (s : BackingStore) (file : list A) (start end_ : nat) : option (list A) :=
  match validate_range s start end_ with
  | None => None
  | Some _ => if Nat.eqb (end_ - start) 0 then Some [] else file_read_exact_at file start end_
  end.

(** [read_consume], and [read_reuse] of the other build *)
Definition read_consume (s : BackingStore) (start end_ : nat) : option (list A) :=
  match s with
  | InMemory v => match validate_range s start end_ with Some _ => Some (slice v start end_) | None => None end
  | FileBacked file _ _ => read_file_backed_range s file start end_
  | Empty => Some []
  end.

(** [read_consume_into_slice], [read_reuse_into_slice]: the new contents of [out] *)
Definition read_consume_into_slice (s : BackingStore) (start end_ : nat) (out : list A) : option (list A) :=
  if negb (Nat.eqb (length out) (end_ - start)) then None
  else
    match s with
    | InMemory v => match validate_range s start end_ with Some _ => Some (slice v start end_) | None => None end
    | FileBacked file _ _ => file_read_exact_at file start end_
    | Empty => match out with [] => Some [] | _ => None end
    end.

(** [read_view], [BackingStoreReadView::read_into_slice]: the view is the store as it is. *)
Definition view_read_into_slice (s : BackingStore) (start end_ : nat) (out : list A) : option (list A) :=
  if negb (Nat.eqb (length out) (end_ - start)) then None
  else
    match s with
    | InMemory v => match validate_range s start end_ with Some _ => Some (slice v start end_) | None => None end
    | FileBacked file _ _ => match validate_range s start end_ with Some _ => file_read_exact_at file start end_ | None => None end
    | Empty => match out with [] => Some [] | _ => None end
    end.

(** ** Writing *)

Definition from_vec (v : list A) : BackingStore := match v with [] => Empty | _ => InMemory v end.
Definition create_file_backed_sized (capacity_elems : nat) : BackingStore := FileBacked (set_len [] capacity_elems) capacity_elems 0.

(** [extend]; appending to a file is at [append_offset]. *)
Definition extend (s : BackingStore) (additional : list A) : BackingStore :=
  match additional with
  | [] => s
  | _ =>
      match s with
      | InMemory v => InMemory (v ++ additional)
      | FileBacked file len append_offset =>
          FileBacked (file_write_all_at file append_offset additional) (len + length additional) (append_offset + length additional)
      | Empty => InMemory additional
      end
  end.

(** [write_at] *)
Definition write_at (s : BackingStore) (start_elem : nat) (data : list A) : option BackingStore :=
  match data with
  | [] => Some s
  | d :: _ =>
      let end_elem := start_elem + length data in
      match s with
      | InMemory v =>
          let v := if Nat.ltb (length v) end_elem then v ++ replicate (end_elem - length v) d else v in
          Some (InMemory (take start_elem v ++ data ++ drop end_elem v))
      | FileBacked file len append_offset =>
          if Nat.ltb len end_elem then None
          else Some (FileBacked (file_write_all_at file start_elem data) len (Nat.max append_offset end_elem))
      | Empty => if Nat.eqb start_elem 0 then Some (InMemory data) else None
      end
  end.

Fixpoint interleaved (left_ right_ : list A) : list A :=
  match left_, right_ with l :: left_, r :: right_ => l :: r :: interleaved left_ right_ | _, _ => [] end.
Definition write_interleaved_at (s : BackingStore) (start_pair : nat) (left_ right_ : list A) : option BackingStore :=
  if negb (Nat.eqb (length left_) (length right_)) then None
  else match left_ with [] => Some s | _ => write_at s (start_pair * 2) (interleaved left_ right_) end.

(** [FileBackedWriter::write_at] through [writer]: the file of the store changes,
    [append_offset] does not. *)
Definition writer_write_at (s : BackingStore) (start_elem : nat) (data : list A) : option BackingStore :=
  match s with
  | FileBacked file len append_offset =>
      match data with
      | [] => Some s
      | _ => if Nat.ltb len (start_elem + length data) then None else Some (FileBacked (file_write_all_at file start_elem data) len append_offset)
      end
  | _ => None
  end.

(** [pre_extended_writer] *)
Definition pre_extended (s : BackingStore) (additional_elems : nat) : BackingStore :=
  match s with
  | FileBacked file len _ => FileBacked (set_len file (len + additional_elems)) (len + additional_elems) (len + additional_elems)
  | _ => s
  end.

(** [consume]: the range is punched out of the file, reading as zeros. *)
Definition consume (reuse_preproc : bool) (s : BackingStore) (start end_ : nat) : BackingStore :=
  match s with
  | FileBacked file len append_offset =>
      if reuse_preproc then s
      else if Nat.ltb end_ start || Nat.ltb len end_ then s
      else if Nat.eqb (end_ - start) 0 then s
      else FileBacked (take start file ++ replicate (Nat.min (length file) end_ - Nat.min (length file) start) zero ++ drop end_ file) len append_offset
  | _ => s
  end.

(** [save_to_file] to another path: what the file holds, if it is written. *)
Definition save_to_file (s : BackingStore) : option (list A) :=
  match s with InMemory v => Some v | FileBacked file _ _ => Some file | Empty => None end.
Definition load_from_file (file : list A) : BackingStore :=
  match file with [] => Empty | _ => FileBacked file (length file) (length file) end.

(** ** The invariant, and what is stored *)

Definition contents (s : BackingStore) : list A :=
  match s with InMemory v => v | FileBacked file _ _ => file | Empty => [] end.

(** The length of a file is known. *)
Definition sized (s : BackingStore) : Prop := match s with FileBacked file len _ => length file = len | _ => True end.
(** Appending starts at its end. *)
Definition appendable (s : BackingStore) : Prop :=
  match s with FileBacked file len append_offset => length file = len /\ append_offset = len | _ => True end.

Lemma appendable_sized s : appendable s -> sized s.
Proof. destruct s; [done|by intros [? _]|done]. Qed.
Lemma sized_len s : sized s -> store_len s = length (contents s).
Proof. by destruct s. Qed.

Lemma slice_length {B} (l : list B) a b : a <= b -> b <= length l -> length (slice l a b) = b - a.
Proof. intros. unfold slice. rewrite length_take, length_drop. lia. Qed.
Lemma slice_lookup {B} (l : list B) a b i : i < b - a -> slice l a b !! i = l !! (a + i).
Proof. intros. unfold slice. rewrite lookup_take_lt by done. by rewrite lookup_drop. Qed.

Lemma slice_app {B} (l : list B) a x y : slice l a (a + (x + y)) = slice l a (a + x) ++ slice l (a + x) (a + x + y).
Proof.
  unfold slice. replace (a + (x + y) - a) with (x + y) by lia. replace (a + x - a) with x by lia. replace (a + x + y - (a + x)) with y by lia.
  rewrite <- drop_drop. generalize (drop a l). induction x as [|x IH]; intros [|b m]; cbn; [done..|by rewrite take_nil|]. by rewrite IH.
Qed.

Lemma validate_range_spec s a b : sized s -> validate_range s a b = if Nat.leb a b && Nat.leb b (length (contents s)) then Some tt else None.
Proof.
  intros H. unfold validate_range. rewrite sized_len by done. generalize (length (contents s)). intros n.
  destruct (Nat.ltb_spec b a), (Nat.leb_spec a b), (Nat.ltb_spec n b), (Nat.leb_spec b n); cbn; try done; lia.
Qed.

(** A read of a nonempty range is the range of the contents, or an error. *)
Lemma read_into_slice_spec s a b out : sized s -> a < b -> length out = b - a ->
  read_consume_into_slice s a b out = if Nat.leb b (length (contents s)) then Some (slice (contents s) a b) else None.
Proof.
  intros Hs Hab Ho. unfold read_consume_into_slice. rewrite Ho, Nat.eqb_refl. cbn [negb]. destruct s; cbn [contents].
  - rewrite validate_range_spec by done. cbn [contents]. destruct (Nat.leb_spec a b); [|lia]. cbn. by destruct (Nat.leb_spec b (length v)).
  - done.
  - destruct out; [cbn in Ho; lia|]. destruct (Nat.leb_spec b (length (@nil A))); [cbn in *; lia|done].
Qed.
Lemma view_read_spec s a b out : sized s -> a < b -> length out = b - a ->
  view_read_into_slice s a b out = if Nat.leb b (length (contents s)) then Some (slice (contents s) a b) else None.
Proof.
  intros Hs Hab Ho. unfold view_read_into_slice. rewrite Ho, Nat.eqb_refl. cbn [negb]. destruct s as [v|file len app|].
  - rewrite validate_range_spec by done. cbn [contents]. destruct (Nat.leb_spec a b); [|lia]. cbn. by destruct (Nat.leb_spec b (length v)).
  - rewrite validate_range_spec by done. cbn [contents]. destruct (Nat.leb_spec a b); [|lia]. unfold file_read_exact_at. cbn. by destruct (Nat.leb_spec b (length file)).
  - cbn [contents]. destruct out; [cbn in Ho; lia|]. destruct (Nat.leb_spec b (length (@nil A))); [cbn in *; lia|done].
Qed.

Lemma read_consume_spec s a b : sized s -> a <= b -> b <= length (contents s) -> read_consume s a b = Some (slice (contents s) a b).
Proof.
  intros Hs Ha Hb. unfold read_consume, read_file_backed_range. rewrite validate_range_spec by done.
  rewrite (proj2 (Nat.leb_le _ _) Ha), (proj2 (Nat.leb_le _ _) Hb). destruct s as [v|file len app|]; cbn [contents andb length] in *; [done| |].
  - destruct (Nat.eqb_spec (b - a) 0) as [E|E]; [unfold slice; by rewrite E|]. unfold file_read_exact_at. by rewrite (proj2 (Nat.leb_le _ _) Hb).
  - unfold slice. by rewrite drop_nil, take_nil.
Qed.

Lemma set_len_same file : set_len file (length file) = file.
Proof. unfold set_len. by rewrite Nat.sub_diag, firstn_all, app_nil_r. Qed.
Lemma set_len_length file n : length (set_len file n) = n.
Proof. unfold set_len. rewrite length_app, length_take, length_replicate. lia. Qed.
Lemma write_within file offset data : offset + length data <= length file ->
  file_write_all_at file offset data = take offset file ++ data ++ drop (offset + length data) file.
Proof. intros H. unfold file_write_all_at. by rewrite Nat.max_l, set_len_same by lia. Qed.
Lemma write_end file data : file_write_all_at file (length file) data = file ++ data.
Proof.
  unfold file_write_all_at. rewrite Nat.max_id, set_len_same, firstn_all, (drop_ge file) by lia. by rewrite app_nil_r.
Qed.
Lemma write_length file offset data : offset + length data <= length file -> length (file_write_all_at file offset data) = length file.
Proof. intros H. rewrite write_within, !length_app, length_take, length_drop by done. lia. Qed.

Lemma write_lookup_before file offset data i : offset + length data <= length file -> i < offset -> file_write_all_at file offset data !! i = file !! i.
Proof. intros H Hi. rewrite write_within by done. rewrite lookup_app_l by (rewrite length_take; lia). by rewrite lookup_take_lt. Qed.
Lemma write_lookup_data file offset data i : offset + length data <= length file -> i < length data -> file_write_all_at file offset data !! (offset + i) = data !! i.
Proof.
  intros H Hi. rewrite write_within by done. rewrite lookup_app_r by (rewrite length_take; lia). rewrite length_take, Nat.min_l by lia.
  rewrite lookup_app_l by lia. f_equal. lia.
Qed.

(** Appending. *)
Lemma extend_spec s additional : appendable s -> appendable (extend s additional) /\ contents (extend s additional) = contents s ++ additional.
Proof.
  intros Hs. destruct additional as [|a l]; [by rewrite app_nil_r|]. destruct s as [v|file len app|]; cbn [extend contents appendable]; [done| |done].
  destruct Hs as [<- ->]. rewrite write_end. by rewrite length_app.
Qed.
(** Writing within the length. *)
Lemma write_at_spec s start data : sized s -> data <> [] -> start + length data <= length (contents s) ->
  exists s', write_at s start data = Some s' /\ sized s' /\ contents s' = take start (contents s) ++ data ++ drop (start + length data) (contents s).
Proof.
  intros Hs Hd H. destruct data as [|d l]; [done|]. destruct s as [v|file len app|]; cbn [write_at contents sized] in *.
  - destruct (Nat.ltb_spec (length v) (start + length (d :: l))); [lia|]. by eexists.
  - subst len. destruct (Nat.ltb_spec (length file) (start + length (d :: l))); [lia|]. eexists. split; [done|]. split; [by apply write_length|].
    by apply write_within.
  - cbn in H. lia.
Qed.
(** What is consumed does not change the rest. *)
Lemma consume_spec r s a b : sized s -> sized (consume r s a b) /\ length (contents (consume r s a b)) = length (contents s) /\
  forall i, i < a \/ b <= i -> contents (consume r s a b) !! i = contents s !! i.
Proof.
  intros Hs. destruct s as [v|file len app|]; [done| |done]. cbn [sized] in Hs. subst len. unfold consume. destruct r; [done|].
  destruct (Nat.ltb_spec b a), (Nat.ltb_spec (length file) b); [done..|]. cbn [orb]. destruct (Nat.eqb_spec (b - a) 0); [done|].
  cbn [sized contents]. assert (E : length (take a file ++ replicate (length file `min` b - length file `min` a) zero ++ drop b file) = length file).
  { rewrite !length_app, length_take, length_replicate, length_drop. lia. }
  split; [done|]. split; [done|]. intros i [Hi|Hi].
  - rewrite lookup_app_l by (rewrite length_take; lia). by rewrite lookup_take_lt.
  - rewrite lookup_app_r by (rewrite length_take; lia). rewrite lookup_app_r by (rewrite length_take, length_replicate; lia).
    rewrite lookup_drop, length_take, length_replicate. f_equal. lia.
Qed.

End Store.
Arguments BackingStore A : clear implicits.
Arguments Empty {A}.

(** ** The files that describe a pool *)

Local Open Scope Z_scope.

Definition SEED_SIZE : nat := 32.

Record MetaData := mkMeta {
  m_seed1 : list Z; m_pos1 : Z; m_seed2 : list Z; m_pos2 : Z; m_total : Z; party_id_byte : Z; m_cursor : Z; m_field_bytes : Z
}.

Definition CURSOR_OFFSET : nat := SEED_SIZE + 16 + SEED_SIZE + 16 + 8 + 1.

(** [as u64], [as u32] cut the higher bits; [to_le_bytes] does. *)
Definition write_meta (meta : MetaData) : list Z :=
  m_seed1 meta ++ to_le_bytes 16 (m_pos1 meta) ++ m_seed2 meta ++ to_le_bytes 16 (m_pos2 meta) ++ to_le_bytes 8 (m_total meta) ++
  [party_id_byte meta] ++ to_le_bytes 8 (m_cursor meta) ++ to_le_bytes 4 (m_field_bytes meta).

(** [read_exact] of the next [n] bytes: they, and what follows *)
Definition read_exact (n : nat) (file : list Z) : option (list Z * list Z) :=
  if Nat.leb n (length file) then Some (take n file, drop n file) else None.
Local Notation "'let*' p := m 'in' k" := (match m with Some p => k | None => None end) (at level 10, p pattern, m at level 100, k at level 200).

Definition read_meta (file : list Z) : option MetaData :=
  let* (seed1, f) := read_exact SEED_SIZE file in
  let* (pos1, f) := read_exact 16 f in
  let* (seed2, f) := read_exact SEED_SIZE f in
  let* (pos2, f) := read_exact 16 f in
  let* (total, f) := read_exact 8 f in
  let* (id, f) := read_exact 1 f in
  let* (cursor, f) := read_exact 8 f in
  let* (field_bytes, _) := read_exact 4 f in
  Some (mkMeta seed1 (from_le_bytes pos1) seed2 (from_le_bytes pos2) (from_le_bytes total) (default 0 (head id)) (from_le_bytes cursor) (from_le_bytes field_bytes)).

(** [update_cursor], with its feature *)
Definition update_cursor (reuse_preproc : bool) (file : list Z) (cursor : Z) : list Z :=
  if reuse_preproc then file else file_write_all_at 0 file CURSOR_OFFSET (to_le_bytes 8 cursor).

Definition party_id_to_byte (id : PartyID) : Z := match id with ID0 => 0 | ID1 => 1 | ID2 => 2 end.
Definition byte_to_party_id (b : Z) : option PartyID := if b =? 0 then Some ID0 else if b =? 1 then Some ID1 else if b =? 2 then Some ID2 else None.

(** [EdaBitsPrecacheMeta] *)
Record EdaBitsPrecacheMeta := mkPrecacheMeta {
  pm_seed1 : list Z; pm_pos1 : Z; pm_seed2 : list Z; pm_pos2 : Z; pm_field_bytes : Z; pm_total : Z; pm_start_cursor : Z; pm_len : Z; pm_party : Z
}.
Definition write_precache_meta (meta : EdaBitsPrecacheMeta) : list Z :=
  pm_seed1 meta ++ to_le_bytes 16 (pm_pos1 meta) ++ pm_seed2 meta ++ to_le_bytes 16 (pm_pos2 meta) ++ to_le_bytes 8 (pm_field_bytes meta) ++
  to_le_bytes 8 (pm_total meta) ++ to_le_bytes 8 (pm_start_cursor meta) ++ to_le_bytes 8 (pm_len meta) ++ [pm_party meta].
Definition read_precache_meta (file : list Z) : option EdaBitsPrecacheMeta :=
  let* (seed1, f) := read_exact SEED_SIZE file in
  let* (pos1, f) := read_exact 16 f in
  let* (seed2, f) := read_exact SEED_SIZE f in
  let* (pos2, f) := read_exact 16 f in
  let* (field_bytes, f) := read_exact 8 f in
  let* (total, f) := read_exact 8 f in
  let* (start_cursor, f) := read_exact 8 f in
  let* (len, f) := read_exact 8 f in
  let* (id, _) := read_exact 1 f in
  Some (mkPrecacheMeta seed1 (from_le_bytes pos1) seed2 (from_le_bytes pos2) (from_le_bytes field_bytes) (from_le_bytes total) (from_le_bytes start_cursor)
          (from_le_bytes len) (default 0 (head id))).

(** ** Round trips *)

(** The values fit their fields. *)
Definition fits (n : nat) (z : Z) : Prop := 0 <= z < 256 ^ Z.of_nat n.
Record meta_ok (m : MetaData) : Prop := {
  mo_seeds : length (m_seed1 m) = SEED_SIZE /\ length (m_seed2 m) = SEED_SIZE;
  mo_pos : fits 16 (m_pos1 m) /\ fits 16 (m_pos2 m);
  mo_counts : fits 8 (m_total m) /\ fits 8 (m_cursor m) /\ fits 4 (m_field_bytes m)
}.
Record precache_meta_ok (m : EdaBitsPrecacheMeta) : Prop := {
  po_seeds : length (pm_seed1 m) = SEED_SIZE /\ length (pm_seed2 m) = SEED_SIZE;
  po_pos : fits 16 (pm_pos1 m) /\ fits 16 (pm_pos2 m);
  po_counts : fits 8 (pm_field_bytes m) /\ fits 8 (pm_total m) /\ fits 8 (pm_start_cursor m) /\ fits 8 (pm_len m)
}.

Lemma read_exact_app n (l r : list Z) : length l = n -> read_exact n (l ++ r) = Some (l, r).
Proof.
  intros <-. unfold read_exact. rewrite length_app. destruct (Nat.leb_spec (length l) (length l + length r)); [|lia].
  by rewrite take_app_length, drop_app_length.
Qed.
Lemma read_exact_all n (l : list Z) : length l = n -> read_exact n l = Some (l, []).
Proof. intros H. rewrite <- (app_nil_r l) at 1. by apply read_exact_app. Qed.
Lemma from_le_fits n z : fits n z -> from_le_bytes (to_le_bytes n z) = z.
Proof. intros H. rewrite from_to_le_bytes. by apply Z.mod_small. Qed.

Lemma read_write_meta m : meta_ok m -> read_meta (write_meta m) = Some m.
Proof.
  intros [[S1 S2] [P1 P2] (C1 & C2 & C3)]. unfold read_meta, write_meta. rewrite read_exact_app by done.
  rewrite read_exact_app by (by rewrite to_le_bytes_length). rewrite read_exact_app by done. do 2 (rewrite read_exact_app by (by rewrite to_le_bytes_length)).
  rewrite read_exact_app by done. rewrite read_exact_app by (by rewrite to_le_bytes_length). rewrite read_exact_all by (by rewrite to_le_bytes_length).
  rewrite !from_le_fits by done. by destruct m.
Qed.

Lemma read_write_precache_meta m : precache_meta_ok m -> read_precache_meta (write_precache_meta m) = Some m.
Proof.
  intros [[S1 S2] [P1 P2] (C1 & C2 & C3 & C4)]. unfold read_precache_meta, write_precache_meta. rewrite read_exact_app by done.
  rewrite read_exact_app by (by rewrite to_le_bytes_length). rewrite read_exact_app by done. do 5 (rewrite read_exact_app by (by rewrite to_le_bytes_length)).
  rewrite read_exact_all by done. rewrite !from_le_fits by done. by destruct m.
Qed.

Definition with_cursor (m : MetaData) (c : Z) : MetaData :=
  mkMeta (m_seed1 m) (m_pos1 m) (m_seed2 m) (m_pos2 m) (m_total m) (party_id_byte m) c (m_field_bytes m).

(** Only the cursor changes. *)
Lemma update_write_meta m c : meta_ok m -> update_cursor false (write_meta m) c = write_meta (with_cursor m c).
Proof.
  intros [[S1 S2] _ _]. unfold update_cursor, write_meta.
  set (pre := m_seed1 m ++ to_le_bytes 16 (m_pos1 m) ++ m_seed2 m ++ to_le_bytes 16 (m_pos2 m) ++ to_le_bytes 8 (m_total m) ++ [party_id_byte m]).
  assert (Hpre : length pre = CURSOR_OFFSET) by (unfold pre; by rewrite !length_app, S1, S2, !to_le_bytes_length).
  assert (E : forall x y, m_seed1 m ++ to_le_bytes 16 (m_pos1 m) ++ m_seed2 m ++ to_le_bytes 16 (m_pos2 m) ++ to_le_bytes 8 (m_total m) ++ [party_id_byte m] ++ x ++ y = pre ++ x ++ y).
  { intros x y. unfold pre. by rewrite <- !app_assoc. }
  cbn [m_seed1 m_pos1 m_seed2 m_pos2 m_total party_id_byte m_cursor m_field_bytes with_cursor]. rewrite !E.
  rewrite write_within by (rewrite !length_app, !to_le_bytes_length; lia). rewrite take_app_length' by done. f_equal. f_equal.
  rewrite to_le_bytes_length, drop_app_ge by lia. rewrite Hpre. replace (CURSOR_OFFSET + 8 - CURSOR_OFFSET)%nat with 8%nat by lia.
  by rewrite drop_app_length' by (by rewrite to_le_bytes_length).
Qed.

Lemma read_exact_length n file l r : read_exact n file = Some (l, r) -> length file = (n + length r)%nat.
Proof. unfold read_exact. destruct (Nat.leb_spec n (length file)); intros [= <- <-]. rewrite length_drop. lia. Qed.
(** A file that was cut is not read. *)
Lemma read_meta_short file : (length file < CURSOR_OFFSET + 8 + 4)%nat -> read_meta file = None.
Proof.
  intros H. unfold read_meta.
  repeat (match goal with |- match read_exact ?n ?f with _ => _ end = _ => let E := fresh "E" in destruct (read_exact n f) as [[? ?]|] eqn:E; [apply read_exact_length in E|done] end).
  unfold CURSOR_OFFSET, SEED_SIZE in *. lia.
Qed.
Lemma party_id_round_trip id : byte_to_party_id (party_id_to_byte id) = Some id.
Proof. by destruct id. Qed.
