(* ===== verification/KeyStream.v ===== *)
(** * Seekable generators

    ChaCha generators are a stream of bytes for a seed, with a position in words of
    four bytes: [get_seed], [get_word_pos], [set_word_pos] and [fill_bytes] of
    [rand_chacha] are parameters (class [StreamRng]).  [seek_and_generate] and
    [parse_field] of [mpc-core/src/preprocessing/dabits.rs] read the stream at an
    offset. *)

From Stdlib Require Import ZArith Lia List Bool.
From stdpp Require Import base list.
From S2P Require Import Prelude Words Field Carry Ring2k MpcNet Rep3Ctx BackingStore.
Import ListNotations.
Local Open Scope Z_scope.

(** The bytes of a stream repeat after the last block; a position is any number. *)
Class StreamRng (F : Type) `{RO : RngOps F} := {
  get_seed : Rng -> Seed;
  get_word_pos : Rng -> Z;
  set_word_pos : Rng -> Z -> Rng;
  fill_bytes : nat -> Rng -> list Z * Rng;
  keystream : Seed -> Z -> Z;
  keystream_byte s i : 0 <= keystream s i < 256;
  fresh_seed s : get_seed (from_seed s) = s;
  fresh_pos s : get_word_pos (from_seed s) = 0;
  fill_fresh n s : fst (fill_bytes n (from_seed s)) = map (fun i => keystream s (Z.of_nat i)) (seq 0 n);
  fill_seek n s p : 0 <= p ->
    fst (fill_bytes n (set_word_pos (from_seed s) p)) = map (fun i => keystream s (4 * p + Z.of_nat i)) (seq 0 n)
}.

Section Stream.
Context {F : Type} `{JF : JoltField F} `{RO : !RngOps F} `{SR : !StreamRng F}.

(** [Rep3Rand::snapshot] *)
Definition snapshot (r : Rep3Rand) : Seed * Z * Seed * Z :=
  (get_seed (rng1 r), get_word_pos (rng1 r), get_seed (rng2 r), get_word_pos (rng2 r)).

Definition seek_and_generate (seed : Seed) (base_pos : Z) (byte_offset needed : nat) : list Z :=
  let word_offset := Z.of_nat (byte_offset / 4) in
  let skip := (byte_offset mod 4)%nat in
  let rng := set_word_pos (from_seed seed) (base_pos + word_offset) in
  drop skip (fst (fill_bytes (needed + skip) rng)).

(** [u64::from_le_bytes(lo) | u64::from_le_bytes(hi) << 64]; [None] is the panic of
    a slice out of range. *)
Definition parse_field (bytes : list Z) (start : nat) : option F :=
  if Nat.leb (start + 16) (length bytes) then
    let lo := from_le_bytes (slice bytes start (start + 8)) in
    let hi := from_le_bytes (slice bytes (start + 8) (start + 16)) in
    Some (of_Z (Z.lor (Z.shiftl hi 64) lo))
  else None.

(** [std::mem::size_of::<T>()] *)
Definition size_of (T : RingType) : nat :=
  match T with Bit => 1 | U8 => 1 | U16 => 2 | U32 => 4 | U64 => 8 | U128 => 16 | U34 => 8 | U66 => 16 end.
(** [IntRing2k::from_le_bytes] of [size_of] bytes *)
Definition ring_from_le_bytes (T : RingType) (bytes : list Z) : Z :=
  match T with
  | Bit => if default 0 (head bytes) =? 1 then 1 else 0
  | U34 => Z.land (from_le_bytes (take 5 bytes)) MASK34
  | U66 => Z.land (from_le_bytes (take 9 bytes)) MASK66
  | _ => from_le_bytes bytes
  end.

(** ** The bytes of a stream *)

(** [n] bytes from [off] bytes past the word position [pos] *)
Definition stream_bytes (s : Seed) (pos : Z) (off n : nat) : list Z :=
  map (fun i => keystream s (4 * pos + Z.of_nat (off + i))) (seq 0 n).

Lemma stream_bytes_length s pos off n : length (stream_bytes s pos off n) = n.
Proof. unfold stream_bytes. by rewrite length_map, length_seq. Qed.
Lemma map_seq_add {A} (f : nat -> A) k n : map f (seq k n) = map (fun i => f (k + i)%nat) (seq 0 n).
Proof.
  revert f k. induction n as [|n IH]; intros f k; [done|]. cbn [seq map]. rewrite Nat.add_0_r. f_equal.
  rewrite (IH f (S k)), (IH _ 1%nat). apply map_ext. intros i. f_equal. lia.
Qed.
Lemma stream_bytes_drop s pos off n k : drop k (stream_bytes s pos off (n + k)) = stream_bytes s pos (off + k) n.
Proof.
  unfold stream_bytes. rewrite skipn_map, Nat.add_comm, seq_app, drop_app_length' by (by rewrite length_seq).
  cbn [Nat.add]. rewrite (map_seq_add _ k). apply map_ext. intros i. do 3 f_equal. lia.
Qed.
Lemma stream_bytes_slice s pos off n a b : (a <= b)%nat -> (b <= n)%nat ->
  slice (stream_bytes s pos off n) a b = stream_bytes s pos (off + a) (b - a).
Proof.
  intros Ha Hb. unfold slice. replace n with (n - a + a)%nat by lia. rewrite stream_bytes_drop. unfold stream_bytes.
  rewrite firstn_map. f_equal. replace (n - a)%nat with ((b - a) + (n - b))%nat by lia. rewrite seq_app.
  by rewrite take_app_length' by (by rewrite length_seq).
Qed.

Lemma seek_spec s pos off n : 0 <= pos -> seek_and_generate s pos off n = stream_bytes s pos off n.
Proof.
  intros Hp. unfold seek_and_generate. rewrite fill_seek by lia.
  pose proof (Nat.div_mod off 4 ltac:(lia)) as E. set (q := (off / 4)%nat) in *. set (r := (off mod 4)%nat) in *.
  transitivity (drop r (stream_bytes s pos (4 * q) (n + r))).
  - f_equal. unfold stream_bytes. apply map_ext. intros i. f_equal. lia.
  - rewrite stream_bytes_drop. f_equal. lia.
Qed.

Lemma parse_spec s pos off n start : (start + 16 <= n)%nat ->
  parse_field (stream_bytes s pos off n) start = Some (of_Z (Z.lor (Z.shiftl (from_le_bytes (stream_bytes s pos (off + start + 8) 8)) 64)
    (from_le_bytes (stream_bytes s pos (off + start) 8)))).
Proof.
  intros H. unfold parse_field. rewrite stream_bytes_length. destruct (Nat.leb_spec (start + 16) n); [|lia].
  rewrite !stream_bytes_slice by lia. replace (start + 8 - start)%nat with 8%nat by lia. replace (start + 16 - (start + 8))%nat with 8%nat by lia.
  by rewrite Nat.add_assoc.
Qed.

(** ** Elements are words *)

Lemma from_le_bytes_range l : Forall (fun b => 0 <= b < 256) l -> 0 <= from_le_bytes l < 256 ^ Z.of_nat (length l).
Proof.
  induction 1 as [|b l Hb Hl IH]; cbn [from_le_bytes length]; [done|]. rewrite Nat2Z.inj_succ, Z.pow_succ_r by lia. nia.
Qed.
Lemma stream_bytes_range s pos off n : Forall (fun b => 0 <= b < 256) (stream_bytes s pos off n).
Proof. apply Forall_map, Forall_forall. intros i _. apply keystream_byte. Qed.

Lemma ring_from_stream_word T s pos off : word (K T) (ring_from_le_bytes T (stream_bytes s pos off (size_of T))).
Proof.
  pose proof (from_le_bytes_range _ (stream_bytes_range s pos off (size_of T))) as H. rewrite stream_bytes_length in H.
  unfold word. destruct T; try exact H; cbn [ring_from_le_bytes].
  - by destruct (_ =? 1).
  - unfold MASK34. rewrite Z.shiftl_1_l. change (2 ^ 34 - 1) with (Z.ones 34). rewrite Z.land_ones by lia. apply Z.mod_pos_bound. lia.
  - unfold MASK66. rewrite Z.shiftl_1_l. change (2 ^ 66 - 1) with (Z.ones 66). rewrite Z.land_ones by lia. apply Z.mod_pos_bound. lia.
Qed.

End Stream.
