(* ===== verification/LazyEdaBits.v ===== *)
(** * Pools of correlated bits

    [LazyEdaBits] and [random_edabits_lazy] of [mpc-core/src/preprocessing/edabits.rs]:
    parties 0 and 1 keep the state of a generator and regenerate the correlated bits
    when they are taken, party 2 stores what party 0 sent it; a cache of regenerated
    items, reservations of ranges, and the extension of what party 2 stores.  Counts
    ([usize]) are natural numbers; [persisted] is the cursor in the file of the
    pool, if it has one. *)

From Stdlib Require Import ZArith Lia List Bool.
From stdpp Require Import base list.
From S2P Require Import Prelude Words Field Carry Ring2k MpcNet Rep3Ctx Rep3Rules Rep3Share Rep3Arith Rep3Ring Rep3Preproc BackingStore KeyStream.
Import ListNotations.
Local Open Scope nat_scope.
Local Open Scope mpc_scope.

(** [Ok], [Err], a panic *)
Inductive Outcome (A : Type) := Ret (a : A) | Refuse | Fault.
Arguments Ret {A} _.
Arguments Refuse {A}.
Arguments Fault {A}.
Definition obind {A R} (m : Outcome A) (k : A -> Outcome R) : Outcome R :=
  match m with Ret a => k a | Refuse => Refuse | Fault => Fault end.
Notation "x <! m ;; k" := (obind m (fun x => k)) (at level 100, m at next level, right associativity).
(** [unwrap_or_else(|e| panic!(..))] and [?] *)
Definition or_panic {A} (o : option A) : Outcome A := match o with Some a => Ret a | None => Fault end.
Definition or_err {A} (o : option A) : Outcome A := match o with Some a => Ret a | None => Refuse end.

Section Pools.
Context {F : Type} `{JF : JoltField F} `{PF : !PrimeField F} `{RO : !RngOps F} `{SR : !StreamRng F} `{B : Build}.
(** the feature [reuse-preproc], and [size_of::<F>()] *)
Context (reuse_preproc : bool) (size_of_F : nat).

Definition outcome_io {A} (o : Outcome A) : MPC A := match o with Ret a => mret a | Refuse => io_err | Fault => crash end.

(** [MODULUS_BIT_SIZE.div_ceil(8)] *)
Definition field_bytes_of : nat := Z.to_nat ((@MODULUS_BIT_SIZE F JF PF + 7) / 8).

(** ** LazyEdaBits *)

Inductive EdaBitsStorageMode := NoStorage | P2Authoritative | P01Precache (start_cursor len : nat).

Record LazyEdaBits := mkLazyEda {
  seed1 : Seed; pos1 : Z; seed2 : Seed; pos2 : Z;
  total : nat; field_bytes : nat; cursor : nat;
  alphas_flat_store : BackingStore F; storage_mode : EdaBitsStorageMode; gamma_store : BackingStore Z;
  party_id : PartyID; persisted : option nat
}.

Definition lazy_empty (seed0 : Seed) (id : PartyID) : LazyEdaBits :=
  mkLazyEda seed0 0 seed0 0 0 field_bytes_of 0 Empty NoStorage Empty id None.
Definition lazy_new_with_store (s1 : Seed) (p1 : Z) (s2 : Seed) (p2 : Z) (tot : nat) (store : BackingStore F) (mode : EdaBitsStorageMode)
    (gstore : BackingStore Z) (id : PartyID) : LazyEdaBits :=
  mkLazyEda s1 p1 s2 p2 tot field_bytes_of 0 store mode gstore id None.
Definition lazy_new (s1 : Seed) (p1 : Z) (s2 : Seed) (p2 : Z) (tot : nat) (flat : list F) (id : PartyID) : LazyEdaBits :=
  lazy_new_with_store s1 p1 s2 p2 tot (from_vec flat) (match id with ID2 => P2Authoritative | _ => NoStorage end) Empty id.

Definition remaining (l : LazyEdaBits) : nat := total l - cursor l.

Definition with_stores (l : LazyEdaBits) (store : BackingStore F) (mode : EdaBitsStorageMode) (gstore : BackingStore Z) : LazyEdaBits :=
  mkLazyEda (seed1 l) (pos1 l) (seed2 l) (pos2 l) (total l) (field_bytes l) (cursor l) store mode gstore (party_id l) (persisted l).
(** [self.cursor += n; self.persist_cursor()]; the file keeps its cursor with [reuse-preproc]. *)
Definition advance (l : LazyEdaBits) (n : nat) : LazyEdaBits :=
  mkLazyEda (seed1 l) (pos1 l) (seed2 l) (pos2 l) (total l) (field_bytes l) (cursor l + n) (alphas_flat_store l) (storage_mode l) (gamma_store l) (party_id l)
    (match persisted l with Some c => Some (if reuse_preproc then c else cursor l + n) | None => None end).

(** [generate_into_from_state_with_min_par_len]: the [gammas] and [alphas_flat] of [n] items *)
Definition generate (T : RingType) (s1 : Seed) (p1 : Z) (s2 : Seed) (p2 : Z) (fb : nat) (id : PartyID) (cursor_base n : nat) : option (list Z * list F) :=
  if Nat.eqb n 0 then Some ([], [])
  else
    let t_bytes := size_of T in
    let k := Z.to_nat (K T) in
    let stride := t_bytes + k * fb in
    let interleaved :=
      match id with
      | ID0 => seek_and_generate s1 p1 (cursor_base * stride) (n * stride)
      | _ => seek_and_generate s2 p2 (cursor_base * stride) (n * stride)
      end in
    let g2_bytes := match id with ID0 => seek_and_generate s2 p2 (cursor_base * t_bytes) (n * t_bytes) | _ => [] end in
    let gammas :=
      match id with
      | ID0 => map (fun i => ring_xor T (ring_from_le_bytes T (slice interleaved (i * stride) (i * stride + t_bytes)))
                                        (ring_from_le_bytes T (slice g2_bytes (i * t_bytes) (i * t_bytes + t_bytes)))) (seq 0 n)
      | _ => replicate n 0%Z
      end in
    match all_some (map (fun idx => parse_field interleaved (idx / k * stride + t_bytes + idx mod k * fb)) (seq 0 (n * k))) with
    | Some alphas => Some (gammas, alphas)
    | None => None
    end.
Definition lazy_generate (T : RingType) (l : LazyEdaBits) (cursor_base n : nat) : option (list Z * list F) :=
  generate T (seed1 l) (pos1 l) (seed2 l) (pos2 l) (field_bytes l) (party_id l) cursor_base n.

(** [take_store_range_into] into zeros; what is read, and the store after *)
Definition take_store_range {A} (zero : A) (store : BackingStore A) (start end_ : nat) : option (list A * BackingStore A) :=
  match read_consume_into_slice store start end_ (replicate (end_ - start) zero) with
  | Some data => Some (data, if reuse_preproc then store else consume zero reuse_preproc store start end_)
  | None => None
  end.

(** [fill_p2_store_into] *)
Definition fill_p2_store (T : RingType) (l : LazyEdaBits) (cursor_base n : nat) : Outcome (list F * LazyEdaBits) :=
  let k := Z.to_nat (K T) in
  r <! or_panic (take_store_range fzero (alphas_flat_store l) (cursor_base * k) (cursor_base * k + n * k)) ;;
  Ret (fst r, with_stores l (snd r) (storage_mode l) (gamma_store l)).

(** [fill_precache_into]: how many items were cached, and they *)
Definition fill_precache (T : RingType) (l : LazyEdaBits) (cursor_base n : nat) : Outcome (nat * list Z * list F * LazyEdaBits) :=
  match storage_mode l with
  | P01Precache start_cursor len =>
      if Nat.ltb cursor_base start_cursor || Nat.leb (start_cursor + len) cursor_base then Ret (0, [], [], l)
      else
        let cached := Nat.min (start_cursor + len - cursor_base) n in
        let k := Z.to_nat (K T) in
        let alpha_start := (cursor_base - start_cursor) * k in
        a <! or_panic (take_store_range fzero (alphas_flat_store l) alpha_start (alpha_start + cached * k)) ;;
        match party_id l with
        | ID0 =>
            let gamma_start := cursor_base - start_cursor in
            g <! or_panic (take_store_range 0%Z (gamma_store l) gamma_start (gamma_start + cached)) ;;
            Ret (cached, fst g, fst a, with_stores l (snd a) (storage_mode l) (snd g))
        | _ => Ret (cached, replicate cached 0%Z, fst a, with_stores l (snd a) (storage_mode l) (gamma_store l))
        end
  | _ => Ret (0, [], [], l)
  end.

(** [take_batch_into]; [take_batch] is the same into new vectors. *)
Definition take_batch (T : RingType) (l : LazyEdaBits) (n : nat) : Outcome (EdaBitsBatch F * LazyEdaBits) :=
  if Nat.ltb (total l) (cursor l + n) then Refuse
  else if Nat.eqb n 0 then Ret (mkEdaBatch [] [], l)
  else
    match party_id l with
    | ID2 =>
        r <! fill_p2_store T l (cursor l) n ;;
        Ret (mkEdaBatch (replicate n 0%Z) (fst r), advance (snd r) n)
    | _ =>
        r <! fill_precache T l (cursor l) n ;;
        let '(precached, gs, alphas, l') := r in
        if Nat.ltb precached n then
          g <! or_panic (lazy_generate T l' (cursor l + precached) (n - precached)) ;;
          Ret (mkEdaBatch (gs ++ fst g) (alphas ++ snd g), advance l' n)
        else Ret (mkEdaBatch gs alphas, advance l' n)
    end.

(** ** Reservations *)

(** [EdaBitsRangeView]; the views are the stores. *)
Record EdaBitsRangeView := mkView {
  v_start_cursor : nat; v_len : nat; v_party : PartyID; v_field_bytes : nat;
  v_cached_start : nat; v_cached_len : nat; v_store_start : nat;
  v_alpha : option (BackingStore F); v_gamma : option (BackingStore Z);
  v_seed1 : Seed; v_pos1 : Z; v_seed2 : Seed; v_pos2 : Z
}.
Record EdabitsReserveRange := mkReserve { rr_cursor_base : nat; rr_len : nat; alpha_consume : option (nat * nat); gamma_consume : option (nat * nat) }.

Definition cached_in_range (cursor_base start_cursor len n : nat) : nat :=
  if Nat.ltb cursor_base start_cursor || Nat.leb (start_cursor + len) cursor_base then 0 else Nat.min (start_cursor + len - cursor_base) n.

(** [reserve_range] *)
Definition reserve_range (T : RingType) (l : LazyEdaBits) (n : nat) : Outcome (EdaBitsRangeView * EdabitsReserveRange) :=
  if Nat.ltb (total l) (cursor l + n) then Refuse
  else
    let k := Z.to_nat (K T) in
    let c := cursor l in
    let view cs cl ss av gv := mkView c n (party_id l) (field_bytes l) cs cl ss av gv (seed1 l) (pos1 l) (seed2 l) (pos2 l) in
    match storage_mode l with
    | P2Authoritative => Ret (view c n 0 (Some (alphas_flat_store l)) None, mkReserve c n (Some (c * k, c * k + n * k)) None)
    | P01Precache start_cursor len =>
        let cached := cached_in_range c start_cursor len n in
        let some := Nat.ltb 0 cached in
        Ret (view start_cursor len start_cursor (if some then Some (alphas_flat_store l) else None)
               (if some then match party_id l with ID0 => Some (gamma_store l) | _ => None end else None),
             mkReserve c n (if some then Some ((c - start_cursor) * k, (c - start_cursor) * k + cached * k) else None)
               (if some then Some (c - start_cursor, c - start_cursor + cached) else None))
    | NoStorage => Ret (view 0 0 0 None None, mkReserve c n None None)
    end.

(** [EdaBitsReservation::range_view] *)
Definition range_view (v : EdaBitsRangeView) (start len : nat) : Outcome EdaBitsRangeView :=
  if debug_assertions && negb (Nat.leb (start + len) (v_len v)) then Fault
  else Ret (mkView (v_start_cursor v + start) len (v_party v) (v_field_bytes v) (v_cached_start v) (v_cached_len v) (v_store_start v)
    (v_alpha v) (v_gamma v) (v_seed1 v) (v_pos1 v) (v_seed2 v) (v_pos2 v)).

(** [fill_into_par_safe].  The subtraction of the cached part wraps when the view
    starts past it. *)
Definition view_cached (v : EdaBitsRangeView) (n : nat) : Outcome nat :=
  if Nat.eqb (v_cached_len v) 0 || Nat.ltb (v_start_cursor v) (v_cached_start v) then Ret 0
  else if Nat.ltb (v_cached_start v + v_cached_len v) (v_start_cursor v)
  then if overflow_checks then Fault else Ret (Z.to_nat (Z.min (2 ^ 64 - Z.of_nat (v_start_cursor v - (v_cached_start v + v_cached_len v))) (Z.of_nat n)))
  else Ret (Nat.min (v_cached_start v + v_cached_len v - v_start_cursor v) n).
Definition fill_into_par_safe (T : RingType) (v : EdaBitsRangeView) : Outcome (EdaBitsBatch F) :=
  let n := v_len v in
  let k := Z.to_nat (K T) in
  if Nat.eqb n 0 then Ret (mkEdaBatch [] [])
  else
    cached <! view_cached v n ;;
    part <! (if Nat.ltb 0 cached then
        let alpha_start := (v_start_cursor v - v_store_start v) * k in
        av <! or_err (v_alpha v) ;;
        alphas <! or_err (view_read_into_slice av alpha_start (alpha_start + cached * k) (replicate (cached * k) fzero)) ;;
        match v_party v with
        | ID0 =>
            gv <! or_err (v_gamma v) ;;
            gs <! or_err (view_read_into_slice gv (v_start_cursor v - v_store_start v) (v_start_cursor v - v_store_start v + cached) (replicate cached 0%Z)) ;;
            Ret (gs, alphas)
        | _ => Ret (replicate cached 0%Z, alphas)
        end
      else Ret ([], [])) ;;
    if Nat.ltb cached n then
      match v_party v with
      | ID2 => Refuse
      | _ =>
          g <! or_panic (generate T (v_seed1 v) (v_pos1 v) (v_seed2 v) (v_pos2 v) (v_field_bytes v) (v_party v) (v_start_cursor v + cached) (n - cached)) ;;
          Ret (mkEdaBatch (fst part ++ fst g) (snd part ++ snd g))
      end
    else Ret (mkEdaBatch (fst part) (snd part)).

(** [finalize_reserved_range] *)
Definition finalize_reserved_range (l : LazyEdaBits) (range : EdabitsReserveRange) : Outcome LazyEdaBits :=
  if debug_assertions && negb (Nat.eqb (cursor l) (rr_cursor_base range)) then Fault
  else
    let store := match alpha_consume range with Some (s, e) => consume fzero reuse_preproc (alphas_flat_store l) s e | None => alphas_flat_store l end in
    let gstore := match gamma_consume range with Some (s, e) => consume 0%Z reuse_preproc (gamma_store l) s e | None => gamma_store l end in
    Ret (advance (with_stores l store (storage_mode l) gstore) (rr_len range)).

(** ** The cache of parties 0 and 1 *)

(** [clear_precache_runtime] *)
Definition clear_precache_runtime (l : LazyEdaBits) : LazyEdaBits :=
  match party_id l with
  | ID2 => with_stores l (alphas_flat_store l) P2Authoritative Empty
  | _ => with_stores l Empty NoStorage Empty
  end.
(** [clear_precache_files], the files apart *)
Definition clear_precache_files (l : LazyEdaBits) : LazyEdaBits := match party_id l with ID2 => l | _ => clear_precache_runtime l end.

(** [has_matching_precache] *)
Definition has_matching_precache (T : RingType) (l : LazyEdaBits) (requested : nat) : bool :=
  let requested := Nat.min requested (remaining l) in
  if Nat.eqb requested 0 then false
  else
    match storage_mode l with
    | P01Precache start_cursor len =>
        negb (negb (Nat.eqb start_cursor (cursor l)) || Nat.ltb len requested) &&
        negb (Nat.ltb (store_len (alphas_flat_store l)) (requested * Z.to_nat (K T))) &&
        match party_id l with ID0 => negb (Nat.ltb (store_len (gamma_store l)) requested) | _ => true end
    | _ => false
    end.

Definition precache_chunk_len (T : RingType) (requested : nat) : nat :=
  let alpha_bytes_per_item := Nat.max (Z.to_nat (K T) * size_of_F) 1 in
  let target_items := Z.to_nat (96 * 1024 * 1024) / alpha_bytes_per_item in
  Nat.min requested (Nat.max (Nat.max target_items (16 * 1024)) 1).

(** One round of the loop of [prepare_precache] *)
Definition precache_step (T : RingType) (l : LazyEdaBits) (requested chunk_len offset : nat) (stores : BackingStore F * BackingStore Z) :
    Outcome (BackingStore F * BackingStore Z) :=
  let len := Nat.min (requested - offset) chunk_len in
  g <! or_panic (lazy_generate T l (cursor l + offset) len) ;;
  a <! or_err (writer_write_at fzero (fst stores) (offset * Z.to_nat (K T)) (snd g)) ;;
  gs <! match party_id l with
        | ID0 => or_err (writer_write_at 0%Z (snd stores) offset (fst g))
        | _ => Ret (snd stores)
        end ;;
  Ret (a, gs).

(** [for offset in (0..requested).step_by(chunk_len)] *)
Fixpoint precache_loop (T : RingType) (l : LazyEdaBits) (requested chunk_len : nat) (fuel offset : nat) (stores : BackingStore F * BackingStore Z) :
    Outcome (BackingStore F * BackingStore Z) :=
  match fuel with
  | O => Ret stores
  | S fuel =>
      if Nat.ltb offset requested then
        stores <! precache_step T l requested chunk_len offset stores ;;
        precache_loop T l requested chunk_len fuel (offset + chunk_len) stores
      else Ret stores
  end.

(** [prepare_precache] *)
Definition prepare_precache (T : RingType) (l : LazyEdaBits) (requested : nat) : Outcome LazyEdaBits :=
  if match party_id l with ID2 => true | _ => false end || Nat.eqb requested 0 || Nat.eqb (remaining l) 0 then Ret (clear_precache_files l)
  else if Nat.ltb (remaining l) requested then Refuse
  else if has_matching_precache T l requested then Ret l
  else
    let alpha_store := create_file_backed_sized fzero (requested * Z.to_nat (K T)) in
    let gstore := match party_id l with ID0 => create_file_backed_sized 0%Z requested | _ => Empty end in
    stores <! precache_loop T l requested (precache_chunk_len T requested) requested 0 (alpha_store, gstore) ;;
    Ret (with_stores l (fst stores) (P01Precache (cursor l) requested) (snd stores)).

(** [apply_extension] *)
Definition apply_extension (l : LazyEdaBits) (deficit : nat) (alpha2_ext : list F) : LazyEdaBits :=
  if Nat.eqb deficit 0 then l
  else
    let store := extend fzero (alphas_flat_store l) alpha2_ext in
    let l := mkLazyEda (seed1 l) (pos1 l) (seed2 l) (pos2 l) (total l + deficit) (field_bytes l) (cursor l) store (storage_mode l) (gamma_store l) (party_id l) (persisted l) in
    match party_id l with ID2 => l | _ => clear_precache_files l end.

(** ** Generation ([random_edabits_lazy]) *)

(** [alpha_2] of the [num] items, from the bytes of the two streams *)
Definition alpha2_item (T : RingType) (fb : nat) (bytes1 g2_bytes : list Z) (i j : nat) : option F :=
  let t_bytes := size_of T in
  let base := i * (t_bytes + Z.to_nat (K T) * fb) in
  let gamma := ring_xor T (ring_from_le_bytes T (slice bytes1 base (base + t_bytes)))
                          (ring_from_le_bytes T (slice g2_bytes (i * t_bytes) ((i + 1) * t_bytes))) in
  match parse_field bytes1 (base + t_bytes + j * fb) with
  | Some alpha_1 => Some (fsub (of_Z (Z.b2z (get_bit T gamma (Z.of_nat j) =? 1)%Z)) alpha_1)
  | None => None
  end.
Definition alpha2_all (T : RingType) (fb num : nat) (bytes1 g2_bytes : list Z) : option (list F) :=
  let k := Z.to_nat (K T) in
  all_some (map (fun idx => alpha2_item T fb bytes1 g2_bytes (idx / k) (idx mod k)) (seq 0 (num * k))).

(** [seed0] is the seed of zeros of an empty pool. *)
Definition random_edabits_lazy (T : RingType) (seed0 : Seed) (num : nat) : MPC LazyEdaBits :=
  id <~ get_id ;;
  if Nat.eqb num 0 then mret (lazy_empty seed0 id)
  else
    eda_rand <~ with_rand Rep3Rand_fork ;;
    let '(s1, p1, s2, p2) := snapshot eda_rand in
    let fb := field_bytes_of in
    match id with
    | ID0 =>
        let all_bytes1 := fst (fill_bytes (num * (size_of T + Z.to_nat (K T) * fb)) (rng1 eda_rand)) in
        let g2_bytes := fst (fill_bytes (num * size_of T) (rng2 eda_rand)) in
        alpha_2_all <~ indexed (alpha2_all T fb num all_bytes1 g2_bytes) ;;
        network (fun _ => send_many ID2 alpha_2_all) ;~
        mret (lazy_new s1 p1 s2 p2 num [] id)
    | ID1 => mret (lazy_new s1 p1 s2 p2 num [] id)
    | ID2 =>
        alpha_2_all <~ network (fun _ => recv_many ID0) ;;
        mdebug_assert (Nat.eqb (length alpha_2_all) (num * Z.to_nat (K T))) ;~
        mret (lazy_new s1 p1 s2 p2 num alpha_2_all id)
    end.

End Pools.
