(* ===== verification/LazyEdaBitsCorrect.v ===== *)
(** * Pools of correlated bits: what is taken

    Every way to take items from a pool (regenerated, from the cache, from the store
    of party 2, reserved) gives the items the stream of the pool has at the
    cursor, and the three parties' items are correlated. *)

From Stdlib Require Import ZArith Lia List Bool Ring.
From stdpp Require Import base list.
From S2P Require Import Prelude Words Field Carry Ring2k MpcNet Rep3Ctx Rep3Rules Rep3Share Rep3Arith Rep3Correct Rep3BinCorrect Rep3Ring Rep3RingCorrect Rep3RingConv Rep3RingMany Rep3Preproc Rep3PreprocCorrect BackingStore KeyStream LazyEdaBits.
Import ListNotations.
Local Open Scope nat_scope.
Local Open Scope mpc_scope.

Section Pools.
Context {F : Type} `{JF : JoltField F} `{PF : !PrimeField F} `{RO : !RngOps F} `{SR : !StreamRng F} `{B : Build}.
Context (reuse_preproc : bool) (size_of_F : nat) (T : RingType).
Add Ring F_ring_pools : F_ring.

Abbreviation k := (Z.to_nat (K T)).
Abbreviation t := (size_of T).

Lemma k_pos : 0 < k.
Proof. pose proof (K_pos T). lia. Qed.

(** ** The items of a stream *)

Section Stream.
Context (fb : nat).
Abbreviation stride := (t + k * fb).

Definition gamma_at (s1 : Seed) (p1 : Z) (s2 : Seed) (p2 : Z) (i : nat) : Z :=
  ring_xor T (ring_from_le_bytes T (stream_bytes s1 p1 (i * stride) t)) (ring_from_le_bytes T (stream_bytes s2 p2 (i * t) t)).
Definition alpha_at (s : Seed) (p : Z) (i j : nat) : F :=
  let off := i * stride + t + j * fb in
  of_Z (Z.lor (Z.shiftl (from_le_bytes (stream_bytes s p (off + 8) 8)) 64) (from_le_bytes (stream_bytes s p off 8))).
Definition alphas_at (s : Seed) (p : Z) (c n : nat) : list F := map (fun idx => alpha_at s p (c + idx / k) (idx mod k)) (seq 0 (n * k)).

Lemma alphas_at_app s p c m n : alphas_at s p c (m + n) = alphas_at s p c m ++ alphas_at s p (c + m) n.
Proof.
  pose proof k_pos. unfold alphas_at. rewrite Nat.mul_add_distr_r, seq_app, map_app. f_equal. rewrite Nat.add_0_l, map_seq_add. apply map_ext. intros i.
  rewrite Nat.div_add_l, (Nat.add_comm (m * k)), Nat.Div0.mod_add by lia. f_equal. lia.
Qed.
Lemma alphas_at_length s p c n : length (alphas_at s p c n) = n * k.
Proof. unfold alphas_at. by rewrite length_map, length_seq. Qed.
Lemma alphas_at_lookup s p c n i j : i < n -> j < k -> alphas_at s p c n !! (i * k + j) = Some (alpha_at s p (c + i) j).
Proof.
  intros Hi Hj. unfold alphas_at. rewrite list_lookup_fmap, lookup_seq_lt by nia. cbn. f_equal.
  rewrite Nat.div_add_l, Nat.div_small, Nat.add_0_r by lia. by rewrite (Nat.add_comm (i * k)), Nat.Div0.mod_add, Nat.mod_small by lia.
Qed.
(** A vector with these elements is it. *)
Lemma alphas_at_eq s p c n (l : list F) : length l = n * k -> (forall i j, i < n -> j < k -> l !! (i * k + j) = Some (alpha_at s p (c + i) j)) -> l = alphas_at s p c n.
Proof.
  intros Hl H. pose proof k_pos. apply list_eq. intros idx. destruct (decide (idx < n * k)) as [Hi|Hi].
  - rewrite (Nat.div_mod idx k) by lia. rewrite (Nat.mul_comm k). pose proof (Nat.mod_upper_bound idx k ltac:(lia)).
    pose proof (Nat.Div0.div_lt_upper_bound idx k n ltac:(lia)). rewrite H, alphas_at_lookup by lia. done.
  - rewrite !lookup_ge_None_2; [done|rewrite alphas_at_length; lia|lia].
Qed.

Lemma gamma_at_word s1 p1 s2 p2 i : word (K T) (gamma_at s1 p1 s2 p2 i).
Proof.
  unfold gamma_at. rewrite ring_xor_word by apply ring_from_stream_word. apply bword_lxor; [apply K_nonneg|apply ring_from_stream_word..].
Qed.

Context (Hfb : 16 <= fb).

Lemma alpha_in_range n idx : idx < n * k -> idx / k * stride + t + idx mod k * fb + 16 <= n * stride.
Proof.
  intros H. pose proof k_pos. pose proof (Nat.mod_upper_bound idx k ltac:(lia)). pose proof (Nat.Div0.div_lt_upper_bound idx k n ltac:(lia)).
  assert (idx / k * stride + stride <= n * stride) by nia. assert (idx mod k * fb + fb <= k * fb) by nia. lia.
Qed.
Lemma parse_alphas s p c n : all_some (map (fun idx => parse_field (stream_bytes s p (c * stride) (n * stride)) (idx / k * stride + t + idx mod k * fb)) (seq 0 (n * k)))
  = Some (alphas_at s p c n).
Proof.
  erewrite (all_some_map fzero).
  - f_equal. unfold alphas_at. apply map_ext_in. intros idx Hidx%in_seq. rewrite parse_spec by (apply alpha_in_range; lia). cbn [default].
    unfold alpha_at. replace (c * stride + (idx / k * stride + t + idx mod k * fb)) with ((c + idx / k) * stride + t + idx mod k * fb) by nia. done.
  - apply Forall_seq. intros idx Hidx. rewrite parse_spec by (apply alpha_in_range; lia). by eexists.
Qed.

(** What is generated. *)
Definition gammas_at (s1 : Seed) (p1 : Z) (s2 : Seed) (p2 : Z) (id : PartyID) (c n : nat) : list Z :=
  match id with ID0 => map (gamma_at s1 p1 s2 p2) (seq c n) | _ => replicate n 0%Z end.
Lemma gammas_at_app s1 p1 s2 p2 id c m n : gammas_at s1 p1 s2 p2 id c (m + n) = gammas_at s1 p1 s2 p2 id c m ++ gammas_at s1 p1 s2 p2 id (c + m) n.
Proof. unfold gammas_at. destruct id; [by rewrite seq_app, map_app|apply replicate_add..]. Qed.
Lemma gammas_at_length s1 p1 s2 p2 id c n : length (gammas_at s1 p1 s2 p2 id c n) = n.
Proof. destruct id; cbn; [by rewrite length_map, length_seq|by rewrite length_replicate..]. Qed.

Lemma generate_spec s1 p1 s2 p2 id c n : (0 <= p1)%Z -> (0 <= p2)%Z ->
  generate T s1 p1 s2 p2 fb id c n = Some (gammas_at s1 p1 s2 p2 id c n, match id with ID0 => alphas_at s1 p1 c n | _ => alphas_at s2 p2 c n end).
Proof.
  intros H1 H2. unfold generate. destruct (Nat.eqb_spec n 0) as [->|Hn]; [by destruct id|].
  destruct id; rewrite !seek_spec by done; rewrite parse_alphas; [|done..]. cbn [gammas_at]. do 2 f_equal. rewrite (map_seq_add _ c).
  apply map_ext_in. intros i Hi%in_seq. rewrite !stream_bytes_slice by nia. unfold gamma_at.
  do 2 f_equal; f_equal; nia.
Qed.

End Stream.
(** ** The invariant of a pool *)

Definition pool_gamma (l : LazyEdaBits) (i : nat) : Z := gamma_at (field_bytes l) (seed1 l) (pos1 l) (seed2 l) (pos2 l) i.
(** The stream of the [alphas]: party 0 shares its first generator with party 1. *)
Definition pool_seed (l : LazyEdaBits) : Seed := match party_id l with ID0 => seed1 l | _ => seed2 l end.
Definition pool_pos (l : LazyEdaBits) : Z := match party_id l with ID0 => pos1 l | _ => pos2 l end.
Definition pool_alpha (l : LazyEdaBits) (i j : nat) : F := alpha_at (field_bytes l) (pool_seed l) (pool_pos l) i j.

(** The items [c .. c + n]. *)
Definition items (l : LazyEdaBits) (c n : nat) : EdaBitsBatch F :=
  match party_id l with
  | ID2 => mkEdaBatch (replicate n 0%Z) (slice (contents (alphas_flat_store l)) (c * k) (c * k + n * k))
  | id => mkEdaBatch (gammas_at (field_bytes l) (seed1 l) (pos1 l) (seed2 l) (pos2 l) id c n) (alphas_at (field_bytes l) (pool_seed l) (pool_pos l) c n)
  end.

(** The cache holds the items from the cursor on. *)
Record cache_ok (l : LazyEdaBits) (start len : nat) : Prop := {
  ca_start : start <= cursor l;
  ca_sized : sized (alphas_flat_store l) /\ sized (gamma_store l);
  ca_alphas i j : cursor l <= i -> i < start + len -> j < k -> contents (alphas_flat_store l) !! ((i - start) * k + j) = Some (pool_alpha l i j);
  ca_gammas i : party_id l = ID0 -> cursor l <= i -> i < start + len -> contents (gamma_store l) !! (i - start) = Some (pool_gamma l i)
}.

Record lazy_ok (l : LazyEdaBits) : Prop := {
  ok_pos : (0 <= pos1 l)%Z /\ (0 <= pos2 l)%Z;
  ok_field_bytes : 16 <= field_bytes l;
  ok_cursor : cursor l <= total l;
  ok_store : match party_id l with
    | ID2 => sized (alphas_flat_store l) /\ total l * k <= length (contents (alphas_flat_store l)) /\ (storage_mode l = P2Authoritative \/ storage_mode l = NoStorage /\ total l = 0)
    | _ => match storage_mode l with NoStorage => True | P01Precache start len => cache_ok l start len | P2Authoritative => False end
    end
}.

(** [l'] is [l] with [n] items taken: the items left are the same. *)
Record continues (l l' : LazyEdaBits) (n : nat) : Prop := {
  co_party : party_id l' = party_id l;
  co_total : total l' = total l;
  co_cursor : cursor l' = cursor l + n;
  co_source : seed1 l' = seed1 l /\ pos1 l' = pos1 l /\ seed2 l' = seed2 l /\ pos2 l' = pos2 l /\ field_bytes l' = field_bytes l;
  co_persisted : persisted l = None -> persisted l' = None;
  co_items c m : cursor l + n <= c -> c + m <= total l -> items l' c m = items l c m
}.

Lemma items_app l c m n : (match party_id l with ID2 => (c + m + n) * k <= length (contents (alphas_flat_store l)) | _ => True end) ->
  gammas (items l c (m + n)) = gammas (items l c m) ++ gammas (items l (c + m) n) /\
  alphas_flat (items l c (m + n)) = alphas_flat (items l c m) ++ alphas_flat (items l (c + m) n).
Proof.
  unfold items. destruct (party_id l); cbn [gammas alphas_flat]; intros H; (split; [|try apply alphas_at_app]); try apply gammas_at_app; [apply replicate_add|].
  rewrite !Nat.mul_add_distr_r. apply slice_app.
Qed.

(** Reading a range of a store. *)
Lemma take_store_range_spec {A} (zero : A) store a b : sized store -> a < b -> b <= length (contents store) ->
  exists store', take_store_range reuse_preproc zero store a b = Some (slice (contents store) a b, store') /\ sized store' /\
    length (contents store') = length (contents store) /\ forall i, i < a \/ b <= i -> contents store' !! i = contents store !! i.
Proof.
  intros Hs Hab Hb. unfold take_store_range. rewrite read_into_slice_spec by (rewrite ?length_replicate; done).
  destruct (Nat.leb_spec b (length (contents store))); [|lia]. eexists. split; [done|]. destruct reuse_preproc; [done|]. by apply consume_spec.
Qed.

Lemma take_slice {A} (l l' : list A) a b : length l' = length l -> (forall i, a <= i -> l' !! i = l !! i) -> slice l' a b = slice l a b.
Proof.
  intros Hl H. apply list_eq. intros i. unfold slice. destruct (decide (i < b - a)).
  - by rewrite !lookup_take_lt, !lookup_drop, H by lia.
  - rewrite !lookup_ge_None_2; [done|rewrite length_take; lia..].
Qed.

(** Party 2. *)
Lemma take_p2 l n : lazy_ok l -> party_id l = ID2 -> 0 < n -> cursor l + n <= total l ->
  exists l', take_batch reuse_preproc T l n = Ret (items l (cursor l) n, l') /\ lazy_ok l' /\ continues l l' n.
Proof.
  intros [Hp Hf Hc Hs] Hid Hn Ht. rewrite Hid in Hs. destruct Hs as (Hz & Hlen & Hmode). pose proof k_pos.
  unfold take_batch. destruct (Nat.ltb_spec (total l) (cursor l + n)); [lia|]. destruct (Nat.eqb_spec n 0); [lia|]. rewrite Hid. unfold fill_p2_store.
  destruct (take_store_range_spec fzero (alphas_flat_store l) (cursor l * k) (cursor l * k + n * k) Hz ltac:(nia) ltac:(nia)) as (s' & E & Hs' & Hl' & Hrest).
  rewrite E. cbn [obind or_panic fst snd]. eexists. split; [unfold items; rewrite Hid; done|]. split.
  - split; cbn; [done|done|lia|]. rewrite Hid, Hl'. done.
  - split; cbn; try done; [by intros ->|]. intros c m Hcm Hcm'. unfold items. cbn. rewrite Hid. f_equal. apply take_slice; [done|].
    intros i Hi. apply Hrest. right. nia.
Qed.

(** Parties 0 and 1 from the cache. *)
Lemma cached_alphas l start len c n : cache_ok l start len -> cursor l <= c -> 0 < n -> c + n <= start + len ->
  (c - start) * k + n * k <= length (contents (alphas_flat_store l)) /\
  slice (contents (alphas_flat_store l)) ((c - start) * k) ((c - start) * k + n * k) = alphas_at (field_bytes l) (pool_seed l) (pool_pos l) c n.
Proof.
  intros H Hc Hn Hl. pose proof k_pos. pose proof (ca_start _ _ _ H).
  assert (Hlen : (c - start) * k + n * k <= length (contents (alphas_flat_store l))).
  { pose proof (lookup_lt_Some _ _ _ (ca_alphas _ _ _ H (c + n - 1) (k - 1) ltac:(lia) ltac:(lia) ltac:(lia))) as L.
    replace (c + n - 1 - start) with (c - start + (n - 1)) in L by lia. destruct n; [lia|]. nia. }
  split; [done|]. apply alphas_at_eq; [rewrite slice_length; lia|]. intros i j Hi Hj. rewrite slice_lookup by nia.
  replace ((c - start) * k + (i * k + j)) with ((c + i - start) * k + j) by nia. apply (ca_alphas _ _ _ H); lia.
Qed.
Lemma cached_gammas l start len c n : cache_ok l start len -> party_id l = ID0 -> cursor l <= c -> 0 < n -> c + n <= start + len ->
  c - start + n <= length (contents (gamma_store l)) /\
  slice (contents (gamma_store l)) (c - start) (c - start + n) = gammas_at (field_bytes l) (seed1 l) (pos1 l) (seed2 l) (pos2 l) ID0 c n.
Proof.
  intros H Hid Hc Hn Hl. pose proof (ca_start _ _ _ H).
  assert (Hlen : c - start + n <= length (contents (gamma_store l))).
  { pose proof (lookup_lt_Some _ _ _ (ca_gammas _ _ _ H (c + n - 1) Hid ltac:(lia) ltac:(lia))). lia. }
  split; [done|]. apply list_eq. intros i. destruct (decide (i < n)) as [Hi|Hi].
  - rewrite slice_lookup by lia. cbn [gammas_at]. rewrite list_lookup_fmap, lookup_seq_lt by done. cbn.
    replace (c - start + i) with (c + i - start) by lia. apply (ca_gammas _ _ _ H); [done|lia..].
  - rewrite !lookup_ge_None_2; [done|rewrite gammas_at_length; lia|rewrite slice_length; lia].
Qed.

(** Stores that keep what is past the items taken. *)
Definition keeps {A} (s s' : BackingStore A) (from : nat) : Prop :=
  sized s' /\ forall i, from <= i -> contents s' !! i = contents s !! i.
Lemma cache_ok_keeps l start len n s' g' : cache_ok l start len ->
  keeps (alphas_flat_store l) s' ((cursor l + n - start) * k) -> keeps (gamma_store l) g' (cursor l + n - start) ->
  cache_ok (advance reuse_preproc (with_stores l s' (P01Precache start len) g') n) start len.
Proof.
  intros [Hs _ Ha Hg] [Zs Ks] [Zg Kg]. split; cbn; [lia|done| |].
  - intros i j Hi Hl Hj. rewrite Ks by nia. apply Ha; lia.
  - intros i Hid Hi Hl. rewrite Kg by lia. apply Hg; [done|lia..].
Qed.

Lemma advance_ok l n : lazy_ok l -> party_id l <> ID2 -> cursor l + n <= total l -> lazy_ok (advance reuse_preproc l n).
Proof.
  intros [Hp Hf Hc Hs] Hid Hn. split; cbn; [done..|lia|]. destruct (party_id l) eqn:Ei; [| |done]; (destruct (storage_mode l) as [| |start len] eqn:Em; [done..|]);
    destruct Hs as [H1 H2 H3 H4]; (split; cbn; [lia|done|intros; apply H3; lia|intros; apply H4; [done|lia..]]).
Qed.
Lemma items_0 l c : gammas (items l c 0) = [] /\ alphas_flat (items l c 0) = [].
Proof. unfold items. destruct (party_id l); cbn [gammas alphas_flat]; [done..|]. unfold slice. by rewrite Nat.mul_0_l, Nat.add_0_r, Nat.sub_diag. Qed.
Lemma with_same_stores l : with_stores l (alphas_flat_store l) (storage_mode l) (gamma_store l) = l.
Proof. by destruct l. Qed.

Lemma fill_precache_spec l n : lazy_ok l -> party_id l <> ID2 -> 0 < n -> cursor l + n <= total l -> exists m s' g',
  fill_precache reuse_preproc T l (cursor l) n = Ret (m, gammas (items l (cursor l) m), alphas_flat (items l (cursor l) m), with_stores l s' (storage_mode l) g') /\
  m <= n /\ lazy_ok (advance reuse_preproc (with_stores l s' (storage_mode l) g') n).
Proof.
  intros Hok Hid Hn Ht. pose proof (advance_ok l n Hok Hid Ht) as Hadv. destruct (items_0 l (cursor l)) as [E0 E1].
  assert (Hnone : forall r, r = Ret (0, [], [], l) -> exists m s' g', r = Ret (m, gammas (items l (cursor l) m), alphas_flat (items l (cursor l) m), with_stores l s' (storage_mode l) g') /\
    m <= n /\ lazy_ok (advance reuse_preproc (with_stores l s' (storage_mode l) g') n)).
  { intros r ->. exists 0, (alphas_flat_store l), (gamma_store l). rewrite E0, E1, with_same_stores. split; [done|]. split; [lia|done]. }
  unfold fill_precache. destruct (storage_mode l) as [| |start len] eqn:Em; [rewrite <- Em in *; by apply Hnone..|].
  destruct Hok as [Hp Hf Hc Hs]. rewrite Em in Hs. assert (H : cache_ok l start len) by (by destruct (party_id l)). clear Hs. pose proof (ca_start _ _ _ H).
  destruct (Nat.ltb_spec (cursor l) start); [lia|]. destruct (Nat.leb_spec (start + len) (cursor l)); cbn [orb]; [by apply Hnone|]. clear Hnone.
  set (m := Nat.min (start + len - cursor l) n). assert (0 < m /\ m <= n /\ cursor l + m <= start + len) as (M0 & M1 & M2) by (unfold m; lia). destruct (ca_sized _ _ _ H) as [Za Zg]. pose proof k_pos.
  destruct (cached_alphas l start len (cursor l) m H ltac:(lia) ltac:(lia) ltac:(lia)) as [La Ea].
  assert (Lt : (cursor l - start) * k < (cursor l - start) * k + m * k) by nia.
  destruct (take_store_range_spec fzero (alphas_flat_store l) _ _ Za Lt La) as (s' & -> & Zs' & _ & Ks). cbn [or_panic obind fst snd]. rewrite Ea.
  assert (Ka : keeps (alphas_flat_store l) s' ((cursor l + n - start) * k)) by (split; [done|]; intros i Hi; apply Ks; right; nia).
  destruct (party_id l) eqn:Ei; [| |done].
  - destruct (cached_gammas l start len (cursor l) m H Ei ltac:(lia) ltac:(lia) ltac:(lia)) as [Lg Eg].
    destruct (take_store_range_spec 0%Z (gamma_store l) (cursor l - start) (cursor l - start + m) Zg ltac:(lia) Lg) as (g' & -> & Zg' & _ & Kg). cbn [or_panic obind fst snd]. rewrite Eg.
    exists m, s', g'. split; [unfold items; by rewrite Ei|]. split; [lia|]. split; cbn; [done..|lia|]. rewrite Ei.
    apply (cache_ok_keeps l start len n s' g' H Ka). split; [done|]. intros i Hi. apply Kg. lia.
  - exists m, s', (gamma_store l). split; [unfold items; by rewrite Ei|]. split; [lia|]. split; cbn; [done..|lia|]. rewrite Ei.
    by apply (cache_ok_keeps l start len n s' _ H Ka).
Qed.

Lemma take_p01 l n : lazy_ok l -> party_id l <> ID2 -> 0 < n -> cursor l + n <= total l ->
  exists l', take_batch reuse_preproc T l n = Ret (items l (cursor l) n, l') /\ lazy_ok l' /\ continues l l' n.
Proof.
  intros Hok Hid Hn Ht. destruct (fill_precache_spec l n Hok Hid Hn Ht) as (m & s' & g' & E & Hm & Hok').
  exists (advance reuse_preproc (with_stores l s' (storage_mode l) g') n).
  assert (Hco : continues l (advance reuse_preproc (with_stores l s' (storage_mode l) g') n) n).
  { split; cbn; try done; [by intros ->|]. intros c i _ _. unfold items. cbn. by destruct (party_id l). }
  split; [|done]. unfold take_batch. destruct (Nat.ltb_spec (total l) (cursor l + n)); [lia|]. destruct (Nat.eqb_spec n 0); [lia|].
  rewrite E. cbn [obind]. destruct Hok as [[P1 P2] Hf _ _].
  assert (Eb : items l (cursor l) n = mkEdaBatch (gammas (items l (cursor l) m) ++ gammas (items l (cursor l + m) (n - m)))
    (alphas_flat (items l (cursor l) m) ++ alphas_flat (items l (cursor l + m) (n - m)))).
  { destruct (items_app l (cursor l) m (n - m)) as [I1 I2]; [by destruct (party_id l)|]. rewrite <- I1, <- I2. replace (m + (n - m)) with n by lia. by destruct (items l (cursor l) n). }
  rewrite Eb. unfold lazy_generate. cbn [with_stores seed1 pos1 seed2 pos2 field_bytes party_id].
  destruct (Nat.ltb_spec m n).
  - rewrite generate_spec by done. cbn [or_panic obind fst snd]. unfold items, pool_seed, pool_pos. by destruct (party_id l).
  - replace (n - m) with 0 by lia. destruct (items_0 l (cursor l + m)) as [-> ->]. rewrite !app_nil_r. by destruct (party_id l).
Qed.

(** Taking from a pool gives the items at its cursor, or is refused when there are not enough. *)
Lemma take_spec l n : lazy_ok l ->
  (total l < cursor l + n -> take_batch reuse_preproc T l n = Refuse) /\
  (cursor l + n <= total l -> exists l', take_batch reuse_preproc T l n = Ret (items l (cursor l) n, l') /\ lazy_ok l' /\ continues l l' n).
Proof.
  intros Hok. split; intros H.
  - unfold take_batch. by destruct (Nat.ltb_spec (total l) (cursor l + n)); [|lia].
  - destruct (Nat.eq_dec n 0) as [->|Hn].
    + exists l. unfold take_batch. destruct (Nat.ltb_spec (total l) (cursor l + 0)); [lia|]. cbn. destruct (items_0 l (cursor l)) as [E0 E1].
      split; [|split; [done|split; try done; lia]]. destruct (items l (cursor l) 0). cbn in *. by subst.
    + destruct (decide (party_id l = ID2)); [apply take_p2|apply take_p01]; done || lia.
Qed.

(** ** The cache *)

Section Precache.
Context (l : LazyEdaBits) (requested chunk_len : nat).

(** The first [offset] items are written. *)
Definition written (offset : nat) (stores : BackingStore F * BackingStore Z) : Prop :=
  (exists fa, fst stores = FileBacked fa (requested * k) 0 /\ length fa = requested * k /\
    forall i j, i < offset -> i < requested -> j < k -> fa !! (i * k + j) = Some (pool_alpha l (cursor l + i) j)) /\
  match party_id l with
  | ID0 => exists fg, snd stores = FileBacked fg requested 0 /\ length fg = requested /\
      forall i, i < offset -> i < requested -> fg !! i = Some (pool_gamma l (cursor l + i))
  | _ => snd stores = Empty
  end.

Context (Hok : lazy_ok l) (Hid : party_id l <> ID2) (Hchunk : 0 < chunk_len).

Lemma written_alphas fa offset n : length fa = requested * k -> offset + n <= requested ->
  (forall i j, i < offset -> i < requested -> j < k -> fa !! (i * k + j) = Some (pool_alpha l (cursor l + i) j)) ->
  let data := alphas_at (field_bytes l) (pool_seed l) (pool_pos l) (cursor l + offset) n in
  let fa' := file_write_all_at fzero fa (offset * k) data in
  length fa' = requested * k /\ forall i j, i < offset + n -> i < requested -> j < k -> fa' !! (i * k + j) = Some (pool_alpha l (cursor l + i) j).
Proof.
  intros Hl Hn H data fa'. pose proof k_pos. assert (Hd : length data = n * k) by apply alphas_at_length.
  assert (Hw : offset * k + length data <= length fa) by (rewrite Hd, Hl; nia). split; [unfold fa'; by rewrite write_length|].
  intros i j Hi Hr Hj. destruct (decide (i < offset)) as [Ho|Ho].
  - unfold fa'. rewrite write_lookup_before by (done || nia). by apply H.
  - replace (i * k + j) with (offset * k + ((i - offset) * k + j)) by nia. unfold fa'. rewrite write_lookup_data by (done || (rewrite Hd; nia)).
    unfold data. rewrite alphas_at_lookup by lia. unfold pool_alpha. do 2 f_equal. lia.
Qed.

Lemma precache_step_spec offset stores : written offset stores -> offset < requested ->
  exists stores', precache_step T l requested chunk_len offset stores = Ret stores' /\ written (offset + chunk_len) stores'.
Proof.
  intros [(fa & Ea & La & Ha) Hg] Ho. unfold precache_step. set (n := Nat.min (requested - offset) chunk_len).
  assert (0 < n /\ offset + n <= requested /\ (offset + n < requested -> n = chunk_len)) as (N0 & N1 & N2) by (unfold n; lia). clearbody n.
  destruct (ok_pos _ Hok) as [P1 P2]. pose proof k_pos. unfold lazy_generate. rewrite generate_spec by (done || apply Hok). cbn [or_panic obind fst snd].
  replace (match party_id l with ID0 => alphas_at (field_bytes l) (seed1 l) (pos1 l) (cursor l + offset) n | _ => alphas_at (field_bytes l) (seed2 l) (pos2 l) (cursor l + offset) n end)
    with (alphas_at (field_bytes l) (pool_seed l) (pool_pos l) (cursor l + offset) n) by (unfold pool_seed, pool_pos; by destruct (party_id l)).
  destruct (written_alphas fa offset n La N1 Ha) as [La' Ha']. rewrite Ea. set (data := alphas_at _ _ _ _ _) in *.
  assert (Hd : length data = n * k) by apply alphas_at_length. unfold writer_write_at at 1. destruct data as [|d ds] eqn:Ed; [cbn in Hd; nia|]. rewrite <- Ed in *.
  destruct (Nat.ltb_spec (requested * k) (offset * k + length data)); [rewrite Hd in *; nia|]. cbn [or_err obind].
  assert (Hfst : exists fa', FileBacked (file_write_all_at fzero fa (offset * k) data) (requested * k) 0 = FileBacked fa' (requested * k) 0 /\ length fa' = requested * k /\
    forall i j, i < offset + chunk_len -> i < requested -> j < k -> fa' !! (i * k + j) = Some (pool_alpha l (cursor l + i) j)).
  { eexists. split; [done|]. split; [done|]. intros i j Hi Hr Hj. apply Ha'; lia. }
  unfold written. destruct (party_id l) eqn:Ei; [| |done].
  - destruct Hg as (fg & Eg & Lg & Hg). rewrite Eg. set (gs := gammas_at _ _ _ _ _ _ _ _). assert (Hgl : length gs = n) by apply gammas_at_length.
    unfold writer_write_at. destruct gs as [|g gs'] eqn:Egs; [cbn in Hgl; lia|]. rewrite <- Egs in *.
    destruct (Nat.ltb_spec requested (offset + length gs)); [lia|]. cbn [or_err obind]. eexists. split; [done|]. split; [exact Hfst|].
    eexists. split; [done|]. split; [apply eq_trans with (length fg); [apply write_length; lia|done]|]. intros i Hi Hr. destruct (decide (i < offset)).
    + rewrite write_lookup_before by lia. by apply Hg.
    + replace i with (offset + (i - offset)) at 1 by lia. rewrite write_lookup_data by lia. rewrite Egs in *. rewrite <- Egs. unfold gs. cbn [gammas_at].
      rewrite list_lookup_fmap, lookup_seq_lt by lia. cbn. unfold pool_gamma. do 2 f_equal. lia.
  - rewrite Hg. cbn [obind]. eexists. split; [done|]. split; [exact Hfst|done].
Qed.

(** The loop ends within as many rounds as items are requested. *)
Lemma precache_loop_spec fuel : forall offset stores, written offset stores -> requested <= offset + fuel ->
  exists stores', precache_loop T l requested chunk_len fuel offset stores = Ret stores' /\ written requested stores'.
Proof.
  assert (Hdone : forall offset stores, written offset stores -> requested <= offset -> written requested stores).
  { intros offset stores [(fa & Ea & La & Ha) Hg] Ho. split.
    - exists fa. split; [done|]. split; [done|]. intros; apply Ha; lia.
    - destruct (party_id l); [|done..]. destruct Hg as (fg & Eg & Lg & Hg). exists fg. split; [done|]. split; [done|]. intros; apply Hg; lia. }
  induction fuel as [|fuel IH]; intros offset stores Hw Hf; cbn [precache_loop].
  - exists stores. split; [done|]. apply (Hdone offset); [done|lia].
  - destruct (Nat.ltb_spec offset requested).
    + destruct (precache_step_spec offset stores Hw) as (s' & -> & Hs'); [done|]. cbn [obind]. apply IH; [done|lia].
    + exists stores. split; [done|]. by apply (Hdone offset).
Qed.

End Precache.
Lemma precache_chunk_pos requested : 0 < requested -> 0 < precache_chunk_len size_of_F T requested.
Proof. unfold precache_chunk_len. lia. Qed.

(** More rounds change nothing. *)
Lemma precache_loop_fuel l requested chunk_len fuel : 0 < chunk_len -> forall more offset stores, requested <= offset + fuel ->
  precache_loop T l requested chunk_len (fuel + more) offset stores = precache_loop T l requested chunk_len fuel offset stores.
Proof.
  intros Hc. induction fuel as [|fuel IH]; intros more offset stores Hf; cbn [precache_loop Nat.add].
  - destruct more as [|more]; [done|]. cbn [precache_loop]. by destruct (Nat.ltb_spec offset requested); [lia|].
  - destruct (Nat.ltb_spec offset requested); [|done]. destruct (precache_step T l requested chunk_len offset stores); [|done..]. cbn [obind]. apply IH. lia.
Qed.

Lemma written_start l requested : written l requested 0 (create_file_backed_sized fzero (requested * k), match party_id l with ID0 => create_file_backed_sized 0%Z requested | _ => Empty end).
Proof.
  split; cbn [fst snd].
  - eexists. split; [done|]. split; [apply set_len_length|]. lia.
  - destruct (party_id l); [|done..]. eexists. split; [done|]. split; [apply set_len_length|]. lia.
Qed.

Lemma stored_none l : lazy_ok l -> lazy_ok (clear_precache_files l) /\ continues l (clear_precache_files l) 0.
Proof.
  intros Hok. unfold clear_precache_files, clear_precache_runtime. destruct (party_id l) eqn:Ei.
  1,2: split; [destruct Hok as [H1 H2 H3 H4]; split; cbn; rewrite ?Ei; done|split; cbn; try done; try lia; intros c m _ _; unfold items; cbn; by rewrite Ei].
  split; [done|]. split; try done; lia.
Qed.

(** Filling the cache leaves the items as they are. *)
Lemma prepare_precache_spec l requested : lazy_ok l ->
  (party_id l <> ID2 -> 0 < remaining l -> remaining l < requested -> prepare_precache size_of_F T l requested = Refuse) /\
  (party_id l = ID2 \/ remaining l = 0 \/ requested <= remaining l ->
     exists l', prepare_precache size_of_F T l requested = Ret l' /\ lazy_ok l' /\ continues l l' 0).
Proof.
  intros Hok. unfold prepare_precache. destruct (party_id l) eqn:Ei; cbn [orb].
  3: { split; [done|]. intros _. exists (clear_precache_files l). split; [done|]. by apply stored_none. }
  all: destruct (Nat.eqb_spec requested 0) as [->|Hr]; cbn [orb];
    [split; [lia|]; intros _; exists (clear_precache_files l); split; [done|]; by apply stored_none|].
  all: destruct (Nat.eqb_spec (remaining l) 0) as [E0|Hrem];
    [split; [lia|]; intros _; exists (clear_precache_files l); split; [done|]; by apply stored_none|].
  all: destruct (Nat.ltb_spec (remaining l) requested); [split; [done|]; intros [?|[?|?]]; [done|lia|lia]|split; [lia|]; intros _].
  all: destruct (has_matching_precache T l requested); [exists l; split; [done|]; split; [done|]; split; try done; lia|].
  all: assert (Hid : party_id l <> ID2) by congruence.
  all: destruct (precache_loop_spec l requested _ Hok Hid (precache_chunk_pos requested ltac:(lia)) requested 0 _ (written_start l requested) ltac:(lia)) as (stores & E & (fa & Ea & La & Ha) & Hg).
  all: rewrite Ei in E, Hg; rewrite E; cbn [obind]; eexists; split; [done|]; rewrite Ea in *; unfold remaining in *.
  all: (split; [|split; cbn; try done; try lia; intros c m _ _; unfold items; cbn; by rewrite Ei]); destruct Hok as [H1 H2 H3 H4]; split; cbn; try done; rewrite Ei.
  - destruct Hg as (fg & Eg & Lg & Hg). rewrite Eg. split; cbn; [lia|done| |].
    + intros i j Hi Hl Hj. rewrite Ha by lia. unfold pool_alpha, pool_seed, pool_pos. cbn. do 2 f_equal. lia.
    + intros i _ Hi Hl. rewrite Hg by lia. unfold pool_gamma. cbn. do 2 f_equal. lia.
  - rewrite Hg. split; cbn; [lia|done| |by rewrite Ei].
    intros i j Hi Hl Hj. rewrite Ha by lia. unfold pool_alpha, pool_seed, pool_pos. cbn. do 2 f_equal. lia.
Qed.

(** ** Reservations *)

(** Where a view of a pool that starts at [c] may take from: not past a cache that ends before. *)
Definition before_cache_end (l : LazyEdaBits) (c : nat) : Prop :=
  match storage_mode l with P01Precache start len => len = 0 \/ c <= start + len | _ => True end.

(** The part of [n] items from [c] that is regenerated. *)
Lemma generated_items l c m n : lazy_ok l -> party_id l <> ID2 -> m <= n ->
  generate T (seed1 l) (pos1 l) (seed2 l) (pos2 l) (field_bytes l) (party_id l) (c + m) (n - m) = Some (gammas (items l (c + m) (n - m)), alphas_flat (items l (c + m) (n - m))) /\
  items l c n = mkEdaBatch (gammas (items l c m) ++ gammas (items l (c + m) (n - m))) (alphas_flat (items l c m) ++ alphas_flat (items l (c + m) (n - m))).
Proof.
  intros Hok Hid Hm. destruct (ok_pos _ Hok) as [P1 P2]. split.
  - rewrite generate_spec by (done || apply Hok). unfold items, pool_seed, pool_pos. by destruct (party_id l).
  - destruct (items_app l c m (n - m)) as [I1 I2]; [by destruct (party_id l)|]. rewrite <- I1, <- I2. replace (m + (n - m)) with n by lia. by destruct (items l c n).
Qed.

(** The view [v] of [len] items from [c] on, as a reservation of [l] makes it. *)
Definition view_of (l : LazyEdaBits) (n c len : nat) : EdaBitsRangeView :=
  let view cs cl ss av gv := mkView c len (party_id l) (field_bytes l) cs cl ss av gv (seed1 l) (pos1 l) (seed2 l) (pos2 l) in
  match storage_mode l with
  | P2Authoritative => view (cursor l) n 0 (Some (alphas_flat_store l)) None
  | P01Precache s m =>
      let some := Nat.ltb 0 (cached_in_range (cursor l) s m n) in
      view s m s (if some then Some (alphas_flat_store l) else None) (if some then match party_id l with ID0 => Some (gamma_store l) | _ => None end else None)
  | NoStorage => view 0 0 0 None None
  end.

Lemma fill_view_p2 l n c len : lazy_ok l -> party_id l = ID2 -> cursor l <= c -> c + len <= cursor l + n -> cursor l + n <= total l -> 0 < len ->
  fill_into_par_safe T (view_of l n c len) = Ret (items l c len).
Proof.
  intros [Hp Hf Hc Hs] Hid H1 H2 H3 Hlen. rewrite Hid in Hs. destruct Hs as (Hz & Hl & [Hm|[_ Hm]]); [|lia]. pose proof k_pos.
  unfold view_of. rewrite Hm. unfold fill_into_par_safe, view_cached. cbn [v_len v_cached_len v_start_cursor v_cached_start v_store_start v_alpha v_party].
  destruct (Nat.eqb_spec len 0); [lia|]. destruct (Nat.eqb_spec n 0); [lia|]. destruct (Nat.ltb_spec c (cursor l)); [lia|]. cbn [orb].
  destruct (Nat.ltb_spec (cursor l + n) c); [lia|]. rewrite Nat.min_r by lia. cbn [obind]. destruct (Nat.ltb_spec 0 len); [|lia]. cbn [or_err obind].
  rewrite Nat.sub_0_r, view_read_spec by (done || nia || (rewrite length_replicate; lia)).
  destruct (Nat.leb_spec (c * k + len * k) (length (contents (alphas_flat_store l)))); [|nia]. cbn [or_err obind]. rewrite Hid. cbn [obind].
  destruct (Nat.ltb_spec len len); [lia|]. unfold items. by rewrite Hid.
Qed.

Lemma fill_view_p01 l n c len : lazy_ok l -> party_id l <> ID2 -> before_cache_end l c -> cursor l <= c -> c + len <= cursor l + n -> 0 < len ->
  fill_into_par_safe T (view_of l n c len) = Ret (items l c len).
Proof.
  intros Hok Hid Hb H1 H2 Hlen. pose proof k_pos as Hkp. pose proof (ok_store _ Hok) as Hs. unfold view_of, before_cache_end in *.
  assert (Hgen : forall m gs al, m <= len -> gs = gammas (items l c m) -> al = alphas_flat (items l c m) ->
    (if Nat.ltb m len then match party_id l with ID2 => Refuse | _ => g <! or_panic (generate T (seed1 l) (pos1 l) (seed2 l) (pos2 l) (field_bytes l) (party_id l) (c + m) (len - m)) ;;
       Ret (mkEdaBatch (gs ++ fst g) (al ++ snd g)) end else Ret (mkEdaBatch gs al)) = Ret (items l c len)).
  { intros m gs al Hm -> ->. destruct (generated_items l c m len Hok Hid Hm) as [-> E]. destruct (Nat.ltb_spec m len).
    - cbn [or_panic obind fst snd]. rewrite E. by destruct (party_id l).
    - replace m with len by lia. by destruct (items l c len). }
  destruct (storage_mode l) as [| |s m].
  - unfold fill_into_par_safe, view_cached. cbn. destruct (Nat.eqb_spec len 0); [lia|]. cbn. destruct (items_0 l c) as [I1 I2].
    apply (Hgen 0 [] []); [lia|done..].
  - by destruct (party_id l).
  - assert (H : cache_ok l s m) by (by destruct (party_id l)). pose proof (ca_start _ _ _ H). unfold fill_into_par_safe, view_cached.
    cbn [v_len v_cached_len v_start_cursor v_cached_start v_store_start v_alpha v_gamma v_party v_seed1 v_pos1 v_seed2 v_pos2 v_field_bytes].
    destruct (Nat.eqb_spec len 0); [lia|]. destruct (Nat.ltb_spec c s); [lia|]. rewrite orb_false_r.
    destruct (Nat.eqb_spec m 0); [cbn; destruct (items_0 l c) as [I1 I2]; apply (Hgen 0 [] []); [lia|done..]|]. destruct Hb as [?|Hb]; [lia|].
    destruct (Nat.ltb_spec (s + m) c); [lia|]. cbn [obind]. set (q := Nat.min (s + m - c) len).
    assert (q <= len /\ c + q <= s + m) as [Q1 Q2] by (unfold q; lia). destruct (Nat.ltb_spec 0 q) as [Q0|Q0].
    2: { cbn [obind]. replace q with 0 by lia. destruct (items_0 l c) as [I1 I2]. apply (Hgen 0 [] []); [lia|done..]. }
    assert (Ec : Nat.ltb 0 (cached_in_range (cursor l) s m n) = true).
    { apply Nat.ltb_lt. unfold cached_in_range. destruct (Nat.ltb_spec (cursor l) s), (Nat.leb_spec (s + m) (cursor l)); cbn; lia. }
    rewrite Ec. cbn [or_err obind]. destruct (ca_sized _ _ _ H) as [Za Zg]. destruct (cached_alphas l s m c q H H1 Q0 Q2) as [La Ea].
    rewrite view_read_spec by (done || nia || (rewrite length_replicate; lia)).
    destruct (Nat.leb_spec ((c - s) * k + q * k) (length (contents (alphas_flat_store l)))); [|lia]. cbn [or_err obind]. rewrite Ea.
    destruct (party_id l) eqn:Ei; [| |done].
    + destruct (cached_gammas l s m c q H Ei H1 Q0 Q2) as [Lg Eg]. cbn [or_err obind].
      rewrite view_read_spec by (done || lia || (rewrite length_replicate; lia)).
      destruct (Nat.leb_spec (c - s + q) (length (contents (gamma_store l)))); [|lia]. cbn [or_err obind fst snd]. rewrite Eg.
      apply Hgen; [done|unfold items; by rewrite Ei..].
    + cbn [obind fst snd]. apply Hgen; [done|unfold items; by rewrite Ei..].
Qed.

Lemma reserve_view l n : lazy_ok l -> cursor l + n <= total l -> exists range, reserve_range T l n = Ret (view_of l n (cursor l) n, range) /\
  forall start len, start + len <= n -> range_view (view_of l n (cursor l) n) start len = Ret (view_of l n (cursor l + start) len).
Proof.
  intros Hok Hn. unfold reserve_range. destruct (Nat.ltb_spec (total l) (cursor l + n)); [lia|]. unfold view_of.
  destruct (storage_mode l); (eexists; split; [done|]; intros start' len' Hsl; unfold range_view; cbn [v_len];
    destruct (Nat.leb_spec (start' + len') n); [|lia]; by rewrite andb_false_r).
Qed.

Lemma consume_keeps {A} (zero : A) s a b from : sized s -> b <= from -> keeps s (consume zero reuse_preproc s a b) from.
Proof. intros Hs Hb. destruct (consume_spec zero reuse_preproc s a b Hs) as (Z & _ & Hk). split; [done|]. intros i Hi. apply Hk. lia. Qed.

(** A reservation that is used and finalized is as if its items had been taken. *)
Lemma reserve_finalize l n : lazy_ok l -> cursor l + n <= total l -> exists view range l', reserve_range T l n = Ret (view, range) /\
  finalize_reserved_range reuse_preproc l range = Ret l' /\ lazy_ok l' /\ continues l l' n.
Proof.
  intros Hok Hn. pose proof k_pos as Hkp. unfold reserve_range. destruct (Nat.ltb_spec (total l) (cursor l + n)); [lia|].
  assert (Hsame : storage_mode l = NoStorage -> party_id l <> ID2 -> lazy_ok (advance reuse_preproc (with_stores l (alphas_flat_store l) (storage_mode l) (gamma_store l)) n) /\
    continues l (advance reuse_preproc (with_stores l (alphas_flat_store l) (storage_mode l) (gamma_store l)) n) n).
  { intros Hm Hid. rewrite with_same_stores. split; [by apply advance_ok|]. split; cbn; try done; try (by intros ->). }
  pose proof (ok_store _ Hok) as Hs. unfold finalize_reserved_range. destruct (storage_mode l) as [| |s m] eqn:Em; (eexists _, _, _; split; [reflexivity|]); cbn [rr_cursor_base rr_len alpha_consume gamma_consume];
    rewrite Nat.eqb_refl, andb_false_r; (split; [reflexivity|]).
  - destruct (decide (party_id l = ID2)) as [Hid|Hid]; [|by apply Hsame]. rewrite Hid in Hs. destruct Hs as (Hz & Hl & [?|[_ Ht]]); [done|].
    split; [split; cbn; try apply Hok; [lia|rewrite Hid; split_and!; [done..|by right]]|]. split; cbn; try done; try (by intros ->).
  - destruct (party_id l) eqn:Ei; [done..|]. destruct Hs as (Hz & Hl & _). destruct (consume_spec fzero reuse_preproc (alphas_flat_store l) (cursor l * k) (cursor l * k + n * k) Hz) as (Z & L & Hk').
    split; [split; cbn; try apply Hok; [lia|rewrite Ei, L; split_and!; [done..|by left]]|]. split; cbn; try done; try (by intros ->).
    intros c q Hc Hq. unfold items. cbn. rewrite Ei. f_equal. apply take_slice; [done|]. intros i Hi. apply Hk'. right. nia.
  - assert (Hid : party_id l <> ID2) by (intros Hid; rewrite Hid in Hs; by destruct Hs as (_ & _ & [?|[? _]])). assert (H' : cache_ok l s m) by (by destruct (party_id l)). destruct (ca_sized _ _ _ H') as [Za Zg]. pose proof (ca_start _ _ _ H').
    set (q := cached_in_range (cursor l) s m n). assert (Hq : q <= n) by (unfold q, cached_in_range; destruct (_ || _); lia).
    assert (Hqa : (cursor l - s) * k + q * k <= (cursor l + n - s) * k) by (rewrite <- Nat.mul_add_distr_r; apply Nat.mul_le_mono_r; lia). clearbody q.
    split; [|split; cbn; try done; try (by intros ->); intros c q' _ _; unfold items; cbn; by destruct (party_id l)].
    split; cbn; try apply Hok; [lia|]. destruct (party_id l) eqn:Ei; [| |done]; apply (cache_ok_keeps l s m n _ _ H'); destruct q as [|q];
      solve [by split|apply consume_keeps; [done|done || lia]].
Qed.

(** Past the end of the cache a view is not filled: the subtraction overflows, or
    without overflow checks the whole view is looked for in the cache. *)
Lemma fill_past_cache l n c len s m : storage_mode l = P01Precache s m -> 0 < m -> s + m < c -> 0 < len -> (Z.of_nat (c + len) < 2 ^ 64)%Z ->
  sized (alphas_flat_store l) -> length (contents (alphas_flat_store l)) = m * k ->
  fill_into_par_safe T (view_of l n c len) = if overflow_checks then Fault else Refuse.
Proof.
  intros Em Hm Hc Hlen Hb Hz Hl. pose proof k_pos as Hkp. unfold view_of. rewrite Em. unfold fill_into_par_safe, view_cached.
  cbn [v_len v_cached_len v_start_cursor v_cached_start v_store_start v_alpha v_gamma v_party].
  destruct (Nat.eqb_spec len 0); [lia|]. destruct (Nat.eqb_spec m 0); [lia|]. destruct (Nat.ltb_spec c s); [lia|]. cbn [orb].
  destruct (Nat.ltb_spec (s + m) c); [|lia]. destruct overflow_checks; [done|]. cbn [obind].
  replace (Z.to_nat (Z.min (2 ^ 64 - Z.of_nat (c - (s + m))) (Z.of_nat len))) with len by lia. destruct (Nat.ltb_spec 0 len); [|lia].
  destruct (Nat.ltb 0 (cached_in_range (cursor l) s m n)); [|done]. cbn [or_err obind].
  rewrite view_read_spec by (done || nia || (rewrite length_replicate; lia)). rewrite Hl.
  destruct (Nat.leb_spec ((c - s) * k + len * k) (m * k)); [nia|done].
Qed.

End Pools.

(** ** Pools of three parties

    [random_edabits_lazy] leaves the three parties with pools whose items are
    correlated, and taking the same number of items from each keeps them so. *)

Section Pools.
Context {F : Type} `{JF : JoltField F} `{PF : !PrimeField F} `{RO : !RngOps F} `{SR : !StreamRng F} `{B : Build}.
Add Ring F_ring_eda_pools : F_ring.

(** *** Forks of the correlated generators *)

Lemma fork_spec : protocol (tpure (with_rand (Rep3Rand_fork (F := F))))
  (fun r => exists a b d, r = mkTri (Rep3Rand_new a d) (Rep3Rand_new b a) (Rep3Rand_new d b)).
Proof.
  assert (E : forall c, with_rand (Rep3Rand_fork (F := F)) c = mbind (with_rand random_seeds) (fun p => mret (Rep3Rand_new (fst p) (snd p))) c).
  { intros c. unfold Rep3Rand_fork. rewrite <- with_rand_map. unfold with_rand. by destruct (random_seeds (Rep3Ctx.rand (rngs c))) as [[s1 s2] r]. }
  apply (protocol_ext _ _ _ _ _ _ _ E E E). eapply protocol_bind; [exact (protocol_draw gen_seed (fun _ => True) (fun _ => I))|].
  intros ? ? ? (a & b & d & _ & _ & _ & [= -> -> ->]). apply protocol_ret'. by exists a, b, d.
Qed.

(** Party 0 sends to party 2. *)
Lemma send_0_to_2 {A R} `{Wire Wired A} (data : list A) (r0 r1 : R) (b : list A -> bool) (k2 : list A -> R) : b data = true ->
  protocol (mkTri (network (fun _ => send_many ID2 data) ;~ mret r0) (mret r1) (x <~ network (fun _ => recv_many ID0) ;; mdebug_assert (b x) ;~ mret (k2 x)))
    (fun r => r = mkTri r0 r1 (k2 data)).
Proof.
  intros Hb c Hc. eexists _, c. split; [|split; [done|reflexivity]]. clear Hc. destruct c as [c0 c1 c2].
  unfold exec, mbind, network. exists [ID0; ID2]. do 2 (cbn -[serialize deserialize mdebug_assert]; rewrite ?deserialize_serialize).
  rewrite mdebug_assert_true by done. done.
Qed.

Section Eda.
Context (reuse_preproc : bool) (T : RingType).
Abbreviation k := (Z.to_nat (K T)).
Abbreviation t := (size_of T).

Record correlated (ls : Tri LazyEdaBits) : Prop := {
  cr_ids : party_id (t0 ls) = ID0 /\ party_id (t1 ls) = ID1 /\ party_id (t2 ls) = ID2;
  cr_ok : lazy_ok T (t0 ls) /\ lazy_ok T (t1 ls) /\ lazy_ok T (t2 ls);
  cr_total : total (t1 ls) = total (t0 ls) /\ total (t2 ls) = total (t0 ls);
  cr_cursor : cursor (t1 ls) = cursor (t0 ls) /\ cursor (t2 ls) = cursor (t0 ls);
  cr_stream : seed2 (t1 ls) = seed1 (t0 ls) /\ pos2 (t1 ls) = pos1 (t0 ls) /\ field_bytes (t1 ls) = field_bytes (t0 ls);
  cr_alpha2 i j : cursor (t0 ls) <= i -> i < total (t0 ls) -> j < k -> contents (alphas_flat_store (t2 ls)) !! (i * k + j) =
    Some (fsub (of_Z (Z.b2z (Z.testbit (pool_gamma T (t0 ls) i) (Z.of_nat j)))) (pool_alpha T (t0 ls) i j))
}.

(** The values party 0 knows. *)
Definition pool_gammas (ls : Tri LazyEdaBits) (n : nat) : list Z := map (pool_gamma T (t0 ls)) (seq (cursor (t0 ls)) n).

Lemma items_correlated ls n : correlated ls -> cursor (t0 ls) + n <= total (t0 ls) ->
  edabits T (tmap (fun l => items T l (cursor l) n) ls) (pool_gammas ls n).
Proof.
  intros [(I0 & I1 & I2) (O0 & O1 & O2) (T1 & T2) (C1 & C2) (S1 & P1 & F1) Ha] Hn. pose proof (k_pos T) as Hk.
  assert (Hlen2 : length (slice (contents (alphas_flat_store (t2 ls))) (cursor (t2 ls) * k) (cursor (t2 ls) * k + n * k)) = n * k).
  { pose proof (ok_store _ _ O2) as Hs. rewrite I2 in Hs. destruct Hs as (_ & Hs & _). rewrite slice_length; [lia|lia|]. rewrite C2, T2 in *. nia. }
  unfold tmap, items. rewrite I0, I1, I2.
  split; cbn [t0 t1 t2 gammas alphas_flat]; unfold pool_gammas; rewrite ?length_map, ?length_seq, ?length_replicate, ?gammas_at_length, ?alphas_at_length, ?Hlen2; try done.
  - apply Forall_map, Forall_forall. intros i _. apply gamma_at_word.
  - intros idx g Hg i Hi. assert (Hidx : idx < n) by (apply lookup_lt_Some in Hg; by rewrite length_map, length_seq in Hg).
    rewrite list_lookup_fmap, lookup_seq_lt in Hg by done. cbn in Hg. injection Hg as <-.
    eexists _, _. split; [by apply alphas_at_lookup|]. split.
    + rewrite slice_lookup by nia. replace (cursor (t2 ls) * k + (idx * k + i)) with ((cursor (t0 ls) + idx) * k + i) by (rewrite C2; nia). apply Ha; lia.
    + cbn beta. unfold pool_alpha, pool_seed, pool_pos. rewrite I0, I1, S1, P1, F1, C1. ring.
Qed.

(** Taking [n] items on every party. *)
Lemma take_correlated ls n : correlated ls -> cursor (t0 ls) + n <= total (t0 ls) -> exists ls',
  tmap (fun l => take_batch reuse_preproc T l n) ls = tmap2 (fun l l' => Ret (items T l (cursor l) n, l')) ls ls' /\ correlated ls' /\
  cursor (t0 ls') = cursor (t0 ls) + n /\ total (t0 ls') = total (t0 ls).
Proof.
  intros H Hn. destruct H as [(I0 & I1 & I2) (O0 & O1 & O2) (T1 & T2) (C1 & C2) (S1 & P1 & F1) Ha].
  destruct (proj2 (take_spec reuse_preproc T (t0 ls) n O0) ltac:(lia)) as (l0 & E0 & K0 & D0).
  destruct (proj2 (take_spec reuse_preproc T (t1 ls) n O1) ltac:(lia)) as (l1 & E1 & K1 & D1).
  destruct (proj2 (take_spec reuse_preproc T (t2 ls) n O2) ltac:(lia)) as (l2 & E2 & K2 & D2).
  exists (mkTri l0 l1 l2). split; [unfold tmap, tmap2; by rewrite E0, E1, E2|].
  destruct D0 as [N0 T0' C0' (A1 & A2 & A3 & A4 & A5) _ _], D1 as [N1 T1' C1' (B1 & B2 & B3 & B4 & B5) _ _], D2 as [N2 T2' C2' (G1 & G2 & G3 & G4 & G5) _ M2].
  split; [|cbn [t0]; split; congruence]. split; cbn [t0 t1 t2]; [split_and!; congruence|done|split; congruence|split; congruence|split_and!; congruence|].
  intros i j Hi Hj Hjk. pose proof (k_pos T) as Hk. pose proof (M2 i 1 ltac:(lia) ltac:(lia)) as E. unfold items in E. rewrite N2, I2 in E. injection E as E.
  apply (f_equal (fun l => l !! j)) in E. rewrite !slice_lookup in E by lia. rewrite E, Ha by lia.
  unfold pool_gamma, pool_alpha, pool_seed, pool_pos. rewrite N0, I0. by rewrite A1, A2, A3, A4, A5.
Qed.

(** *** Generation *)

Context (Hfb : 16 <= field_bytes_of (F := F)).
Abbreviation fb := (field_bytes_of (F := F)).
Abbreviation stride := (t + k * fb).

Lemma alpha2_all_spec s1 p1 s2 p2 start num : exists l,
  alpha2_all (F := F) T fb num (stream_bytes s1 p1 (start * stride) (num * stride)) (stream_bytes s2 p2 (start * t) (num * t)) = Some l /\ length l = num * k /\
  forall i j, i < num -> j < k -> l !! (i * k + j) =
    Some (fsub (of_Z (Z.b2z (Z.testbit (gamma_at T fb s1 p1 s2 p2 (start + i)) (Z.of_nat j)))) (alpha_at T fb s1 p1 (start + i) j)).
Proof.
  pose proof (k_pos T) as Hk. unfold alpha2_all. set (all1 := stream_bytes s1 _ _ _). set (g2 := stream_bytes s2 _ _ _).
  assert (E : forall idx, idx < num * k -> alpha2_item (F := F) T fb all1 g2 (idx / k) (idx mod k) =
    Some (fsub (of_Z (Z.b2z (Z.testbit (gamma_at T fb s1 p1 s2 p2 (start + idx / k)) (Z.of_nat (idx mod k))))) (alpha_at T fb s1 p1 (start + idx / k) (idx mod k)))).
  { intros idx Hidx. unfold alpha2_item, all1, g2. pose proof (alpha_in_range T fb Hfb num idx Hidx) as R. pose proof (Nat.Div0.div_lt_upper_bound idx k num ltac:(lia)) as D.
    rewrite parse_spec by exact R. rewrite get_bit_test by lia. rewrite !stream_bytes_slice by nia. unfold gamma_at, alpha_at.
    replace ((idx / k + 1) * t - idx / k * t) with t by nia. replace (idx / k * stride + t - idx / k * stride) with t by lia.
    replace ((start + idx / k) * stride) with (start * stride + idx / k * stride) by lia. replace ((start + idx / k) * t) with (start * t + idx / k * t) by lia.
    by rewrite !Nat.add_assoc. }
  eexists. split; [apply (all_some_map fzero), Forall_seq; intros idx Hidx; rewrite E by lia; by eexists|]. rewrite length_map, length_seq. split; [done|].
  intros i j Hi Hj. rewrite list_lookup_fmap, lookup_seq_lt by nia. cbn [fmap option_fmap option_map Nat.add]. rewrite E by nia.
  rewrite Nat.div_add_l, Nat.div_small, Nat.add_0_r by lia. by rewrite (Nat.add_comm (i * k)), Nat.Div0.mod_add, Nat.mod_small by lia.
Qed.

Lemma from_vec_contents {A} (l : list A) : contents (from_vec l) = l /\ sized (from_vec l).
Proof. by destruct l. Qed.

Lemma random_edabits_spec seed0 num : protocol (tpure (random_edabits_lazy T seed0 num))
  (fun r => correlated r /\ total (t0 r) = num /\ cursor (t0 r) = 0).
Proof.
  pose proof (k_pos T) as Hk. apply protocol_id. unfold tpure. destruct (Nat.eqb_spec num 0) as [->|Hnum].
  { apply protocol_ret'. split; [|done]. split; cbn; try done; [|lia]. split_and!; split; cbn; try done. split_and!; try done. by right. }
  eapply protocol_bind; [exact fork_spec|]. intros ? ? ? (a & b & d & [= -> -> ->]). unfold snapshot, Rep3Rand_new. cbn [rng1 rng2 t0 t1 t2].
  rewrite !fresh_seed, !fresh_pos, !fill_fresh.
  assert (Es : forall s n, map (fun i => keystream s (Z.of_nat i)) (seq 0 n) = stream_bytes s 0 0 n) by done. rewrite !Es.
  destruct (alpha2_all_spec a 0 d 0 0 num) as (l & El & Ll & Hl). rewrite !Nat.mul_0_l in El. rewrite El. cbn [indexed].
  eapply protocol_weaken; [apply (protocol_ext _ _ _ (network (fun _ => send_many ID2 l) ;~ mret (lazy_new a 0 d 0 num [] ID0)) (mret (lazy_new b 0 a 0 num [] ID1))
    (x <~ network (fun _ => recv_many ID0) ;; mdebug_assert (Nat.eqb (length x) (num * k)) ;~ mret (lazy_new d 0 b 0 num x ID2))); [done..|]; apply (send_0_to_2 l _ _ (fun x => Nat.eqb (length x) (num * k)))|].
  { apply Nat.eqb_eq. exact Ll. }
  intros r ->. destruct (from_vec_contents l) as [Ec Ez]. split; [|done]. split; cbn; try done.
  - split_and!; split; cbn; try done; [lia..|]. rewrite Ec. split_and!; [done|lia|by left].
  - intros i j _ Hi Hj. rewrite Ec. unfold pool_gamma, pool_alpha, pool_seed, pool_pos. cbn. by apply Hl.
Qed.

End Eda.
End Pools.
