(* ===== verification/LazyEdaBitsRing.v ===== *)
(** * Pools of correlated bits in the ring

    [LazyEdaBitsRing] and [random_edabits_ring_lazy] of
    [mpc-core/src/preprocessing/edabits.rs]: as [LazyEdaBits], with the summands in
    the ring and without a cache.  [lr_persisted] is the cursor in the file of the
    pool, if it has one. *)

From Stdlib Require Import ZArith Lia List Bool Setoid Morphisms.
From stdpp Require Import base list.
From S2P Require Import Prelude Words Field Carry Ring2k RingCarry MpcNet Rep3Ctx Rep3Rules Rep3Share Rep3Arith Rep3Correct Rep3BinCorrect Rep3Ring Rep3RingCorrect Rep3RingBin Rep3RingConv Rep3RingMany Rep3RingConvMany Rep3Preproc Rep3PreprocCorrect BackingStore KeyStream LazyEdaBits LazyEdaBitsCorrect.
Import ListNotations.
Local Open Scope nat_scope.
Local Open Scope mpc_scope.

Section RingPools.
Context {F : Type} `{JF : JoltField F} `{PF : !PrimeField F} `{RO : !RngOps F} `{SR : !StreamRng F} `{B : Build}.
Context (reuse_preproc : bool).

Record LazyEdaBitsRing := mkLazyRing {
  lr_seed1 : Seed; lr_pos1 : Z; lr_seed2 : Seed; lr_pos2 : Z;
  lr_total : nat; lr_cursor : nat; alpha2_flat : BackingStore Z; lr_party : PartyID; lr_persisted : option nat
}.

Definition ring_empty (seed0 : Seed) (id : PartyID) : LazyEdaBitsRing := mkLazyRing seed0 0 seed0 0 0 0 Empty id None.
Definition ring_new (s1 : Seed) (p1 : Z) (s2 : Seed) (p2 : Z) (tot : nat) (flat : list Z) (id : PartyID) : LazyEdaBitsRing :=
  mkLazyRing s1 p1 s2 p2 tot 0 (from_vec flat) id None.
(** the cursor, the store and what is persisted change *)
Definition lr_with (l : LazyEdaBitsRing) (c : nat) (store : BackingStore Z) (persisted : option nat) : LazyEdaBitsRing :=
  mkLazyRing (lr_seed1 l) (lr_pos1 l) (lr_seed2 l) (lr_pos2 l) (lr_total l) c store (lr_party l) persisted.
(** [persist_cursor]; with [reuse-preproc] [update_cursor] does nothing. *)
Definition persist (persisted : option nat) (c : nat) : option nat :=
  match persisted with Some old => Some (if reuse_preproc then old else c) | None => None end.

Definition ring_stride (T : RingType) : nat := (1 + Z.to_nat (K T)) * size_of T.

(** [T::from_le_bytes(&bytes[start..start + t_bytes])] *)
Definition element_at (T : RingType) (bytes : list Z) (start : nat) : Z := ring_from_le_bytes T (slice bytes start (start + size_of T)).

(** [LazyEdaBitsRing::take_batch]: parties 0 and 1 do not persist the cursor. *)
Definition ring_take_batch (T : RingType) (l : LazyEdaBitsRing) (n : nat) : Outcome (EdaBitsRingBatch * LazyEdaBitsRing) :=
  let c := lr_cursor l in
  if Nat.ltb (lr_total l) (c + n) then Refuse
  else if Nat.eqb n 0 then Ret (mkEdaRingBatch [] [], l)
  else
    let k := Z.to_nat (K T) in
    let t_bytes := size_of T in
    let stride := ring_stride T in
    match lr_party l with
    | ID2 =>
        let flat_start := c * k in
        let flat_end := flat_start + n * k in
        alphas_flat <! or_err (read_consume (alpha2_flat l) flat_start flat_end) ;;
        Ret (mkEdaRingBatch (replicate n 0%Z) alphas_flat,
             lr_with l (c + n) (consume 0%Z reuse_preproc (alpha2_flat l) flat_start flat_end) (persist (lr_persisted l) (c + n)))
    | id =>
        let interleaved :=
          match id with
          | ID0 => seek_and_generate (lr_seed1 l) (lr_pos1 l) (c * stride) (n * stride)
          | _ => seek_and_generate (lr_seed2 l) (lr_pos2 l) (c * stride) (n * stride)
          end in
        let g2_bytes := match id with ID0 => seek_and_generate (lr_seed2 l) (lr_pos2 l) (c * stride) (n * stride) | _ => [] end in
        let gammas :=
          match id with
          | ID0 => map (fun i => ring_xor T (element_at T interleaved (i * stride)) (element_at T g2_bytes (i * stride))) (seq 0 n)
          | _ => replicate n 0%Z
          end in
        let alphas_flat := map (fun idx => element_at T interleaved (idx / k * stride + t_bytes + idx mod k * t_bytes)) (seq 0 (n * k)) in
        Ret (mkEdaRingBatch gammas alphas_flat, lr_with l (c + n) (alpha2_flat l) (lr_persisted l))
    end.

(** [random_edabits_ring_lazy] *)
Definition ring_alpha2_item (T : RingType) (all_bytes1 g2_bytes : list Z) (i j : nat) : Z :=
  let t_bytes := size_of T in
  let base := i * ring_stride T in
  let gamma := ring_xor T (element_at T all_bytes1 base) (element_at T g2_bytes base) in
  let alpha_1 := element_at T all_bytes1 (base + t_bytes + j * t_bytes) in
  ring_sub T (Z.b2z (get_bit T gamma (Z.of_nat j) =? 1)%Z) alpha_1.
Definition random_edabits_ring_lazy (T : RingType) (seed0 : Seed) (num : nat) : MPC LazyEdaBitsRing :=
  id <~ get_id ;;
  if Nat.eqb num 0 then mret (ring_empty seed0 id)
  else
    eda_rand <~ with_rand Rep3Rand_fork ;;
    let '(s1, p1, s2, p2) := snapshot eda_rand in
    let k := Z.to_nat (K T) in
    match id with
    | ID0 =>
        let all_bytes1 := fst (fill_bytes (num * ring_stride T) (rng1 eda_rand)) in
        let g2_bytes := fst (fill_bytes (num * ring_stride T) (rng2 eda_rand)) in
        network (fun _ => send_many ID2 (map (fun idx => ring_alpha2_item T all_bytes1 g2_bytes (idx / k) (idx mod k)) (seq 0 (num * k)))) ;~
        mret (ring_new s1 p1 s2 p2 num [] id)
    | ID1 => mret (ring_new s1 p1 s2 p2 num [] id)
    | ID2 =>
        alpha_2_all <~ network (fun _ => recv_many ID0) ;;
        mdebug_assert (Nat.eqb (length alpha_2_all) (num * k)) ;~
        mret (ring_new s1 p1 s2 p2 num alpha_2_all id)
    end.

(** *** Files

    The directory of a pool: what [write_meta] wrote, and the elements in the file of
    [alpha2]. *)
Record RingMeta := mkRingMeta { rm_seed1 : Seed; rm_pos1 : Z; rm_seed2 : Seed; rm_pos2 : Z; rm_total : nat; rm_party : PartyID; rm_cursor : nat }.
Record RingDir := mkRingDir { dir_meta : option RingMeta; dir_alpha2 : option (list Z) }.

Definition meta_of (l : LazyEdaBitsRing) (c : nat) : RingMeta := mkRingMeta (lr_seed1 l) (lr_pos1 l) (lr_seed2 l) (lr_pos2 l) (lr_total l) (lr_party l) c.
(** [LazyEdaBitsRing::save]: the directory and the pool after it *)
Definition ring_save (l : LazyEdaBitsRing) (dir : RingDir) : RingDir * LazyEdaBitsRing :=
  (mkRingDir (Some (meta_of l (lr_cursor l))) (if is_empty (alpha2_flat l) then dir_alpha2 dir else save_to_file (alpha2_flat l)),
   lr_with l (lr_cursor l) (alpha2_flat l) (Some (lr_cursor l))).
(** [LazyEdaBitsRing::load] *)
Definition ring_load (seed0 : Seed) (dir : RingDir) (id : PartyID) : Outcome LazyEdaBitsRing :=
  match dir_meta dir with
  | None => Ret (ring_empty seed0 id)
  | Some m =>
      if decide (rm_party m = id) then
        store <! match id with
                 | ID2 => if Nat.ltb 0 (rm_total m) then match dir_alpha2 dir with Some file => Ret (load_from_file file) | None => Refuse end else Ret Empty
                 | _ => Ret Empty
                 end ;;
        Ret (mkLazyRing (rm_seed1 m) (rm_pos1 m) (rm_seed2 m) (rm_pos2 m) (rm_total m) (rm_cursor m) store id (Some (rm_cursor m)))
      else Fault
  end.
(** The directory of a pool that was loaded and then used: [update_cursor] has written the
    persisted cursor, and consumption works on the file. *)
Definition dir_after (dir : RingDir) (l : LazyEdaBitsRing) : RingDir :=
  mkRingDir (match lr_persisted l with Some c => Some (meta_of l c) | None => dir_meta dir end)
    (match alpha2_flat l with FileBacked file _ _ => Some file | _ => dir_alpha2 dir end).

(** ** What is taken *)

Section Correlation.
Context (T : RingType).
Abbreviation k := (Z.to_nat (K T)).
Abbreviation t := (size_of T).
Abbreviation stride := (ring_stride T).

Definition ring_gamma_at (s1 : Seed) (p1 : Z) (s2 : Seed) (p2 : Z) (i : nat) : Z :=
  ring_xor T (ring_from_le_bytes T (stream_bytes s1 p1 (i * stride) t)) (ring_from_le_bytes T (stream_bytes s2 p2 (i * stride) t)).
Definition ring_alpha_at (s : Seed) (p : Z) (i j : nat) : Z := ring_from_le_bytes T (stream_bytes s p (i * stride + t + j * t) t).

Lemma ring_gamma_word s1 p1 s2 p2 i : word (K T) (ring_gamma_at s1 p1 s2 p2 i).
Proof. unfold ring_gamma_at. rewrite ring_xor_word by apply ring_from_stream_word. apply bword_lxor; [apply K_nonneg|apply ring_from_stream_word..]. Qed.
Lemma element_stream s p off n a : a + t <= n -> element_at T (stream_bytes s p off n) a = ring_from_le_bytes T (stream_bytes s p (off + a) t).
Proof. intros H. unfold element_at. rewrite stream_bytes_slice by lia. by replace (a + t - a) with t by lia. Qed.
Lemma stride_t : stride = t + k * t.
Proof. unfold ring_stride. lia. Qed.
Lemma ring_alpha_in n i j : i < n -> j < k -> i * stride + t + j * t + t <= n * stride.
Proof.
  intros. rewrite stride_t. assert (i * (t + k * t) + (t + k * t) <= n * (t + k * t)) by nia. assert (j * t + t <= k * t) by nia. lia.
Qed.

Record ring_correlated (ls : Tri LazyEdaBitsRing) : Prop := {
  rc_ids : lr_party (t0 ls) = ID0 /\ lr_party (t1 ls) = ID1 /\ lr_party (t2 ls) = ID2;
  rc_pos : (0 <= lr_pos1 (t0 ls))%Z /\ (0 <= lr_pos2 (t0 ls))%Z;
  rc_total : lr_total (t1 ls) = lr_total (t0 ls) /\ lr_total (t2 ls) = lr_total (t0 ls);
  rc_cursor : lr_cursor (t1 ls) = lr_cursor (t0 ls) /\ lr_cursor (t2 ls) = lr_cursor (t0 ls);
  rc_stream : lr_seed2 (t1 ls) = lr_seed1 (t0 ls) /\ lr_pos2 (t1 ls) = lr_pos1 (t0 ls);
  rc_store : sized (alpha2_flat (t2 ls)) /\ lr_total (t0 ls) * k <= length (contents (alpha2_flat (t2 ls)));
  rc_alpha2 i j : lr_cursor (t0 ls) <= i -> i < lr_total (t0 ls) -> j < k -> contents (alpha2_flat (t2 ls)) !! (i * k + j) =
    Some (ring_sub T (Z.b2z (Z.testbit (ring_gamma_at (lr_seed1 (t0 ls)) (lr_pos1 (t0 ls)) (lr_seed2 (t0 ls)) (lr_pos2 (t0 ls)) i) (Z.of_nat j)))
                     (ring_alpha_at (lr_seed1 (t0 ls)) (lr_pos1 (t0 ls)) i j))
}.

Definition ring_pool_gammas (ls : Tri LazyEdaBitsRing) (n : nat) : list Z :=
  map (ring_gamma_at (lr_seed1 (t0 ls)) (lr_pos1 (t0 ls)) (lr_seed2 (t0 ls)) (lr_pos2 (t0 ls))) (seq (lr_cursor (t0 ls)) n).

Definition ring_alphas (s : Seed) (p : Z) (c n : nat) : list Z := map (fun idx => ring_alpha_at s p (c + idx / k) (idx mod k)) (seq 0 (n * k)).
Lemma ring_alphas_lookup s p c n i j : i < n -> j < k -> ring_alphas s p c n !! (i * k + j) = Some (ring_alpha_at s p (c + i) j).
Proof.
  intros Hi Hj. unfold ring_alphas. rewrite list_lookup_fmap, lookup_seq_lt by nia. cbn. f_equal.
  rewrite Nat.div_add_l, Nat.div_small, Nat.add_0_r by lia. by rewrite (Nat.add_comm (i * k)), Nat.Div0.mod_add, Nat.mod_small by lia.
Qed.
Lemma ring_alphas_generated s p c n : (0 <= p)%Z ->
  map (fun idx => element_at T (seek_and_generate s p (c * stride) (n * stride)) (idx / k * stride + t + idx mod k * t)) (seq 0 (n * k)) = ring_alphas s p c n.
Proof.
  intros Hp. pose proof (k_pos T). rewrite seek_spec by done. apply map_ext_in. intros idx Hidx%in_seq.
  pose proof (Nat.mod_upper_bound idx k ltac:(lia)). pose proof (Nat.Div0.div_lt_upper_bound idx k n ltac:(lia)).
  rewrite element_stream by (by apply ring_alpha_in). unfold ring_alpha_at. do 2 f_equal. nia.
Qed.
Lemma ring_gammas_generated s1 p1 s2 p2 c n : (0 <= p1)%Z -> (0 <= p2)%Z ->
  map (fun i => ring_xor T (element_at T (seek_and_generate s1 p1 (c * stride) (n * stride)) (i * stride))
    (element_at T (seek_and_generate s2 p2 (c * stride) (n * stride)) (i * stride))) (seq 0 n) = map (ring_gamma_at s1 p1 s2 p2) (seq c n).
Proof.
  intros H1 H2. rewrite !seek_spec by done. rewrite (map_seq_add _ c). apply map_ext_in. intros i Hi%in_seq.
  rewrite !element_stream by (pose proof stride_t; nia). unfold ring_gamma_at. do 2 f_equal; f_equal; nia.
Qed.

(** [T] of a batch: parties take together. *)
Lemma ring_take_correlated ls n : ring_correlated ls -> lr_cursor (t0 ls) + n <= lr_total (t0 ls) -> exists b ls',
  tmap (fun l => ring_take_batch T l n) ls = tmap2 (fun b l => Ret (b, l)) b ls' /\
  ring_edabits T b (ring_pool_gammas ls n) /\ ring_correlated ls' /\ lr_cursor (t0 ls') = lr_cursor (t0 ls) + n /\ lr_total (t0 ls') = lr_total (t0 ls).
Proof.
  intros [(I0 & I1 & I2) (P1 & P2) (T1 & T2) (C1 & C2) (S1 & Q1) (Z & L) Ha] Hn. pose proof (k_pos T) as Hk.
  unfold tmap, tmap2, ring_take_batch. rewrite I0, I1, I2, T1, T2, C1, C2. destruct (Nat.ltb_spec (lr_total (t0 ls)) (lr_cursor (t0 ls) + n)); [lia|].
  destruct (Nat.eqb_spec n 0) as [->|Hn0].
  { exists (mkTri (mkEdaRingBatch [] []) (mkEdaRingBatch [] []) (mkEdaRingBatch [] [])), ls. split; [done|]. split; [by split|]. rewrite Nat.add_0_r. split; [by split|done]. }
  cbn zeta. rewrite read_consume_spec by (try done; nia). rewrite S1, Q1, ring_gammas_generated, !ring_alphas_generated by done. cbn [or_err obind].
  eexists (mkTri _ _ _), (mkTri _ _ _). split; [reflexivity|]. cbn [t0 t1 t2]. destruct (consume_spec 0%Z reuse_preproc _ (lr_cursor (t0 ls) * k) (lr_cursor (t0 ls) * k + n * k) Z) as (Z' & L' & K').
  split; [|split; [|by cbn]].
  - assert (Hl : length (slice (contents (alpha2_flat (t2 ls))) (lr_cursor (t0 ls) * k) (lr_cursor (t0 ls) * k + n * k)) = n * k) by (rewrite slice_length; nia).
    split; cbn [t0 t1 t2 rb_gammas rb_alphas_flat]; unfold ring_pool_gammas, ring_alphas; rewrite ?length_map, ?length_seq, ?length_replicate, ?Hl; try done.
    + apply Forall_map, Forall_forall. intros i _. apply ring_gamma_word.
    + intros idx g Hg i Hi. assert (Hidx : idx < n) by (apply lookup_lt_Some in Hg; by rewrite length_map, length_seq in Hg).
      rewrite list_lookup_fmap, lookup_seq_lt in Hg by done. cbn in Hg. injection Hg as <-. fold (ring_alphas (lr_seed1 (t0 ls)) (lr_pos1 (t0 ls)) (lr_cursor (t0 ls)) n).
      eexists _, _. split; [by apply ring_alphas_lookup|]. split.
      * rewrite slice_lookup by nia. replace (lr_cursor (t0 ls) * k + (idx * k + i)) with ((lr_cursor (t0 ls) + idx) * k + i) by nia. apply Ha; lia.
      * split; [apply ring_from_stream_word|]. split; [apply ring_sub_word; [destruct (Z.testbit _ _); [apply word_1_K|apply word_0_K]|apply ring_from_stream_word]|]. rewrite (ring_sub_eqm T). apply eqm_eq. lia.
  - split; cbn [t0 t1 t2 lr_with lr_party lr_pos1 lr_pos2 lr_total lr_cursor lr_seed1 lr_seed2 alpha2_flat]; try done.
    + split; [done|]. by rewrite L'.
    + intros i j Hi Hj Hjk. rewrite K' by nia. apply Ha; lia.
Qed.

Lemma random_edabits_ring_spec seed0 num : protocol (tpure (random_edabits_ring_lazy T seed0 num))
  (fun r => ring_correlated r /\ lr_total (t0 r) = num /\ lr_cursor (t0 r) = 0).
Proof.
  pose proof (k_pos T) as Hk. apply protocol_id. unfold tpure. destruct (Nat.eqb_spec num 0) as [->|Hnum].
  { apply protocol_ret'. split; [|done]. split; cbn; try done; lia. }
  eapply protocol_bind; [exact fork_spec|]. intros ? ? ? (a & b & d & [= -> -> ->]). unfold snapshot, Rep3Rand_new. cbn [rng1 rng2 t0 t1 t2].
  rewrite !fresh_seed, !fresh_pos, !fill_fresh.
  assert (Es : forall s n, map (fun i => keystream s (Z.of_nat i)) (seq 0 n) = stream_bytes s 0 0 n) by done. rewrite !Es.
  set (l := map _ _). eapply protocol_weaken; [apply (protocol_ext _ _ _ (network (fun _ => send_many ID2 l) ;~ mret (ring_new a 0 d 0 num [] ID0)) (mret (ring_new b 0 a 0 num [] ID1))
    (x <~ network (fun _ => recv_many ID0) ;; mdebug_assert (Nat.eqb (length x) (num * k)) ;~ mret (ring_new d 0 b 0 num x ID2))); [done..|]; apply (send_0_to_2 l _ _ (fun x => Nat.eqb (length x) (num * k)))|].
  { apply Nat.eqb_eq. unfold l. by rewrite length_map, length_seq. }
  intros r ->. destruct (from_vec_contents l) as [Ec Ez]. split; [|done]. split; cbn; try done; rewrite Ec.
  - split; [done|]. unfold l. by rewrite length_map, length_seq.
  - intros i j _ Hi Hj. unfold l. rewrite list_lookup_fmap, lookup_seq_lt by nia. cbn [fmap option_fmap option_map Nat.add]. f_equal.
    rewrite Nat.div_add_l, Nat.div_small, Nat.add_0_r by lia. rewrite (Nat.add_comm (i * k)), Nat.Div0.mod_add, Nat.mod_small by lia.
    unfold ring_alpha2_item. pose proof (ring_alpha_in num i j Hi Hj). rewrite !element_stream by lia. rewrite get_bit_test by lia. done.
Qed.

End Correlation.

(** ** Loading *)

Lemma loaded_persisted seed0 dir id l : ring_load seed0 dir id = Ret l -> 0 < lr_total l -> lr_persisted l = Some (lr_cursor l) /\ lr_party l = id.
Proof.
  unfold ring_load. destruct (dir_meta dir) as [m|]; [|intros [= <-]; cbn; lia]. destruct (decide (rm_party m = id)) as [<-|]; [|done].
  destruct (rm_party m); [by intros [= <-]|by intros [= <-]|].
  destruct (Nat.ltb 0 (rm_total m)); [destruct (dir_alpha2 dir) as [file|]; [|done]|]; cbn [obind]; intros [= <-]; done.
Qed.

(** Loading again gives the persisted cursor. *)
Lemma reload_after seed0 dir id l l' c : ring_load seed0 dir id = Ret l -> 0 < lr_total l -> lr_total l' = lr_total l -> lr_party l' = lr_party l -> lr_persisted l' = Some c ->
  exists r, ring_load seed0 (dir_after dir l') id = Ret r /\ lr_cursor r = c.
Proof.
  intros Hl Ht Et Ep Hc. destruct (loaded_persisted _ _ _ _ Hl Ht) as [_ Hid]. unfold ring_load, dir_after in *. rewrite Hc. cbn [dir_meta dir_alpha2 meta_of rm_party rm_total].
  rewrite Ep, Hid, decide_True by done. destruct id; try (by eexists). rewrite Et, (proj2 (Nat.ltb_lt _ _) Ht). destruct (alpha2_flat l'); try (by eexists).
  all: destruct (dir_meta dir) as [m|]; [|injection Hl as <-; cbn in Ht; lia]; destruct (decide (rm_party m = ID2)); [|done];
    destruct (Nat.ltb_spec 0 (rm_total m)); [destruct (dir_alpha2 dir); [by eexists|done]|cbn in Hl; injection Hl as <-; cbn in Ht; lia].
Qed.

End RingPools.
