(* ===== verification/LazyDaBits.v ===== *)
(** * Pools of single correlated bits

    [mpc-core/src/preprocessing/dabits.rs]: [LazyDaBits] and [random_dabits_lazy].  Party 0
    knows the bit [gamma], parties 1 and 2 know the sign [theta], and the three
    share [(-1)^theta gamma].  Party 1 regenerates its shares, party 0 stores the
    summand party 2 sent it, party 2 stores both of its summands. *)

From Stdlib Require Import ZArith Lia List Bool Ring.
From stdpp Require Import base list.
From S2P Require Import Prelude Words Field Carry Ring2k RingCarry MpcNet Rep3Ctx Rep3Rules Rep3Share Rep3Arith Rep3Correct Rep3BinCorrect Rep3Ring Rep3RingCorrect Rep3RingMany Rep3Preproc Rep3PreprocCorrect BackingStore KeyStream LazyEdaBits LazyEdaBitsCorrect.
Import ListNotations.
Local Open Scope nat_scope.
Local Open Scope mpc_scope.

Section DaBits.
Context {F : Type} `{JF : JoltField F} `{PF : !PrimeField F} `{RO : !RngOps F} `{SR : !StreamRng F} `{B : Build}.
Context (reuse_preproc : bool).
Add Ring F_ring_dabits : F_ring.

Record LazyDaBits := mkLazyDa {
  d_seed1 : Seed; d_pos1 : Z; d_seed2 : Seed; d_pos2 : Z; d_field_bytes : nat; d_party : PartyID;
  d_total : nat; d_cursor : nat; stored : BackingStore F; d_persisted : option nat
}.

Definition da_empty (seed0 : Seed) (id : PartyID) : LazyDaBits := mkLazyDa seed0 0 seed0 0 field_bytes_of id 0 0 Empty None.
Definition da_new (s1 : Seed) (p1 : Z) (s2 : Seed) (p2 : Z) (tot : nat) (data : list F) (id : PartyID) : LazyDaBits :=
  mkLazyDa s1 p1 s2 p2 field_bytes_of id tot 0 (from_vec data) None.
Definition d_with (l : LazyDaBits) (c : nat) (store : BackingStore F) (persisted : option nat) : LazyDaBits :=
  mkLazyDa (d_seed1 l) (d_pos1 l) (d_seed2 l) (d_pos2 l) (d_field_bytes l) (d_party l) (d_total l) c store persisted.
(** [self.cursor += n; self.persist_cursor(); self.stored.consume(..)] *)
Definition da_advance (l : LazyDaBits) (n start end_ : nat) : LazyDaBits :=
  d_with l (d_cursor l + n) (consume fzero reuse_preproc (stored l) start end_)
    (match d_persisted l with Some old => Some (if reuse_preproc then old else d_cursor l + n) | None => None end).

(** [(b & 1) != 0] *)
Definition low_bit (b : Z) : bool := negb (Z.land b 1 =? 0)%Z.
Definition thetas_of (bytes : list Z) : list bool := map low_bit bytes.
(** [(-1)^theta] *)
Definition neg1_theta (theta : bool) : F := if theta then fopp fone else fone.

(** The shares of each party; [None] is an index out of range. *)
Definition da_share0 (fb : nat) (s1_buf : list Z) (stored_slice : list F) (i : nat) : option (Share F) :=
  match parse_field s1_buf (i * (1 + 2 * fb) + 1 + fb), stored_slice !! i with
  | Some r1, Some s20 => Some (mkShare r1 s20)
  | _, _ => None
  end.
Definition da_s12 (fb : nat) (thetas : list bool) (s2_buf : list Z) (i : nat) : option (F * F) :=
  match parse_field s2_buf (i * (1 + 2 * fb) + 1), parse_field s2_buf (i * (1 + 2 * fb) + 1 + fb), thetas !! i with
  | Some alpha1, Some r1, Some theta => let v1 := fmul (neg1_theta theta) alpha1 in Some (fsub v1 r1, r1)
  | _, _, _ => None
  end.
Definition da_share1 (fb : nat) (thetas : list bool) (s2_buf : list Z) (i : nat) : option (Share F) :=
  match da_s12 fb thetas s2_buf i with Some (s12, r1) => Some (mkShare s12 r1) | None => None end.
Definition da_share2 (stored_slice : list F) (i : nat) : option (Share F) :=
  match stored_slice !! (2 * i), stored_slice !! (2 * i + 1) with Some s20, Some s12 => Some (mkShare s20 s12) | _, _ => None end.
Definition da_gamma (fb : nat) (s1_buf g2_bytes : list Z) (i : nat) : option bool :=
  match s1_buf !! (i * (1 + 2 * fb)), g2_bytes !! i with Some a, Some b => Some (low_bit (Z.lxor a b)) | _, _ => None end.

(** [LazyDaBits::take_batch] *)
Definition da_take_batch (l : LazyDaBits) (n : nat) : Outcome (DaBitBatch F * LazyDaBits) :=
  let c := d_cursor l in
  if Nat.ltb (d_total l) (c + n) then Refuse
  else
    let fb := d_field_bytes l in
    let da_stride := 1 + 2 * fb in
    match d_party l with
    | ID2 =>
        let thetas := thetas_of (seek_and_generate (d_seed2 l) (d_pos2 l) c n) in
        let store_base := c * 2 in
        stored_slice <! or_panic (read_consume (stored l) store_base (store_base + 2 * n)) ;;
        v_shares <! or_panic (all_some (map (da_share2 stored_slice) (seq 0 n))) ;;
        Ret (mkDaBatch (replicate n false) thetas v_shares, da_advance l n store_base (store_base + 2 * n))
    | ID0 =>
        let s1_buf := seek_and_generate (d_seed1 l) (d_pos1 l) (c * da_stride) (n * da_stride) in
        let g2_bytes := seek_and_generate (d_seed2 l) (d_pos2 l) c n in
        gammas <! or_panic (all_some (map (da_gamma fb s1_buf g2_bytes) (seq 0 n))) ;;
        stored_slice <! or_panic (read_consume (stored l) c (c + n)) ;;
        v_shares <! or_panic (all_some (map (da_share0 fb s1_buf stored_slice) (seq 0 n))) ;;
        Ret (mkDaBatch gammas (replicate n false) v_shares, da_advance l n c (c + n))
    | ID1 =>
        let thetas := thetas_of (seek_and_generate (d_seed1 l) (d_pos1 l) c n) in
        let s2_buf := seek_and_generate (d_seed2 l) (d_pos2 l) (c * da_stride) (n * da_stride) in
        v_shares <! or_panic (all_some (map (da_share1 fb thetas s2_buf) (seq 0 n))) ;;
        Ret (mkDaBatch (replicate n false) thetas v_shares, d_with l (c + n) (stored l) (d_persisted l))
    end.

(** [apply_extension] *)
Definition da_apply_extension (l : LazyDaBits) (deficit : nat) (stored_ext : list F) : LazyDaBits :=
  if Nat.eqb deficit 0 then l
  else
    let store := match stored_ext with [] => stored l | _ => extend fzero (stored l) stored_ext end in
    mkLazyDa (d_seed1 l) (d_pos1 l) (d_seed2 l) (d_pos2 l) (d_field_bytes l) (d_party l) (d_total l + deficit) (d_cursor l) store (d_persisted l).

(** ** Generation ([random_dabits_lazy]) *)

Definition da_alpha2 (fb : nat) (stream1 g2_bytes : list Z) (i : nat) : option F :=
  match da_gamma fb stream1 g2_bytes i, parse_field stream1 (i * (1 + 2 * fb) + 1) with
  | Some gamma_bit, Some alpha1 => Some (fsub (of_Z (Z.b2z gamma_bit)) alpha1)
  | _, _ => None
  end.
Definition da_s20 (thetas : list bool) (alpha2 : list F) (i : nat) : option F :=
  match thetas !! i, alpha2 !! i with Some theta, Some a => Some (fmul (neg1_theta theta) a) | _, _ => None end.

Definition random_dabits_lazy (seed0 : Seed) (num : nat) : MPC LazyDaBits :=
  id <~ get_id ;;
  if Nat.eqb num 0 then mret (da_empty seed0 id)
  else
    let fb := field_bytes_of (F := F) in
    let da_stride := 1 + 2 * fb in
    eda_rand <~ with_rand Rep3Rand_fork ;;
    let '(s1, p1, s2, p2) := snapshot eda_rand in
    match id with
    | ID0 =>
        let stream1 := fst (fill_bytes (num * da_stride) (rng1 eda_rand)) in
        let stream2 := fst (fill_bytes num (rng2 eda_rand)) in
        alpha2 <~ indexed (all_some (map (da_alpha2 fb stream1 stream2) (seq 0 num))) ;;
        network (fun _ => send_many ID2 alpha2) ;~
        s20 <~ network (fun _ => recv_many ID2) ;;
        mdebug_assert (Nat.eqb (length s20) num) ;~
        mret (da_new s1 p1 s2 p2 num s20 id)
    | ID1 =>
        let stream2 := fst (fill_bytes (num * da_stride) (rng2 eda_rand)) in
        let thetas := thetas_of (fst (fill_bytes num (rng1 eda_rand))) in
        s12 <~ indexed (all_some (map (fun i => fst <$> da_s12 fb thetas stream2 i) (seq 0 num))) ;;
        network (fun _ => send_many ID2 s12) ;~
        mret (da_new s1 p1 s2 p2 num [] id)
    | ID2 =>
        let thetas := thetas_of (fst (fill_bytes num (rng2 eda_rand))) in
        alpha2 <~ network (fun _ => recv_many ID0) ;;
        s12_recv <~ network (fun _ => recv_many ID1) ;;
        mdebug_assert (Nat.eqb (length alpha2) num) ;~
        mdebug_assert (Nat.eqb (length s12_recv) num) ;~
        s20 <~ indexed (all_some (map (da_s20 thetas alpha2) (seq 0 num))) ;;
        network (fun _ => send_many ID0 s20) ;~
        s12 <~ indexed (all_some (map (fun i => s12_recv !! i) (seq 0 num))) ;;
        mret (da_new s1 p1 s2 p2 num (interleaved s20 s12) id)
    end.

(** ** The values of a stream *)

Section Stream.
Context (fb : nat).
Abbreviation stride := (1 + 2 * fb).

Definition field_at (s : Seed) (p : Z) (off : nat) : F :=
  of_Z (Z.lor (Z.shiftl (from_le_bytes (stream_bytes s p (off + 8) 8)) 64) (from_le_bytes (stream_bytes s p off 8))).
Definition da_gamma_at (s1 : Seed) (p1 : Z) (s2 : Seed) (p2 : Z) (i : nat) : bool :=
  low_bit (Z.lxor (keystream s1 (4 * p1 + Z.of_nat (i * stride))) (keystream s2 (4 * p2 + Z.of_nat i))).
Definition theta_at (s : Seed) (p : Z) (i : nat) : bool := low_bit (keystream s (4 * p + Z.of_nat i)).
Definition alpha1_at (s : Seed) (p : Z) (i : nat) : F := field_at s p (i * stride + 1).
Definition r1_at (s : Seed) (p : Z) (i : nat) : F := field_at s p (i * stride + 1 + fb).
(** the summands of [(-1)^theta gamma] that are sent *)
Definition s20_at (g t : bool) (alpha1 : F) : F := fmul (neg1_theta t) (fsub (of_Z (Z.b2z g)) alpha1).
Definition s12_at (t : bool) (alpha1 r1 : F) : F := fsub (fmul (neg1_theta t) alpha1) r1.

Lemma stream_lookup s p off n i : i < n -> stream_bytes s p off n !! i = Some (keystream s (4 * p + Z.of_nat (off + i))).
Proof. intros H. unfold stream_bytes. by rewrite list_lookup_fmap, lookup_seq_lt by done. Qed.
Lemma all_some_seq {A} (f : nat -> option A) g c n : (forall i, i < n -> f i = Some (g (c + i))) -> all_some (map f (seq 0 n)) = Some (map g (seq c n)).
Proof.
  intros H. rewrite (map_seq_add g c). assert (E : forall l, Forall (fun i => f i = Some (g (c + i))) l -> all_some (map f l) = Some (map (fun i => g (c + i)) l)).
  { induction 1 as [|i l Hi _ IH]; cbn; [done|]. by rewrite Hi, IH. }
  apply E, Forall_seq. intros i Hi. apply H. lia.
Qed.
Lemma thetas_spec s p c n : thetas_of (stream_bytes s p c n) = map (theta_at s p) (seq c n).
Proof. unfold thetas_of, stream_bytes. by rewrite map_map, (map_seq_add _ c). Qed.

Lemma gamma_spec s1 p1 s2 p2 c n i : i < n ->
  da_gamma fb (stream_bytes s1 p1 (c * stride) (n * stride)) (stream_bytes s2 p2 c n) i = Some (da_gamma_at s1 p1 s2 p2 (c + i)).
Proof. intros H. unfold da_gamma, da_gamma_at. rewrite !stream_lookup by nia. do 5 f_equal. lia. Qed.

Context (Hfb : 16 <= fb).
Lemma field_in_stream s p c n i off : i < n -> off <= 1 + fb ->
  parse_field (stream_bytes s p (c * stride) (n * stride)) (i * stride + off) = Some (field_at s p ((c + i) * stride + off) : F).
Proof.
  intros Hi Ho. rewrite parse_spec by nia. unfold field_at. by replace (c * stride + (i * stride + off)) with ((c + i) * stride + off) by lia.
Qed.
Lemma alpha1_spec s p c n i : i < n -> parse_field (stream_bytes s p (c * stride) (n * stride)) (i * stride + 1) = Some (alpha1_at s p (c + i)).
Proof. intros H. apply field_in_stream; lia. Qed.
Lemma r1_spec s p c n i : i < n -> parse_field (stream_bytes s p (c * stride) (n * stride)) (i * stride + 1 + fb) = Some (r1_at s p (c + i)).
Proof. intros H. rewrite <- Nat.add_assoc, field_in_stream by lia. unfold r1_at. by rewrite Nat.add_assoc. Qed.
Lemma s12_spec st pt s p c n i : i < n ->
  da_s12 fb (map (theta_at st pt) (seq c n)) (stream_bytes s p (c * stride) (n * stride)) i =
    Some (s12_at (theta_at st pt (c + i)) (alpha1_at s p (c + i)) (r1_at s p (c + i)), r1_at s p (c + i)).
Proof. intros H. unfold da_s12. rewrite alpha1_spec, r1_spec by done. by rewrite list_lookup_fmap, lookup_seq_lt by done. Qed.

End Stream.

(** ** The pools of three parties *)

Section Correlation.
Implicit Types ls : Tri LazyDaBits.

Definition pool_gamma0 ls (i : nat) : bool := da_gamma_at (d_field_bytes (t0 ls)) (d_seed1 (t0 ls)) (d_pos1 (t0 ls)) (d_seed2 (t0 ls)) (d_pos2 (t0 ls)) i.
Definition pool_theta ls (i : nat) : bool := theta_at (d_seed1 (t1 ls)) (d_pos1 (t1 ls)) i.
Definition pool_alpha1 ls (i : nat) : F := alpha1_at (d_field_bytes (t0 ls)) (d_seed1 (t0 ls)) (d_pos1 (t0 ls)) i.
Definition pool_r1 ls (i : nat) : F := r1_at (d_field_bytes (t0 ls)) (d_seed1 (t0 ls)) (d_pos1 (t0 ls)) i.
Definition pool_s20 ls (i : nat) : F := s20_at (pool_gamma0 ls i) (pool_theta ls i) (pool_alpha1 ls i).
Definition pool_s12 ls (i : nat) : F := s12_at (pool_theta ls i) (pool_alpha1 ls i) (pool_r1 ls i).

Record da_correlated ls : Prop := {
  dc_ids : d_party (t0 ls) = ID0 /\ d_party (t1 ls) = ID1 /\ d_party (t2 ls) = ID2;
  dc_pos : (0 <= d_pos1 (t0 ls))%Z /\ (0 <= d_pos2 (t0 ls))%Z /\ (0 <= d_pos1 (t1 ls))%Z;
  dc_total : d_total (t1 ls) = d_total (t0 ls) /\ d_total (t2 ls) = d_total (t0 ls);
  dc_cursor : d_cursor (t1 ls) = d_cursor (t0 ls) /\ d_cursor (t2 ls) = d_cursor (t0 ls);
  dc_stream : d_seed2 (t1 ls) = d_seed1 (t0 ls) /\ d_pos2 (t1 ls) = d_pos1 (t0 ls) /\ d_seed2 (t2 ls) = d_seed1 (t1 ls) /\ d_pos2 (t2 ls) = d_pos1 (t1 ls);
  dc_bytes : d_field_bytes (t1 ls) = d_field_bytes (t0 ls) /\ 16 <= d_field_bytes (t0 ls);
  dc_sized : sized (stored (t0 ls)) /\ sized (stored (t2 ls));
  dc_lengths : d_total (t0 ls) <= length (contents (stored (t0 ls))) /\ 2 * d_total (t0 ls) <= length (contents (stored (t2 ls)));
  dc_stored i : d_cursor (t0 ls) <= i -> i < d_total (t0 ls) -> contents (stored (t0 ls)) !! i = Some (pool_s20 ls i) /\
    contents (stored (t2 ls)) !! (2 * i) = Some (pool_s20 ls i) /\ contents (stored (t2 ls)) !! (2 * i + 1) = Some (pool_s12 ls i)
}.

(** The batch of each party from the cursor on. *)
Definition da_items ls (n : nat) : Tri (DaBitBatch F) :=
  let idx := seq (d_cursor (t0 ls)) n in
  mkTri (mkDaBatch (map (pool_gamma0 ls) idx) (replicate n false) (map (fun i => mkShare (pool_r1 ls i) (pool_s20 ls i)) idx))
        (mkDaBatch (replicate n false) (map (pool_theta ls) idx) (map (fun i => mkShare (pool_s12 ls i) (pool_r1 ls i)) idx))
        (mkDaBatch (replicate n false) (map (pool_theta ls) idx) (map (fun i => mkShare (pool_s20 ls i) (pool_s12 ls i)) idx)).
Definition pool_bits ls (n : nat) : list (bool * bool) := map (fun i => (pool_gamma0 ls i, pool_theta ls i)) (seq (d_cursor (t0 ls)) n).

Lemma da_items_dabits ls n : dabits (da_items ls n) (pool_bits ls n).
Proof.
  unfold da_items, pool_bits. split; cbn [t0 t1 t2 da_gammas da_thetas v_shares]; rewrite ?map_map, ?length_map, ?length_replicate, ?length_seq; try done.
  unfold tmap. cbn [t0 t1 t2 v_shares]. apply tri_unmap, tri_of_index, Forall_forall. intros i _. cbn [fst snd].
  exists (pool_r1 ls i), (pool_s12 ls i), (pool_s20 ls i). split; [done|]. unfold pool_s12, pool_s20, s12_at, s20_at, sign, bit, neg1_theta.
  destruct (pool_theta ls i); ring.
Qed.

Lemma da_take_items ls n : da_correlated ls -> d_cursor (t0 ls) + n <= d_total (t0 ls) -> let c := d_cursor (t0 ls) in
  tmap (fun l => da_take_batch l n) ls = tmap2 (fun b l => Ret (b, l)) (da_items ls n)
    (mkTri (da_advance (t0 ls) n c (c + n)) (d_with (t1 ls) (c + n) (stored (t1 ls)) (d_persisted (t1 ls))) (da_advance (t2 ls) n (c * 2) (c * 2 + 2 * n))).
Proof.
  intros [(I0 & I1 & I2) (P1 & P2 & P3) (T1 & T2) (C1 & C2) (S1 & S2 & S3 & S4) (F1 & Hfb) (Z0 & Z2) (L0 & L2) Hs] Hn c.
  unfold tmap, tmap2, da_take_batch. rewrite I0, I1, I2, T1, T2, C1, C2, F1, S1, S2, S3, S4. fold c.
  destruct (Nat.ltb_spec (d_total (t0 ls)) (c + n)); [lia|]. rewrite !seek_spec by done. rewrite !read_consume_spec by (try done; lia). cbn [or_panic obind].
  rewrite (all_some_seq (da_gamma _ _ _) (pool_gamma0 ls) c) by (intros i Hi; by apply gamma_spec). cbn [or_panic obind].
  rewrite !thetas_spec. fold (pool_theta ls).
  rewrite (all_some_seq (da_share0 _ _ _) (fun i => mkShare (pool_r1 ls i) (pool_s20 ls i)) c), (all_some_seq (da_share1 _ _ _) (fun i => mkShare (pool_s12 ls i) (pool_r1 ls i)) c),
    (all_some_seq (da_share2 _) (fun i => mkShare (pool_s20 ls i) (pool_s12 ls i)) c); [done|intros i Hi..].
  - unfold da_share2. rewrite !slice_lookup by lia. destruct (Hs (c + i)) as (_ & E1 & E2); [lia..|].
    replace (c * 2 + 2 * i) with (2 * (c + i)) by lia. replace (c * 2 + (2 * i + 1)) with (2 * (c + i) + 1) by lia. by rewrite E1, E2.
  - unfold da_share1, pool_theta. by rewrite s12_spec by done.
  - unfold da_share0. rewrite r1_spec, slice_lookup by lia. destruct (Hs (c + i)) as (E & _); [lia..|]. by rewrite E.
Qed.

Lemma da_take_correlated ls n : da_correlated ls -> d_cursor (t0 ls) + n <= d_total (t0 ls) -> exists ls',
  tmap (fun l => da_take_batch l n) ls = tmap2 (fun b l => Ret (b, l)) (da_items ls n) ls' /\
  da_correlated ls' /\ d_cursor (t0 ls') = d_cursor (t0 ls) + n /\ d_total (t0 ls') = d_total (t0 ls).
Proof.
  intros H Hn. eexists. split; [exact (da_take_items ls n H Hn)|]. destruct H as [Hi Hp Ht (C1 & C2) Hst Hb (Z0 & Z2) (L0 & L2) Hs].
  destruct (consume_spec fzero reuse_preproc (stored (t0 ls)) (d_cursor (t0 ls)) (d_cursor (t0 ls) + n) Z0) as (Z0' & L0' & K0).
  destruct (consume_spec fzero reuse_preproc (stored (t2 ls)) (d_cursor (t0 ls) * 2) (d_cursor (t0 ls) * 2 + 2 * n) Z2) as (Z2' & L2' & K2).
  split; [|done]. split; cbn [t0 t1 t2 da_advance d_with d_party d_pos1 d_pos2 d_total d_cursor d_seed1 d_seed2 d_field_bytes stored]; rewrite ?L0', ?L2'; try done.
  - by rewrite C2.
  - intros i H1 H2. rewrite K0, !K2 by lia. apply Hs; lia.
Qed.

(** *** Generation *)

Lemma dabit_exchange {R} (a m s kept : list F) (b0 : list F -> bool) (b2 b2' : list F -> bool) f g (k0 : list F -> R) r1 (k2 : list F -> list F -> R) :
  b0 s = true -> b2 a = true -> b2' m = true -> f a = Some s -> g m = Some kept ->
  protocol (mkTri (network (fun _ => send_many ID2 a) ;~ x <~ network (fun _ => recv_many ID2) ;; mdebug_assert (b0 x) ;~ mret (k0 x))
    (network (fun _ => send_many ID2 m) ;~ mret r1)
    (a' <~ network (fun _ => recv_many ID0) ;; m' <~ network (fun _ => recv_many ID1) ;; mdebug_assert (b2 a') ;~ mdebug_assert (b2' m') ;~
     s' <~ indexed (f a') ;; network (fun _ => send_many ID0 s') ;~ x <~ indexed (g m') ;; mret (k2 s' x)))
    (fun r => r = mkTri (k0 s) r1 (k2 s kept)).
Proof.
  intros H0 H1 H2 Hf Hg c Hc. eexists _, c. split; [|split; [done|reflexivity]]. clear Hc. destruct c as [c0 c1 c2].
  unfold exec, mbind, network. exists [ID0; ID1; ID2; ID2; ID2; ID0].
  assert (Hi : forall x : list F, indexed (Some x) = mret x) by done.
  do 8 (cbn -[serialize deserialize mdebug_assert indexed]; rewrite ?deserialize_serialize, ?mdebug_assert_true, ?Hf, ?Hg, ?Hi by done). done.
Qed.

Lemma interleaved_lookup {A} (l r : list A) i : length l = length r ->
  interleaved l r !! (2 * i) = l !! i /\ interleaved l r !! (2 * i + 1) = r !! i.
Proof.
  revert r i. induction l as [|a l IH]; intros [|b r] i E; try done. destruct i as [|i]; [done|].
  replace (2 * S i) with (S (S (2 * i))) by lia. cbn [interleaved Nat.add lookup list_lookup]. apply IH. by injection E.
Qed.
Lemma interleaved_length {A} (l r : list A) : length l = length r -> length (interleaved l r) = 2 * length l.
Proof. revert r. induction l as [|a l IH]; intros [|b r] E; try done. cbn in *. rewrite IH by lia. lia. Qed.

Lemma random_dabits_spec seed0 num : 16 <= field_bytes_of (F := F) ->
  protocol (tpure (random_dabits_lazy seed0 num)) (fun r => da_correlated r /\ d_total (t0 r) = num /\ d_cursor (t0 r) = 0).
Proof.
  intros Hfb. apply protocol_id. unfold tpure. destruct (Nat.eqb_spec num 0) as [->|Hnum].
  { apply protocol_ret'. split; [|done]. split; cbn; try done; lia. }
  eapply protocol_bind; [exact fork_spec|]. intros ? ? ? (a & b & d & [= -> -> ->]). unfold snapshot, Rep3Rand_new. cbn [rng1 rng2 t0 t1 t2].
  rewrite !fresh_seed, !fresh_pos, !fill_fresh. set (fb := field_bytes_of) in *.
  assert (Es : forall s n, map (fun i => keystream s (Z.of_nat i)) (seq 0 n) = stream_bytes s 0 0 n) by done. rewrite !Es, !thetas_spec.
  set (al := alpha1_at fb a 0). set (r := r1_at fb a 0). set (g := da_gamma_at fb a 0 d 0). set (th := theta_at b 0).
  rewrite (all_some_seq (da_alpha2 _ _ _) (fun i => fsub (of_Z (Z.b2z (g i))) (al i)) 0).
  2: { intros i Hi. unfold da_alpha2. pose proof (gamma_spec fb a 0 d 0 0 num i Hi) as E1. pose proof (alpha1_spec fb Hfb a 0 0 num i Hi) as E2. rewrite Nat.mul_0_l in E1, E2. by rewrite E1, E2. }
  rewrite (all_some_seq (fun i => fst <$> da_s12 _ _ _ i) (fun i => s12_at (th i) (al i) (r i)) 0).
  2: { intros i Hi. pose proof (s12_spec fb Hfb b 0 a 0 0 num i Hi) as E. rewrite Nat.mul_0_l in E. fold th in E. by rewrite E. }
  set (l20 := map (fun i => s20_at (g i) (th i) (al i)) (seq 0 num)). set (l12 := map (fun i => s12_at (th i) (al i) (r i)) (seq 0 num)).
  assert (L20 : length l20 = num) by (unfold l20; by rewrite length_map, length_seq). assert (L12 : length l12 = num) by (unfold l12; by rewrite length_map, length_seq).
  set (l2 := map (fun i => fsub (of_Z (Z.b2z (g i))) (al i)) (seq 0 num)). assert (L2 : length l2 = num) by (unfold l2; by rewrite length_map, length_seq).
  assert (E20 : all_some (map (da_s20 (map th (seq 0 num)) l2) (seq 0 num)) = Some l20).
  { apply all_some_seq. intros i Hi. unfold da_s20, l2. by rewrite !list_lookup_fmap, !lookup_seq_lt by done. }
  assert (E12 : all_some (map (fun i => l12 !! i) (seq 0 num)) = Some l12).
  { apply all_some_seq. intros i Hi. unfold l12. by rewrite !list_lookup_fmap, !lookup_seq_lt by done. }
  pose proof (dabit_exchange l2 l12 l20 l12 (fun x => Nat.eqb (length x) num) (fun x => Nat.eqb (length x) num) (fun x => Nat.eqb (length x) num)
    (fun alpha2 => all_some (map (da_s20 (map th (seq 0 num)) alpha2) (seq 0 num))) (fun m => all_some (map (fun i => m !! i) (seq 0 num)))
    (fun s20 => da_new a 0 d 0 num s20 ID0) (da_new b 0 a 0 num [] ID1) (fun s20 s12 => da_new d 0 b 0 num (interleaved s20 s12) ID2)
    (proj2 (Nat.eqb_eq _ _) L20) (proj2 (Nat.eqb_eq _ _) L2) (proj2 (Nat.eqb_eq _ _) L12) E20 E12) as Hx.
  eapply protocol_weaken; [exact (protocol_ext _ _ _ _ _ _ _ (fun _ => eq_refl) (fun _ => eq_refl) (fun _ => eq_refl) Hx)|]. clear Hx.
  intros ? ->.
  destruct (from_vec_contents l20) as [E0 Z0], (from_vec_contents (interleaved l20 l12)) as [E2 Z2]. split; [|done].
  split; cbn [t0 t1 t2 da_new d_party d_pos1 d_pos2 d_total d_cursor d_seed1 d_seed2 d_field_bytes stored]; rewrite ?E0, ?E2, ?interleaved_length by congruence; try done; [lia|].
  intros i _ Hi. destruct (interleaved_lookup l20 l12 i) as [-> ->]; [congruence|]. unfold l20, l12. rewrite !list_lookup_fmap, !lookup_seq_lt by done. done.
Qed.

End Correlation.
End DaBits.
