(* ===== verification/PoolExtension.v ===== *)
(** * Extension of the pools

    [mpc-core/src/preprocessing/pool.rs]: the plans that split a range between lanes
    ([build_segment_plans], [par_segment_plans]) and the extension of a pool of
    correlated bits ([extend_pool_batched_base], one width, one lane): party 0
    regenerates the summands of the new items in chunks and sends each chunk in
    messages of bounded length, party 2 writes them behind what it stores.  A message
    of the raw transport is a vector of field elements.  The
    proofs rewrite programs with the laws of the monad of a party, which hold up
    to [meq]: the same messages in the same order for every message received. *)

From Stdlib Require Import ZArith Lia List Bool Setoid Morphisms.
From stdpp Require Import base list.
From S2P Require Import Prelude Words Field Carry Ring2k MpcNet Rep3Ctx Rep3Rules Rep3Share Rep3Arith Rep3Ring Rep3Preproc Rep3PreprocCorrect BackingStore KeyStream LazyEdaBits LazyEdaBitsCorrect.
Import ListNotations.
Local Open Scope nat_scope.
Local Open Scope mpc_scope.

(** ** Programs up to the continuations of their receives *)

(** *** Processes *)

Inductive peq {D A} : relation (Proc D A) :=
| peq_done a : peq (Done a) (Done a)
| peq_err : peq IoErr IoErr
| peq_crashed : peq Crashed Crashed
| peq_send i d p q : peq p q -> peq (Send i d p) (Send i d q)
| peq_recv i f g : (forall d, peq (f d) (g d)) -> peq (Recv i f) (Recv i g).

#[export] Instance peq_equiv {D A} : Equivalence (@peq D A).
Proof.
  split.
  - intros p. induction p; constructor; auto.
  - intros p q H. induction H; constructor; auto.
  - intros p q r H. revert r. induction H as [| | |? ? ? ? ? IH|? ? ? ? IH]; intros r Hr; inversion Hr; subst; constructor; auto.
Qed.

#[export] Instance proc_bind_peq {D A B} : Proper (peq ==> pointwise_relation A peq ==> peq) (@proc_bind D A B).
Proof. intros p q H f g Hf. induction H; cbn; [apply Hf|constructor; auto..]. Qed.

Lemma proc_bind_assoc {D A B C} (p : Proc D A) (f : A -> Proc D B) (g : B -> Proc D C) :
  peq (proc_bind (proc_bind p f) g) (proc_bind p (fun a => proc_bind (f a) g)).
Proof. induction p; cbn; try constructor; auto. reflexivity. Qed.

(** *** Systems *)

Section Runs.
Context {D A : Type}.

Record seq_ (s s' : @Sys D A) : Prop := {
  seq_procs i : peq (tget (procs s) i) (tget (procs s') i);
  seq_chan : chan s = chan s'
}.

Lemma seq_set s s' i p q c : seq_ s s' -> peq p q -> seq_ (mkSys (tset i p (procs s)) c) (mkSys (tset i q (procs s')) c).
Proof.
  intros H Hp. split; [|done]. intros j. cbn [procs]. destruct (decide (i = j)) as [->|Hne]; [by rewrite !tget_tset_eq|].
  rewrite !tget_tset_ne by done. apply H.
Qed.

Lemma step_seq i s s' u : seq_ s s' -> step_by i s = Some u -> exists u', step_by i s' = Some u' /\ seq_ u u'.
Proof.
  intros H E. unfold step_by in *. rewrite <- (seq_chan _ _ H). pose proof (seq_procs _ _ H i) as Hi.
  destruct (tget (procs s) i) as [| | |j d p|j f]; try done; inversion Hi as [| | |? ? ? q Hq|? ? g Hg]; subst.
  - injection E as <-. eexists. split; [done|]. by apply seq_set.
  - destruct (queue (chan s) j i) as [|d rest]; [done|]. injection E as <-. eexists. split; [done|]. by apply seq_set.
Qed.

Lemma run_seq l s s' u : seq_ s s' -> run l s = Some u -> exists u', run l s' = Some u' /\ seq_ u u'.
Proof.
  revert s s'. induction l as [|i l IH]; intros s s' H E; cbn in *; [injection E as <-; by exists s'|].
  destruct (step_by i s) as [v|] eqn:Ei; [|done]. destruct (step_seq i s s' v H Ei) as (v' & -> & Hv). by apply (IH v v').
Qed.

Lemma runs_peq (p q : Tri (Proc D A)) r : (forall i, peq (tget p i) (tget q i)) -> runs p r -> runs q r.
Proof.
  intros H [l Hl]. destruct (run_seq l (start p) (start q) _ (Build_seq_ (start p) (start q) H eq_refl) Hl) as (u & Hu & [Hp Hc]).
  exists l. rewrite Hu. f_equal. destruct u as [[u0 u1 u2] c]. cbn in Hc. subst c. unfold final. f_equal.
  pose proof (Hp ID0) as H0. pose proof (Hp ID1) as H1. pose proof (Hp ID2) as H2. cbn in H0, H1, H2. inversion H0. inversion H1. by inversion H2.
Qed.

End Runs.

(** *** Programs *)

Section Programs.
Context {F : Type} `{JF : JoltField F} `{PF : !PrimeField F} `{RO : !RngOps F}.

Definition meq {A} : relation (MPC A) := fun m n => forall c, peq (m c) (n c).

#[export] Instance meq_equiv {A} : Equivalence (@meq A).
Proof.
  split; unfold meq.
  - intros m c. reflexivity.
  - intros m n H c. by symmetry.
  - intros m n o H H' c. by transitivity (n c).
Qed.
#[export] Instance mbind_meq {A B} : Proper (meq ==> pointwise_relation A meq ==> meq) (@mbind F _ A B).
Proof. intros m n H f g Hf c. apply proc_bind_peq; [apply H|]. intros [a c']. apply Hf. Qed.

Lemma mbind_assoc {A B C} (m : MPC A) (f : A -> MPC B) (g : B -> MPC C) : meq (mbind (mbind m f) g) (mbind m (fun a => mbind (f a) g)).
Proof. intros c. apply proc_bind_assoc. Qed.
Lemma mbind_mret {A B} (a : A) (f : A -> MPC B) : meq (mbind (mret a) f) (f a).
Proof. intros c. reflexivity. Qed.

Lemma protocol_meq {A} (m0 m1 m2 n0 n1 n2 : MPC A) Q : meq m0 n0 -> meq m1 n1 -> meq m2 n2 -> protocol (mkTri n0 n1 n2) Q -> protocol (mkTri m0 m1 m2) Q.
Proof.
  intros H0 H1 H2 Hn c Hc. destruct (Hn c Hc) as (r & c' & Hr & H). exists r, c'. split; [|done].
  eapply runs_peq; [|exact Hr]. intros []; cbn; symmetry; auto.
Qed.

(** The relation on the programs of three parties *)
Definition tri_meq {A} : relation (Tri (MPC A)) := fun m n => meq (t0 m) (t0 n) /\ meq (t1 m) (t1 n) /\ meq (t2 m) (t2 n).
#[export] Instance tri_meq_equiv {A} : Equivalence (@tri_meq A).
Proof.
  split; unfold tri_meq.
  - intros m. split_and!; reflexivity.
  - intros m n (? & ? & ?). split_and!; by symmetry.
  - intros m n o (? & ? & ?) (? & ? & ?). split_and!; etransitivity; eauto.
Qed.
#[export] Instance mkTri_meq {A} : Proper (meq ==> meq ==> meq ==> tri_meq) (@mkTri (MPC A)).
Proof. by intros m m' Hm n n' Hn o o' Ho. Qed.
#[export] Instance protocol_proper {A} : Proper (tri_meq ==> Logic.eq ==> iff) (@protocol F _ A).
Proof.
  intros [m0 m1 m2] [n0 n1 n2] (H0 & H1 & H2) Q ? <-. cbn in *. split; apply protocol_meq; done || by symmetry.
Qed.

End Programs.

(** ** Plans *)

Record SegmentPlan := mkPlan { start_item : nat; plan_items : nat }.

(** [while start_item < total_items] *)
Fixpoint plan_loop (total_items segment_items fuel start : nat) : list SegmentPlan :=
  match fuel with
  | O => []
  | S fuel =>
      if Nat.ltb start total_items then
        let items := Nat.min (total_items - start) segment_items in
        mkPlan start items :: plan_loop total_items segment_items fuel (start + items)
      else []
  end.
Definition build_segment_plans (total_items segment_items : nat) : list SegmentPlan :=
  if Nat.eqb total_items 0 then [] else plan_loop total_items (Nat.max segment_items 1) total_items 0.

(** [par_segment_plans]: the plans of each fork *)
Definition fork_plans {A} (plans : list A) (forks : nat) : list (list A) :=
  let plans_len := length plans in
  let fork_count := Nat.min forks plans_len in
  if Nat.eqb fork_count 0 then []
  else if Nat.eqb fork_count 1 then [plans]
  else map (fun fork_idx => slice plans (fork_idx * plans_len / fork_count) ((fork_idx + 1) * plans_len / fork_count)) (seq 0 fork_count).

(** The items of a plan. *)
Definition plan_range (p : SegmentPlan) : list nat := seq (start_item p) (plan_items p).

Lemma plan_loop_spec total seg fuel : 0 < seg -> forall start, total <= start + fuel ->
  concat (map plan_range (plan_loop total seg fuel start)) = seq start (total - start) /\
  Forall (fun p => 0 < plan_items p <= seg) (plan_loop total seg fuel start).
Proof.
  intros Hs. induction fuel as [|fuel IH]; intros start Hf; cbn [plan_loop]; [by rewrite (proj2 (Nat.sub_0_le _ _)) by lia|].
  destruct (Nat.ltb_spec start total) as [H|H]; [|by rewrite (proj2 (Nat.sub_0_le _ _)) by lia].
  set (items := Nat.min (total - start) seg). assert (0 < items) by (unfold items; lia). destruct (IH (start + items)) as [E HF]; [lia|].
  cbn [map concat]. rewrite E. unfold plan_range at 1. cbn [start_item plan_items]. split.
  - replace (total - start) with (items + (total - (start + items))) by (unfold items; lia). by rewrite seq_app.
  - constructor; [cbn; unfold items; lia|done].
Qed.
Lemma plan_loop_fuel total seg more : 0 < seg -> forall fuel start, total <= start + fuel ->
  plan_loop total seg (fuel + more) start = plan_loop total seg fuel start.
Proof.
  intros Hs. induction fuel as [|fuel IH]; intros start Hf; cbn [plan_loop Nat.add].
  - destruct more; [done|]. cbn [plan_loop]. by destruct (Nat.ltb_spec start total); [lia|].
  - destruct (Nat.ltb_spec start total); [|done]. f_equal. apply IH. lia.
Qed.

Lemma slices_concat {A} (l : list A) (f : nat -> nat) n : f 0 = 0 -> (forall i, i < n -> f i <= f (S i)) ->
  concat (map (fun i => slice l (f i) (f (S i))) (seq 0 n)) = take (f n) l.
Proof.
  intros H0 Hm. induction n as [|n IH]; [by rewrite H0|]. rewrite seq_S, map_app, concat_app, IH by (intros; apply Hm; lia).
  cbn [map concat Nat.add]. rewrite app_nil_r. pose proof (Hm n ltac:(lia)) as Hn. unfold slice.
  rewrite take_take_drop. f_equal. lia.
Qed.
Lemma fork_plans_spec {A} (plans : list A) forks : 0 < forks -> concat (fork_plans plans forks) = plans.
Proof.
  intros Hf. unfold fork_plans. destruct (Nat.eqb_spec (Nat.min forks (length plans)) 0) as [E|E]; [by destruct plans; [|cbn in E; lia]|].
  destruct (Nat.eqb_spec (Nat.min forks (length plans)) 1) as [_|_]; [apply app_nil_r|]. set (n := Nat.min _ _) in *.
  rewrite (map_ext _ (fun i => slice plans (i * length plans / n) (S i * length plans / n))) by (intros i; by rewrite Nat.add_1_r).
  rewrite (slices_concat plans (fun i => i * length plans / n)); [|by rewrite Nat.mul_0_l, Nat.Div0.div_0_l|intros i _; apply Nat.Div0.div_le_mono; lia].
  rewrite Nat.mul_comm, Nat.div_mul by done. apply firstn_all.
Qed.

(** ** The extension *)

Section Extension.
Context {F : Type} `{JF : JoltField F} `{PF : !PrimeField F} `{RO : !RngOps F} `{SR : !StreamRng F} `{B : Build}.

(** [edabit_alpha2_ext_chunk]; [edabit_alpha2_seed_chunk] of the first generation is the same. *)
Definition edabit_alpha2_ext_chunk (T : RingType) (s1 : Seed) (p1 : Z) (s2 : Seed) (p2 : Z) (start n fb : nat) : option (list F) :=
  if Nat.eqb n 0 then Some []
  else
    let t_bytes := size_of T in
    let stride := t_bytes + Z.to_nat (K T) * fb in
    let all1 := seek_and_generate s1 p1 (start * stride) (n * stride) in
    let g2 := seek_and_generate s2 p2 (start * t_bytes) (n * t_bytes) in
    alpha2_all T fb n all1 g2.

(** [send_field_superchunk_ctx]: [while data.len() > max_msg_elems] *)
Fixpoint superchunk_loop (target : PartyID) (max_msg_elems fuel : nat) (data : list F) : MPC unit :=
  match fuel with
  | O => mret tt
  | S fuel =>
      if Nat.ltb max_msg_elems (length data)
      then network (fun _ => send_many target (take max_msg_elems data)) ;~ superchunk_loop target max_msg_elems fuel (drop max_msg_elems data)
      else network (fun _ => send_many target data) ;~ mret tt
  end.
Definition send_field_superchunk_ctx (data : list F) (target : PartyID) (max_msg_elems : nat) : MPC unit :=
  match data with
  | [] => mret tt
  | _ => superchunk_loop target max_msg_elems (length data) data
  end.

(** [recv_field_messages_into_writer_ctx]; a message of another length is an error. *)
Fixpoint recv_loop (from : PartyID) (buf_elems expected_len fuel received write_elem_offset : nat) (store : BackingStore F) : MPC (BackingStore F) :=
  match fuel with
  | O => mret store
  | S fuel =>
      if Nat.ltb received expected_len then
        let chunk_elems := Nat.min (expected_len - received) buf_elems in
        data <~ network (fun _ => recv_many from) ;;
        if negb (Nat.eqb (length data) chunk_elems) then io_err
        else
          match writer_write_at fzero store write_elem_offset data with
          | Some store => recv_loop from buf_elems expected_len fuel (received + chunk_elems) (write_elem_offset + chunk_elems) store
          | None => io_err
          end
      else mret store
  end.
Definition recv_field_messages_into_writer_ctx (from : PartyID) (start_elem expected_len max_msg_elems : nat) (store : BackingStore F) : MPC (BackingStore F) :=
  if Nat.eqb expected_len 0 then mret store
  else recv_loop from (Nat.min (Nat.max max_msg_elems 1) expected_len) expected_len expected_len 0 start_elem store.

(** [while done < deficit] of party 0 *)
Fixpoint send_extension (T : RingType) (l : LazyEdaBits) (deficit max_msg_elems max_items_per_msg fuel done : nat) : MPC unit :=
  match fuel with
  | O => mret tt
  | S fuel =>
      if Nat.ltb done deficit then
        let items := Nat.min (deficit - done) max_items_per_msg in
        alpha2 <~ indexed (edabit_alpha2_ext_chunk T (seed1 l) (pos1 l) (seed2 l) (pos2 l) (total l + done) items field_bytes_of) ;;
        send_field_superchunk_ctx alpha2 ID2 max_msg_elems ;~
        send_extension T l deficit max_msg_elems max_items_per_msg fuel (done + items)
      else mret tt
  end.
(** [while remaining > 0] of party 2 *)
Fixpoint recv_extension (k max_msg_elems max_items_per_msg fuel write_offset remaining : nat) (store : BackingStore F) : MPC (BackingStore F) :=
  match fuel with
  | O => mret store
  | S fuel =>
      if Nat.ltb 0 remaining then
        let items := Nat.min remaining max_items_per_msg in
        store <~ recv_field_messages_into_writer_ctx ID0 write_offset (items * k) max_msg_elems store ;;
        recv_extension k max_msg_elems max_items_per_msg fuel (write_offset + items * k) (remaining - items) store
      else mret store
  end.
Definition with_total (l : LazyEdaBits) (tot : nat) (store : BackingStore F) : LazyEdaBits :=
  mkLazyEda (seed1 l) (pos1 l) (seed2 l) (pos2 l) tot (field_bytes l) (cursor l) store (storage_mode l) (gamma_store l) (party_id l) (persisted l).

(** The part of [extend_pool_batched_base] for one width.  Party 2 receives only
    when its store is a file. *)
Definition extend_edabits (T : RingType) (l : LazyEdaBits) (deficit max_msg_elems : nat) : MPC LazyEdaBits :=
  if Nat.eqb deficit 0 then mret l
  else
    let k := Z.to_nat (K T) in
    let max_items_per_msg := Nat.max (max_msg_elems / k) 1 in
    id <~ get_id ;;
    match id with
    | ID0 =>
        send_extension T l deficit max_msg_elems max_items_per_msg deficit 0 ;~
        mret (apply_extension l deficit [])
    | ID1 => mret (apply_extension l deficit [])
    | ID2 =>
        match alphas_flat_store l with
        | FileBacked _ len _ =>
            store <~ recv_extension k max_msg_elems max_items_per_msg deficit len deficit (pre_extended fzero (alphas_flat_store l) (deficit * k)) ;;
            mret (with_total l (total l + deficit) store)
        | store => mret (with_total l (total l + deficit) store)
        end
    end.

(** ** Messages arrive in the store *)

Lemma protocol_send_0_2 {R} (data : list F) (k0 k1 : MPC R) (k2 : list F -> MPC R) Q : protocol (mkTri k0 k1 (k2 data)) Q ->
  protocol (mkTri (network (fun _ => send_many ID2 data) ;~ k0) k1 (d <~ network (fun _ => recv_many ID0) ;; k2 d)) Q.
Proof.
  intros H c Hc. destruct (H c Hc) as (r & c' & (l & Hl) & Hr). exists r, c'. split; [|done]. exists (ID0 :: ID2 :: l).
  destruct c as [c0 c1 c2]. unfold exec, mbind, network in *. cbn -[serialize deserialize run] in *. do 2 (cbn -[serialize deserialize]; rewrite ?deserialize_serialize). exact Hl.
Qed.

(** Writing in two parts. *)
Lemma write_split (file : list F) o a b : o + length a + length b <= length file ->
  file_write_all_at fzero (file_write_all_at fzero file o a) (o + length a) b = file_write_all_at fzero file o (a ++ b).
Proof.
  intros H. rewrite (write_within _ file o (a ++ b)), (write_within _ file o a), write_within by (rewrite ?write_length, ?length_app, ?length_take, ?length_drop; lia).
  rewrite (app_assoc (take o file) a (drop _ file)), take_app_length' by (rewrite length_app, length_take; lia).
  rewrite drop_app_ge by (rewrite length_app, length_take; lia). rewrite length_app, length_take, Nat.min_l by lia. rewrite drop_drop, length_app, <- !app_assoc.
  do 4 f_equal. lia.
Qed.

Lemma writer_write_within (file : list F) len ao o data : length file = len -> o + length data <= len ->
  writer_write_at fzero (FileBacked file len ao) o data = Some (FileBacked (file_write_all_at fzero file o data) len ao).
Proof.
  intros Hl Ho. unfold writer_write_at. destruct data as [|d data]; [|by destruct (Nat.ltb_spec len (o + length (d :: data))); [lia|]].
  rewrite write_within by (cbn in *; lia). cbn [length]. by rewrite Nat.add_0_r, app_nil_l, take_drop.
Qed.

Lemma recv_loop_done from buf n fuel o store : recv_loop from buf n fuel n o store = mret store.
Proof. destruct fuel; [done|]. cbn [recv_loop]. by rewrite Nat.ltb_irrefl. Qed.

Lemma superchunk_loop_arrives {R} max n fuel : 0 < max -> forall data fuel' received o file len ao (k0 k1 : MPC R) k2 Q,
  0 < length data -> length data <= fuel -> length data <= fuel' -> received + length data = n -> length file = len -> o + length data <= len ->
  protocol (mkTri k0 k1 (k2 (FileBacked (file_write_all_at fzero file o data) len ao))) Q ->
  protocol (mkTri (superchunk_loop ID2 max fuel data ;~ k0) k1 (mbind (recv_loop ID0 (Nat.min (Nat.max max 1) n) n fuel' received o (FileBacked file len ao)) k2)) Q.
Proof.
  intros Hmax. induction fuel as [|fuel IH]; intros data fuel' received o file len ao k0 k1 k2 Q Hd Hf Hf' Hn Hl Ho H; [lia|].
  destruct fuel' as [|fuel']; [lia|]. cbn [superchunk_loop recv_loop]. destruct (Nat.ltb_spec received n) as [_|]; [|lia].
  destruct (Nat.ltb_spec max (length data)) as [Hlt|Hge]; rewrite !mbind_assoc; apply protocol_send_0_2.
  - rewrite length_take. replace (Nat.min (n - received) _) with max by lia. rewrite Nat.min_l, Nat.eqb_refl by lia. cbn [negb].
    rewrite writer_write_within by (rewrite ?length_take; lia).
    apply IH; rewrite ?length_drop, ?write_length; try lia; [by rewrite length_take; lia|].
    replace (o + max) with (o + length (take max data)) by (rewrite length_take; lia). by rewrite write_split, take_drop by (rewrite length_take, length_drop; lia).
  - replace (Nat.min (n - received) _) with (length data) by lia. rewrite Nat.eqb_refl. cbn [negb]. rewrite writer_write_within by lia.
    rewrite Hn, recv_loop_done, !mbind_mret. done.
Qed.

Lemma superchunk_arrives {R} max data o file len ao (k0 k1 : MPC R) k2 Q : 0 < max -> 0 < length data -> length file = len -> o + length data <= len ->
  protocol (mkTri k0 k1 (k2 (FileBacked (file_write_all_at fzero file o data) len ao))) Q ->
  protocol (mkTri (send_field_superchunk_ctx data ID2 max ;~ k0) k1 (mbind (recv_field_messages_into_writer_ctx ID0 o (length data) max (FileBacked file len ao)) k2)) Q.
Proof.
  intros Hm Hd Hl Ho H. unfold send_field_superchunk_ctx, recv_field_messages_into_writer_ctx. destruct (Nat.eqb_spec (length data) 0); [lia|].
  destruct data as [|d data]; [done|]. by apply superchunk_loop_arrives.
Qed.

(** ** The extension of three pools *)

Section Correlated.
Context (T : RingType) (Hfb : 16 <= field_bytes_of (F := F)).
Abbreviation k := (Z.to_nat (K T)).

Lemma ext_chunk_spec l start n : (0 <= pos1 l)%Z -> (0 <= pos2 l)%Z -> 0 < n -> exists data,
  edabit_alpha2_ext_chunk T (seed1 l) (pos1 l) (seed2 l) (pos2 l) start n field_bytes_of = Some data /\ length data = n * k /\
  forall i j, i < n -> j < k -> data !! (i * k + j) =
    Some (fsub (of_Z (Z.b2z (Z.testbit (gamma_at T field_bytes_of (seed1 l) (pos1 l) (seed2 l) (pos2 l) (start + i)) (Z.of_nat j)))) (alpha_at T field_bytes_of (seed1 l) (pos1 l) (start + i) j) : F).
Proof.
  intros H1 H2 Hn. unfold edabit_alpha2_ext_chunk. destruct (Nat.eqb_spec n 0); [lia|]. rewrite !seek_spec by done. by apply alpha2_all_spec.
Qed.

(** The new items of party 0 up to [done] are behind the old file. *)
Record extended_to (l : LazyEdaBits) (old file : list F) (deficit done : nat) : Prop := {
  ex_length : length file = length old + deficit * k;
  ex_old i : i < length old -> file !! i = old !! i;
  ex_new i j : i < done -> j < k -> file !! (length old + (i * k + j)) =
    Some (fsub (of_Z (Z.b2z (Z.testbit (gamma_at T field_bytes_of (seed1 l) (pos1 l) (seed2 l) (pos2 l) (total l + i)) (Z.of_nat j)))) (alpha_at T field_bytes_of (seed1 l) (pos1 l) (total l + i) j))
}.

Lemma extended_chunk l old file deficit done n data : extended_to l old file deficit done -> done + n <= deficit -> length data = n * k ->
  (forall i j, i < n -> j < k -> data !! (i * k + j) =
    Some (fsub (of_Z (Z.b2z (Z.testbit (gamma_at T field_bytes_of (seed1 l) (pos1 l) (seed2 l) (pos2 l) (total l + done + i)) (Z.of_nat j)))) (alpha_at T field_bytes_of (seed1 l) (pos1 l) (total l + done + i) j) : F)) ->
  extended_to l old (file_write_all_at fzero file (length old + done * k) data) deficit (done + n).
Proof.
  intros [Hl Ho Hn] Hd El Hdata. pose proof (k_pos T). assert (Hw : length old + done * k + length data <= length file) by nia. split.
  - by rewrite write_length.
  - intros i Hi. rewrite write_lookup_before by (done || lia). by apply Ho.
  - intros i j Hi Hj. destruct (decide (i < done)) as [H'|H'].
    + rewrite write_lookup_before by (done || nia). by apply Hn.
    + replace (length old + (i * k + j)) with (length old + done * k + ((i - done) * k + j)) by nia.
      rewrite write_lookup_data by (done || nia). rewrite Hdata by lia. by replace (total l + done + (i - done)) with (total l + i) by lia.
Qed.

Lemma extension_arrives {R} l old deficit max mi ao (k0 k1 : MPC R) k2 Q : (0 <= pos1 l)%Z -> (0 <= pos2 l)%Z -> 0 < max -> 0 < mi ->
  (forall file, extended_to l old file deficit deficit -> protocol (mkTri k0 k1 (k2 (FileBacked file (length old + deficit * k) ao))) Q) ->
  forall fuel done file, extended_to l old file deficit done -> done <= deficit -> deficit <= done + fuel ->
  protocol (mkTri (send_extension T l deficit max mi fuel done ;~ k0) k1
    (mbind (recv_extension k max mi fuel (length old + done * k) (deficit - done) (FileBacked file (length old + deficit * k) ao)) k2)) Q.
Proof.
  intros P1 P2 Hmax Hmi H. pose proof (k_pos T) as Hk. induction fuel as [|fuel IH]; intros done file Hf Hd Hfuel.
  { assert (done = deficit) as -> by lia. cbn [send_extension recv_extension]. rewrite !mbind_mret. by apply H. }
  cbn [send_extension recv_extension]. destruct (Nat.ltb_spec done deficit) as [Hlt|Hge].
  - destruct (Nat.ltb_spec 0 (deficit - done)) as [_|]; [|lia]. set (n := Nat.min (deficit - done) mi). assert (0 < n) by (unfold n; lia). assert (done + n <= deficit) by (unfold n; lia).
    destruct (ext_chunk_spec l (total l + done) n P1 P2 ltac:(done)) as (data & E & El & Hdata). rewrite E. cbn [indexed]. rewrite <- El.
    rewrite !mbind_assoc, mbind_mret, mbind_assoc. apply superchunk_arrives; [done|nia|exact (ex_length _ _ _ _ _ Hf)|rewrite El; nia|].
    rewrite El. replace (length old + done * k + n * k) with (length old + (done + n) * k) by lia. replace (deficit - done - n) with (deficit - (done + n)) by lia.
    apply IH; [|done|lia]. by apply extended_chunk.
  - assert (done = deficit) as -> by lia. rewrite Nat.sub_diag. cbn [Nat.ltb Nat.leb]. rewrite !mbind_mret. by apply H.
Qed.

(** A file of party 2 that holds exactly the items of its pool. *)
Definition extensible (l : LazyEdaBits) : Prop :=
  storage_mode l = P2Authoritative /\ exists file ao, alphas_flat_store l = FileBacked file (total l * k) ao /\ length file = total l * k.

Lemma apply_extension_p01 l deficit : party_id l <> ID2 -> deficit <> 0 ->
  apply_extension l deficit [] = with_stores (with_total l (total l + deficit) Empty) Empty NoStorage Empty.
Proof.
  intros Hl Hd. unfold apply_extension. rewrite (proj2 (Nat.eqb_neq _ _) Hd). cbn [extend party_id]. unfold clear_precache_files, clear_precache_runtime. cbn [party_id].
  unfold with_stores, with_total. cbn. by destruct (party_id l).
Qed.

Lemma extended_correlated ls old deficit f ao : correlated T ls -> storage_mode (t2 ls) = P2Authoritative -> contents (alphas_flat_store (t2 ls)) = old ->
  length old = total (t2 ls) * k -> field_bytes (t0 ls) = field_bytes_of (F := F) -> deficit <> 0 -> extended_to (t0 ls) old f deficit deficit ->
  correlated T (mkTri (apply_extension (t0 ls) deficit []) (apply_extension (t1 ls) deficit [])
    (with_total (t2 ls) (total (t2 ls) + deficit) (FileBacked f (length old + deficit * k) ao))).
Proof.
  intros [(I0 & I1 & I2) (O0 & O1 & O2) (T1 & T2) (C1 & C2) (S1 & Q1 & F1) Ha] Hm Es Hlen Hb Hd [Xl Xo Xn].
  rewrite !apply_extension_p01 by (rewrite ?I0, ?I1; done). split; cbn; try done; try (split; congruence).
  - destruct O0 as [A1 A2 A3 A4], O1 as [B1 B2 B3 B4], O2 as [D1 D2 D3 D4]. rewrite I2 in D4.
    split; [|split]; split; cbn; rewrite ?I0, ?I1, ?I2; try done; try lia. split; [congruence|]. split; [rewrite Xl, Hlen; lia|by left].
  - intros i j Hi Ht Hj. destruct (decide (i < total (t0 ls))) as [H'|H'].
    + rewrite Xo by (rewrite Hlen, T2; nia). pose proof (Ha i j Hi H' Hj) as E. rewrite Es in E. exact E.
    + pose proof (Xn (i - total (t0 ls)) j ltac:(lia) Hj) as E. rewrite Hlen, T2 in E. unfold pool_gamma, pool_alpha, pool_seed, pool_pos. cbn. rewrite I0, Hb.
      replace (total (t0 ls) + (i - total (t0 ls))) with i in E by lia. rewrite <- E. f_equal. nia.
Qed.

Lemma extend_edabits_spec ls deficit max : correlated T ls -> extensible (t2 ls) -> field_bytes (t0 ls) = field_bytes_of (F := F) -> 0 < max ->
  protocol (tmap (fun l => extend_edabits T l deficit max) ls)
    (fun r => correlated T r /\ extensible (t2 r) /\ field_bytes (t0 r) = field_bytes_of (F := F) /\ total (t0 r) = total (t0 ls) + deficit /\ cursor (t0 r) = cursor (t0 ls)).
Proof.
  intros Hc (Hm & file & ao & Es & Hlen) Hb Hmax. unfold tmap, extend_edabits. destruct (Nat.eqb_spec deficit 0) as [->|Hd].
  { apply protocol_ret'. destruct ls as [l0 l1 l2]. cbn [t0 t1 t2] in *. split; [done|]. split; [by split; [|exists file, ao]|]. split; [done|]. split; [lia|done]. }
  apply protocol_id. rewrite Es. destruct (ok_pos _ _ (proj1 (cr_ok _ _ Hc))) as [P1 P2]. cbn [pre_extended].
  match goal with |- protocol _ ?q => set (Q := q) end. set (k2 := fun store : BackingStore F => mret (with_total (t2 ls) (total (t2 ls) + deficit) store)).
  pose proof (extension_arrives (t0 ls) file deficit max (Nat.max (max / k) 1) (total (t2 ls) * k + deficit * k) (mret (apply_extension (t0 ls) deficit []))
    (mret (apply_extension (t1 ls) deficit [])) k2 Q P1 P2 Hmax ltac:(lia)) as Hx.
  specialize (fun H => Hx H deficit 0 (set_len fzero file (total (t2 ls) * k + deficit * k))). rewrite Nat.mul_0_l, Nat.add_0_r, Nat.sub_0_r, Hlen in Hx.
  apply Hx; [|split; [by rewrite set_len_length, Hlen| |lia]|lia|lia].
  - intros f Hf. apply protocol_ret'. destruct (cr_ids _ _ Hc) as (I0 & I1 & I2). rewrite <- Hlen. split; [apply extended_correlated; by rewrite ?Es|].
    rewrite apply_extension_p01 by (rewrite ?I0; done). split; [|done]. split; [done|]. exists f, (length file + deficit * k). cbn. rewrite (ex_length _ _ _ _ _ Hf), Hlen.
    split; [f_equal; lia|lia].
  - intros i Hi. unfold set_len. rewrite take_ge by lia. by apply lookup_app_l.
Qed.

(** A store that is not a file is not extended, though the pool counts the items:
    taking them panics. *)
Lemma extension_not_stored reuse l deficit max n : party_id l = ID2 -> alphas_flat_store l = Empty -> 0 < deficit -> 0 < n -> cursor l + n <= total l + deficit ->
  (forall c, io_id c = ID2 -> extend_edabits T l deficit max c = mret (with_total l (total l + deficit) Empty) c) /\
  take_batch reuse T (with_total l (total l + deficit) Empty) n = Fault.
Proof.
  clear Hfb. intros Hid Hs Hd Hn Ht. pose proof (k_pos T) as Hk. split.
  - intros c Hc. unfold extend_edabits. destruct (Nat.eqb_spec deficit 0); [lia|]. unfold mbind, get_id. cbn [proc_bind fst snd]. by rewrite Hc, Hs.
  - unfold take_batch. cbn [with_total total cursor party_id alphas_flat_store]. rewrite Hid. destruct (Nat.ltb_spec (total l + deficit) (cursor l + n)); [lia|].
    destruct (Nat.eqb_spec n 0); [lia|]. unfold fill_p2_store, take_store_range, read_consume_into_slice. cbn [alphas_flat_store with_total].
    rewrite length_replicate, Nat.eqb_refl. cbn [negb]. destruct (replicate _ _) eqn:E; [|done].
    apply (f_equal length) in E. rewrite length_replicate in E. cbn in E. nia.
Qed.

End Correlated.
End Extension.
