(* ===== verification/PreprocSample.v ===== *)
(** * A larger instance of the parameters

    The integers modulo the prime [5 * 2^127 + 1] (proved prime after Proth), whose
    elements have 17 bytes, and a generator with a seekable stream of bytes:
    concrete values for the classes [PrimeField], [RngOps] and [StreamRng]. *)

From Stdlib Require Import ZArith Lia List Bool Zmod Zpow_facts Znumtheory.
From stdpp Require Import base list.
From S2P Require Import Prelude Field Ring2k MpcNet Rep3Ctx Rep3Rules Rep3Share Rep3Sample KeyStream.
Import ListNotations.
Local Open Scope Z_scope.

(** ** The prime *)

Lemma pow2_odd_part n : 0 < n -> exists s u, 0 <= s /\ n = 2 ^ s * (2 * u + 1).
Proof.
  intros Hn. assert (H : forall m, 0 <= m -> forall n, 0 < n <= m -> exists s u, 0 <= s /\ n = 2 ^ s * (2 * u + 1)).
  { apply (natlike_ind (fun m => forall n, 0 < n <= m -> exists s u, 0 <= s /\ n = 2 ^ s * (2 * u + 1))); [lia|].
    intros m Hm IH k Hk. destruct (Z.Even_or_Odd k) as [[h ->]|[h ->]]; [|by exists 0, h; rewrite Z.mul_1_l].
    destruct (IH h ltac:(lia)) as (s & u & Hs & ->). exists (s + 1), u. split; [lia|]. rewrite Z.pow_add_r by lia. lia. }
  apply (H n); lia.
Qed.

(** An element whose [2 ^ m]-th power is [-1] has an order that is a multiple of [2 ^ (m + 1)]. *)
Lemma proth_order p b m : Z.prime p -> p <> 2 -> 0 <= m -> b ^ (2 ^ m) mod p = (-1) mod p -> (2 ^ (m + 1) | p - 1).
Proof.
  intros Hp Hp2 Hm Hb. pose proof (Z.prime_ge_2 p Hp) as Hp'. destruct (pow2_odd_part (p - 1)) as (s & u & Hs & E); [lia|].
  assert (Hu : 0 <= u) by (pose proof (Z.pow_pos_nonneg 2 s ltac:(lia) Hs); nia).
  destruct (Z.le_gt_cases (m + 1) s) as [Hle|Hgt].
  { rewrite E. replace s with (m + 1 + (s - (m + 1))) by lia. rewrite (Z.pow_add_r 2 (m + 1) (s - (m + 1))) by lia. exists (2 ^ (s - (m + 1)) * (2 * u + 1)). rewrite (Z.mul_comm (2 ^ (m + 1)) (2 ^ _)), <- !Z.mul_assoc. f_equal. apply Z.mul_comm. }
  exfalso. assert (Hodd : (-1) ^ (2 * u + 1) = -1) by (rewrite Z.pow_add_r, Z.pow_mul_r, Z.pow_1_r by lia; change ((-1) ^ 2) with 1; rewrite Z.pow_1_l by lia; done).
  assert (H1 : (b ^ (2 ^ m)) ^ (2 * u + 1) mod p = (-1) mod p) by (rewrite Zpower_mod, Hb, <- Zpower_mod by lia; by rewrite Hodd).
  assert (Hnz : b mod p <> 0).
  { intros Hz. rewrite Zpower_mod, Hz in Hb by lia. rewrite Z.pow_0_l in Hb by (apply Z.pow_pos_nonneg; lia). rewrite Z.mod_0_l in Hb by lia.
    apply (f_equal (fun z => (z + 1) mod p)) in Hb. rewrite Zplus_mod_idemp_l in Hb. rewrite Z.mod_0_l, Z.mod_1_l in Hb by lia. lia. }
  pose proof (Z.fermat_nz p b Hp Hnz) as Hf. replace (Z.pred p) with (p - 1) in Hf by lia. rewrite E in Hf.
  set (w := 2 * u + 1) in *. assert (Hw : 0 <= w) by lia. clearbody w.
  assert (Em : 2 ^ m * w = 2 ^ s * w * 2 ^ (m - s)).
  { replace (2 ^ m) with (2 ^ s * 2 ^ (m - s)) by (rewrite <- Z.pow_add_r by lia; f_equal; lia). rewrite <- !Z.mul_assoc. f_equal. apply Z.mul_comm. }
  assert (H2 : (b ^ (2 ^ m)) ^ w mod p = 1 mod p).
  { rewrite <- Z.pow_mul_r, Em by (try apply Z.pow_nonneg; lia). rewrite Z.pow_mul_r by (try apply Z.mul_nonneg_nonneg; try apply Z.pow_nonneg; lia).
    rewrite Zpower_mod, Hf by lia. by rewrite Z.pow_1_l by (apply Z.pow_nonneg; lia). }
  rewrite H1 in H2. apply (f_equal (fun z => (z + 1) mod p)) in H2. rewrite !Zplus_mod_idemp_l in H2. cbn [Z.add] in H2.
  rewrite Z.mod_0_l in H2 by lia. symmetry in H2. apply Z.mod_divide in H2; [|lia]. apply Z.divide_pos_le in H2; lia.
Qed.

Lemma prime_divisor n : 1 < n -> exists p, Z.prime p /\ (p | n).
Proof.
  intros Hn. assert (H : forall m, 0 <= m -> forall n, 1 < n <= m -> exists p, Z.prime p /\ (p | n)).
  { apply (natlike_ind (fun m => forall n, 1 < n <= m -> exists p, Z.prime p /\ (p | n))); [lia|].
    intros m Hm IH k Hk. destruct (prime_dec k) as [Hp|Hp]; [exists k; split; [by apply prime_alt|apply Z.divide_refl]|].
    destruct (not_prime_divide k ltac:(lia) Hp) as (d & Hd & Hdk). destruct (IH d ltac:(lia)) as (p & Hpp & Hpd). exists p. split; [done|]. by transitivity d. }
  apply (H n); lia.
Qed.

(** Proth's theorem *)
Lemma proth q b m : 1 < q -> 0 <= m -> Z.odd q = true -> q < 2 ^ (m + 1) * 2 ^ (m + 1) -> b ^ (2 ^ m) mod q = q - 1 -> Z.prime q.
Proof.
  intros Hq Hm Ho Hlt Hb. assert (Hd : forall p, Z.prime p -> (p | q) -> 2 ^ (m + 1) < p).
  { intros p Hp [c Hc]. pose proof (Z.prime_ge_2 p Hp). assert (p <> 2).
    { intros ->. rewrite Hc, Z.odd_mul in Ho. by rewrite andb_false_r in Ho. }
    assert (D : (2 ^ (m + 1) | p - 1)).
    { apply (proth_order p b); [done..|]. rewrite <- (Z.mod_mod_divide (b ^ (2 ^ m)) q p), Hb by (by exists c). rewrite Hc.
      replace (c * p - 1) with (-1 + c * p) by ring. apply Z_mod_plus_full. }
    apply Z.divide_pos_le in D; lia. }
  apply prime_alt. destruct (prime_dec q) as [Hp|Hp]; [done|]. exfalso.
  destruct (not_prime_divide q ltac:(lia) Hp) as (d & Hd1 & [e He]). assert (He1 : 1 < e) by nia.
  destruct (prime_divisor d) as (p1 & P1 & D1); [lia|]. destruct (prime_divisor e) as (p2 & P2 & D2); [lia|].
  pose proof (Hd p1 P1 ltac:(by rewrite He; apply Z.divide_mul_r)). pose proof (Hd p2 P2 ltac:(by rewrite He; apply Z.divide_mul_l)).
  apply Z.divide_pos_le in D1; [|lia]. apply Z.divide_pos_le in D2; [|lia]. pose proof (Z.pow_pos_nonneg 2 (m + 1) ltac:(lia) ltac:(lia)). nia.
Qed.

Definition q130 : Z := 5 * 2 ^ 127 + 1.

Fixpoint squarings (n : nat) (x : Z) : Z := match n with O => x | S n => squarings n (x * x mod q130) end.
Lemma squarings_spec n : forall x, squarings n x mod q130 = x ^ (2 ^ Z.of_nat n) mod q130.
Proof.
  induction n as [|n IH]; intros x; cbn [squarings]; [by rewrite Z.pow_1_r|].
  rewrite IH, <- Zpower_mod by done. rewrite <- Z.pow_2_r, <- Z.pow_mul_r by (try apply Z.pow_nonneg; lia). by rewrite Nat2Z.inj_succ, Z.pow_succ_r by lia.
Qed.

Lemma q130_prime : Z.prime q130.
Proof.
  apply (proth q130 243 126); [done..|]. change 126 with (Z.of_nat 126) at 1. rewrite <- squarings_spec. vm_compute. done.
Qed.

(** ** The field *)

Definition F130 := Zmod q130.

#[export, refine] Instance F130_field : JoltField F130 := {
  fzero := Zmod.zero; fone := Zmod.one; fadd := Zmod.add; fmul := Zmod.mul; fsub := Zmod.sub;
  fopp := Zmod.opp; of_Z := Zmod.of_Z q130
}.
Proof.
  - apply Zmod.ring_theory.
  - reflexivity.
  - apply Zmod.of_Z_add.
  - apply Zmod.of_Z_mul.
Defined.

(** No roots are found. *)
#[export, refine] Instance F130_prime : PrimeField F130 := {
  MODULUS := q130; MODULUS_BIT_SIZE := 130; into_biguint := Zmod.unsigned;
  inverse x := Some (Zmod.inv x); field_sqrt _ := None; TWO_INV := Zmod.of_Z q130 (5 * 2 ^ 126 + 1)
}.
Proof.
  - done.
  - intros z. apply Zmod.to_Z_of_Z.
  - intros x. apply Zmod.of_Z_to_Z.
  - intros x Hx. eexists. split; [done|]. apply Zmod.mul_inv_same_r_prime; [apply q130_prime|]. intros ->. by apply Hx.
  - done.
  - apply Zmod.to_Z_inj. vm_compute. done.
Defined.

(** ** The generator *)

Definition sample_stream (s i : Z) : Z := (lcg (lcg (s + 65537 * i)) / 2 ^ 20) mod 256.

#[export, refine] Instance F130_rng : RngOps F130 := {
  Rng := Z * Z; Seed := Z; from_seed s := (s, 0); gen_seed r := (lcg (fst r + snd r), (fst r, snd r + 8));
  gen_fe r := (Zmod.of_Z q130 (lcg (fst r + snd r)), (fst r, snd r + 5)); gen_bits w r := (lcg (fst r + snd r) mod 2 ^ w, (fst r, snd r + 4))
}.
Proof. intros w r Hw. cbn. apply Z.mod_pos_bound. lia. Defined.

#[export, refine] Instance F130_stream : StreamRng F130 := {
  get_seed := fst; get_word_pos := snd; set_word_pos r p := (fst r, p);
  fill_bytes n r := (map (fun i => sample_stream (fst r) (4 * snd r + Z.of_nat i)) (seq 0 n), (fst r, snd r + (Z.of_nat n + 3) / 4));
  keystream := sample_stream
}.
Proof.
  - intros s i. unfold sample_stream. apply Z.mod_pos_bound. lia.
  - done.
  - done.
  - done.
  - done.
Defined.

(** Contexts in step. *)
Definition context130 (id : PartyID) (r1 r2 : Z * Z) (b1 b2 : Rep3RandBitComp) : IoContext (F := F130) :=
  mkIo id (mkCorrelated (mkRand r1 r2) b1 b2) (0, 0) Online.
Definition contexts130 : Tri (IoContext (F := F130)) :=
  let r s := (s, 0) : Rng (F := F130) in
  mkTri (context130 ID0 (r 5001) (r 7003) (mkBitComp (r 1000) (r 2000) (Some (r 3000))) (mkBitComp (r 4000) (r 5000) (Some (r 6000))))
        (context130 ID1 (r 6002) (r 5001) (mkBitComp (r 7000) (r 8000) (Some (r 9000))) (mkBitComp (r 1100) (r 1200) None))
        (context130 ID2 (r 7003) (r 6002) (mkBitComp (r 8000) (r 9000) (Some (r 7000))) (mkBitComp (r 6000) (r 4000) (Some (r 5000)))).
Lemma contexts130_synced : synced contexts130.
Proof. split; try reflexivity; [by eexists _, _, _|by eexists _, _, _|by split]. Qed.
