(* ===== verification/PreprocTheorems.v ===== *)
(** * What the preprocessing promises

    The composition of the pools with the conversions that use them: after the
    generation of a pool, a session takes batches of correlated bits and converts
    binary shares with them, and the parties hold shares of the same values, whatever
    the schedule of the messages.  The pools are transparent to caches, reservations
    and extensions, with the cases in which they are not. *)

From Stdlib Require Import ZArith Lia List Bool.
From stdpp Require Import base list.
From S2P Require Import Prelude Words Field Carry Ring2k RingCarry MpcNet Rep3Ctx Rep3Rules Rep3Share Rep3Arith Rep3Correct Rep3Binary Rep3BinCorrect Rep3BinMany Rep3Ring Rep3RingCorrect Rep3RingMany Rep3Preproc Rep3PreprocCorrect BackingStore KeyStream LazyEdaBits LazyEdaBitsCorrect LazyEdaBitsRing LazyDaBits PoolExtension PreprocSample.
Import ListNotations.
Local Open Scope nat_scope.
Local Open Scope mpc_scope.

Definition party_ids : Tri PartyID := mkTri ID0 ID1 ID2.

Section Sessions.
Context {F : Type} `{JF : JoltField F} `{PF : !PrimeField F} `{RO : !RngOps F} `{SR : !StreamRng F} `{B : Build}.
Context (reuse_preproc : bool).

(** A session converts vectors one after the other, each with a batch from the pool. *)
Fixpoint session {P X Y Bt} (take_ : P -> nat -> Outcome (Bt * P)) (convert_ : list X -> Bt -> MPC (list Y)) (pool : P) (reqs : list (list X)) : MPC (list (list Y)) :=
  match reqs with
  | [] => mret []
  | x :: reqs =>
      r <~ outcome_io (take_ pool (length x)) ;;
      out <~ convert_ x (fst r) ;;
      outs <~ session take_ convert_ (snd r) reqs ;;
      mret (out :: outs)
  end.

(** What is known of three vectors, for each request. *)
Definition requests {X V} (Q : Tri (list X) -> list V -> Prop) : Tri (list (list X)) -> list (list V) -> Prop := tri_forall Q.
Definition needed {V} (xss : list (list V)) : nat := list_sum (map length xss).

(** A session delivers, when pools that are correlated stay so. *)
Lemma session_spec {P X Y Bt V W} (Q : Tri (list X) -> list V -> Prop) (Q' : Tri (list Y) -> list W -> Prop) (g : list V -> list W)
    (take_ : P -> nat -> Outcome (Bt * P)) (convert_ : list X -> Bt -> MPC (list Y)) (inv : Tri P -> nat -> Prop) (good : Tri Bt -> nat -> Prop) :
  (forall a xs, Q a xs -> length (t0 a) = length xs /\ length (t1 a) = length xs /\ length (t2 a) = length xs) ->
  (forall ps left_ n, inv ps left_ -> n <= left_ -> exists b ps', tmap (fun p => take_ p n) ps = tmap2 (fun b p => Ret (b, p)) b ps' /\ good b n /\ inv ps' (left_ - n)) ->
  (forall a xs b, Q a xs -> good b (length xs) -> protocol (tmap2 convert_ a b) (fun r => Q' r (g xs))) ->
  forall reqs xss, requests Q reqs xss -> forall ps left_, inv ps left_ -> needed xss <= left_ ->
  protocol (tmap2 (session take_ convert_) ps reqs) (fun r => requests Q' r (map g xss)).
Proof.
  intros HQ Htake Hconv reqs xss Hr. induction Hr as [|a0 a1 a2 xs l0 l1 l2 xss Ha Hl IH]; intros ps left_ Hi Hn; unfold tmap2; cbn [t0 t1 t2 session map].
  { apply protocol_ret'. constructor. }
  unfold needed in *. cbn [map list_sum fold_right] in Hn. destruct (HQ _ _ Ha) as (L0 & L1 & L2). cbn [t0 t1 t2] in L0, L1, L2. rewrite L0, L1, L2.
  destruct (Htake ps left_ (length xs) Hi ltac:(unfold list_sum in Hn; lia)) as (b & ps' & E & Hb & Hi'). unfold tmap, tmap2 in E. injection E as E0 E1 E2. rewrite E0, E1, E2. cbn [outcome_io].
  eapply protocol_bind; [apply (protocol_ret' (t0 b, t0 ps') (t1 b, t1 ps') (t2 b, t2 ps') (fun r => r = mkTri (t0 b, t0 ps') (t1 b, t1 ps') (t2 b, t2 ps'))); done|].
  intros ? ? ? [= -> -> ->]. cbn [fst snd]. eapply protocol_bind; [exact (Hconv _ _ _ Ha Hb)|]. intros o0 o1 o2 Ho.
  eapply protocol_bind; [exact (IH ps' (left_ - length xs) Hi' ltac:(unfold list_sum in *; lia))|]. intros u0 u1 u2 Hu. apply protocol_ret'. by constructor.
Qed.

(** ** The three sessions *)

Definition edabits_session (T : RingType) (seed0 : Seed) (num : nat) (reqs : list (list RingShare)) : MPC (list (list (Share F))) :=
  pool <~ random_edabits_lazy T seed0 num ;; session (take_batch reuse_preproc T) (r2f_b2a_preproc_many T) pool reqs.
Definition ring_session (T : RingType) (seed0 : Seed) (num : nat) (reqs : list (list RingShare)) : MPC (list (list RingShare)) :=
  pool <~ random_edabits_ring_lazy T seed0 num ;; session (ring_take_batch reuse_preproc T) (b2a_preproc_many T) pool reqs.
Definition dabits_session (seed0 : Seed) (num : nat) (reqs : list (list RingShare)) : MPC (list (list (Share F))) :=
  pool <~ random_dabits_lazy seed0 num ;; session (da_take_batch reuse_preproc) bit_inject_field_preproc_many pool reqs.

Lemma bshared_lengths w a xs : bshared_vec w a xs -> length (t0 a) = length xs /\ length (t1 a) = length xs /\ length (t2 a) = length xs.
Proof. apply tri_forall_length. Qed.

Lemma scratch_default_ok T : scratch_ok T (scratch_default (F := F)).
Proof. intros H. pose proof (k_pos T). cbn in H. lia. Qed.

(** A session on correlated pools. *)
Lemma edabits_session_spec T ps reqs xss : requests (bshared_vec (K T)) reqs xss -> correlated T ps -> cursor (t0 ps) + needed xss <= total (t0 ps) ->
  protocol (tmap2 (session (take_batch reuse_preproc T) (r2f_b2a_preproc_many T)) ps reqs) (fun r => requests shared_vec r (map (map of_Z) xss)).
Proof.
  intros Hr Hp Hn. refine (session_spec _ _ (map of_Z) _ _ (fun ps left_ => correlated T ps /\ cursor (t0 ps) + left_ <= total (t0 ps))
    (fun b n => exists gs, edabits T b gs /\ length gs = n) (bshared_lengths (K T)) _ _ reqs xss Hr ps (needed xss) (conj Hp Hn) _); [| |done].
  - intros ls left_ n [Hc Hl] Hle. destruct (take_correlated reuse_preproc T ls n Hc ltac:(lia)) as (ls' & E & Hc' & Ecur & Etot).
    exists (tmap (fun l => items T l (cursor l) n) ls), ls'. split; [rewrite E; by destruct ls|]. split.
    + exists (pool_gammas T ls n). split; [apply items_correlated; [done|lia]|]. unfold pool_gammas. by rewrite length_map, length_seq.
    + split; [done|]. lia.
  - intros a xs b Ha (gs & Hb & Hg). unfold r2f_b2a_preproc_many, tmap2. eapply protocol_bind; [exact (r2f_b2a_into_spec T a xs b gs (tpure scratch_default) Ha Hb Hg (scratch_default_ok T) (scratch_default_ok T) (scratch_default_ok T))|].
    intros s0 s1 s2 [Hs _]. apply protocol_ret'. exact Hs.
Qed.

(** C5: the generation of a pool of correlated bits ([random_edabits_lazy]) followed by
    any number of conversions, each with a batch taken from the pool
    ([take_batch], [r2f_b2a_preproc_many]), delivers field shares of the integers
    that were shared in binary, for every width, every schedule of the messages and
    as long as the pool has enough items.  Parties 0 and 1 regenerate their items,
    party 2 reads what it was sent. *)
Theorem edabits_session_converts T seed0 num reqs xss : 16 <= field_bytes_of (F := F) -> requests (bshared_vec (K T)) reqs xss -> needed xss <= num ->
  delivers (tmap (edabits_session T seed0 num) reqs) (fun r => requests shared_vec r (map (map of_Z) xss)).
Proof.
  intros Hfb Hr Hn. apply protocol_delivers. unfold tmap, edabits_session. eapply protocol_bind; [exact (random_edabits_spec T Hfb seed0 num)|].
  intros p0 p1 p2 (Hc & Ht & H0). exact (edabits_session_spec T (mkTri p0 p1 p2) reqs xss Hr Hc ltac:(lia)).
Qed.


(** C15: the same in the ring: pools of [random_edabits_ring_lazy] and [b2a_preproc_many]
    turn binary shares into ring shares of the same words. *)
Theorem ring_session_converts T seed0 num reqs xss : requests (bshared_vec (K T)) reqs xss -> needed xss <= num ->
  delivers (tmap (ring_session T seed0 num) reqs) (fun r => requests (rshared_vec T) r xss).
Proof.
  intros Hr Hn. apply protocol_delivers. rewrite <- (map_id xss). unfold tmap, ring_session. eapply protocol_bind; [exact (random_edabits_ring_spec T seed0 num)|].
  intros p0 p1 p2 (Hc & Ht & H0).
  refine (session_spec _ _ (fun xs => xs) _ _ (fun ps left_ => ring_correlated T ps /\ lr_cursor (t0 ps) + left_ <= lr_total (t0 ps))
    (fun b n => exists gs, ring_edabits T b gs /\ length gs = n) (bshared_lengths (K T)) _ _ reqs xss Hr (mkTri p0 p1 p2) num _ Hn).
  - intros ls left_ n [Hc' Hl] Hle. destruct (ring_take_correlated reuse_preproc T ls n Hc' ltac:(lia)) as (b & ls' & E & Hb & Hls & Ecur & Etot).
    exists b, ls'. split; [done|]. split; [exists (ring_pool_gammas T ls n); split; [done|unfold ring_pool_gammas; by rewrite length_map, length_seq]|]. split; [done|]. lia.
  - intros a xs b Ha (gs & Hb & Hg). exact (b2a_preproc_spec T a xs b gs Ha Hb Hg).
  - split; [done|]. lia.
Qed.

(** C14: pools of single correlated bits ([random_dabits_lazy]) and
    [bit_inject_field_preproc_many] turn binary shares of bits into field shares of
    the bits, batch after batch. *)
Theorem dabits_session_converts seed0 num reqs xss : 16 <= field_bytes_of (F := F) -> requests (bshared_vec 1) reqs xss -> needed xss <= num ->
  delivers (tmap (dabits_session seed0 num) reqs) (fun r => requests shared_vec r (map (map of_Z) xss)).
Proof.
  intros Hfb Hr Hn. apply protocol_delivers. unfold tmap, dabits_session. eapply protocol_bind; [exact (random_dabits_spec seed0 num Hfb)|].
  intros p0 p1 p2 (Hc & Ht & H0).
  refine (session_spec _ _ (map of_Z) _ _ (fun ps left_ => da_correlated ps /\ d_cursor (t0 ps) + left_ <= d_total (t0 ps))
    (fun b n => exists vs, dabits b vs /\ length vs = n) (bshared_lengths 1) _ _ reqs xss Hr (mkTri p0 p1 p2) num _ Hn).
  - intros ls left_ n [Hc' Hl] Hle. destruct (da_take_correlated reuse_preproc ls n Hc' ltac:(lia)) as (ls' & E & Hls & Ecur & Etot).
    exists (da_items ls n), ls'. split; [done|]. split; [exists (pool_bits ls n); split; [apply da_items_dabits|unfold pool_bits; by rewrite length_map, length_seq]|]. split; [done|]. lia.
  - intros a xs b Ha (vs & Hb & Hg). exact (bit_inject_preproc_spec a xs b vs Ha Hb Hg).
  - split; [done|]. lia.
Qed.


(** C29: the loops that split work end.  [build_segment_plans] makes its plans in at most
    [total_items] rounds (more rounds change nothing); the plans are nonempty, not
    longer than a segment, and their items are [0 .. total_items] in order, each
    once; the forks of [par_segment_plans] get each plan exactly once, in order.
    The loop of [prepare_precache] ends within [requested] rounds with the stores
    written. *)
Theorem segment_loops_end size_of_F T (l : LazyEdaBits) total_items segment_items forks requested more :
  lazy_ok T l -> party_id l <> ID2 -> 0 < forks -> 0 < requested -> cursor l + requested <= total l ->
  plan_loop total_items (Nat.max segment_items 1) (total_items + more) 0 = plan_loop total_items (Nat.max segment_items 1) total_items 0 /\
  concat (map plan_range (build_segment_plans total_items segment_items)) = seq 0 total_items /\
  Forall (fun p => 0 < plan_items p <= Nat.max segment_items 1) (build_segment_plans total_items segment_items) /\
  concat (fork_plans (build_segment_plans total_items segment_items) forks) = build_segment_plans total_items segment_items /\
  (let stores := (create_file_backed_sized fzero (requested * Z.to_nat (K T)), match party_id l with ID0 => create_file_backed_sized 0%Z requested | _ => Empty end) in
   let loop fuel := precache_loop T l requested (precache_chunk_len size_of_F T requested) fuel 0 stores in
   loop (requested + more) = loop requested /\ exists stores', loop requested = Ret stores' /\ written T l requested requested stores').
Proof.
  intros Hok Hid Hf Hr Hn. pose proof (precache_chunk_pos size_of_F T requested Hr) as Hc. split; [apply plan_loop_fuel; lia|].
  assert (Hb : build_segment_plans total_items segment_items = plan_loop total_items (Nat.max segment_items 1) total_items 0) by (unfold build_segment_plans; by destruct total_items).
  destruct (plan_loop_spec total_items (Nat.max segment_items 1) total_items ltac:(lia) 0 ltac:(lia)) as [E HF]. rewrite Nat.sub_0_r in E.
  rewrite Hb. split; [done|]. split; [done|]. split; [by apply fork_plans_spec|]. split; [apply precache_loop_fuel; lia|].
  apply precache_loop_spec; try done; try lia. apply written_start.
Qed.

(** C36: the masked opening of [r2f_preproc_many] (ring shares of [x] and a mask [r] shared in
    the ring and in the field): the field shares it delivers are of [x] when the mask
    is not larger than [x], and of [x + 2^K] when it is.  The precondition in its
    documentation, [x] in the range of the ring, does not exclude the second case. *)
Theorem masked_opening_wraps T a xs e rs : rshared_vec T a xs -> daring T e rs -> length xs = length rs -> Forall (word (K T)) xs -> Forall (word (K T)) rs ->
  delivers (tmap2 (r2f_preproc_many T) a e) (fun r => shared_vec r (zip_with (fun x r => of_Z (if (r <=? x)%Z then x else (x + 2 ^ K T)%Z)) xs rs : list F)).
Proof.
  intros Ha He El Hx Hr. apply protocol_delivers. eapply protocol_weaken; [exact (r2f_preproc_spec T a xs e rs Ha He El)|]. intros r Hs.
  enough (E : zip_with (fun x r => fadd (of_Z r) (of_Z (rmod T (x - r)))) xs rs = zip_with (fun x r => of_Z (if (r <=? x)%Z then x else (x + 2 ^ K T)%Z)) xs rs) by (by rewrite <- E).
  clear -Hx Hr. revert rs Hr. induction Hx as [|x xs Hx _ IH]; intros [|r rs] Hr; [done..|]. inversion Hr; subst. cbn. by rewrite masked_opening, IH.
Qed.

(** C35: the files that describe pools.  What [write_meta] writes, [read_meta] reads back;
    [update_cursor] changes the cursor and nothing else (and nothing at all with the
    feature [reuse-preproc]); a file that was cut is refused; the same for the files of
    the cache; the byte of a party is read back. *)
Theorem meta_files_round_trip m pm c id cut : meta_ok m -> precache_meta_ok pm -> fits 8 c -> cut < CURSOR_OFFSET + 8 + 4 ->
  read_meta (write_meta m) = Some m /\
  read_meta (update_cursor reuse_preproc (write_meta m) c) = Some (if reuse_preproc then m else with_cursor m c) /\
  read_meta (take cut (write_meta m)) = None /\
  read_precache_meta (write_precache_meta pm) = Some pm /\
  byte_to_party_id (party_id_to_byte id) = Some id.
Proof.
  intros Hm Hp Hc Hcut. split; [by apply read_write_meta|]. split; [|split; [|split; [by apply read_write_precache_meta|apply party_id_round_trip]]].
  - destruct reuse_preproc; [by apply read_write_meta|]. rewrite update_write_meta by done. apply read_write_meta. destruct Hm as [H1 H2 (H3 & _ & H5)]. by split.
  - apply read_meta_short. rewrite length_take. lia.
Qed.

(** C38: a part of a reservation that starts past the end of the cache of party 0 or 1 is not
    filled: the subtraction of the cached part underflows, which panics with overflow
    checks and ends in an error without them, though the items could be regenerated. *)
Theorem reservation_past_cache_fails T (l : LazyEdaBits) n s m from len : lazy_ok T l -> storage_mode l = P01Precache s m ->
  0 < m -> length (contents (alphas_flat_store l)) = m * Z.to_nat (K T) -> cursor l + n <= total l -> s + m < cursor l + from -> 0 < len -> from + len <= n ->
  (Z.of_nat (cursor l + n) < 2 ^ 64)%Z ->
  exists view range part, reserve_range T l n = Ret (view, range) /\ range_view view from len = Ret part /\
    fill_into_par_safe T part = (if overflow_checks then Fault else Refuse) /\
    exists l', take_batch reuse_preproc T l n = Ret (items T l (cursor l) n, l').
Proof.
  intros Hok Em Hm Hlen Hn Hp Hl Hf H64. destruct (reserve_view T l n Hok Hn) as (range & E & Hv). exists (view_of l n (cursor l) n), range, (view_of l n (cursor l + from) len).
  split; [done|]. split; [by apply Hv|]. split; [|destruct (proj2 (take_spec reuse_preproc T l n Hok) Hn) as (l' & Et & _); by exists l'].
  assert (Hs : sized (alphas_flat_store l)).
  { pose proof (ok_store _ _ Hok) as Hs. rewrite Em in Hs. destruct (party_id l); [apply Hs..|]. destruct Hs as (? & _). done. }
  eapply fill_past_cache; [exact Em|done|lia|done|lia|done|done].
Qed.

(** C37: a pool of party 2 that was loaded with no items keeps no file, and its extension
    receives nothing ([pre_extended_writer] is [None]) but counts the items: the
    summands party 0 sends are left in the channel, and taking one of the items
    panics. *)
Theorem empty_pool_extension_lost T (l : LazyEdaBits) deficit max n (c : IoContext) : party_id l = ID2 -> alphas_flat_store l = Empty -> total l = 0 -> cursor l = 0 ->
  0 < n -> n <= deficit -> io_id c = ID2 ->
  exists l', extend_edabits T l deficit max c = Done (l', c) /\ remaining l' = deficit /\ take_batch reuse_preproc T l' n = Fault.
Proof.
  intros Hid Hs Ht Hc Hn Hd Hio. destruct (extension_not_stored T reuse_preproc l deficit max n Hid Hs ltac:(lia) Hn ltac:(lia)) as [E1 E2].
  exists (with_total l (total l + deficit) Empty). split; [by rewrite E1|]. split; [unfold remaining; cbn; lia|done].
Qed.

(** C39: [LazyEdaBitsRing::take_batch] writes its cursor to the file on party 2 only.  Pools that
    are loaded, used and loaded again have lost their correlation: parties 0 and 1
    start again at the old cursor, party 2 behind the items that were taken. *)
Theorem ring_reload_desynchronised T seed0 dirs ls n : tmap2 (ring_load seed0) dirs party_ids = tmap Ret ls -> ring_correlated T ls ->
  0 < n -> lr_cursor (t0 ls) + n <= lr_total (t0 ls) -> reuse_preproc = false ->
  exists b ls' rs, tmap (fun l => ring_take_batch reuse_preproc T l n) ls = tmap2 (fun b l => Ret (b, l)) b ls' /\ ring_correlated T ls' /\
    tmap2 (ring_load seed0) (tmap2 dir_after dirs ls') party_ids = tmap Ret rs /\
    lr_cursor (t0 rs) = lr_cursor (t0 ls) /\ lr_cursor (t1 rs) = lr_cursor (t0 ls) /\ lr_cursor (t2 rs) = lr_cursor (t0 ls) + n /\ ~ ring_correlated T rs.
Proof.
  intros Hd Hc Hn Ht Hre. destruct (ring_take_correlated reuse_preproc T ls n Hc Ht) as (b & ls' & E & _ & Hc' & _ & _).
  destruct (rc_ids _ _ Hc) as (I0 & I1 & I2). destruct (rc_total _ _ Hc) as (T1 & T2). destruct (rc_cursor _ _ Hc) as (C1 & C2).
  unfold tmap, tmap2, party_ids in Hd. injection Hd as D0 D1 D2. cbn [t0 t1 t2] in D0, D1, D2.
  destruct (loaded_persisted _ _ _ _ D0 ltac:(lia)) as [P0 _], (loaded_persisted _ _ _ _ D1 ltac:(lia)) as [P1 _].
  destruct (loaded_persisted _ _ _ _ D2 ltac:(lia)) as [P2 _]. pose proof E as Et.
  unfold tmap, tmap2, ring_take_batch in E. rewrite I0, I1, I2, T1, T2, C1, C2, Hre in E. destruct (Nat.ltb_spec (lr_total (t0 ls)) (lr_cursor (t0 ls) + n)); [lia|].
  destruct (Nat.eqb_spec n 0); [lia|]. destruct (read_consume _ _ _) eqn:Er; [|done]. cbn in E. injection E as _ E0 _ E1 _ E2.
  destruct (reload_after _ _ _ _ (t0 ls') (lr_cursor (t0 ls)) D0) as (r0 & R0 & K0); [lia|by rewrite <- E0..|].
  destruct (reload_after _ _ _ _ (t1 ls') (lr_cursor (t0 ls)) D1) as (r1 & R1 & K1); [lia|by rewrite <- E1..|rewrite <- E1; cbn; congruence|].
  destruct (reload_after _ _ _ _ (t2 ls') (lr_cursor (t0 ls) + n) D2) as (r2 & R2 & K2); [lia|by rewrite <- E2..|rewrite <- E2; cbn; by rewrite P2|].
  exists b, ls', (mkTri r0 r1 r2). split; [exact Et|]. split; [done|]. unfold tmap, tmap2, party_ids. cbn [t0 t1 t2]. rewrite R0, R1, R2. split_and!; try done.
  intros [_ _ _ [_ Cx] _ _ _]. cbn in Cx. lia.
Qed.

End Sessions.

(** ** Concrete instances *)

#[local] Existing Instance test_rv64.

Definition s130 (z : Z) : Seed (F := F130) := z.
Lemma bytes130 : 16 <= field_bytes_of (F := F130).
Proof. apply Nat.leb_le. vm_compute. reflexivity. Qed.

(** Shares of the bits of values, in vectors and requests. *)
Definition bit_shares (v : Z) : Tri BinaryShare := shares_of (Z.lxor v 1) 1%Z 0%Z.
Definition bit_vector (vs : list Z) : Tri (list BinaryShare) :=
  mkTri (map (fun v => t0 (bit_shares v)) vs) (map (fun v => t1 (bit_shares v)) vs) (map (fun v => t2 (bit_shares v)) vs).
Definition bit_requests (vss : list (list Z)) : Tri (list (list BinaryShare)) :=
  mkTri (map (fun vs => t0 (bit_vector vs)) vss) (map (fun vs => t1 (bit_vector vs)) vss) (map (fun vs => t2 (bit_vector vs)) vss).

Lemma bit_shares_spec w v : (0 < w)%Z -> word w v -> bshared w (bit_shares v) v.
Proof.
  intros Hw Hv. assert (word w 1) by (pose proof (Z.pow_gt_1 2 w); unfold word; lia). exists (Z.lxor v 1), 1%Z, 0%Z. split; [apply bword_lxor; [lia|done..]|].
  split; [done|]. split; [apply word_0; lia|]. split; [reflexivity|bits].
Qed.
Lemma bit_requests_spec w vss : (0 < w)%Z -> Forall (Forall (word w)) vss -> requests (bshared_vec w) (bit_requests vss) vss.
Proof.
  intros Hw. induction 1 as [|vs vss Hv _ IH]; [constructor|]. constructor; [|exact IH]. clear IH.
  induction Hv; [constructor|]. constructor; [by apply bit_shares_spec|done].
Qed.

Definition bytes_requests : list (list Z) := [[5%Z]; [200%Z; 7%Z]].
Lemma bytes_requests_words : Forall (Forall (word (K U8))) bytes_requests.
Proof. repeat constructor; done. Qed.

Lemma edabits_session_converts_witness :
  delivers (F := F130) (tmap (edabits_session false U8 (s130 0) 3) (bit_requests bytes_requests))
    (fun r => requests shared_vec r (map (map (of_Z : Z -> F130)) bytes_requests)).
Proof.
  apply (edabits_session_converts (F := F130) false U8 (s130 0) 3 (bit_requests bytes_requests) bytes_requests bytes130).
  - apply bit_requests_spec; [done|exact bytes_requests_words].
  - cbn. lia.
Defined.

Lemma ring_session_converts_witness :
  delivers (F := F130) (tmap (ring_session false U8 (s130 0) 3) (bit_requests bytes_requests))
    (fun r => requests (rshared_vec U8) r bytes_requests).
Proof.
  apply (ring_session_converts (F := F130) false U8 (s130 0) 3 (bit_requests bytes_requests) bytes_requests).
  - apply bit_requests_spec; [done|exact bytes_requests_words].
  - cbn. lia.
Defined.

Lemma dabits_session_converts_witness :
  delivers (F := F130) (tmap (dabits_session false (s130 0) 4) (bit_requests [[1%Z; 0%Z]; [1%Z]]))
    (fun r => requests shared_vec r (map (map (of_Z : Z -> F130)) [[1%Z; 0%Z]; [1%Z]])).
Proof.
  apply (dabits_session_converts (F := F130) false (s130 0) 4 (bit_requests [[1%Z; 0%Z]; [1%Z]]) [[1%Z; 0%Z]; [1%Z]] bytes130).
  - apply bit_requests_spec; [done|]. repeat constructor; done.
  - cbn. lia.
Defined.

(** Pools with no items, party 2 with an empty file. *)
Definition empty_pools : Tri (LazyEdaBits (F := F130)) :=
  mkTri (lazy_new (s130 11) 0 (s130 12) 0 0 [] ID0) (lazy_new (s130 13) 0 (s130 11) 0 0 [] ID1)
    (lazy_new_with_store (s130 12) 0 (s130 13) 0 0 (create_file_backed_sized fzero 0) P2Authoritative Empty ID2).
Lemma empty_pools_correlated : correlated U8 empty_pools.
Proof.
  pose proof bytes130. split; try done; [|cbn; lia]. split; [|split]; split; cbn -[field_bytes_of]; try done; try lia. split; [done|]. split; [lia|by left].
Qed.


(** A pool whose cache was used up. *)
Definition used_cache : LazyEdaBits (F := F130) :=
  mkLazyEda (s130 1) 0 (s130 2) 0 5 17 2 (InMemory (replicate 8 fzero)) (P01Precache 0 1) Empty ID1 None.
Lemma used_cache_ok : lazy_ok U8 used_cache.
Proof. split; cbn; try done; try lia. split; cbn; try done; lia. Qed.


Lemma segment_loops_end_witness : concat (map plan_range (build_segment_plans 10 4)) = seq 0 10 /\
  concat (fork_plans (build_segment_plans 10 4) 2) = build_segment_plans 10 4.
Proof.
  destruct (segment_loops_end (F := F130) 32 U8 used_cache 10 4 2 1 7 used_cache_ok) as (_ & H1 & _ & H2 & _); [done|lia|lia|cbn; lia|].
  split; [exact H1|exact H2].
Defined.

Lemma reservation_past_cache_fails_witness : exists view range part, reserve_range U8 used_cache 2 = Ret (view, range) /\ range_view view 0 2 = Ret part /\
  fill_into_par_safe (F := F130) U8 part = Fault /\ exists l', take_batch false U8 used_cache 2 = Ret (items U8 used_cache 2 2, l').
Proof. apply (reservation_past_cache_fails (F := F130) (B := test_rv64) false U8 used_cache 2 0 1 0 2 used_cache_ok); cbn; try done; lia. Defined.

Lemma empty_pool_extension_lost_witness : exists l', extend_edabits (F := F130) U8 (lazy_empty (s130 3) ID2) 4 3 (t2 contexts130) = Done (l', t2 contexts130) /\
  remaining l' = 4 /\ take_batch false U8 l' 1 = Fault.
Proof. apply (empty_pool_extension_lost (F := F130) false U8 (lazy_empty (s130 3) ID2) 4 3 1 (t2 contexts130)); try done; lia. Defined.

(** The mask 9 is larger than the value 4. *)
Definition ring_vector (v : Z) : Tri (list RingShare) := mkTri [mkShare v 0%Z] [mkShare 0%Z v] [mkShare 0%Z 0%Z].
Lemma ring_vector_shared v : word (K U8) v -> rshared U8 (shares_of v 0%Z 0%Z) v.
Proof. intros Hv. exists v, 0%Z, 0%Z. split; [done|]. split; [done|]. split; [done|]. split; [done|]. rewrite !Z.add_0_r. symmetry. by apply rmod_small. Qed.
Definition mask_vector (r : Z) : Tri (list (DaRing F130)) :=
  mkTri [mkDaRing (mkShare r 0%Z) (mkShare (of_Z r) (of_Z 0))] [mkDaRing (mkShare 0%Z r) (mkShare (of_Z 0) (of_Z r))] [mkDaRing (mkShare 0%Z 0%Z) (mkShare (of_Z 0) (of_Z 0))].
Lemma mask_vector_daring r : word (K U8) r -> daring U8 (mask_vector r) [r].
Proof.
  intros Hr. constructor; [|constructor]. split; [exact (ring_vector_shared r Hr)|]. exists (of_Z r), (of_Z 0), (of_Z 0). split; [done|]. rewrite <- !of_Z_add. f_equal. lia.
Qed.

Lemma masked_opening_wraps_witness : delivers (F := F130) (tmap2 (r2f_preproc_many U8) (ring_vector 4) (mask_vector 9)) (fun r => shared_vec r [of_Z 260 : F130]).
Proof.
  apply (masked_opening_wraps (F := F130) U8 (ring_vector 4) [4%Z] (mask_vector 9) [9%Z]); [| |done|repeat constructor; done|repeat constructor; done].
  - constructor; [by apply ring_vector_shared|constructor].
  - by apply mask_vector_daring.
Defined.

Definition sample_meta : MetaData := mkMeta (replicate 32 7%Z) 5 (replicate 32 9%Z) 6 1000 2 10 32.
Definition sample_precache_meta : EdaBitsPrecacheMeta := mkPrecacheMeta (replicate 32 7%Z) 5 (replicate 32 9%Z) 6 32 1000 10 20 1.
Lemma meta_files_round_trip_witness : read_meta (update_cursor false (write_meta sample_meta) 11) = Some (with_cursor sample_meta 11) /\ read_meta (take 50 (write_meta sample_meta)) = None.
Proof.
  destruct (meta_files_round_trip false sample_meta sample_precache_meta 11 ID1 50) as (_ & H & H' & _); [repeat split; done|repeat split; done|done|cbn; lia|].
  split; [exact H|exact H'].
Defined.

(** Pools of one item of one bit, saved and loaded. *)
Definition one_summand : Z :=
  ring_sub Bit (Z.b2z (Z.testbit (ring_gamma_at (F := F130) Bit (s130 11) 0 (s130 12) 0 0) 0)) (ring_alpha_at (F := F130) Bit (s130 11) 0 0 0).
Definition saved_dirs : Tri (RingDir (F := F130)) :=
  tmap (fun l => fst (ring_save l (mkRingDir None None)))
    (mkTri (ring_new (s130 11) 0 (s130 12) 0 1 [] ID0) (ring_new (s130 13) 0 (s130 11) 0 1 [] ID1) (ring_new (s130 12) 0 (s130 13) 0 1 [one_summand] ID2)).
Definition loaded_pools : Tri (LazyEdaBitsRing (F := F130)) :=
  mkTri (mkLazyRing (s130 11) 0 (s130 12) 0 1 0 Empty ID0 (Some 0)) (mkLazyRing (s130 13) 0 (s130 11) 0 1 0 Empty ID1 (Some 0))
    (mkLazyRing (s130 12) 0 (s130 13) 0 1 0 (FileBacked [one_summand] 1 1) ID2 (Some 0)).
Lemma loaded_pools_correlated : ring_correlated Bit loaded_pools.
Proof.
  split; try done. intros i j _ Hi Hj. change (Z.to_nat (K Bit)) with 1 in *. cbn [lr_total t0 loaded_pools] in Hi.
  assert (i = 0) as -> by lia. assert (j = 0) as -> by lia. reflexivity.
Qed.

Lemma ring_reload_desynchronised_witness : exists b ls' rs, tmap (fun l => ring_take_batch false Bit l 1) loaded_pools = tmap2 (fun b l => Ret (b, l)) b ls' /\ ring_correlated Bit ls' /\
  tmap2 (ring_load (s130 0)) (tmap2 dir_after saved_dirs ls') party_ids = tmap Ret rs /\
  lr_cursor (t0 rs) = 0 /\ lr_cursor (t1 rs) = 0 /\ lr_cursor (t2 rs) = 1 /\ ~ ring_correlated Bit rs.
Proof. apply (ring_reload_desynchronised (F := F130) false Bit (s130 0) saved_dirs loaded_pools 1 eq_refl loaded_pools_correlated); try done; cbn; lia. Defined.
